(* ===== verification/_CoqProject ===== *)
-Q . S2P
Prelude.v
Journal.v
JournalFacts.v
LedgerWorker.v
LedgerWorkerFacts.v
Fanout.v
FanoutFacts.v
Paths.v
AttachConfig.v
Validate.v
Ingest.v
Registry.v
BundleRuntime.v
Handlers.v
HandlersFacts.v
Readiness.v
Envelope.v
NatsConfig.v
RateLimit.v
Egress.v
EgressLedger.v
EgressFacts.v
Preflight.v
Crypto.v
NodeDocs.v
ExclusionLedger.v
NodeDocsFacts.v
Ingress.v
IngressFacts.v
Reconcile.v
ReconcileFacts.v
Json.v
Query.v
Lifecycle.v
LifecycleFacts.v
Supervisor.v
SupervisorFacts.v
Shutdown.v
ShutdownFacts.v
PathFacts.v
Inbox.v
InboxFacts.v
Outbox.v
OutboxFacts.v
Peers.v
PeersFacts.v
Observer.v
ObserverFacts.v
Subscribe.v
Service.v
JournalFrame.v
Install.v
InstallFacts.v
Anchor.v
Watcher.v
Process.v
ProcessFacts.v
CliCore.v
CliWorld.v
CliWrites.v
CliWritesFacts.v
CliOutput.v
CliCommands.v
CliCommandsFacts.v
CliFacts.v
CliSession.v
CliAttach.v
NodeStart.v
NodeStartFacts.v
Boot.v
ServiceRpc.v
ServiceRpcFacts.v
Relay.v
EnvelopeText.v
Admission.v
RelayRuns.v
BridgeLog.v
Handle.v
BuildScript.v
Listen.v
