(* ===== verification/Prelude.v ===== *)
(** * peat-node: a verification development

    peat-node is a sidecar that replicates documents and files over a peer-to-peer
    mesh. This development models the parts of it that carry its own logic and
    proves what makes them correct. It is a shallow embedding: a pure Rust function
    is a Rocq function, a [&mut self] method that can fail is a computation in the
    state-and-error monad below or an explicit state pass, a task that suspends is
    split into steps at its suspension points, and the interleavings of tasks are
    the sequences of steps.

    ** The program's parts and where they are

    - The durable journals of the NATS bridge ([src/nats_bridge/ledger.rs]).
      [Journal] has the record codec, the digest framing, a file system with
      faults, and the journal's open, recover, record and compact; [JournalFacts]
      proves the codec exact, recovery exact on every torn image, every operation a
      refinement of an append-only log under every fault plan, and at most one grant
      per digest over any history of crashes and restarts. [LedgerWorker] has the
      worker thread behind its bounded queue and the two facades;
      [LedgerWorkerFacts] lifts the theorems to every interleaving of clients and
      thread.
    - The relay fanout queue ([src/fanout.rs]). [Fanout] has the priority queue with
      its starvation guard, coalescing and the worker's park/notify protocol;
      [FanoutFacts] proves the queue invariant, bounded bypass, that coalescing
      covers every intent and that no wake-up is lost.
    - Attachments ([src/attachments/]). [Paths] is the view of the file system and
      the error type; [AttachConfig] is [config.rs]; [Validate] is [validate.rs];
      [Ingest] is [ingest.rs] against the interfaces [BlobStore] and
      [FileDistribution]; [Registry] is [registry.rs]; [BundleRuntime] is
      [runtime.rs]; [Handlers] and [HandlersFacts] are [handlers.rs], which compose
      the others into the send, status, cancel and subscribe handlers and the
      background watchers.
    - The NATS bridge ([src/nats_bridge/]). [Readiness] is [readiness.rs];
      [Envelope] is [envelope.rs] over a UTF-8 decoder; [NatsConfig] is
      [config.rs]; [RateLimit] is the warning bucket that egress and ingress share;
      [Egress] is [egress.rs] (classification, admission, the publisher loop, as a
      step system) against the interface [LedgerOps], which [EgressLedger] shows the
      delivery journal implements; [EgressFacts] proves at-most-once publication,
      the accounting of every event, byte-exact transport and lossless diagnostics.
      [Ingress] and [IngressFacts] are [ingress.rs]; [Reconcile] and
      [ReconcileFacts] are [reconcile.rs].
    - The node's documents ([src/node.rs], [src/crypto.rs]). [Preflight] is the
      structural preflight, proved equal to a specification on trees; [Crypto] is
      [crypto.rs]; [NodeDocs] has writes, reads, deletion, remote forwarding and the
      reconciliation candidate against the interface [ExclusionOps], which
      [ExclusionLedger] shows the exclusion journal implements; [NodeDocsFacts]
      proves write-ahead exclusion, create-only writes, the agreement of the live and
      the reconciliation path, and the round trip through the cipher.

    - The bridge runtime ([src/nats_bridge/runtime.rs], [operations.rs]).
      [Lifecycle] has the lifecycle snapshot and callbacks, the readiness barrier,
      retry and log pacing and the subscription readers, [Supervisor] the
      supervisor's select loop as a step system over them, [Shutdown] the ordered
      shutdown with its one deadline and the operations snapshot; the files with
      [Facts] prove that readiness is always confirmed by a barrier of the live
      generation, that a connection leads to readiness, and the exact shutdown
      report.
    - The public change stream ([src/query.rs], [src/node.rs], [src/service.rs]).
      [Json] is the interface to serde_json; [Query] is [query.rs]; [Observer] has
      the forwarders of store changes with their diagnostics and the listener that
      feeds the relay queue; [Subscribe] has the subscription's snapshot and live
      stream and proves that a subscriber is never left behind. [Service] has the
      typed documents' conversions and the collection settings, with their round
      trips.
    - Files in and out ([src/attachments/inbox.rs], [outbox.rs]). [PathFacts] are
      the lemmas on paths; [Inbox] delivers blobs over a file system whose every
      call can fail, and [InboxFacts] proves it confined and atomic; [Outbox] is the
      watcher that sends stable files, and [OutboxFacts] proves it a product of one
      automaton per path.
    - Peers ([src/node.rs], [src/identity.rs]). [Peers] has dialling, the registry,
      the reconnect watchdog, mDNS and Kubernetes discovery and the derived
      identities; [PeersFacts] proves recovery, the bounds of the backoff and the
      agreement of the identities.
    - The process ([src/main.rs], [src/watcher.rs], the journal installation and
      bridge start of [src/node.rs]). [JournalFrame] shows that two journals of one
      data directory do not disturb each other; [Install] installs both journals and
      starts the bridge over them, and [InstallFacts] proves that exclusions survive
      restarts and what a bridge start does on every branch. [Watcher] is the agent
      watcher's poll round. [Anchor] is the walk to the journals' directory, one
      open without following links per component, over a table of inodes. [Process]
      is the process entry: the environment, the order of checks and effects at
      start-up, the initial peers, the stop of the serving loops and the exit;
      [ProcessFacts] are its theorems. [Listen] is the preparation of the socket the
      process serves on. [BuildScript] is [build.rs], which finds the versions the
      process prints in the text of the lock file.
    - The bridge from outside ([src/nats_bridge/]). [BridgeLog] has the records every
      [emit] function writes and the task that writes the operations record, and
      proves that they depend on routes, sizes and outcomes alone. [Handle] is the
      handle the process holds, with [Drop].
    - Several bridges as one system. [Relay] composes readers, ingress, the node as
      its writer, forwarding, reconciliation and egress over brokers and a mesh whose
      steps are the environment's, and proves that messages are relayed one to one;
      [RelayRuns] that one crosses, and that two bridges on one broker feed each
      other. [EnvelopeText] has the laws on the lengths of what the libraries write
      and an instance that writes envelopes as compact JSON; [Admission] relates the
      limits of ingress to those of forwarding.
    - The node as a whole ([src/node.rs], [src/service.rs]). [NodeStart] is
      [SidecarNode::new]: the backend's settings and identity, the cipher, the tasks
      started and the node assembled from the other components' states, with the
      retention sweep and the sync switch; [NodeStartFacts] proves that a start is
      all or nothing and establishes every component's invariant, that pods of a
      formation compute each other's endpoints, and how long a finished bundle can
      be kept. [Boot] composes [Process] with [NodeStart], relates the running
      node's identity to the one computed offline, and has the table of options with
      how one is resolved. [ServiceRpc] has the RPC handlers over that node with a
      dispatch from requests to answers; [ServiceRpcFacts] proves which errors they
      answer, what each may change, and that a typed document that was put is listed
      with its fields.
    - The command line client ([crates/peat-cli/src/]). [CliCore] has errors and
      exit codes, timeouts, targets and credentials ([cli/mod.rs], [creds.rs],
      [main.rs]); [CliWorld] the mesh it talks to as an interface, the process state
      and the command monad; [CliWrites] the construction of documents
      ([cli/writes.rs]); [CliOutput] rendering and the type registry's listing
      ([cli/output.rs], [cli/schema.rs]); [CliCommands] create, update, delete,
      query and observe; [CliSession] the session and its background tasks
      ([join.rs]); [CliAttach] attachments ([cli/attach.rs]). The files with [Facts]
      prove that create never overwrites, that update stores what it proposes, that
      [--set] is a lens and documents are well formed, what query and observe show,
      whom a session joins, and that the client's inbox sink and the node's do the
      same, call by call.

    How they interact: ingress writes documents through the node, whose local writes
    are first recorded in the exclusion journal; remote changes reach egress live or
    through reconciliation, which asks both journals; egress reserves in the delivery
    journal, queues, publishes and completes. Attachment handlers validate against
    the configuration, ingest into the blob store, register the bundle and feed its
    runtime from the distribution's progress.

    ** Conventions

    Machine integers are [Z] with wrap-around, saturation or checks written out
    ([wrapping_add_u64], [saturating_add_u64], [checked_add_u64]); bytes are
    [Byte.byte]; a Rust string is its UTF-8 bytes as a [string]; a [HashMap] or
    [BTreeMap] used as a map is a [gmap]. Clocks, random ids, broker outcomes and
    faults are inputs. Third-party code (SHA-256, the file system, peat-mesh's blob
    and document stores, Automerge, serde_json, async-nats, AES-GCM, base64) is a
    parameter: a type class of operations, with the documented behaviour a theorem
    relies on as a class of laws. Each file ends with concrete instances for which
    the laws hold and with the theorems evaluated on them.

    Bounds and fuel: [LedgerWorker.drain] takes the queue length, as each step
    consumes one command ([drain_empty]); [Envelope.chars] takes the number of
    bytes, as a character has at least one; [Preflight] takes the object limit plus
    one, and [preflight_exact] shows that it always answers; [Outbox.walk_files]
    takes the number of directories plus two, as each iteration pops one
    ([walk_files_exact]); [Peers.connect_loop] takes the number of attempts, and so
    does [CliSession.dial_attempts] ([dial_attempts_spec]). Everything else is
    structural; the polls of query and the rounds of observe recurse on the list of
    their inputs.

    ** What the theorems show

    Safety of delivery: [at_most_one_grant], [worker_grants_once],
    [publish_at_most_once], [local_documents_never_offered]. Durability:
    [record_crash_consistent], [open_recovers_log], [record_codec_exact]. Nothing is
    lost unseen: [every_offer_counted_once], [ingress_accounting],
    [scan_once_exact], [no_trigger_lost], [no_lost_wakeup], the two lossless-warning
    theorems. Fairness: [bounded_bypass]. Exact functional behaviour:
    [validate_request_exact], [bridge_config_exact], [ready_iff_history],
    [preflight_exact], [transport_byte_exact], [ingest_ok_exact] and others. Errors
    and rollback: [failed_ingest_rolls_back], [rejected_send_leaves_no_trace],
    [unhealthy_is_final]. Some theorems state what the code does where it departs
    from its documentation ([compaction_of_completed_is_fatal],
    [torn_header_is_fatal], [record_behind_failed_append_is_fatal],
    [close_race_drops_entry], [mismatch_deletes_pre_existing_blob],
    [relabel_closes_stream_early], [lagging_subscriber_never_closes],
    [stale_watcher_overwrites_status], [cancel_of_completed_reports_true],
    [alias_write_bypasses_exclusion], [coalesced_loss_silences_warnings],
    [fallback_id_escapes_inbox], [same_size_counts_as_delivered],
    [overlapping_roots_skip_the_wait], [disconnect_undone_by_watchdog],
    [mdns_failure_excludes_peer], [absent_document_announced_as_upsert],
    [failed_write_still_visible], [stop_sync_stops_nothing],
    [k8s_discovery_runs_without_pod_name], [dotdot_is_skipped],
    [closed_pipe_panics], [set_replaces_non_objects], [failed_dial_excludes_peer],
    [pusher_stops_at_lag], [store_keys_need_plain_collections],
    [shared_broker_feeds_back], [encrypted_message_stays_behind],
    [uncertain_reservations_fall]).

    The whole path: [bridges_relay_one_to_one], [message_crosses],
    [accepted_messages_leave]. What the bridge tells and leaves:
    [egress_logs_reveal_no_content], [ingress_logs_reveal_no_payload],
    [operations_task_exact], [dropped_bridge_is_inert].
    The bridge's readiness: [ready_is_confirmed], [connection_leads_to_ready],
    [shutdown_exact]. Subscribers: [subscription_converges], [forwarders_account],
    [from_proto_exact]. Files: [deliver_confined_atomic], [outbox_refines_paths],
    [outbox_mirrored_in_inbox], [walk_files_exact]. Peers: [watchdog_recovers],
    [watchdog_backoff_bounds], [disconnect_holds], [derived_ids_agree]. Conversions
    and settings: [typed_documents_roundtrip], [configs_survive_restart].
    The process: [exclusions_survive_restarts], [bridge_start_exact],
    [checks_precede_effects], [process_stop_exact], [printed_config_hides_secrets],
    [initial_peers_exact], [client_never_downgrades], [watcher_tick_exact],
    [options_sound], [journals_stay_in_data_dir], [journals_dir_found_or_made],
    [socket_rebinds], [locked_version_exact].
    The node: [startup_exact], [retention_enforced], [pods_find_each_other],
    [derive_id_names_the_node], [typed_puts_are_listed], [rpc_errors_exact],
    [phase_is_last_switch]. The client: [create_is_strict], [update_evolves],
    [query_answers], [observe_shows_current], [sets_exact],
    [built_documents_well_formed], [machine_output_complete], [schema_list_stable],
    [session_joins], [identity_persists], [data_dir_private], [sinks_in_lockstep],
    [watch_ends_exactly], [scopes_exact], [send_checks_first], [timeouts_exact],
    [targets_exact], [credentials_resolution].

    ** What is not modelled

    How log records are formatted and the allocator's counters; the HTTP server, TLS
    and the parsing of arguments below the options, which are libraries; the non-Unix
    variant of the journals' directory, whose file system is another one; the
    delegations that only pass a call on (facades, accessors, trait objects), whose
    targets are modelled. The receive watcher that drives the inbox, the sync protocol
    and peer discovery are peat-mesh's and peat-protocol's: their effects on the node
    are inputs. *)

From stdpp Require Export base tactics option list gmap strings numbers vector sorting.
From Stdlib Require Export ZArith Lia.
From Stdlib Require Strings.Byte.

#[global] Open Scope Z_scope.

(** ** Results: Rust's [Result<A, E>] *)

Inductive result (E A : Type) : Type :=
| Ok (a : A)
| Err (e : E).
Arguments Ok {E A} a.
Arguments Err {E A} e.

Declare Scope peat_scope.
Delimit Scope peat_scope with peat.
#[global] Open Scope peat_scope.

(** [let? x := e in k] is Rust's [let x = e?; k]. *)
Notation "'let?' x ':=' c 'in' k" :=
  (match c with Ok x => k | Err e => Err e end)
  (at level 10, x pattern, c at level 100, k at level 200) : peat_scope.

Definition is_ok {E A} (r : result E A) : bool :=
  match r with Ok _ => true | Err _ => false end.

Definition is_err {E A} (r : result E A) : bool := negb (is_ok r).

Definition ok_or {E A} (o : option A) (e : E) : result E A :=
  match o with Some a => Ok a | None => Err e end.

Definition map_err {E F A} (f : E → F) (r : result E A) : result F A :=
  match r with Ok a => Ok a | Err e => Err (f e) end.

Definition map_ok {E A B} (f : A → B) (r : result E A) : result E B :=
  match r with Ok a => Ok (f a) | Err e => Err e end.

(** [iter().map(f).collect::<Result<Vec<_>, _>>()]: first error wins. *)
Fixpoint collect_results {E A B} (f : A → result E B) (l : list A) : result E (list B) :=
  match l with
  | [] => Ok []
  | a :: l' =>
      let? b := f a in
      let? bs := collect_results f l' in
      Ok (b :: bs)
  end.

#[global] Instance result_eq_dec {E A} `{EqDecision E, EqDecision A} :
  EqDecision (result E A).
Proof. solve_decision. Defined.

(** ** State with errors: a mutable receiver and a fallible result

    The state survives an error, as a Rust [&mut self] method leaves the
    receiver in whatever state it had when it returned [Err]. *)

Definition st_err (S E A : Type) : Type := S → result E A * S.

#[global] Instance st_err_ret {S E} : MRet (st_err S E) :=
  λ A a s, (Ok a, s).

#[global] Instance st_err_bind {S E} : MBind (st_err S E) :=
  λ A B f m s,
    match m s with
    | (Ok a, s') => f a s'
    | (Err e, s') => (Err e, s')
    end.

Definition fail {S E A} (e : E) : st_err S E A := λ s, (Err e, s).
Definition gets {S E A} (f : S → A) : st_err S E A := λ s, (Ok (f s), s).
Definition modify {S E} (f : S → S) : st_err S E unit := λ s, (Ok tt, f s).
Definition lift {S E A} (r : result E A) : st_err S E A := λ s, (r, s).

(** Weakest preconditions: [wp m Q s] says that running [m] from [s] ends in a
    result and state that satisfy [Q]. *)
Definition wp {S E A} (m : st_err S E A) (Q : result E A → S → Prop) (s : S) : Prop :=
  Q (m s).1 (m s).2.

Lemma wp_elim {S E A} (m : st_err S E A) (Q : result E A → S → Prop) s :
  wp m Q s → ∀ r s', m s = (r, s') → Q r s'.
Proof. unfold wp. intros HQ r s' Hrun. by rewrite Hrun in HQ. Qed.

Lemma wp_run {S E A} (m : st_err S E A) (Q : result E A → S → Prop) s :
  (∀ r s', m s = (r, s') → Q r s') → wp m Q s.
Proof. unfold wp. intros HQ. apply HQ. by destruct (m s). Qed.

Lemma wp_mono {S E A} (m : st_err S E A) (P Q : result E A → S → Prop) s :
  wp m P s → (∀ r s', P r s' → Q r s') → wp m Q s.
Proof. unfold wp. auto. Qed.

Lemma wp_bind {S E A B} (m : st_err S E A) (f : A → st_err S E B) Q s :
  wp m (λ r s', match r with Ok a => wp (f a) Q s' | Err e => Q (Err e) s' end) s →
  wp (m ≫= f) Q s.
Proof. unfold wp, mbind, st_err_bind. destruct (m s) as [[a|e] s']; done. Qed.

Lemma wp_ret {S E A} (a : A) (Q : result E A → S → Prop) s : Q (Ok a) s → wp (mret a) Q s.
Proof. done. Qed.

Lemma wp_fail {S E A} (e : E) (Q : result E A → S → Prop) s : Q (Err e) s → wp (fail e) Q s.
Proof. done. Qed.

Lemma wp_gets {S E A} (f : S → A) (Q : result E A → S → Prop) s : Q (Ok (f s)) s → wp (gets f) Q s.
Proof. done. Qed.

Lemma wp_modify {S E} (f : S → S) (Q : result E unit → S → Prop) s : Q (Ok tt) (f s) → wp (modify f) Q s.
Proof. done. Qed.

Lemma wp_lift {S E A} (x : result E A) (Q : result E A → S → Prop) s : Q x s → wp (lift x) Q s.
Proof. done. Qed.

(** ** Machine integers *)

Definition U8_MAX : Z := 2 ^ 8 - 1.
Definition U32_MAX : Z := 2 ^ 32 - 1.
Definition U64_MAX : Z := 2 ^ 64 - 1.

Definition is_u64 (x : Z) : Prop := 0 ≤ x ≤ U64_MAX.

Definition checked_add_u64 (x y : Z) : option Z :=
  if x + y <=? U64_MAX then Some (x + y) else None.

Definition saturating_add_u64 (x y : Z) : Z := Z.min (x + y) U64_MAX.
Definition saturating_sub_u64 (x y : Z) : Z := Z.max (x - y) 0.
Definition saturating_mul_u64 (x y : Z) : Z := Z.min (x * y) U64_MAX.

(** [AtomicU64::fetch_add]: the counter wraps on overflow. *)
Definition wrapping_add_u64 (x y : Z) : Z := (x + y) mod 2 ^ 64.

(** ** Arithmetic modulo the width of the 64-bit counters *)

Definition eqm (a b : Z) : Prop := ∃ k, a = b + k * 2 ^ 64.

#[global] Instance eqm_equiv : Equivalence eqm.
Proof.
  split.
  - intros a. exists 0. lia.
  - intros a b [k ->]. exists (- k). lia.
  - intros a b c [k ->] [j ->]. exists (k + j). lia.
Qed.

#[global] Instance eqm_add : Proper (eqm ==> eqm ==> eqm) Z.add.
Proof. intros a b [k ->] c d [j ->]. exists (k + j). lia. Qed.

Lemma eqm_mod a b : eqm a b → a mod 2 ^ 64 = b mod 2 ^ 64.
Proof. intros [k ->]. apply Z.mod_add. lia. Qed.

Lemma eqm_wrapping x n : eqm (wrapping_add_u64 x n) (x + n).
Proof.
  unfold wrapping_add_u64. exists (- ((x + n) / 2 ^ 64)). pose proof (Z.div_mod (x + n) (2 ^ 64)). lia.
Qed.

(** ** Bytes *)

Abbreviation byte := Byte.byte.
Abbreviation bytes := (list Byte.byte).

#[global] Instance byte_eq_dec : EqDecision byte := Byte.byte_eq_dec.

#[global] Instance byte_countable : Countable byte.
Proof. exact (inj_countable Byte.to_N Byte.of_N Byte.of_to_N). Defined.

Definition Z_of_byte (b : byte) : Z := Z.of_N (Byte.to_N b).

(** [z as u8] *)
Definition byte_of_Z (z : Z) : byte :=
  default Byte.x00 (Byte.of_N (Z.to_N (z mod 256))).

Lemma Z_of_byte_range b : 0 ≤ Z_of_byte b < 256.
Proof. unfold Z_of_byte. pose proof (Byte.to_N_bounded b). lia. Qed.

Lemma Z_of_byte_of_Z z : Z_of_byte (byte_of_Z z) = z mod 256.
Proof.
  unfold Z_of_byte, byte_of_Z.
  assert (0 ≤ z mod 256 < 256) as Hr by (apply Z.mod_pos_bound; lia).
  destruct (Byte.of_N (Z.to_N (z mod 256))) as [b|] eqn:Hb; cbn.
  - apply Byte.to_of_N in Hb. rewrite Hb. lia.
  - apply Byte.of_N_None_iff in Hb. lia.
Qed.

Lemma byte_of_Z_of_byte b : byte_of_Z (Z_of_byte b) = b.
Proof.
  unfold byte_of_Z. pose proof (Z_of_byte_range b).
  rewrite Z.mod_small by lia. unfold Z_of_byte.
  by rewrite N2Z.id, Byte.of_to_N.
Qed.

(** [u64::to_be_bytes] and friends: [n] bytes, most significant first. *)
Fixpoint to_be_bytes (n : nat) (x : Z) : bytes :=
  match n with
  | O => []
  | S n' => byte_of_Z (x / 256 ^ Z.of_nat n') :: to_be_bytes n' x
  end.

Definition from_be_bytes (l : bytes) : Z :=
  foldl (λ acc b, acc * 256 + Z_of_byte b) 0 l.

Lemma length_to_be_bytes n x : length (to_be_bytes n x) = n.
Proof. induction n; cbn; auto. Qed.

Lemma from_be_bytes_acc l acc :
  foldl (λ a b, a * 256 + Z_of_byte b) acc l =
  acc * 256 ^ Z.of_nat (length l) + from_be_bytes l.
Proof.
  unfold from_be_bytes. revert acc. induction l as [|b l IH]; intros acc; cbn -[Z.of_nat].
  - lia.
  - rewrite IH, (IH (0 * 256 + _)).
    rewrite Nat2Z.inj_succ, Z.pow_succ_r by lia. lia.
Qed.

Lemma from_to_be_bytes n x : from_be_bytes (to_be_bytes n x) = x mod 256 ^ Z.of_nat n.
Proof.
  induction n as [|n IH].
  - cbn. by rewrite Z.mod_1_r.
  - change (to_be_bytes (S n) x) with (byte_of_Z (x / 256 ^ Z.of_nat n) :: to_be_bytes n x).
    unfold from_be_bytes. cbn [foldl]. rewrite from_be_bytes_acc, length_to_be_bytes, IH.
    rewrite Z_of_byte_of_Z, Nat2Z.inj_succ, Z.pow_succ_r by lia.
    set (p := 256 ^ Z.of_nat n).
    assert (0 < p) by (apply Z.pow_pos_nonneg; lia).
    rewrite (Z.mul_comm 256 p), Z.rem_mul_r by lia. lia.
Qed.

Lemma from_be_bytes_range l : 0 ≤ from_be_bytes l < 256 ^ Z.of_nat (length l).
Proof.
  induction l as [|b l IH]; [done|].
  unfold from_be_bytes. cbn [foldl]. rewrite from_be_bytes_acc.
  pose proof (Z_of_byte_range b). cbn [length].
  rewrite Nat2Z.inj_succ, Z.pow_succ_r by lia. nia.
Qed.

Lemma to_from_be_bytes (l : bytes) : to_be_bytes (length l) (from_be_bytes l) = l.
Proof.
  induction l as [|b l IH]; [done|].
  cbn [length to_be_bytes]. unfold from_be_bytes. cbn [foldl]. rewrite from_be_bytes_acc.
  pose proof (from_be_bytes_range l) as Hr.
  pose proof (Z_of_byte_range b). set (p := 256 ^ Z.of_nat (length l)) in *.
  f_equal.
  - rewrite Z.div_add_l, (Z.div_small (from_be_bytes l)) by lia.
    rewrite <-(byte_of_Z_of_byte b) at 2. f_equal. lia.
  - etrans; [|exact IH].
    assert (∀ k x, Z.of_nat k ≤ Z.of_nat (length l) →
      to_be_bytes k ((0 * 256 + Z_of_byte b) * p + x) = to_be_bytes k x) as Hlow; [|by apply Hlow].
    induction k as [|k IHk]; intros x Hk; [done|]. cbn [to_be_bytes].
    rewrite IHk by lia. f_equal. unfold byte_of_Z. do 3 f_equal.
    assert (p = 256 * 256 ^ (Z.of_nat (length l) - Z.of_nat k - 1) * 256 ^ Z.of_nat k) as ->.
    { unfold p. rewrite <-Z.pow_succ_r, <-Z.pow_add_r by lia. f_equal. lia. }
    set (q := 256 ^ (_ - _ - 1)). rewrite Z.mul_assoc, Z.div_add_l by lia.
    rewrite Z.add_comm, (Z.mul_comm 256 q), Z.mul_assoc, Z.mod_add by lia. done.
Qed.

(** The u64 codec loses nothing on the values a [u64] can hold. *)
Lemma u64_be_roundtrip x : is_u64 x → from_be_bytes (to_be_bytes 8 x) = x.
Proof.
  intros Hx. rewrite from_to_be_bytes. apply Z.mod_small. unfold is_u64, U64_MAX in Hx. lia.
Qed.

(** [slice.try_into::<[u8; n]>()] *)
Fixpoint try_into_array (n : nat) (l : bytes) : option (vec byte n) :=
  match n, l with
  | O, [] => Some [#]
  | S n', b :: l' => vcons b <$> try_into_array n' l'
  | _, _ => None
  end.

Lemma try_into_array_vec n (v : vec byte n) : try_into_array n (vec_to_list v) = Some v.
Proof. induction v as [|b n v IH]; cbn; [done|]. by rewrite IH. Qed.

Lemma try_into_array_length n l v : try_into_array n l = Some v → vec_to_list v = l.
Proof.
  revert l. induction n as [|n IH]; intros [|b l] H; cbn in H; try discriminate.
  - by simplify_eq.
  - destruct (try_into_array n l) as [w|] eqn:Hw; cbn in H; simplify_eq.
    cbn. f_equal. auto.
Qed.

(** ** Strings: UTF-8 byte sequences

    A Rust [str] is its UTF-8 bytes; [String.length] is [str::len]. *)

Definition str_bytes (s : string) : bytes := String.list_byte_of_string s.
Definition str_len (s : string) : Z := Z.of_nat (String.length s).
Definition is_empty_str (s : string) : bool := match s with EmptyString => true | _ => false end.

#[global] Arguments Ascii.eqb : simpl never.

(** [str::strip_prefix] *)
Fixpoint strip_prefix (p s : string) : option string :=
  match p, s with
  | EmptyString, _ => Some s
  | String a p', String b s' => if Ascii.eqb a b then strip_prefix p' s' else None
  | _, _ => None
  end.

(** [str::starts_with] *)
Definition starts_with (s p : string) : bool := bool_decide (is_Some (strip_prefix p s)).

(** [str::split_once(c)] for a one-byte separator *)
Fixpoint split_once (c : Ascii.ascii) (s : string) : option (string * string) :=
  match s with
  | EmptyString => None
  | String a s' =>
      if Ascii.eqb a c then Some (EmptyString, s')
      else '(l, r) ← split_once c s'; Some (String a l, r)
  end.

Definition str_contains (s : string) (c : Ascii.ascii) : bool := existsb (Ascii.eqb c) (String.list_ascii_of_string s).

Definition str_count (s : string) (c : Ascii.ascii) : nat :=
  length (List.filter (Ascii.eqb c) (String.list_ascii_of_string s)).

Lemma string_app_cons a (p s : string) : String a p +:+ s = String a (p +:+ s).
Proof. reflexivity. Qed.

Lemma string_app_nil (s : string) : EmptyString +:+ s = s.
Proof. reflexivity. Qed.

Lemma strip_prefix_app p s : strip_prefix p (p +:+ s) = Some s.
Proof.
  induction p as [|a p IH]; [done|].
  rewrite string_app_cons. cbn. by rewrite Ascii.eqb_refl.
Qed.

Lemma strip_prefix_Some p s r : strip_prefix p s = Some r ↔ s = p +:+ r.
Proof.
  split.
  - revert s. induction p as [|a p IH]; intros [|b s] H; cbn in H; simplify_eq; try done.
    destruct (Ascii.eqb_spec a b) as [->|]; [|done]. rewrite string_app_cons. f_equal. auto.
  - intros ->. apply strip_prefix_app.
Qed.

Lemma starts_with_spec s p : starts_with s p = true ↔ ∃ r, s = p +:+ r.
Proof.
  unfold starts_with. rewrite bool_decide_eq_true. split.
  - intros [r Hr]. exists r. by apply strip_prefix_Some.
  - intros [r ->]. rewrite strip_prefix_app. eauto.
Qed.

Lemma split_once_Some c s l r : split_once c s = Some (l, r) → s = l +:+ String c r.
Proof.
  revert l r. induction s as [|a s IH]; intros l r H; cbn in H; [done|].
  destruct (Ascii.eqb_spec a c) as [->|]; [by simplify_eq|].
  destruct (split_once c s) as [[l' r']|] eqn:E; cbn in H; simplify_eq.
  rewrite string_app_cons. f_equal. auto.
Qed.

Lemma split_once_first c s l r : split_once c s = Some (l, r) → str_contains l c = false.
Proof.
  revert l r. induction s as [|a s IH]; intros l r H; cbn in H; [done|].
  destruct (Ascii.eqb_spec a c) as [->|Hne]; [by simplify_eq|].
  destruct (split_once c s) as [[l' r']|] eqn:E; cbn in H; simplify_eq.
  specialize (IH _ _ eq_refl). unfold str_contains in *. cbn.
  destruct (Ascii.eqb_spec c a); [congruence|]. done.
Qed.

Lemma split_once_app c l r :
  str_contains l c = false → split_once c (l +:+ String c r) = Some (l, r).
Proof.
  induction l as [|a l IH]; intros H.
  - rewrite string_app_nil. cbn. by rewrite Ascii.eqb_refl.
  - rewrite string_app_cons.
    unfold str_contains in *. cbn in H |- *. apply orb_false_iff in H as [H1 H2].
    destruct (Ascii.eqb_spec a c) as [->|Hne].
    + by rewrite Ascii.eqb_refl in H1.
    + by rewrite IH.
Qed.

Lemma length_string_app (s t : string) : String.length (s +:+ t) = (String.length s + String.length t)%nat.
Proof. induction s as [|a s IH]; [done|]. rewrite string_app_cons. cbn. by rewrite IH. Qed.

Lemma length_str_bytes (s : string) : length (str_bytes s) = String.length s.
Proof. induction s as [|a s IH]; cbn; [done|]. by f_equal. Qed.

Lemma str_bytes_inj s t : str_bytes s = str_bytes t → s = t.
Proof.
  intros H. rewrite <-(String.string_of_list_byte_of_string s),
    <-(String.string_of_list_byte_of_string t).
  unfold str_bytes in H. by rewrite H.
Qed.

(** ** Automation *)

Create HintDb peat.
Create Rewrite HintDb peat.
#[export] Hint Rewrite length_to_be_bytes length_str_bytes length_string_app : peat.
#[export] Hint Resolve u64_be_roundtrip try_into_array_vec strip_prefix_app : peat.

(** Turn the boolean tests of the code into propositions. *)
Ltac to_prop :=
  repeat match goal with
  | H : _ && _ = true |- _ => apply andb_true_iff in H; destruct H
  | H : _ || _ = false |- _ => apply orb_false_iff in H; destruct H
  | H : negb _ = true |- _ => apply negb_true_iff in H
  | H : negb _ = false |- _ => apply negb_false_iff in H
  | H : (_ <=? _)%Z = true |- _ => apply Z.leb_le in H
  | H : (_ <=? _)%Z = false |- _ => apply Z.leb_gt in H
  | H : (_ <? _)%Z = true |- _ => apply Z.ltb_lt in H
  | H : (_ <? _)%Z = false |- _ => apply Z.ltb_ge in H
  | H : (_ =? _)%Z = true |- _ => apply Z.eqb_eq in H
  | H : (_ =? _)%Z = false |- _ => apply Z.eqb_neq in H
  | H : bool_decide _ = true |- _ => apply bool_decide_eq_true in H
  | H : bool_decide _ = false |- _ => apply bool_decide_eq_false in H
  end.

(** Walk through the matches of a definition, discarding impossible branches. *)
Ltac cases := repeat (case_match; simplify_eq/=).

(** One symbolic execution step of a state-and-error computation. *)
Ltac wp_step :=
  match goal with
  | |- wp (mbind _ _) _ _ => apply wp_bind
  | |- wp (mret _) _ _ => apply wp_ret
  | |- wp (fail _) _ _ => apply wp_fail
  | |- wp (gets _) _ _ => apply wp_gets
  | |- wp (modify _) _ _ => apply wp_modify
  | |- wp (lift _) _ _ => apply wp_lift
  end; cbn beta iota.
