(* ===== verification/Journal.v ===== *)
(** * The suppression journals of the NATS bridge

    Model of [src/nats_bridge/ledger.rs]: the fixed-width record codec, the
    anchored directory the journals live in, opening with crash recovery,
    appending, and compaction. *)

From S2P Require Import Prelude.

(** ** Constants *)

Definition EXCLUSION_FILE : string := "local-exclusion-v1".
Definition DELIVERY_FILE : string := "remote-delivery-v1".
Definition MAGIC : bytes := str_bytes "PNATSJ01".
Definition VERSION : Z := 1.
Definition HEADER_LEN : nat := 32.
Definition RECORD_LEN : nat := 80.
Definition MAX_UNIQUE_ENTRIES : Z := 262144.
Definition MAX_RECORDS : Z := MAX_UNIQUE_ENTRIES * 2.
Definition MAX_FILE_BYTES : Z := Z.of_nat HEADER_LEN + MAX_RECORDS * Z.of_nat RECORD_LEN.
Definition DIGEST_DOMAIN : bytes := str_bytes "peat-node:nats-bridge-ledger-key:v1".
Definition CHECKSUM_DOMAIN : bytes := str_bytes "peat-node:nats-bridge-ledger-record:v1".

(** ** Data *)

(** SHA-256 comes from the [sha2] crate; the journal only relies on its
    being a function from bytes to 32 bytes. *)
Class Sha256 := sha256 : bytes → vec byte 32.

Record LedgerDigest := mkDigest { digest_bytes : vec byte 32 }.

#[global] Instance LedgerDigest_eq_dec : EqDecision LedgerDigest.
Proof.
  intros [v] [w].
  destruct (decide (vec_to_list v = vec_to_list w)) as [Heq|Hne].
  - left. f_equal. by apply vec_to_list_inj2.
  - right. congruence.
Defined.

Definition digest_of_list (l : bytes) : option LedgerDigest := mkDigest <$> try_into_array 32 l.
Definition digest_to_list (d : LedgerDigest) : bytes := vec_to_list (digest_bytes d).

Lemma digest_of_to_list d : digest_of_list (digest_to_list d) = Some d.
Proof. destruct d as [v]. unfold digest_of_list, digest_to_list. cbn [digest_bytes]. by rewrite try_into_array_vec. Qed.

#[global] Instance LedgerDigest_countable : Countable LedgerDigest.
Proof. exact (inj_countable digest_to_list digest_of_list digest_of_to_list). Defined.

Inductive RecordState := LocalExcluded | Reserved | Completed.

#[global] Instance RecordState_eq_dec : EqDecision RecordState.
Proof. solve_decision. Defined.

Abbreviation Index := (gmap LedgerDigest RecordState).

Definition RecordState_as_u8 (s : RecordState) : Z :=
  match s with LocalExcluded => 1 | Reserved => 2 | Completed => 3 end.

Inductive JournalKind := Exclusion | Delivery.

#[global] Instance JournalKind_eq_dec : EqDecision JournalKind.
Proof. solve_decision. Defined.

Definition JournalKind_as_u8 (k : JournalKind) : Z :=
  match k with Exclusion => 1 | Delivery => 2 end.

Definition file_name (k : JournalKind) : string :=
  match k with Exclusion => EXCLUSION_FILE | Delivery => DELIVERY_FILE end.

Definition permits (k : JournalKind) (s : RecordState) : bool :=
  match k, s with
  | Exclusion, LocalExcluded => true
  | Delivery, (Reserved | Completed) => true
  | _, _ => false
  end.

Inductive LedgerError := Unavailable | Corrupt | Capacity | QueueFull | Stopped | IoUnjoined.

#[global] Instance LedgerError_eq_dec : EqDecision LedgerError.
Proof. solve_decision. Defined.

Definition RecordState_decode (v : Z) : result LedgerError RecordState :=
  if v =? 1 then Ok LocalExcluded
  else if v =? 2 then Ok Reserved
  else if v =? 3 then Ok Completed
  else Err Corrupt.

(** ** Digests and records *)

Section codec.
Context {sha : Sha256}.

(** The bytes fed to the hasher, in order. *)
Definition digest_preimage (collection doc_id : string) : bytes :=
  to_be_bytes 8 (Z.of_nat (length DIGEST_DOMAIN)) ++ DIGEST_DOMAIN ++
  to_be_bytes 8 (str_len collection) ++ str_bytes collection ++
  to_be_bytes 8 (str_len doc_id) ++ str_bytes doc_id.

Definition document_digest (collection doc_id : string) : LedgerDigest :=
  mkDigest (sha256 (digest_preimage collection doc_id)).

Definition record_checksum (fields : bytes) : bytes :=
  vec_to_list (sha256 (to_be_bytes 8 (Z.of_nat (length CHECKSUM_DOMAIN)) ++ CHECKSUM_DOMAIN ++ fields)).

(** The first 48 bytes: sequence, state, seven zero bytes, digest. *)
Definition record_fields (sequence : Z) (state : RecordState) (digest : LedgerDigest) : bytes :=
  to_be_bytes 8 sequence ++ byte_of_Z (RecordState_as_u8 state) :: replicate 7 Byte.x00 ++ digest_to_list digest.

Definition encode_record (sequence : Z) (state : RecordState) (digest : LedgerDigest) : bytes :=
  record_fields sequence state digest ++ record_checksum (record_fields sequence state digest).

(** [record[a..b]] *)
Definition slice (a b : nat) (l : bytes) : bytes := take (b - a) (drop a l).

Definition decode_record (record : bytes) : result LedgerError (Z * RecordState * LedgerDigest) :=
  if negb (bool_decide (length record = RECORD_LEN))
     || existsb (λ b, negb (bool_decide (b = Byte.x00))) (slice 9 16 record)
  then Err Corrupt
  else if negb (bool_decide (record_checksum (take 48 record) = drop 48 record))
  then Err Corrupt
  else
    let? state := RecordState_decode (Z_of_byte (nth 8 record Byte.x00)) in
    let? digest := ok_or (digest_of_list (slice 16 48 record)) Corrupt in
    Ok (from_be_bytes (take 8 record), state, digest).

(** ** Recovery, the pure part *)

Definition header (kind : JournalKind) : bytes :=
  MAGIC ++ to_be_bytes 4 VERSION ++ to_be_bytes 4 (Z.of_nat RECORD_LEN) ++
  byte_of_Z (JournalKind_as_u8 kind) :: replicate 15 Byte.x00.

Definition header_bad (kind : JournalKind) (data : bytes) : bool :=
  (Nat.ltb (length data) HEADER_LEN)
  || negb (bool_decide (take 8 data = MAGIC))
  || negb (from_be_bytes (slice 8 12 data) =? VERSION)
  || negb (from_be_bytes (slice 12 16 data) =? Z.of_nat RECORD_LEN)
  || negb (bool_decide (nth 16 data Byte.x00 = byte_of_Z (JournalKind_as_u8 kind)))
  || existsb (λ b, negb (bool_decide (b = Byte.x00))) (slice 17 HEADER_LEN data).

(** [chunks_exact(n)]: the first [k] blocks of [n] bytes. *)
Fixpoint blocks (k n : nat) (l : bytes) : list bytes :=
  match k with
  | O => []
  | S k' => take n l :: blocks k' n (drop n l)
  end.

Definition chunks_exact (n : nat) (l : bytes) : list bytes := blocks (length l / n) n l.

(** The loop body of [recover]: [expected_sequence] and [index] are the
    loop's mutable variables. *)
Definition recover_step (kind : JournalKind) (expected : Z) (index : Index) (chunk : bytes)
  : result LedgerError (Z * Index) :=
  let? (sequence, state, digest) := decode_record chunk in
  if negb (sequence =? expected) || negb (permits kind state) then Err Corrupt
  else
    let? expected' := ok_or (checked_add_u64 expected 1) Corrupt in
    let? index' :=
      match index !! digest, state with
      | None, (LocalExcluded | Reserved) => Ok (<[digest := state]> index)
      | Some Reserved, Completed => Ok (<[digest := state]> index)
      | _, _ => Err Corrupt
      end in
    if MAX_UNIQUE_ENTRIES <? Z.of_nat (size index') then Err Capacity
    else Ok (expected', index').

Fixpoint recover_loop (kind : JournalKind) (expected : Z) (index : Index) (chunks : list bytes)
  : result LedgerError (Z * Index) :=
  match chunks with
  | [] => Ok (expected, index)
  | c :: cs =>
      let? (expected', index') := recover_step kind expected index c in
      recover_loop kind expected' index' cs
  end.

Definition complete_len (data : bytes) : nat := (length data - HEADER_LEN) / RECORD_LEN * RECORD_LEN.

Definition recover_scan (kind : JournalKind) (data : bytes) : result LedgerError (Z * Index) :=
  if header_bad kind data then Err Corrupt
  else recover_loop kind 1 ∅ (chunks_exact RECORD_LEN (take (complete_len data) (drop HEADER_LEN data))).

End codec.

(** ** The anchored ledger directory

    [AnchoredDir] is a directory handle: what the journals see of the file
    system is the names in that one directory and the files behind them. A
    file handle is an inode number, so a handle survives a rename. Every
    system call consumes one entry of the fault plan: [None] lets it succeed,
    [Some n] makes it fail, after [n] bytes reached the file when it is a
    write. An exhausted plan means no further faults. *)

Inductive dirent := Regular (ino : nat) | Directory | Symlink.

Record Fs := mkFs {
  fs_names : gmap string dirent;
  fs_inodes : gmap nat bytes;
  fs_next : nat;
  fs_faults : list (option nat);
}.

Abbreviation FsM := (st_err Fs LedgerError).

Definition pop_fault (fs : Fs) : option nat * Fs :=
  match fs_faults fs with
  | [] => (None, fs)
  | f :: rest => (f, mkFs (fs_names fs) (fs_inodes fs) (fs_next fs) rest)
  end.

(** A call that only succeeds or fails. *)
Definition syscall : FsM unit := λ fs,
  let '(f, fs') := pop_fault fs in
  match f with None => (Ok tt, fs') | Some _ => (Err Unavailable, fs') end.

Definition content (fs : Fs) (file : nat) : bytes := default [] (fs_inodes fs !! file).

Definition set_content (file : nat) (data : bytes) (fs : Fs) : Fs :=
  mkFs (fs_names fs) (<[file := data]> (fs_inodes fs)) (fs_next fs) (fs_faults fs).

Definition set_names (names : gmap string dirent) (fs : Fs) : Fs :=
  mkFs names (fs_inodes fs) (fs_next fs) (fs_faults fs).

(** [write_all] at the end of the file. *)
Definition write_all (file : nat) (data : bytes) : FsM unit := λ fs,
  let '(f, fs') := pop_fault fs in
  match f with
  | None => (Ok tt, set_content file (content fs' file ++ data) fs')
  | Some n => (Err Unavailable, set_content file (content fs' file ++ take n data) fs')
  end.

Definition set_len (file : nat) (len : nat) : FsM unit :=
  syscall;; modify (λ fs, set_content file (take len (content fs file)) fs).

Definition read_to_end (file : nat) : FsM bytes := syscall;; gets (λ fs, content fs file).

Definition sync_all (file : nat) : FsM unit := syscall.

(** [openat(O_EXCL?)] of a name that does not exist: a fresh empty file. *)
Definition create_file (name : string) : FsM nat := λ fs,
  (Ok (fs_next fs),
   mkFs (<[name := Regular (fs_next fs)]> (fs_names fs)) (<[fs_next fs := []]> (fs_inodes fs))
        (S (fs_next fs)) (fs_faults fs)).

Definition temp_name (active : string) : string := ("." +:+ active +:+ ".compact")%string.

(** [AnchoredDir::open]: walking to the ledger directory, as one fallible call
    (the walk itself is modelled in [Anchor]). *)
Definition anchored_open : FsM unit := syscall.

Definition open_active (name : string) : FsM nat :=
  syscall;;
  ent ← gets (λ fs, fs_names fs !! name);
  match ent with
  | None => create_file name
  | Some (Regular ino) => mret ino
  | Some Symlink => fail Unavailable     (* O_NOFOLLOW *)
  | Some Directory => fail Unavailable   (* O_RDWR on a directory *)
  end.

Definition unlink (name : string) : FsM unit :=
  syscall;; modify (λ fs, set_names (delete name (fs_names fs)) fs).

Definition cleanup_temp (active : string) : FsM unit :=
  syscall;;
  ent ← gets (λ fs, fs_names fs !! temp_name active);
  match ent with
  | None => mret tt                      (* ENOENT *)
  | Some Symlink => fail Unavailable     (* O_NOFOLLOW *)
  | Some Directory => fail Unavailable   (* not a regular file *)
  | Some (Regular _) => unlink (temp_name active)
  end.

Definition create_temp (active : string) : FsM nat :=
  syscall;;
  ent ← gets (λ fs, fs_names fs !! temp_name active);
  match ent with
  | None => create_file (temp_name active)
  | Some _ => fail Unavailable           (* O_EXCL *)
  end.

Definition rename_temp (active : string) : FsM unit :=
  syscall;;
  ent ← gets (λ fs, fs_names fs !! temp_name active);
  match ent with
  | None => fail Unavailable
  | Some e => modify (λ fs, set_names (<[active := e]> (delete (temp_name active) (fs_names fs))) fs)
  end.

Definition sync_directory : FsM unit := syscall.

(** ** The journal *)

Record Journal := mkJournal {
  j_kind : JournalKind;
  j_file : nat;
  j_sequence : Z;
  j_records : Z;
  j_index : Index;
}.

(** A journal method sees the journal ([&mut self]) and the file system. *)
Record JState := mkJState { js_journal : Journal; js_fs : Fs }.

Abbreviation JM := (st_err JState LedgerError).

Definition on_fs {A} (m : FsM A) : JM A := λ s,
  let '(r, fs') := m (js_fs s) in (r, mkJState (js_journal s) fs').

Definition upd_journal (f : Journal → Journal) : JM unit :=
  modify (λ s, mkJState (f (js_journal s)) (js_fs s)).

Definition set_sequence (n : Z) (j : Journal) : Journal :=
  mkJournal (j_kind j) (j_file j) n (j_records j) (j_index j).

Definition set_file_sequence_records (file : nat) (n r : Z) (j : Journal) : Journal :=
  mkJournal (j_kind j) file n r (j_index j).

Definition index_insert (digest : LedgerDigest) (state : RecordState) (j : Journal) : Journal :=
  mkJournal (j_kind j) (j_file j) (j_sequence j) (j_records j + 1) (<[digest := state]> (j_index j)).

Section journal.
Context {sha : Sha256}.

Definition write_header (file : nat) (kind : JournalKind) : FsM unit :=
  write_all file (header kind);; sync_all file.

Definition recover (file : nat) (kind : JournalKind) : FsM (Z * Z * Index) :=
  syscall;; (* seek(Start(0)) *)
  data ← read_to_end file;
  '(expected_sequence, index) ← lift (recover_scan kind data);
  (if negb (Nat.eqb (complete_len data) (length data - HEADER_LEN))
   then set_len file (HEADER_LEN + complete_len data);; sync_all file
   else mret tt);;
  mret (expected_sequence - 1, Z.of_nat (complete_len data / RECORD_LEN), index).

(** [Journal::open] from [open_active] on. *)
Definition open_and_recover (kind : JournalKind) : FsM Journal :=
  file ← open_active (file_name kind);
  syscall;; (* metadata *)
  len ← gets (λ fs, Z.of_nat (length (content fs file)));
  (if len =? 0 then write_header file kind
   else if MAX_FILE_BYTES <? len then fail Capacity
   else mret tt);;
  '(sequence, records, index) ← recover file kind;
  mret (mkJournal kind file sequence records index).

Definition journal_open (kind : JournalKind) : FsM Journal :=
  anchored_open;;
  cleanup_temp (file_name kind);;
  open_and_recover kind.

(** [digest.0] ordering: lexicographic on bytes. *)
Fixpoint bytes_leb (a b : bytes) : bool :=
  match a, b with
  | [], _ => true
  | _ :: _, [] => false
  | x :: a', y :: b' =>
      (Z_of_byte x <? Z_of_byte y) || ((Z_of_byte x =? Z_of_byte y) && bytes_leb a' b')
  end.

Definition entry_le (a b : LedgerDigest * RecordState) : Prop :=
  bytes_leb (digest_to_list a.1) (digest_to_list b.1) = true.
#[global] Instance entry_le_dec : RelDecision entry_le := λ a b, decide (_ = _).

Definition sorted_entries (index : Index) : list (LedgerDigest * RecordState) :=
  merge_sort entry_le (map_to_list index).

Fixpoint write_entries (file : nat) (sequence : Z) (entries : list (LedgerDigest * RecordState)) : FsM Z :=
  match entries with
  | [] => mret sequence
  | (digest, state) :: rest =>
      write_all file (encode_record (sequence + 1) state digest);;
      write_entries file (sequence + 1) rest
  end.

Definition compact : JM unit :=
  j ← gets js_journal;
  temp ← on_fs (create_temp (file_name (j_kind j)));
  on_fs (write_header temp (j_kind j));;
  sequence ← on_fs (write_entries temp 0 (sorted_entries (j_index j)));
  on_fs (sync_all temp);;
  on_fs (rename_temp (file_name (j_kind j)));;
  on_fs sync_directory;;
  file ← on_fs (open_active (file_name (j_kind j)));
  upd_journal (set_file_sequence_records file sequence (Z.of_nat (size (j_index j)))).

(** The transition table at the top of [record_inner]. *)
Inductive transition := Unchanged | Append | Refused.

Definition record_transition (current : option RecordState) (state : RecordState) : transition :=
  match current, state with
  | Some LocalExcluded, LocalExcluded => Unchanged
  | Some (Reserved | Completed), Reserved => Unchanged
  | Some Completed, Completed => Unchanged
  | Some Reserved, Completed => Append
  | None, _ => Append
  | _, _ => Refused
  end.

(** From the sequence bump to the end of [record_inner]. *)
Definition append_record (digest : LedgerDigest) (state : RecordState) : JM bool :=
  j ← gets js_journal;
  sequence ← lift (ok_or (checked_add_u64 (j_sequence j) 1) Capacity);
  upd_journal (set_sequence sequence);;
  on_fs syscall;; (* seek(End(0)) *)
  on_fs (write_all (j_file j) (encode_record sequence state digest));;
  on_fs (sync_all (j_file j));;
  upd_journal (index_insert digest state);;
  mret true.

Definition record (digest : LedgerDigest) (state : RecordState) : JM bool :=
  j ← gets js_journal;
  if negb (permits (j_kind j) state) then fail Corrupt
  else
    match record_transition (j_index j !! digest) state with
    | Unchanged => mret false
    | Refused => fail Corrupt
    | Append =>
        if (MAX_UNIQUE_ENTRIES <=? Z.of_nat (size (j_index j)))
           && negb (bool_decide (is_Some (j_index j !! digest)))
        then fail Capacity
        else
          (if MAX_RECORDS <=? j_records j then compact else mret tt);;
          append_record digest state
    end.

End journal.
