(* ===== verification/JournalFacts.v ===== *)
(** * Correctness of the suppression journals

    The abstract journal is a log of [(digest, state)] entries and the map it
    replays to; the theorems relate the byte-level journal of [Journal] to it:
    the codec is a bijection on valid records, recovery computes the replay
    and drops only a torn tail, appends extend the log, and what happens to
    it under faults, restarts and compaction. *)

From S2P Require Import Prelude Journal.

(** ** The abstract journal *)

Abbreviation Log := (list (LedgerDigest * RecordState)).

Definition replay_step (kind : JournalKind) (index : Index) (e : LedgerDigest * RecordState) : option Index :=
  let '(d, s) := e in
  if negb (permits kind s) then None
  else match index !! d, s with
       | None, (LocalExcluded | Reserved) => Some (<[d := s]> index)
       | Some Reserved, Completed => Some (<[d := s]> index)
       | _, _ => None
       end.

Fixpoint replay (kind : JournalKind) (index : Index) (log : Log) : option Index :=
  match log with
  | [] => Some index
  | e :: rest => index' ← replay_step kind index e; replay kind index' rest
  end.

Section codec_facts.
Context {sha : Sha256}.

Fixpoint encode_log (n : Z) (log : Log) : list bytes :=
  match log with
  | [] => []
  | (d, s) :: rest => encode_record n s d :: encode_log (n + 1) rest
  end.

Definition file_image (kind : JournalKind) (log : Log) : bytes :=
  header kind ++ concat (encode_log 1 log).

(** The journal in memory and its file describe the same log. *)
Definition journal_ok (log : Log) (s : JState) : Prop :=
  let j := js_journal s in
  content (js_fs s) (j_file j) = file_image (j_kind j) log ∧
  fs_names (js_fs s) !! file_name (j_kind j) = Some (Regular (j_file j)) ∧
  (j_file j < fs_next (js_fs s))%nat ∧
  replay (j_kind j) ∅ log = Some (j_index j) ∧
  j_sequence j = Z.of_nat (length log) ∧
  j_records j = Z.of_nat (length log) ∧
  Z.of_nat (size (j_index j)) ≤ MAX_UNIQUE_ENTRIES.

(** ** Record codec *)

Lemma length_digest_to_list d : length (digest_to_list d) = 32%nat.
Proof. apply length_vec_to_list. Qed.

Lemma length_record_checksum f : length (record_checksum f) = 32%nat.
Proof. apply length_vec_to_list. Qed.

Lemma length_record_fields n s d : length (record_fields n s d) = 48%nat.
Proof.
  unfold record_fields. rewrite length_app, length_to_be_bytes. cbn [length].
  rewrite length_app, length_replicate, length_digest_to_list. lia.
Qed.

Lemma length_encode_record n s d : length (encode_record n s d) = RECORD_LEN.
Proof.
  unfold encode_record. by rewrite length_app, length_record_fields, length_record_checksum.
Qed.

Lemma length_header k : length (header k) = HEADER_LEN.
Proof. by destruct k. Qed.

Lemma decode_as_u8 s : RecordState_decode (Z_of_byte (byte_of_Z (RecordState_as_u8 s))) = Ok s.
Proof. by destruct s. Qed.

Lemma all_zero_replicate l :
  existsb (λ b, negb (bool_decide (b = Byte.x00))) l = false ↔ l = replicate (length l) Byte.x00.
Proof.
  induction l as [|b l IH]; cbn; [done|].
  rewrite orb_false_iff, negb_false_iff, bool_decide_eq_true. split.
  - intros [-> Hl]. f_equal. by apply IH.
  - intros Hl. injection Hl as Hb Hl'. split; [done|]. by apply IH.
Qed.

(** Splitting [l] at fixed offsets *)
Lemma take_app_exact (l k : bytes) n : length l = n → take n (l ++ k) = l.
Proof. intros <-. by rewrite take_app_length. Qed.

Lemma drop_app_exact (l k : bytes) n : length l = n → drop n (l ++ k) = k.
Proof. intros <-. by rewrite drop_app_length. Qed.

Lemma drop_1_cons (b : byte) l : drop 1 (b :: l) = l.
Proof. reflexivity. Qed.

Section fields.
Context (n : Z) (s : RecordState) (d : LedgerDigest).
Let r := encode_record n s d.

Lemma encode_fields : take 48 r = record_fields n s d.
Proof. unfold r, encode_record. apply take_app_exact, length_record_fields. Qed.

Lemma encode_checksum : drop 48 r = record_checksum (record_fields n s d).
Proof. unfold r, encode_record. apply drop_app_exact, length_record_fields. Qed.

Lemma encode_sequence : take 8 r = to_be_bytes 8 n.
Proof.
  unfold r, encode_record, record_fields. rewrite <-app_assoc.
  apply take_app_exact, length_to_be_bytes.
Qed.

Lemma encode_tail :
  drop 8 r = byte_of_Z (RecordState_as_u8 s) :: replicate 7 Byte.x00 ++ digest_to_list d ++
             record_checksum (record_fields n s d).
Proof.
  unfold r, encode_record. unfold record_fields at 1. rewrite <-app_assoc.
  rewrite drop_app_exact by apply length_to_be_bytes. by rewrite <-app_comm_cons, <-app_assoc.
Qed.

Lemma encode_padding : slice 9 16 r = replicate 7 Byte.x00.
Proof.
  unfold slice. replace (drop 9 r) with (drop 1 (drop 8 r)) by (by rewrite drop_drop).
  rewrite encode_tail, drop_1_cons. apply take_app_exact. done.
Qed.

Lemma encode_digest : slice 16 48 r = digest_to_list d.
Proof.
  unfold slice. replace (drop 16 r) with (drop 7 (drop 1 (drop 8 r))) by (by rewrite !drop_drop).
  rewrite encode_tail, drop_1_cons, drop_app_exact by done.
  apply take_app_exact, length_digest_to_list.
Qed.

Lemma encode_state : nth 8 r Byte.x00 = byte_of_Z (RecordState_as_u8 s).
Proof.
  rewrite <-(take_drop 8 r), app_nth2; rewrite encode_sequence, length_to_be_bytes; [|lia].
  by rewrite encode_tail.
Qed.

Lemma decode_encode_record : is_u64 n → decode_record r = Ok (n, s, d).
Proof.
  intros Hn. unfold decode_record.
  rewrite (bool_decide_eq_true_2 (length r = _)) by apply length_encode_record.
  rewrite encode_padding. cbn [negb orb].
  replace (existsb _ _) with false by (symmetry; by apply all_zero_replicate).
  rewrite encode_fields, encode_checksum, bool_decide_eq_true_2 by done. cbn [negb].
  rewrite encode_state, decode_as_u8, encode_digest, digest_of_to_list. cbn [ok_or].
  by rewrite encode_sequence, u64_be_roundtrip.
Qed.
End fields.

Lemma decode_as_u8_inv b s :
  RecordState_decode (Z_of_byte b) = Ok s → b = byte_of_Z (RecordState_as_u8 s).
Proof.
  unfold RecordState_decode. intros Hd.
  rewrite <-(byte_of_Z_of_byte b). f_equal. cases; to_prop; done.
Qed.

(** A byte string decodes exactly when it is the encoding of what it decodes to. *)
Lemma encode_decode_record r n s d : decode_record r = Ok (n, s, d) → r = encode_record n s d ∧ is_u64 n.
Proof.
  unfold decode_record. intros Hd. destruct (negb _ || _) eqn:Hlen; [done|].
  apply orb_false_iff in Hlen as [Hlen Hpad]. to_prop.
  destruct (negb (bool_decide (record_checksum _ = _))) eqn:Hsum; [done|]. to_prop.
  destruct (RecordState_decode _) as [s'|] eqn:Hs; [|done].
  destruct (digest_of_list _) as [d'|] eqn:Hdig; cbn in Hd; [|done]. simplify_eq.
  apply decode_as_u8_inv in Hs. apply all_zero_replicate in Hpad.
  unfold digest_of_list in Hdig.
  destruct (try_into_array 32 (slice 16 48 r)) as [v|] eqn:Hv; cbn in Hdig; simplify_eq.
  apply try_into_array_length in Hv.
  assert (length (take 8 r) = 8%nat) as H8 by (rewrite length_take, Hlen; unfold RECORD_LEN; lia).
  assert (take 48 r = record_fields (from_be_bytes (take 8 r)) s (mkDigest v)) as Hf.
  { unfold record_fields, digest_to_list. cbn [digest_bytes]. rewrite Hv.
    rewrite <-H8 at 2. rewrite to_from_be_bytes, <-Hs.
    unfold slice in *. rewrite length_take, length_drop, Hlen in Hpad.
    unfold RECORD_LEN in *.
    replace (_ `min` _)%nat with 7%nat in Hpad by lia. rewrite <-Hpad.
    do 80 (destruct r as [|? r]; [discriminate Hlen|]). destruct r; [|discriminate Hlen].
    reflexivity. }
  split.
  - unfold encode_record. rewrite <-Hf, Hsum. by rewrite take_drop.
  - pose proof (from_be_bytes_range (take 8 r)) as Hb. rewrite H8 in Hb.
    unfold is_u64, U64_MAX. lia.
Qed.

(** ** Digest framing *)

Lemma app_framed_inj (l1 l2 k1 k2 : bytes) :
  is_u64 (Z.of_nat (length l1)) → is_u64 (Z.of_nat (length l2)) →
  to_be_bytes 8 (Z.of_nat (length l1)) ++ l1 ++ k1 = to_be_bytes 8 (Z.of_nat (length l2)) ++ l2 ++ k2 →
  l1 = l2 ∧ k1 = k2.
Proof.
  intros H1 H2 Heq. apply app_inj_1 in Heq as [Hlen Heq]; [|by rewrite !length_to_be_bytes].
  apply (f_equal from_be_bytes) in Hlen. rewrite !u64_be_roundtrip in Hlen by done.
  apply app_inj_1 in Heq; [done|lia].
Qed.

Lemma digest_preimage_inj c1 i1 c2 i2 :
  is_u64 (str_len c1) → is_u64 (str_len i1) → is_u64 (str_len c2) → is_u64 (str_len i2) →
  digest_preimage c1 i1 = digest_preimage c2 i2 → c1 = c2 ∧ i1 = i2.
Proof.
  unfold digest_preimage, str_len. rewrite <-!length_str_bytes. intros Hc1 Hi1 Hc2 Hi2 Heq.
  apply app_inv_head, app_inv_head in Heq.
  apply app_framed_inj in Heq as [Hc Heq]; [|done..].
  rewrite <-(app_nil_r (str_bytes i1)), <-(app_nil_r (str_bytes i2)) in Heq.
  rewrite !length_app, !Nat.add_0_r in Heq.
  apply app_framed_inj in Heq as [Hi _]; [|done..].
  split; by apply str_bytes_inj.
Qed.

(** ** Recovery computes the replay *)

Lemma length_encode_log n log : length (encode_log n log) = length log.
Proof. revert n. induction log as [|[d s] log IH]; intros n; cbn; auto. Qed.

Lemma encode_log_app n log1 log2 :
  encode_log n (log1 ++ log2) = encode_log n log1 ++ encode_log (n + Z.of_nat (length log1)) log2.
Proof.
  revert n. induction log1 as [|[d s] log1 IH]; intros n; cbn -[Z.of_nat].
  - by rewrite Z.add_0_r.
  - rewrite IH. do 3 f_equal. lia.
Qed.

Lemma length_concat_log n log :
  length (concat (encode_log n log)) = (length log * RECORD_LEN)%nat.
Proof.
  revert n. induction log as [|[d s] log IH]; intros n; [done|].
  cbn [encode_log concat length]. rewrite length_app, length_encode_record, IH. lia.
Qed.

Lemma length_file_image k log :
  length (file_image k log) = (HEADER_LEN + length log * RECORD_LEN)%nat.
Proof. unfold file_image. by rewrite length_app, length_header, length_concat_log. Qed.

Lemma blocks_log k n log tail :
  k = length log → blocks k RECORD_LEN (concat (encode_log n log) ++ tail) = encode_log n log.
Proof.
  intros ->. revert n. induction log as [|[d s] log IH]; intros n; [done|].
  cbn [encode_log concat length blocks]. rewrite <-app_assoc.
  rewrite take_app_exact, drop_app_exact by apply length_encode_record. by rewrite IH.
Qed.

Lemma recover_step_encode kind expected index d s :
  is_u64 expected → expected < U64_MAX →
  recover_step kind expected index (encode_record expected s d) =
  match replay_step kind index (d, s) with
  | None => Err Corrupt
  | Some index' =>
      if MAX_UNIQUE_ENTRIES <? Z.of_nat (size index') then Err Capacity else Ok (expected + 1, index')
  end.
Proof.
  intros Hu Hlt. unfold recover_step. rewrite decode_encode_record, Z.eqb_refl by done.
  cbn [negb orb replay_step]. destruct (permits kind s); [|done]. cbn [negb].
  unfold checked_add_u64. rewrite (proj2 (Z.leb_le _ _)) by lia. cbn [ok_or].
  by destruct (index !! d) as [[]|], s.
Qed.

Lemma replay_step_size kind index e index' :
  replay_step kind index e = Some index' → (size index ≤ size index')%nat.
Proof.
  destruct e as [d s]. cbn. intros Hr. cases.
  all: rewrite map_size_insert; cases; lia.
Qed.

Lemma replay_size kind index log index' :
  replay kind index log = Some index' → (size index ≤ size index')%nat.
Proof.
  revert index. induction log as [|e log IH]; intros index Hr; cbn in Hr; [by simplify_eq|].
  destruct (replay_step kind index e) as [i|] eqn:Hs; cbn in Hr; [|done].
  apply replay_step_size in Hs. apply IH in Hr. lia.
Qed.

Lemma recover_loop_Ok kind expected index log index' :
  1 ≤ expected → expected + Z.of_nat (length log) ≤ U64_MAX →
  replay kind index log = Some index' → Z.of_nat (size index') ≤ MAX_UNIQUE_ENTRIES →
  recover_loop kind expected index (encode_log expected log) = Ok (expected + Z.of_nat (length log), index').
Proof.
  revert expected index. induction log as [|[d s] log IH]; intros expected index H1 H2 Hr Hsz.
  - cbn in *. by simplify_eq; rewrite Z.add_0_r.
  - cbn [encode_log recover_loop length replay] in *.
    rewrite recover_step_encode by (unfold is_u64 in *; lia).
    destruct (replay_step kind index (d, s)) as [i|] eqn:Hs; cbn in Hr; [|done].
    pose proof (replay_size _ _ _ _ Hr) as Hle.
    rewrite (proj2 (Z.ltb_ge _ _)) by lia.
    rewrite IH by (done || lia). do 2 f_equal. lia.
Qed.

Lemma header_good kind rest : header_bad kind (header kind ++ rest) = false.
Proof.
  unfold header_bad. rewrite length_app, length_header.
  replace (HEADER_LEN + length rest <? HEADER_LEN)%nat with false
    by (symmetry; apply Nat.ltb_ge; lia).
  destruct kind; reflexivity.
Qed.

Lemma complete_len_image kind log tail :
  (length tail < RECORD_LEN)%nat →
  complete_len (file_image kind log ++ tail) = (length log * RECORD_LEN)%nat.
Proof.
  intros Ht. unfold complete_len. rewrite length_app, length_file_image.
  replace (_ - _)%nat with (length log * RECORD_LEN + length tail)%nat by lia.
  rewrite Nat.div_add_l, Nat.div_small by (unfold RECORD_LEN in *; lia). lia.
Qed.

Lemma recover_scan_image kind log tail index :
  (length tail < RECORD_LEN)%nat → Z.of_nat (length log) < U64_MAX →
  replay kind ∅ log = Some index → Z.of_nat (size index) ≤ MAX_UNIQUE_ENTRIES →
  recover_scan kind (file_image kind log ++ tail) = Ok (1 + Z.of_nat (length log), index).
Proof.
  intros Ht Hl Hr Hs. unfold recover_scan. rewrite complete_len_image by done.
  unfold file_image. rewrite <-app_assoc, header_good, drop_app_exact by apply length_header.
  rewrite take_app_exact by apply length_concat_log.
  unfold chunks_exact. rewrite length_concat_log, Nat.div_mul by (unfold RECORD_LEN; lia).
  pose proof (blocks_log _ 1 log [] eq_refl) as Hb. rewrite app_nil_r in Hb. rewrite Hb.
  apply recover_loop_Ok; [lia|lia|done..].
Qed.

End codec_facts.

(** ** File system steps under any fault plan *)

Definition set_faults (fl : list (option nat)) (fs : Fs) : Fs :=
  mkFs (fs_names fs) (fs_inodes fs) (fs_next fs) fl.

Lemma wp_syscall (Q : result LedgerError unit → Fs → Prop) fs :
  (∀ fl, Q (Ok tt) (set_faults fl fs)) → (∀ fl, Q (Err Unavailable) (set_faults fl fs)) →
  wp syscall Q fs.
Proof.
  intros Hok Herr. unfold wp, syscall, pop_fault. destruct fs as [names inodes next [|[n|] fl]]; cbn.
  - apply (Hok []).
  - apply (Herr fl).
  - apply (Hok fl).
Qed.

(** Appending writes a prefix of the data, all of it on success. *)
Lemma wp_write_all file data (Q : result LedgerError unit → Fs → Prop) fs :
  (∀ fl, Q (Ok tt) (set_content file (content fs file ++ data) (set_faults fl fs))) →
  (∀ fl n, Q (Err Unavailable) (set_content file (content fs file ++ take n data) (set_faults fl fs))) →
  wp (write_all file data) Q fs.
Proof.
  intros Hok Herr. unfold wp, write_all, pop_fault. destruct fs as [names inodes next [|[n|] fl]]; cbn.
  - apply (Hok []).
  - apply (Herr fl).
  - apply (Hok fl).
Qed.

Lemma wp_on_fs {A} (m : FsM A) (Q : result LedgerError A → JState → Prop) j fs :
  wp m (λ r fs', Q r (mkJState j fs')) fs → wp (on_fs m) Q (mkJState j fs).
Proof. unfold wp, on_fs. cbn. by destruct (m fs). Qed.

Lemma content_set file data fs : content (set_content file data fs) file = data.
Proof. unfold content. cbn. by rewrite lookup_insert_eq. Qed.

Lemma content_faults file fl fs : content (set_faults fl fs) file = content fs file.
Proof. reflexivity. Qed.

Ltac fs_step :=
  match goal with
  | |- wp syscall _ _ => apply wp_syscall; intros ?; cbn beta iota
  | |- wp (sync_all _) _ _ => apply wp_syscall; intros ?; cbn beta iota
  | |- wp sync_directory _ _ => apply wp_syscall; intros ?; cbn beta iota
  | |- wp anchored_open _ _ => apply wp_syscall; intros ?; cbn beta iota
  | |- wp (write_all _ _) _ _ => apply wp_write_all; intros ?; cbn beta iota
  | |- wp (on_fs _) _ _ => apply wp_on_fs
  | |- wp (upd_journal _) _ _ => apply wp_modify; cbn beta iota
  | _ => wp_step
  end.

Lemma wp_syscall_ok (Q : result LedgerError unit → Fs → Prop) fs :
  fs_faults fs = [] → Q (Ok tt) fs → wp syscall Q fs.
Proof. intros Hf HQ. unfold wp, syscall, pop_fault. by rewrite Hf. Qed.

Lemma wp_write_all_ok file data (Q : result LedgerError unit → Fs → Prop) fs :
  fs_faults fs = [] → Q (Ok tt) (set_content file (content fs file ++ data) fs) →
  wp (write_all file data) Q fs.
Proof. intros Hf HQ. unfold wp, write_all, pop_fault. by rewrite Hf. Qed.

Definition created (name : string) (fs : Fs) : Fs := (create_file name fs).2.

Lemma wp_create_file name (Q : result LedgerError nat → Fs → Prop) fs :
  Q (Ok (fs_next fs)) (created name fs) → wp (create_file name) Q fs.
Proof. done. Qed.

(** [fs_step] on a disk without faults *)
Ltac fs_ok :=
  match goal with
  | |- wp syscall _ _ => apply wp_syscall_ok; [done|]; cbn beta iota
  | |- wp (sync_all _) _ _ => apply wp_syscall_ok; [done|]; cbn beta iota
  | |- wp sync_directory _ _ => apply wp_syscall_ok; [done|]; cbn beta iota
  | |- wp anchored_open _ _ => apply wp_syscall_ok; [done|]; cbn beta iota
  | |- wp (write_all _ _) _ _ => apply wp_write_all_ok; [done|]; cbn beta iota
  | |- wp (create_file _) _ _ => apply wp_create_file; cbn beta iota
  | _ => fs_step
  end.

(** Discharge the frame conditions [fs_names] and [fs_next]. *)
Ltac same_names := split; [done|split; [done|]].

Section facts.
Context {sha : Sha256}.

(** [append_record] writes a prefix of one record; on success it is the
    whole record and the index follows, on failure only [sequence] moved. *)
Lemma append_record_inv d s j fs r st' :
  j_sequence j < U64_MAX →
  append_record d s (mkJState j fs) = (r, st') →
  fs_names (js_fs st') = fs_names fs ∧ fs_next (js_fs st') = fs_next fs ∧
  let rec := encode_record (j_sequence j + 1) s d in
  let j1 := set_sequence (j_sequence j + 1) j in
  (r = Ok true ∧ content (js_fs st') (j_file j) = content fs (j_file j) ++ rec ∧
   js_journal st' = index_insert d s j1) ∨
  (r = Err Unavailable ∧ js_journal st' = j1 ∧
   ∃ n, content (js_fs st') (j_file j) = content fs (j_file j) ++ take n rec).
Proof.
  intros Hseq. revert r st'. apply wp_elim.
  unfold append_record. repeat wp_step. cbn [js_journal]. unfold checked_add_u64.
  rewrite (proj2 (Z.leb_le _ _)) by lia. cbn [ok_or].
  do 4 fs_step; cbn [js_journal js_fs]; repeat fs_step.
  all: cbn [js_journal js_fs fs_names fs_next set_content set_faults]; same_names.
  - left. split_and!; [done| |done]. by rewrite content_faults, content_set.
  - right. split_and!; [done..|]. exists RECORD_LEN. rewrite content_faults, content_set.
    by rewrite (take_ge (encode_record _ _ _)) by (by rewrite length_encode_record).
  - right. split_and!; [done..|]. eexists. by rewrite content_set.
  - right. split_and!; [done..|]. exists 0%nat. by rewrite take_0, app_nil_r.
Qed.

(** ** How many records a log can have *)

Definition entry_weight (s : RecordState) : nat := match s with Completed => 2 | _ => 1 end.

Definition weight (index : Index) : nat := map_fold (λ _ s n, entry_weight s + n)%nat O index.

Lemma weight_insert d s index :
  index !! d = None → weight (<[d := s]> index) = (entry_weight s + weight index)%nat.
Proof.
  intros Hd. unfold weight. rewrite map_fold_insert_L; [done| |done]. intros. lia.
Qed.

Lemma weight_lookup d s index :
  index !! d = Some s → weight index = (entry_weight s + weight (delete d index))%nat.
Proof.
  intros Hd. rewrite <-(insert_delete_id index d s Hd) at 1.
  apply weight_insert, lookup_delete_eq.
Qed.

Lemma weight_bound index : (size index ≤ weight index ≤ 2 * size index)%nat.
Proof.
  induction index as [|d s index Hd IH] using map_ind; [done|].
  rewrite weight_insert, map_size_insert_None by done.
  destruct s; cbn; lia.
Qed.

Lemma replay_step_weight kind index e index' :
  replay_step kind index e = Some index' → weight index' = S (weight index).
Proof.
  destruct e as [d s]. cbn. intros Hr. destruct (negb (permits kind s)); [done|].
  destruct (index !! d) as [s0|] eqn:Hd.
  - destruct s0, s; try done. simplify_eq.
    rewrite (weight_lookup _ _ _ Hd), <-(insert_delete_eq index), weight_insert by apply lookup_delete_eq.
    done.
  - destruct s; try done; simplify_eq; by rewrite weight_insert.
Qed.

Lemma replay_weight kind index log index' :
  replay kind index log = Some index' → weight index' = (length log + weight index)%nat.
Proof.
  revert index. induction log as [|e log IH]; intros index Hr; cbn in Hr; [by simplify_eq|].
  destruct (replay_step kind index e) as [i|] eqn:Hs; cbn in Hr; [|done].
  apply replay_step_weight in Hs. apply IH in Hr. cbn [length]. lia.
Qed.

Lemma journal_ok_weight log s :
  journal_ok log s → length log = weight (j_index (js_journal s)).
Proof. intros (_ & _ & _ & Hr & _). apply replay_weight in Hr. cbn in Hr. unfold weight in Hr at 2. rewrite map_fold_empty in Hr. lia. Qed.

(** ** Appending one record *)

Lemma replay_app kind index log1 log2 :
  replay kind index (log1 ++ log2) = (replay kind index log1 ≫= λ i, replay kind i log2).
Proof.
  revert index. induction log1 as [|e log1 IH]; intros index; cbn; [done|].
  destruct (replay_step kind index e); cbn; [apply IH|done].
Qed.

(** The replay of a log extended by a record the transition table lets through. *)
Lemma replay_snoc kind log index d s :
  replay kind ∅ log = Some index → permits kind s = true →
  record_transition (index !! d) s = Append → (s = Completed → is_Some (index !! d)) →
  replay kind ∅ (log ++ [(d, s)]) = Some (<[d := s]> index).
Proof.
  intros Hr Hp Ht Hc. rewrite replay_app, Hr. cbn. rewrite Hp. cbn.
  destruct (index !! d) as [[]|]; destruct s; try done. destruct (Hc eq_refl). done.
Qed.

Lemma file_image_snoc kind log d s :
  file_image kind (log ++ [(d, s)]) =
  file_image kind log ++ encode_record (1 + Z.of_nat (length log)) s d.
Proof.
  unfold file_image. rewrite encode_log_app, concat_app. cbn [encode_log concat].
  by rewrite app_nil_r, app_assoc.
Qed.

(** While the log is consistent no append ever needs a compaction. *)
Lemma append_needs_no_compaction log st d s :
  journal_ok log st →
  record_transition (j_index (js_journal st) !! d) s = Append →
  (MAX_UNIQUE_ENTRIES <=? Z.of_nat (size (j_index (js_journal st))))
    && negb (bool_decide (is_Some (j_index (js_journal st) !! d))) = false →
  j_records (js_journal st) < MAX_RECORDS.
Proof.
  intros Hok Ht Hcap. pose proof (journal_ok_weight _ _ Hok) as Hw.
  destruct Hok as (_ & _ & _ & _ & _ & -> & Hmax).
  set (index := j_index (js_journal st)) in *. pose proof (weight_bound index) as Hb.
  unfold MAX_RECORDS, MAX_UNIQUE_ENTRIES in *.
  destruct (index !! d) as [s0|] eqn:Hd.
  - assert (entry_weight s0 = 1%nat) as Hone by (by destruct s0, s).
    pose proof (weight_lookup _ _ _ Hd) as Hwl. pose proof (weight_bound (delete d index)) as Hbd.
    rewrite map_size_delete_Some in Hbd by (by rewrite Hd).
    assert (size index ≠ 0%nat) by (intros Hz; apply map_size_empty_inv in Hz; rewrite Hz in Hd; done).
    lia.
  - rewrite bool_decide_eq_false_2 in Hcap by (by intros []). rewrite andb_true_r in Hcap. to_prop. lia.
Qed.

(** Everything a call of [record] on a consistent journal can do. *)
Lemma record_inv log st d s r st' :
  journal_ok log st →
  (s = Completed → is_Some (j_index (js_journal st) !! d)) →
  record d s st = (r, st') →
  (is_Some (j_index (js_journal st) !! d) ∧ r = Ok false ∧ st' = st) ∨
  (r = Ok true ∧ journal_ok (log ++ [(d, s)]) st' ∧
   permits (j_kind (js_journal st)) s = true ∧
   record_transition (j_index (js_journal st) !! d) s = Append ∧
   js_journal st' = index_insert d s (set_sequence (j_sequence (js_journal st) + 1) (js_journal st))) ∨
  ((r = Err Corrupt ∨ r = Err Capacity) ∧ st' = st) ∨
  (r = Err Unavailable ∧
   permits (j_kind (js_journal st)) s = true ∧
   record_transition (j_index (js_journal st) !! d) s = Append ∧
   Z.of_nat (length log) < MAX_RECORDS ∧
   Z.of_nat (size (<[d := s]> (j_index (js_journal st)))) ≤ MAX_UNIQUE_ENTRIES ∧
   fs_names (js_fs st') = fs_names (js_fs st) ∧ fs_next (js_fs st') = fs_next (js_fs st) ∧
   js_journal st' = set_sequence (j_sequence (js_journal st) + 1) (js_journal st) ∧
   ∃ n, content (js_fs st') (j_file (js_journal st)) =
        file_image (j_kind (js_journal st)) log ++
        take n (encode_record (1 + Z.of_nat (length log)) s d)).
Proof.
  intros Hok Hc Hrun. destruct st as [j fs]. cbn [js_journal js_fs] in *.
  unfold record in Hrun. unfold mbind at 1, st_err_bind at 1, gets at 1 in Hrun. cbn [js_journal] in Hrun.
  destruct (permits (j_kind j) s) eqn:Hp; cbn [negb] in Hrun.
  2: { right. right. left. unfold fail in Hrun. simplify_eq. auto. }
  destruct (record_transition (j_index j !! d) s) eqn:Ht.
  { left. unfold mret, st_err_ret in Hrun. simplify_eq. split_and!; [|done..].
    destruct (j_index j !! d); [eauto|by destruct s]. }
  2: { right. right. left. unfold fail in Hrun. simplify_eq. auto. }
  destruct (_ && _) eqn:Hcap.
  { right. right. left. unfold fail in Hrun. simplify_eq. auto. }
  pose proof (append_needs_no_compaction _ _ _ _ Hok Ht Hcap) as Hrec. cbn [js_journal] in Hrec.
  rewrite (proj2 (Z.leb_gt _ _)) in Hrun by lia.
  change (append_record d s (mkJState j fs) = (r, st')) in Hrun.
  assert (Z.of_nat (size (<[d := s]> (j_index j))) ≤ MAX_UNIQUE_ENTRIES) as Hsz.
  { rewrite map_size_insert. destruct Hok as (_ & _ & _ & _ & _ & _ & Hmax). cbn [js_journal] in Hmax.
    destruct (j_index j !! d) eqn:Hd; [done|].
    rewrite bool_decide_eq_false_2 in Hcap by (by intros []). rewrite andb_true_r in Hcap. to_prop. lia. }
  destruct Hok as (Hf & Hname & Hnext & Hr & Hseq & Hrecs & Hmax). cbn [js_journal js_fs] in *.
  apply append_record_inv in Hrun as (Hn & Hx & [(-> & Hct & Hj) | (-> & Hj & n & Hct)]).
  3: { unfold MAX_RECORDS, MAX_UNIQUE_ENTRIES, U64_MAX in *. lia. }
  all: replace (j_sequence j + 1) with (1 + Z.of_nat (length log)) in * by lia.
  - right. left. split_and!; [done| |done..|done]. unfold journal_ok. rewrite Hj.
    cbn [index_insert set_sequence j_kind j_file j_index j_sequence j_records].
    split_and!.
    + by rewrite Hct, Hf, file_image_snoc.
    + congruence.
    + congruence.
    + by apply replay_snoc.
    + rewrite length_app. cbn. lia.
    + rewrite length_app. cbn. lia.
    + done.
  - right. right. right. split_and!; [done..| |done|done|done|done| ]; [lia|]. exists n. by rewrite Hct, Hf.
Qed.

(** ** Opening *)

(** A directory from which the journal of [kind] reopens with log [log]: the
    active file is the image of the log, possibly followed by a torn record. *)
Definition recoverable (kind : JournalKind) (log : Log) (fs : Fs) : Prop :=
  ∃ ino tail index,
    fs_names fs !! file_name kind = Some (Regular ino) ∧ (ino < fs_next fs)%nat ∧
    content fs ino = file_image kind log ++ tail ∧ (length tail < RECORD_LEN)%nat ∧
    (tail = [] ∨ Z.of_nat (length log) < MAX_RECORDS) ∧
    replay kind ∅ log = Some index ∧ Z.of_nat (size index) ≤ MAX_UNIQUE_ENTRIES.

Lemma temp_name_ne kind : temp_name (file_name kind) ≠ file_name kind.
Proof. by destruct kind. Qed.

Lemma wp_cleanup_temp kind (Q : result LedgerError unit → Fs → Prop) fs :
  (∀ fl, Q (Ok tt) (set_faults fl fs)) →
  (∀ fl, Q (Ok tt) (set_names (delete (temp_name (file_name kind)) (fs_names fs)) (set_faults fl fs))) →
  (∀ fl, Q (Err Unavailable) (set_faults fl fs)) →
  wp (cleanup_temp (file_name kind)) Q fs.
Proof.
  intros H1 H2 H3. unfold cleanup_temp, unlink. repeat fs_step; [|done].
  cbn [fs_names set_faults]. case_match; [case_match|]; repeat fs_step; try done.
  - apply (H2 fl0).
  - apply (H3 fl0).
Qed.

(** Recovery of the image of a log with a torn tail: the tail goes, the log stays. *)
Lemma recover_inv kind log ino tail index fs r fs' :
  content fs ino = file_image kind log ++ tail → (length tail < RECORD_LEN)%nat →
  Z.of_nat (length log) ≤ MAX_RECORDS →
  replay kind ∅ log = Some index → Z.of_nat (size index) ≤ MAX_UNIQUE_ENTRIES →
  recover ino kind fs = (r, fs') →
  fs_names fs' = fs_names fs ∧ fs_next fs' = fs_next fs ∧
  ((r = Ok (Z.of_nat (length log), Z.of_nat (length log), index) ∧ content fs' ino = file_image kind log) ∨
   (r = Err Unavailable ∧ (content fs' ino = content fs ino ∨ content fs' ino = file_image kind log))).
Proof.
  intros Hc Ht Hl Hr Hs. revert r fs'. apply wp_elim.
  unfold recover, read_to_end, set_len. repeat fs_step; [|same_names; right; split; [done|by left]..].
  rewrite !content_faults, Hc, recover_scan_image with (index := index)
    by (try done; unfold MAX_RECORDS, MAX_UNIQUE_ENTRIES, U64_MAX in *; lia).
  rewrite complete_len_image, length_app, length_file_image, Nat.div_mul by (done || unfold RECORD_LEN; lia).
  replace (1 + Z.of_nat (length log) - 1) with (Z.of_nat (length log)) by lia.
  wp_step. destruct (Nat.eqb_spec (length log * RECORD_LEN)
    (HEADER_LEN + length log * RECORD_LEN + length tail - HEADER_LEN)) as [Heq|Hne]; cbn [negb].
  - assert (tail = []) as -> by (destruct tail; [done|cbn in Heq; lia]).
    repeat wp_step. split_and!; [done..|]. left. by rewrite !content_faults, Hc, app_nil_r.
  - repeat fs_step; cbn [fs_names fs_next set_content set_faults]; same_names.
    + left. split; [done|]. rewrite content_faults, content_set, !content_faults, Hc.
      by apply take_app_exact, length_file_image.
    + right. split; [done|]. right. rewrite content_faults, content_set, !content_faults, Hc.
      by apply take_app_exact, length_file_image.
    + right. split; [done|]. by left.
Qed.

Lemma journal_ok_recoverable log st :
  journal_ok log st → recoverable (j_kind (js_journal st)) log (js_fs st).
Proof.
  intros (Hf & Hn & Hx & Hr & _ & _ & Hs). exists (j_file (js_journal st)), [], (j_index (js_journal st)).
  rewrite app_nil_r. split_and!; try done; [unfold RECORD_LEN; cbn; lia|auto].
Qed.

Lemma recoverable_log_bound kind log fs : recoverable kind log fs → Z.of_nat (length log) ≤ MAX_RECORDS.
Proof.
  intros (ino & tail & index & _ & _ & _ & _ & _ & Hr & Hs). apply replay_weight in Hr.
  pose proof (weight_bound index). unfold weight in Hr at 2. rewrite map_fold_empty in Hr.
  unfold MAX_RECORDS in *. lia.
Qed.

(** The file size check never rejects a recoverable journal. *)
Lemma recoverable_size kind log tail :
  Z.of_nat (length log) ≤ MAX_RECORDS → (length tail < RECORD_LEN)%nat →
  (tail = [] ∨ Z.of_nat (length log) < MAX_RECORDS) →
  (Z.of_nat (length (file_image kind log ++ tail)) =? 0) = false ∧
  (MAX_FILE_BYTES <? Z.of_nat (length (file_image kind log ++ tail))) = false.
Proof.
  intros Hl Ht Hor. rewrite length_app, length_file_image. unfold MAX_FILE_BYTES, HEADER_LEN, RECORD_LEN in *.
  split; [apply Z.eqb_neq; lia|]. apply Z.ltb_ge. destruct Hor as [->|Hor]; cbn [length]; lia.
Qed.

Lemma open_recoverable kind log fs r fs' :
  recoverable kind log fs → journal_open kind fs = (r, fs') →
  (∃ j, r = Ok j ∧ j_kind j = kind ∧ journal_ok log (mkJState j fs')) ∨
  (r = Err Unavailable ∧ recoverable kind log fs').
Proof.
  intros Hrec. pose proof (recoverable_log_bound _ _ _ Hrec) as Hl. revert r fs'. apply wp_elim.
  destruct Hrec as (ino & tail & index & Hn & Hx & Hc & Ht & Hor & Hr & Hs).
  assert (∀ fs', fs_names fs' !! file_name kind = Some (Regular ino) → fs_next fs' = fs_next fs →
    (content fs' ino = content fs ino ∨ content fs' ino = file_image kind log) →
    recoverable kind log fs') as Hback.
  { intros fs' Hn' Hx' [Hc'|Hc']; [exists ino, tail, index|exists ino, [], index].
    - rewrite Hx', Hc'. done.
    - rewrite Hx', Hc', app_nil_r. split_and!; try done; [unfold RECORD_LEN; cbn; lia|auto]. }
  unfold journal_open. fs_step. fs_step; [|right; split; [done|]; apply Hback; auto].
  assert (∀ fs1, fs_names fs1 !! file_name kind = Some (Regular ino) → fs_next fs1 = fs_next fs →
    content fs1 ino = content fs ino →
    wp (open_and_recover kind)
      (λ r fs', (∃ j, r = Ok j ∧ j_kind j = kind ∧ journal_ok log (mkJState j fs')) ∨
         (r = Err Unavailable ∧ recoverable kind log fs')) fs1) as Hmain.
  { intros fs1 Hn1 Hx1 Hc1. unfold open_and_recover, open_active. repeat fs_step; [|right; split; [done|]; apply Hback; auto].
    cbn [fs_names set_faults]. rewrite Hn1. repeat fs_step; [|right; split; [done|]; apply Hback; auto].
    rewrite !content_faults, Hc1, Hc.
    destruct (recoverable_size kind log tail) as [-> ->]; [done..|]. repeat fs_step.
    apply wp_run. intros r fs2 Hrun.
    eapply (recover_inv kind log ino tail index) in Hrun; [|by rewrite !content_faults, Hc1|done..].
    destruct Hrun as (Hn2 & Hx2 & [[-> Hc2]|[-> Hc2]]).
    - repeat fs_step. left. eexists. split_and!; [done..|].
      unfold journal_ok. cbn [js_journal js_fs j_kind j_file j_index j_sequence j_records].
      rewrite Hn2, Hx2. cbn [fs_names fs_next set_faults]. rewrite Hx1. done.
    - right. split; [done|]. apply Hback; [by rewrite Hn2|by rewrite Hx2|]. by rewrite !content_faults, Hc1 in Hc2. }
  fs_step. apply wp_cleanup_temp; intros; cbn beta iota.
  - by apply Hmain.
  - apply Hmain; cbn; [|done..]. by rewrite lookup_delete_ne by apply temp_name_ne.
  - right. split; [done|]. apply Hback; auto.
Qed.

(** A failed append leaves the log as it was or extended by the whole record. *)
Lemma record_err_recoverable log st d s e st' :
  journal_ok log st → (s = Completed → is_Some (j_index (js_journal st) !! d)) →
  record d s st = (Err e, st') →
  j_kind (js_journal st') = j_kind (js_journal st) ∧
  (recoverable (j_kind (js_journal st)) log (js_fs st') ∨
   recoverable (j_kind (js_journal st)) (log ++ [(d, s)]) (js_fs st')).
Proof.
  intros Hok Hc Hrun. pose proof (journal_ok_recoverable _ _ Hok) as Hrec.
  destruct (record_inv _ _ _ _ _ _ Hok Hc Hrun) as
    [(_ & ? & _)|[(? & _)|[[_ ->]|(_ & Hp & Ht & Hl & Hsz & Hn & Hx & Hj & n & Hct)]]]; [done..|by auto|].
  rewrite Hj. split; [done|]. destruct Hok as (Hf & Hname & Hnext & Hr & _ & _ & Hs).
  set (k := j_kind (js_journal st)) in *. set (ino := j_file (js_journal st)) in *.
  destruct (decide (n < RECORD_LEN)%nat) as [Hlt|Hge].
  - left. exists ino, (take n (encode_record (1 + Z.of_nat (length log)) s d)), (j_index (js_journal st)).
    rewrite Hn, Hx. split_and!; try done; [|auto]. rewrite length_take. lia.
  - right. exists ino, [], (<[d := s]> (j_index (js_journal st))). rewrite Hn, Hx.
    rewrite take_ge in Hct by (rewrite length_encode_record; lia).
    split_and!; try done; [|unfold RECORD_LEN; cbn; lia|auto|by apply replay_snoc].
    by rewrite app_nil_r, file_image_snoc.
Qed.

(** Replay never forgets a digest. *)
Lemma replay_step_mono kind index e index' d :
  replay_step kind index e = Some index' → is_Some (index !! d) → is_Some (index' !! d).
Proof.
  destruct e as [d' s]. cbn. intros Hr Hd. destruct (decide (d = d')) as [->|Hne].
  - cases; by rewrite lookup_insert_eq.
  - cases; by rewrite lookup_insert_ne.
Qed.

Lemma replay_mono kind index log index' d :
  replay kind index log = Some index' → is_Some (index !! d) → is_Some (index' !! d).
Proof.
  revert index. induction log as [|e log IH]; intros index Hr Hd; cbn in Hr; [by simplify_eq|].
  destruct (replay_step kind index e) as [i|] eqn:Hs; cbn in Hr; [|done].
  eauto using replay_step_mono.
Qed.

Lemma replay_step_dom kind index e index' :
  replay_step kind index e = Some index' → is_Some (index' !! e.1).
Proof. destruct e as [d s]. cbn. intros Hr. cases; by rewrite lookup_insert_eq. Qed.

Lemma replay_dom kind index log index' d :
  replay kind index log = Some index' → d ∈ log.*1 → is_Some (index' !! d).
Proof.
  revert index. induction log as [|e log IH]; intros index Hr Hd; [by apply elem_of_nil in Hd|].
  cbn [replay fmap list_fmap] in *.
  destruct (replay_step kind index e) as [i|] eqn:Hs; cbn in Hr; [|done].
  apply elem_of_cons in Hd as [->|Hd]; [|eauto].
  eapply replay_mono; [done|]. by eapply replay_step_dom.
Qed.

Lemma journal_ok_dom log st d :
  journal_ok log st → d ∈ log.*1 → is_Some (j_index (js_journal st) !! d).
Proof. intros (_ & _ & _ & Hr & _) Hd. by eapply replay_dom. Qed.

(** ** Lives of the delivery journal

    A process reserves and completes digests until an append fails or the
    process dies; the directory is then reopened. [g] collects the digests
    whose reservation was granted ([Ok true]); only granted digests are ever
    completed. *)

Inductive life := Running (st : JState) | Down (fs : Fs).

Inductive life_step : life * list LedgerDigest → life * list LedgerDigest → Prop :=
| life_reserve st g d (b : bool) st' :
    record d Reserved st = (Ok b, st') →
    life_step (Running st, g) (Running st', if b then d :: g else g)
| life_complete st g d b st' :
    d ∈ g → record d Completed st = (Ok b, st') →
    life_step (Running st, g) (Running st', g)
| life_fail st g d s e st' :
    (s = Completed → d ∈ g) → record d s st = (Err e, st') →
    life_step (Running st, g) (Down (js_fs st'), g)
| life_crash st g : life_step (Running st, g) (Down (js_fs st), g)
| life_open fs g r fs' :
    journal_open Delivery fs = (r, fs') →
    life_step (Down fs, g) (match r with Ok j => Running (mkJState j fs') | Err _ => Down fs' end, g).

(** Granted digests are distinct and durable. *)
Definition life_inv (l : life * list LedgerDigest) : Prop :=
  NoDup l.2 ∧
  ∃ log, (∀ d, d ∈ l.2 → d ∈ log.*1) ∧
    match l.1 with
    | Running st => j_kind (js_journal st) = Delivery ∧ journal_ok log st
    | Down fs => recoverable Delivery log fs
    end.

Lemma record_ok_life log st d s b st' :
  journal_ok log st → j_kind (js_journal st) = Delivery →
  (s = Completed → is_Some (j_index (js_journal st) !! d)) →
  record d s st = (Ok b, st') →
  j_kind (js_journal st') = Delivery ∧
  ∃ log', journal_ok log' st' ∧ (∀ x, x ∈ log.*1 → x ∈ log'.*1) ∧
    (b = true → d ∈ log'.*1 ∧ (s = Reserved → d ∉ log.*1)).
Proof.
  intros Hok Hk Hc Hrun.
  destruct (record_inv _ _ _ _ _ _ Hok Hc Hrun) as
    [(_ & ? & ->)|[(? & Hok' & _ & Ht & Hj)|[[[?|?] _]|(? & _)]]]; try done; simplify_eq.
  - split; [done|]. exists log. by split_and!.
  - rewrite Hj. split; [done|]. exists (log ++ [(d, s)]). rewrite fmap_app. cbn.
    split_and!; [done|set_solver|intros _]. split; [set_solver|]. intros -> Hin.
    destruct (journal_ok_dom _ _ _ Hok Hin) as [[] Hs]; rewrite Hs in Ht; done.
Qed.

Lemma life_inv_step l l' : life_inv l → life_step l l' → life_inv l'.
Proof.
  intros [Hnd (log & Hg & Hl)] Hstep.
  destruct Hstep as [st g d b st' Hrun|st g d b st' Hd Hrun|st g d s e st' Hs Hrun|st g|fs g r fs' Hrun];
    cbn [fst snd] in *.
  - destruct Hl as [Hk Hok]. apply (record_ok_life log) in Hrun as (Hk' & log' & Hok' & Hsub & Hb); [|done..].
    split; cbn; [|exists log'; split; [|done]; intros x Hx].
    + destruct b; [|done]. destruct (Hb eq_refl) as [_ Hnew]. constructor; [|done].
      intros Hin. by apply (Hnew eq_refl), Hg.
    + destruct b; [|auto]. apply elem_of_cons in Hx as [->|Hx]; [|auto]. by apply Hb.
  - destruct Hl as [Hk Hok]. pose proof (journal_ok_dom _ _ _ Hok (Hg _ Hd)) as Hdom.
    apply (record_ok_life log) in Hrun as (Hk' & log' & Hok' & Hsub & _); [|done..].
    split; [done|]. exists log'. cbn. auto.
  - destruct Hl as [Hk Hok]. apply (record_err_recoverable log) in Hrun as [_ Hrec]; [|done|].
    + split; [done|]. rewrite Hk in Hrec. cbn. destruct Hrec as [Hrec|Hrec]; [by exists log|].
      exists (log ++ [(d, s)]). split; [|done]. rewrite fmap_app. set_solver.
    + intros Hcomp. eapply journal_ok_dom; eauto.
  - destruct Hl as [Hk Hok]. split; [done|]. exists log. split; [done|]. cbn. rewrite <-Hk.
    by apply journal_ok_recoverable.
  - split; [done|]. exists log. split; [done|].
    destruct (open_recoverable _ _ _ _ _ Hl Hrun) as [(j & -> & Hk & Hok)|[-> Hrec]]; done.
Qed.

Lemma life_inv_steps l l' : life_inv l → rtc life_step l l' → life_inv l'.
Proof. intros Hl. induction 1; eauto using life_inv_step. Qed.

(** ** Files that recovery rejects *)

(** A rejected file stays rejected and untouched, whatever faults occur. *)
Lemma open_rejected kind ino data e fs r fs' :
  fs_names fs !! file_name kind = Some (Regular ino) → content fs ino = data →
  data ≠ [] → recover_scan kind data = Err e →
  journal_open kind fs = (r, fs') →
  (r = Err e ∨ r = Err Capacity ∨ r = Err Unavailable) ∧ content fs' ino = data ∧
  fs_names fs' !! file_name kind = Some (Regular ino).
Proof.
  intros Hn Hc Hne Hscan. revert r fs'. apply wp_elim.
  assert (∀ fs1, fs_names fs1 !! file_name kind = Some (Regular ino) → content fs1 ino = data →
    wp (open_and_recover kind) (λ r fs',
      (r = Err e ∨ r = Err Capacity ∨ r = Err Unavailable) ∧ content fs' ino = data ∧
      fs_names fs' !! file_name kind = Some (Regular ino)) fs1) as Hmain.
  { intros fs1 Hn1 Hc1. unfold open_and_recover, open_active. repeat fs_step; [|auto].
    cbn [fs_names set_faults]. rewrite Hn1. repeat fs_step; [|auto]. rewrite !content_faults, Hc1.
    assert ((Z.of_nat (length data) =? 0) = false) as ->
      by (apply Z.eqb_neq; destruct data; [done|cbn; lia]).
    case_match; repeat fs_step; [auto|]. unfold recover, read_to_end. repeat fs_step; [|auto..].
    rewrite !content_faults, Hc1, Hscan. auto. }
  unfold journal_open. fs_step. fs_step; [|auto]. fs_step. apply wp_cleanup_temp; intros; cbn beta iota; [|auto..].
  - by apply Hmain.
  - apply Hmain; [|done]. cbn. by rewrite lookup_delete_ne by apply temp_name_ne.
Qed.

(** A log the replay refuses makes the scan fail with [Corrupt]. *)
Lemma recover_loop_stuck kind expected index log :
  1 ≤ expected → expected + Z.of_nat (length log) ≤ U64_MAX →
  Z.of_nat (size index) + Z.of_nat (length log) ≤ MAX_UNIQUE_ENTRIES →
  replay kind index log = None →
  recover_loop kind expected index (encode_log expected log) = Err Corrupt.
Proof.
  revert expected index. induction log as [|[d s] log IH]; intros expected index H1 H2 H3 Hr; [done|].
  cbn [encode_log recover_loop length replay] in *.
  rewrite recover_step_encode by (unfold is_u64 in *; lia).
  destruct (replay_step kind index (d, s)) as [i|] eqn:Hs; [|done]. cbn in Hr.
  assert (size i ≤ S (size index))%nat as Hi.
  { cbn in Hs. cases; rewrite map_size_insert; case_match; cbn; lia. }
  rewrite (proj2 (Z.ltb_ge _ _)) by lia. apply IH; [lia|lia|lia|done].
Qed.

Lemma recover_scan_stuck kind log :
  Z.of_nat (length log) ≤ MAX_UNIQUE_ENTRIES → replay kind ∅ log = None →
  recover_scan kind (file_image kind log) = Err Corrupt.
Proof.
  intros Hl Hr. unfold recover_scan. rewrite <-(app_nil_r (file_image kind log)).
  rewrite complete_len_image by (unfold RECORD_LEN; cbn; lia). rewrite app_nil_r.
  unfold file_image. rewrite header_good, drop_app_exact by apply length_header.
  rewrite take_ge by (by rewrite length_concat_log).
  unfold chunks_exact. rewrite length_concat_log, Nat.div_mul by (unfold RECORD_LEN; lia).
  pose proof (blocks_log _ 1 log [] eq_refl) as Hb. rewrite app_nil_r in Hb. rewrite Hb.
  unfold MAX_UNIQUE_ENTRIES in Hl.
  apply recover_loop_stuck; [lia| |rewrite map_size_empty; unfold MAX_UNIQUE_ENTRIES; lia|done].
  unfold U64_MAX. lia.
Qed.

(** ** Compaction *)

Lemma wp_write_entries file n entries (Q : result LedgerError Z → Fs → Prop) fs :
  fs_faults fs = [] →
  (∀ fs', fs_faults fs' = [] → fs_names fs' = fs_names fs → fs_next fs' = fs_next fs →
     content fs' file = content fs file ++ concat (encode_log (n + 1) entries) →
     Q (Ok (n + Z.of_nat (length entries))) fs') →
  wp (write_entries file n entries) Q fs.
Proof.
  revert n fs. induction entries as [|[d s] entries IH]; intros n fs Hf HQ; cbn [write_entries].
  - wp_step. rewrite <-(Z.add_0_r n). apply HQ; [done..|]. cbn. by rewrite app_nil_r.
  - wp_step. apply wp_write_all_ok; [done|]. cbn beta iota. apply IH; [done|].
    intros fs' Hf' Hn' Hx' Hc'. cbn [length] in HQ.
    replace (n + 1 + Z.of_nat (length entries)) with (n + Z.of_nat (S (length entries))) by lia.
    apply HQ; [done..|]. rewrite Hc', content_set, <-app_assoc. done.
Qed.

Lemma sorted_entries_perm index : sorted_entries index ≡ₚ map_to_list index.
Proof. apply merge_sort_Permutation. Qed.

Lemma length_sorted_entries index : length (sorted_entries index) = size index.
Proof. rewrite sorted_entries_perm. apply length_map_to_list. Qed.

(** Without faults, compaction installs the image of the sorted index. *)
Lemma compact_run st :
  let j := js_journal st in
  fs_faults (js_fs st) = [] → fs_names (js_fs st) !! temp_name (file_name (j_kind j)) = None →
  ∃ st', compact st = (Ok tt, st') ∧ fs_faults (js_fs st') = [] ∧
    js_journal st' = set_file_sequence_records (fs_next (js_fs st)) (Z.of_nat (size (j_index j)))
                       (Z.of_nat (size (j_index j))) j ∧
    content (js_fs st') (fs_next (js_fs st)) = file_image (j_kind j) (sorted_entries (j_index j)) ∧
    fs_names (js_fs st') !! file_name (j_kind j) = Some (Regular (fs_next (js_fs st))) ∧
    fs_next (js_fs st') = S (fs_next (js_fs st)).
Proof.
  destruct st as [j fs]. cbn [js_journal js_fs]. intros Hf Ht.
  enough (wp compact (λ r st', r = Ok tt ∧ fs_faults (js_fs st') = [] ∧
    js_journal st' = set_file_sequence_records (fs_next fs) (Z.of_nat (size (j_index j)))
                       (Z.of_nat (size (j_index j))) j ∧
    content (js_fs st') (fs_next fs) = file_image (j_kind j) (sorted_entries (j_index j)) ∧
    fs_names (js_fs st') !! file_name (j_kind j) = Some (Regular (fs_next fs)) ∧
    fs_next (js_fs st') = S (fs_next fs)) (mkJState j fs)) as Hwp.
  { unfold wp in Hwp. destruct (compact (mkJState j fs)) as [r st'] eqn:Hrun. cbn in Hwp.
    destruct Hwp as [-> Hrest]. by exists st'. }
  unfold compact, create_temp, write_header, rename_temp, open_active.
  repeat fs_ok. cbn [js_journal]. rewrite Ht. repeat fs_ok.
  apply wp_write_entries; [done|]. intros fs1 Hf1 Hn1 Hx1 Hc1.
  rewrite content_set in Hc1. unfold content in Hc1 at 2. cbn in Hc1, Hn1, Hx1.
  rewrite lookup_insert_eq in Hc1. cbn [default app] in Hc1.
  repeat fs_ok. rewrite Hn1, lookup_insert_eq. repeat fs_ok.
  cbn [fs_names set_names]. rewrite lookup_insert_eq. repeat fs_ok.
  cbn [js_journal js_fs fs_faults fs_names fs_next set_names].
  rewrite length_sorted_entries, lookup_insert_eq. by split_and!.
Qed.

Lemma replay_permits kind index log index' :
  replay kind index log = Some index' → map_Forall (λ _ s, permits kind s = true) index →
  map_Forall (λ _ s, permits kind s = true) index'.
Proof.
  revert index. induction log as [|[d s] log IH]; intros index Hr Hp; cbn in Hr; [by simplify_eq|].
  destruct (permits kind s) eqn:Hs; cbn in Hr; [|done].
  destruct (index !! d) as [[]|], s; cbn in Hr; try done; eapply IH; try done; by apply map_Forall_insert_2.
Qed.

(** Distinct fresh digests, none completed, replay to the map they list. *)
Lemma replay_entries kind index log :
  NoDup log.*1 → (∀ d, d ∈ log.*1 → index !! d = None) →
  Forall (λ e, permits kind e.2 = true ∧ e.2 ≠ Completed) log →
  replay kind index log = Some (list_to_map log ∪ index).
Proof.
  revert index. induction log as [|[d s] log IH]; intros index Hnd Hfresh Hall.
  - cbn. by rewrite (left_id_L ∅ (∪)).
  - cbn [fmap list_fmap fst] in *. apply NoDup_cons in Hnd as [Hd Hnd].
    apply Forall_cons in Hall as [[Hp Hc] Hall]. cbn [snd] in *. cbn [replay replay_step].
    rewrite Hp, (Hfresh d) by set_solver. cbn [negb].
    assert (list_to_map log !! d = @None RecordState) as Hn by (by apply not_elem_of_list_to_map).
    destruct s; [| |done]; cbn [mbind option_bind]; rewrite IH; try done.
    1,3: rewrite list_to_map_cons, <-insert_union_l, <-insert_union_r; done.
    all: intros x Hx; rewrite lookup_insert_ne by set_solver; apply Hfresh; set_solver.
Qed.

Lemma replay_entries_completed kind index log d :
  NoDup log.*1 → (∀ x, x ∈ log.*1 → index !! x = None) → (d, Completed) ∈ log →
  replay kind index log = None.
Proof.
  revert index. induction log as [|[x s] log IH]; intros index Hnd Hfresh Hd; [by apply elem_of_nil in Hd|].
  cbn [fmap list_fmap fst] in *. apply NoDup_cons in Hnd as [Hx Hnd]. cbn [replay replay_step].
  destruct (permits kind s); [|done]. rewrite (Hfresh x) by set_solver. cbn [negb].
  apply elem_of_cons in Hd as [Heq|Hd]; [by simplify_eq|].
  destruct s; cbn [mbind option_bind]; try done; apply IH; try done.
  all: intros y Hy; rewrite lookup_insert_ne by set_solver; apply Hfresh; set_solver.
Qed.

Lemma sorted_entries_NoDup index : NoDup (sorted_entries index).*1.
Proof. rewrite sorted_entries_perm. apply NoDup_fst_map_to_list. Qed.

Lemma elem_of_sorted_entries index d s : (d, s) ∈ sorted_entries index ↔ index !! d = Some s.
Proof. rewrite sorted_entries_perm. apply elem_of_map_to_list. Qed.

Lemma replay_sorted_entries kind index :
  map_Forall (λ _ s, permits kind s = true) index → map_Forall (λ _ s, s ≠ Completed) index →
  replay kind ∅ (sorted_entries index) = Some index.
Proof.
  intros Hp Hc. rewrite replay_entries.
  - rewrite (right_id_L ∅ (∪)). f_equal. rewrite <-(list_to_map_to_list index) at 2.
    apply list_to_map_proper; [apply sorted_entries_NoDup|apply sorted_entries_perm].
  - apply sorted_entries_NoDup.
  - done.
  - apply Forall_forall. intros [d s] Hd. apply elem_of_sorted_entries in Hd. cbn.
    split; [by apply (Hp d)|by apply (Hc d)].
Qed.

Lemma journal_ok_torn log st tail :
  journal_ok log st → (length tail < RECORD_LEN)%nat → Z.of_nat (length log) < MAX_RECORDS →
  recoverable (j_kind (js_journal st)) log
    (set_content (j_file (js_journal st)) (content (js_fs st) (j_file (js_journal st)) ++ tail) (js_fs st)).
Proof.
  intros (Hf & Hn & Hx & Hr & _ & _ & Hs) Ht Hl.
  exists (j_file (js_journal st)), tail, (j_index (js_journal st)).
  rewrite content_set, Hf. split_and!; auto.
Qed.

Lemma record_ok_extends log st d s :
  journal_ok log st → (s = Completed → is_Some (j_index (js_journal st) !! d)) →
  (record d s st).1 = Ok true →
  record d s st = (Ok true, (record d s st).2) ∧ journal_ok (log ++ [(d, s)]) (record d s st).2.
Proof.
  intros Hok Hc Hr. destruct (record d s st) as [r st'] eqn:Hrun. cbn in *. subst r. split; [done|].
  by destruct (record_inv _ _ _ _ _ _ Hok Hc Hrun) as [(_ & ? & _)|[(_ & Hok' & _)|[[[?|?] _]|(? & _)]]].
Qed.

(** ** Success without faults *)

(** Nothing is in the way of the temporary file's cleanup. *)
Definition temp_clear (kind : JournalKind) (fs : Fs) : bool :=
  match fs_names fs !! temp_name (file_name kind) with
  | None | Some (Regular _) => true
  | _ => false
  end.

Lemma open_recoverable_ok kind log fs :
  recoverable kind log fs → fs_faults fs = [] → temp_clear kind fs = true →
  is_ok (journal_open kind fs).1 = true.
Proof.
  intros Hrec Hf Ht. pose proof (recoverable_log_bound _ _ _ Hrec) as Hl.
  destruct Hrec as (ino & tail & index & Hn & Hx & Hc & Htl & Hor & Hr & Hs).
  change (wp (journal_open kind) (λ r _, is_ok r = true) fs).
  assert (∀ fs1, fs_faults fs1 = [] → fs_names fs1 !! file_name kind = Some (Regular ino) →
    content fs1 ino = content fs ino → wp (open_and_recover kind) (λ r _, is_ok r = true) fs1) as Hmain.
  { intros fs1 Hf1 Hn1 Hc1. unfold open_and_recover, open_active, recover, read_to_end, set_len.
    repeat fs_ok. rewrite Hn1. repeat fs_ok. rewrite Hc1, Hc.
    destruct (recoverable_size kind log tail) as [-> ->]; [done..|]. repeat fs_ok.
    rewrite Hc1, Hc, recover_scan_image with (index := index)
      by (try done; unfold MAX_RECORDS, MAX_UNIQUE_ENTRIES, U64_MAX in *; lia).
    fs_ok. case_match; repeat fs_ok; done. }
  unfold journal_open, cleanup_temp, unlink. repeat fs_ok. unfold temp_clear in Ht.
  destruct (fs_names fs !! temp_name (file_name kind)) as [[]|]; try done; repeat fs_ok; apply Hmain; try done.
  cbn. by rewrite lookup_delete_ne by apply temp_name_ne.
Qed.

End facts.

(** ** Concrete journals, for the witnesses

    A stand-in hash makes every definition run; the theorems hold for any. *)

Definition toy_sha : Sha256 := λ l, vreplicate 32 (byte_of_Z (from_be_bytes l)).

Definition empty_dir : Fs := mkFs ∅ ∅ 0 [].

Definition fresh_state : JState :=
  mkJState (mkJournal Delivery 0 0 0 ∅)
    (mkFs {[ DELIVERY_FILE := Regular 0 ]} {[ 0%nat := header Delivery ]} 1 []).

Definition doc_digest : LedgerDigest := @document_digest toy_sha "frames" "one".

Lemma fresh_state_opened :
  journal_open (sha := toy_sha) Delivery empty_dir = (Ok (js_journal fresh_state), js_fs fresh_state).
Proof. vm_compute. reflexivity. Qed.

Lemma fresh_state_ok : journal_ok (sha := toy_sha) [] fresh_state.
Proof.
  unfold journal_ok, fresh_state. cbn [js_journal js_fs j_kind j_file j_index j_sequence j_records fs_next].
  split_and!; try (vm_compute; reflexivity); try (vm_compute; discriminate); lia.
Qed.

(** ** Properties *)

Section properties.
Context {sha : Sha256}.

(** [C4] The record codec is exact: a byte string decodes to (sequence, state,
    digest) if and only if it is the 80-byte encoding of that triple and the
    sequence is a u64. *)
Theorem record_codec_exact r n s d :
  decode_record r = Ok (n, s, d) ↔ r = encode_record n s d ∧ is_u64 n.
Proof.
  split; [apply encode_decode_record|].
  intros [-> Hn]. by apply decode_encode_record.
Qed.

(** The bytes hashed for a document identity are length-framed: two
    different (collection, document id) pairs never feed the same bytes to
    SHA-256. *)
Theorem digest_framing_injective c1 i1 c2 i2 :
  is_u64 (str_len c1) → is_u64 (str_len i1) → is_u64 (str_len c2) → is_u64 (str_len i2) →
  digest_preimage c1 i1 = digest_preimage c2 i2 → c1 = c2 ∧ i1 = i2.
Proof. apply digest_preimage_inj. Qed.

(** [C3] Opening recovers the journal: a directory whose active file is the
    image of a log, with at most one torn record after it, opens under every
    fault plan either into exactly that log or with [Unavailable], leaving it
    openable; without faults it does open. *)
Theorem open_recovers_log kind log fs r fs' :
  recoverable kind log fs → journal_open kind fs = (r, fs') →
  ((∃ j, r = Ok j ∧ j_kind j = kind ∧ journal_ok log (mkJState j fs')) ∨
   (r = Err Unavailable ∧ recoverable kind log fs')) ∧
  (fs_faults fs = [] → temp_clear kind fs = true → is_ok r = true).
Proof.
  intros Hrec Hrun. split; [by eapply open_recoverable|].
  intros Hf Ht. pose proof (open_recoverable_ok _ _ _ Hrec Hf Ht) as Hok. by rewrite Hrun in Hok.
Qed.

(** [C2] Appending is crash-consistent: on a consistent journal, and whatever
    system call fails, [record] either reports a digest it already holds and
    changes nothing, or reports success and extends log, file and index by the
    record, or fails with a file that reopens as the old log or the old log
    extended by the whole record. *)
Theorem record_crash_consistent log st d s r st' :
  journal_ok log st → (s = Completed → is_Some (j_index (js_journal st) !! d)) →
  record d s st = (r, st') →
  match r with
  | Ok false => st' = st ∧ is_Some (j_index (js_journal st) !! d)
  | Ok true => journal_ok (log ++ [(d, s)]) st' ∧
               j_index (js_journal st') = <[d := s]> (j_index (js_journal st))
  | Err _ => recoverable (j_kind (js_journal st)) log (js_fs st') ∨
             recoverable (j_kind (js_journal st)) (log ++ [(d, s)]) (js_fs st')
  end.
Proof.
  intros Hok Hc Hrun. destruct r as [b|e]; [|by eapply record_err_recoverable].
  destruct (record_inv _ _ _ _ _ _ Hok Hc Hrun) as
    [(? & ? & ->)|[(? & Hok' & _ & _ & Hj)|[[[?|?] _]|(? & _)]]]; simplify_eq; [done|].
  by rewrite Hj.
Qed.


(** The compaction branch of [record] is dead code on a consistent journal:
    whenever the transition table and the capacity check let an append through,
    the file has fewer than [MAX_RECORDS] records. *)
Theorem compaction_unreachable log st d s :
  journal_ok log st →
  record_transition (j_index (js_journal st) !! d) s = Append →
  (MAX_UNIQUE_ENTRIES <=? Z.of_nat (size (j_index (js_journal st))))
    && negb (bool_decide (is_Some (j_index (js_journal st) !! d))) = false →
  j_records (js_journal st) < MAX_RECORDS.
Proof. apply append_needs_no_compaction. Qed.

(** Compaction of a journal with no completed entry is faithful: it
    succeeds, keeps the index, and leaves a consistent journal whose log is the
    sorted index. *)
Theorem compaction_keeps_open_entries log st :
  journal_ok log st → fs_faults (js_fs st) = [] →
  fs_names (js_fs st) !! temp_name (file_name (j_kind (js_journal st))) = None →
  map_Forall (λ _ s, s ≠ Completed) (j_index (js_journal st)) →
  ∃ st', compact st = (Ok tt, st') ∧ j_index (js_journal st') = j_index (js_journal st) ∧
    journal_ok (sorted_entries (j_index (js_journal st))) st'.
Proof.
  intros (_ & _ & _ & Hr & _ & _ & Hs) Hf Ht Hc.
  destruct (compact_run st Hf Ht) as (st' & Hrun & _ & Hj & Hct & Hn & Hx). exists st'. split; [done|].
  unfold journal_ok. rewrite Hj. cbn [set_file_sequence_records j_index j_kind j_file j_sequence j_records].
  rewrite length_sorted_entries, Hx. split_and!; try done; [lia|].
  apply replay_sorted_entries; [|done]. eapply replay_permits; [done|]. by apply map_Forall_empty.
Qed.

(** Compaction of a journal with a completed entry destroys it: the call
    succeeds, and from then on no opening of that file succeeds, because the
    compacted file holds a completed record without its reservation and
    [recover] refuses it. *)
Theorem compaction_of_completed_is_fatal log st d :
  journal_ok log st → fs_faults (js_fs st) = [] →
  fs_names (js_fs st) !! temp_name (file_name (j_kind (js_journal st))) = None →
  j_index (js_journal st) !! d = Some Completed →
  ∃ st', compact st = (Ok tt, st') ∧
    ∀ fl r fs', journal_open (j_kind (js_journal st)) (set_faults fl (js_fs st')) = (r, fs') → is_ok r = false.
Proof.
  intros (_ & _ & _ & _ & _ & _ & Hs) Hf Ht Hd.
  destruct (compact_run st Hf Ht) as (st' & Hrun & _ & Hj & Hct & Hn & Hx). exists st'. split; [done|].
  intros fl r fs' Hopen.
  eapply (open_rejected _ (fs_next (js_fs st)) (file_image _ _) Corrupt) in Hopen as [Hr _]; [|done|done| |].
  - by destruct Hr as [->|[->| ->]].
  - by destruct (j_kind (js_journal st)).
  - apply recover_scan_stuck; [by rewrite length_sorted_entries|].
    apply (replay_entries_completed _ _ _ d); [apply sorted_entries_NoDup|done|by apply elem_of_sorted_entries].
Qed.

(** A crash inside the very first header write is never repaired: a file
    that holds a proper non-empty prefix of the header is refused by every later
    opening, under every fault plan, and left as it is. *)
Theorem torn_header_is_fatal kind n ino fs r fs' :
  fs_names fs !! file_name kind = Some (Regular ino) →
  content fs ino = take n (header kind) → (0 < n < HEADER_LEN)%nat →
  journal_open kind fs = (r, fs') →
  is_ok r = false ∧ content fs' ino = take n (header kind).
Proof.
  intros Hn Hc Hlen Hrun. unfold HEADER_LEN in Hlen.
  assert (length (take n (header kind)) = n) as Hl
    by (rewrite length_take, length_header; unfold HEADER_LEN; lia).
  eapply open_rejected in Hrun as (Hr & Hct & _); [|done|done| |].
  - split; [|done]. by destruct Hr as [->|[->| ->]].
  - intros Heq. rewrite Heq in Hl. cbn in Hl. lia.
  - unfold recover_scan, header_bad. rewrite Hl.
    replace (n <? HEADER_LEN)%nat with true by (symmetry; apply Nat.ltb_lt; unfold HEADER_LEN; lia). done.
Qed.

End properties.

(** ** Witnesses *)

Lemma digest_framing_injective_witness :
  is_u64 (str_len "ab") ∧ digest_preimage "ab" "c" = digest_preimage "ab" "c" ∧ ("ab"%string = "ab"%string ∧ "c"%string = "c"%string).
Proof.
  assert (∀ z, (0 <=? z) && (z <=? U64_MAX) = true → is_u64 z) as Hu
    by (intros z Hz; apply andb_true_iff in Hz as [?%Z.leb_le ?%Z.leb_le]; split; assumption).
  split; [apply Hu; reflexivity|]. split; [reflexivity|].
  apply (digest_framing_injective "ab" "c" "ab" "c"); [apply Hu; reflexivity..|reflexivity].
Defined.

(** The journal with one record, and the same directory with a torn second one. *)
Definition one_record : JState := (record (sha := toy_sha) doc_digest Reserved fresh_state).2.

Definition torn_dir : Fs :=
  set_content 0 (content (js_fs one_record) 0 ++ replicate 17 Byte.x07) (js_fs one_record).

Lemma one_record_run :
  record (sha := toy_sha) doc_digest Reserved fresh_state = (Ok true, one_record) ∧
  journal_ok (sha := toy_sha) [(doc_digest, Reserved)] one_record.
Proof. apply (record_ok_extends []); [exact fresh_state_ok|done|vm_compute; reflexivity]. Qed.

Lemma torn_dir_recoverable : recoverable (sha := toy_sha) Delivery [(doc_digest, Reserved)] torn_dir.
Proof.
  apply (journal_ok_torn (sha := toy_sha) _ one_record); [apply one_record_run|cbn; unfold RECORD_LEN; lia|].
  vm_compute. reflexivity.
Qed.

Lemma open_recovers_log_witness :
  is_ok (journal_open (sha := toy_sha) Delivery torn_dir).1 = true.
Proof.
  destruct (journal_open (sha := toy_sha) Delivery torn_dir) as [r fs'] eqn:Hrun.
  apply (open_recovers_log (sha := toy_sha) Delivery _ torn_dir r fs' torn_dir_recoverable Hrun);
    vm_compute; reflexivity.
Defined.

Lemma record_crash_consistent_witness :
  journal_ok (sha := toy_sha) ([] ++ [(doc_digest, Reserved)]) one_record ∧
  j_index (js_journal one_record) = <[doc_digest := Reserved]> ∅.
Proof.
  apply (record_crash_consistent (sha := toy_sha) [] fresh_state doc_digest Reserved (Ok true) one_record
           fresh_state_ok).
  - discriminate.
  - apply one_record_run.
Defined.


Lemma compaction_unreachable_witness : j_records (js_journal fresh_state) < MAX_RECORDS.
Proof.
  apply (compaction_unreachable (sha := toy_sha) [] fresh_state doc_digest Reserved fresh_state_ok);
    vm_compute; reflexivity.
Defined.

Lemma compaction_keeps_open_entries_witness :
  ∃ st', compact (sha := toy_sha) fresh_state = (Ok tt, st') ∧ j_index (js_journal st') = ∅ ∧
    journal_ok (sha := toy_sha) (sorted_entries ∅) st'.
Proof.
  apply (compaction_keeps_open_entries (sha := toy_sha) [] fresh_state fresh_state_ok);
    [vm_compute; reflexivity..|]. apply map_Forall_empty.
Defined.

(** The journal after a reservation and its completion. *)
Definition completed_record : JState := (record (sha := toy_sha) doc_digest Completed one_record).2.

Lemma completed_record_ok :
  journal_ok (sha := toy_sha) [(doc_digest, Reserved); (doc_digest, Completed)] completed_record.
Proof.
  apply (record_ok_extends [(doc_digest, Reserved)]); [apply one_record_run| |vm_compute; reflexivity].
  intros _. exists Reserved. vm_compute. reflexivity.
Qed.

Lemma compaction_of_completed_is_fatal_witness :
  ∃ st', compact (sha := toy_sha) completed_record = (Ok tt, st') ∧
    ∀ fl r fs', journal_open (sha := toy_sha) Delivery (set_faults fl (js_fs st')) = (r, fs') → is_ok r = false.
Proof.
  apply (compaction_of_completed_is_fatal (sha := toy_sha) _ completed_record doc_digest completed_record_ok);
    vm_compute; reflexivity.
Defined.

Definition torn_header_dir : Fs :=
  mkFs {[ EXCLUSION_FILE := Regular 0 ]} {[ 0%nat := take 7 (header Exclusion) ]} 1 [].

Lemma torn_header_is_fatal_witness :
  is_ok (journal_open (sha := toy_sha) Exclusion torn_header_dir).1 = false.
Proof.
  destruct (journal_open (sha := toy_sha) Exclusion torn_header_dir) as [r fs'] eqn:Hrun.
  apply (torn_header_is_fatal (sha := toy_sha) Exclusion 7 0 torn_header_dir r fs'); [reflexivity..| |exact Hrun].
  unfold HEADER_LEN. lia.
Defined.
