(* ===== verification/LedgerWorker.v ===== *)
(** * Journal workers and their facades

    Model of the actor half of [src/nats_bridge/ledger.rs]: each journal is
    owned by one thread that drains a bounded command queue; the
    [LocalExclusionLedger] and [DeliveryLedger] facades talk to it through
    that queue. The thread's loop iteration is [worker_step]; a facade call
    is a submission ([Worker::record]/[Worker::lookup] up to the [await])
    followed by the reply the thread sends. *)

From S2P Require Import Prelude Journal.

Definition COMMAND_CAPACITY : nat := 64.

Inductive ReserveResult := RReserved | RSuppressed.

#[global] Instance ReserveResult_eq_dec : EqDecision ReserveResult.
Proof. solve_decision. Defined.

(** The [oneshot] sender of a command is named by a request number. *)
Inductive Command :=
| CmdRecord (digest : LedgerDigest) (state : RecordState) (response : nat)
| CmdLookup (digest : LedgerDigest) (response : nat)
| CmdStop.

Inductive Reply :=
| RecordReply (digest : LedgerDigest) (state : RecordState) (r : result LedgerError bool)
| LookupReply (r : result LedgerError (option RecordState)).

(** [w_alive] is the thread (and the channel's receiver) being there;
    [w_replies] holds what was sent on each one-shot channel, newest first. *)
Record Worker := mkWorker {
  w_journal : Journal;
  w_queue : list Command;
  w_healthy : bool;
  w_stopped : bool;
  w_alive : bool;
  w_replies : list (nat * Reply);
}.

Definition set_queue (q : list Command) (w : Worker) : Worker :=
  mkWorker (w_journal w) q (w_healthy w) (w_stopped w) (w_alive w) (w_replies w).

Definition set_stopped (w : Worker) : Worker :=
  mkWorker (w_journal w) (w_queue w) (w_healthy w) true (w_alive w) (w_replies w).

Definition send_reply (id : nat) (r : Reply) (w : Worker) : Worker :=
  mkWorker (w_journal w) (w_queue w) (w_healthy w) (w_stopped w) (w_alive w) ((id, r) :: w_replies w).

(** The code after the loop: unhealthy, stopped, receiver dropped. *)
Definition worker_exit (w : Worker) : Worker :=
  mkWorker (w_journal w) [] false true false (w_replies w).

Section worker.
Context {sha : Sha256}.

(** [Worker::spawn]: the thread opens the journal before the facade exists. *)
Definition spawn (kind : JournalKind) (fs : Fs) : result LedgerError Worker * Fs :=
  match journal_open kind fs with
  | (Ok journal, fs') => (Ok (mkWorker journal [] true false true []), fs')
  | (Err error, fs') => (Err error, fs')
  end.

(** One iteration of the thread's [while let Ok(command) = receiver.recv()];
    [None] when it has to wait or is gone. *)
Definition worker_step (w : Worker) (fs : Fs) : option (Worker * Fs) :=
  if negb (w_alive w) then None
  else
    match w_queue w with
    | [] => None
    | command :: rest =>
        let w1 := set_queue rest w in
        if w_stopped w1 then Some (worker_exit w1, fs)
        else
          match command with
          | CmdRecord digest state response =>
              let '(r, st) := record digest state (mkJState (w_journal w1) fs) in
              Some (send_reply response (RecordReply digest state r)
                      (mkWorker (js_journal st) (w_queue w1) (w_healthy w1 && is_ok r)
                         (w_stopped w1) (w_alive w1) (w_replies w1)),
                    js_fs st)
          | CmdLookup digest response =>
              let r := if w_healthy w1 then Ok (j_index (w_journal w1) !! digest) else Err Unavailable in
              Some (send_reply response (LookupReply r) w1, fs)
          | CmdStop => Some (worker_exit w1, fs)
          end
    end.

(** The thread runs until its queue is empty or it exits; [n] bounds the
    iterations, and the queue length is enough. *)
Fixpoint drain (n : nat) (w : Worker) (fs : Fs) : Worker * Fs :=
  match n with
  | O => (w, fs)
  | S n' => match worker_step w fs with Some (w', fs') => drain n' w' fs' | None => (w, fs) end
  end.

Definition run_queue (w : Worker) (fs : Fs) : Worker * Fs := drain (length (w_queue w)) w fs.

(** [SyncSender::try_send], with [map_send_error]. *)
Definition try_send (command : Command) (w : Worker) : result LedgerError Worker :=
  if negb (w_alive w) then Err Stopped
  else if Nat.leb COMMAND_CAPACITY (length (w_queue w)) then Err QueueFull
  else Ok (set_queue (w_queue w ++ [command]) w).

(** [Worker::record] and [Worker::lookup] up to the [await]. *)
Definition submit (command : Command) (w : Worker) : result LedgerError Worker :=
  if negb (w_healthy w) then Err Unavailable else try_send command w.

Definition request_stop (w : Worker) : Worker :=
  let w1 := set_stopped w in
  match try_send CmdStop w1 with Ok w2 => w2 | Err _ => w1 end.

(** [receive.await]: the reply sent for a request; a dropped sender is [Stopped]. *)
Definition find_reply (id : nat) (w : Worker) : option Reply :=
  snd <$> List.find (λ p, Nat.eqb p.1 id) (w_replies w).

(** A request number no queued command and no reply uses. *)
Definition command_id (c : Command) : nat :=
  match c with CmdRecord _ _ id => id | CmdLookup _ id => id | CmdStop => O end.

Definition fresh_id (w : Worker) : nat :=
  S (foldr Nat.max O ((command_id <$> w_queue w) ++ (w_replies w).*1)).

(** A call that waits for its answer: submit, let the thread work through the
    queue, take the reply. *)
Definition worker_record (digest : LedgerDigest) (state : RecordState) (w : Worker) (fs : Fs)
  : result LedgerError bool * Worker * Fs :=
  let id := fresh_id w in
  match submit (CmdRecord digest state id) w with
  | Err e => (Err e, w, fs)
  | Ok w1 =>
      let '(w2, fs') := run_queue w1 fs in
      match find_reply id w2 with
      | Some (RecordReply _ _ r) => (r, w2, fs')
      | _ => (Err Stopped, w2, fs')
      end
  end.

Definition worker_lookup (digest : LedgerDigest) (w : Worker) (fs : Fs)
  : result LedgerError (option RecordState) * Worker * Fs :=
  let id := fresh_id w in
  match submit (CmdLookup digest id) w with
  | Err e => (Err e, w, fs)
  | Ok w1 =>
      let '(w2, fs') := run_queue w1 fs in
      match find_reply id w2 with
      | Some (LookupReply r) => (r, w2, fs')
      | _ => (Err Stopped, w2, fs')
      end
  end.

(** ** The facades *)

Definition record_local_excluded (digest : LedgerDigest) (w : Worker) (fs : Fs)
  : result LedgerError unit * Worker * Fs :=
  let '(r, w', fs') := worker_record digest LocalExcluded w fs in
  (map_ok (λ _, tt) r, w', fs').

Definition contains (digest : LedgerDigest) (w : Worker) (fs : Fs) : result LedgerError bool * Worker * Fs :=
  let '(r, w', fs') := worker_lookup digest w fs in
  (map_ok (λ s, match s with Some LocalExcluded => true | _ => false end) r, w', fs').

Definition check_and_reserve (digest : LedgerDigest) (w : Worker) (fs : Fs)
  : result LedgerError ReserveResult * Worker * Fs :=
  let '(r, w', fs') := worker_record digest Reserved w fs in
  (map_ok (λ inserted : bool, if inserted then RReserved else RSuppressed) r, w', fs').

Definition mark_completed (digest : LedgerDigest) (w : Worker) (fs : Fs)
  : result LedgerError unit * Worker * Fs :=
  let '(r, w', fs') := worker_record digest Completed w fs in
  (map_ok (λ _, tt) r, w', fs').

Definition is_suppressed (digest : LedgerDigest) (w : Worker) (fs : Fs) : result LedgerError bool * Worker * Fs :=
  let '(r, w', fs') := worker_lookup digest w fs in
  (map_ok (λ s, match s with Some (Reserved | Completed) => true | _ => false end) r, w', fs').

(** ** Both journals *)

Record BridgeLedger := mkBridgeLedger { bl_exclusion : Worker; bl_delivery : Worker }.

Inductive LedgerOpenError :=
| OpenExclusion (e : LedgerError)
| OpenDelivery (e : LedgerError) (exclusion : Worker).

Definition bridge_ledger_open (fs : Fs) : result LedgerOpenError BridgeLedger * Fs :=
  match spawn Exclusion fs with
  | (Err e, fs1) => (Err (OpenExclusion e), fs1)
  | (Ok exclusion, fs1) =>
      match spawn Delivery fs1 with
      | (Err e, fs2) => (Err (OpenDelivery e exclusion), fs2)
      | (Ok delivery, fs2) => (Ok (mkBridgeLedger exclusion delivery), fs2)
      end
  end.

(** [BridgeLedger::request_stop] *)
Definition bridge_request_stop (b : BridgeLedger) : BridgeLedger :=
  mkBridgeLedger (request_stop (bl_exclusion b)) (request_stop (bl_delivery b)).

(** [Worker::join]: stop, then wait for the thread to leave its loop. The loop
    body does not panic, so [IoUnjoined] does not arise. *)
Definition worker_join (w : Worker) (fs : Fs) : result LedgerError unit * Worker * Fs :=
  let '(w', fs') := run_queue (request_stop w) fs in (Ok tt, w', fs').

Definition bridge_join (b : BridgeLedger) (fs : Fs) : result LedgerError unit * BridgeLedger * Fs :=
  match worker_join (bl_exclusion b) fs with
  | (Err e, exclusion, fs1) => (Err e, mkBridgeLedger exclusion (bl_delivery b), fs1)
  | (Ok _, exclusion, fs1) =>
      let '(r, delivery, fs2) := worker_join (bl_delivery b) fs1 in
      (r, mkBridgeLedger exclusion delivery, fs2)
  end.

End worker.
