(* ===== verification/LedgerWorkerFacts.v ===== *)
(** * Correctness of the journal workers

    Clients and the worker thread interleave freely ([wstep]); the theorems
    hold for every interleaving and every fault plan. *)

From S2P Require Import Prelude Journal JournalFacts LedgerWorker.

Section facts.
Context {sha : Sha256}.

(** ** What [record] does to the index, in any state *)

Lemma wp_compact_index (st : JState) :
  wp compact (λ _ st', j_index (js_journal st') = j_index (js_journal st)) st.
Proof.
  destruct st as [j fs]. unfold compact. wp_step. apply wp_gets. cbn beta iota.
  assert (∀ A (m : FsM A) (f : A → JM unit) fs,
    (∀ a fs', wp (f a) (λ _ st', j_index (js_journal st') = j_index j) (mkJState j fs')) →
    wp (on_fs m ≫= f) (λ _ st', j_index (js_journal st') = j_index j) (mkJState j fs)) as Hstep.
  { intros A m f fs0 Hf. apply wp_bind, wp_on_fs, wp_run. intros [a|e] fs' _; [apply Hf|done]. }
  repeat (apply Hstep; intros). done.
Qed.

Lemma wp_append_index d s (st : JState) :
  wp (append_record d s) (λ r st', match r with
    | Ok b => b = true ∧ j_index (js_journal st') = <[d := s]> (j_index (js_journal st))
    | Err _ => j_index (js_journal st') = j_index (js_journal st)
    end) st.
Proof.
  destruct st as [j fs]. unfold append_record. repeat wp_step. cbn [js_journal].
  destruct (ok_or _ _) as [n|e]; [|done]. do 2 fs_step. cbn [js_journal js_fs].
  repeat (fs_step || cbn [js_journal js_fs]); done.
Qed.

(** Only a granted record changes the index, and it adds the digest. *)
Lemma record_index d s st r st' :
  record d s st = (r, st') →
  (r = Ok true ∧ record_transition (j_index (js_journal st) !! d) s = Append ∧
   j_index (js_journal st') = <[d := s]> (j_index (js_journal st))) ∨
  (r ≠ Ok true ∧ j_index (js_journal st') = j_index (js_journal st)).
Proof.
  revert r st'. apply wp_elim. unfold record. wp_step. apply wp_gets. cbn beta iota.
  destruct (negb (permits _ s)); [apply wp_fail; by right|].
  destruct (record_transition _ s) eqn:Ht; [apply wp_ret; by right| |apply wp_fail; by right].
  destruct (_ && _); [apply wp_fail; by right|]. apply wp_bind.
  eapply (wp_mono _ (λ r st', j_index (js_journal st') = j_index (js_journal st))).
  { destruct (_ <=? _); [apply wp_compact_index|done]. }
  intros [[]|e] st1 Hi; [|by right]. eapply wp_mono; [apply wp_append_index|].
  cbn beta. intros [b|e] st2 Hpost; [|right; split; [done|congruence]].
  left. destruct Hpost as [-> Hpost]. split_and!; [done..|congruence].
Qed.

(** ** Interleavings *)

Inductive wstep : Worker * Fs → Worker * Fs → Prop :=
| wstep_submit c w w' fs : submit c w = Ok w' → wstep (w, fs) (w', fs)
| wstep_thread w fs w' fs' : worker_step w fs = Some (w', fs') → wstep (w, fs) (w', fs')
| wstep_stop w fs : wstep (w, fs) (request_stop w, fs).

(** Replies granting a reservation of [d] *)
Definition is_grant (d : LedgerDigest) (p : nat * Reply) : bool :=
  match p.2 with
  | RecordReply d' Reserved (Ok true) => bool_decide (d' = d)
  | _ => false
  end.

Definition grants (d : LedgerDigest) (w : Worker) : nat := length (List.filter (is_grant d) (w_replies w)).

Definition grant_inv (d : LedgerDigest) (w : Worker) : Prop :=
  (grants d w ≤ 1)%nat ∧ (grants d w = 1%nat → is_Some (j_index (w_journal w) !! d)).

Lemma try_send_frame c w w' :
  try_send c w = Ok w' → w_replies w' = w_replies w ∧ w_journal w' = w_journal w ∧
    w_healthy w' = w_healthy w ∧ (length (w_queue w') ≤ COMMAND_CAPACITY)%nat.
Proof.
  unfold try_send. intros Hs. destruct (negb _); [done|].
  destruct (Nat.leb_spec COMMAND_CAPACITY (length (w_queue w))); simplify_eq.
  split_and!; try done. cbn. rewrite length_app. cbn. lia.
Qed.

Lemma request_stop_frame w :
  w_replies (request_stop w) = w_replies w ∧ w_journal (request_stop w) = w_journal w ∧
    w_healthy (request_stop w) = w_healthy w.
Proof.
  unfold request_stop. destruct (try_send CmdStop (set_stopped w)) as [w2|] eqn:Hs; [|done].
  apply try_send_frame in Hs as (-> & -> & -> & _). done.
Qed.

Lemma grant_inv_frame d w w' :
  w_replies w' = w_replies w → w_journal w' = w_journal w → grant_inv d w → grant_inv d w'.
Proof. unfold grant_inv, grants. by intros -> ->. Qed.

Lemma grants_send d id r w :
  grants d (send_reply id r w) = ((if is_grant d (id, r) then 1 else 0) + grants d w)%nat.
Proof. unfold grants. cbn. by destruct (is_grant d (id, r)). Qed.

Lemma worker_step_grant d w fs w' fs' :
  worker_step w fs = Some (w', fs') → grant_inv d w → grant_inv d w'.
Proof.
  unfold worker_step. intros Hstep [Hle Hdom].
  destruct (negb (w_alive w)); [done|]. destruct (w_queue w) as [|c rest]; [done|].
  cbn [set_queue w_stopped w_journal w_healthy w_queue w_alive w_replies] in Hstep.
  destruct (w_stopped w); [by simplify_eq|]. destruct c as [d' s id|d' id|]; [|by simplify_eq..].
  destruct (record d' s _) as [r st] eqn:Hrun. simplify_eq. apply record_index in Hrun.
  cbn [js_journal] in Hrun. set (w1 := mkWorker _ _ _ _ _ _).
  assert (grants d w1 = grants d w) as Hg by done. unfold grant_inv. rewrite grants_send, Hg.
  cbn [send_reply w_journal w1]. destruct Hrun as [(-> & Ht & Hi)|[Hr Hi]]; rewrite Hi.
  - destruct (is_grant d _) eqn:His; unfold is_grant in His; cbn [snd] in His.
    + destruct s; try done. apply bool_decide_eq_true in His as ->. rewrite lookup_insert_eq.
      destruct (grants d w) as [|n] eqn:Hgd; [split; [lia|done]|].
      destruct Hdom as [s0 Hs]; [lia|]. rewrite Hs in Ht. by destruct s0.
    + cbn. split; [done|]. intros H1. apply Hdom in H1. rewrite lookup_insert. case_decide; eauto.
  - assert (is_grant d (id, RecordReply d' s r) = false) as ->; [|by split].
    unfold is_grant. cbn. by destruct s, r as [[]|].
Qed.

Lemma wstep_grant d p p' : wstep p p' → grant_inv d p.1 → grant_inv d p'.1.
Proof.
  intros Hstep. destruct Hstep as [c w w' fs Hs|w fs w' fs' Hs|w fs]; cbn.
  - unfold submit in Hs. destruct (negb _); [done|].
    apply try_send_frame in Hs as (? & ? & _). by apply grant_inv_frame.
  - by eapply worker_step_grant.
  - destruct (request_stop_frame w) as (? & ? & _). by apply grant_inv_frame.
Qed.

(** ** Health *)

Lemma wstep_unhealthy p p' : wstep p p' → w_healthy p.1 = false → w_healthy p'.1 = false.
Proof.
  intros Hstep. destruct Hstep as [c w w' fs Hs|w fs w' fs' Hs|w fs]; cbn; intros Hh.
  - unfold submit in Hs. by rewrite Hh in Hs.
  - unfold worker_step in Hs. cbn in Hs. rewrite Hh in Hs. cases; done.
  - by rewrite (proj2 (proj2 (request_stop_frame w))).
Qed.

(** ** Termination of the drain *)

Lemma worker_step_queue w fs w' fs' :
  worker_step w fs = Some (w', fs') → (length (w_queue w') < length (w_queue w))%nat.
Proof.
  unfold worker_step. intros Hs. destruct (negb _); [done|]. destruct (w_queue w) as [|c rest]; [done|].
  cbn in *. destruct (w_stopped w); [simplify_eq; cbn; lia|]. cases; cbn; lia.
Qed.

Lemma worker_step_dead w fs w' fs' :
  worker_step w fs = Some (w', fs') → w_alive w' = false → w_queue w' = [].
Proof.
  unfold worker_step. intros Hs Hd. destruct (w_alive w) eqn:Ha; [|done]. cbn [negb] in Hs.
  destruct (w_queue w) as [|c rest]; [done|]. cbn [set_queue w_stopped] in Hs.
  destruct (w_stopped w); [by simplify_eq|]. destruct c as [d s id|d id|]; [| |by simplify_eq].
  - destruct (record d s _). simplify_eq. cbn in Hd. congruence.
  - simplify_eq. cbn in Hd. congruence.
Qed.

Lemma drain_empty n w fs :
  (length (w_queue w) ≤ n)%nat → w_alive w = true → w_queue (drain n w fs).1 = [].
Proof.
  revert w fs. induction n as [|n IH]; intros w fs Hn Ha; cbn.
  - apply nil_length_inv. lia.
  - destruct (worker_step w fs) as [[w' fs']|] eqn:Hs.
    + pose proof (worker_step_queue _ _ _ _ Hs) as Hq.
      destruct (w_alive w') eqn:Ha'; [apply IH; [lia|done]|].
      pose proof (worker_step_dead _ _ _ _ Hs Ha') as Hnil.
      destruct n; cbn; [exact Hnil|]. unfold worker_step. by rewrite Ha'.
    + cbn [fst]. unfold worker_step in Hs. rewrite Ha in Hs. cbn [negb] in Hs.
      destruct (w_queue w) as [|c rest]; [done|]. cbn [set_queue w_stopped] in Hs.
      destruct (w_stopped w); [done|]. destruct c; [by destruct (record _ _ _)|done..].
Qed.

(** ** A call on an idle worker is a call on the journal *)

Definition idle (w : Worker) : Prop :=
  w_alive w = true ∧ w_healthy w = true ∧ w_stopped w = false ∧ w_queue w = [].

Lemma worker_record_idle d s w fs r st :
  idle w → record d s (mkJState (w_journal w) fs) = (r, st) →
  worker_record d s w fs =
  (r, send_reply (fresh_id w) (RecordReply d s r) (mkWorker (js_journal st) [] (is_ok r) false true (w_replies w)),
   js_fs st).
Proof.
  intros (Ha & Hh & Hst & Hq) Hrun. destruct w as [j q h sp al rs]. cbn in *. subst.
  unfold worker_record, submit, try_send, run_queue. cbn -[record fresh_id]. rewrite Hrun. cbn -[fresh_id].
  unfold find_reply. cbn [w_replies send_reply List.find fst]. by rewrite Nat.eqb_refl.
Qed.

Lemma worker_lookup_idle d w fs :
  idle w →
  worker_lookup d w fs =
  (Ok (j_index (w_journal w) !! d),
   send_reply (fresh_id w) (LookupReply (Ok (j_index (w_journal w) !! d))) w, fs).
Proof.
  intros (Ha & Hh & Hst & Hq). destruct w as [j q h sp al rs]. cbn in *. subst.
  unfold worker_lookup, submit, try_send, run_queue. cbn -[fresh_id].
  unfold find_reply. cbn [w_replies send_reply List.find fst]. by rewrite Nat.eqb_refl.
Qed.

Lemma wsteps_grant d p p' : rtc wstep p p' → grant_inv d p.1 → grant_inv d p'.1.
Proof. induction 1; eauto using wstep_grant. Qed.

Lemma wsteps_unhealthy p p' : rtc wstep p p' → w_healthy p.1 = false → w_healthy p'.1 = false.
Proof. induction 1; eauto using wstep_unhealthy. Qed.

Definition queue_inv (w : Worker) : Prop := (length (w_queue w) ≤ COMMAND_CAPACITY)%nat.

Lemma wstep_queue p p' : wstep p p' → queue_inv p.1 → queue_inv p'.1.
Proof.
  intros Hstep. destruct Hstep as [c w w' fs Hs|w fs w' fs' Hs|w fs]; cbn; intros Hq.
  - unfold submit in Hs. destruct (negb _); [done|]. apply try_send_frame in Hs as (_ & _ & _ & ?); done.
  - apply worker_step_queue in Hs. unfold queue_inv in *. lia.
  - unfold request_stop. destruct (try_send CmdStop (set_stopped w)) as [w2|] eqn:Hs; [|done].
    apply try_send_frame in Hs as (_ & _ & _ & ?); done.
Qed.

Lemma wsteps_queue p p' : rtc wstep p p' → queue_inv p.1 → queue_inv p'.1.
Proof. induction 1; eauto using wstep_queue. Qed.

(** After a stop request something is in the queue, and the thread's next
    iteration ends it without looking at the command. *)
Lemma request_stop_wakes w :
  w_alive w = true →
  w_stopped (request_stop w) = true ∧ w_alive (request_stop w) = true ∧
  ∃ c rest, w_queue (request_stop w) = c :: rest.
Proof.
  intros Ha. unfold request_stop, try_send. cbn [set_stopped w_alive w_queue]. rewrite Ha. cbn [negb].
  destruct (Nat.leb_spec COMMAND_CAPACITY (length (w_queue w))) as [Hle|Hlt];
    cbn [set_stopped set_queue w_alive w_queue w_stopped].
  - split_and!; [done..|]. unfold COMMAND_CAPACITY in Hle. destruct (w_queue w); cbn in Hle; [lia|eauto].
  - split_and!; [done..|]. destruct (w_queue w); cbn; eauto.
Qed.

Lemma run_queue_stopped w fs :
  w_alive w = true →
  run_queue (request_stop w) fs = (worker_exit (set_queue (tail (w_queue (request_stop w))) (request_stop w)), fs).
Proof.
  intros Ha. destruct (request_stop_wakes w Ha) as (Hs & Ha' & c & rest & Hq).
  unfold run_queue. rewrite Hq. cbn [length drain tail]. unfold worker_step. rewrite Ha', Hq. cbn [negb].
  cbn [set_queue w_stopped]. rewrite Hs. destruct (length rest); done.
Qed.

(** A file whose only record skips a sequence number *)
Lemma gap_rejected kind s d :
  recover_scan kind (header kind ++ encode_record 2 s d) = Err Corrupt.
Proof.
  unfold recover_scan, complete_len. rewrite header_good, length_app, length_header, length_encode_record.
  rewrite drop_app_exact by apply length_header.
  replace ((HEADER_LEN + RECORD_LEN - HEADER_LEN) / RECORD_LEN * RECORD_LEN)%nat with RECORD_LEN by done.
  rewrite take_ge by (by rewrite length_encode_record). unfold chunks_exact. rewrite length_encode_record.
  change (RECORD_LEN / RECORD_LEN)%nat with 1%nat. cbn [blocks recover_loop].
  rewrite take_ge by (by rewrite length_encode_record). unfold recover_step.
  rewrite decode_encode_record by (unfold is_u64, U64_MAX; lia). done.
Qed.

End facts.

(** ** Properties *)

Section properties.
Context {sha : Sha256}.

(** Within one process, under every interleaving of clients, worker thread
    and stop requests and every pattern of I/O faults (compactions included), the
    worker never grants the reservation of a digest twice, and its command queue
    never exceeds its 64 slots. *)
Theorem worker_grants_once kind fs0 w0 fs1 w fs d :
  spawn kind fs0 = (Ok w0, fs1) → rtc wstep (w0, fs1) (w, fs) →
  (grants d w ≤ 1)%nat ∧ (length (w_queue w) ≤ COMMAND_CAPACITY)%nat.
Proof.
  intros Hspawn Hsteps. unfold spawn in Hspawn. destruct (journal_open kind fs0) as [[j|e] fs']; simplify_eq.
  split.
  - apply (wsteps_grant d) in Hsteps as [Hle _]; [done|]. split; [cbn; lia|done].
  - apply wsteps_queue in Hsteps; [done|]. unfold queue_inv, COMMAND_CAPACITY. cbn. lia.
Qed.

(** The unhealthy verdict is final: a failed journal write makes the worker
    unhealthy, and from then on, whatever happens, every client call is refused
    with [Unavailable] before it reaches the queue. *)
Theorem unhealthy_is_final w fs d s id rest :
  w_queue w = CmdRecord d s id :: rest → w_alive w = true → w_stopped w = false →
  is_ok (record d s (mkJState (w_journal w) fs)).1 = false →
  (∃ w1 fs1, worker_step w fs = Some (w1, fs1) ∧ w_healthy w1 = false ∧
     ∀ w2 fs2 c, rtc wstep (w1, fs1) (w2, fs2) → submit c w2 = Err Unavailable).
Proof.
  intros Hq Ha Hs Hr. unfold worker_step. rewrite Ha, Hq. cbn [negb set_queue w_stopped].
  rewrite Hs. cbn [w_journal]. destruct (record d s _) as [r st] eqn:Hrun. cbn [fst] in Hr.
  do 2 eexists. split; [done|]. cbn [w_healthy send_reply]. rewrite Hr, andb_false_r. split; [done|].
  intros w2 fs2 c Hsteps. apply wsteps_unhealthy in Hsteps; [|done]. cbn in Hsteps.
  unfold submit. by rewrite Hsteps.
Qed.

(** The facades refine the journal: on an idle worker, [check_and_reserve],
    [mark_completed] and [record_local_excluded] answer exactly what
    [Journal::record] answers and leave its journal and files, and [is_suppressed]
    and [contains] answer from its index without touching anything. *)
Theorem facades_refine_journal w fs d :
  idle w →
  let run s := record d s (mkJState (w_journal w) fs) in
  (check_and_reserve d w fs).1.1 =
    map_ok (λ b : bool, if b then RReserved else RSuppressed) (run Reserved).1 ∧
  (mark_completed d w fs).1.1 = map_ok (λ _, tt) (run Completed).1 ∧
  (record_local_excluded d w fs).1.1 = map_ok (λ _, tt) (run LocalExcluded).1 ∧
  (∀ s, mkJState (w_journal (worker_record d s w fs).1.2) (worker_record d s w fs).2 = (run s).2) ∧
  (is_suppressed d w fs).1.1 =
    Ok (bool_decide (j_index (w_journal w) !! d = Some Reserved ∨ j_index (w_journal w) !! d = Some Completed)) ∧
  (contains d w fs).1.1 = Ok (bool_decide (j_index (w_journal w) !! d = Some LocalExcluded)) ∧
  w_journal (worker_lookup d w fs).1.2 = w_journal w ∧ (worker_lookup d w fs).2 = fs.
Proof.
  intros Hidle run. unfold check_and_reserve, mark_completed, record_local_excluded, is_suppressed, contains.
  rewrite (worker_lookup_idle d w fs Hidle).
  assert (∀ s, worker_record d s w fs =
    ((run s).1, send_reply (fresh_id w) (RecordReply d s (run s).1)
       (mkWorker (js_journal (run s).2) [] (is_ok (run s).1) false true (w_replies w)), js_fs (run s).2)) as Hrec.
  { intros s. destruct (run s) as [r st] eqn:Hrun. apply (worker_record_idle d s w fs r st Hidle Hrun). }
  rewrite !Hrec. cbn -[run]. split_and!; try done.
  - intros s. rewrite Hrec. cbn -[run]. by destruct (run s) as [r [j f]].
  - by destruct (j_index (w_journal w) !! d) as [[]|].
  - by destruct (j_index (w_journal w) !! d) as [[]|].
Qed.

(** Joining always ends the thread, even when the queue is full and the
    stop command does not fit: the queue, the health flag and the thread are gone,
    the commands still queued are dropped unexecuted (journal and files untouched,
    no reply sent), and later calls are refused. *)
Theorem join_ends_worker w fs :
  w_alive w = true →
  let '(r, w', fs') := worker_join w fs in
  r = Ok tt ∧ fs' = fs ∧ w_journal w' = w_journal w ∧ w_replies w' = w_replies w ∧
  w_alive w' = false ∧ w_stopped w' = true ∧ w_queue w' = [] ∧ ∀ c, submit c w' = Err Unavailable.
Proof.
  intros Ha. unfold worker_join. rewrite run_queue_stopped by done.
  destruct (request_stop_frame w) as (Hr & Hj & _). cbn. split_and!; done.
Qed.

(** A record queued behind a failed append is still executed: on an empty
    delivery journal with two reservations queued and a fault in the first one's
    seek, the second digest is granted although the worker is already unhealthy,
    its record carries sequence number 2 with no record 1 before it, and no later
    opening of the file succeeds. *)
Theorem record_behind_failed_append_is_fatal d1 d2 :
  let w := mkWorker (js_journal fresh_state) [CmdRecord d1 Reserved 1; CmdRecord d2 Reserved 2]
             true false true [] in
  let '(w', fs') := run_queue w (set_faults [Some O] (js_fs fresh_state)) in
  find_reply 1 w' = Some (RecordReply d1 Reserved (Err Unavailable)) ∧
  find_reply 2 w' = Some (RecordReply d2 Reserved (Ok true)) ∧
  w_healthy w' = false ∧
  ∀ fl r fs'', journal_open Delivery (set_faults fl fs') = (r, fs'') → is_ok r = false.
Proof.
  intros w. destruct (run_queue _ _) as [w' fs'] eqn:Hrun.
  unfold run_queue, w in Hrun. cbn -[encode_record header] in Hrun. inversion Hrun; subst; clear Hrun.
  split_and!; [reflexivity..|]. intros fl r fs'' Hopen.
  eapply (open_rejected _ 0 (header Delivery ++ encode_record 2 Reserved d2) Corrupt) in Hopen as [Hr _];
    [|reflexivity|reflexivity|done|by apply gap_rejected].
  by destruct Hr as [->|[->| ->]].
Qed.

End properties.

(** ** Witnesses *)

Definition opened_worker : Worker := mkWorker (js_journal fresh_state) [] true false true [].

Lemma worker_grants_once_witness :
  (grants doc_digest opened_worker ≤ 1)%nat ∧ (length (w_queue opened_worker) ≤ COMMAND_CAPACITY)%nat.
Proof.
  apply (worker_grants_once (sha := toy_sha) Delivery empty_dir opened_worker (js_fs fresh_state)
           opened_worker (js_fs fresh_state) doc_digest); [|apply rtc_refl].
  unfold spawn. rewrite fresh_state_opened. reflexivity.
Defined.

(** A worker about to append while the disk refuses the write. *)
Definition pending_worker : Worker :=
  mkWorker (js_journal fresh_state) [CmdRecord doc_digest Reserved 1] true false true [].

Lemma unhealthy_is_final_witness :
  ∃ w1 fs1, worker_step (sha := toy_sha) pending_worker (set_faults [None; Some 17%nat] (js_fs fresh_state)) = Some (w1, fs1) ∧
    w_healthy w1 = false ∧
    ∀ w2 fs2 c, rtc (wstep (sha := toy_sha)) (w1, fs1) (w2, fs2) → submit c w2 = Err Unavailable.
Proof.
  apply (unhealthy_is_final (sha := toy_sha) pending_worker
           (set_faults [None; Some 17%nat] (js_fs fresh_state)) doc_digest Reserved 1 []);
    vm_compute; reflexivity.
Defined.

Lemma facades_refine_journal_witness :
  (contains (sha := toy_sha) doc_digest opened_worker (js_fs fresh_state)).1.1 =
  Ok (bool_decide (j_index (w_journal opened_worker) !! doc_digest = Some LocalExcluded)).
Proof.
  apply (facades_refine_journal (sha := toy_sha) opened_worker (js_fs fresh_state) doc_digest).
  split_and!; reflexivity.
Defined.

(** A worker with a full queue: the stop command itself does not fit. *)
Definition full_worker : Worker :=
  mkWorker (js_journal fresh_state) (replicate COMMAND_CAPACITY (CmdRecord doc_digest Reserved 1)) true false true [].

Lemma join_ends_worker_witness :
  w_alive (worker_join (sha := toy_sha) full_worker (js_fs fresh_state)).1.2 = false.
Proof.
  pose proof (join_ends_worker (sha := toy_sha) full_worker (js_fs fresh_state) eq_refl) as H.
  destruct (worker_join full_worker (js_fs fresh_state)) as [[r w'] fs']. apply H.
Defined.
