(* ===== verification/Fanout.v ===== *)
(** * Relay fanout queue

    Model of [src/fanout.rs]: the QoS-priority queue between the document
    change listener and the single fanout worker, and the worker's loop.
    [QoSClass::for_collection] and the sync coordinator belong to peat-mesh:
    the first is a parameter, calls to the second are emitted as actions. *)

From S2P Require Import Prelude.
From Stdlib Require Import Strings.Ascii.

Inductive FanoutKind :=
| AllPeers
| ExcludeSource (source : string).

#[global] Instance FanoutKind_eq_dec : EqDecision FanoutKind.
Proof. solve_decision. Defined.

(** [FanoutKind::merge] *)
Definition merge (self other : FanoutKind) : FanoutKind :=
  match self, other with
  | AllPeers, _ | _, AllPeers => AllPeers
  | ExcludeSource a, ExcludeSource b => if bool_decide (a = b) then ExcludeSource a else AllPeers
  end.

(** An element [(qos_rank, seq, doc_key)] of the [BTreeSet]. *)
Record Pending := mkPending { p_rank : Z; p_seq : Z; p_key : string }.

#[global] Instance Pending_eq_dec : EqDecision Pending.
Proof. solve_decision. Defined.

(** The tuple order of the set: rank, then sequence number, then key. *)
Definition pending_ltb (a b : Pending) : bool :=
  (p_rank a <? p_rank b)
  || ((p_rank a =? p_rank b)
      && ((p_seq a <? p_seq b)
          || ((p_seq a =? p_seq b) && match String.compare (p_key a) (p_key b) with Lt => true | _ => false end))).

(** [BTreeSet::insert]: the set is its ascending list. *)
Fixpoint set_insert (x : Pending) (l : list Pending) : list Pending :=
  match l with
  | [] => [x]
  | y :: l' =>
      if bool_decide (x = y) then l
      else if pending_ltb x y then x :: l
      else y :: set_insert x l'
  end.

(** [BTreeSet::remove] *)
Definition set_remove (x : Pending) (l : list Pending) : list Pending := filter (λ y, y ≠ x) l.

Record Inner := mkInner {
  pending : list Pending;
  entries : gmap string (Z * Z * FanoutKind);
  next_seq : Z;
  dropped_by_class : list Z;
  priority_burst : Z;
}.

Definition MAX_PENDING : nat := 4096.
Definition MAX_PRIORITY_BURST : Z := 8.

(** [Inner::default()] *)
Definition inner_default : Inner := mkInner [] ∅ 0 (replicate 6 0) 0.

(** What peat-mesh gives: [QoSClass::for_collection(collection) as u8]. *)
Class Qos := for_collection : string → Z.

(** [doc_key.split(':').next()] *)
Fixpoint before_colon (s : string) : string :=
  match s with
  | EmptyString => EmptyString
  | String c s' => if Ascii.eqb c ":"%char then EmptyString else String c (before_colon s')
  end.

(** [dropped_by_class.get_mut(i)], incremented when in range. *)
Definition count_drop (rank : Z) (dropped : list Z) : list Z :=
  alter (λ n, wrapping_add_u64 n 1) (Z.to_nat rank) dropped.

(** The [while q.pending.len() > MAX_PENDING] loop; each round removes one
    element, so the length is enough fuel. *)
Fixpoint shed (fuel : nat) (q : Inner) : Inner :=
  match fuel with
  | O => q
  | S fuel' =>
      if Nat.leb (length (pending q)) MAX_PENDING then q
      else
        match last (pending q) with
        | None => q
        | Some victim =>
            shed fuel'
              (mkInner (set_remove victim (pending q)) (delete (p_key victim) (entries q)) (next_seq q)
                 (count_drop (p_rank victim) (dropped_by_class q)) (priority_burst q))
        end
  end.

(** [iter().min_by_key(|(_, seq, _)| *seq)]: the first element of least key. *)
Definition min_by_seq (x : Pending) (l : list Pending) : Pending :=
  foldl (λ best y, if p_seq y <? p_seq best then y else best) x l.

(** [PriorityFanout::pop] *)
Definition pop (q : Inner) : option (string * FanoutKind) * Inner :=
  match pending q with
  | [] => (None, mkInner [] (entries q) (next_seq q) (dropped_by_class q) 0)
  | highest_priority :: rest =>
      let oldest := min_by_seq highest_priority rest in
      let '(key, burst) :=
        if bool_decide (highest_priority = oldest) then (highest_priority, 0)
        else if MAX_PRIORITY_BURST <=? priority_burst q then (oldest, 0)
        else (highest_priority, priority_burst q + 1) in
      let q' := mkInner (set_remove key (pending q)) (delete (p_key key) (entries q)) (next_seq q)
                  (dropped_by_class q) burst in
      match entries q !! p_key key with
      | Some (_, _, kind) => (Some (p_key key, kind), q')
      | None => (None, q')
      end
  end.

Section queue.
Context {qos : Qos}.

Definition qos_rank (doc_key : string) : Z := for_collection (before_colon doc_key).

(** The locked block of [PriorityFanout::enqueue]; the boolean says whether it
    falls through to [notify_one]. *)
Definition enqueue_inner (doc_key : string) (kind : FanoutKind) (q : Inner) : Inner * bool :=
  let rank := qos_rank doc_key in
  match entries q !! doc_key with
  | Some (r, s, k) =>
      (mkInner (pending q) (<[doc_key := (r, s, merge k kind)]> (entries q)) (next_seq q)
         (dropped_by_class q) (priority_burst q), false)
  | None =>
      let seq := next_seq q in
      let q1 := mkInner (set_insert (mkPending rank seq doc_key) (pending q))
                  (<[doc_key := (rank, seq, kind)]> (entries q))
                  (wrapping_add_u64 (next_seq q) 1) (dropped_by_class q) (priority_burst q) in
      (shed (length (pending q1)) q1, true)
  end.

(** ** The queue with its wake-up and its worker

    [pf_permit] is the permit [Notify::notify_one] stores. The worker is at
    the top of its loop, past an empty [pop] and about to read [closed], fanning
    out an entry, parked on the notify, or gone. *)

Record PriorityFanout := mkPriorityFanout { pf_inner : Inner; pf_permit : bool; pf_closed : bool }.

Definition fanout_new : PriorityFanout := mkPriorityFanout inner_default false false.

Definition close (p : PriorityFanout) : PriorityFanout := mkPriorityFanout (pf_inner p) true true.

Definition enqueue (doc_key : string) (kind : FanoutKind) (p : PriorityFanout) : PriorityFanout :=
  let '(q, notify) := enqueue_inner doc_key kind (pf_inner p) in
  mkPriorityFanout q (pf_permit p || notify) (pf_closed p).

Inductive FanoutWorker := AtTop | SawEmpty | Draining (doc_key : string) (kind : FanoutKind) | Parked | Exited.

(** Calls to the sync coordinator. *)
Inductive SyncCall :=
| SyncDocumentWithAllPeers (doc_key : string)
| SyncDocumentWithPeer (doc_key : string) (peer : string).

(** The [match kind] of [run]: the calls made while [peers] are connected. *)
Definition fanout_calls (doc_key : string) (kind : FanoutKind) (peers : list string) : list SyncCall :=
  match kind with
  | AllPeers => [SyncDocumentWithAllPeers doc_key]
  | ExcludeSource source =>
      SyncDocumentWithPeer doc_key <$> filter (λ peer, peer ≠ source) peers
  end.

(** One step of [run]; [None] while it waits for a permit or after it left. *)
Definition run_step (w : FanoutWorker) (peers : list string) (p : PriorityFanout)
  : option (FanoutWorker * PriorityFanout * list SyncCall) :=
  match w with
  | AtTop =>
      let '(r, q) := pop (pf_inner p) in
      let p' := mkPriorityFanout q (pf_permit p) (pf_closed p) in
      match r with
      | Some (key, kind) => Some (Draining key kind, p', [])
      | None => Some (SawEmpty, p', [])
      end
  | SawEmpty => if pf_closed p then Some (Exited, p, []) else Some (Parked, p, [])
  | Draining key kind => Some (AtTop, p, fanout_calls key kind peers)
  | Parked =>
      if pf_permit p then Some (AtTop, mkPriorityFanout (pf_inner p) false (pf_closed p), []) else None
  | Exited => None
  end.

End queue.
