(* ===== verification/FanoutFacts.v ===== *)
(** * Correctness of the relay fanout queue

    The two views of the queue (ordered set and map) agree, the bound holds,
    service is fair, coalescing never narrows an intent, and the worker cannot
    sleep on a non-empty queue. *)

From S2P Require Import Prelude Fanout.

(** ** The ordered set *)

(** The order of the set on elements with different sequence numbers. *)
Definition before (a b : Pending) : Prop :=
  p_rank a < p_rank b ∨ (p_rank a = p_rank b ∧ p_seq a < p_seq b).

#[global] Instance before_trans : Transitive before.
Proof. intros a b c [?|[??]] [?|[??]]; unfold before; lia. Qed.

Lemma elem_of_set_insert x y l : y ∈ set_insert x l ↔ y = x ∨ y ∈ l.
Proof.
  induction l as [|z l IH]; cbn; [set_solver|].
  case_bool_decide; [set_solver|]. destruct (pending_ltb x z); set_solver.
Qed.

Lemma elem_of_set_remove x y l : y ∈ set_remove x l ↔ y ≠ x ∧ y ∈ l.
Proof. unfold set_remove. by rewrite list_elem_of_filter. Qed.

Lemma length_set_insert x l : x ∉ l → length (set_insert x l) = S (length l).
Proof.
  induction l as [|z l IH]; cbn; [done|]. intros [Hne Hx]%not_elem_of_cons.
  rewrite bool_decide_false by done. destruct (pending_ltb x z); cbn; [done|]. by rewrite IH.
Qed.

Lemma length_set_remove_le x l : (length (set_remove x l) ≤ length l)%nat.
Proof. apply length_filter. Qed.

Lemma length_set_remove x l : x ∈ l → (length (set_remove x l) < length l)%nat.
Proof.
  unfold set_remove. induction l as [|z l IH]; [by intros ?%elem_of_nil|].
  intros [->|Hx]%elem_of_cons; rewrite filter_cons; case_decide; try done; cbn.
  - pose proof (length_set_remove_le z l). unfold set_remove in *. lia.
  - apply IH in Hx. lia.
  - pose proof (length_set_remove_le x l). unfold set_remove in *. lia.
Qed.

Lemma sorted_set_remove x l : StronglySorted before l → StronglySorted before (set_remove x l).
Proof.
  unfold set_remove. induction 1 as [|z l Hs IH Hz]; [constructor|].
  rewrite filter_cons. case_decide; [|done]. constructor; [done|].
  rewrite Forall_forall in *. intros y [_ Hy]%list_elem_of_filter. auto.
Qed.

(** A new element carries the largest sequence number of all. *)
Lemma sorted_set_insert x l :
  (∀ y, y ∈ l → p_seq y < p_seq x) → StronglySorted before l → StronglySorted before (set_insert x l).
Proof.
  intros Hseq Hs. induction Hs as [|z l Hs IH Hz]; cbn; [by repeat constructor|].
  assert (p_seq z < p_seq x) as Hzx by (apply Hseq; set_solver).
  rewrite bool_decide_false by (intros ->; lia).
  destruct (pending_ltb x z) eqn:Hlt.
  - assert (before x z) as Hxz.
    { unfold pending_ltb in Hlt. unfold before. apply orb_true_iff in Hlt as [?%Z.ltb_lt|Hlt]; [lia|].
      apply andb_true_iff in Hlt as [_ [?%Z.ltb_lt|[?%Z.eqb_eq _]%andb_true_iff]%orb_true_iff]; lia. }
    constructor; [by constructor|]. constructor; [done|].
    eapply Forall_impl; [exact Hz|]. cbn. intros y ?. by transitivity z.
  - assert (before z x) as Hzx'.
    { unfold pending_ltb in Hlt. unfold before. apply orb_false_iff in Hlt as [?%Z.ltb_ge Hlt].
      apply andb_false_iff in Hlt as [?%Z.eqb_neq|_]; lia. }
    constructor; [apply IH; intros; apply Hseq; set_solver|].
    rewrite Forall_forall in *. intros y [->|Hy]%elem_of_set_insert; auto.
Qed.

Lemma last_elem_of {A} (l : list A) x : last l = Some x → x ∈ l.
Proof. intros [l' ->]%last_Some. set_solver. Qed.

Lemma sorted_last l x y : StronglySorted before l → last l = Some x → y ∈ l → y = x ∨ before y x.
Proof.
  intros Hs. revert x. induction Hs as [|z l Hs IH Hz]; intros x Hl Hy; [done|].
  apply elem_of_cons in Hy as [->|Hy].
  - destruct l as [|z' l]; [by simplify_eq/=; left|]. right.
    rewrite Forall_forall in Hz. apply Hz. by apply last_elem_of.
  - apply IH; [|done]. by destruct l; [set_solver|].
Qed.

Lemma min_by_seq_spec x l :
  min_by_seq x l ∈ x :: l ∧ ∀ y, y ∈ x :: l → p_seq (min_by_seq x l) ≤ p_seq y.
Proof.
  unfold min_by_seq. revert x. induction l as [|z l IH]; intros x; cbn [foldl].
  - split; [set_solver|]. intros y [->|Hy]%elem_of_cons; [lia|set_solver].
  - destruct (IH (if p_seq z <? p_seq x then z else x)) as [Hin Hmin]. split.
    + apply elem_of_cons in Hin as [Hin|Hin]; [|set_solver]. rewrite Hin. case_match; set_solver.
    + intros y Hy. assert (p_seq (if p_seq z <? p_seq x then z else x) ≤ p_seq y ∨ y ∈ l) as [Hle|Hl].
      { apply elem_of_cons in Hy as [->|[->|Hy]%elem_of_cons]; [left|left|by right];
          destruct (Z.ltb_spec (p_seq z) (p_seq x)); lia. }
      * etrans; [apply Hmin; by left|exact Hle].
      * apply Hmin. set_solver.
Qed.

(** ** The invariant *)

(** The ordered set and the map hold the same entries. *)
Definition consistent (q : Inner) : Prop :=
  ∀ x, x ∈ pending q ↔ ∃ kind, entries q !! p_key x = Some (p_rank x, p_seq x, kind).

Definition seqs_ok (q : Inner) : Prop :=
  (∀ x, x ∈ pending q → 0 ≤ p_seq x < next_seq q) ∧
  (∀ x y, x ∈ pending q → y ∈ pending q → p_seq x = p_seq y → x = y).

Definition core_inv (q : Inner) : Prop :=
  StronglySorted before (pending q) ∧ consistent q ∧ seqs_ok q ∧
  0 ≤ priority_burst q ≤ MAX_PRIORITY_BURST ∧ 0 ≤ next_seq q.

Definition fanout_inv (q : Inner) : Prop :=
  core_inv q ∧ (length (pending q) ≤ MAX_PENDING)%nat.

(** Taking one entry out of both views. *)
Definition drop_entry (x : Pending) (dropped : list Z) (burst : Z) (q : Inner) : Inner :=
  mkInner (set_remove x (pending q)) (delete (p_key x) (entries q)) (next_seq q) dropped burst.

Lemma drop_entry_consistent x dropped burst q :
  consistent q → x ∈ pending q → consistent (drop_entry x dropped burst q).
Proof.
  intros Hc Hx y. cbn. rewrite elem_of_set_remove. split.
  - intros [Hne Hy]. pose proof (proj1 (Hc y) Hy) as [kind Hk]. exists kind.
    rewrite lookup_delete_ne; [done|]. intros Heq. apply Hne.
    apply Hc in Hx as [kind' Hx]. rewrite Heq, Hk in Hx. destruct x, y. cbn in *. by simplify_eq.
  - intros [kind [Hne Hk]%lookup_delete_Some]. split; [by intros ->|]. apply Hc. eauto.
Qed.

Lemma drop_entry_core x dropped burst q :
  core_inv q → x ∈ pending q → 0 ≤ burst ≤ MAX_PRIORITY_BURST → core_inv (drop_entry x dropped burst q).
Proof.
  intros (Hs & Hc & [Hb Hd] & _ & Hn) Hx Hburst.
  refine (conj _ (conj _ (conj _ (conj Hburst Hn)))); [by apply sorted_set_remove|by apply drop_entry_consistent|].
  split; cbn.
  - intros y [_ Hy]%elem_of_set_remove. auto.
  - intros y z [_ Hy]%elem_of_set_remove [_ Hz]%elem_of_set_remove. auto.
Qed.

Lemma shed_inv (P : Inner → Prop) fuel q :
  (∀ x q, P q → last (pending q) = Some x →
     P (drop_entry x (count_drop (p_rank x) (dropped_by_class q)) (priority_burst q) q)) →
  P q → P (shed fuel q).
Proof.
  intros HP. revert q. induction fuel as [|fuel IH]; intros q Hq; cbn [shed]; [done|].
  destruct (Nat.leb _ _); [done|]. destruct (last (pending q)) as [x|] eqn:Hl; [|done].
  apply IH. by apply (HP x).
Qed.

Lemma length_shed fuel q :
  (length (pending q) ≤ MAX_PENDING + fuel)%nat → (length (pending (shed fuel q)) ≤ MAX_PENDING)%nat.
Proof.
  revert q. induction fuel as [|fuel IH]; intros q Hq; cbn [shed]; [lia|].
  destruct (Nat.leb_spec (length (pending q)) MAX_PENDING) as [|Hlt]; [done|].
  destruct (last (pending q)) as [x|] eqn:Hl.
  - apply IH. cbn [pending]. pose proof (length_set_remove x (pending q) (last_elem_of _ _ Hl)). lia.
  - apply last_None in Hl. rewrite Hl in Hlt. cbn [length] in Hlt. lia.
Qed.

Section facts.
Context {qos : Qos}.

(** ** Each operation keeps it *)

(** The state in [enqueue_inner] between the insertion and the shedding loop. *)
Definition inserted (doc_key : string) (kind : FanoutKind) (q : Inner) : Inner :=
  mkInner (set_insert (mkPending (qos_rank doc_key) (next_seq q) doc_key) (pending q))
    (<[doc_key := (qos_rank doc_key, next_seq q, kind)]> (entries q))
    (wrapping_add_u64 (next_seq q) 1) (dropped_by_class q) (priority_burst q).

Lemma inserted_consistent k kind q :
  consistent q → entries q !! k = None → consistent (inserted k kind q).
Proof.
  intros Hc Hk x. cbn. rewrite elem_of_set_insert. destruct (decide (p_key x = k)) as [<-|Hne].
  - rewrite lookup_insert_eq. split.
    + intros [->|Hx]; [cbn; eauto|]. apply Hc in Hx as [kind' Hx]. congruence.
    + intros [kind' H]. destruct x. cbn in *. simplify_eq. by left.
  - rewrite lookup_insert_ne by done. rewrite <-(Hc x). split; [|by right].
    intros [->|?]; [by cbn in Hne|done].
Qed.

Lemma coalesced_consistent k r s kind0 kind q :
  consistent q → entries q !! k = Some (r, s, kind0) →
  consistent (mkInner (pending q) (<[k := (r, s, kind)]> (entries q)) (next_seq q)
                (dropped_by_class q) (priority_burst q)).
Proof.
  intros Hc Hk x. cbn. rewrite (Hc x). destruct (decide (p_key x = k)) as [<-|Hne].
  - rewrite lookup_insert_eq, Hk. naive_solver.
  - by rewrite lookup_insert_ne.
Qed.

Lemma shed_consistent fuel q : consistent q → consistent (shed fuel q).
Proof. apply shed_inv. intros x q' Hc Hl. apply drop_entry_consistent; [done|by apply last_elem_of]. Qed.

Lemma enqueue_inner_consistent k kind q : consistent q → consistent (enqueue_inner k kind q).1.
Proof.
  intros Hc. unfold enqueue_inner. destruct (entries q !! k) as [[[r s] kind0]|] eqn:Hk; cbn [fst].
  - by eapply coalesced_consistent.
  - apply shed_consistent. by apply inserted_consistent.
Qed.

(** Which entry [pop] chooses *)
Definition popped (q : Inner) (x : Pending) (burst : Z) : Prop :=
  x ∈ pending q ∧
  (burst = 0 ∧ (∀ y, y ∈ pending q → p_seq x ≤ p_seq y) ∧
     (head (pending q) = Some x ∨ MAX_PRIORITY_BURST ≤ priority_burst q) ∨
   burst = priority_burst q + 1 ∧ priority_burst q < MAX_PRIORITY_BURST ∧ head (pending q) = Some x).

Lemma pop_cases q :
  consistent q →
  (pending q = [] ∧ pop q = (None, mkInner [] (entries q) (next_seq q) (dropped_by_class q) 0)) ∨
  ∃ x burst kind, popped q x burst ∧ entries q !! p_key x = Some (p_rank x, p_seq x, kind) ∧
    pop q = (Some (p_key x, kind), drop_entry x (dropped_by_class q) burst q).
Proof.
  intros Hc. unfold pop. destruct (pending q) as [|h rest] eqn:Hp; [by left|]. right.
  destruct (min_by_seq_spec h rest) as [Hin Hmin]. set (o := min_by_seq h rest) in *.
  assert (∀ x burst, popped q x burst → ∃ x' burst' kind, popped q x' burst' ∧
    entries q !! p_key x' = Some (p_rank x', p_seq x', kind) ∧
    match entries q !! p_key x with
    | Some (_, _, kind) =>
        (Some (p_key x, kind), mkInner (set_remove x (h :: rest)) (delete (p_key x) (entries q)) (next_seq q)
                                 (dropped_by_class q) burst)
    | None => (None, mkInner (set_remove x (h :: rest)) (delete (p_key x) (entries q)) (next_seq q)
                       (dropped_by_class q) burst)
    end = (Some (p_key x', kind), drop_entry x' (dropped_by_class q) burst' q)) as Hdone.
  { intros x burst Hx. destruct (proj1 (Hc x) (proj1 Hx)) as [kind Hk].
    exists x, burst, kind. refine (conj Hx (conj Hk _)). rewrite Hk. unfold drop_entry. by rewrite Hp. }
  case_bool_decide as Heq; [|destruct (Z.leb_spec MAX_PRIORITY_BURST (priority_burst q)) as [Hle|Hlt]];
    cbn iota beta; apply Hdone; unfold popped; rewrite Hp; cbn [head].
  - split; [set_solver|]. left. split_and!; [done| |by left]. intros y Hy. rewrite Heq. by apply Hmin.
  - split; [done|]. left. split_and!; [done|apply Hmin|by right].
  - split; [set_solver|]. by right.
Qed.

Lemma pop_consistent q : consistent q → consistent (pop q).2.
Proof.
  intros Hc. destruct (pop_cases q Hc) as [[Hp ->]|(x & burst & kind & [Hx _] & _ & ->)].
  - intros y. cbn. rewrite <-Hp. apply Hc.
  - by apply drop_entry_consistent.
Qed.

Lemma inserted_core k kind q :
  core_inv q → entries q !! k = None → next_seq q < U64_MAX → core_inv (inserted k kind q).
Proof.
  intros (Hs & Hc & [Hb Hd] & Hburst & Hn) Hk Hmax.
  assert (next_seq (inserted k kind q) = next_seq q + 1) as Hnext.
  { cbn. unfold wrapping_add_u64. apply Z.mod_small. unfold U64_MAX in Hmax. lia. }
  refine (conj _ (conj _ (conj _ (conj Hburst _)))); [|by apply inserted_consistent| |rewrite Hnext; lia].
  - apply sorted_set_insert; [|done]. cbn. intros y Hy. apply Hb in Hy. lia.
  - split; [rewrite Hnext|]; cbn.
    + intros x [->|Hx]%elem_of_set_insert; cbn; [lia|]. apply Hb in Hx. lia.
    + intros x y [->|Hx]%elem_of_set_insert [->|Hy]%elem_of_set_insert Heq; cbn in *; auto.
      * apply Hb in Hy. lia.
      * apply Hb in Hx. lia.
Qed.

Lemma enqueue_inner_core k kind q :
  core_inv q → next_seq q < U64_MAX → core_inv (enqueue_inner k kind q).1.
Proof.
  intros Hq Hmax. unfold enqueue_inner. destruct (entries q !! k) as [[[r s] kind0]|] eqn:Hk; cbn [fst].
  - destruct Hq as (Hs & Hc & Hd & Hburst & Hn). refine (conj Hs (conj _ (conj Hd (conj Hburst Hn)))).
    by eapply coalesced_consistent.
  - apply shed_inv; [|by apply inserted_core].
    intros x q' Hq' Hl. apply drop_entry_core; [done|by apply last_elem_of|apply Hq'].
Qed.

Lemma enqueue_inner_inv k kind q :
  fanout_inv q → next_seq q < U64_MAX → fanout_inv (enqueue_inner k kind q).1.
Proof.
  intros [Hq Hlen] Hmax. split; [by apply enqueue_inner_core|].
  unfold enqueue_inner. destruct (entries q !! k) as [[[r s] kind0]|]; cbn [fst]; [done|].
  apply length_shed. cbn [pending]. lia.
Qed.

Lemma pop_inv q : fanout_inv q → fanout_inv (pop q).2.
Proof.
  intros [Hq Hlen]. pose proof Hq as (Hs & Hc & Hd & Hburst & Hn).
  destruct (pop_cases q Hc) as [[Hp ->]|(x & burst & kind & [Hx Hch] & _ & ->)]; cbn [snd].
  - split; [|cbn [pending length]; lia]. refine (conj _ (conj _ (conj _ (conj _ Hn)))).
    + constructor.
    + intros y. cbn. rewrite <-Hp. apply Hc.
    + split; cbn; [intros y ?%elem_of_nil; done|intros y z ?%elem_of_nil; done].
    + cbn. unfold MAX_PRIORITY_BURST. lia.
  - split; [apply drop_entry_core; [done..|destruct Hch as [(-> & _)|(-> & ? & _)]; unfold MAX_PRIORITY_BURST in *; lia]|].
    cbn [drop_entry pending]. pose proof (length_set_remove_le x (pending q)). lia.
Qed.

(** ** Runs *)

Inductive qop := OEnqueue (doc_key : string) (kind : FanoutKind) | OPop.

Definition apply_op (op : qop) (q : Inner) : Inner :=
  match op with OEnqueue k kind => (enqueue_inner k kind q).1 | OPop => (pop q).2 end.

Definition run_ops (ops : list qop) (q : Inner) : Inner := foldl (λ q op, apply_op op q) q ops.

Definition pops (ops : list qop) : Z :=
  Z.of_nat (length (List.filter (λ op, match op with OPop => true | _ => false end) ops)).

Lemma shed_frame fuel q : next_seq (shed fuel q) = next_seq q ∧ priority_burst (shed fuel q) = priority_burst q.
Proof.
  apply (shed_inv (λ q', next_seq q' = next_seq q ∧ priority_burst q' = priority_burst q)); [|done].
  by intros x q' Hq _.
Qed.

Lemma next_seq_op op q :
  core_inv q → next_seq q < U64_MAX → next_seq q ≤ next_seq (apply_op op q) ≤ next_seq q + 1.
Proof.
  intros Hq Hmax. destruct op as [k kind|]; cbn [apply_op].
  - unfold enqueue_inner. destruct (entries q !! k) as [[[r s] kind0]|]; cbn [fst].
    + cbn. lia.
    + rewrite (proj1 (shed_frame _ _)). cbn [next_seq]. unfold wrapping_add_u64.
      rewrite Z.mod_small; [lia|]. unfold U64_MAX in Hmax. destruct Hq as (_&_&_&_&?). lia.
  - destruct Hq as (_ & Hc & _). destruct (pop_cases q Hc) as [[_ ->]|(x & b & kd & _ & _ & ->)]; cbn; lia.
Qed.

Lemma apply_op_inv op q : fanout_inv q → next_seq q < U64_MAX → fanout_inv (apply_op op q).
Proof. destruct op; cbn; eauto using enqueue_inner_inv, pop_inv. Qed.

(** ** Fairness *)

(** Entries enqueued before [e] and still pending *)
Definition older (e : Pending) (q : Inner) : Z :=
  Z.of_nat (length (filter (λ y, p_seq y < p_seq e) (pending q))).

Lemma length_filter_remove (P : Pending → Prop) `{∀ x, Decision (P x)} x l :
  (length (filter P (set_remove x l)) ≤ length (filter P l))%nat ∧
  (x ∈ l → P x → (length (filter P (set_remove x l)) < length (filter P l))%nat).
Proof.
  unfold set_remove. induction l as [|z l [IH1 IH2]]; [split; [done|by intros ?%elem_of_nil]|].
  split.
  - rewrite !filter_cons. case_decide; rewrite ?filter_cons; case_decide; cbn; lia.
  - intros Hx HP. rewrite !filter_cons. apply elem_of_cons in Hx as [->|Hx].
    + rewrite decide_False by tauto. rewrite decide_True by done. cbn. lia.
    + specialize (IH2 Hx HP). case_decide; rewrite ?filter_cons; case_decide; cbn; lia.
Qed.

Lemma older_drop_le e x dropped burst q : older e (drop_entry x dropped burst q) ≤ older e q.
Proof. unfold older. cbn. pose proof (proj1 (length_filter_remove (λ y, p_seq y < p_seq e) x (pending q))). lia. Qed.

Lemma older_drop_lt e x dropped burst q :
  x ∈ pending q → p_seq x < p_seq e → older e (drop_entry x dropped burst q) < older e q.
Proof.
  intros Hx Hlt. unfold older. cbn.
  pose proof (proj2 (length_filter_remove (λ y, p_seq y < p_seq e) x (pending q)) Hx Hlt). lia.
Qed.

(** An upper bound on the pops [e] still has to wait for. *)
Definition patience (e : Pending) (q : Inner) : Z := 9 * older e q + (8 - priority_burst q).

Lemma filter_set_insert_ge (P : Pending → Prop) `{∀ x, Decision (P x)} x l :
  ¬ P x → filter P (set_insert x l) = filter P l.
Proof.
  intros HP. induction l as [|z l IH]; cbn [set_insert].
  - rewrite filter_cons. by rewrite decide_False.
  - case_bool_decide; [done|]. destruct (pending_ltb x z).
    + rewrite filter_cons. by rewrite decide_False.
    + rewrite !filter_cons. case_decide; by rewrite IH.
Qed.

Lemma enqueue_patience e k kind q :
  core_inv q → e ∈ pending q →
  patience e (enqueue_inner k kind q).1 ≤ patience e q.
Proof.
  intros Hq He. unfold enqueue_inner. destruct (entries q !! k) as [[[r s] kind0]|] eqn:Hk; cbn [fst]; [done|].
  apply shed_inv.
  - intros x q' Hq' _. etrans; [|exact Hq']. unfold patience. cbn [drop_entry priority_burst].
    pose proof (older_drop_le e x (count_drop (p_rank x) (dropped_by_class q')) (priority_burst q') q'). lia.
  - unfold patience, older. cbn [pending priority_burst]. rewrite filter_set_insert_ge; [lia|].
    cbn. destruct Hq as (_ & _ & [Hb _] & _). specialize (Hb e He). lia.
Qed.

Lemma pop_patience e q :
  core_inv q → e ∈ pending (pop q).2 → patience e (pop q).2 < patience e q.
Proof.
  intros Hq He. pose proof Hq as (_ & Hc & [Hb Hd] & Hburst & _).
  destruct (pop_cases q Hc) as [[Hp Heq]|(x & burst & kind & [Hx Hch] & _ & Heq)]; rewrite Heq in *; cbn [snd] in *.
  - by apply elem_of_nil in He.
  - cbn in He. apply elem_of_set_remove in He as [Hne He]. unfold patience. cbn [drop_entry priority_burst].
    unfold MAX_PRIORITY_BURST in *.
    destruct Hch as [(-> & Hmin & _)|(-> & Hlt & _)].
    + assert (p_seq x < p_seq e) as Hlt.
      { specialize (Hmin e He). assert (p_seq x ≠ p_seq e) by (intros ?; by apply Hne, Hd). lia. }
      pose proof (older_drop_lt e x (dropped_by_class q) 0 q Hx Hlt) as H1. lia.
    + pose proof (older_drop_le e x (dropped_by_class q) (priority_burst q + 1) q) as H1. lia.
Qed.

(** A sequence number is never pending again once its entry left. *)
Lemma gone_stays_gone op e q :
  core_inv q → p_seq e < next_seq q → e ∉ pending q → e ∉ pending (apply_op op q).
Proof.
  intros Hq Hs Hne. pose proof Hq as (_ & Hc & _). destruct op as [k kind|]; cbn [apply_op].
  - unfold enqueue_inner. destruct (entries q !! k) as [[[r s] kind0]|]; cbn [fst]; [done|].
    apply (shed_inv (λ q', e ∉ pending q')).
    + intros x q' Hq' _. cbn. by intros [_ ?]%elem_of_set_remove.
    + cbn. intros [->|?]%elem_of_set_insert; [cbn in Hs; lia|done].
  - destruct (pop_cases q Hc) as [[_ ->]|(x & b & kd & _ & _ & ->)]; cbn.
    + by intros ?%elem_of_nil.
    + by intros [_ ?]%elem_of_set_remove.
Qed.

Lemma gone_run ops e q :
  fanout_inv q → next_seq q + Z.of_nat (length ops) ≤ U64_MAX → p_seq e < next_seq q →
  e ∉ pending q → e ∉ pending (run_ops ops q).
Proof.
  revert q. induction ops as [|op ops IH]; intros q Hq Hmax Hs Hne; [done|]. cbn [run_ops foldl length] in *.
  assert (next_seq q < U64_MAX) as Hlt by lia. pose proof (next_seq_op op q (proj1 Hq) Hlt).
  apply IH; [by apply apply_op_inv|lia|lia|]. apply gone_stays_gone; [apply Hq|done..].
Qed.

Lemma waiting_run ops e q :
  fanout_inv q → next_seq q + Z.of_nat (length ops) ≤ U64_MAX → e ∈ pending q →
  patience e q < pops ops → e ∉ pending (run_ops ops q).
Proof.
  revert q. induction ops as [|op ops IH]; intros q Hq Hmax He Hp.
  - unfold pops in Hp. cbn in Hp. unfold patience, older in Hp.
    destruct Hq as [(_ & _ & _ & Hb & _) _]. unfold MAX_PRIORITY_BURST in Hb. lia.
  - cbn [run_ops foldl length] in *. assert (next_seq q < U64_MAX) as Hlt by lia.
    pose proof (next_seq_op op q (proj1 Hq) Hlt) as Hn. pose proof (apply_op_inv op q Hq Hlt) as Hq'.
    destruct (decide (e ∈ pending (apply_op op q))) as [He'|Hne].
    + apply IH; [done|lia|done|]. destruct op as [k kind|]; cbn [apply_op] in *.
      * pose proof (enqueue_patience e k kind q (proj1 Hq) He). unfold pops in *. cbn in Hp. lia.
      * pose proof (pop_patience e q (proj1 Hq) He'). unfold pops in *. cbn in Hp. lia.
    + apply gone_run; [done|lia| |done]. destruct Hq as [(_ & _ & [Hb _] & _) _]. specialize (Hb e He). lia.
Qed.

(** ** Coalescing *)

Definition kinds_for (k : string) (ops : list qop) : list FanoutKind :=
  omap (λ op, match op with OEnqueue k' kind => if bool_decide (k' = k) then Some kind else None | OPop => None end) ops.

(** [k] still holds its entry with kind [kind], or the entry left the queue. *)
Definition holds (k : string) (r s : Z) (kind : FanoutKind) (q : Inner) : Prop :=
  consistent q ∧ (entries q !! k = Some (r, s, kind) ∨ mkPending r s k ∉ pending q).

Lemma drop_entry_holds k r s kind x dropped burst q :
  x ∈ pending q → holds k r s kind q → holds k r s kind (drop_entry x dropped burst q).
Proof.
  intros Hx [Hc H]. split; [by apply drop_entry_consistent|]. destruct H as [Hk|Hne].
  - destruct (decide (p_key x = k)) as [<-|Hkey].
    + right. cbn. intros [Hne _]%elem_of_set_remove. apply Hne.
      apply Hc in Hx as [kind' Hx]. destruct x. cbn in *. by simplify_eq.
    + left. cbn. by rewrite lookup_delete_ne.
  - right. cbn. by intros [_ ?]%elem_of_set_remove.
Qed.

Lemma enqueue_holds k r s kind k' kind' q :
  s < next_seq q → holds k r s kind q →
  holds k r s (if bool_decide (k' = k) then merge kind kind' else kind) (enqueue_inner k' kind' q).1.
Proof.
  intros Hs [Hc H]. unfold enqueue_inner.
  destruct (entries q !! k') as [[[r0 s0] kind0]|] eqn:Hk'; cbn [fst].
  - split; [by eapply coalesced_consistent|]. cbn. destruct H as [Hk|Hne]; [|by right]. left.
    case_bool_decide as Heq.
    + subst k'. rewrite Hk' in Hk. simplify_eq. by rewrite lookup_insert_eq.
    + by rewrite lookup_insert_ne.
  - apply shed_inv.
    + intros x q' Hq' Hl. apply drop_entry_holds; [by apply last_elem_of|done].
    + split; [by apply inserted_consistent|]. cbn. destruct H as [Hk|Hne].
      * left. rewrite bool_decide_false by congruence. rewrite lookup_insert_ne by congruence. done.
      * right. intros [Heq|?]%elem_of_set_insert; [simplify_eq; lia|done].
Qed.

Lemma pop_holds k r s kind q : holds k r s kind q → holds k r s kind (pop q).2.
Proof.
  intros Hh. pose proof Hh as [Hc H].
  destruct (pop_cases q Hc) as [[Hp ->]|(x & b & kd & [Hx _] & _ & ->)]; cbn [snd].
  - split; [intros y; cbn; rewrite <-Hp; apply Hc|]. right. by intros ?%elem_of_nil.
  - by apply drop_entry_holds.
Qed.

Lemma run_holds ops k r s kind q :
  fanout_inv q → next_seq q + Z.of_nat (length ops) ≤ U64_MAX → s < next_seq q →
  holds k r s kind q → holds k r s (foldl merge kind (kinds_for k ops)) (run_ops ops q).
Proof.
  revert q kind. induction ops as [|op ops IH]; intros q kind Hq Hmax Hs Hh; [done|].
  cbn [length] in Hmax. assert (next_seq q < U64_MAX) as Hlt by lia.
  pose proof (next_seq_op op q (proj1 Hq) Hlt) as Hn. pose proof (apply_op_inv op q Hq Hlt) as Hq'.
  destruct op as [k' kind'|]; cbn [apply_op] in *.
  - change (run_ops _ q) with (run_ops ops (enqueue_inner k' kind' q).1).
    apply (enqueue_holds _ _ _ _ k' kind') in Hh; [|done].
    unfold kinds_for. cbn [omap list_omap]. fold (kinds_for k ops).
    case_bool_decide; cbn [foldl]; apply IH; (done || lia).
  - change (run_ops _ q) with (run_ops ops (pop q).2). apply IH; [done|lia|lia|by apply pop_holds].
Qed.

(** The peers an intent reaches *)
Definition reaches (kind : FanoutKind) (peer : string) : Prop :=
  match kind with AllPeers => True | ExcludeSource s => peer ≠ s end.

Lemma merge_reaches a b peer : reaches a peer ∨ reaches b peer → reaches (merge a b) peer.
Proof. destruct a, b; cbn; try done. case_bool_decide; cbn; naive_solver. Qed.

Lemma merge_exclude a b s : merge a b = ExcludeSource s ↔ a = ExcludeSource s ∧ b = ExcludeSource s.
Proof. destruct a, b; cbn; try naive_solver. case_bool_decide; naive_solver. Qed.

Lemma fold_merge_exclude a l s :
  foldl merge a l = ExcludeSource s ↔ a = ExcludeSource s ∧ Forall (λ b, b = ExcludeSource s) l.
Proof.
  revert a. induction l as [|b l IH]; intros a; cbn.
  - rewrite Forall_nil. tauto.
  - rewrite IH, merge_exclude, Forall_cons. tauto.
Qed.

(** ** Wake-ups *)

Inductive fstep : FanoutWorker * PriorityFanout → FanoutWorker * PriorityFanout → Prop :=
| fstep_enqueue w p k kind : fstep (w, p) (w, enqueue k kind p)
| fstep_close w p : fstep (w, p) (w, close p)
| fstep_worker w p peers w' p' calls : run_step w peers p = Some (w', p', calls) → fstep (w, p) (w', p').

Definition wake_inv (c : FanoutWorker * PriorityFanout) : Prop :=
  consistent (pf_inner c.2) ∧
  match c.1 with
  | SawEmpty => pending (pf_inner c.2) ≠ [] → pf_permit c.2 = true
  | Parked => pending (pf_inner c.2) ≠ [] ∨ pf_closed c.2 = true → pf_permit c.2 = true
  | _ => True
  end.

(** Without a notification the queue was not empty before. *)
Lemma enqueue_silent k kind q :
  consistent q → (enqueue_inner k kind q).2 = false → pending q ≠ [].
Proof.
  intros Hc. unfold enqueue_inner. destruct (entries q !! k) as [[[r s] kind0]|] eqn:Hk; [|done].
  intros _ Hnil. assert (mkPending r s k ∈ pending q) as Hin by (apply Hc; cbn; eauto).
  rewrite Hnil in Hin. by apply elem_of_nil in Hin.
Qed.

Lemma fstep_wake c c' : fstep c c' → wake_inv c → wake_inv c'.
Proof.
  intros Hstep [Hc Hw]. destruct Hstep as [w p k kind|w p|w p peers w' p' calls Hrun]; cbn [fst snd] in *.
  - unfold wake_inv, enqueue. cbn [fst snd]. pose proof (enqueue_inner_consistent k kind _ Hc) as Hc'.
    pose proof (enqueue_silent k kind _ Hc) as Hsil.
    destruct (enqueue_inner k kind (pf_inner p)) as [q []]; cbn [fst snd pf_inner pf_permit pf_closed] in *;
      (split; [done|]); [destruct w; try done; by rewrite orb_true_r|].
    rewrite orb_false_r. specialize (Hsil eq_refl). destruct w; try done; intros _; apply Hw; auto.
  - split; [done|]. by destruct w.
  - unfold run_step in Hrun. destruct w; cbn in Hrun.
    + pose proof (pop_consistent _ Hc) as Hc'.
      destruct (pop_cases _ Hc) as [[Hp Heq]|(x & b & kd & _ & _ & Heq)]; rewrite Heq in *; simplify_eq;
        (split; [done|]); [|done]. by intros [].
    + destruct (pf_closed p) eqn:Hcl; simplify_eq; split; try done.
      cbn. intros [?|?]; [auto|congruence].
    + by simplify_eq.
    + destruct (pf_permit p); by simplify_eq.
    + done.
Qed.

End facts.

(** ** Properties *)

Section properties.
Context {qos : Qos}.

(** [C17] The queue's invariant: through every sequence of enqueues and pops the
    ordered set and the map hold exactly the same entries, the set stays ordered by
    (QoS rank, sequence), sequence numbers stay distinct, and never more than 4096
    entries are pending. (The bound on the run is the u64 sequence counter.) *)
Theorem queue_invariant ops q :
  fanout_inv q → next_seq q + Z.of_nat (length ops) ≤ U64_MAX → fanout_inv (run_ops ops q).
Proof.
  revert q. induction ops as [|op ops IH]; intros q Hq Hmax; [done|]. cbn [length] in Hmax.
  assert (next_seq q < U64_MAX) as Hlt by lia. pose proof (next_seq_op op q (proj1 Hq) Hlt).
  change (fanout_inv (run_ops ops (apply_op op q))). apply IH; [by apply apply_op_inv|lia].
Qed.

(** What [pop] serves: it answers [None] exactly when nothing is pending;
    otherwise it removes one entry and returns its key with its merged intent, and
    that entry is of the best QoS rank present (earliest first), unless eight
    priority pops in a row have passed over an older entry, when it is the oldest. *)
Theorem pop_serves_priority_or_oldest q :
  fanout_inv q →
  match (pop q).1 with
  | None => pending q = []
  | Some (key, kind) =>
      ∃ x, x ∈ pending q ∧ p_key x = key ∧ entries q !! key = Some (p_rank x, p_seq x, kind) ∧
        (x ∉ pending (pop q).2) ∧ entries (pop q).2 = delete key (entries q) ∧
        ((∀ y, y ∈ pending q → y = x ∨ before x y) ∨
         (priority_burst q = MAX_PRIORITY_BURST ∧ (∀ y, y ∈ pending q → p_seq x ≤ p_seq y)))
  end.
Proof.
  intros [(Hs & Hc & _ & Hb & _) _].
  destruct (pop_cases q Hc) as [[Hp ->]|(x & burst & kind & [Hx Hch] & Hk & ->)]; [done|]. cbn [fst snd].
  exists x. split_and!; [done..| |done|].
  - cbn. by intros [? _]%elem_of_set_remove.
  - assert (head (pending q) = Some x → ∀ y, y ∈ pending q → y = x ∨ before x y) as Hhead.
    { intros Hh y Hy. destruct Hs as [|z l _ Hz]; [done|]. cbn in Hh. simplify_eq.
      apply elem_of_cons in Hy as [->|Hy]; [by left|]. right. rewrite Forall_forall in Hz. auto. }
    destruct Hch as [(_ & Hmin & [Hh|Hge])|(_ & _ & Hh)]; [by left; apply Hhead| |by left; apply Hhead].
    right. split; [lia|done].
Qed.

(** [C14] Bounded bypass, so no starvation: whatever is enqueued in between and
    whatever its QoS class, a pending entry with [k] older entries before it is
    gone (served, or shed by the bound) after at most [9 * (k + 1)] pops. *)
Theorem bounded_bypass e q ops :
  fanout_inv q → next_seq q + Z.of_nat (length ops) ≤ U64_MAX → e ∈ pending q →
  9 * (older e q + 1) ≤ pops ops → e ∉ pending (run_ops ops q).
Proof.
  intros Hq Hmax He Hp. apply waiting_run; [done..|]. unfold patience.
  destruct Hq as [(_ & _ & _ & Hb & _) _]. lia.
Qed.

(** [C16] Coalescing loses no intent: while a document keeps its place in the
    queue, its entry carries the merge of all intents enqueued for it, so it
    reaches every peer any of those changes had to reach, and it skips a source
    peer only if every one of them came from that same peer. *)
Theorem coalescing_covers_all_intents q ops k r s kind0 kind1 :
  fanout_inv q → next_seq q + Z.of_nat (length ops) ≤ U64_MAX →
  entries q !! k = Some (r, s, kind0) → entries (run_ops ops q) !! k = Some (r, s, kind1) →
  kind1 = foldl merge kind0 (kinds_for k ops) ∧
  ∀ source, kind1 = ExcludeSource source ↔
    kind0 = ExcludeSource source ∧ Forall (λ kind, kind = ExcludeSource source) (kinds_for k ops).
Proof.
  intros Hq Hmax Hk0 Hk1. pose proof Hq as [(_ & Hc & [Hb _] & _) _].
  assert (mkPending r s k ∈ pending q) as Hin by (apply Hc; eauto).
  apply Hb in Hin. cbn in Hin. destruct Hin as [_ Hs].
  destruct (run_holds ops k r s kind0 q Hq Hmax Hs) as [Hc' [Hh|Hne]]; [by split; [|left]| |].
  - rewrite Hk1 in Hh. simplify_eq. split; [done|]. intros source. apply fold_merge_exclude.
  - destruct Hne. apply Hc'. cbn. eauto.
Qed.


(** Closing can lose a document: when a change is enqueued and the queue is
    closed between the worker's empty [pop] and its look at the closed flag, the
    worker leaves with that document still pending, although closing is meant to
    drain what remains. *)
Theorem close_race_drops_entry k (kind : FanoutKind) :
  ∃ p, rtc fstep (AtTop, fanout_new) (Exited, p) ∧ is_Some (entries (pf_inner p) !! k).
Proof.
  exists (close (enqueue k kind fanout_new)). split.
  - eapply rtc_l; [by apply (fstep_worker AtTop fanout_new [] SawEmpty fanout_new [])|].
    eapply rtc_l; [apply (fstep_enqueue _ _ k kind)|]. eapply rtc_l; [apply fstep_close|].
    apply rtc_once. by apply (fstep_worker _ _ [] _ _ []).
  - change (entries (pf_inner _)) with (<[k := (qos_rank k, 0, kind)]> (∅ : gmap string (Z * Z * FanoutKind))).
    rewrite lookup_insert_eq. eauto.
Qed.

End properties.

(** ** Witnesses *)

(** [alerts] is Critical, everything else Bulk. *)
Definition toy_qos : Qos := λ c, if bool_decide (c = "alerts"%string) then 1 else 5.

Lemma default_inv : fanout_inv inner_default.
Proof.
  split; [|cbn; unfold MAX_PENDING; lia]. refine (conj _ (conj _ (conj _ (conj _ _)))); cbn.
  - constructor.
  - intros x. cbn. rewrite lookup_empty. split; [by intros ?%elem_of_nil|by intros [??]].
  - split; cbn; [by intros x ?%elem_of_nil|by intros x y ?%elem_of_nil].
  - unfold MAX_PRIORITY_BURST. lia.
  - lia.
Qed.

(** One Bulk document, then an alert. *)
Definition two_docs : list qop :=
  [OEnqueue "sitreps:a" (ExcludeSource "peer1"); OEnqueue "alerts:b" AllPeers].

Definition two_docs_queue : Inner := run_ops (qos := toy_qos) two_docs inner_default.

Lemma queue_invariant_witness : fanout_inv two_docs_queue.
Proof.
  apply (queue_invariant (qos := toy_qos) two_docs inner_default default_inv).
  cbn. unfold U64_MAX. lia.
Defined.

Lemma two_docs_inv : fanout_inv two_docs_queue.
Proof.
  unfold two_docs_queue. cbn [run_ops foldl two_docs].
  do 2 (apply apply_op_inv; [|vm_compute; reflexivity]). exact default_inv.
Qed.

Lemma pop_serves_priority_or_oldest_witness :
  ∃ x, x ∈ pending two_docs_queue ∧ p_key x = "alerts:b"%string.
Proof.
  pose proof (pop_serves_priority_or_oldest two_docs_queue two_docs_inv) as H.
  assert ((pop two_docs_queue).1 = Some ("alerts:b"%string, AllPeers)) as Hp by (vm_compute; reflexivity).
  rewrite Hp in H. destruct H as (x & H1 & H2 & _). exists x. exact (conj H1 H2).
Defined.

(** Nine pops in a row serve the Bulk document. *)
Lemma bounded_bypass_witness :
  mkPending 5 0 "sitreps:a" ∉ pending (run_ops (qos := toy_qos) (replicate 9 OPop) two_docs_queue).
Proof.
  apply (bounded_bypass (qos := toy_qos) (mkPending 5 0 "sitreps:a") two_docs_queue (replicate 9 OPop) two_docs_inv).
  - vm_compute. discriminate.
  - vm_compute. right. left.
  - vm_compute. discriminate.
Defined.

Lemma coalescing_covers_all_intents_witness :
  AllPeers = foldl merge (ExcludeSource "peer1")
    (kinds_for "sitreps:a" [OEnqueue "sitreps:a" (ExcludeSource "peer2")]).
Proof.
  apply (coalescing_covers_all_intents (qos := toy_qos) two_docs_queue
           [OEnqueue "sitreps:a" (ExcludeSource "peer2")] "sitreps:a" 5 0 (ExcludeSource "peer1") AllPeers two_docs_inv);
    vm_compute; first [reflexivity | discriminate].
Defined.

