(* ===== verification/Paths.v ===== *)
(** * Paths, the file system seen by the attachment code, and RPC errors

    Unix [std::path] semantics for the operations the attachment modules use,
    the operating system as an abstract state with its calls ([Os]), and
    [ConnectError] with its code and the request field it names (the rest of
    the message text is not modelled). *)

From S2P Require Import Prelude.
From stdpp Require Import pretty.
From Stdlib Require Import Strings.Ascii.

(** ** Splitting *)

(** [s.split(c)]: always at least one piece. *)
Fixpoint split_on (c : ascii) (s : string) : list string :=
  match s with
  | EmptyString => [EmptyString]
  | String a s' =>
      if Ascii.eqb a c then EmptyString :: split_on c s'
      else match split_on c s' with
           | [] => [String a EmptyString]
           | p :: ps => String a p :: ps
           end
  end.

(** ** [std::path::Component] on Unix *)

Inductive Component := RootDir | CurDir | ParentDir | Normal (s : string).

#[global] Instance Component_eq_dec : EqDecision Component.
Proof. solve_decision. Defined.

(** One piece between slashes; a repeated slash or an inner [.] yields nothing. *)
Definition piece_component (s : string) : list Component :=
  if bool_decide (s = "") then []
  else if bool_decide (s = ".") then []
  else if bool_decide (s = "..") then [ParentDir]
  else [Normal s].

(** [Path::components]: a leading slash is [RootDir], a leading [.] is [CurDir]. *)
Definition components (path : string) : list Component :=
  match split_on "/"%char path with
  | [] => []
  | first :: rest =>
      (if bool_decide (first = "") then (if bool_decide (path = "") then [] else [RootDir])
       else if bool_decide (first = ".") then [CurDir]
       else piece_component first)
      ++ mjoin (piece_component <$> rest)
  end.

(** [Path::starts_with] compares whole components. *)
Definition path_starts_with (path base : string) : bool :=
  bool_decide (components base `prefix_of` components path).

Definition is_absolute (path : string) : bool := starts_with path "/".

Fixpoint ends_with_char (c : ascii) (s : string) : bool :=
  match s with
  | EmptyString => false
  | String a EmptyString => Ascii.eqb a c
  | String _ s' => ends_with_char c s'
  end.

(** [Path::join]: an absolute argument replaces the base. *)
Definition path_join (base path : string) : string :=
  if is_absolute path then path
  else if bool_decide (base = "") || ends_with_char "/"%char base then base +:+ path
  else base +:+ "/" +:+ path.

(** ** The operating system *)

Inductive FileType := RegularFile | DirectoryType | OtherType.

#[global] Instance FileType_eq_dec : EqDecision FileType.
Proof. solve_decision. Defined.

Record Metadata := mkMetadata { file_type : FileType; md_len : Z }.

Definition is_file (m : Metadata) : bool := bool_decide (file_type m = RegularFile).
Definition is_dir (m : Metadata) : bool := bool_decide (file_type m = DirectoryType).

(** An I/O error carries no data the code branches on. *)
Inductive IoError := io_error.

(** The file-system calls, on a state [W] of the operating system. *)
Class Os (W : Type) := {
  canonicalize : W → string → result IoError string;
  metadata : W → string → result IoError Metadata;
  create_dir_all : W → string → result IoError unit * W;
}.

(** [Path::exists] and [Path::is_dir]: [metadata] with errors read as "no". *)
Definition path_exists `{Os W} (w : W) (path : string) : bool := is_ok (metadata w path).

Definition path_is_dir `{Os W} (w : W) (path : string) : bool :=
  match metadata w path with Ok m => is_dir m | Err _ => false end.

(** ** RPC errors *)

Inductive ErrorCode :=
| InvalidArgument | ResourceExhausted | FailedPrecondition | NotFoundCode
| AlreadyExists | Unimplemented | Internal.

#[global] Instance ErrorCode_eq_dec : EqDecision ErrorCode.
Proof. solve_decision. Defined.

Record ConnectError := mkConnectError { ce_code : ErrorCode; ce_field : string }.

(** [format!("files[{index}].{suffix}")] *)
Definition file_field (index : nat) (suffix : string) : string :=
  "files[" +:+ pretty index +:+ "]." +:+ suffix.

(** ** Lemmas *)

Lemma path_starts_with_spec path base :
  path_starts_with path base = true ↔ ∃ rest, components path = components base ++ rest.
Proof. unfold path_starts_with. rewrite bool_decide_eq_true. done. Qed.

Lemma split_on_not_nil c s : split_on c s ≠ [].
Proof. induction s as [|a s IH]; cbn; [done|]. destruct (Ascii.eqb a c); [done|]. by destruct (split_on c s). Qed.

(** ** A file system without links, for the witnesses *)

Definition toy_os : Os (gmap string Metadata) := {|
  canonicalize w path := if bool_decide (is_Some (w !! path)) then Ok path else Err io_error;
  metadata w path := ok_or (w !! path) io_error;
  create_dir_all w path := (Ok tt, <[path := mkMetadata DirectoryType 0]> w);
|}.

Definition toy_disk : gmap string Metadata :=
  <["/data/out" := mkMetadata DirectoryType 0]> {["/data/out/a.txt" := mkMetadata RegularFile 5]}.
