(* ===== verification/AttachConfig.v ===== *)
(** * Attachment configuration

    Model of [src/attachments/config.rs]: parsing [--attachment-root] entries
    into an allowlist of canonical directories, and the inbox directory. *)

From S2P Require Import Prelude Paths.
From Stdlib Require Import Strings.Ascii.

Inductive AttachmentPriorityCli := CliBulk | CliLow | CliRoutine | CliPriority | CliCritical.

Definition DEFAULT_MAX_FILE_BYTES : Z := 256 * 1024 * 1024.
Definition DEFAULT_MAX_BUNDLE_BYTES : Z := 1024 * 1024 * 1024.
Definition DEFAULT_MAX_FILES_PER_BUNDLE : Z := 64.
Definition DEFAULT_MAX_NODE_LIST_LEN : Z := 256.
Definition DEFAULT_MAX_CONCURRENT_DISTRIBUTIONS : Z := 4.
Definition DEFAULT_QUEUE_WHEN_FULL : bool := false.
Definition DEFAULT_DISCOVERY_GRACE_SECS : Z := 30.
Definition DEFAULT_HANDLE_RETENTION_SECS : Z := 86400.
Definition DEFAULT_MAX_KNOWN_BUNDLES : Z := 4096.
Definition DEFAULT_INBOX_POLL_SECS : Z := 1.
Definition DEFAULT_OUTBOX_POLL_SECS : Z := 2.

Inductive ConfigError :=
| RootMissingSeparator (spec : string)
| RootInvalidName (name : string)
| RootDuplicateName (name : string)
| RootCanonicalise (name path : string)
| RootNotDirectory (name path : string)
| InboxBadPath (path : string)
| InboxNotDirectory (path resolved : string).

Record AttachmentConfig := mkAttachmentConfig {
  roots : gmap string string;
  inbox_path : option string;
  max_file_bytes : Z;
  max_bundle_bytes : Z;
  max_files_per_bundle : Z;
  max_node_list_len : Z;
  max_concurrent_distributions : Z;
  queue_when_full : bool;
  default_priority : AttachmentPriorityCli;
  discovery_grace_secs : Z;
  handle_retention_secs : Z;
  max_known_bundles : Z;
  inbox_poll_secs : Z;
  outbox_watch : bool;
  outbox_poll_secs : Z;
}.

Definition attachment_config_default : AttachmentConfig :=
  mkAttachmentConfig ∅ None DEFAULT_MAX_FILE_BYTES DEFAULT_MAX_BUNDLE_BYTES DEFAULT_MAX_FILES_PER_BUNDLE
    DEFAULT_MAX_NODE_LIST_LEN DEFAULT_MAX_CONCURRENT_DISTRIBUTIONS DEFAULT_QUEUE_WHEN_FULL CliRoutine
    DEFAULT_DISCOVERY_GRACE_SECS DEFAULT_HANDLE_RETENTION_SECS DEFAULT_MAX_KNOWN_BUNDLES
    DEFAULT_INBOX_POLL_SECS false DEFAULT_OUTBOX_POLL_SECS.

Definition has_roots (cfg : AttachmentConfig) : bool := negb (bool_decide (roots cfg = ∅)).

Definition lookup_root (cfg : AttachmentConfig) (name : string) : option string := roots cfg !! name.

(** [char::is_ascii_alphanumeric], on a byte: a non-ASCII character has none. *)
Definition is_ascii_alphanumeric (c : ascii) : bool :=
  let n := Z.of_N (N_of_ascii c) in
  ((48 <=? n) && (n <=? 57)) || ((65 <=? n) && (n <=? 90)) || ((97 <=? n) && (n <=? 122)).

Definition root_name_char (c : ascii) : bool :=
  is_ascii_alphanumeric c || Ascii.eqb c "_"%char || Ascii.eqb c "-"%char.

Definition is_valid_root_name (name : string) : bool :=
  negb (is_empty_str name) && forallb root_name_char (String.list_ascii_of_string name).

Section config.
Context `{Os W}.

Definition parse_root_spec (w : W) (spec : string) : result ConfigError (string * string) :=
  match split_once "="%char spec with
  | None => Err (RootMissingSeparator spec)
  | Some (name, raw_path) =>
      if negb (is_valid_root_name name) then Err (RootInvalidName name)
      else
        match canonicalize w raw_path with
        | Err _ => Err (RootCanonicalise name raw_path)
        | Ok canonical =>
            if negb (path_is_dir w canonical) then Err (RootNotDirectory name canonical)
            else Ok (name, canonical)
        end
  end.

(** The [for spec in raw_roots] loop of [from_raw]. *)
Fixpoint parse_roots (w : W) (acc : gmap string string) (raw_roots : list string)
  : result ConfigError (gmap string string) :=
  match raw_roots with
  | [] => Ok acc
  | spec :: rest =>
      if is_empty_str spec then parse_roots w acc rest
      else
        let? (name, path) := parse_root_spec w spec in
        if bool_decide (is_Some (acc !! name)) then Err (RootDuplicateName name)
        else parse_roots w (<[name := path]> acc) rest
  end.

Definition canonicalise_or_create_inbox (raw_path : string) (w : W) : result ConfigError string * W :=
  let '(created, w1) :=
    if path_exists w raw_path then (Ok tt, w) else create_dir_all w raw_path in
  match created with
  | Err _ => (Err (InboxBadPath raw_path), w1)
  | Ok _ =>
      match canonicalize w1 raw_path with
      | Err _ => (Err (InboxBadPath raw_path), w1)
      | Ok canonical =>
          if negb (path_is_dir w1 canonical) then (Err (InboxNotDirectory raw_path canonical), w1)
          else (Ok canonical, w1)
      end
  end.

(** [AttachmentConfig::from_raw]; [raw] carries the numeric and boolean knobs,
    which are copied unchanged (its [roots] and [inbox_path] are ignored). *)
Definition from_raw (raw_roots : list string) (inbox : option string) (raw : AttachmentConfig) (w : W)
  : result ConfigError AttachmentConfig * W :=
  match parse_roots w ∅ raw_roots with
  | Err e => (Err e, w)
  | Ok rs =>
      let '(inbox_r, w1) :=
        match inbox with
        | Some p => let '(r, w') := canonicalise_or_create_inbox p w in (map_ok Some r, w')
        | None => (Ok None, w)
        end in
      (let? i := inbox_r in
       Ok (mkAttachmentConfig rs i (max_file_bytes raw) (max_bundle_bytes raw) (max_files_per_bundle raw)
             (max_node_list_len raw) (max_concurrent_distributions raw) (queue_when_full raw)
             (default_priority raw) (discovery_grace_secs raw) (handle_retention_secs raw)
             (max_known_bundles raw) (inbox_poll_secs raw) (outbox_watch raw) (outbox_poll_secs raw)), w1)
  end.

(** ** What the parsed allowlist holds *)

(** A non-empty entry and the root it declares. *)
Definition declares (w : W) (spec name path : string) : Prop :=
  is_empty_str spec = false ∧ ∃ raw_path,
    split_once "="%char spec = Some (name, raw_path) ∧ is_valid_root_name name = true ∧
    canonicalize w raw_path = Ok path ∧ path_is_dir w path = true.

Lemma parse_root_spec_Ok w spec name path :
  is_empty_str spec = false →
  parse_root_spec w spec = Ok (name, path) ↔ declares w spec name path.
Proof.
  intros Hne. unfold parse_root_spec, declares. split.
  - intros Hp. split; [done|]. destruct (split_once _ spec) as [[n rp]|]; [|done].
    destruct (is_valid_root_name n) eqn:Hn; cbn in Hp; [|done].
    destruct (canonicalize w rp) as [c|] eqn:Hc; [|done].
    destruct (path_is_dir w c) eqn:Hd; cbn in Hp; simplify_eq. by exists rp.
  - intros (_ & rp & -> & -> & -> & ->). done.
Qed.

Lemma parse_roots_Ok w acc specs rs :
  parse_roots w acc specs = Ok rs →
  ∀ name path, rs !! name = Some path ↔
    acc !! name = Some path ∨ ∃ spec, spec ∈ specs ∧ declares w spec name path.
Proof.
  revert acc. induction specs as [|spec specs IH]; intros acc Hp name path; cbn in Hp.
  - simplify_eq. split; [by left|]. intros [?|(? & ?%elem_of_nil & _)]; done.
  - destruct (is_empty_str spec) eqn:He.
    + rewrite (IH acc Hp). split; (intros [?|(s & Hs & Hd)]; [by left|right; exists s]).
      * split; [by right|done].
      * apply elem_of_cons in Hs as [->|Hs]; [|done]. destruct Hd. congruence.
    + destruct (parse_root_spec w spec) as [[n p]|] eqn:Hspec; [|done].
      apply parse_root_spec_Ok in Hspec; [|done]. case_bool_decide as Hdup; [done|].
      apply eq_None_not_Some in Hdup. rewrite (IH _ Hp), lookup_insert_Some. split.
      * intros [[[<- <-]|[Hne Ha]]|(s & Hs & Hd)]; [right|by left|right].
        -- exists spec. split; [by left|done].
        -- exists s. split; [by right|done].
      * intros [Ha|(s & Hs & Hd)].
        -- left. right. split; [congruence|done].
        -- apply elem_of_cons in Hs as [->|Hs]; [|by right; exists s].
           left. left. destruct Hspec as (_ & r1 & E1 & _ & C1 & _), Hd as (_ & r2 & E2 & _ & C2 & _).
           split; congruence.
Qed.

Lemma parse_roots_distinct w acc specs rs s1 s2 name p1 p2 i j :
  parse_roots w acc specs = Ok rs →
  specs !! i = Some s1 → specs !! j = Some s2 → declares w s1 name p1 → declares w s2 name p2 → i = j.
Proof.
  revert acc i j. induction specs as [|spec specs IH]; intros acc i j Hp Hi Hj H1 H2; [done|].
  cbn in Hp. destruct (is_empty_str spec) eqn:He.
  - destruct i as [|i]; [cbn in Hi; destruct H1; congruence|]. destruct j as [|j]; [cbn in Hj; destruct H2; congruence|].
    f_equal. by eapply IH.
  - destruct (parse_root_spec w spec) as [[n p]|] eqn:Hspec; [|done].
    case_bool_decide as Hdup; [done|].
    assert (∀ k s q, specs !! k = Some s → declares w s n q → False) as Hclash.
    { clear IH Hdup Hi Hj H1 H2. intros k s q Hk Hd.
      assert (is_Some ((<[n := p]> acc) !! n)) as Hin by (rewrite lookup_insert_eq; eauto).
      revert Hp Hin Hk. generalize (<[n := p]> acc) as acc'. clear acc Hspec p. revert k.
      induction specs as [|x specs IH]; intros k acc' Hp Hin Hk; [done|]. cbn in Hp.
      destruct (is_empty_str x) eqn:Hx.
      - destruct k; [cbn in Hk; destruct Hd; congruence|]. by eapply IH.
      - destruct (parse_root_spec w x) as [[n' p']|] eqn:Hs; [|done].
        case_bool_decide as Hdup; [done|]. destruct k as [|k].
        + cbn in Hk. simplify_eq. apply parse_root_spec_Ok in Hd; [|done]. congruence.
        + eapply IH; [exact Hp| |exact Hk]. rewrite lookup_insert. case_decide; eauto. }
    destruct i as [|i], j as [|j]; cbn in Hi, Hj; simplify_eq; [done|..|f_equal; by eapply IH].
    + exfalso. apply parse_root_spec_Ok in H1; [|done]. rewrite Hspec in H1. simplify_eq. eauto.
    + exfalso. apply parse_root_spec_Ok in H2; [|done]. rewrite Hspec in H2. simplify_eq. eauto.
Qed.

End config.

Section properties.
Context `{Os W}.

(** The attachment allowlist is exactly what the operator declared: when
    [from_raw] succeeds, a name is in it iff one of the non-empty [name=path]
    entries declares it, with a valid name and a path that canonicalises to an
    existing directory; no two entries declare the same name; and the RPCs are
    enabled iff some entry is non-empty. *)
Theorem roots_are_the_declared_ones raw_roots inbox raw w cfg w' :
  from_raw raw_roots inbox raw w = (Ok cfg, w') →
  (∀ name path, lookup_root cfg name = Some path ↔
     ∃ spec, spec ∈ raw_roots ∧ declares w spec name path) ∧
  (∀ i j s1 s2 name p1 p2, raw_roots !! i = Some s1 → raw_roots !! j = Some s2 →
     declares w s1 name p1 → declares w s2 name p2 → i = j) ∧
  (has_roots cfg = true ↔ ∃ spec, spec ∈ raw_roots ∧ is_empty_str spec = false).
Proof.
  unfold from_raw. destruct (parse_roots w ∅ raw_roots) as [rs|] eqn:Hp; [|done].
  destruct (match inbox with Some p => _ | None => _ end) as [[i|e] w1]; intros ?; simplify_eq.
  assert (∀ name path, rs !! name = Some path ↔ ∃ spec, spec ∈ raw_roots ∧ declares w spec name path) as Hrs.
  { intros name path. rewrite (parse_roots_Ok _ _ _ _ Hp), lookup_empty. naive_solver. }
  split_and!; [exact Hrs|by intros; eapply parse_roots_distinct|].
  unfold has_roots. cbn [roots]. rewrite negb_true_iff, bool_decide_eq_false. split.
  - intros Hne. apply map_choose in Hne as (name & path & Hn). apply Hrs in Hn as (spec & Hs & Hd & _). eauto.
  - intros (spec & Hs & He) ->. clear Hrs.
    assert (∃ name path, declares w spec name path) as (name & path & Hd).
    { revert Hp Hs. generalize (∅ : gmap string string) at 1 as acc.
      induction raw_roots as [|x l IH]; intros acc Hp Hs; [by apply elem_of_nil in Hs|]. cbn in Hp.
      apply elem_of_cons in Hs as [<-|Hs].
      - rewrite He in Hp. destruct (parse_root_spec w spec) as [[n p]|] eqn:Hx; [|done].
        apply parse_root_spec_Ok in Hx; eauto.
      - destruct (is_empty_str x); [eauto|]. destruct (parse_root_spec w x) as [[n p]|]; [|done].
        case_bool_decide; [done|]. eauto. }
    pose proof (proj2 (parse_roots_Ok _ _ _ _ Hp name path)) as Hin. rewrite lookup_empty in Hin.
    discriminate Hin. right. eauto.
Qed.

End properties.

(** ** Witness *)

Lemma roots_are_the_declared_ones_witness :
  ∃ cfg, from_raw (H := toy_os) ["out=/data/out"; ""] None attachment_config_default toy_disk = (Ok cfg, toy_disk) ∧
    (has_roots cfg = true ↔ ∃ spec, spec ∈ ["out=/data/out"; ""] ∧ is_empty_str spec = false).
Proof.
  eexists. split; [vm_compute; reflexivity|].
  eapply (roots_are_the_declared_ones (H := toy_os) ["out=/data/out"; ""] None attachment_config_default toy_disk).
  vm_compute. reflexivity.
Defined.
