(* ===== verification/Validate.v ===== *)
(** * Request validation

    Model of [src/attachments/validate.rs]: the rules a [SendAttachmentsRequest]
    has to pass before any file is ingested. *)

From S2P Require Import Prelude Paths AttachConfig.

(** ** Wire types (generated from proto/sidecar.proto) *)

Record FileSpec := mkFileSpec {
  fs_root_name : string;
  fs_relative_path : string;
  fs_size_bytes : Z;
  fs_sha256 : bytes;
  fs_content_type : option string;
  fs_display_name : option string;
}.

Inductive Scope :=
| ScopeAllNodes
| ScopeNodeList (node_ids : list string)
| ScopeFormation
| ScopeCapable.

(** [DistributionScopeSpec]: a oneof that may be unset. *)
Record DistributionScopeSpec := mkScopeSpec { spec_scope : option Scope }.

Inductive AttachmentPriority :=
| PRIORITY_UNSPECIFIED | PRIORITY_BULK | PRIORITY_LOW | PRIORITY_ROUTINE | PRIORITY_PRIORITY | PRIORITY_CRITICAL.

(** [priority] is an open enum: [None] is a number this version does not know. *)
Record SendAttachmentsRequest := mkSendRequest {
  req_files : list FileSpec;
  req_scope : option DistributionScopeSpec;
  req_bundle_id : option string;
  req_priority : option AttachmentPriority;
}.

(** ** Validated request *)

Inductive ValidatedScope := AllNodes | NodeList (ids : list string).

Record ValidatedFile := mkValidatedFile {
  file_index : nat;
  absolute_path : string;
  root_name : string;
  relative_path : string;
  size_bytes : Z;
  sha256 : vec byte 32;
  content_type : option string;
  display_name : option string;
}.

Record ValidatedBundle := mkValidatedBundle {
  vb_files : list ValidatedFile;
  vb_scope : ValidatedScope;
  vb_bundle_id : option string;
}.

Definition invalid_argument {A} (field : string) : result ConnectError A := Err (mkConnectError InvalidArgument field).
Definition resource_exhausted {A} (field : string) : result ConnectError A := Err (mkConnectError ResourceExhausted field).
Definition failed_precondition {A} (field : string) : result ConnectError A :=
  Err (mkConnectError FailedPrecondition field).

Definition validate_scope (scope : option DistributionScopeSpec) (cfg : AttachmentConfig)
  : result ConnectError ValidatedScope :=
  match scope with
  | None => invalid_argument "scope"
  | Some spec =>
      match spec_scope spec with
      | None => invalid_argument "scope"
      | Some ScopeAllNodes => Ok AllNodes
      | Some (ScopeNodeList node_ids) =>
          if bool_decide (node_ids = []) then invalid_argument "scope.node_list.node_ids"
          else if max_node_list_len cfg <? Z.of_nat (length node_ids)
          then resource_exhausted "scope.node_list.node_ids"
          else Ok (NodeList node_ids)
      | Some ScopeFormation => failed_precondition "scope.formation"
      | Some ScopeCapable => failed_precondition "scope.capable"
      end
  end.

(** The loop over [rel.components()]: the first offending component decides. *)
Fixpoint check_components (l : list Component) : option Component :=
  match l with
  | [] => None
  | (ParentDir as c) :: _ | (RootDir as c) :: _ => Some c
  | CurDir :: l' | Normal _ :: l' => check_components l'
  end.

(** [try_fold(0u64, checked_add)] over the declared sizes. *)
Fixpoint total_bytes (acc : Z) (files : list FileSpec) : option Z :=
  match files with
  | [] => Some acc
  | f :: rest => acc' ← checked_add_u64 acc (fs_size_bytes f); total_bytes acc' rest
  end.

Section validate.
Context `{Os W}.

Definition validate_file (w : W) (index : nat) (f : FileSpec) (cfg : AttachmentConfig)
  : result ConnectError ValidatedFile :=
  let field_path := file_field index in
  match try_into_array 32 (fs_sha256 f) with
  | None => invalid_argument (field_path "sha256")
  | Some sha =>
      match lookup_root cfg (fs_root_name f) with
      | None => invalid_argument (field_path "root_name")
      | Some root =>
          if is_empty_str (fs_relative_path f) then invalid_argument (field_path "relative_path")
          else if starts_with (fs_relative_path f) "/" then invalid_argument (field_path "relative_path")
          else
            match check_components (components (fs_relative_path f)) with
            | Some _ => invalid_argument (field_path "relative_path")
            | None =>
                match canonicalize w (path_join root (fs_relative_path f)) with
                | Err _ => invalid_argument (field_path "relative_path")
                | Ok canonical =>
                    if negb (path_starts_with canonical root) then invalid_argument (field_path "relative_path")
                    else
                      match metadata w canonical with
                      | Err _ => invalid_argument (field_path "relative_path")
                      | Ok m =>
                          if negb (is_file m) then invalid_argument (field_path "relative_path")
                          else if negb (md_len m =? fs_size_bytes f) then invalid_argument (field_path "size_bytes")
                          else if max_file_bytes cfg <? fs_size_bytes f
                          then resource_exhausted (field_path "size_bytes")
                          else
                            Ok (mkValidatedFile index canonical (fs_root_name f) (fs_relative_path f)
                                  (fs_size_bytes f) sha (fs_content_type f) (fs_display_name f))
                      end
                end
            end
      end
  end.

(** The [for (idx, raw) in req.files.iter().enumerate()] loop. *)
Fixpoint validate_files (w : W) (index : nat) (files : list FileSpec) (cfg : AttachmentConfig)
  : result ConnectError (list ValidatedFile) :=
  match files with
  | [] => Ok []
  | f :: rest =>
      let? v := validate_file w index f cfg in
      let? vs := validate_files w (S index) rest cfg in
      Ok (v :: vs)
  end.

Definition validate_request (w : W) (req : SendAttachmentsRequest) (cfg : AttachmentConfig)
  : result ConnectError ValidatedBundle :=
  if bool_decide (req_files req = []) then invalid_argument "files"
  else if max_files_per_bundle cfg <? Z.of_nat (length (req_files req)) then resource_exhausted "files"
  else
    match total_bytes 0 (req_files req) with
    | None => resource_exhausted "files"
    | Some total =>
        if max_bundle_bytes cfg <? total then resource_exhausted "files"
        else
          let? scope := validate_scope (req_scope req) cfg in
          let? files := validate_files w 0 (req_files req) cfg in
          Ok (mkValidatedBundle files scope (req_bundle_id req))
    end.

(** ** Specification: the rules, and the file they admit *)

(** Rules 3-9 for one file, admitted at [path] inside [root]. *)
Definition file_admitted (w : W) (cfg : AttachmentConfig) (f : FileSpec) (v : ValidatedFile) : Prop :=
  ∃ root m,
    lookup_root cfg (fs_root_name f) = Some root ∧
    vec_to_list (sha256 v) = fs_sha256 f ∧
    fs_relative_path f ≠ ""%string ∧ starts_with (fs_relative_path f) "/" = false ∧
    (∀ c, c ∈ components (fs_relative_path f) → c ≠ ParentDir ∧ c ≠ RootDir) ∧
    canonicalize w (path_join root (fs_relative_path f)) = Ok (absolute_path v) ∧
    (∃ below, components (absolute_path v) = components root ++ below) ∧
    metadata w (absolute_path v) = Ok m ∧ file_type m = RegularFile ∧
    md_len m = fs_size_bytes f ∧ fs_size_bytes f ≤ max_file_bytes cfg ∧
    root_name v = fs_root_name f ∧ relative_path v = fs_relative_path f ∧ size_bytes v = fs_size_bytes f ∧
    content_type v = fs_content_type f ∧ display_name v = fs_display_name f.

(** Rule 10 *)
Definition scope_admitted (cfg : AttachmentConfig) (scope : option DistributionScopeSpec) (v : ValidatedScope) : Prop :=
  match v with
  | AllNodes => scope = Some (mkScopeSpec (Some ScopeAllNodes))
  | NodeList ids => scope = Some (mkScopeSpec (Some (ScopeNodeList ids))) ∧ ids ≠ [] ∧
                    Z.of_nat (length ids) ≤ max_node_list_len cfg
  end.

Definition sum_sizes (files : list FileSpec) : Z := foldr (λ f n, fs_size_bytes f + n) 0 files.

(** ** Lemmas *)

Lemma check_components_None l :
  check_components l = None ↔ ∀ c, c ∈ l → c ≠ ParentDir ∧ c ≠ RootDir.
Proof.
  induction l as [|c l IH]; cbn.
  - split; [by intros _ c ?%elem_of_nil|done].
  - destruct c; (split; [try done|intros Hall; try by destruct (Hall _ (list_elem_of_here _ _))]).
    + intros Hn c [->|Hc]%elem_of_cons; [done|]. by apply IH.
    + apply IH. intros c Hc. apply Hall. by right.
    + intros Hn c [->|Hc]%elem_of_cons; [done|]. by apply IH.
    + apply IH. intros c Hc. apply Hall. by right.
Qed.

Lemma sum_sizes_nonneg files : Forall (λ f, is_u64 (fs_size_bytes f)) files → 0 ≤ sum_sizes files.
Proof.
  unfold sum_sizes. induction 1 as [|f files [Hlo _] _ IH]; cbn; [lia|].
  apply Z.add_nonneg_nonneg; done.
Qed.

Lemma total_bytes_Some acc files :
  Forall (λ f, is_u64 (fs_size_bytes f)) files → is_u64 acc →
  total_bytes acc files = if acc + sum_sizes files <=? U64_MAX then Some (acc + sum_sizes files) else None.
Proof.
  intros Hf. revert acc. induction Hf as [|f files Hu Hf IH]; intros acc Ha; cbn.
  - rewrite Z.add_0_r. destruct (Z.leb_spec acc U64_MAX); [done|]. destruct Ha. lia.
  - pose proof (sum_sizes_nonneg _ Hf) as Hpos. fold (sum_sizes files).
    unfold checked_add_u64. destruct (Z.leb_spec (acc + fs_size_bytes f) U64_MAX); cbn.
    + rewrite IH by (split; destruct Ha, Hu; lia). by rewrite Z.add_assoc.
    + destruct (Z.leb_spec (acc + (fs_size_bytes f + sum_sizes files)) U64_MAX); [lia|done].
Qed.

Lemma validate_scope_Ok scope cfg v : validate_scope scope cfg = Ok v ↔ scope_admitted cfg scope v.
Proof.
  unfold validate_scope, scope_admitted, invalid_argument, resource_exhausted, failed_precondition.
  split.
  - intros Hv. destruct scope as [[[s|]]|]; [|done..]. destruct s; cbn in Hv; simplify_eq; try done.
    case_bool_decide; [done|]. destruct (Z.ltb_spec (max_node_list_len cfg) (Z.of_nat (length node_ids))); [done|].
    by simplify_eq.
  - destruct v as [|ids]; [by intros ->|]. intros (-> & Hne & Hle). cbn.
    rewrite bool_decide_false by done. by rewrite (proj2 (Z.ltb_ge _ _)).
Qed.

Lemma validate_file_Ok w index f cfg v :
  validate_file w index f cfg = Ok v ↔ file_index v = index ∧ file_admitted w cfg f v.
Proof.
  unfold validate_file, file_admitted, invalid_argument, resource_exhausted. split.
  - intros Hv. destruct (try_into_array 32 (fs_sha256 f)) as [sha|] eqn:Hsha; [|done].
    destruct (lookup_root cfg (fs_root_name f)) as [root|] eqn:Hroot; [|done].
    destruct (is_empty_str (fs_relative_path f)) eqn:He; [done|].
    destruct (starts_with (fs_relative_path f) "/") eqn:Hs; [done|].
    destruct (check_components _) eqn:Hc; [done|].
    destruct (canonicalize w _) as [path|] eqn:Hcan; [|done].
    destruct (path_starts_with path root) eqn:Hd; cbn [negb] in Hv; [|done].
    destruct (metadata w path) as [m|] eqn:Hm; [|done].
    destruct (is_file m) eqn:Hf; cbn [negb] in Hv; [|done].
    destruct (Z.eqb_spec (md_len m) (fs_size_bytes f)) as [Hlen|]; cbn [negb] in Hv; [|done].
    destruct (Z.ltb_spec (max_file_bytes cfg) (fs_size_bytes f)); [done|]. simplify_eq. cbn.
    split; [done|]. exists root, m. unfold is_file in Hf. to_prop.
    split_and!; try done; [by eapply try_into_array_length|by intros E; rewrite E in He|
      by apply check_components_None|by apply path_starts_with_spec].
  - intros (Hi & root & m & Hroot & Hsha & Hne & Hs & Hc & Hcan & Hd & Hm & Hf & Hlen & Hle & ? & ? & ? & ? & ?).
    destruct v as [i path rn rp sz sha ct dn]; cbn -[try_into_array components check_components] in *; subst. rewrite <-Hsha, try_into_array_vec, Hroot.
    destruct (fs_relative_path f) as [|a rel] eqn:Hrel; [done|]. cbn [is_empty_str]. rewrite Hs.
    rewrite (proj2 (check_components_None _)), Hcan by done.
    rewrite (proj2 (path_starts_with_spec _ _)) by done. cbn [negb]. rewrite Hm.
    unfold is_file. rewrite bool_decide_true by done. cbn [negb]. rewrite Hlen, Z.eqb_refl. cbn [negb].
    rewrite (proj2 (Z.ltb_ge _ _)) by lia. done.
Qed.

Lemma validate_files_Ok w index files cfg vs :
  validate_files w index files cfg = Ok vs ↔
  Forall2 (file_admitted w cfg) files vs ∧ (∀ i v, vs !! i = Some v → file_index v = (index + i)%nat).
Proof.
  revert index vs. induction files as [|f files IH]; intros index vs; cbn.
  - split; [intros ?; simplify_eq; split; [constructor|by intros i v]|].
    intros [Hf _]. by inversion Hf.
  - split.
    + destruct (validate_file w index f cfg) as [v|] eqn:Hv; [|done].
      destruct (validate_files w (S index) files cfg) as [vs'|] eqn:Hvs; [|done]. intros ?; simplify_eq.
      apply validate_file_Ok in Hv as [Hi Ha]. apply IH in Hvs as [Hfs Hidx].
      split; [by constructor|]. intros [|i] v' Hv'; cbn in Hv'; simplify_eq; [lia|].
      rewrite (Hidx i v' Hv'). lia.
    + intros [Hf Hidx]. inversion Hf as [|? v ? vs' Ha Hfs]; subst.
      rewrite (proj2 (validate_file_Ok w index f cfg v)); [|split; [|done]].
      * rewrite (proj2 (IH (S index) vs')); [done|]. split; [done|]. intros i v' Hv'.
        rewrite (Hidx (S i) v' Hv'). lia.
      * rewrite (Hidx O v eq_refl). lia.
Qed.

End validate.

Section properties.
Context `{Os W}.

(** Validation is exactly the rule list: a request is accepted with result
    [b] iff it has between 1 and the configured number of files, their declared
    sizes add up (without u64 overflow) to at most the bundle limit, the scope is
    AllNodes or a non-empty bounded node list, and every file of [b], in the
    request's order and with its index, is a regular file of the declared size,
    within the file limit, whose canonical path lies below the canonical
    path of its allowlisted root. *)
Theorem validate_request_exact w req cfg b :
  Forall (λ f, is_u64 (fs_size_bytes f)) (req_files req) → max_bundle_bytes cfg ≤ U64_MAX →
  validate_request w req cfg = Ok b ↔
  1 ≤ Z.of_nat (length (req_files req)) ≤ max_files_per_bundle cfg ∧
  sum_sizes (req_files req) ≤ max_bundle_bytes cfg ∧
  scope_admitted cfg (req_scope req) (vb_scope b) ∧
  Forall2 (file_admitted w cfg) (req_files req) (vb_files b) ∧
  (∀ i v, vb_files b !! i = Some v → file_index v = i) ∧
  vb_bundle_id b = req_bundle_id req.
Proof.
  intros Hu Hmax. unfold validate_request, invalid_argument, resource_exhausted.
  rewrite total_bytes_Some by (done || (unfold is_u64, U64_MAX; lia)). rewrite Z.add_0_l.
  split.
  - case_bool_decide as Hnil; [done|].
    destruct (Z.ltb_spec (max_files_per_bundle cfg) (Z.of_nat (length (req_files req)))); [done|].
    destruct (Z.leb_spec (sum_sizes (req_files req)) U64_MAX); [|done].
    destruct (Z.ltb_spec (max_bundle_bytes cfg) (sum_sizes (req_files req))); [done|].
    destruct (validate_scope _ _) as [s|] eqn:Hs; [|done]. apply validate_scope_Ok in Hs.
    destruct (validate_files _ _ _ _) as [vs|] eqn:Hvs; [|done]. apply validate_files_Ok in Hvs as [Hf Hi].
    intros ?; simplify_eq. cbn [vb_files vb_scope vb_bundle_id].
    assert (length (req_files req) ≠ O) by (by intros ?%nil_length_inv).
    split_and!; (done || lia).
  - intros ([Hlo Hhi] & Hsum & Hs & Hf & Hi & Hid).
    rewrite bool_decide_false by (intros E; rewrite E in Hlo; cbn in Hlo; lia).
    rewrite (proj2 (Z.ltb_ge _ _)) by lia. rewrite (proj2 (Z.leb_le _ _)) by lia.
    rewrite (proj2 (Z.ltb_ge _ _)) by lia. rewrite (proj2 (validate_scope_Ok _ _ _) Hs).
    rewrite (proj2 (validate_files_Ok w 0 _ cfg (vb_files b)) (conj Hf Hi)).
    destruct b. cbn in *. by subst.
Qed.

End properties.

(** ** Witness *)

Definition toy_config : AttachmentConfig :=
  match (from_raw (H := toy_os) ["out=/data/out"] None attachment_config_default toy_disk).1 with
  | Ok cfg => cfg | Err _ => attachment_config_default
  end.

Definition toy_request : SendAttachmentsRequest :=
  mkSendRequest [mkFileSpec "out" "a.txt" 5 (replicate 32 Byte.x00) None None]
    (Some (mkScopeSpec (Some ScopeAllNodes))) (Some "bundle"%string) None.

Lemma validate_request_exact_witness :
  ∃ b, validate_request (H := toy_os) toy_disk toy_request toy_config = Ok b ∧
    sum_sizes (req_files toy_request) ≤ max_bundle_bytes toy_config.
Proof.
  destruct (validate_request (H := toy_os) toy_disk toy_request toy_config) as [b|] eqn:Hv;
    [|vm_compute in Hv; discriminate].
  exists b. split; [reflexivity|].
  apply (validate_request_exact (H := toy_os) toy_disk toy_request toy_config b); [| |exact Hv].
  - repeat constructor; vm_compute; discriminate.
  - vm_compute. discriminate.
Defined.
