(* ===== verification/Ingest.v ===== *)
(** * Ingest

    Model of [src/attachments/ingest.rs]: streaming every validated file into
    the content-addressed blob store with a hash check, starting one
    distribution per file, and rolling back on failure. The blob store and the
    distribution service belong to peat-mesh and peat-protocol: they are the
    interfaces [BlobStore] and [FileDistribution], the first with the laws the
    code relies on. *)

From S2P Require Import Prelude Journal Paths AttachConfig Validate.

Record BlobToken := mkBlobToken { bt_hash : string; bt_size_bytes : Z }.

Record BlobMetadata := mkBlobMetadata { bm_name : option string; bm_content_type : option string }.

(** The only field of a [DistributionHandle] this code looks at. *)
Record DistributionHandle := mkDistributionHandle { dh_distribution_id : string }.

Inductive TransferPriority := TpCritical | TpHigh | TpNormal | TpLow.

Inductive DistributionScope := ScopeAll | ScopeNodes (node_ids : list string).

(** Errors of the two services carry no data the code branches on. *)
Inductive ServiceError := service_error.

(** peat-mesh's [BlobStore]: the state [B], its local blobs by hash, creation
    from a stream (given as the bytes the reader delivers) and deletion. *)
Class BlobStore (B : Type) := {
  blob_hash : bytes → string;
  list_local_blobs : B → gset string;
  create_blob_from_stream : bytes → option Z → BlobMetadata → B → result ServiceError BlobToken * B;
  delete_blob : string → B → result ServiceError unit * B;
}.

(** What the rollback relies on: content addressing, a failed call leaves the
    set of blobs alone, a deletion removes the one blob it names. *)
Class BlobStoreLaws (B : Type) `{BlobStore B} := {
  create_ok : ∀ c n m b t b', create_blob_from_stream c n m b = (Ok t, b') →
    bt_hash t = blob_hash c ∧ list_local_blobs b' = list_local_blobs b ∪ {[blob_hash c]};
  create_err : ∀ c n m b e b', create_blob_from_stream c n m b = (Err e, b') →
    list_local_blobs b' = list_local_blobs b;
  delete_ok : ∀ h b u b', delete_blob h b = (Ok u, b') → list_local_blobs b' = list_local_blobs b ∖ {[h]};
  delete_err : ∀ h b e b', delete_blob h b = (Err e, b') → list_local_blobs b' = list_local_blobs b;
}.

(** peat-protocol's [FileDistribution]. *)
Class FileDistribution (D : Type) := {
  distribute : BlobToken → DistributionScope → TransferPriority → D → result ServiceError DistributionHandle * D;
}.

Record IngestedBlob := mkIngestedBlob {
  ib_file_index : nat;
  ib_blob_token : BlobToken;
  ib_distribution_handle : DistributionHandle;
}.

Definition scope_to_protocol (scope : ValidatedScope) : DistributionScope :=
  match scope with
  | AllNodes => ScopeAll
  | NodeList node_ids => ScopeNodes node_ids
  end.

Definition build_blob_metadata (file : ValidatedFile) : BlobMetadata :=
  mkBlobMetadata (match display_name file with Some n => Some n | None => Some (relative_path file) end)
    (content_type file).

(** ** The tee reader

    Each [poll_read] delivers a chunk; a non-empty one is also fed to the
    hasher. The pair is (bytes delivered, bytes hashed). *)
Definition tee_poll_read (s : bytes * bytes) (chunk : bytes) : bytes * bytes :=
  (s.1 ++ chunk, match chunk with [] => s.2 | _ => s.2 ++ chunk end).

Definition tee_read (chunks : list bytes) : bytes * bytes := foldl tee_poll_read ([], []) chunks.

Section rollback.
Context `{BlobStore B}.

(** [rollback] *)
Fixpoint rollback (created : list BlobToken) (pre_existing : gset string) (store : B) : B :=
  match created with
  | [] => store
  | token :: rest =>
      if bool_decide (bt_hash token ∈ pre_existing) then rollback rest pre_existing store
      else rollback rest pre_existing (delete_blob (bt_hash token) store).2
  end.

End rollback.

Section ingest.
Context {sha : Sha256} `{BlobStore B} `{FileDistribution D}.

(** What [open_nofollow] and reading a path yield: the chunks of the file, or
    an error (the final component is a symbolic link, gone, unreadable). *)
Variable open_nofollow : string → result IoError (list bytes).

Definition ingest_file (file : ValidatedFile) (store : B) : result ConnectError BlobToken * B :=
  match open_nofollow (absolute_path file) with
  | Err _ => (Err (mkConnectError InvalidArgument (file_field (file_index file) "")), store)
  | Ok chunks =>
      let '(delivered, hashed) := tee_read chunks in
      match create_blob_from_stream delivered (Some (size_bytes file)) (build_blob_metadata file) store with
      | (Err _, store1) => (Err (mkConnectError Internal (file_field (file_index file) "")), store1)
      | (Ok token, store1) =>
          if bool_decide (Journal.sha256 hashed = Validate.sha256 file) then (Ok token, store1)
          else (Err (mkConnectError InvalidArgument (file_field (file_index file) "sha256")),
                (delete_blob (bt_hash token) store1).2)
      end
  end.

(** Phase 1 of [ingest_bundle]; the tokens come back in order. *)
Fixpoint ingest_files (files : list ValidatedFile) (created : list BlobToken) (pre_existing : gset string) (store : B)
  : result ConnectError (list BlobToken) * B :=
  match files with
  | [] => (Ok created, store)
  | file :: rest =>
      match ingest_file file store with
      | (Ok token, store1) => ingest_files rest (created ++ [token]) pre_existing store1
      | (Err e, store1) => (Err e, rollback created pre_existing store1)
      end
  end.

(** Phase 2: [tokens] are the remaining ones, [created] all of them. *)
Fixpoint distribute_files (files : list ValidatedFile) (tokens created : list BlobToken) (pre_existing : gset string)
    (scope : DistributionScope) (priority : TransferPriority) (handles : list IngestedBlob) (store : B) (dist : D)
  : result ConnectError (list IngestedBlob) * B * D :=
  match files, tokens with
  | file :: files', token :: tokens' =>
      match distribute token scope priority dist with
      | (Ok h, dist1) =>
          distribute_files files' tokens' created pre_existing scope priority
            (handles ++ [mkIngestedBlob (file_index file) token h]) store dist1
      | (Err _, dist1) =>
          (Err (mkConnectError Internal (file_field (file_index file) "")),
           rollback created pre_existing store, dist1)
      end
  | _, _ => (Ok handles, store, dist)
  end.

Definition ingest_bundle (validated : ValidatedBundle) (priority : TransferPriority) (store : B) (dist : D)
  : result ConnectError (list IngestedBlob) * B * D :=
  let pre_existing := list_local_blobs store in
  let scope := scope_to_protocol (vb_scope validated) in
  match ingest_files (vb_files validated) [] pre_existing store with
  | (Err e, store1) => (Err e, store1, dist)
  | (Ok created, store1) =>
      distribute_files (vb_files validated) created created pre_existing scope priority [] store1 dist
  end.

(** ** Specification *)

(** The content a file has when it is opened. *)
Definition content_of (file : ValidatedFile) (c : bytes) : Prop :=
  ∃ chunks, open_nofollow (absolute_path file) = Ok chunks ∧ c = mjoin chunks.

(** Hashes of contents that do not match their declared SHA-256. *)
Definition mismatched (files : list ValidatedFile) (h : string) : Prop :=
  ∃ file c, file ∈ files ∧ content_of file c ∧ Journal.sha256 c ≠ Validate.sha256 file ∧ h = blob_hash c.

(** A file ingested as [token]. *)
Definition ingested_as (file : ValidatedFile) (token : BlobToken) : Prop :=
  ∃ c, content_of file c ∧ Journal.sha256 c = Validate.sha256 file ∧ bt_hash token = blob_hash c.

End ingest.

(** ** Lemmas *)

Lemma tee_read_both chunks : tee_read chunks = (mjoin chunks, mjoin chunks).
Proof.
  unfold tee_read. change (mjoin chunks) with (([] : bytes) ++ mjoin chunks).
  generalize ([] : bytes) as s. induction chunks as [|c chunks IH]; intros s; cbn.
  - by rewrite app_nil_r.
  - unfold tee_poll_read at 2. cbn. replace (match c with [] => s | _ => s ++ c end) with (s ++ c)
      by (destruct c; [by rewrite app_nil_r|done]).
    rewrite IH, <-app_assoc. done.
Qed.

Section rollback_facts.
Context `{BlobStoreLaws B}.

Lemma delete_blob_local h b :
  list_local_blobs (delete_blob h b).2 = list_local_blobs b ∖ {[h]} ∨
  is_ok (delete_blob h b).1 = false ∧ list_local_blobs (delete_blob h b).2 = list_local_blobs b.
Proof.
  destruct (delete_blob h b) as [[u|e] b'] eqn:Hd; cbn; [left; by eapply delete_ok|right].
  split; [done|]. by eapply delete_err.
Qed.

(** Rolling back keeps what was there before and, when deletions work, removes
    every new token. *)
Lemma rollback_local created pre store :
  list_local_blobs store ∩ pre ⊆ list_local_blobs (rollback created pre store) ∧
  list_local_blobs (rollback created pre store) ⊆ list_local_blobs store ∧
  ((∀ h b, is_ok (delete_blob h b).1 = true) →
   ∀ t, t ∈ created → bt_hash t ∉ pre → bt_hash t ∉ list_local_blobs (rollback created pre store)).
Proof.
  revert store. induction created as [|t created IH]; intros store; cbn.
  - split_and!; [set_solver|set_solver|]. by intros _ t ?%elem_of_nil.
  - case_bool_decide as Hpre.
    + destruct (IH store) as (H1 & H2 & H3). split_and!; [done..|].
      intros Hdel t' [->|Ht']%elem_of_cons Hn; [done|]. by apply H3.
    + destruct (IH (delete_blob (bt_hash t) store).2) as (H1 & H2 & H3).
      assert (list_local_blobs (delete_blob (bt_hash t) store).2 ⊆ list_local_blobs store) as Hsub.
      { destruct (delete_blob_local (bt_hash t) store) as [->|[_ ->]]; set_solver. }
      split_and!; [|set_solver|].
      * destruct (delete_blob_local (bt_hash t) store) as [Hd|[_ Hd]]; rewrite Hd in H1; set_solver.
      * intros Hdel t' [->|Ht']%elem_of_cons Hn; [|by apply H3].
        destruct (delete_blob_local (bt_hash t) store) as [Hd|[Hd _]]; [|by rewrite Hdel in Hd].
        set_solver.
Qed.

Lemma rollback_restores pre created store :
  pre ⊆ list_local_blobs store →
  list_local_blobs store ⊆ pre ∪ list_to_set (bt_hash <$> created) →
  pre ⊆ list_local_blobs (rollback created pre store) ∧
  ((∀ h b, is_ok (delete_blob h b).1 = true) → list_local_blobs (rollback created pre store) ⊆ pre).
Proof.
  intros Hlo Hhi. destruct (rollback_local created pre store) as (H1 & H2 & H3). split; [set_solver|].
  intros Hdel h Hh. destruct (decide (h ∈ pre)) as [|Hn]; [done|]. exfalso.
  assert (h ∈ list_to_set (C := gset string) (bt_hash <$> created)) as Ht by set_solver.
  apply elem_of_list_to_set, list_elem_of_fmap in Ht as (t & -> & Ht). by apply (H3 Hdel t).
Qed.

End rollback_facts.

Section ingest_facts.
Context {sha : Sha256} `{BlobStore B} `{!BlobStoreLaws B}.
Variable open_nofollow : string → result IoError (list bytes).

Lemma ingest_file_inv file store r store' :
  ingest_file open_nofollow file store = (r, store') →
  match r with
  | Ok t => ingested_as open_nofollow file t ∧ list_local_blobs store' = list_local_blobs store ∪ {[bt_hash t]}
  | Err _ =>
      (∀ h, h ∈ list_local_blobs store → ¬ mismatched open_nofollow [file] h → h ∈ list_local_blobs store') ∧
      ((∀ h b, is_ok (delete_blob h b).1 = true) → list_local_blobs store' ⊆ list_local_blobs store)
  end.
Proof.
  unfold ingest_file. destruct (open_nofollow (absolute_path file)) as [chunks|] eqn:Ho;
    [|intros ?; simplify_eq; done].
  rewrite tee_read_both.
  destruct (create_blob_from_stream _ _ _ store) as [[t|e] store1] eqn:Hc.
  - destruct (create_ok _ _ _ _ _ _ Hc) as [Hh Hl]. case_bool_decide as Hsha; intros ?; simplify_eq.
    + split; [|by rewrite Hh]. exists (mjoin chunks). split_and!; [by exists chunks|done|done].
    + assert (mismatched open_nofollow [file] (bt_hash t)) as Hm.
      { exists file, (mjoin chunks). split_and!; [by left|by exists chunks|done|done]. }
      rewrite <-Hh in Hl. destruct (delete_blob_local (bt_hash t) store1) as [Hd|[Hd Hd']].
      * rewrite Hd, Hl. split; [|set_solver]. intros h Hin Hnm.
        assert (h ≠ bt_hash t) by (by intros ->). set_solver.
      * rewrite Hd', Hl. split; [set_solver|]. intros Hdel. by rewrite Hdel in Hd.
  - apply create_err in Hc. intros ?; simplify_eq. rewrite Hc. done.
Qed.

(** The state of phase 1: the tokens of the files ingested so far. *)
Definition phase_inv (pre : gset string) (created : list BlobToken) (store : B) : Prop :=
  list_local_blobs store = pre ∪ list_to_set (bt_hash <$> created).

Lemma ingest_files_inv files created pre store r store' :
  phase_inv pre created store →
  ingest_files open_nofollow files created pre store = (r, store') →
  match r with
  | Ok tokens => ∃ new, tokens = created ++ new ∧ Forall2 (ingested_as open_nofollow) files new ∧ phase_inv pre tokens store'
  | Err _ =>
      (∀ h, h ∈ pre → ¬ mismatched open_nofollow files h → h ∈ list_local_blobs store') ∧
      ((∀ h b, is_ok (delete_blob h b).1 = true) → list_local_blobs store' ⊆ pre)
  end.
Proof.
  revert created store. induction files as [|file files IH]; intros created store Hinv Hrun; cbn in Hrun.
  - simplify_eq. exists []. by rewrite app_nil_r.
  - destruct (ingest_file open_nofollow file store) as [[t|e] store1] eqn:Hf; apply ingest_file_inv in Hf.
    + destruct Hf as [Hing Hl].
      assert (phase_inv pre (created ++ [t]) store1) as Hinv1.
      { unfold phase_inv in *. rewrite Hl, Hinv, fmap_app, list_to_set_app_L. set_solver. }
      specialize (IH _ _ Hinv1 Hrun). destruct r as [tokens|e].
      * destruct IH as (new & -> & Hnew & Hi). exists (t :: new). rewrite <-app_assoc. split_and!; [done| |].
        -- by constructor.
        -- by rewrite <-app_assoc in Hi.
      * destruct IH as [IH1 IH2]. split; [|done]. intros h Hh Hnm. apply IH1; [done|].
        intros (f & c & Hin & Hrest). apply Hnm. exists f, c. split; [by right|done].
    + destruct Hf as [Hkeep Hsub]. simplify_eq. unfold phase_inv in Hinv. split.
      * intros h Hh Hnm. destruct (rollback_local created pre store1) as (H1' & _ & _). apply H1'.
        apply elem_of_intersection. split; [|done]. apply Hkeep; [rewrite Hinv; set_solver|].
        intros (f & c & Hin%list_elem_of_singleton & Hrest). subst f. apply Hnm. exists file, c. split; [by left|done].
      * intros Hdel. specialize (Hsub Hdel).
        destruct (rollback_local created pre store1) as (_ & H2' & H3'). specialize (H3' Hdel).
        intros h Hh. destruct (decide (h ∈ pre)) as [|Hn]; [done|]. exfalso.
        assert (h ∈ list_to_set (C := gset string) (bt_hash <$> created)) as Ht by set_solver.
        apply elem_of_list_to_set, list_elem_of_fmap in Ht as (t & -> & Ht). by apply (H3' t).
Qed.

End ingest_facts.

Section distribute_facts.
Context `{BlobStore B} `{FileDistribution D}.

Lemma distribute_files_inv files tokens created pre scope priority handles store dist r store' dist' :
  length tokens = length files →
  distribute_files files tokens created pre scope priority handles store dist = (r, store', dist') →
  match r with
  | Ok hs => store' = store ∧ ∃ new, hs = handles ++ new ∧
      Forall2 (λ ft h, ib_file_index h = file_index ft.1 ∧ ib_blob_token h = ft.2) (zip files tokens) new
  | Err _ => store' = rollback created pre store
  end.
Proof.
  revert tokens handles dist. induction files as [|f files IH]; intros [|t tokens] handles dist Hlen Hrun; try done.
  - cbn in Hrun. simplify_eq. split; [done|]. exists []. rewrite app_nil_r. split; [done|constructor].
  - cbn in Hrun. destruct (distribute t scope priority dist) as [[h|e] dist1]; [|by simplify_eq].
    apply IH in Hrun; [|by simplify_eq/=]. destruct r as [hs|e]; [|done].
    destruct Hrun as (-> & new & -> & Hnew). split; [done|]. eexists (_ :: new).
    rewrite <-app_assoc. split; [done|]. cbn. by constructor.
Qed.

End distribute_facts.

Section properties.
Context {sha : Sha256} `{BlobStore B} `{!BlobStoreLaws B} `{FileDistribution D}.
Variable open_nofollow : string → result IoError (list bytes).

(** A successful ingest is exactly the request: one handle per file in order
    with the file's index, each token addressing content whose streamed SHA-256 is
    the declared one, all of it in the store, and nothing else added or removed. *)
Theorem ingest_ok_exact validated priority store dist handles store' dist' :
  ingest_bundle open_nofollow validated priority store dist = (Ok handles, store', dist') →
  Forall2 (λ f h, ib_file_index h = file_index f ∧ ingested_as open_nofollow f (ib_blob_token h))
    (vb_files validated) handles ∧
  list_local_blobs store' = list_local_blobs store ∪ list_to_set ((λ h, bt_hash (ib_blob_token h)) <$> handles).
Proof.
  unfold ingest_bundle. destruct (ingest_files _ _ _ _ store) as [[tokens|e] store1] eqn:Hi; [|done].
  apply ingest_files_inv in Hi as (new & -> & Hnew & Hinv); [|unfold phase_inv; set_solver].
  cbn [app] in *. intros Hd. pose proof (Forall2_length _ _ _ Hnew) as Hlen.
  apply distribute_files_inv in Hd as (-> & hs & -> & Hhs); [|done]. cbn [app]. unfold phase_inv in Hinv.
  assert ((λ h, bt_hash (ib_blob_token h)) <$> hs = bt_hash <$> new) as ->.
  { clear -Hhs Hlen. revert new hs Hhs Hlen. induction (vb_files validated) as [|f fs IH];
      intros [|t ts] hs Hhs Hlen; inversion Hhs; simplify_eq/=; try done.
    destruct_and!. f_equal; [congruence|]. by apply IH. }
  split; [|done]. clear Hinv. revert hs Hhs.
  induction Hnew as [|f t fs ts Hft Hrest IH]; intros hs Hhs; inversion Hhs as [|? h ? hs' [Hidx Htok] Hhs']; subst.
  - constructor.
  - cbn [fst snd] in *. constructor; [|apply IH; [by simplify_eq/=|done]]. split; [done|]. by rewrite Htok.
Qed.

(** A failed ingest is rolled back: whatever step fails, every blob that
    was in the store before the request is still there, unless its content is that
    of a file of the request that does not match its declared hash; and when
    deletions succeed nothing the request created is left. *)
Theorem failed_ingest_rolls_back validated priority store dist e store' dist' :
  ingest_bundle open_nofollow validated priority store dist = (Err e, store', dist') →
  (∀ h, h ∈ list_local_blobs store → ¬ mismatched open_nofollow (vb_files validated) h →
     h ∈ list_local_blobs store') ∧
  ((∀ h b, is_ok (delete_blob h b).1 = true) → list_local_blobs store' ⊆ list_local_blobs store).
Proof.
  unfold ingest_bundle. destruct (ingest_files _ _ _ _ store) as [[tokens|e'] store1] eqn:Hi;
    (apply ingest_files_inv in Hi; [|unfold phase_inv; set_solver]).
  - destruct Hi as (new & -> & Hnew & Hinv). cbn [app] in *. intros Hd.
    apply distribute_files_inv in Hd; [|by apply Forall2_length in Hnew]. subst store'.
    unfold phase_inv in Hinv.
    destruct (rollback_restores (list_local_blobs store) new store1) as [Hlo Hhi]; [set_solver..|].
    split; [|done]. intros h Hh _. by apply Hlo.
  - intros ?; simplify_eq. done.
Qed.

(** A hash mismatch deletes content the store held before the request: when
    a file's content is already in the store but does not match the hash declared
    for it, ingesting it fails and the pre-existing blob is gone. *)
Theorem mismatch_deletes_pre_existing_blob file rest scope id priority store dist chunks :
  open_nofollow (absolute_path file) = Ok chunks →
  Journal.sha256 (mjoin chunks) ≠ Validate.sha256 file →
  blob_hash (mjoin chunks) ∈ list_local_blobs store →
  is_ok (create_blob_from_stream (mjoin chunks) (Some (size_bytes file)) (build_blob_metadata file) store).1 = true →
  (∀ h b, is_ok (delete_blob h b).1 = true) →
  let '(r, store', _) :=
    ingest_bundle open_nofollow (mkValidatedBundle (file :: rest) scope id) priority store dist in
  is_ok r = false ∧ blob_hash (mjoin chunks) ∉ list_local_blobs store'.
Proof.
  intros Ho Hsha Hin Hc Hdel. unfold ingest_bundle. cbn [vb_files vb_scope ingest_files].
  unfold ingest_file. rewrite Ho, tee_read_both.
  destruct (create_blob_from_stream _ _ _ store) as [[t|e] store1] eqn:Hcr; [|done].
  destruct (create_ok _ _ _ _ _ _ Hcr) as [Hh Hl]. rewrite bool_decide_false by done. cbn.
  split; [done|]. destruct (delete_blob_local (bt_hash t) store1) as [->|[Hd _]]; [|by rewrite Hdel in Hd].
  rewrite Hh. set_solver.
Qed.

End properties.

(** ** Witnesses *)

(** A blob store that is the set of its contents, and a counting distributor. *)
Definition toy_store : BlobStore (gset string) := {|
  blob_hash := String.string_of_list_byte;
  list_local_blobs b := b;
  create_blob_from_stream c n m b :=
    (Ok (mkBlobToken (String.string_of_list_byte c) (Z.of_nat (length c))), b ∪ {[String.string_of_list_byte c]});
  delete_blob h b := (Ok tt, b ∖ {[h]});
|}.

Lemma toy_store_laws : BlobStoreLaws (gset string) (H := toy_store).
Proof. split; cbn; intros; simplify_eq; done. Qed.

Definition toy_dist : FileDistribution (list string) := {|
  distribute t scope priority d :=
    if bool_decide (length d = 1)%nat then (Err service_error, d)
    else (Ok (mkDistributionHandle (bt_hash t)), bt_hash t :: d);
|}.

Definition toy_sha256 : Sha256 := λ l, vreplicate 32 (byte_of_Z (from_be_bytes l)).

Definition hello : bytes := str_bytes "hello".

Definition toy_open (path : string) : result IoError (list bytes) :=
  if bool_decide (path = "/data/out/a.txt"%string) then Ok [take 2 hello; []; drop 2 hello] else Err io_error.

Definition toy_file (sha : vec byte 32) : ValidatedFile :=
  mkValidatedFile 0 "/data/out/a.txt" "out" "a.txt" 5 sha None None.

Definition good_file : ValidatedFile := toy_file (toy_sha256 hello).

Lemma ingest_ok_exact_witness :
  let '(r, store', _) := ingest_bundle (sha := toy_sha256) (H := toy_store) (H0 := toy_dist) toy_open
    (mkValidatedBundle [good_file] AllNodes None) TpNormal ∅ [] in
  ∃ handles, r = Ok handles ∧ length handles = 1%nat ∧
    list_local_blobs (BlobStore := toy_store) store' =
    list_local_blobs (BlobStore := toy_store) ∅ ∪ list_to_set ((λ h, bt_hash (ib_blob_token h)) <$> handles).
Proof.
  destruct (ingest_bundle _ _ _ _ _) as [[r store'] dist'] eqn:Hrun.
  destruct r as [handles|e]; [|vm_compute in Hrun; discriminate].
  pose proof (ingest_ok_exact (sha := toy_sha256) (H := toy_store) (BlobStoreLaws0 := toy_store_laws) (H0 := toy_dist)
    toy_open _ _ _ _ _ _ _ Hrun) as [Hf Hl].
  exists handles. split; [reflexivity|]. split; [|exact Hl]. apply Forall2_length in Hf. symmetry. exact Hf.
Defined.

(** The second file's distribution fails: the new blob is rolled back. *)
Lemma failed_ingest_rolls_back_witness :
  let '(r, store', _) := ingest_bundle (sha := toy_sha256) (H := toy_store) (H0 := toy_dist) toy_open
    (mkValidatedBundle [good_file; good_file] AllNodes None) TpNormal ∅ [] in
  is_ok r = false ∧ list_local_blobs (BlobStore := toy_store) store' ⊆ ∅.
Proof.
  destruct (ingest_bundle _ _ _ _ _) as [[r store'] dist'] eqn:Hrun.
  destruct r as [handles|e]; [vm_compute in Hrun; discriminate|].
  split; [reflexivity|].
  apply (failed_ingest_rolls_back (sha := toy_sha256) (H := toy_store) (BlobStoreLaws0 := toy_store_laws)
    (H0 := toy_dist) toy_open _ _ _ _ _ _ _ Hrun). intros h b. reflexivity.
Defined.

Lemma mismatch_deletes_pre_existing_blob_witness :
  let '(r, store', _) := ingest_bundle (sha := toy_sha256) (H := toy_store) (H0 := toy_dist) toy_open
    (mkValidatedBundle [toy_file (vreplicate 32 Byte.xff)] AllNodes None) TpNormal {["hello"%string]} [] in
  is_ok r = false ∧ blob_hash (BlobStore := toy_store) (mjoin [take 2 hello; []; drop 2 hello])
    ∉ list_local_blobs (BlobStore := toy_store) store'.
Proof.
  apply (mismatch_deletes_pre_existing_blob (sha := toy_sha256) (H := toy_store) (BlobStoreLaws0 := toy_store_laws)
    (H0 := toy_dist) toy_open (toy_file (vreplicate 32 Byte.xff)) [] AllNodes None TpNormal {["hello"%string]} []
    [take 2 hello; []; drop 2 hello]).
  - reflexivity.
  - vm_compute. discriminate.
  - vm_compute. reflexivity.
  - reflexivity.
  - intros h b. reflexivity.
Defined.
