(* ===== verification/Registry.v ===== *)
(** * Bundle registry

    Model of [src/attachments/registry.rs]: the in-memory handle table behind
    bundle-id idempotency, with its reverse index, retention sweep and LRU
    eviction. [SystemTime::now()] is the argument [now] (seconds). A [HashMap]
    is iterated in the order of [map_to_list]; the theorems do not depend on it. *)

From S2P Require Import Prelude Validate Ingest.

Record FileIdentity := mkFileIdentity {
  fi_root_name : string;
  fi_relative_path : string;
  fi_size_bytes : Z;
  fi_sha256 : vec byte 32;
}.

#[global] Instance FileIdentity_eq_dec : EqDecision FileIdentity.
Proof. solve_decision. Defined.

Definition BundleIdentity : Type := list FileIdentity.

Definition file_identity_from_validated (file : ValidatedFile) : FileIdentity :=
  mkFileIdentity (root_name file) (relative_path file) (size_bytes file) (sha256 file).

Definition identity_from_validated (files : list ValidatedFile) : BundleIdentity :=
  file_identity_from_validated <$> files.

Record AttachmentHandleRecord := mkHandleRecord {
  hr_file_index : nat;
  hr_blob_token_hash : string;
  hr_distribution_handle : DistributionHandle;
  hr_content_type : option string;
  hr_display_name : option string;
}.

Definition distribution_id (h : AttachmentHandleRecord) : string :=
  dh_distribution_id (hr_distribution_handle h).

Inductive BundleStatus := Pending | InProgress | Completed | Partial | Failed | Cancelled.

#[global] Instance BundleStatus_eq_dec : EqDecision BundleStatus.
Proof. solve_decision. Defined.

Definition is_terminal (s : BundleStatus) : bool :=
  match s with Completed | Partial | Failed | Cancelled => true | _ => false end.

Definition allows_reuse_with_different_files (s : BundleStatus) : bool :=
  match s with Failed | Cancelled => true | _ => false end.

Record BundleRecord := mkBundleRecord {
  bundle_id : string;
  identity : BundleIdentity;
  handles : list AttachmentHandleRecord;
  status : BundleStatus;
  created_at : Z;
  last_touched_at : Z;
}.

Definition bundle_record_new (now : Z) (id : string) (ident : BundleIdentity) (hs : list AttachmentHandleRecord) : BundleRecord :=
  mkBundleRecord id ident hs Pending now now.

Definition touch (now : Z) (r : BundleRecord) : BundleRecord :=
  mkBundleRecord (bundle_id r) (identity r) (handles r) (status r) (created_at r) now.

Definition set_status (now : Z) (s : BundleStatus) (r : BundleRecord) : BundleRecord :=
  mkBundleRecord (bundle_id r) (identity r) (handles r) s (created_at r) now.

Inductive BundleLookup :=
| Idempotent (r : BundleRecord)
| Conflict (created_at : Z)
| NotFound.

Record RegistryConfig := mkRegistryConfig { rc_handle_retention_secs : Z; rc_max_known_bundles : Z }.

Record RegistryInner := mkRegistryInner {
  bundles : gmap string BundleRecord;
  distribution_index : gmap string string;
}.

Definition registry_new : RegistryInner := mkRegistryInner ∅ ∅.

Definition distribution_ids (r : BundleRecord) : list string := distribution_id <$> handles r.

(** [drop_record_indexes_only] *)
Definition drop_record_indexes_only (rec : BundleRecord) (inner : RegistryInner) : RegistryInner :=
  mkRegistryInner (bundles inner) (foldl (λ idx d, delete d idx) (distribution_index inner) (distribution_ids rec)).

(** [drop_record] *)
Definition drop_record (rec : BundleRecord) (inner : RegistryInner) : RegistryInner :=
  drop_record_indexes_only rec (mkRegistryInner (delete (bundle_id rec) (bundles inner)) (distribution_index inner)).

(** [values().min_by_key(|r| r.last_touched_at)] *)
Definition least_recent (inner : RegistryInner) : option BundleRecord :=
  match (map_to_list (bundles inner)).*2 with
  | [] => None
  | r :: rest => Some (foldl (λ best x, if last_touched_at x <? last_touched_at best then x else best) r rest)
  end.

Definition evict_lru (inner : RegistryInner) : RegistryInner :=
  match least_recent inner with Some rec => drop_record rec inner | None => inner end.

(** Phase 1 of [check_resubmit], under the read lock: [None] falls through. *)
Definition check_resubmit_probe (id : string) (ident : BundleIdentity) (inner : RegistryInner) : option BundleLookup :=
  match bundles inner !! id with
  | None => Some NotFound
  | Some existing =>
      if negb (allows_reuse_with_different_files (status existing)) && negb (bool_decide (identity existing = ident))
      then Some (Conflict (created_at existing))
      else None
  end.

(** Phase 2, under the write lock. *)
Definition check_resubmit_commit (now : Z) (id : string) (ident : BundleIdentity) (inner : RegistryInner)
  : BundleLookup * RegistryInner :=
  match bundles inner !! id with
  | None => (NotFound, inner)
  | Some existing =>
      if allows_reuse_with_different_files (status existing) then (NotFound, drop_record existing inner)
      else if bool_decide (identity existing = ident) then
        let rec := touch now existing in
        (Idempotent rec,
         mkRegistryInner (alter (λ live, touch now live) id (bundles inner)) (distribution_index inner))
      else (Conflict (created_at existing), inner)
  end.

(** Both phases with nobody in between. *)
Definition check_resubmit (now : Z) (id : string) (ident : BundleIdentity) (inner : RegistryInner)
  : BundleLookup * RegistryInner :=
  match check_resubmit_probe id ident inner with
  | Some r => (r, inner)
  | None => check_resubmit_commit now id ident inner
  end.

Definition insert (cfg : RegistryConfig) (record : BundleRecord) (inner : RegistryInner) : RegistryInner :=
  let inner1 :=
    match bundles inner !! bundle_id record with
    | Some prior =>
        drop_record_indexes_only prior
          (mkRegistryInner (delete (bundle_id record) (bundles inner)) (distribution_index inner))
    | None => inner
    end in
  let cap := rc_max_known_bundles cfg in
  let inner2 := if (0 <? cap) && (cap <=? Z.of_nat (size (bundles inner1))) then evict_lru inner1 else inner1 in
  mkRegistryInner (<[bundle_id record := record]> (bundles inner2))
    (foldl (λ idx d, <[d := bundle_id record]> idx) (distribution_index inner2) (distribution_ids record)).

Definition registry_get (now : Z) (id : string) (inner : RegistryInner) : option BundleRecord * RegistryInner :=
  match bundles inner !! id with
  | Some rec =>
      (Some (touch now rec), mkRegistryInner (<[id := touch now rec]> (bundles inner)) (distribution_index inner))
  | None => (None, inner)
  end.

Definition lookup_distribution (d : string) (inner : RegistryInner) : option (string * BundleRecord) :=
  id ← distribution_index inner !! d;
  record ← bundles inner !! id;
  Some (id, record).

Definition update_status (now : Z) (id : string) (s : BundleStatus) (inner : RegistryInner) : RegistryInner :=
  mkRegistryInner (alter (set_status now s) id (bundles inner)) (distribution_index inner).

Definition expired (cfg : RegistryConfig) (now : Z) (r : BundleRecord) : bool :=
  is_terminal (status r) && (last_touched_at r <? now - rc_handle_retention_secs cfg).

Definition evict_expired (cfg : RegistryConfig) (now : Z) (inner : RegistryInner) : RegistryInner :=
  if rc_handle_retention_secs cfg =? 0 then inner
  else
    let to_drop := List.filter (expired cfg now) (map_to_list (bundles inner)).*2 in
    foldl (λ i rec, drop_record rec i) inner to_drop.

Definition registry_len (inner : RegistryInner) : Z := Z.of_nat (size (bundles inner)).

Definition non_terminal_count (inner : RegistryInner) : Z :=
  Z.of_nat (length (List.filter (λ r, negb (is_terminal (status r))) (map_to_list (bundles inner)).*2)).

(** ** The invariant: the reverse index is the inverse of the table *)

Definition registry_inv (inner : RegistryInner) : Prop :=
  (∀ id r, bundles inner !! id = Some r → bundle_id r = id) ∧
  (∀ d id, distribution_index inner !! d = Some id ↔ ∃ r, bundles inner !! id = Some r ∧ d ∈ distribution_ids r).

(** The record's distribution ids are new (the distribution service mints them). *)
Definition fresh_ids (record : BundleRecord) (inner : RegistryInner) : Prop :=
  ∀ d, d ∈ distribution_ids record → distribution_index inner !! d = None.

Inductive reg_op :=
| OpCheck (id : string) (ident : BundleIdentity)
| OpInsert (record : BundleRecord)
| OpGet (id : string)
| OpUpdate (id : string) (s : BundleStatus)
| OpEvict.

Definition reg_apply (cfg : RegistryConfig) (now : Z) (op : reg_op) (inner : RegistryInner) : RegistryInner :=
  match op with
  | OpCheck id ident => (check_resubmit now id ident inner).2
  | OpInsert record => insert cfg record inner
  | OpGet id => (registry_get now id inner).2
  | OpUpdate id s => update_status now id s inner
  | OpEvict => evict_expired cfg now inner
  end.

Inductive reg_step (cfg : RegistryConfig) : RegistryInner → RegistryInner → Prop :=
| reg_step_op now op inner :
    (∀ record, op = OpInsert record → fresh_ids record inner) →
    reg_step cfg inner (reg_apply cfg now op inner).

(** ** Lemmas *)

Lemma lookup_delete_all (idx : gmap string string) l d :
  foldl (λ i d, delete d i) idx l !! d = if bool_decide (d ∈ l) then None else idx !! d.
Proof.
  revert idx. induction l as [|x l IH]; intros idx; cbn.
  - rewrite bool_decide_false by (by intros ?%elem_of_nil). done.
  - rewrite IH. destruct (decide (d ∈ l)) as [Hl|Hl]; [by rewrite !bool_decide_true by set_solver|].
    rewrite (bool_decide_false (d ∈ l)) by done. destruct (decide (d = x)) as [->|Hne].
    + rewrite bool_decide_true by set_solver. apply lookup_delete_eq.
    + rewrite bool_decide_false by set_solver. by apply lookup_delete_ne.
Qed.

Lemma lookup_insert_all (idx : gmap string string) l v d :
  foldl (λ i d, <[d := v]> i) idx l !! d = if bool_decide (d ∈ l) then Some v else idx !! d.
Proof.
  revert idx. induction l as [|x l IH]; intros idx; cbn.
  - rewrite bool_decide_false by (by intros ?%elem_of_nil). done.
  - rewrite IH. destruct (decide (d ∈ l)) as [Hl|Hl]; [by rewrite !bool_decide_true by set_solver|].
    rewrite (bool_decide_false (d ∈ l)) by done. destruct (decide (d = x)) as [->|Hne].
    + rewrite bool_decide_true by set_solver. apply lookup_insert_eq.
    + rewrite bool_decide_false by set_solver. by apply lookup_insert_ne.
Qed.

(** Dropping a resident record keeps the invariant. *)
Lemma drop_record_inv rec inner :
  registry_inv inner → bundles inner !! bundle_id rec = Some rec → registry_inv (drop_record rec inner).
Proof.
  intros [Hid Hidx] Hrec. split; cbn.
  - intros id r [_ Hr]%lookup_delete_Some. by apply Hid.
  - intros d id. rewrite lookup_delete_all. case_bool_decide as Hd.
    + split; [done|]. intros (r & [Hne Hr]%lookup_delete_Some & Hin). exfalso. apply Hne.
      assert (distribution_index inner !! d = Some (bundle_id rec)) as E1 by (apply Hidx; eauto).
      assert (distribution_index inner !! d = Some id) as E2 by (apply Hidx; eauto). congruence.
    + rewrite Hidx. split; intros (r & Hr & Hin); exists r; (split; [|done]).
      * apply lookup_delete_Some. split; [|done]. intros <-. rewrite Hrec in Hr. by simplify_eq.
      * by apply lookup_delete_Some in Hr as [_ ?].
Qed.

(** Dropping what is under a key, as [insert] does it. *)
Lemma drop_prior_inv id prior inner :
  registry_inv inner → bundles inner !! id = Some prior →
  drop_record_indexes_only prior (mkRegistryInner (delete id (bundles inner)) (distribution_index inner)) =
  drop_record prior inner ∧ registry_inv (drop_record prior inner).
Proof.
  intros Hinv Hp. pose proof (proj1 Hinv id prior Hp) as <-. split; [done|]. by apply drop_record_inv.
Qed.

Lemma foldl_least_spec (r : BundleRecord) l :
  let m := foldl (λ best x, if last_touched_at x <? last_touched_at best then x else best) r l in
  m ∈ r :: l ∧ ∀ x, x ∈ r :: l → last_touched_at m ≤ last_touched_at x.
Proof.
  revert r. induction l as [|y l IH]; intros r; cbn.
  - split; [by left|]. intros x [->|?%elem_of_nil]%elem_of_cons; done.
  - destruct (IH (if last_touched_at y <? last_touched_at r then y else r)) as [Hin Hmin]. cbn in Hin, Hmin.
    split.
    + apply elem_of_cons in Hin as [->|Hin]; [case_match; set_solver|set_solver].
    + intros x Hx. assert (last_touched_at (if last_touched_at y <? last_touched_at r then y else r) ≤ last_touched_at x
        ∨ x ∈ l) as [Hle|Hl].
      { apply elem_of_cons in Hx as [->|[->|Hx]%elem_of_cons]; [left|left|by right];
          destruct (Z.ltb_spec (last_touched_at y) (last_touched_at r)); lia. }
      * etrans; [apply Hmin; by left|exact Hle].
      * apply Hmin. by right.
Qed.

Lemma elem_of_values (m : gmap string BundleRecord) r : r ∈ (map_to_list m).*2 ↔ ∃ id, m !! id = Some r.
Proof.
  rewrite list_elem_of_fmap. split.
  - intros ([id r'] & -> & Hin). exists id. by apply elem_of_map_to_list.
  - intros [id Hr]. exists (id, r). split; [done|]. by apply elem_of_map_to_list.
Qed.

Lemma least_recent_spec inner :
  registry_inv inner →
  match least_recent inner with
  | None => bundles inner = ∅
  | Some v => bundles inner !! bundle_id v = Some v ∧
              ∀ id r, bundles inner !! id = Some r → last_touched_at v ≤ last_touched_at r
  end.
Proof.
  intros [Hid _]. unfold least_recent. destruct ((map_to_list (bundles inner)).*2) as [|r l] eqn:Hl.
  - apply fmap_nil_inv, map_to_list_empty_iff in Hl. done.
  - destruct (foldl_least_spec r l) as [Hin Hmin]. cbn in Hin, Hmin. rewrite <-Hl in Hin, Hmin. split.
    + apply elem_of_values in Hin as [id Hin]. by rewrite (Hid id _ Hin).
    + intros id x Hx. apply Hmin. apply elem_of_values. eauto.
Qed.

Lemma evict_lru_inv inner :
  registry_inv inner → registry_inv (evict_lru inner) ∧
  (bundles inner ≠ ∅ → size (bundles (evict_lru inner)) = (size (bundles inner) - 1)%nat).
Proof.
  intros Hinv. pose proof (least_recent_spec inner Hinv) as Hl. unfold evict_lru.
  destruct (least_recent inner) as [v|]; [|done].
  destruct Hl as [Hv _]. split; [by apply drop_record_inv|]. intros _. cbn [drop_record drop_record_indexes_only bundles]. rewrite map_size_delete, Hv. lia.
Qed.

(** Storing a record under a free key with new distribution ids. *)
Lemma store_inv record inner :
  registry_inv inner → bundles inner !! bundle_id record = None → fresh_ids record inner →
  registry_inv (mkRegistryInner (<[bundle_id record := record]> (bundles inner))
    (foldl (λ idx d, <[d := bundle_id record]> idx) (distribution_index inner) (distribution_ids record))).
Proof.
  intros [Hid Hidx] Hnone Hfresh. split; cbn.
  - intros id r [[<- <-]|[_ Hr]]%lookup_insert_Some; [done|by apply Hid].
  - intros d id. rewrite lookup_insert_all. case_bool_decide as Hd.
    + split.
      * intros [= <-]. exists record. rewrite lookup_insert_eq. done.
      * intros (r & [[<- _]|[Hne Hr]]%lookup_insert_Some & Hin); [done|].
        assert (distribution_index inner !! d = Some id) as E by (apply Hidx; eauto).
        rewrite (Hfresh d Hd) in E. done.
    + rewrite Hidx. split; intros (r & Hr & Hin); exists r; (split; [|done]).
      * apply lookup_insert_Some. right. split; [|done]. intros <-. congruence.
      * apply lookup_insert_Some in Hr as [[_ <-]|[_ ?]]; [done|done].
Qed.

Lemma fresh_after_drop record rec inner : fresh_ids record inner → fresh_ids record (drop_record rec inner).
Proof. intros Hf d Hd. cbn. rewrite lookup_delete_all. case_bool_decide; [done|]. by apply Hf. Qed.

Lemma fresh_after_lru record inner : fresh_ids record inner → fresh_ids record (evict_lru inner).
Proof. unfold evict_lru. destruct (least_recent inner); [apply fresh_after_drop|done]. Qed.

Definition cap_ok (cfg : RegistryConfig) (inner : RegistryInner) : Prop :=
  0 < rc_max_known_bundles cfg → registry_len inner ≤ rc_max_known_bundles cfg.

Lemma drop_record_size rec inner : (size (bundles (drop_record rec inner)) ≤ size (bundles inner))%nat.
Proof. cbn [drop_record drop_record_indexes_only bundles]. rewrite map_size_delete. case_match; unfold id; lia. Qed.

Lemma lru_frees_key id inner : bundles inner !! id = None → bundles (evict_lru inner) !! id = None.
Proof. unfold evict_lru. destruct (least_recent inner); [|done]. cbn. intros ?. rewrite lookup_delete_None. by right. Qed.

Lemma insert_inv cfg record inner :
  registry_inv inner → cap_ok cfg inner → fresh_ids record inner →
  registry_inv (insert cfg record inner) ∧ cap_ok cfg (insert cfg record inner).
Proof.
  intros Hinv Hcap Hfresh. unfold insert. set (inner1 := match bundles inner !! _ with Some _ => _ | None => _ end).
  assert (registry_inv inner1 ∧ fresh_ids record inner1 ∧ bundles inner1 !! bundle_id record = None ∧ cap_ok cfg inner1)
    as (Hi1 & Hf1 & Hn1 & Hc1).
  { unfold inner1. destruct (bundles inner !! bundle_id record) as [prior|] eqn:Hp; [|done].
    destruct (drop_prior_inv _ _ _ Hinv Hp) as [-> Hi]. split_and!; [done|by apply fresh_after_drop| |].
    - cbn. rewrite (proj1 Hinv _ _ Hp). apply lookup_delete_eq.
    - intros Hpos. specialize (Hcap Hpos). unfold registry_len in *. pose proof (drop_record_size prior inner). lia. }
  clearbody inner1. destruct ((0 <? rc_max_known_bundles cfg) && _) eqn:Hfull; cbn zeta.
  - to_prop. destruct (evict_lru_inv inner1 Hi1) as [Hi2 Hs2].
    split; [apply store_inv; [done|by apply lru_frees_key|by apply fresh_after_lru]|].
    intros Hpos. unfold registry_len. cbn [bundles]. rewrite map_size_insert_None by (by apply lru_frees_key).
    specialize (Hc1 Hpos). unfold registry_len in Hc1. rewrite Hs2; [lia|].
    intros He. rewrite He, map_size_empty in *. lia.
  - split; [by apply store_inv|]. intros Hpos. unfold registry_len. cbn [bundles].
    rewrite map_size_insert_None by done. apply andb_false_iff in Hfull as [?|?]; to_prop; lia.
Qed.

Lemma alter_inv (f : BundleRecord → BundleRecord) id inner :
  (∀ r, bundle_id (f r) = bundle_id r ∧ handles (f r) = handles r) →
  registry_inv inner → registry_inv (mkRegistryInner (alter f id (bundles inner)) (distribution_index inner)).
Proof.
  intros Hf [Hid Hidx]. split; cbn.
  - intros i r Hr. rewrite lookup_alter_Some in Hr. destruct Hr as [(-> & r' & Hr & ->)|[_ Hr]]; [|by apply Hid].
    rewrite (proj1 (Hf r')). by apply Hid.
  - intros d i. rewrite Hidx. split; intros (r & Hr & Hin).
    + destruct (decide (id = i)) as [->|Hne].
      * exists (f r). rewrite lookup_alter_eq, Hr. unfold distribution_ids. by rewrite (proj2 (Hf r)).
      * exists r. by rewrite lookup_alter_ne.
    + rewrite lookup_alter_Some in Hr. destruct Hr as [(-> & r' & Hr & ->)|[_ Hr]]; [|by exists r].
      exists r'. unfold distribution_ids in *. by rewrite (proj2 (Hf r')) in Hin.
Qed.

(** The records left after dropping the listed ones, each resident under its id. *)
Lemma drop_all_inv l inner :
  registry_inv inner → NoDup (bundle_id <$> l) → (∀ r, r ∈ l → bundles inner !! bundle_id r = Some r) →
  let inner' := foldl (λ i rec, drop_record rec i) inner l in
  registry_inv inner' ∧
  ∀ id r, bundles inner' !! id = Some r ↔ bundles inner !! id = Some r ∧ r ∉ l.
Proof.
  revert inner. induction l as [|x l IH]; intros inner Hinv Hnd Hres; cbn.
  - split; [done|]. intros id r. set_solver.
  - cbn in Hnd. apply NoDup_cons in Hnd as [Hx Hnd].
    destruct (IH (drop_record x inner)) as [Hi Hl]; [| done| |].
    + apply drop_record_inv; [done|]. apply Hres. by left.
    + intros r Hr. cbn. rewrite lookup_delete_ne; [apply Hres; by right|].
      intros E. apply Hx. rewrite E. by apply list_elem_of_fmap_2.
    + split; [done|]. intros id r. rewrite Hl. cbn. rewrite lookup_delete_Some, not_elem_of_cons.
      split; [intros [[Hne Hr] Hni]|intros [Hr [Hne Hni]]]; split_and!; try done.
      * intros ->. apply Hne. by apply (proj1 Hinv).
      * intros <-. assert (bundles inner !! bundle_id x = Some x) as E by (apply Hres; by left). congruence.
Qed.

Lemma values_NoDup_ids inner :
  registry_inv inner → NoDup (bundle_id <$> (map_to_list (bundles inner)).*2).
Proof.
  intros [Hid _].
  assert (bundle_id <$> (map_to_list (bundles inner)).*2 = (map_to_list (bundles inner)).*1) as ->; [|apply NoDup_fst_map_to_list].
  rewrite <-list_fmap_compose. apply list_fmap_ext. intros i [id r] Hp. cbn. apply Hid.
  apply elem_of_map_to_list. by eapply list_elem_of_lookup_2.
Qed.

Lemma filter_sublist {A} (f : A → bool) (l : list A) : List.filter f l `sublist_of` l.
Proof. induction l as [|a l IH]; cbn; [constructor|]. destruct (f a); by constructor. Qed.

Lemma evict_expired_spec cfg now inner :
  registry_inv inner →
  registry_inv (evict_expired cfg now inner) ∧
  ∀ id r, bundles (evict_expired cfg now inner) !! id = Some r ↔
    bundles inner !! id = Some r ∧ (rc_handle_retention_secs cfg ≠ 0 → expired cfg now r = false).
Proof.
  intros Hinv. unfold evict_expired. destruct (Z.eqb_spec (rc_handle_retention_secs cfg) 0) as [Hz|Hz].
  { split; [done|]. intros id r. rewrite Hz. tauto. }
  set (l := List.filter _ _).
  assert (∀ r, r ∈ l ↔ (∃ id, bundles inner !! id = Some r) ∧ expired cfg now r = true) as Hl.
  { intros r. unfold l. rewrite list_elem_of_In, filter_In, <-list_elem_of_In, elem_of_values. done. }
  destruct (drop_all_inv l inner Hinv) as [Hi Hres].
  - eapply sublist_NoDup; [by apply (values_NoDup_ids inner Hinv)|]. apply fmap_sublist, filter_sublist.
  - intros r [[id Hr] _]%Hl. by rewrite (proj1 Hinv id r Hr).
  - split; [exact Hi|]. intros id r. rewrite Hres, Hl. split; intros [Hr He]; (split; [done|]).
    + intros _. destruct (expired cfg now r); [|done]. destruct He. eauto.
    + intros [_ Ht]. by rewrite (He Hz) in Ht.
Qed.

Lemma evict_expired_size cfg now inner :
  (size (bundles (evict_expired cfg now inner)) ≤ size (bundles inner))%nat.
Proof.
  unfold evict_expired. destruct (_ =? 0); [done|]. generalize (List.filter (expired cfg now) (map_to_list (bundles inner)).*2).
  intros l. revert inner. induction l as [|x l IH]; intros inner; cbn; [done|].
  etrans; [apply IH|]. apply drop_record_size.
Qed.

Lemma size_alter (f : BundleRecord → BundleRecord) id (m : gmap string BundleRecord) : size (alter f id m) = size m.
Proof. rewrite <-!size_dom, dom_alter_L. done. Qed.

Lemma reg_step_inv cfg i i' :
  reg_step cfg i i' → registry_inv i ∧ cap_ok cfg i → registry_inv i' ∧ cap_ok cfg i'.
Proof.
  intros Hstep [Hinv Hcap]. destruct Hstep as [now op i Hfresh].
  assert (∀ f id, (∀ r, bundle_id (f r) = bundle_id r ∧ handles (f r) = handles r) →
    registry_inv (mkRegistryInner (alter f id (bundles i)) (distribution_index i)) ∧
    cap_ok cfg (mkRegistryInner (alter f id (bundles i)) (distribution_index i))) as Halter.
  { intros f id Hf. split; [by apply alter_inv|]. intros Hpos. specialize (Hcap Hpos).
    unfold registry_len in *. cbn. by rewrite size_alter. }
  destruct op as [id ident|record|id|id s|]; cbn [reg_apply].
  - unfold check_resubmit, check_resubmit_probe, check_resubmit_commit.
    destruct (bundles i !! id) as [r|] eqn:Hr; [|done]. destruct (allows_reuse_with_different_files _); cbn [negb andb].
    + cbn. pose proof (proj1 Hinv id r Hr) as Hbid. split; [apply drop_record_inv; [done|by rewrite Hbid]|].
      intros Hpos. specialize (Hcap Hpos). unfold registry_len in *. pose proof (drop_record_size r i). lia.
    + case_bool_decide; cbn; [|done]. by apply Halter.
  - apply insert_inv; [done..|]. by apply Hfresh.
  - unfold registry_get. destruct (bundles i !! id) as [r|] eqn:Hr; [|done]. cbn.
    assert (<[id := touch now r]> (bundles i) = alter (touch now) id (bundles i)) as ->; [|by apply Halter].
    apply map_eq. intros j. rewrite lookup_insert, lookup_alter. case_decide; subst; [by rewrite Hr|done].
  - by apply Halter.
  - split; [by apply evict_expired_spec|]. intros Hpos. specialize (Hcap Hpos). unfold registry_len in *.
    pose proof (evict_expired_size cfg now i). lia.
Qed.

(** ** Properties *)

(** The handle table is consistent in every reachable state: the reverse
    index maps a distribution id exactly to the resident bundle that holds it, so a
    lookup by distribution id finds its bundle together with the handle (the
    handlers' [expect] never fires), and the table never exceeds a positive
    [max_known_bundles]. *)
Theorem registry_consistent cfg i :
  rtc (reg_step cfg) registry_new i →
  registry_inv i ∧ (0 < rc_max_known_bundles cfg → registry_len i ≤ rc_max_known_bundles cfg) ∧
  ∀ d, match lookup_distribution d i with
       | Some (id, r) => bundle_id r = id ∧ ∃ h, h ∈ handles r ∧ distribution_id h = d
       | None => ∀ id r, bundles i !! id = Some r → d ∉ distribution_ids r
       end.
Proof.
  intros Hsteps.
  assert (registry_inv i ∧ cap_ok cfg i) as [Hinv Hcap].
  { assert (registry_inv registry_new ∧ cap_ok cfg registry_new) as Hinit.
    { split; [split; [done|]|]; [|intros ?; unfold registry_len; cbn [registry_new bundles]; rewrite map_size_empty; lia].
      intros d id. cbn. rewrite lookup_empty. split; [done|]. by intros (r & Hr & _). }
    revert Hinit. induction Hsteps; eauto using reg_step_inv. }
  split_and!; [done..|]. intros d. unfold lookup_distribution. destruct Hinv as [Hid Hidx].
  destruct (distribution_index i !! d) as [id|] eqn:Hd; cbn.
  - apply Hidx in Hd as (r & Hr & Hin). rewrite Hr. cbn. split; [by apply Hid|].
    apply list_elem_of_fmap in Hin as (h & -> & Hh). eauto.
  - intros id r Hr Hin. assert (distribution_index i !! d = Some id) by (apply Hidx; eauto). congruence.
Qed.

(** Resubmission is decided by the resident record alone, atomically:
    the write-locked phase gives, on any state, the three-way answer of Rule 12
    (absent or failed/cancelled: not found, the latter dropped with its
    distribution ids; same files: idempotent with the original handles; different
    files: conflict), and the read-locked probe only ever answers what that phase
    would answer without changing anything, so a concurrent change between the two
    phases cannot produce an answer that was never true. *)
Theorem check_resubmit_atomic now id ident inner :
  (∀ r, check_resubmit_probe id ident inner = Some r → check_resubmit_commit now id ident inner = (r, inner)) ∧
  match bundles inner !! id, (check_resubmit_commit now id ident inner) with
  | None, (answer, inner') => answer = NotFound ∧ inner' = inner
  | Some r, (answer, inner') =>
      if allows_reuse_with_different_files (status r) then answer = NotFound ∧ inner' = drop_record r inner
      else if bool_decide (identity r = ident) then
        answer = Idempotent (touch now r) ∧ handles (touch now r) = handles r ∧
        bundles inner' !! id = Some (touch now r) ∧ distribution_index inner' = distribution_index inner
      else answer = Conflict (created_at r) ∧ inner' = inner
  end.
Proof.
  unfold check_resubmit_probe, check_resubmit_commit. destruct (bundles inner !! id) as [r|] eqn:Hr.
  - split; [|destruct (allows_reuse_with_different_files (status r)); [done|]; case_bool_decide; [|done];
      cbn; by rewrite lookup_alter_eq, Hr].
    intros x. destruct (allows_reuse_with_different_files (status r)); cbn; [done|].
    case_bool_decide; cbn; [done|]. intros [= <-]. done.
  - split; [by intros x [= <-]|done].
Qed.

(** The retention sweep drops exactly the terminal bundles not touched
    within the retention window, and with retention 0 nothing: bundles still in
    flight never expire. *)
Theorem sweep_drops_only_expired cfg now inner :
  registry_inv inner →
  registry_inv (evict_expired cfg now inner) ∧
  ∀ id r, bundles (evict_expired cfg now inner) !! id = Some r ↔
    bundles inner !! id = Some r ∧
    ¬ (rc_handle_retention_secs cfg ≠ 0 ∧ is_terminal (status r) = true ∧
       last_touched_at r < now - rc_handle_retention_secs cfg).
Proof.
  intros Hinv. destruct (evict_expired_spec cfg now inner Hinv) as [Hi Hres]. split; [done|].
  intros id r. rewrite Hres. unfold expired. split; intros [Hr He]; (split; [done|]).
  - intros (Hz & Ht & Hlt). specialize (He Hz). rewrite Ht in He. cbn in He. to_prop. lia.
  - intros Hz. destruct (is_terminal (status r)) eqn:Ht; cbn; [|done].
    destruct (Z.ltb_spec (last_touched_at r) (now - rc_handle_retention_secs cfg)); [|done].
    destruct He. done.
Qed.

(** ** Witnesses *)

Definition toy_registry_config : RegistryConfig := mkRegistryConfig 60 2.

Definition toy_record (id d : string) : BundleRecord :=
  bundle_record_new 100 id [] [mkHandleRecord 0 "hash" (mkDistributionHandle d) None None].

Definition one_bundle : RegistryInner := insert toy_registry_config (toy_record "B" "d1") registry_new.

Lemma registry_consistent_witness :
  registry_inv one_bundle ∧ registry_len one_bundle ≤ 2.
Proof.
  assert (rtc (reg_step toy_registry_config) registry_new one_bundle) as Hsteps.
  { apply rtc_once. apply (reg_step_op _ 100 (OpInsert (toy_record "B" "d1")) registry_new).
    intros record [= <-] d Hd. reflexivity. }
  destruct (registry_consistent toy_registry_config one_bundle Hsteps) as (Hi & Hc & _).
  split; [exact Hi|]. apply Hc. reflexivity.
Defined.

Lemma check_resubmit_atomic_witness :
  check_resubmit_commit 120 "B" [mkFileIdentity "r" "p" 1 (vreplicate 32 Byte.x00)] one_bundle =
  (Conflict 100, one_bundle).
Proof.
  apply (check_resubmit_atomic 120 "B" [mkFileIdentity "r" "p" 1 (vreplicate 32 Byte.x00)] one_bundle).
  vm_compute. reflexivity.
Defined.

Lemma one_bundle_inv : registry_inv one_bundle.
Proof.
  apply insert_inv; [|intros _; vm_compute; discriminate|by intros d Hd].
  split; [done|]. intros d id. cbn. rewrite lookup_empty. split; [done|]. by intros (r & Hr & _).
Qed.

(** The bundle is not terminal: it survives however old it is. *)
Lemma sweep_drops_only_expired_witness :
  is_Some (bundles (evict_expired toy_registry_config 100000 one_bundle) !! "B"%string).
Proof.
  exists (toy_record "B" "d1").
  apply (proj2 (sweep_drops_only_expired toy_registry_config 100000 one_bundle one_bundle_inv)).
  split; [reflexivity|]. intros (_ & Ht & _). discriminate.
Defined.
