(* ===== verification/BundleRuntime.v ===== *)
(** * Bundle runtime and progress streams

    Model of [src/attachments/runtime.rs] (per-bundle progress state shared by
    watchers, the cancel handler and subscribers) and of the subscription stream
    of [src/attachments/handlers.rs]. An update takes the slot lock, then counts,
    then broadcasts: the three are separate steps here ([rstep]), so the theorems
    cover every interleaving of concurrent updates. *)

From S2P Require Import Prelude.

(** ** Wire types *)

(** [pb::DistributionStatus] *)
Inductive DistributionStatus :=
| STATUS_UNSPECIFIED | STATUS_PENDING | STATUS_IN_PROGRESS | STATUS_COMPLETED
| STATUS_PARTIAL | STATUS_FAILED | STATUS_CANCELLED.

#[global] Instance DistributionStatus_eq_dec : EqDecision DistributionStatus.
Proof. solve_decision. Defined.

Record AttachmentProgress := mkProgress {
  ap_distribution_id : string;
  ap_blob_token : string;
  ap_status : DistributionStatus;
  ap_bytes_transferred : Z;
  ap_bytes_total : Z;
  ap_error : option string;
}.

(** [is_terminal_status] *)
Definition is_terminal_status (s : DistributionStatus) : bool :=
  match s with
  | STATUS_COMPLETED | STATUS_PARTIAL | STATUS_FAILED | STATUS_CANCELLED => true
  | _ => false
  end.

(** ** The runtime *)

Inductive DistributionState := DsPending | DsInProgress | DsCompleted | DsFailed | DsCancelled.

#[global] Instance DistributionState_eq_dec : EqDecision DistributionState.
Proof. solve_decision. Defined.

Definition state_is_terminal (s : DistributionState) : bool :=
  match s with DsCompleted | DsFailed | DsCancelled => true | _ => false end.

Record PerDistributionProgress := mkSlot {
  slot_state : DistributionState;
  slot_bytes_transferred : Z;
  slot_bytes_total : Z;
  slot_error : option string;
  slot_last_progress : AttachmentProgress;
}.

(** [rt_sent] is everything broadcast so far, oldest first. *)
Record BundleRuntime := mkRuntime {
  rt_per_distribution : list PerDistributionProgress;
  rt_terminal_count : nat;
  rt_total : nat;
  rt_sent : list AttachmentProgress;
}.

(** [BundleRuntimeStore::register], the entry it creates. *)
Definition register (slots : list PerDistributionProgress) : BundleRuntime :=
  mkRuntime slots 0 (length slots) [].

Definition all_terminal (rt : BundleRuntime) : bool := Nat.leb (rt_total rt) (rt_terminal_count rt).

Definition slot_update (s : DistributionState) (p : AttachmentProgress) : PerDistributionProgress :=
  mkSlot s (ap_bytes_transferred p) (ap_bytes_total p) (ap_error p) p.

Definition set_slots (slots : list PerDistributionProgress) (rt : BundleRuntime) : BundleRuntime :=
  mkRuntime slots (rt_terminal_count rt) (rt_total rt) (rt_sent rt).

(** The locked section of [apply_progress]: [None] is an early [return false],
    [Some b] leaves with [became_terminal = b]. *)
Definition progress_locked (file_index : nat) (new_state : DistributionState) (p : AttachmentProgress)
    (rt : BundleRuntime) : option bool * BundleRuntime :=
  match rt_per_distribution rt !! file_index with
  | None => (None, rt)
  | Some slot =>
      if state_is_terminal (slot_state slot) then (None, rt)
      else (Some (state_is_terminal new_state),
            set_slots (<[file_index := slot_update new_state p]> (rt_per_distribution rt)) rt)
  end.

(** The locked section of [apply_cancellation]. *)
Definition cancellation_locked (file_index : nat) (p : AttachmentProgress) (rt : BundleRuntime)
  : option bool * BundleRuntime :=
  match rt_per_distribution rt !! file_index with
  | None => (None, rt)
  | Some slot =>
      match slot_state slot with
      | DsCompleted | DsCancelled => (None, rt)
      | _ => (Some (negb (state_is_terminal (slot_state slot))),
              set_slots (<[file_index := slot_update DsCancelled p]> (rt_per_distribution rt)) rt)
      end
  end.

(** [terminal_count.fetch_add(1)] when the update was a fresh terminal one. *)
Definition count_terminal (became_terminal : bool) (rt : BundleRuntime) : BundleRuntime :=
  mkRuntime (rt_per_distribution rt) (if became_terminal then S (rt_terminal_count rt) else rt_terminal_count rt)
    (rt_total rt) (rt_sent rt).

(** [progress_tx.send(progress)] *)
Definition broadcast (p : AttachmentProgress) (rt : BundleRuntime) : BundleRuntime :=
  mkRuntime (rt_per_distribution rt) (rt_terminal_count rt) (rt_total rt) (rt_sent rt ++ [p]).

Definition finish_update (r : option bool * BundleRuntime) (p : AttachmentProgress) : bool * BundleRuntime :=
  match r with
  | (None, rt) => (false, rt)
  | (Some b, rt) => (b, broadcast p (count_terminal b rt))
  end.

(** The two methods, uninterrupted. *)
Definition apply_progress (i : nat) (s : DistributionState) (p : AttachmentProgress) (rt : BundleRuntime)
  : bool * BundleRuntime := finish_update (progress_locked i s p rt) p.

Definition apply_cancellation (i : nat) (p : AttachmentProgress) (rt : BundleRuntime) : bool * BundleRuntime :=
  finish_update (cancellation_locked i p rt) p.

(** ** Concurrent updates *)

(** A caller past the lock: about to count, or about to broadcast. *)
Inductive caller := Counting (became_terminal : bool) (p : AttachmentProgress) | Sending (p : AttachmentProgress).

Record rconf := mkRconf { rc_rt : BundleRuntime; rc_callers : list caller }.

(** A frame speaks about the slot it is applied to. *)
Definition frame_for (i : nat) (s : DistributionState) (p : AttachmentProgress) (rt : BundleRuntime) : Prop :=
  ∃ slot, rt_per_distribution rt !! i = Some slot ∧
    ap_distribution_id p = ap_distribution_id (slot_last_progress slot) ∧
    is_terminal_status (ap_status p) = state_is_terminal s.

Inductive rstep : rconf → rconf → Prop :=
| rstep_progress i s p rt rt' b cs :
    frame_for i s p rt → progress_locked i s p rt = (Some b, rt') →
    rstep (mkRconf rt cs) (mkRconf rt' (Counting b p :: cs))
| rstep_cancel i p rt rt' b cs :
    frame_for i DsCancelled p rt → cancellation_locked i p rt = (Some b, rt') →
    rstep (mkRconf rt cs) (mkRconf rt' (Counting b p :: cs))
| rstep_count b p rt cs1 cs2 :
    rstep (mkRconf rt (cs1 ++ Counting b p :: cs2)) (mkRconf (count_terminal b rt) (cs1 ++ Sending p :: cs2))
| rstep_send p rt cs1 cs2 :
    rstep (mkRconf rt (cs1 ++ Sending p :: cs2)) (mkRconf (broadcast p rt) (cs1 ++ cs2)).

(** The steps that do not relabel a failed distribution as cancelled. *)
Inductive rstep_plain : rconf → rconf → Prop :=
| rstep_plain_intro c c' :
    rstep c c' →
    (∀ i slot, rt_per_distribution (rc_rt c) !! i = Some slot → slot_state slot = DsFailed →
       rt_per_distribution (rc_rt c') !! i = Some slot) →
    rstep_plain c c'.

(** ** Subscriptions *)

(** The snapshot phase of [subscribe_attachment_bundle]. *)
Definition snapshot_frames (slots : list PerDistributionProgress) : list AttachmentProgress :=
  slot_last_progress <$> List.filter (λ s, state_is_terminal (slot_state s)) slots.

Definition snapshot_terminal_ids (slots : list PerDistributionProgress) : gset string :=
  list_to_set (ap_distribution_id <$> snapshot_frames slots).

(** [build_subscribe_stream]'s filter: [None] is a lag error of the receiver. *)
Definition live_frames (ids : gset string) (received : list (option AttachmentProgress)) : list AttachmentProgress :=
  omap (λ r, match r with
             | Some p => if bool_decide (ap_distribution_id p ∈ ids) then None else Some p
             | None => None
             end) received.

(** [StreamCloser]: the frames that come out, and whether the stream has closed. *)
Fixpoint stream_closer (total count : nat) (closed : bool) (inner : list AttachmentProgress)
  : list AttachmentProgress * bool :=
  if closed then ([], true)
  else
    match inner with
    | [] => ([], false)
    | p :: rest =>
        let count' := if is_terminal_status (ap_status p) then S count else count in
        let closed' := is_terminal_status (ap_status p) && Nat.leb total count' in
        let '(out, c) := stream_closer total count' closed' rest in
        (p :: out, c)
    end.

(** A subscription opened on [slots] of a bundle with [total] distributions,
    after the receiver has yielded [received]. *)
Definition subscribe_stream (slots : list PerDistributionProgress) (total : nat)
    (received : list (option AttachmentProgress)) : list AttachmentProgress * bool :=
  stream_closer total 0 (Nat.eqb total 0)
    (snapshot_frames slots ++ live_frames (snapshot_terminal_ids slots) received).

Definition PROGRESS_BACKLOG : nat := 64.

(** What a receiver that was not polled while [sent] went out then yields: with
    more than the backlog it first reports the lag. *)
Definition broadcast_recv (sent : list AttachmentProgress) : list (option AttachmentProgress) :=
  if Nat.leb (length sent) PROGRESS_BACKLOG then Some <$> sent
  else None :: (Some <$> drop (length sent - PROGRESS_BACKLOG) sent).

(** ** Counting *)

Definition terminal_slots (rt : BundleRuntime) : nat :=
  length (List.filter (λ s, state_is_terminal (slot_state s)) (rt_per_distribution rt)).

Definition uncounted (cs : list caller) : nat :=
  length (List.filter (λ c, match c with Counting true _ => true | _ => false end) cs).

Definition count_inv (c : rconf) : Prop :=
  (rt_terminal_count (rc_rt c) + uncounted (rc_callers c) = terminal_slots (rc_rt c))%nat ∧
  rt_total (rc_rt c) = length (rt_per_distribution (rc_rt c)).

Lemma filter_insert_length {A} (f : A → bool) (l : list A) i x y :
  l !! i = Some x → f x = false →
  length (List.filter f (<[i := y]> l)) = ((if f y then 1 else 0) + length (List.filter f l))%nat.
Proof.
  revert i. induction l as [|a l IH]; intros [|i] Hi Hf; simplify_eq/=.
  - rewrite Hf. by destruct (f y).
  - specialize (IH i Hi Hf). destruct (f a); cbn; lia.
Qed.

Lemma filter_insert_true {A} (f : A → bool) (l : list A) i x y :
  l !! i = Some x → f x = true → f y = true →
  length (List.filter f (<[i := y]> l)) = length (List.filter f l).
Proof.
  revert i. induction l as [|a l IH]; intros [|i] Hi Hx Hy; simplify_eq/=.
  - by rewrite Hx, Hy.
  - specialize (IH i Hi Hx Hy). destruct (f a); cbn; lia.
Qed.

Lemma uncounted_app cs1 cs2 : uncounted (cs1 ++ cs2) = (uncounted cs1 + uncounted cs2)%nat.
Proof. unfold uncounted. by rewrite List.filter_app, length_app. Qed.

Lemma locked_inv r rt b rt' i s p :
  (r = progress_locked i s p rt ∨ r = cancellation_locked i p rt ∧ s = DsCancelled) → r = (Some b, rt') →
  ∃ slot, rt_per_distribution rt !! i = Some slot ∧ b = negb (state_is_terminal (slot_state slot)) && state_is_terminal s ∧
    (state_is_terminal (slot_state slot) = true → slot_state slot = DsFailed ∧ s = DsCancelled) ∧
    rt' = set_slots (<[i := slot_update s p]> (rt_per_distribution rt)) rt.
Proof.
  intros [->|[-> ->]] Hr.
  - unfold progress_locked in Hr. destruct (rt_per_distribution rt !! i) as [slot|]; [|done].
    destruct (state_is_terminal (slot_state slot)) eqn:Ht; simplify_eq. exists slot. by rewrite Ht.
  - unfold cancellation_locked in Hr. destruct (rt_per_distribution rt !! i) as [slot|]; [|done].
    exists slot. destruct (slot_state slot) eqn:Hs; simplify_eq/=; done.
Qed.

Lemma locked_count i s p rt b rt' slot :
  rt_per_distribution rt !! i = Some slot →
  b = negb (state_is_terminal (slot_state slot)) && state_is_terminal s →
  (state_is_terminal (slot_state slot) = true → slot_state slot = DsFailed ∧ s = DsCancelled) →
  rt' = set_slots (<[i := slot_update s p]> (rt_per_distribution rt)) rt →
  terminal_slots rt' = ((if b then 1 else 0) + terminal_slots rt)%nat.
Proof.
  intros Hi -> Ht ->. unfold terminal_slots. cbn.
  destruct (state_is_terminal (slot_state slot)) eqn:Hs; cbn.
  - destruct (Ht eq_refl) as [_ ->]. by eapply filter_insert_true.
  - erewrite filter_insert_length by done. done.
Qed.

Lemma rstep_count_inv c c' : rstep c c' → count_inv c → count_inv c'.
Proof.
  intros Hstep [Hc Ht]. destruct Hstep as [i s p rt rt' b cs Hf Hl|i p rt rt' b cs Hf Hl|b p rt cs1 cs2|p rt cs1 cs2];
    unfold count_inv; cbn [rc_rt rc_callers] in *.
  1: destruct (locked_inv _ rt b rt' i s p (or_introl eq_refl) Hl) as (slot & Hi & Hb & Hterm & Hrt).
  2: destruct (locked_inv _ rt b rt' i DsCancelled p (or_intror (conj eq_refl eq_refl)) Hl) as (slot & Hi & Hb & Hterm & Hrt).
  1,2: rewrite (locked_count _ _ _ _ _ _ _ Hi Hb Hterm Hrt); subst rt'; cbn; rewrite length_insert;
    split; [|done]; unfold uncounted in *; cbn; destruct b; cbn; lia.
  - split; [|done]. change (terminal_slots (count_terminal b rt)) with (terminal_slots rt).
    rewrite uncounted_app in *. rewrite <-Hc. cbn [count_terminal rt_terminal_count].
    unfold uncounted. destruct b; cbn; lia.
  - split; [|done]. change (terminal_slots (broadcast p rt)) with (terminal_slots rt).
    rewrite uncounted_app in *. rewrite <-Hc. cbn [broadcast rt_terminal_count]. unfold uncounted. cbn. lia.
Qed.

Lemma filter_length_all {A} (f : A → bool) (l : list A) :
  length (List.filter f l) = length l ↔ Forall (λ x, f x = true) l.
Proof.
  induction l as [|a l IH]; cbn; [by split|]. rewrite Forall_cons.
  assert (length (List.filter f l) ≤ length l)%nat by (clear; induction l as [|b l IH]; cbn; [lia|]; destruct (f b); cbn; lia).
  destruct (f a); cbn; [rewrite <-IH; split; [intros ?; split; [done|lia]|intros [_ ?]; lia]|].
  split; [lia|]. by intros [? _].
Qed.

(** ** Delivery *)

(** The frames a caller still has to broadcast *)
Definition caller_frame (c : caller) : AttachmentProgress := match c with Counting _ p => p | Sending p => p end.

Definition slot_id (s : PerDistributionProgress) : string := ap_distribution_id (slot_last_progress s).

Definition terminal_frames (l : list AttachmentProgress) : list AttachmentProgress :=
  List.filter (λ p, is_terminal_status (ap_status p)) l.

(** Slots hold the frame of their state, under distinct ids. *)
Definition slots_wf (rt : BundleRuntime) : Prop :=
  NoDup (slot_id <$> rt_per_distribution rt) ∧
  Forall (λ s, is_terminal_status (ap_status (slot_last_progress s)) = state_is_terminal (slot_state s))
    (rt_per_distribution rt).

(** A terminal frame in flight belongs to a distribution already terminal. *)
Definition callers_wf (c : rconf) : Prop :=
  ∀ p, p ∈ caller_frame <$> rc_callers c → is_terminal_status (ap_status p) = true →
    ap_distribution_id p ∈ ap_distribution_id <$> snapshot_frames (rt_per_distribution (rc_rt c)).

(** What an attached subscriber has, and will get from callers in flight, is one
    terminal frame per terminal distribution. [ids] were terminal on attach. *)
Definition deliver_inv (snap : list AttachmentProgress) (ids : gset string) (n : nat) (c : rconf) : Prop :=
  slots_wf (rc_rt c) ∧ (n ≤ length (rt_sent (rc_rt c)))%nat ∧
  (∀ s, s ∈ rt_per_distribution (rc_rt c) → slot_id s ∈ ids → state_is_terminal (slot_state s) = true) ∧
  terminal_frames (snap ++ live_frames ids (Some <$> (drop n (rt_sent (rc_rt c)) ++ (caller_frame <$> rc_callers c))))
    ≡ₚ snapshot_frames (rt_per_distribution (rc_rt c)).

Lemma terminal_frames_app l k : terminal_frames (l ++ k) = terminal_frames l ++ terminal_frames k.
Proof. apply List.filter_app. Qed.

(** Nothing was terminal on attach: only the lag report is dropped. *)
Lemma live_frames_lag l : live_frames ∅ (None :: (Some <$> l)) = l.
Proof.
  unfold live_frames. cbn. induction l as [|p l IH]; cbn; [done|].
  rewrite bool_decide_false by set_solver. f_equal. exact IH.
Qed.

Lemma live_frames_app ids l k : live_frames ids (l ++ k) = live_frames ids l ++ live_frames ids k.
Proof. apply omap_app. Qed.

#[global] Instance terminal_frames_perm : Proper ((≡ₚ) ==> (≡ₚ)) terminal_frames.
Proof. unfold terminal_frames. induction 1; cbn; repeat case_match; try (by constructor); by etrans. Qed.

#[global] Instance live_frames_perm ids : Proper ((≡ₚ) ==> (≡ₚ)) (live_frames ids).
Proof. apply omap_Permutation. Qed.

Lemma snapshot_insert slots i slot s p :
  slots !! i = Some slot → state_is_terminal (slot_state slot) = false →
  snapshot_frames (<[i := slot_update s p]> slots) ≡ₚ
  (if state_is_terminal s then [p] else []) ++ snapshot_frames slots.
Proof.
  unfold snapshot_frames. revert i. induction slots as [|a slots IH]; intros [|i] Hi Ht; simplify_eq/=.
  - rewrite Ht. by destruct (state_is_terminal s).
  - specialize (IH i Hi Ht). destruct (state_is_terminal (slot_state a)); cbn; [|done].
    rewrite IH. by destruct (state_is_terminal s); [constructor|].
Qed.

Lemma slot_ids_insert (slots : list PerDistributionProgress) (i : nat) slot s p :
  slots !! i = Some slot → ap_distribution_id p = slot_id slot →
  slot_id <$> <[i := slot_update s p]> slots = slot_id <$> slots.
Proof.
  intros Hi Hp. rewrite list_fmap_insert. change (slot_id (slot_update s p)) with (ap_distribution_id p).
  rewrite Hp. apply list_insert_id.
  by rewrite list_lookup_fmap, Hi.
Qed.

Lemma slots_wf_insert rt i slot s p :
  slots_wf rt → rt_per_distribution rt !! i = Some slot → ap_distribution_id p = slot_id slot →
  is_terminal_status (ap_status p) = state_is_terminal s →
  slots_wf (set_slots (<[i := slot_update s p]> (rt_per_distribution rt)) rt).
Proof.
  intros [Hnd Hf] Hi Hp Hs. split; cbn [set_slots rt_per_distribution].
  - by erewrite slot_ids_insert.
  - by apply Forall_insert.
Qed.

Lemma elem_of_snapshot_ids slots x :
  x ∈ ap_distribution_id <$> snapshot_frames slots ↔
  ∃ s, s ∈ slots ∧ state_is_terminal (slot_state s) = true ∧ slot_id s = x.
Proof.
  unfold snapshot_frames. rewrite <-list_fmap_compose, list_elem_of_fmap. split.
  - intros (s & -> & Hs). rewrite list_elem_of_In, filter_In, <-list_elem_of_In in Hs. destruct Hs. by exists s.
  - intros (s & Hs & Ht & <-). exists s. split; [done|]. by rewrite list_elem_of_In, filter_In, <-list_elem_of_In.
Qed.

(** A locked update only ever adds ids to the terminal ones. *)
Lemma snapshot_ids_insert slots i slot s p :
  slots !! i = Some slot → ap_distribution_id p = slot_id slot →
  (state_is_terminal (slot_state slot) = true → state_is_terminal s = true) →
  ∀ x, x ∈ ap_distribution_id <$> snapshot_frames slots →
       x ∈ ap_distribution_id <$> snapshot_frames (<[i := slot_update s p]> slots).
Proof.
  intros Hi Hp Hmono x (s' & Hs' & Ht & <-)%elem_of_snapshot_ids. apply elem_of_snapshot_ids.
  apply list_elem_of_lookup in Hs' as [j Hj]. destruct (decide (i = j)) as [->|Hne].
  - rewrite Hi in Hj. simplify_eq. exists (slot_update s p). split_and!; [|by apply Hmono|done].
    apply list_elem_of_lookup. exists j. rewrite list_lookup_insert_eq; [done|]. by eapply lookup_lt_Some.
  - exists s'. split_and!; [|done..]. apply list_elem_of_lookup. exists j. by rewrite list_lookup_insert_ne.
Qed.

Lemma frame_for_slot i s p rt slot :
  frame_for i s p rt → rt_per_distribution rt !! i = Some slot →
  ap_distribution_id p = slot_id slot ∧ is_terminal_status (ap_status p) = state_is_terminal s.
Proof. intros (slot' & Hi & Hid & Hs) Hi'. by simplify_eq. Qed.

Lemma locked_wf i s p rt b rt' cs :
  frame_for i s p rt →
  (∃ slot, rt_per_distribution rt !! i = Some slot ∧
     b = negb (state_is_terminal (slot_state slot)) && state_is_terminal s ∧
    (state_is_terminal (slot_state slot) = true → slot_state slot = DsFailed ∧ s = DsCancelled) ∧
    rt' = set_slots (<[i := slot_update s p]> (rt_per_distribution rt)) rt) →
  slots_wf rt ∧ callers_wf (mkRconf rt cs) →
  slots_wf rt' ∧ callers_wf (mkRconf rt' (Counting b p :: cs)).
Proof.
  intros Hf (slot & Hi & _ & Hterm & ->) [Hwf Hcs]. destruct (frame_for_slot _ _ _ _ _ Hf Hi) as [Hid Hst].
  split; [by eapply slots_wf_insert|]. intros q Hq Ht. cbn in Hq |- *.
  apply elem_of_cons in Hq as [->|Hq].
  - apply elem_of_snapshot_ids. exists (slot_update s p). cbn. rewrite <-Hst. split_and!; [|done..].
    apply list_elem_of_lookup. exists i. apply list_lookup_insert_eq. by eapply lookup_lt_Some.
  - eapply snapshot_ids_insert; [done..| |by apply Hcs]. intros E. by destruct (Hterm E) as [_ ->].
Qed.

Lemma callers_wf_perm rt cs cs' sent count :
  caller_frame <$> cs' ⊆ caller_frame <$> cs →
  callers_wf (mkRconf rt cs) →
  callers_wf (mkRconf (mkRuntime (rt_per_distribution rt) count (rt_total rt) sent) cs').
Proof. intros Hsub Hc p Hp. apply Hc. cbn in *. by apply Hsub. Qed.

Lemma rstep_wf c c' :
  rstep c c' → slots_wf (rc_rt c) ∧ callers_wf c → slots_wf (rc_rt c') ∧ callers_wf c'.
Proof.
  intros Hstep Hwf. destruct Hstep as [i s p rt rt' b cs Hf Hl|i p rt rt' b cs Hf Hl|b p rt cs1 cs2|p rt cs1 cs2];
    cbn [rc_rt] in *.
  - eapply locked_wf; [done| |done]. by apply (locked_inv _ rt b rt' i s p (or_introl eq_refl)).
  - eapply locked_wf; [done| |done]. by apply (locked_inv _ rt b rt' i DsCancelled p (or_intror (conj eq_refl eq_refl))).
  - destruct Hwf as [Hs Hc]. split; [done|]. eapply callers_wf_perm; [|exact Hc]. by rewrite !fmap_app.
  - destruct Hwf as [Hs Hc]. split; [done|]. eapply callers_wf_perm; [|exact Hc].
    rewrite !fmap_app. cbn. set_solver.
Qed.

(** One update after the attach *)
Lemma locked_deliver snap ids n i s p rt b rt' cs slot :
  frame_for i s p rt → rt_per_distribution rt !! i = Some slot →
  state_is_terminal (slot_state slot) = false →
  rt' = set_slots (<[i := slot_update s p]> (rt_per_distribution rt)) rt →
  deliver_inv snap ids n (mkRconf rt cs) → deliver_inv snap ids n (mkRconf rt' (Counting b p :: cs)).
Proof.
  intros Hf Hi Hterm -> (Hwf & Hn & Hids & Hdel). destruct (frame_for_slot _ _ _ _ _ Hf Hi) as [Hid Hst].
  cbn [rc_rt rc_callers] in *. unfold deliver_inv. cbn [rc_rt rc_callers set_slots rt_per_distribution rt_sent fmap list_fmap caller_frame].
  assert (slot_id slot ∉ ids) as Hnid.
  { intros Hin. rewrite (Hids slot) in Hterm; [done| |done]. by eapply list_elem_of_lookup_2. }
  split_and!; [by eapply slots_wf_insert|done| |].
  - intros s' Hs' Hin. apply list_elem_of_lookup in Hs' as [j Hj].
    apply list_lookup_insert_Some in Hj as [(-> & <- & _)|[_ Hj]].
    + cbn in Hin. unfold slot_id in Hin. cbn in Hin. rewrite Hid in Hin. done.
    + apply Hids; [by eapply list_elem_of_lookup_2|done].
  - rewrite snapshot_insert by done. rewrite <-Hdel, <-Permutation_middle. cbn [fmap list_fmap].
    unfold live_frames at 1. cbn [omap list_omap]. rewrite bool_decide_false by (by rewrite Hid).
    fold (live_frames ids (Some <$> (drop n (rt_sent rt) ++ (caller_frame <$> cs)))).
    rewrite <-Permutation_middle. unfold terminal_frames at 1. cbn [List.filter]. rewrite Hst.
    by destruct (state_is_terminal s).
Qed.

Lemma rstep_deliver snap ids n c c' :
  rstep_plain c c' → deliver_inv snap ids n c → deliver_inv snap ids n c'.
Proof.
  intros [c0 c0' Hstep Hplain] Hinv.
  destruct Hstep as [i s p rt rt' b cs Hf Hl|i p rt rt' b cs Hf Hl|b p rt cs1 cs2|p rt cs1 cs2];
    cbn [rc_rt] in *.
  1: destruct (locked_inv _ rt b rt' i s p (or_introl eq_refl) Hl) as (slot & Hi & _ & Hterm & Hrt).
  2: destruct (locked_inv _ rt b rt' i DsCancelled p (or_intror (conj eq_refl eq_refl)) Hl) as (slot & Hi & _ & Hterm & Hrt).
  1,2: eapply locked_deliver; [done..| |done|done]; apply not_true_iff_false; intros E;
    destruct (Hterm E) as [Hfail Hcan]; specialize (Hplain i slot Hi Hfail); subst rt'; cbn in Hplain;
    rewrite list_lookup_insert_eq in Hplain by (by eapply lookup_lt_Some); by simplify_eq/=.
  - destruct Hinv as (Hwf & Hn & Hids & Hdel). split_and!; try done. cbn in *. by rewrite !fmap_app in *.
  - destruct Hinv as (Hwf & Hn & Hids & Hdel). cbn [rc_rt rc_callers] in *.
    refine (conj Hwf (conj _ (conj Hids _))); cbn [broadcast rc_rt rc_callers rt_sent rt_per_distribution].
    { rewrite length_app. lia. }
    rewrite <-Hdel, drop_app_le by lia. rewrite !fmap_app. cbn [fmap list_fmap caller_frame].
    apply terminal_frames_perm. apply Permutation_app_head. apply live_frames_perm.
    rewrite <-!app_assoc. apply Permutation_app_head. cbn. by rewrite Permutation_middle.
Qed.

(** On attach *)
Lemma attach_deliver c :
  slots_wf (rc_rt c) → callers_wf c →
  deliver_inv (snapshot_frames (rt_per_distribution (rc_rt c)))
    (snapshot_terminal_ids (rt_per_distribution (rc_rt c))) (length (rt_sent (rc_rt c))) c.
Proof.
  intros Hwf Hcs. unfold deliver_inv. set (slots := rt_per_distribution (rc_rt c)) in *.
  refine (conj Hwf (conj _ (conj _ _))); [lia| |].
  - intros s Hs Hin. unfold snapshot_terminal_ids in Hin. rewrite elem_of_list_to_set in Hin.
    apply elem_of_snapshot_ids in Hin as (s' & Hs' & Ht & Heq).
    apply list_elem_of_lookup in Hs as [i Hi], Hs' as [j Hj]. destruct Hwf as [Hnd _].
    assert (i = j) as ->; [|by simplify_eq]. apply (NoDup_lookup _ i j (slot_id s) Hnd); rewrite list_lookup_fmap.
    + fold slots. by rewrite Hi.
    + fold slots. rewrite Hj. cbn. by rewrite Heq.
  - rewrite drop_all. cbn [app]. rewrite terminal_frames_app.
    assert (terminal_frames (live_frames (snapshot_terminal_ids slots) (Some <$> (caller_frame <$> rc_callers c))) = []) as ->.
    { unfold callers_wf in Hcs. fold slots in Hcs. clearbody slots. revert Hcs.
      generalize (caller_frame <$> rc_callers c) as fs.
      induction fs as [|p fs IH]; intros Hcs; [done|]. cbn.
      case_bool_decide as Hin; [apply IH; intros; apply Hcs; [by right|done]|].
      destruct (is_terminal_status (ap_status p)) eqn:Ht.
      - destruct Hin. apply elem_of_list_to_set. apply Hcs; [by left|done].
      - unfold terminal_frames. cbn. rewrite Ht. apply IH. intros; apply Hcs; [by right|done]. }
    rewrite app_nil_r. unfold terminal_frames, snapshot_frames. destruct Hwf as [_ Hf]. fold slots in Hf.
    clearbody slots. induction Hf as [|s slots Hs Hf IH]; cbn; [done|].
    destruct (state_is_terminal (slot_state s)); cbn; [|done]. rewrite Hs. by constructor.
Qed.

(** The closer cuts exactly behind the last terminal frame it waits for. *)
Lemma stream_closer_done total count l :
  (count < total)%nat → (count + length (terminal_frames l) = total)%nat →
  (stream_closer total count false l).2 = true ∧
  terminal_frames (stream_closer total count false l).1 = terminal_frames l.
Proof.
  revert count. induction l as [|p l IH]; intros count Hlt Heq; [cbn in Heq; lia|].
  unfold terminal_frames in *. cbn in *. destruct (is_terminal_status (ap_status p)) eqn:Ht; cbn in *.
  - destruct (Nat.leb_spec total (S count)) as [Hle|Hgt].
    + assert (List.filter (λ p, is_terminal_status (ap_status p)) l = []) as Hnil by (apply nil_length_inv; lia).
      rewrite Hnil. destruct l; cbn; rewrite Ht; done.
    + destruct (IH (S count)) as [H1 H2]; [lia|lia|].
      destruct (stream_closer total (S count) false l) as [out c]. cbn in *. rewrite Ht, H2. done.
  - destruct (IH count) as [H1 H2]; [lia|lia|].
    destruct (stream_closer total count false l) as [out c]. cbn in *. rewrite Ht. done.
Qed.

Lemma stream_closer_open total count l :
  (count + length (terminal_frames l) < total)%nat → stream_closer total count false l = (l, false).
Proof.
  revert count. induction l as [|p l IH]; intros count Hlt; [done|].
  unfold terminal_frames in *. cbn in *. destruct (is_terminal_status (ap_status p)) eqn:Ht; cbn in *.
  - destruct (Nat.leb_spec total (S count)); [lia|]. by rewrite IH by lia.
  - by rewrite IH by lia.
Qed.

Lemma snapshot_all slots :
  Forall (λ s, state_is_terminal (slot_state s) = true) slots → snapshot_frames slots = slot_last_progress <$> slots.
Proof. unfold snapshot_frames. induction 1 as [|s slots Hs _ IH]; cbn; [done|]. rewrite Hs. cbn. by rewrite IH. Qed.

Lemma length_snapshot rt : length (snapshot_frames (rt_per_distribution rt)) = terminal_slots rt.
Proof. unfold snapshot_frames, terminal_slots. apply length_fmap. Qed.

Lemma rsteps_inv c c' :
  rtc rstep c c' → count_inv c → slots_wf (rc_rt c) ∧ callers_wf c →
  count_inv c' ∧ slots_wf (rc_rt c') ∧ callers_wf c'.
Proof. induction 1; eauto using rstep_count_inv, rstep_wf. Qed.

Lemma rsteps_deliver snap ids n c c' :
  rtc rstep_plain c c' → deliver_inv snap ids n c → deliver_inv snap ids n c'.
Proof. induction 1; eauto using rstep_deliver. Qed.

Lemma plain_steps c c' : rtc rstep_plain c c' → rtc rstep c c'.
Proof. induction 1 as [|? ? ? [? ? Hs _]]; [done|by eapply rtc_l]. Qed.

(** A fresh bundle: every slot pending, with the pending frame of its own id. *)
Definition fresh_slots (slots : list PerDistributionProgress) : Prop :=
  NoDup (slot_id <$> slots) ∧
  Forall (λ s, state_is_terminal (slot_state s) = false ∧
               is_terminal_status (ap_status (slot_last_progress s)) = false) slots.

Lemma register_inv slots :
  fresh_slots slots →
  count_inv (mkRconf (register slots) []) ∧ slots_wf (register slots) ∧ callers_wf (mkRconf (register slots) []).
Proof.
  intros [Hnd Hf]. split_and!.
  - split; [|done]. cbn. unfold terminal_slots. cbn. induction Hf as [|s l [Hs _] _ IH]; cbn; [done|].
    rewrite Hs. apply IH. by apply NoDup_cons in Hnd as [_ ?].
  - split; [done|]. cbn. eapply Forall_impl; [exact Hf|]. cbn. intros s [-> ->]. done.
  - intros p. cbn. by intros ?%elem_of_nil.
Qed.

(** ** Properties *)

(** The terminal counter can be trusted under any interleaving of watchers
    and cancellations: it never runs ahead (when it says that every distribution
    terminated, every slot is terminal), and once no update is in flight it is
    exact. *)
Theorem terminal_count_exact slots c :
  fresh_slots slots → rtc rstep (mkRconf (register slots) []) c →
  (all_terminal (rc_rt c) = true →
     Forall (λ s, state_is_terminal (slot_state s) = true) (rt_per_distribution (rc_rt c))) ∧
  (rc_callers c = [] →
     rt_terminal_count (rc_rt c) = terminal_slots (rc_rt c) ∧
     (all_terminal (rc_rt c) = true ↔
      Forall (λ s, state_is_terminal (slot_state s) = true) (rt_per_distribution (rc_rt c)))).
Proof.
  intros Hf Hsteps. destruct (register_inv slots Hf) as [Hc Hw].
  destruct (rsteps_inv _ _ Hsteps Hc Hw) as [[Hcount Htot] _]. unfold all_terminal.
  rewrite <-filter_length_all. unfold terminal_slots in *. split.
  - intros Hle%Nat.leb_le. pose proof (filter_length_le (λ s, state_is_terminal (slot_state s)) (rt_per_distribution (rc_rt c))). lia.
  - intros Hnil. rewrite Hnil in Hcount. unfold uncounted in Hcount. cbn in Hcount.
    pose proof (filter_length_le (λ s, state_is_terminal (slot_state s)) (rt_per_distribution (rc_rt c))).
    split; [lia|]. rewrite Nat.leb_le. lia.
Qed.

(** A terminal state is final: no step changes a terminal distribution,
    except that an accepted cancellation relabels a failed one as cancelled. *)
Theorem terminal_is_final c c' i slot :
  rtc rstep c c' → rt_per_distribution (rc_rt c) !! i = Some slot → state_is_terminal (slot_state slot) = true →
  ∃ slot', rt_per_distribution (rc_rt c') !! i = Some slot' ∧
    (slot_state slot' = slot_state slot ∨ slot_state slot = DsFailed ∧ slot_state slot' = DsCancelled).
Proof.
  intros Hsteps. revert slot. induction Hsteps as [c|c c1 c' Hstep _ IH]; intros slot Hi Ht; [eauto|].
  assert (∃ slot1, rt_per_distribution (rc_rt c1) !! i = Some slot1 ∧
    (slot_state slot1 = slot_state slot ∨ slot_state slot = DsFailed ∧ slot_state slot1 = DsCancelled)) as (slot1 & Hi1 & Hs1).
  { destruct Hstep as [j s p rt rt' b cs Hf Hl|j p rt rt' b cs Hf Hl|b p rt cs1 cs2|p rt cs1 cs2]; cbn in *; [| |eauto..].
    1: destruct (locked_inv _ rt b rt' j s p (or_introl eq_refl) Hl) as (sl & Hj & _ & Hterm & ->).
    2: destruct (locked_inv _ rt b rt' j DsCancelled p (or_intror (conj eq_refl eq_refl)) Hl) as (sl & Hj & _ & Hterm & ->).
    all: cbn; destruct (decide (j = i)) as [->|Hne]; [|rewrite list_lookup_insert_ne by done; eauto].
    all: rewrite list_lookup_insert_eq by (by eapply lookup_lt_Some); eexists; split; [done|]; right.
    all: simplify_eq; destruct (Hterm Ht) as [E1 E2]; split; [exact E1|]; cbn; exact E2. }
  assert (state_is_terminal (slot_state slot1) = true) as Ht1 by (destruct Hs1 as [->|[_ ->]]; done).
  destruct (IH _ Hi1 Ht1) as (slot' & Hi' & Hs'). exists slot'. split; [done|].
  destruct Hs1 as [E1|[E1 E2]], Hs' as [E3|[E3 E4]];
    [left; congruence|right; split; congruence|right; split; congruence|congruence].
Qed.

(** A subscription is complete and never premature: for a subscriber that
    attaches at any moment of a bundle's life (updates in flight included) and
    keeps up with the broadcast, and as long as no failed distribution is relabelled
    afterwards, the stream stays open and passes everything on while some
    distribution is not terminal, and once all are and every update has been
    broadcast it closes having delivered each distribution's terminal frame exactly
    once. *)
Theorem subscription_exactly_once slots c1 c2 :
  fresh_slots slots → slots ≠ [] →
  rtc rstep (mkRconf (register slots) []) c1 → rtc rstep_plain c1 c2 →
  let slots1 := rt_per_distribution (rc_rt c1) in
  let slots2 := rt_per_distribution (rc_rt c2) in
  let received := Some <$> drop (length (rt_sent (rc_rt c1))) (rt_sent (rc_rt c2)) in
  let '(out, closed) := subscribe_stream slots1 (rt_total (rc_rt c1)) received in
  (Forall (λ s, state_is_terminal (slot_state s) = true) slots2 → rc_callers c2 = [] →
     closed = true ∧ terminal_frames out ≡ₚ slot_last_progress <$> slots2) ∧
  (¬ Forall (λ s, state_is_terminal (slot_state s) = true) slots2 →
     closed = false ∧ out = snapshot_frames slots1 ++ live_frames (snapshot_terminal_ids slots1) received).
Proof.
  intros Hf Hne Hpre Hpost slots1 slots2 received. destruct (register_inv slots Hf) as [Hc Hw].
  destruct (rsteps_inv _ _ Hpre Hc Hw) as (Hc1 & Hw1 & Hcs1).
  destruct (rsteps_inv _ _ (plain_steps _ _ Hpost) Hc1 (conj Hw1 Hcs1)) as ([Hc2 Htot2] & _).
  pose proof (rsteps_deliver _ _ _ _ _ Hpost (attach_deliver c1 Hw1 Hcs1)) as (_ & _ & _ & Hdel).
  fold slots1 slots2 in Hdel. rewrite fmap_app, live_frames_app, app_assoc, terminal_frames_app in Hdel.
  fold received in Hdel. set (inner := snapshot_frames slots1 ++ live_frames (snapshot_terminal_ids slots1) received) in *.
  assert (∀ c c', rtc rstep c c' → rt_total (rc_rt c') = rt_total (rc_rt c)) as Htotal.
  { clear. induction 1 as [|c c1 c' Hs _ IH]; [done|]. rewrite IH. clear IH.
    destruct Hs as [j s p rt rt' b cs Hf Hl|j p rt rt' b cs Hf Hl|b p rt cs1 cs2|p rt cs1 cs2]; cbn; try done.
    - destruct (locked_inv _ rt b rt' j s p (or_introl eq_refl) Hl) as (sl & _ & _ & _ & ->). done.
    - destruct (locked_inv _ rt b rt' j DsCancelled p (or_intror (conj eq_refl eq_refl)) Hl) as (sl & _ & _ & _ & ->). done. }
  pose proof (Htotal _ _ Hpre) as Ht1. pose proof (Htotal _ _ (plain_steps _ _ Hpost)) as Ht2. cbn in Ht1.
  assert (0 < length slots)%nat as Hpos by (destruct slots; [done|cbn; lia]).
  pose proof (Permutation_length Hdel) as Hlen. rewrite length_app in Hlen.
  unfold slots2 in Hlen at 1. rewrite length_snapshot in Hlen.
  unfold subscribe_stream. fold inner. destruct (Nat.eqb_spec (rt_total (rc_rt c1)) 0) as [E|_]; [lia|].
  destruct (stream_closer (rt_total (rc_rt c1)) 0 false inner) as [out closed] eqn:Hrun.
  pose proof (filter_length_all (λ s, state_is_terminal (slot_state s)) slots2) as Hall. split.
  - intros Hterm Hnil. rewrite Hnil in Hdel, Hlen. cbn in Hdel, Hlen.
    rewrite app_nil_r in Hdel. rewrite snapshot_all in Hdel by done. unfold terminal_slots in Hlen.
    fold slots2 in Hlen. rewrite (proj2 Hall Hterm) in Hlen. fold slots2 in Htot2.
    destruct (stream_closer_done (rt_total (rc_rt c1)) 0 inner) as [H1 H2]; [lia..|].
    rewrite Hrun in H1, H2. cbn [fst snd] in H1, H2. by rewrite H2.
  - intros Hnot. pose proof (filter_length_le (λ s, state_is_terminal (slot_state s)) slots2) as Hle.
    assert (length (List.filter (λ s, state_is_terminal (slot_state s)) slots2) ≠ length slots2) as Hne' by tauto.
    unfold terminal_slots in Hlen. fold slots2 in Hlen, Htot2.
    rewrite stream_closer_open in Hrun by lia. by simplify_eq.
Qed.

(** Relabelling closes streams early: a subscriber of a two-file bundle sees
    the first distribution fail and then, after an accepted cancellation, be
    relabelled; the second terminal frame of the same distribution is counted again
    and the stream closes although the other distribution is still pending. *)
Theorem relabel_closes_stream_early ida idb ta tb :
  let frame d t s := mkProgress d t s 0 0 None in
  let slot d t := mkSlot DsPending 0 0 None (frame d t STATUS_PENDING) in
  let rt0 := register [slot ida ta; slot idb tb] in
  let rt1 := (apply_progress 0 DsFailed (frame ida ta STATUS_FAILED) rt0).2 in
  let rt2 := (apply_cancellation 0 (frame ida ta STATUS_CANCELLED) rt1).2 in
  let '(out, closed) := subscribe_stream (rt_per_distribution rt0) (rt_total rt0) (Some <$> rt_sent rt2) in
  closed = true ∧ Forall (λ p, ap_distribution_id p = ida) out ∧
  slot_state <$> rt_per_distribution rt2 = [DsCancelled; DsPending] ∧ all_terminal rt2 = false.
Proof.
  cbn. rewrite !bool_decide_false by set_solver. cbn. split_and!; try done. by repeat constructor.
Qed.

(** A subscriber that lags loses terminal frames for good: if it is not
    polled while more than the 64-frame backlog goes out, the terminal frame of an
    early distribution is skipped, and the stream stays open although every
    distribution is terminal and nothing more will be sent. *)
Theorem lagging_subscriber_never_closes ida idb ta tb :
  let frame d t s := mkProgress d t s 0 0 None in
  let slot d t := mkSlot DsPending 0 0 None (frame d t STATUS_PENDING) in
  let rt0 := register [slot ida ta; slot idb tb] in
  let rt1 := (apply_progress 0 DsCompleted (frame ida ta STATUS_COMPLETED) rt0).2 in
  let rt2 := Nat.iter 64 (λ rt, (apply_progress 1 DsInProgress (frame idb tb STATUS_IN_PROGRESS) rt).2) rt1 in
  let rt3 := (apply_progress 1 DsCompleted (frame idb tb STATUS_COMPLETED) rt2).2 in
  all_terminal rt3 = true ∧
  (subscribe_stream (rt_per_distribution rt0) (rt_total rt0) (broadcast_recv (rt_sent rt3))).2 = false.
Proof.
  intros frame slot rt0 rt1 rt2 rt3.
  assert (rt_sent rt3 = frame ida ta STATUS_COMPLETED ::
    replicate 64 (frame idb tb STATUS_IN_PROGRESS) ++ [frame idb tb STATUS_COMPLETED]) as Hsent by (vm_compute; reflexivity).
  split; [vm_compute; reflexivity|]. rewrite Hsent. unfold subscribe_stream, broadcast_recv.
  change (Nat.leb (length _) PROGRESS_BACKLOG) with false. cbn iota.
  change (snapshot_terminal_ids _) with (∅ : gset string). rewrite live_frames_lag.
  rewrite stream_closer_open; [done|]. vm_compute. lia.
Qed.

(** ** Witnesses *)

Definition toy_frame (s : DistributionStatus) : AttachmentProgress := mkProgress "d1" "tok" s 0 0 None.

Definition toy_slots : list PerDistributionProgress := [mkSlot DsPending 0 0 None (toy_frame STATUS_PENDING)].

Lemma toy_slots_fresh : fresh_slots toy_slots.
Proof. split; [apply NoDup_singleton|by repeat constructor]. Qed.

Definition toy_start : rconf := mkRconf (register toy_slots) [].

(** One completed update, locked but neither counted nor broadcast yet, and then
    carried through. *)
Definition toy_locked : rconf :=
  mkRconf (progress_locked 0 DsCompleted (toy_frame STATUS_COMPLETED) (register toy_slots)).2
    [Counting true (toy_frame STATUS_COMPLETED)].

Definition toy_end : rconf :=
  mkRconf (apply_progress 0 DsCompleted (toy_frame STATUS_COMPLETED) (register toy_slots)).2 [].

Lemma toy_lock : rstep toy_start toy_locked.
Proof.
  apply (rstep_progress 0 DsCompleted (toy_frame STATUS_COMPLETED)); [|reflexivity].
  eexists. split; [reflexivity|]. split; reflexivity.
Qed.

Lemma toy_plain c c' : rstep c c' → (∀ s, s ∈ rt_per_distribution (rc_rt c) → slot_state s ≠ DsFailed) → rstep_plain c c'.
Proof. intros Hs Hn. split; [done|]. intros i slot Hi Hf. by destruct (Hn slot (list_elem_of_lookup_2 _ _ _ Hi)). Qed.

Lemma toy_finish : rtc rstep_plain toy_locked toy_end.
Proof.
  eapply rtc_l; [apply toy_plain; [apply (rstep_count true (toy_frame STATUS_COMPLETED) _ [] [])|]|].
  { by intros s [->|?%elem_of_nil]%elem_of_cons. }
  apply rtc_once. apply toy_plain; [apply (rstep_send (toy_frame STATUS_COMPLETED) _ [] [])|].
  by intros s [->|?%elem_of_nil]%elem_of_cons.
Qed.

Lemma toy_run : rtc rstep toy_start toy_end.
Proof. eapply rtc_l; [apply toy_lock|]. apply plain_steps, toy_finish. Qed.

Lemma terminal_count_exact_witness :
  rt_terminal_count (rc_rt toy_end) = terminal_slots (rc_rt toy_end).
Proof. apply (terminal_count_exact toy_slots toy_end toy_slots_fresh toy_run). reflexivity. Defined.

Lemma terminal_is_final_witness :
  ∃ slot', rt_per_distribution (rc_rt toy_end) !! O = Some slot' ∧
    (slot_state slot' = DsCompleted ∨ DsCompleted = DsFailed ∧ slot_state slot' = DsCancelled).
Proof.
  apply (terminal_is_final toy_locked toy_end 0 (slot_update DsCompleted (toy_frame STATUS_COMPLETED))
           (plain_steps _ _ toy_finish)); reflexivity.
Defined.

(** The subscriber attaches while the update is between lock and broadcast. *)
Lemma subscription_exactly_once_witness :
  (subscribe_stream (rt_per_distribution (rc_rt toy_locked)) 1
     (Some <$> drop 0 (rt_sent (rc_rt toy_end)))).2 = true.
Proof.
  pose proof (subscription_exactly_once toy_slots toy_locked toy_end toy_slots_fresh
    ltac:(discriminate) (rtc_once _ _ toy_lock) toy_finish) as H. cbv zeta in H.
  change (rt_total (rc_rt toy_locked)) with 1%nat in H.
  change (length (rt_sent (rc_rt toy_locked))) with O in H.
  destruct (subscribe_stream _ _ _) as [out closed]. apply H; [|reflexivity].
  repeat constructor.
Defined.
