(* ===== verification/Handlers.v ===== *)
(** * Attachment RPC handlers

    Model of [src/attachments/handlers.rs]: SendAttachments,
    GetAttachmentDistribution, CancelAttachmentDistribution, the per-distribution
    watcher tasks and the discovery-grace promoter, composed from validation,
    ingest, the registry and the runtime. Runtimes live in a heap and are named
    by address, because watchers keep the [Arc] of the runtime they were started
    with while the store may already map the bundle id to another one. *)

From S2P Require Import Prelude Journal Paths AttachConfig Validate Ingest Registry BundleRuntime.

(** ** peat-protocol's view of a distribution *)

Inductive TransferState := TsPending | TsConnecting | TsTransferring | TsCompleted | TsFailed.

Record NodeTransferStatus := mkNodeStatus {
  nt_node_id : string;
  nt_status : TransferState;
  nt_progress_bytes : Z;
  nt_total_bytes : Z;
  nt_error : option string;
}.

(** [node_statuses] lists the values of the map in iteration order. *)
Record DistStatus := mkDistStatus {
  ds_node_statuses : list NodeTransferStatus;
  ds_total_targets : Z;
  ds_is_complete : bool;
}.

Class FileDistributionStatus (D : Type) := {
  fd_status : DistributionHandle → D → result ServiceError DistStatus;
  fd_cancel : DistributionHandle → D → result ServiceError unit * D;
}.

(** ** Mapping functions *)

Definition cli_priority_to_proto (cli : AttachmentPriorityCli) : AttachmentPriority :=
  match cli with
  | CliBulk => PRIORITY_BULK
  | CliLow => PRIORITY_LOW
  | CliRoutine => PRIORITY_ROUTINE
  | CliPriority => PRIORITY_PRIORITY
  | CliCritical => PRIORITY_CRITICAL
  end.

Definition proto_priority_to_transfer (priority : option AttachmentPriority) (fallback : AttachmentPriorityCli)
  : TransferPriority :=
  let resolved :=
    match priority with
    | Some PRIORITY_UNSPECIFIED | None => cli_priority_to_proto fallback
    | Some v => v
    end in
  match resolved with
  | PRIORITY_BULK | PRIORITY_LOW => TpLow
  | PRIORITY_ROUTINE => TpNormal
  | PRIORITY_PRIORITY => TpHigh
  | PRIORITY_CRITICAL => TpCritical
  | PRIORITY_UNSPECIFIED => TpNormal
  end.

Definition bundle_status_to_proto (s : BundleStatus) : DistributionStatus :=
  match s with
  | Pending => STATUS_PENDING
  | InProgress => STATUS_IN_PROGRESS
  | Completed => STATUS_COMPLETED
  | Partial => STATUS_PARTIAL
  | Failed => STATUS_FAILED
  | Cancelled => STATUS_CANCELLED
  end.

Definition transfer_state_to_proto (s : TransferState) : DistributionStatus :=
  match s with
  | TsPending => STATUS_PENDING
  | TsConnecting | TsTransferring => STATUS_IN_PROGRESS
  | TsCompleted => STATUS_COMPLETED
  | TsFailed => STATUS_FAILED
  end.

(** The loop of [per_node_aggregate] over its three flags. *)
Definition aggregate_step (f : bool * bool * bool) (p : NodeTransferStatus) : bool * bool * bool :=
  let '(any_failed, any_running, all_completed) := f in
  match nt_status p with
  | TsFailed => (true, any_running, all_completed)
  | TsPending | TsConnecting | TsTransferring => (any_failed, true, false)
  | TsCompleted => f
  end.

Definition per_node_aggregate (per_node : list NodeTransferStatus) : DistributionStatus :=
  match per_node with
  | [] => STATUS_PENDING
  | _ =>
      let '(any_failed, any_running, all_completed) := foldl aggregate_step (false, false, true) per_node in
      if any_failed then STATUS_FAILED
      else if any_running then STATUS_IN_PROGRESS
      else if all_completed then STATUS_COMPLETED
      else STATUS_PENDING
  end.

Definition aggregated_to_distribution_state (s : DistributionStatus) : DistributionState :=
  match s with
  | STATUS_PENDING | STATUS_UNSPECIFIED => DsPending
  | STATUS_IN_PROGRESS => DsInProgress
  | STATUS_COMPLETED | STATUS_PARTIAL => DsCompleted
  | STATUS_FAILED => DsFailed
  | STATUS_CANCELLED => DsCancelled
  end.

(** [iter().map(progress_bytes).sum()] on u64 *)
Definition sum_progress (per_node : list NodeTransferStatus) : Z :=
  foldl (λ n p, wrapping_add_u64 n (nt_progress_bytes p)) 0 per_node.

(** [iter().find_map(|p| p.error.clone())] *)
Fixpoint first_error (per_node : list NodeTransferStatus) : option string :=
  match per_node with
  | [] => None
  | p :: rest => match nt_error p with Some e => Some e | None => first_error rest end
  end.

Record NodeTransferStateMsg := mkNodeState { ns_node_id : string; ns_status : DistributionStatus; ns_bytes : Z }.

Definition node_state_to_proto (p : NodeTransferStatus) : NodeTransferStateMsg :=
  mkNodeState (nt_node_id p) (transfer_state_to_proto (nt_status p)) (nt_progress_bytes p).

(** ** The attachment part of the node *)

(** One spawned watcher task. *)
Record WatcherTask := mkWatcher {
  wt_runtime : nat;
  wt_bundle_id : string;
  wt_file_index : nat;
  wt_handle : DistributionHandle;
  wt_token : string;
  wt_declared_ids : bool;
}.

(** One spawned discovery-grace promoter. *)
Record GracePromoter := mkPromoter {
  gp_distribution_id : string;
  gp_declared_ids : list string;
  gp_grace_secs : Z;
  gp_total_bytes : Z;
}.

Record AttachNode (B D : Type) := mkNode {
  an_registry : RegistryInner;
  an_runtimes : gmap string nat;
  an_heap : gmap nat BundleRuntime;
  an_next : nat;
  an_store : B;
  an_dist : D;
  an_sync_queue : list string;
  an_watchers : list WatcherTask;
  an_promoters : list GracePromoter;
}.
Arguments mkNode {B D}. Arguments an_registry {B D}. Arguments an_runtimes {B D}. Arguments an_heap {B D}.
Arguments an_next {B D}. Arguments an_store {B D}. Arguments an_dist {B D}. Arguments an_sync_queue {B D}.
Arguments an_watchers {B D}. Arguments an_promoters {B D}.

Definition IROH_DISTRIBUTION_COLLECTION : string := "file_distributions".

Record AttachmentHandleMsg := mkHandleMsg { hm_file_index : Z; hm_blob_token : string; hm_distribution_id : string }.

Record SendAttachmentsResponse := mkSendResponse { sr_bundle_id : string; sr_handles : list AttachmentHandleMsg }.

Definition build_response (id : string) (hs : list AttachmentHandleRecord) : SendAttachmentsResponse :=
  mkSendResponse id ((λ h, mkHandleMsg (Z.of_nat (hr_file_index h) mod 2 ^ 32) (hr_blob_token_hash h) (distribution_id h)) <$> hs).

(** [build_handle_records]: the [expect] on the request's file is an index in
    range, because ingest keeps the indices of the request. *)
Definition build_handle_records (req : SendAttachmentsRequest) (ingested : list IngestedBlob) : list AttachmentHandleRecord :=
  (λ ib, let original := req_files req !! ib_file_index ib in
         mkHandleRecord (ib_file_index ib) (bt_hash (ib_blob_token ib)) (ib_distribution_handle ib)
           (original ≫= fs_content_type) (original ≫= fs_display_name)) <$> ingested.

Definition bytes_total_of (ingested : list IngestedBlob) (h : AttachmentHandleRecord) : Z :=
  match List.find (λ ib, Nat.eqb (ib_file_index ib) (hr_file_index h)) ingested with
  | Some ib => bt_size_bytes (ib_blob_token ib)
  | None => 0
  end.

Definition initial_slot (ingested : list IngestedBlob) (h : AttachmentHandleRecord) : PerDistributionProgress :=
  let total := bytes_total_of ingested h in
  mkSlot DsPending 0 total None
    (mkProgress (distribution_id h) (hr_blob_token_hash h) STATUS_PENDING 0 total None).

Definition unimplemented_no_roots {A} (rpc : string) : result ConnectError A := Err (mkConnectError Unimplemented rpc).

(** [maybe_finalize_bundle] *)
Definition final_status (snap : list PerDistributionProgress) : BundleStatus :=
  if existsb (λ s, bool_decide (slot_state s = DsFailed)) snap then Failed
  else if existsb (λ s, bool_decide (slot_state s = DsCancelled)) snap then Cancelled
  else Completed.

Definition maybe_finalize_bundle (now : Z) (rt : BundleRuntime) (id : string) (reg : RegistryInner) : RegistryInner :=
  if negb (all_terminal rt) then reg else update_status now id (final_status (rt_per_distribution rt)) reg.

Section handlers.
Context {sha : Sha256} `{Os W} `{BlobStore B} `{FileDistribution D} `{FileDistributionStatus D}.
Variable open_nofollow : string → result IoError (list bytes).

Abbreviation node := (AttachNode B D).

Definition with_registry (reg : RegistryInner) (st : node) : node :=
  mkNode reg (an_runtimes st) (an_heap st) (an_next st) (an_store st) (an_dist st) (an_sync_queue st)
    (an_watchers st) (an_promoters st).

Definition with_services (store : B) (dist : D) (st : node) : node :=
  mkNode (an_registry st) (an_runtimes st) (an_heap st) (an_next st) store dist (an_sync_queue st)
    (an_watchers st) (an_promoters st).

Definition with_runtime (addr : nat) (rt : BundleRuntime) (st : node) : node :=
  mkNode (an_registry st) (an_runtimes st) (<[addr := rt]> (an_heap st)) (an_next st) (an_store st) (an_dist st)
    (an_sync_queue st) (an_watchers st) (an_promoters st).

(** Steps 6 and 7 of [send_attachments], after a successful ingest. *)
Definition register_bundle (cfg : AttachmentConfig) (now : Z) (id : string) (ident : BundleIdentity)
    (req : SendAttachmentsRequest) (declared : option (list string)) (ingested : list IngestedBlob) (st : node)
  : SendAttachmentsResponse * node :=
  let keys := (λ ib, IROH_DISTRIBUTION_COLLECTION +:+ ":" +:+ dh_distribution_id (ib_distribution_handle ib)) <$> ingested in
  let hs := build_handle_records req ingested in
  let reg_cfg := mkRegistryConfig (handle_retention_secs cfg) (max_known_bundles cfg) in
  let addr := an_next st in
  (build_response id hs,
   mkNode (insert reg_cfg (bundle_record_new now id ident hs) (an_registry st))
     (<[id := addr]> (an_runtimes st))
     (<[addr := register (initial_slot ingested <$> hs)]> (an_heap st))
     (S addr) (an_store st) (an_dist st) (an_sync_queue st ++ keys)
     (an_watchers st ++
        ((λ h, mkWatcher addr id (hr_file_index h) (hr_distribution_handle h) (hr_blob_token_hash h)
                 (match declared with Some (_ :: _) => true | _ => false end)) <$> hs))
     (an_promoters st ++
        match declared with
        | Some ids => (λ h, mkPromoter (distribution_id h) ids (discovery_grace_secs cfg) (bytes_total_of ingested h)) <$> hs
        | None => []
        end)).

(** [send_attachments]; [uuid] is what [Uuid::new_v4] would return. *)
Definition send_attachments (cfg : AttachmentConfig) (w : W) (now : Z) (uuid : string)
    (req : SendAttachmentsRequest) (st : node) : result ConnectError SendAttachmentsResponse * node :=
  if negb (has_roots cfg) then (unimplemented_no_roots "SendAttachments", st)
  else
    match validate_request w req cfg with
    | Err e => (Err e, st)
    | Ok validated =>
        let declared := match vb_scope validated with NodeList ids => Some ids | AllNodes => None end in
        if negb (queue_when_full cfg) && (max_concurrent_distributions cfg <=? non_terminal_count (an_registry st))
        then (resource_exhausted "max_concurrent_distributions", st)
        else
          let id := match req_bundle_id req with Some s => if is_empty_str s then uuid else s | None => uuid end in
          let ident := identity_from_validated (vb_files validated) in
          match check_resubmit now id ident (an_registry st) with
          | (Idempotent existing, reg) => (Ok (build_response id (handles existing)), with_registry reg st)
          | (Conflict _, reg) => (Err (mkConnectError AlreadyExists "bundle_id"), with_registry reg st)
          | (NotFound, reg) =>
              let priority := proto_priority_to_transfer (req_priority req) (default_priority cfg) in
              match ingest_bundle open_nofollow validated priority (an_store st) (an_dist st) with
              | (Err e, store, dist) => (Err e, with_services store dist (with_registry reg st))
              | (Ok ingested, store, dist) =>
                  let '(resp, st') :=
                    register_bundle cfg now id ident req declared ingested
                      (with_services store dist (with_registry reg st)) in
                  (Ok resp, st')
              end
          end
    end.

(** A handler returns, or panics in an [expect]. *)
Inductive outcome (A : Type) := Returns (a : A) | Panics.
Arguments Returns {A} a. Arguments Panics {A}.

Record GetResponse := mkGetResponse {
  gr_status : DistributionStatus;
  gr_bytes_transferred : Z;
  gr_bytes_total : Z;
  gr_per_node : list NodeTransferStateMsg;
  gr_error : option string;
}.

Definition find_handle (d : string) (r : BundleRecord) : option AttachmentHandleRecord :=
  List.find (λ h, bool_decide (distribution_id h = d)) (handles r).

Definition get_attachment_distribution (cfg : AttachmentConfig) (d : string) (st : node)
  : outcome (result ConnectError GetResponse) :=
  if negb (has_roots cfg) then Returns (unimplemented_no_roots "GetAttachmentDistribution")
  else
    match lookup_distribution d (an_registry st) with
    | None => Returns (Err (mkConnectError NotFoundCode "distribution_id"))
    | Some (_, bundle) =>
        match find_handle d bundle with
        | None => Panics
        | Some handle_rec =>
            match fd_status (hr_distribution_handle handle_rec) (an_dist st) with
            | Err _ => Returns (Err (mkConnectError Internal "status"))
            | Ok s =>
                let per_node := ds_node_statuses s in
                let proto_status :=
                  if is_terminal (status bundle) then bundle_status_to_proto (status bundle)
                  else per_node_aggregate per_node in
                let fallback_total := default 0 (fi_size_bytes <$> identity bundle !! hr_file_index handle_rec) in
                let bytes_total := match per_node with p :: _ => nt_total_bytes p | [] => fallback_total end in
                Returns (Ok (mkGetResponse proto_status (sum_progress per_node) bytes_total
                               (node_state_to_proto <$> per_node) (first_error per_node)))
            end
        end
    end.

(** [cancel_attachment_distribution]; the response is [was_cancelled]. *)
Definition cancel_attachment_distribution (cfg : AttachmentConfig) (now : Z) (d : string) (st : node)
  : outcome (result ConnectError bool) * node :=
  if negb (has_roots cfg) then (Returns (unimplemented_no_roots "CancelAttachmentDistribution"), st)
  else
    match lookup_distribution d (an_registry st) with
    | None => (Returns (Err (mkConnectError NotFoundCode "distribution_id")), st)
    | Some (id, bundle) =>
        if is_terminal (status bundle) then (Returns (Ok false), st)
        else
          match find_handle d bundle with
          | None => (Panics, st)
          | Some handle_rec =>
              match fd_cancel (hr_distribution_handle handle_rec) (an_dist st) with
              | (Err _, dist) => (Returns (Err (mkConnectError Internal "cancel")), with_services (an_store st) dist st)
              | (Ok _, dist) =>
                  let st1 := with_services (an_store st) dist st in
                  let progress := mkProgress d (hr_blob_token_hash handle_rec) STATUS_CANCELLED 0 0 None in
                  match an_runtimes st1 !! id ≫= (λ addr, (addr,.) <$> an_heap st1 !! addr) with
                  | Some (addr, rt) =>
                      let rt' := (apply_cancellation (hr_file_index handle_rec) progress rt).2 in
                      let st2 := with_runtime addr rt' st1 in
                      (Returns (Ok true), with_registry (maybe_finalize_bundle now rt' id (an_registry st2)) st2)
                  | None =>
                      (Returns (Ok true), with_registry (update_status now id Cancelled (an_registry st1)) st1)
                  end
              end
          end
    end.

(** ** Watcher tasks *)

Definition watcher_apply (wt : WatcherTask) (s : DistributionState) (p : AttachmentProgress) (st : node) : node :=
  match an_heap st !! wt_runtime wt with
  | Some rt => with_runtime (wt_runtime wt) (apply_progress (wt_file_index wt) s p rt).2 st
  | None => st
  end.

Definition watcher_finalize (wt : WatcherTask) (now : Z) (st : node) : node :=
  match an_heap st !! wt_runtime wt with
  | Some rt => with_registry (maybe_finalize_bundle now rt (wt_bundle_id wt) (an_registry st)) st
  | None => st
  end.

Definition watcher_frame (wt : WatcherTask) (s : DistributionStatus) (transferred total : Z) (err : option string)
  : AttachmentProgress :=
  mkProgress (dh_distribution_id (wt_handle wt)) (wt_token wt) s transferred total err.

(** The task up to its loop: the initial status check and the subscription.
    The boolean says whether it enters the loop. *)
Definition watcher_start (wt : WatcherTask) (now : Z) (initial : result ServiceError DistStatus)
    (subscribe : result ServiceError unit) (st : node) : bool * node :=
  match initial with
  | Ok s =>
      if (ds_total_targets s =? 0) && negb (wt_declared_ids wt) then
        (false, watcher_finalize wt now (watcher_apply wt DsCompleted (watcher_frame wt STATUS_COMPLETED 0 0 None) st))
      else
        match subscribe with
        | Ok _ => (true, st)
        | Err _ =>
            (false, watcher_finalize wt now
                      (watcher_apply wt DsFailed (watcher_frame wt STATUS_FAILED 0 0 (Some "subscribe_progress failed"%string)) st))
        end
  | Err _ =>
      (false, watcher_finalize wt now
                (watcher_apply wt DsFailed (watcher_frame wt STATUS_FAILED 0 0 (Some "initial status check failed"%string)) st))
  end.

(** [rx.recv().await] in the loop *)
Inductive recv := Received (s : DistStatus) | Lagged | Closed.

Definition watcher_iter (wt : WatcherTask) (now : Z) (r : recv) (st : node) : bool * node :=
  match r with
  | Received s =>
      let per_node := ds_node_statuses s in
      let aggregated := per_node_aggregate per_node in
      let p := watcher_frame wt aggregated (sum_progress per_node)
                 (match per_node with p :: _ => nt_total_bytes p | [] => 0 end) (first_error per_node) in
      let st1 := watcher_apply wt (aggregated_to_distribution_state aggregated) p st in
      if ds_is_complete s then (false, watcher_finalize wt now st1) else (true, st1)
  | Lagged => (true, st)
  | Closed => (false, watcher_finalize wt now st)
  end.

(** ** Discovery grace *)

Record DistributionDoc := mkDistributionDoc { doc_status : string; doc_node_statuses : gmap string NodeTransferStatus }.

Definition grace_failed (id : string) (total_bytes : Z) : NodeTransferStatus :=
  mkNodeStatus id TsFailed 0 total_bytes (Some "discovery grace expired: peer never connected"%string).

(** What [spawn_discovery_grace_promoter] writes once the grace has elapsed. *)
Definition grace_writes (gp : GracePromoter) (doc : result ServiceError (option DistributionDoc)) : list NodeTransferStatus :=
  match doc with
  | Ok (Some d) =>
      if negb (bool_decide (doc_status d = "distributing"%string)) then []
      else
        (λ id, grace_failed id (gp_total_bytes gp)) <$>
          List.filter (λ id, negb (bool_decide (is_Some (doc_node_statuses d !! id)))) (gp_declared_ids gp)
  | _ => []
  end.

End handlers.
Arguments Returns {A} a. Arguments Panics {A}.
