(* ===== verification/HandlersFacts.v ===== *)
(** * Correctness of the attachment handlers *)

From S2P Require Import Prelude Journal Paths AttachConfig Validate Ingest Registry BundleRuntime Handlers.

#[global] Instance TransferState_eq_dec : EqDecision TransferState.
Proof. solve_decision. Defined.

(** ** Aggregation *)

Definition running (s : TransferState) : bool :=
  match s with TsPending | TsConnecting | TsTransferring => true | _ => false end.

Definition has_failed (l : list NodeTransferStatus) : bool :=
  existsb (λ p, match nt_status p with TsFailed => true | _ => false end) l.

Definition has_running (l : list NodeTransferStatus) : bool := existsb (λ p, running (nt_status p)) l.

Lemma aggregate_fold l f r c :
  foldl aggregate_step (f, r, c) l = (f || has_failed l, r || has_running l, c && negb (has_running l)).
Proof.
  revert f r c. induction l as [|p l IH]; intros f r c; cbn.
  - by rewrite !orb_false_r, andb_true_r.
  - unfold has_failed, has_running in *. cbn. destruct (nt_status p); cbn; rewrite IH; cbn;
      rewrite ?orb_true_r, ?orb_assoc, ?andb_false_r; try done; by destruct f, r, c.
Qed.

Lemma per_node_aggregate_eq l :
  per_node_aggregate l =
  if bool_decide (l = []) then STATUS_PENDING
  else if has_failed l then STATUS_FAILED
  else if has_running l then STATUS_IN_PROGRESS
  else STATUS_COMPLETED.
Proof.
  destruct l as [|p l]; [done|]. unfold per_node_aggregate. rewrite aggregate_fold. cbn [orb andb].
  rewrite bool_decide_false by done. destruct (has_failed (p :: l)), (has_running (p :: l)); done.
Qed.

Lemma existsb_perm {A} (f : A → bool) l l' : l ≡ₚ l' → existsb f l = existsb f l'.
Proof.
  induction 1 as [|x l l' _ IH|x y l|l1 l2 l3 _ IH1 _ IH2]; cbn; [done|by rewrite IH| |by rewrite IH1].
  rewrite !orb_assoc. f_equal. apply orb_comm.
Qed.

#[global] Instance has_failed_perm : Proper ((≡ₚ) ==> eq) has_failed.
Proof. intros l l' Hp. by apply existsb_perm. Qed.

#[global] Instance has_running_perm : Proper ((≡ₚ) ==> eq) has_running.
Proof. intros l l' Hp. by apply existsb_perm. Qed.

Section facts.
Context {sha : Sha256} `{Os W} `{BlobStore B} `{FileDistribution D} `{FileDistributionStatus D}.
Variable open_nofollow : string → result IoError (list bytes).

(** What only the registry decides about a state: everything else is kept. *)
Definition same_runtime (st st' : AttachNode B D) : Prop :=
  an_runtimes st' = an_runtimes st ∧ an_heap st' = an_heap st ∧ an_next st' = an_next st ∧
  an_sync_queue st' = an_sync_queue st ∧ an_watchers st' = an_watchers st ∧ an_promoters st' = an_promoters st.

Lemma insert_lookup cfg record inner :
  bundles (insert cfg record inner) !! bundle_id record = Some record.
Proof. unfold insert. cbn. apply lookup_insert_eq. Qed.

(** The record under a bundle id after a successful send answers for it. *)
Definition answers (id : string) (ident : BundleIdentity) (resp : SendAttachmentsResponse) (reg : RegistryInner) : Prop :=
  ∃ r, bundles reg !! id = Some r ∧ allows_reuse_with_different_files (status r) = false ∧
    identity r = ident ∧ resp = build_response id (handles r).

Definition request_id (uuid : string) (req : SendAttachmentsRequest) : string :=
  match req_bundle_id req with Some s => if is_empty_str s then uuid else s | None => uuid end.

Lemma check_resubmit_answer now id ident inner :
  check_resubmit now id ident inner =
  match bundles inner !! id with
  | None => (NotFound, inner)
  | Some r =>
      if allows_reuse_with_different_files (status r) then (NotFound, drop_record r inner)
      else if bool_decide (identity r = ident) then
        (Idempotent (touch now r), mkRegistryInner (alter (touch now) id (bundles inner)) (distribution_index inner))
      else (Conflict (created_at r), inner)
  end.
Proof.
  unfold check_resubmit, check_resubmit_probe, check_resubmit_commit.
  destruct (bundles inner !! id) as [r|]; [|done].
  destruct (allows_reuse_with_different_files (status r)); [done|]. by case_bool_decide.
Qed.

Lemma send_ok_answers cfg w now uuid req st resp st' :
  send_attachments open_nofollow cfg w now uuid req st = (Ok resp, st') →
  ∃ v, validate_request w req cfg = Ok v ∧ has_roots cfg = true ∧
    answers (request_id uuid req) (identity_from_validated (vb_files v)) resp (an_registry st').
Proof.
  unfold send_attachments. fold (request_id uuid req). destruct (has_roots cfg); cbn [negb]; [|done].
  destruct (validate_request w req cfg) as [v|e]; [|done]. destruct (_ && _); [done|].
  rewrite check_resubmit_answer. set (id := request_id uuid req). set (ident := identity_from_validated (vb_files v)).
  intros Hs. exists v. split_and!; [done..|]. revert Hs.
  assert (∀ reg, (match ingest_bundle open_nofollow v (proto_priority_to_transfer (req_priority req) (default_priority cfg))
      (an_store st) (an_dist st) with
    | (Err e, store, dist) => (Err e, with_services store dist (with_registry reg st))
    | (Ok ingested, store, dist) =>
        let '(resp, st') := register_bundle cfg now id ident req
          (match vb_scope v with NodeList ids => Some ids | AllNodes => None end) ingested
          (with_services store dist (with_registry reg st)) in (Ok resp, st')
    end) = (Ok resp, st') → answers id ident resp (an_registry st')) as Hfresh.
  { intros reg. destruct (ingest_bundle _ _ _ _ _) as [[[ingested|e] store] dist]; [|done].
    unfold register_bundle. intros ?; simplify_eq. eexists.
    split; [exact (insert_lookup _ (bundle_record_new now id ident _) _)|]. done. }
  destruct (bundles (an_registry st) !! id) as [r|] eqn:Hr; [|apply Hfresh].
  destruct (allows_reuse_with_different_files (status r)) eqn:Ha; [apply Hfresh|].
  case_bool_decide as Hi; [|done]. intros ?; simplify_eq. exists (touch now r). cbn.
  rewrite lookup_alter_eq, Hr. done.
Qed.

Lemma find_handle_Some d r : (∃ h, h ∈ handles r ∧ distribution_id h = d) → ∃ h, find_handle d r = Some h ∧ distribution_id h = d.
Proof.
  intros (h & Hh & Hd). unfold find_handle. induction (handles r) as [|x l IH]; [by apply elem_of_nil in Hh|].
  cbn. case_bool_decide as Hx; [eauto|]. apply IH. by apply elem_of_cons in Hh as [->|?].
Qed.

Lemma lookup_distribution_handle d reg id r :
  registry_inv reg → lookup_distribution d reg = Some (id, r) →
  bundles reg !! id = Some r ∧ ∃ h, find_handle d r = Some h ∧ distribution_id h = d.
Proof.
  intros [Hid Hidx] Hl. unfold lookup_distribution in Hl.
  destruct (distribution_index reg !! d) as [id'|] eqn:Hd; cbn in Hl; [|done].
  destruct (bundles reg !! id') as [r'|] eqn:Hr; cbn in Hl; simplify_eq.
  split; [done|]. apply find_handle_Some. apply Hidx in Hd as (r' & Hr' & Hin).
  rewrite Hr in Hr'. simplify_eq. apply list_elem_of_fmap in Hin as (h & -> & Hh). eauto.
Qed.

End facts.

(** ** Properties *)

(** Per-peer aggregation is the documented contract, whatever the iteration
    order of the peer map: PENDING iff there are no peers, FAILED iff some peer
    failed, IN_PROGRESS iff none failed and some is still running, COMPLETED iff
    there are peers and all completed. *)
Theorem aggregate_contract l l' :
  l ≡ₚ l' → per_node_aggregate l = per_node_aggregate l' ∧
  (per_node_aggregate l = STATUS_PENDING ↔ l = []) ∧
  (per_node_aggregate l = STATUS_FAILED ↔ ∃ p, p ∈ l ∧ nt_status p = TsFailed) ∧
  (per_node_aggregate l = STATUS_IN_PROGRESS ↔
     (∀ p, p ∈ l → nt_status p ≠ TsFailed) ∧ ∃ p, p ∈ l ∧ running (nt_status p) = true) ∧
  (per_node_aggregate l = STATUS_COMPLETED ↔ l ≠ [] ∧ ∀ p, p ∈ l → nt_status p = TsCompleted).
Proof.
  intros Hp. rewrite !per_node_aggregate_eq.
  assert (has_failed l = true ↔ ∃ p, p ∈ l ∧ nt_status p = TsFailed) as Hf.
  { unfold has_failed. rewrite existsb_exists. split; intros (p & Hin & Hs); exists p.
    - apply list_elem_of_In in Hin. split; [done|]. by destruct (nt_status p).
    - apply list_elem_of_In in Hin. by rewrite Hs. }
  assert (has_running l = true ↔ ∃ p, p ∈ l ∧ running (nt_status p) = true) as Hr.
  { unfold has_running. rewrite existsb_exists. by setoid_rewrite list_elem_of_In. }
  split.
  { rewrite (has_failed_perm _ _ Hp), (has_running_perm _ _ Hp). destruct (decide (l' = [])) as [->|Hne].
    - apply Permutation_nil_r in Hp as ->. done.
    - rewrite !bool_decide_false; [done|done|]. intros ->. by apply Permutation_nil_l in Hp. }
  destruct (decide (l = [])) as [->|Hne]; [rewrite bool_decide_true by done; set_solver|].
  rewrite bool_decide_false by done.
  destruct (has_failed l) eqn:Ef; [|destruct (has_running l) eqn:Er].
  - assert (∃ p, p ∈ l ∧ nt_status p = TsFailed) as (p & Hin & Hs) by (by apply Hf).
    split_and!; split; try done; [by exists p|by intros [Hno _]; destruct (Hno p)|].
    intros [_ Hall]. by rewrite (Hall p Hin) in Hs.
  - assert (∃ p, p ∈ l ∧ running (nt_status p) = true) as (p & Hin & Hs) by (by apply Hr).
    split_and!; split; try done; [by intros ?%Hf| |].
    + intros _. split; [|by exists p]. intros q Hq Hs'. assert (false = true) by (apply Hf; by exists q). done.
    + intros [_ Hall]. by rewrite (Hall p Hin) in Hs.
  - split_and!; split; try done; [by intros ?%Hf|by intros [_ ?%Hr]|].
    intros _. split; [done|]. intros p Hin. apply dec_stable. intros Hs.
    assert (false = true); [|done]. destruct (nt_status p) eqn:Hst; [..|done|].
    1-3: apply Hr; exists p; by rewrite Hst.
    apply Hf; by exists p.
Qed.

Section properties.
Context {sha : Sha256} `{Os W} `{BlobStore B} `{FileDistribution D} `{FileDistributionStatus D}.
Variable open_nofollow : string → result IoError (list bytes).

(** Resubmission is idempotent end to end: after a send that succeeded, the
    same request (same bundle id, same validated files) sent again while the bundle
    is not failed or cancelled and a slot is free gets the very same response,
    and starts no ingest, distribution, watcher or fanout. *)
Theorem resubmit_is_idempotent cfg w now uuid req st resp st1 w2 now2 uuid2 v v2 :
  send_attachments open_nofollow cfg w now uuid req st = (Ok resp, st1) →
  validate_request w req cfg = Ok v → validate_request w2 req cfg = Ok v2 →
  identity_from_validated (vb_files v2) = identity_from_validated (vb_files v) →
  req_bundle_id req = Some (sr_bundle_id resp) → sr_bundle_id resp ≠ ""%string →
  (queue_when_full cfg = true ∨ non_terminal_count (an_registry st1) < max_concurrent_distributions cfg) →
  ∃ st2, send_attachments open_nofollow cfg w2 now2 uuid2 req st1 = (Ok resp, st2) ∧
    same_runtime st1 st2 ∧ an_store st2 = an_store st1 ∧ an_dist st2 = an_dist st1 ∧
    distribution_index (an_registry st2) = distribution_index (an_registry st1).
Proof.
  intros Hs Hv Hv2 Hident Hid Hne Hcap.
  destruct (send_ok_answers _ _ _ _ _ _ _ _ _ Hs) as (v' & Hv' & Hroots & r & Hr & Hreuse & Hri & Hresp).
  assert (v' = v) as -> by congruence.
  assert (request_id uuid req = sr_bundle_id resp) as Hreq.
  { unfold request_id. rewrite Hid. by destruct (sr_bundle_id resp). }
  unfold send_attachments. rewrite Hroots, Hv2. cbn [negb].
  replace (negb (queue_when_full cfg) && _) with false.
  2: { symmetry. destruct Hcap as [->|Hlt]; [done|]. apply andb_false_iff. right. by apply Z.leb_gt. }
  fold (request_id uuid2 req). assert (request_id uuid2 req = request_id uuid req) as ->.
  { unfold request_id. rewrite Hid. by destruct (sr_bundle_id resp). }
  rewrite check_resubmit_answer, Hr, Hreuse, bool_decide_true by (by rewrite Hident). cbn.
  eexists. split; [by rewrite Hresp|]. done.
Qed.

(** A rejected send leaves no trace: whatever the error, no runtime, watcher,
    promoter or fanout entry was created, and the registry is as before, except that
    a failed or cancelled bundle under that id may have been released. *)
Theorem rejected_send_leaves_no_trace cfg w now uuid req st e st' :
  send_attachments open_nofollow cfg w now uuid req st = (Err e, st') →
  same_runtime st st' ∧
  (an_registry st' = an_registry st ∨
   ∃ r, bundles (an_registry st) !! request_id uuid req = Some r ∧
     allows_reuse_with_different_files (status r) = true ∧ an_registry st' = drop_record r (an_registry st)).
Proof.
  unfold send_attachments. fold (request_id uuid req). destruct (has_roots cfg); cbn [negb]; [|by intros ?; simplify_eq; split; [|left]].
  destruct (validate_request w req cfg) as [v|?]; [|by intros ?; simplify_eq; split; [|left]].
  destruct (_ && _); [by intros ?; simplify_eq; split; [|left]|].
  rewrite check_resubmit_answer.
  destruct (bundles (an_registry st) !! request_id uuid req) as [r|] eqn:Hr.
  - destruct (allows_reuse_with_different_files (status r)) eqn:Ha.
    + destruct (ingest_bundle _ _ _ _ _) as [[[ingested|?] store] dist]; [by cbn; intros|].
      intros ?; simplify_eq. split; [done|]. right. exists r. done.
    + case_bool_decide; intros ?; simplify_eq. split; [done|]. by left.
  - destruct (ingest_bundle _ _ _ _ _) as [[[ingested|?] store] dist]; [by cbn; intros|].
    intros ?; simplify_eq. split; [done|]. by left.
Qed.

(** Status queries and cancellations never panic on a consistent registry,
    and a query on a terminal bundle reports the bundle's own status, whatever the
    peers say. *)
Theorem queries_never_panic cfg now d (st : AttachNode B D) :
  registry_inv (an_registry st) →
  get_attachment_distribution cfg d st ≠ Panics ∧
  (cancel_attachment_distribution cfg now d st).1 ≠ Panics ∧
  ∀ id r resp, lookup_distribution d (an_registry st) = Some (id, r) → is_terminal (status r) = true →
    get_attachment_distribution cfg d st = Returns (Ok resp) → gr_status resp = bundle_status_to_proto (status r).
Proof.
  intros Hinv. unfold get_attachment_distribution, cancel_attachment_distribution.
  destruct (has_roots cfg); cbn [negb]; [|done].
  destruct (lookup_distribution d (an_registry st)) as [[id r]|] eqn:Hl; [|done].
  destruct (lookup_distribution_handle d _ id r Hinv Hl) as (_ & h & Hh & _). rewrite Hh.
  split_and!.
  - by destruct (fd_status _ _).
  - destruct (is_terminal (status r)); [done|]. destruct (fd_cancel _ _) as [[]]; [|done].
    by destruct (_ ≫= _) as [[]|].
  - intros id' r' resp Heq Ht. simplify_eq. rewrite Ht. destruct (fd_status _ _); [|done].
    intros ?; by simplify_eq.
Qed.

(** A stale watcher overwrites its successor: a watcher that still holds the
    finished runtime of an earlier submission of a bundle id, when its channel
    closes, sets the status of whatever bundle now has that id from the old
    runtime, although the new bundle's own runtime is another one and not
    finished. *)
Theorem stale_watcher_overwrites_status (st : AttachNode B D) wt now old addr rt r :
  an_heap st !! wt_runtime wt = Some old → all_terminal old = true →
  an_runtimes st !! wt_bundle_id wt = Some addr → addr ≠ wt_runtime wt →
  an_heap st !! addr = Some rt → all_terminal rt = false →
  bundles (an_registry st) !! wt_bundle_id wt = Some r → status r = Pending →
  let st' := (watcher_iter wt now Closed st).2 in
  ∃ r', bundles (an_registry st') !! wt_bundle_id wt = Some r' ∧
    status r' = final_status (rt_per_distribution old) ∧ is_terminal (status r') = true ∧
    handles r' = handles r ∧ an_heap st' !! addr = Some rt.
Proof.
  intros Hold Hterm _ Hne Hrt _ Hr _ st'. unfold st', watcher_iter, watcher_finalize. rewrite Hold.
  unfold maybe_finalize_bundle. rewrite Hterm. cbn. rewrite lookup_alter_eq, Hr. eexists. split; [done|].
  split_and!; try done. cbn. unfold final_status. by repeat case_match.
Qed.

(** Cancelling a distribution that already completed answers
    [was_cancelled = true], as long as another distribution keeps the bundle
    alive: the service is asked to cancel, the slot stays completed. *)
Theorem cancel_of_completed_reports_true cfg now d (st : AttachNode B D) id r h dist addr rt slot :
  has_roots cfg = true → lookup_distribution d (an_registry st) = Some (id, r) → is_terminal (status r) = false →
  find_handle d r = Some h → fd_cancel (hr_distribution_handle h) (an_dist st) = (Ok tt, dist) →
  an_runtimes st !! id = Some addr → an_heap st !! addr = Some rt →
  rt_per_distribution rt !! hr_file_index h = Some slot → slot_state slot = DsCompleted →
  (cancel_attachment_distribution cfg now d st).1 = Returns (Ok true) ∧
  an_heap (cancel_attachment_distribution cfg now d st).2 !! addr = Some rt.
Proof.
  intros Hroots Hl Hnt Hh Hc Ha Hrt Hs Hst. unfold cancel_attachment_distribution.
  rewrite Hroots, Hl, Hnt, Hh, Hc. cbn [negb with_services an_runtimes an_heap]. rewrite Ha. cbn. rewrite Hrt. cbn.
  split; [done|]. unfold apply_cancellation, cancellation_locked. rewrite Hs, Hst. cbn. apply lookup_insert_eq.
Qed.

End properties.

(** ** Witnesses: a node with one allowlisted directory *)

From stdpp Require Import pretty.

Definition counting_dist : FileDistribution nat := {|
  distribute t scope priority n := (Ok (mkDistributionHandle ("d" +:+ pretty n)), S n);
|}.

Definition counting_status : FileDistributionStatus nat := {|
  fd_status h n := Ok (mkDistStatus [] 1 false);
  fd_cancel h n := (Ok tt, n);
|}.

Definition empty_node : AttachNode (gset string) nat := mkNode registry_new ∅ ∅ 0 ∅ O [] [] [].

Definition hello_spec : FileSpec := mkFileSpec "out" "a.txt" 5 (replicate 32 Byte.x6f) None None.

Definition bundle_request (files : list FileSpec) : SendAttachmentsRequest :=
  mkSendRequest files (Some (mkScopeSpec (Some ScopeAllNodes))) (Some "B"%string) None.

Definition toy_send (now : Z) (req : SendAttachmentsRequest) (st : AttachNode (gset string) nat) :=
  send_attachments (sha := toy_sha256) (H := toy_os) (H0 := toy_store) (H1 := counting_dist)
    toy_open toy_config toy_disk now "uuid" req st.

Definition sent_node : AttachNode (gset string) nat := (toy_send 10 (bundle_request [hello_spec]) empty_node).2.

Definition sent_response : SendAttachmentsResponse :=
  mkSendResponse "B" [mkHandleMsg 0 "hello" "d0"].

Lemma aggregate_contract_witness :
  let a := mkNodeStatus "a" TsCompleted 5 5 None in let b := mkNodeStatus "b" TsTransferring 1 5 None in
  per_node_aggregate [a; b] = per_node_aggregate [b; a].
Proof. intros a b. exact (proj1 (aggregate_contract [a; b] [b; a] (perm_swap b a []))). Defined.

Lemma resubmit_is_idempotent_witness :
  ∃ st2, toy_send 20 (bundle_request [hello_spec]) sent_node = (Ok sent_response, st2) ∧ an_store st2 = an_store sent_node.
Proof.
  destruct (validate_request (H := toy_os) toy_disk (bundle_request [hello_spec]) toy_config) as [v|] eqn:Hv;
    [|vm_compute in Hv; discriminate].
  destruct (resubmit_is_idempotent (sha := toy_sha256) (H := toy_os) (H0 := toy_store) (H1 := counting_dist) toy_open
    toy_config toy_disk 10 "uuid" (bundle_request [hello_spec]) empty_node sent_response sent_node toy_disk 20 "uuid" v v)
    as (st2 & Hrun & _ & Hst & _).
  - vm_compute. reflexivity.
  - exact Hv.
  - exact Hv.
  - reflexivity.
  - reflexivity.
  - discriminate.
  - right. vm_compute. reflexivity.
  - exists st2. exact (conj Hrun Hst).
Defined.

(** The declared hash is wrong: ingest fails. *)
Lemma rejected_send_leaves_no_trace_witness :
  same_runtime empty_node (toy_send 10 (bundle_request [mkFileSpec "out" "a.txt" 5 (replicate 32 Byte.x00) None None]) empty_node).2.
Proof.
  destruct (toy_send 10 _ empty_node) as [r st'] eqn:Hrun. destruct r as [resp|e]; [vm_compute in Hrun; discriminate|].
  apply (rejected_send_leaves_no_trace (sha := toy_sha256) (H := toy_os) (H0 := toy_store) (H1 := counting_dist)
    toy_open _ _ _ _ _ _ _ _ Hrun).
Defined.

Lemma queries_never_panic_witness :
  get_attachment_distribution (H2 := counting_status) toy_config "d9" empty_node ≠ Panics.
Proof.
  apply (queries_never_panic (H2 := counting_status) toy_config 10 "d9" empty_node).
  split; [intros id r Hr; vm_compute in Hr; discriminate|].
  intros d id. split; [intros Hd; vm_compute in Hd; discriminate|]. intros (r & Hr & _). vm_compute in Hr. discriminate.
Defined.

(** Cancel the bundle and submit it again: the first watcher is still there. *)
Definition cancelled_node : AttachNode (gset string) nat :=
  (cancel_attachment_distribution (H2 := counting_status) toy_config 20 "d0" sent_node).2.

Definition resent_node : AttachNode (gset string) nat := (toy_send 30 (bundle_request [hello_spec]) cancelled_node).2.

Definition first_watcher : WatcherTask := mkWatcher 0 "B" 0 (mkDistributionHandle "d0") "hello" false.

Lemma stale_watcher_overwrites_status_witness :
  head (an_watchers resent_node) = Some first_watcher ∧
  ∃ r', bundles (an_registry (watcher_iter first_watcher 40 Closed resent_node).2) !! "B"%string = Some r' ∧
    status r' = Cancelled ∧ distribution_ids r' = ["d1"%string].
Proof.
  split; [vm_compute; reflexivity|].
  destruct (an_heap resent_node !! 0%nat) as [old|] eqn:Hold; [|vm_compute in Hold; discriminate].
  destruct (an_heap resent_node !! 1%nat) as [rt|] eqn:Hrt; [|vm_compute in Hrt; discriminate].
  destruct (bundles (an_registry resent_node) !! "B"%string) as [r|] eqn:Hr; [|vm_compute in Hr; discriminate].
  destruct (stale_watcher_overwrites_status resent_node first_watcher 40 old 1 rt r)
    as (r' & Hr' & Hst & _ & Hh & _).
  - exact Hold.
  - vm_compute in Hold. injection Hold as <-. reflexivity.
  - vm_compute. reflexivity.
  - discriminate.
  - exact Hrt.
  - vm_compute in Hrt. injection Hrt as <-. reflexivity.
  - exact Hr.
  - vm_compute in Hr. injection Hr as <-. reflexivity.
  - exists r'. split; [exact Hr'|]. split.
    + rewrite Hst. vm_compute in Hold. injection Hold as <-. reflexivity.
    + unfold distribution_ids. rewrite Hh. vm_compute in Hr. injection Hr as <-. reflexivity.
Defined.

(** Two files; the first completes, then its distribution is cancelled. *)
Definition two_file_node : AttachNode (gset string) nat :=
  let st := (toy_send 10 (bundle_request [hello_spec; hello_spec]) empty_node).2 in
  (watcher_start first_watcher 15 (Ok (mkDistStatus [] 0 true)) (Ok tt) st).2.

Lemma cancel_of_completed_reports_true_witness :
  (cancel_attachment_distribution (H2 := counting_status) toy_config 20 "d0" two_file_node).1 = Returns (Ok true).
Proof.
  destruct (lookup_distribution "d0" (an_registry two_file_node)) as [[id r]|] eqn:Hl; [|vm_compute in Hl; discriminate].
  destruct (find_handle "d0" r) as [h|] eqn:Hh;
    [|vm_compute in Hl; injection Hl as <- <-; vm_compute in Hh; discriminate].
  destruct (an_heap two_file_node !! 0%nat) as [rt|] eqn:Hrt; [|vm_compute in Hrt; discriminate].
  destruct (rt_per_distribution rt !! hr_file_index h) as [slot|] eqn:Hs;
    [|vm_compute in Hl; injection Hl as <- <-; vm_compute in Hh; injection Hh as <-;
      vm_compute in Hrt; injection Hrt as <-; vm_compute in Hs; discriminate].
  apply (cancel_of_completed_reports_true (H2 := counting_status) toy_config 20 "d0" two_file_node
           id r h (an_dist two_file_node) 0 rt slot).
  - vm_compute. reflexivity.
  - exact Hl.
  - vm_compute in Hl. injection Hl as <- <-. reflexivity.
  - exact Hh.
  - reflexivity.
  - vm_compute in Hl. injection Hl as <- <-. reflexivity.
  - exact Hrt.
  - exact Hs.
  - vm_compute in Hl; injection Hl as <- <-; vm_compute in Hh; injection Hh as <-;
      vm_compute in Hrt; injection Hrt as <-; vm_compute in Hs; injection Hs as <-. reflexivity.
Defined.
