(* ===== verification/Readiness.v ===== *)
(** * Bridge readiness

    Model of [src/nats_bridge/readiness.rs]: the status behind a watch channel,
    one function per transition, and the transition record [update] returns.
    NATS subjects are strings, a [BTreeSet] of them a finite set. *)

From S2P Require Import Prelude.

Record BridgeStatus := mkBridgeStatus {
  enabled : bool;
  accepting : bool;
  delivery_healthy : bool;
  exclusion_healthy : bool;
  connected : bool;
  expected_subscriptions : nat;
  established_subjects : gset string;
  configured_subjects : gset string;
}.

#[global] Instance BridgeStatus_eq_dec : EqDecision BridgeStatus.
Proof. solve_decision. Defined.

Definition is_ready (s : BridgeStatus) : bool :=
  enabled s && accepting s && delivery_healthy s && exclusion_healthy s && connected s
  && bool_decide (established_subjects s = configured_subjects s).

Record ReadinessTransition := mkTransition {
  was_ready : bool;
  now_ready : bool;
  changed : bool;
  tr_status : BridgeStatus;
}.

Definition became_ready (t : ReadinessTransition) : bool := negb (was_ready t) && now_ready t.

(** [BridgeReadiness::new] *)
Definition readiness_new (subjects : list string) : BridgeStatus :=
  let configured : gset string := list_to_set subjects in
  mkBridgeStatus true true true true false (size configured) ∅ configured.

(** The closures passed to [update] *)
Inductive ReadinessOp :=
| SetConnected
| MarkAllSubscriptionsEstablished
| InvalidateSubscriptionGeneration
| MarkDisconnected
| SetDeliveryHealthy (healthy : bool)
| SetExclusionHealthy (healthy : bool)
| BeginShutdown.

Definition mutate (op : ReadinessOp) (s : BridgeStatus) : BridgeStatus :=
  match op with
  | SetConnected =>
      mkBridgeStatus (enabled s) (accepting s) (delivery_healthy s) (exclusion_healthy s) true
        (expected_subscriptions s) (established_subjects s) (configured_subjects s)
  | MarkAllSubscriptionsEstablished =>
      mkBridgeStatus (enabled s) (accepting s) (delivery_healthy s) (exclusion_healthy s) (connected s)
        (expected_subscriptions s) (configured_subjects s) (configured_subjects s)
  | InvalidateSubscriptionGeneration =>
      mkBridgeStatus (enabled s) (accepting s) (delivery_healthy s) (exclusion_healthy s) (connected s)
        (expected_subscriptions s) ∅ (configured_subjects s)
  | MarkDisconnected =>
      mkBridgeStatus (enabled s) (accepting s) (delivery_healthy s) (exclusion_healthy s) false
        (expected_subscriptions s) ∅ (configured_subjects s)
  | SetDeliveryHealthy healthy =>
      mkBridgeStatus (enabled s) (accepting s) healthy (exclusion_healthy s) (connected s)
        (expected_subscriptions s) (established_subjects s) (configured_subjects s)
  | SetExclusionHealthy healthy =>
      mkBridgeStatus (enabled s) (accepting s) (delivery_healthy s) healthy (connected s)
        (expected_subscriptions s) (established_subjects s) (configured_subjects s)
  | BeginShutdown =>
      mkBridgeStatus (enabled s) false (delivery_healthy s) (exclusion_healthy s) (connected s)
        (expected_subscriptions s) (established_subjects s) (configured_subjects s)
  end.

(** [BridgeReadiness::update] *)
Definition update (op : ReadinessOp) (s : BridgeStatus) : ReadinessTransition * BridgeStatus :=
  let s' := mutate op s in
  (mkTransition (is_ready s) (is_ready s') (negb (bool_decide (s = s'))) s', s').

Fixpoint run_updates (ops : list ReadinessOp) (s : BridgeStatus) : list ReadinessTransition * BridgeStatus :=
  match ops with
  | [] => ([], s)
  | op :: ops' =>
      let '(t, s1) := update op s in
      let '(ts, s2) := run_updates ops' s1 in
      (t :: ts, s2)
  end.

(** ** Specification by history

    What the last relevant event of a history says, newest event last. *)

Definition last_of (f : ReadinessOp → option bool) (initial : bool) (ops : list ReadinessOp) : bool :=
  foldl (λ b op, default b (f op)) initial ops.

Definition link_event (op : ReadinessOp) : option bool :=
  match op with SetConnected => Some true | MarkDisconnected => Some false | _ => None end.

Definition subscription_event (op : ReadinessOp) : option bool :=
  match op with
  | MarkAllSubscriptionsEstablished => Some true
  | InvalidateSubscriptionGeneration | MarkDisconnected => Some false
  | _ => None
  end.

Definition delivery_event (op : ReadinessOp) : option bool :=
  match op with SetDeliveryHealthy b => Some b | _ => None end.

Definition exclusion_event (op : ReadinessOp) : option bool :=
  match op with SetExclusionHealthy b => Some b | _ => None end.

(** Ready after a history: up, subscribed since the last invalidation or
    disconnect, both journals healthy, never shut down. *)
Definition ready_history (ops : list ReadinessOp) : bool :=
  last_of link_event false ops && last_of subscription_event false ops
  && last_of delivery_event true ops && last_of exclusion_event true ops
  && negb (existsb (λ op, match op with BeginShutdown => true | _ => false end) ops).

(** ** Lemmas *)

Lemma run_updates_app ops op s :
  (run_updates (ops ++ [op]) s).2 = mutate op (run_updates ops s).2.
Proof.
  revert s. induction ops as [|o ops IH]; intros s; cbn; [done|].
  specialize (IH (mutate o s)). destruct (run_updates (ops ++ [op]) (mutate o s)), (run_updates ops (mutate o s)). done.
Qed.

Lemma last_of_snoc f b ops op : last_of f b (ops ++ [op]) = default (last_of f b ops) (f op).
Proof. unfold last_of. by rewrite foldl_app. Qed.

(** The whole status is determined by the history. *)
Lemma status_of_history subjects ops :
  (run_updates ops (readiness_new subjects)).2 =
  mkBridgeStatus true (negb (existsb (λ op, match op with BeginShutdown => true | _ => false end) ops))
    (last_of delivery_event true ops) (last_of exclusion_event true ops) (last_of link_event false ops)
    (size (list_to_set (C := gset string) subjects))
    (if last_of subscription_event false ops then list_to_set subjects else ∅) (list_to_set subjects).
Proof.
  induction ops as [|op ops IH] using rev_ind; [done|].
  rewrite run_updates_app, IH, !last_of_snoc, existsb_app. cbn [existsb].
  destruct op; cbn; rewrite ?orb_false_r, ?orb_true_r; done.
Qed.

(** ** Properties *)

(** Readiness is a function of the event history: after any sequence of
    transitions the bridge is ready iff the connection is up, every subscription was
    established after the last disconnect or invalidation, both journals' last
    health report was good, and shutdown never began; and [became_ready] marks
    exactly the boundaries (the first ready state after a non-ready one). *)
Theorem ready_iff_history subjects ops :
  subjects ≠ [] →
  is_ready (run_updates ops (readiness_new subjects)).2 = ready_history ops ∧
  ∀ op, became_ready (update op (run_updates ops (readiness_new subjects)).2).1 =
    negb (ready_history ops) && ready_history (ops ++ [op]).
Proof.
  intros Hne.
  assert (∀ l, is_ready (run_updates l (readiness_new subjects)).2 = ready_history l) as Hready.
  { intros l. rewrite status_of_history. unfold is_ready, ready_history. cbn.
    destruct (last_of subscription_event false l); cbn.
    - rewrite bool_decide_true by done. rewrite andb_true_r.
      destruct (existsb _ _), (last_of delivery_event true l), (last_of exclusion_event true l),
        (last_of link_event false l); done.
    - rewrite bool_decide_false; [by rewrite !andb_false_r|].
      destruct subjects as [|s subjects]; [done|]. cbn. set_solver. }
  split; [done|]. intros op. unfold update. cbn [fst became_ready was_ready now_ready].
  rewrite <-run_updates_app, !Hready. done.
Qed.

Lemma ready_iff_history_witness :
  is_ready (run_updates [SetConnected; MarkAllSubscriptionsEstablished] (readiness_new ["tracks"%string])).2 =
  ready_history [SetConnected; MarkAllSubscriptionsEstablished].
Proof.
  apply (ready_iff_history ["tracks"%string] [SetConnected; MarkAllSubscriptionsEstablished]). discriminate.
Defined.
