(* ===== verification/Envelope.v ===== *)
(** * UTF-8 text and the bridge envelope

    [std::str::from_utf8], [char::is_whitespace] and [str::trim] on the bytes of
    a Rust string, and [src/nats_bridge/envelope.rs]. The JSON library is a
    parameter: whether a text is an acceptable [serde_json::Value], and the
    serialisation of an envelope. *)

From S2P Require Import Prelude.
From Stdlib Require Import Strings.Ascii.

(** ** UTF-8 *)

Definition in_range (lo hi : Z) (b : byte) : bool := (lo <=? Z_of_byte b) && (Z_of_byte b <=? hi).
Definition continuation (b : byte) : bool := in_range 0x80 0xbf b.

(** The length of the well-formed sequence a byte string starts with: no
    overlong forms, no surrogates, nothing above U+10FFFF. *)
Definition utf8_char_len (l : bytes) : option nat :=
  match l with
  | [] => None
  | b0 :: l1 =>
      if in_range 0x00 0x7f b0 then Some 1%nat
      else
        match l1 with
        | [] => None
        | b1 :: l2 =>
            if in_range 0xc2 0xdf b0 then if continuation b1 then Some 2%nat else None
            else
              match l2 with
              | [] => None
              | b2 :: l3 =>
                  if in_range 0xe0 0xef b0 then
                    if (if in_range 0xe0 0xe0 b0 then in_range 0xa0 0xbf b1
                        else if in_range 0xed 0xed b0 then in_range 0x80 0x9f b1
                        else continuation b1)
                       && continuation b2
                    then Some 3%nat else None
                  else
                    match l3 with
                    | [] => None
                    | b3 :: _ =>
                        if in_range 0xf0 0xf4 b0
                           && (if in_range 0xf0 0xf0 b0 then in_range 0x90 0xbf b1
                               else if in_range 0xf4 0xf4 b0 then in_range 0x80 0x8f b1
                               else continuation b1)
                           && continuation b2 && continuation b3
                        then Some 4%nat else None
                    end
              end
        end
  end.

(** The characters of a byte string, [None] when it is not UTF-8; each round
    consumes at least one byte. *)
Fixpoint utf8_chars (fuel : nat) (l : bytes) : option (list bytes) :=
  match l, fuel with
  | [], _ => Some []
  | _, O => None
  | _, S fuel' =>
      n ← utf8_char_len l;
      cs ← utf8_chars fuel' (drop n l);
      Some (take n l :: cs)
  end.

Definition chars (l : bytes) : option (list bytes) := utf8_chars (length l) l.

(** [std::str::from_utf8] *)
Definition from_utf8 (l : bytes) : option string :=
  if bool_decide (is_Some (chars l)) then Some (String.string_of_list_byte l) else None.

(** The characters of a [str]. *)
Definition str_chars (s : string) : list bytes := default [] (chars (str_bytes s)).

(** ** Whitespace: the Unicode White_Space characters, by their encodings *)

Definition whitespace_chars : list bytes :=
  [[Byte.x09]; [Byte.x0a]; [Byte.x0b]; [Byte.x0c]; [Byte.x0d]; [Byte.x20];
   [Byte.xc2; Byte.x85]; [Byte.xc2; Byte.xa0]; [Byte.xe1; Byte.x9a; Byte.x80];
   [Byte.xe2; Byte.x80; Byte.x80]; [Byte.xe2; Byte.x80; Byte.x81]; [Byte.xe2; Byte.x80; Byte.x82];
   [Byte.xe2; Byte.x80; Byte.x83]; [Byte.xe2; Byte.x80; Byte.x84]; [Byte.xe2; Byte.x80; Byte.x85];
   [Byte.xe2; Byte.x80; Byte.x86]; [Byte.xe2; Byte.x80; Byte.x87]; [Byte.xe2; Byte.x80; Byte.x88];
   [Byte.xe2; Byte.x80; Byte.x89]; [Byte.xe2; Byte.x80; Byte.x8a]; [Byte.xe2; Byte.x80; Byte.xa8];
   [Byte.xe2; Byte.x80; Byte.xa9]; [Byte.xe2; Byte.x80; Byte.xaf]; [Byte.xe2; Byte.x81; Byte.x9f];
   [Byte.xe3; Byte.x80; Byte.x80]].

(** [char::is_whitespace] *)
Definition is_whitespace (c : bytes) : bool := bool_decide (c ∈ whitespace_chars).

Fixpoint drop_while {A} (f : A → bool) (l : list A) : list A :=
  match l with
  | [] => []
  | a :: l' => if f a then drop_while f l' else l
  end.

(** [str::trim] *)
Definition trim_chars (l : list bytes) : list bytes :=
  reverse (drop_while is_whitespace (reverse (drop_while is_whitespace l))).

Definition trim (s : string) : string := String.string_of_list_byte (mjoin (trim_chars (str_chars s))).

(** ** The envelope *)

Definition BRIDGE_ENVELOPE_KIND : string := "peat.nats-bridge".
Definition BRIDGE_ENVELOPE_VERSION : Z := 1.

Record BridgeEnvelope := mkEnvelope {
  env_kind : string;
  env_version : Z; (* u32 *)
  env_subject : string;
  env_source_node_id : string;
  env_payload : string;
}.

Inductive IngressValidationError := InvalidUtf8 | InvalidJson.

(** serde_json: acceptance of a text as a [Value], and the envelope's text form. *)
Class Serde := {
  accepts_value : string → bool;
  envelope_to_json : BridgeEnvelope → string;
  envelope_from_json : string → option BridgeEnvelope;
}.

(** The derived [Serialize] and [Deserialize] are inverse on envelopes. *)
Class SerdeLaws `{Serde} := {
  envelope_roundtrip : ∀ e, 0 ≤ env_version e ≤ U32_MAX → envelope_from_json (envelope_to_json e) = Some e;
}.

Section envelope.
Context `{Serde}.

(** [BridgeEnvelope::from_payload] *)
Definition from_payload (subject source_node_id : string) (data : bytes) : result IngressValidationError BridgeEnvelope :=
  match from_utf8 data with
  | None => Err InvalidUtf8
  | Some payload =>
      if accepts_value payload
      then Ok (mkEnvelope BRIDGE_ENVELOPE_KIND BRIDGE_ENVELOPE_VERSION subject source_node_id payload)
      else Err InvalidJson
  end.

End envelope.

(** ** Lemmas *)

Lemma str_bytes_of_list l : str_bytes (String.string_of_list_byte l) = l.
Proof. apply String.list_byte_of_string_of_list_byte. Qed.

Lemma utf8_chars_join fuel l cs : utf8_chars fuel l = Some cs → mjoin cs = l.
Proof.
  revert l cs. induction fuel as [|fuel IH]; intros [|b l] cs Hc; cbn [utf8_chars] in Hc; simplify_eq; try done.
  destruct (utf8_char_len (b :: l)) as [n|] eqn:Hn; cbn [mbind option_bind] in Hc; [|done].
  destruct (utf8_chars fuel (drop n (b :: l))) as [cs'|] eqn:Hcs; cbn in Hc; simplify_eq.
  apply IH in Hcs. change (mjoin (take n (b :: l) :: cs')) with (take n (b :: l) ++ mjoin cs').
  rewrite Hcs. apply take_drop.
Qed.

Lemma from_utf8_Some l s : from_utf8 l = Some s → str_bytes s = l ∧ mjoin (str_chars s) = l.
Proof.
  unfold from_utf8, str_chars. case_bool_decide as Hc; intros ?; simplify_eq. rewrite str_bytes_of_list.
  split; [done|]. destruct Hc as [cs Hcs]. rewrite Hcs. cbn. by eapply utf8_chars_join.
Qed.

Lemma from_payload_Ok `{Serde} subject source data env :
  from_payload subject source data = Ok env ↔
  (∃ s, from_utf8 data = Some s ∧ accepts_value s = true) ∧
  env_kind env = BRIDGE_ENVELOPE_KIND ∧ env_version env = BRIDGE_ENVELOPE_VERSION ∧
  env_subject env = subject ∧ env_source_node_id env = source ∧ str_bytes (env_payload env) = data.
Proof.
  unfold from_payload. split.
  - destruct (from_utf8 data) as [s|] eqn:Hs; [|done]. destruct (accepts_value s) eqn:Ha; [|done].
    intros ?; simplify_eq. cbn. split_and!; try done; [by exists s|]. by apply from_utf8_Some in Hs as [? _].
  - intros ((s & Hs & Ha) & Hk & Hv & Hsub & Hsrc & Hp). rewrite Hs, Ha.
    destruct env; cbn in *; subst. do 2 f_equal. apply str_bytes_inj.
    apply from_utf8_Some in Hs as [-> _]. done.
Qed.

(** ** A serialiser with the laws

    Any injective text form of envelopes does; this one writes the bits of a
    number that encodes the fields. *)

Fixpoint pos_to_string (p : positive) : string :=
  match p with
  | xH => EmptyString
  | xO p' => String "0"%char (pos_to_string p')
  | xI p' => String "1"%char (pos_to_string p')
  end.

Fixpoint string_to_pos (s : string) : positive :=
  match s with
  | EmptyString => xH
  | String c s' => if Ascii.eqb c "1"%char then xI (string_to_pos s') else xO (string_to_pos s')
  end.

Lemma string_to_pos_to_string p : string_to_pos (pos_to_string p) = p.
Proof. induction p as [p IH|p IH|]; cbn; by rewrite ?IH. Qed.

Definition envelope_fields (e : BridgeEnvelope) : string * Z * string * string * string :=
  (env_kind e, env_version e, env_subject e, env_source_node_id e, env_payload e).

Definition envelope_of_fields (f : string * Z * string * string * string) : BridgeEnvelope :=
  let '(k, v, s, n, p) := f in mkEnvelope k v s n p.

Definition toy_serde : Serde := {|
  accepts_value s := negb (is_empty_str s);
  envelope_to_json e := pos_to_string (encode (envelope_fields e));
  envelope_from_json s := envelope_of_fields <$> decode (string_to_pos s);
|}.

Lemma toy_serde_laws : @SerdeLaws toy_serde.
Proof.
  constructor. intros e _. cbn -[encode decode]. rewrite string_to_pos_to_string, decode_encode. by destruct e.
Qed.
