(* ===== verification/RateLimit.v ===== *)
(** * Rate-limited diagnostics

    The bucket both halves of the bridge use to limit their log lines
    ([DiagnosticBucket] in [src/nats_bridge/egress.rs], [OversizedWarningState]
    in [src/nats_bridge/ingress.rs]): emit at most once per interval, count what
    is suppressed with a saturating [u64], report the count with the next line.
    Times are nanoseconds on the monotonic clock. *)

From S2P Require Import Prelude.

Record DiagnosticBucket := mkBucket { next_emit : option Z; suppressed : Z }.

Definition bucket_default : DiagnosticBucket := mkBucket None 0.

(** One occurrence at [now]: [Some n] is a line emitted with [n] suppressed
    occurrences before it. *)
Definition bucket_record (interval now : Z) (b : DiagnosticBucket) : option Z * DiagnosticBucket :=
  if (match next_emit b with Some deadline => now <? deadline | None => false end)
  then (None, mkBucket (next_emit b) (saturating_add_u64 (suppressed b) 1))
  else (Some (suppressed b), mkBucket (Some (now + interval)) 0).

(** A sequence of occurrences; the lines emitted, each with its time and count. *)
Fixpoint bucket_run (interval : Z) (times : list Z) (b : DiagnosticBucket) : list (Z * Z) * DiagnosticBucket :=
  match times with
  | [] => ([], b)
  | now :: times' =>
      let '(o, b1) := bucket_record interval now b in
      let '(lines, b2) := bucket_run interval times' b1 in
      (match o with Some n => (now, n) :: lines | None => lines end, b2)
  end.

(** Occurrences a list of lines accounts for: each stands for itself and what it
    reports as suppressed. *)
Definition accounted (lines : list (Z * Z)) : Z := foldr (λ p acc, 1 + p.2 + acc) 0 lines.

(** Each line at least [interval] after the one before it. *)
Fixpoint spaced (interval : Z) (from : option Z) (lines : list (Z * Z)) : Prop :=
  match lines with
  | [] => True
  | (now, _) :: lines' =>
      (match from with Some deadline => deadline ≤ now | None => True end) ∧ spaced interval (Some (now + interval)) lines'
  end.

Lemma bucket_run_app interval times1 times2 b :
  bucket_run interval (times1 ++ times2) b =
  (let '(l1, b1) := bucket_run interval times1 b in
   let '(l2, b2) := bucket_run interval times2 b1 in (l1 ++ l2, b2)).
Proof.
  revert b. induction times1 as [|t times1 IH]; intros b; cbn; [by destruct (bucket_run _ _ _)|].
  destruct (bucket_record interval t b) as [o b1]. rewrite IH.
  destruct (bucket_run interval times1 b1) as [l1 b2], (bucket_run interval times2 b2). by destruct o.
Qed.

Lemma bucket_run_accounts interval times b lines b' :
  bucket_run interval times b = (lines, b') →
  0 ≤ suppressed b → suppressed b + Z.of_nat (length times) ≤ U64_MAX →
  accounted lines + suppressed b' = suppressed b + Z.of_nat (length times) ∧ 0 ≤ suppressed b'.
Proof.
  revert b lines b'. induction times as [|t times IH]; intros b lines b' Hrun Hnn Hmax; cbn in Hrun.
  - simplify_eq. cbn in *. lia.
  - cbn [length] in *. destruct (bucket_record interval t b) as [o b1] eqn:Ho.
    destruct (bucket_run interval times b1) as [l b2] eqn:Hl. unfold bucket_record, saturating_add_u64 in Ho.
    destruct (match next_emit b with Some _ => _ | None => _ end); simplify_eq.
    + destruct (IH _ _ _ Hl) as [E ?]; cbn [suppressed accounted foldr snd] in *; unfold accounted in *; lia.
    + destruct (IH _ _ _ Hl) as [E ?]; cbn [suppressed accounted foldr snd] in *; unfold accounted in *; lia.
Qed.

Lemma bucket_run_spaced interval times b :
  spaced interval (next_emit b) (bucket_run interval times b).1.
Proof.
  revert b. induction times as [|t times IH]; intros b; cbn; [done|].
  destruct (bucket_record interval t b) as [o b1] eqn:Ho. specialize (IH b1).
  destruct (bucket_run interval times b1) as [l b2]. unfold bucket_record in Ho.
  destruct (next_emit b) as [deadline|] eqn:Hn; [destruct (Z.ltb_spec t deadline)|]; simplify_eq; cbn in *; auto.
Qed.
