(* ===== verification/Egress.v ===== *)
(** * Egress: from remote documents to the broker

    Model of [src/nats_bridge/egress.rs]: the envelope and route gates
    ([classify]), the admission of an item ([deliver]: readiness, durable
    reservation, bounded FIFO), the serial publisher loop, and the diagnostics
    and counters both write.

    [deliver] runs on several tasks and suspends while the journal thread
    answers; the publisher loop suspends at every broker call. Each suspension
    point ends a [Step], so the interleavings of the tasks are the sequences of
    steps. The journal is reached through the interface [LedgerOps]; broker
    outcomes, the clock and readiness changes are inputs of the steps. *)

From S2P Require Import Prelude Journal LedgerWorker Readiness Envelope NatsConfig RateLimit.

Definition EGRESS_QUEUE_CAPACITY : nat := 256.
Definition EGRESS_DIAGNOSTIC_INTERVAL : Z := 60 * 1000000000.
Definition EGRESS_DIAGNOSTIC_CLASSIFICATIONS : nat := 17.
Definition MAX_INGRESS_PAYLOAD_BYTES : Z := 1048576.

Inductive EgressSkipKind :=
| MalformedEnvelope | UnsupportedKind | UnsupportedVersion | UnmappedCollection | RouteMismatch
| ReturnedLocal | OversizedPayload | Duplicate.

Inductive EgressFailureKind :=
| EventLagged | QueueFull | QueueClosed | EgUnavailable | PublishFailed | MaxPayloadExceeded
| FlushFailed | LedgerUnavailable.

Inductive EgressActionKind :=
| Skipped (k : EgressSkipKind)
| Lost (k : EgressFailureKind)
| Published.

#[global] Instance EgressSkipKind_eq_dec : EqDecision EgressSkipKind.
Proof. solve_decision. Defined.
#[global] Instance EgressFailureKind_eq_dec : EqDecision EgressFailureKind.
Proof. solve_decision. Defined.
#[global] Instance EgressActionKind_eq_dec : EqDecision EgressActionKind.
Proof. solve_decision. Defined.

Record EgressItem := mkEgressItem {
  item_digest : LedgerDigest;
  item_subject : string;
  item_payload : bytes;
  item_route_index : nat;
}.

Record EgressAction := mkAction {
  act_kind : EgressActionKind;
  act_route_index : option nat;
  act_payload_bytes : option Z;
  act_suppressed_count : Z;
}.

Record BridgeChangeEvent := mkEvent {
  ev_collection : string;
  ev_doc_id : string;
  ev_remote_peer_id : string;
  ev_json_data : string;
}.

(** ** Diagnostics *)

(** [ed_emitted] is what the emitter was given, oldest first, with its time. *)
Record EgressDiagnostics := mkDiagnostics {
  ed_buckets : list DiagnosticBucket;
  ed_route_count : nat;
  ed_emitted : list (Z * EgressAction);
}.

(** [EgressDiagnostics::with_emitter]: a route-less bank and one per route *)
Definition diagnostics_new (route_count : nat) : EgressDiagnostics :=
  mkDiagnostics (replicate ((route_count + 1) * EGRESS_DIAGNOSTIC_CLASSIFICATIONS) bucket_default) route_count [].

Definition diagnostic_classification (kind : EgressActionKind) : nat :=
  match kind with
  | Skipped MalformedEnvelope => 0
  | Skipped UnsupportedKind => 1
  | Skipped UnsupportedVersion => 2
  | Skipped UnmappedCollection => 3
  | Skipped RouteMismatch => 4
  | Skipped ReturnedLocal => 5
  | Skipped OversizedPayload => 6
  | Skipped Duplicate => 7
  | Lost EventLagged => 8
  | Lost QueueFull => 9
  | Lost QueueClosed => 10
  | Lost EgUnavailable => 11
  | Lost PublishFailed => 12
  | Lost MaxPayloadExceeded => 13
  | Lost FlushFailed => 14
  | Lost LedgerUnavailable => 15
  | Published => 16
  end%nat.

Definition route_bank (route_count : nat) (route_index : option nat) : nat :=
  match route_index with
  | Some index => if Nat.ltb index route_count then S index else O
  | None => O
  end.

Definition bucket_index (route_count : nat) (route_index : option nat) (kind : EgressActionKind) : nat :=
  route_bank route_count route_index * EGRESS_DIAGNOSTIC_CLASSIFICATIONS + diagnostic_classification kind.

Definition set_suppressed (n : Z) (a : EgressAction) : EgressAction :=
  mkAction (act_kind a) (act_route_index a) (act_payload_bytes a) n.

(** [record_at]; [None] is the panic of an index out of bounds. *)
Definition record_at (action : EgressAction) (now : Z) (d : EgressDiagnostics) : option EgressDiagnostics :=
  let index := bucket_index (ed_route_count d) (act_route_index action) (act_kind action) in
  bucket ← ed_buckets d !! index;
  let '(line, bucket') := bucket_record EGRESS_DIAGNOSTIC_INTERVAL now bucket in
  Some (mkDiagnostics (<[index := bucket']> (ed_buckets d)) (ed_route_count d)
          (match line with
           | Some n => ed_emitted d ++ [(now, set_suppressed n action)]
           | None => ed_emitted d
           end)).

(** ** Counters *)

Inductive EgressCounter :=
| c_malformed | c_unsupported | c_unmapped | c_route_mismatch | c_returned_local | c_oversized_payload
| c_duplicate | c_queue_full | c_queue_closed | c_unavailable | c_publish_failed | c_max_payload_exceeded
| c_flush_failed | c_ledger_unavailable | c_event_lagged | c_reserved | c_completed | c_published.

#[global] Instance EgressCounter_eq_dec : EqDecision EgressCounter.
Proof. solve_decision. Defined.

(** [EgressStatsInner]: one atomic [u64] per counter *)
Definition EgressStats : Type := EgressCounter → Z.
Definition stats_default : EgressStats := λ _, 0.

Definition fetch_add (c : EgressCounter) (n : Z) (st : EgressStats) : EgressStats :=
  λ c', if bool_decide (c = c') then wrapping_add_u64 (st c') n else st c'.

Definition skip_counter (kind : EgressSkipKind) : EgressCounter :=
  match kind with
  | MalformedEnvelope => c_malformed
  | UnsupportedKind | UnsupportedVersion => c_unsupported
  | UnmappedCollection => c_unmapped
  | RouteMismatch => c_route_mismatch
  | ReturnedLocal => c_returned_local
  | OversizedPayload => c_oversized_payload
  | Duplicate => c_duplicate
  end.

Definition failure_counter (kind : EgressFailureKind) : EgressCounter :=
  match kind with
  | EventLagged => c_event_lagged
  | QueueFull => c_queue_full
  | QueueClosed => c_queue_closed
  | EgUnavailable => c_unavailable
  | PublishFailed => c_publish_failed
  | MaxPayloadExceeded => c_max_payload_exceeded
  | FlushFailed => c_flush_failed
  | LedgerUnavailable => c_ledger_unavailable
  end.

Definition record_skip (kind : EgressSkipKind) : EgressStats → EgressStats := fetch_add (skip_counter kind) 1.
Definition record_failure (kind : EgressFailureKind) : EgressStats → EgressStats := fetch_add (failure_counter kind) 1.
Definition record_event_lagged (dropped : Z) : EgressStats → EgressStats := fetch_add c_event_lagged dropped.

(** The counter [record_action] bumps. *)
Definition action_counter (kind : EgressActionKind) : EgressCounter :=
  match kind with
  | Skipped k => skip_counter k
  | Lost k => failure_counter k
  | Published => c_published
  end.

(** ** Classification *)

Record EgressClassifier := mkClassifier {
  routes : gmap string string;
  route_indexes : gmap string nat;
  local_node_id : string;
}.

(** [EgressClassifier::new]: collecting into a [HashMap], the last one wins *)
Definition classifier_new (mappings : list SubjectMapping) (node_id : string) : EgressClassifier :=
  mkClassifier
    (foldl (λ m mapping, <[collection mapping := subject mapping]> m) ∅ mappings)
    (foldl (λ m p, <[collection p.2 := p.1]> m) ∅ (imap pair mappings))
    node_id.

Section classify.
Context {sha : Sha256} `{Serde}.

Definition classify (c : EgressClassifier) (event : BridgeChangeEvent) : result EgressSkipKind EgressItem :=
  let digest := document_digest (ev_collection event) (ev_doc_id event) in
  let? envelope := ok_or (envelope_from_json (ev_json_data event)) MalformedEnvelope in
  if negb (bool_decide (env_kind envelope = BRIDGE_ENVELOPE_KIND)) then Err UnsupportedKind
  else if negb (env_version envelope =? BRIDGE_ENVELOPE_VERSION) then Err UnsupportedVersion
  else
    let? route := ok_or (routes c !! ev_collection event) UnmappedCollection in
    let? route_index := ok_or (route_indexes c !! ev_collection event) UnmappedCollection in
    if negb (bool_decide (env_subject envelope = route)) then Err RouteMismatch
    else if bool_decide (env_source_node_id envelope = local_node_id c) then Err ReturnedLocal
    else if MAX_INGRESS_PAYLOAD_BYTES <? str_len (env_payload envelope) then Err OversizedPayload
    else Ok (mkEgressItem digest route (str_bytes (env_payload envelope)) route_index).

End classify.

(** ** The delivery journal, as its clients see it *)

Class LedgerOps (L : Type) := {
  ledger_reserve : LedgerDigest → L → result LedgerError ReserveResult * L;
  ledger_complete : LedgerDigest → L → result LedgerError unit * L;
  ledger_suppressed : LedgerDigest → L → result LedgerError bool * L;
  ledger_healthy : L → bool;
}.

(** The contract: a digest is granted at most once, and what was granted stays
    granted. *)
Class LedgerLaws (L : Type) `{LedgerOps L} := {
  ledger_inv : L → Prop;
  ledger_seen : L → LedgerDigest → Prop;
  reserve_inv d l : ledger_inv l → ledger_inv (ledger_reserve d l).2;
  complete_inv d l : ledger_inv l → ledger_inv (ledger_complete d l).2;
  lookup_inv d l : ledger_inv l → ledger_inv (ledger_suppressed d l).2;
  reserve_mono d l e : ledger_inv l → ledger_seen l e → ledger_seen (ledger_reserve d l).2 e;
  complete_mono d l e : ledger_inv l → ledger_seen l e → ledger_seen (ledger_complete d l).2 e;
  lookup_seen d l e : ledger_inv l → ledger_seen (ledger_suppressed d l).2 e ↔ ledger_seen l e;
  reserve_granted d l : ledger_inv l → (ledger_reserve d l).1 = Ok RReserved →
    ¬ ledger_seen l d ∧ ledger_seen (ledger_reserve d l).2 d;
  reserve_refused d l : ledger_inv l → (ledger_reserve d l).1 = Ok RSuppressed → ledger_seen l d;
  lookup_answer d l b : ledger_inv l → (ledger_suppressed d l).1 = Ok b → (b = true ↔ ledger_seen l d);
}.

(** ** The pipeline *)

(** What async-nats reports: [PublishErrorKind]. *)
Inductive PublishErrorKind := PMaxPayloadExceeded | PInvalidSubject | PSend.

(** Where the publisher loop is suspended. *)
Inductive WorkerPhase := WRecv | WFlush (item : EgressItem) | WComplete (item : EgressItem) | WGone.

(** [p_inflight] holds the [deliver] calls suspended at the reservation, with the
    answer once the journal gave it; [p_client] what was handed to the broker
    client, oldest first; [p_abandoned] counts what was dropped with the FIFO's
    receiver. *)
Record Pipeline (L : Type) := mkPipeline {
  p_classifier : EgressClassifier;
  p_status : BridgeStatus;
  p_ledger : L;
  p_queue : list EgressItem;
  p_stats : EgressStats;
  p_diagnostics : EgressDiagnostics;
  p_inflight : list (EgressItem * option (result LedgerError ReserveResult));
  p_worker : WorkerPhase;
  p_client : list (string * string * EgressItem);
  p_abandoned : nat;
}.
Arguments mkPipeline {L}.
Arguments p_classifier {L}. Arguments p_status {L}. Arguments p_ledger {L}. Arguments p_queue {L}.
Arguments p_stats {L}. Arguments p_diagnostics {L}. Arguments p_inflight {L}. Arguments p_worker {L}.
Arguments p_client {L}. Arguments p_abandoned {L}.

Definition BRIDGE_ORIGIN_HEADER : string := "Peat-Nats-Bridge-Origin".

Inductive Step :=
| Offer (event : BridgeChangeEvent) (now : Z)
| LedgerAnswer (i : nat)
| Resume (i : nat) (now : Z)
| Publish (client_connected : bool) (client : result PublishErrorKind unit) (now : Z)
| Flush (client : option (result unit unit)) (now : Z)
| Complete (now : Z)
| DropReceiver
| Status (op : ReadinessOp)
| Lagged (dropped : Z) (now : Z).

(** [Stuck]: the step is not enabled; [Panic]: the code would panic. *)
Inductive Outcome (A : Type) := Next (a : A) | Stuck | Panic.
Arguments Next {A}. Arguments Stuck {A}. Arguments Panic {A}.

Section pipeline.
Context {sha : Sha256} `{Serde} {L : Type} `{LedgerOps L}.
Context (origin_header_value : string).

Implicit Types p : Pipeline L.

Definition with_worker (w : WorkerPhase) p : Pipeline L :=
  mkPipeline (p_classifier p) (p_status p) (p_ledger p) (p_queue p) (p_stats p) (p_diagnostics p)
    (p_inflight p) w (p_client p) (p_abandoned p).
Definition with_status (s : BridgeStatus) p : Pipeline L :=
  mkPipeline (p_classifier p) s (p_ledger p) (p_queue p) (p_stats p) (p_diagnostics p)
    (p_inflight p) (p_worker p) (p_client p) (p_abandoned p).
Definition with_ledger (l : L) p : Pipeline L :=
  mkPipeline (p_classifier p) (p_status p) l (p_queue p) (p_stats p) (p_diagnostics p)
    (p_inflight p) (p_worker p) (p_client p) (p_abandoned p).
Definition with_queue (q : list EgressItem) p : Pipeline L :=
  mkPipeline (p_classifier p) (p_status p) (p_ledger p) q (p_stats p) (p_diagnostics p)
    (p_inflight p) (p_worker p) (p_client p) (p_abandoned p).
Definition with_stats (st : EgressStats) p : Pipeline L :=
  mkPipeline (p_classifier p) (p_status p) (p_ledger p) (p_queue p) st (p_diagnostics p)
    (p_inflight p) (p_worker p) (p_client p) (p_abandoned p).
Definition with_diagnostics (d : EgressDiagnostics) p : Pipeline L :=
  mkPipeline (p_classifier p) (p_status p) (p_ledger p) (p_queue p) (p_stats p) d
    (p_inflight p) (p_worker p) (p_client p) (p_abandoned p).
Definition with_inflight (fl : list (EgressItem * option (result LedgerError ReserveResult))) p : Pipeline L :=
  mkPipeline (p_classifier p) (p_status p) (p_ledger p) (p_queue p) (p_stats p) (p_diagnostics p)
    fl (p_worker p) (p_client p) (p_abandoned p).
Definition with_client (c : list (string * string * EgressItem)) p : Pipeline L :=
  mkPipeline (p_classifier p) (p_status p) (p_ledger p) (p_queue p) (p_stats p) (p_diagnostics p)
    (p_inflight p) (p_worker p) c (p_abandoned p).
Definition with_abandoned (n : nat) p : Pipeline L :=
  mkPipeline (p_classifier p) (p_status p) (p_ledger p) (p_queue p) (p_stats p) (p_diagnostics p)
    (p_inflight p) (p_worker p) (p_client p) n.

(** [DeliveryCoordinator::new] *)
Definition coordinator_new (mappings : list SubjectMapping) (node_id : string) (l : L) (s : BridgeStatus) : Pipeline L :=
  mkPipeline (classifier_new mappings node_id) s l [] stats_default (diagnostics_new (length mappings)) [] WRecv [] O.

(** [diagnostics.record] of a fresh action *)
Definition diagnose (kind : EgressActionKind) (route_index : option nat) (payload_bytes : option Z) (now : Z) p
  : Outcome (Pipeline L) :=
  match record_at (mkAction kind route_index payload_bytes 0) now (p_diagnostics p) with
  | Some d => Next (with_diagnostics d p)
  | None => Panic
  end.

(** [record_action]: the counter, then the diagnostic *)
Definition record_action (kind : EgressActionKind) (route_index : option nat) (payload_bytes : option Z) (now : Z) p
  : Outcome (Pipeline L) :=
  diagnose kind route_index payload_bytes now (with_stats (fetch_add (action_counter kind) 1 (p_stats p)) p).

Definition payload_len (item : EgressItem) : option Z := Some (Z.of_nat (length (item_payload item))).

(** [deliver] up to the reservation *)
Definition deliver_admit (event : BridgeChangeEvent) (now : Z) p : Outcome (Pipeline L) :=
  let route_index := route_indexes (p_classifier p) !! ev_collection event in
  match classify (p_classifier p) event with
  | Err kind => record_action (Skipped kind) route_index None now p
  | Ok item =>
      let status := p_status p in
      if negb (accepting status) || negb (delivery_healthy status) || negb (is_ready status)
      then record_action (Lost EgUnavailable) route_index (payload_len item) now p
      else Next (with_inflight (p_inflight p ++ [(item, None)]) p)
  end.

(** The journal thread answers one reservation. *)
Definition ledger_answer (i : nat) p : Outcome (Pipeline L) :=
  match p_inflight p !! i with
  | Some (item, None) =>
      let '(r, l) := ledger_reserve (item_digest item) (p_ledger p) in
      Next (with_ledger l (with_inflight (<[i := (item, Some r)]> (p_inflight p)) p))
  | _ => Stuck
  end.

(** [deliver] after the reservation: [route_index] is the item's (both come from
    the same table). *)
Definition deliver_resume (i : nat) (now : Z) p : Outcome (Pipeline L) :=
  match p_inflight p !! i with
  | Some (item, Some r) =>
      let p := with_inflight (delete i (p_inflight p)) p in
      let route_index := Some (item_route_index item) in
      match r with
      | Ok RSuppressed => record_action (Skipped Duplicate) route_index None now p
      | Err _ =>
          record_action (Lost LedgerUnavailable) route_index (payload_len item) now
            (with_status (update (SetDeliveryHealthy false) (p_status p)).2 p)
      | Ok RReserved =>
          let p := with_stats (fetch_add c_reserved 1 (p_stats p)) p in
          match p_worker p with
          | WGone => record_action (Lost QueueClosed) route_index (payload_len item) now p
          | _ =>
              if Nat.leb EGRESS_QUEUE_CAPACITY (length (p_queue p))
              then record_action (Lost QueueFull) route_index (payload_len item) now p
              else Next (with_queue (p_queue p ++ [item]) p)
          end
      end
  | _ => Stuck
  end.

(** [<async_nats::Client as BridgePublisher>::publish]'s error mapping *)
Definition map_publish_error (kind : PublishErrorKind) : EgressFailureKind :=
  match kind with
  | PMaxPayloadExceeded => MaxPayloadExceeded
  | PInvalidSubject | PSend => PublishFailed
  end.

(** [NatsBridgePublisher::publish]; the flag says whether the client was called. *)
Definition nats_publish (status : BridgeStatus) (client_connected : bool) (client : result PublishErrorKind unit)
  : bool * result EgressFailureKind unit :=
  if negb (is_ready status) || negb client_connected then (false, Err EgUnavailable)
  else (true, map_err map_publish_error client).

(** [NatsBridgePublisher::flush] under the flush timeout; [None] is the timeout. *)
Definition nats_flush (status : BridgeStatus) (client : option (result unit unit)) : result EgressFailureKind unit :=
  match client with
  | None => Err FlushFailed
  | Some r => if negb (is_ready status) then Err EgUnavailable else map_err (λ _, FlushFailed) r
  end.

(** The failure arms of the publisher loop. *)
Definition worker_failure (kind : EgressFailureKind) (item : EgressItem) (now : Z) p : Outcome (Pipeline L) :=
  match kind with
  | EgUnavailable | PublishFailed | MaxPayloadExceeded | FlushFailed | LedgerUnavailable =>
      record_action (Lost kind) (Some (item_route_index item)) (payload_len item) now (with_worker WRecv p)
  | EventLagged | QueueFull | QueueClosed => Panic
  end.

(** [rx.recv()] and [publisher.publish(..)] *)
Definition worker_publish (client_connected : bool) (client : result PublishErrorKind unit) (now : Z) p
  : Outcome (Pipeline L) :=
  match p_worker p, p_queue p with
  | WRecv, item :: rest =>
      let p := with_queue rest p in
      let '(called, r) := nats_publish (p_status p) client_connected client in
      let p := if called then with_client (p_client p ++ [(BRIDGE_ORIGIN_HEADER, origin_header_value, item)]) p else p in
      match r with
      | Ok _ => Next (with_worker (WFlush item) p)
      | Err kind => worker_failure kind item now p
      end
  | _, _ => Stuck
  end.

Definition worker_flush (client : option (result unit unit)) (now : Z) p : Outcome (Pipeline L) :=
  match p_worker p with
  | WFlush item =>
      match nats_flush (p_status p) client with
      | Ok _ => Next (with_worker (WComplete item) p)
      | Err kind => worker_failure kind item now p
      end
  | _ => Stuck
  end.

(** [delivery.mark_completed(..)] and the rest of the iteration *)
Definition worker_complete (now : Z) p : Outcome (Pipeline L) :=
  match p_worker p with
  | WComplete item =>
      let '(r, l) := ledger_complete (item_digest item) (p_ledger p) in
      let p := with_ledger l p in
      match r with
      | Err _ => worker_failure LedgerUnavailable item now (with_status (update (SetDeliveryHealthy false) (p_status p)).2 p)
      | Ok _ =>
          record_action Published (Some (item_route_index item)) (payload_len item) now
            (with_stats (fetch_add c_completed 1 (p_stats p)) (with_worker WRecv p))
      end
  | _ => Stuck
  end.

Definition held (w : WorkerPhase) : nat := match w with WFlush _ | WComplete _ => 1 | WRecv | WGone => 0 end%nat.

(** The publisher task ends or is aborted: what it held and what was queued is
    dropped with the receiver. *)
Definition drop_receiver p : Outcome (Pipeline L) :=
  match p_worker p with
  | WGone => Stuck
  | w => Next (with_abandoned (p_abandoned p + length (p_queue p) + held w)%nat (with_queue [] (with_worker WGone p)))
  end.

(** The [Lagged] arm of [run_bridge_event_router]; the reconciliation trigger is
    the reconciler's. *)
Definition router_lagged (dropped now : Z) p : Outcome (Pipeline L) :=
  diagnose (Lost EventLagged) None None now (with_stats (record_event_lagged dropped (p_stats p)) p).

Definition step (s : Step) p : Outcome (Pipeline L) :=
  match s with
  | Offer event now => deliver_admit event now p
  | LedgerAnswer i => ledger_answer i p
  | Resume i now => deliver_resume i now p
  | Publish connected client now => worker_publish connected client now p
  | Flush client now => worker_flush client now p
  | Complete now => worker_complete now p
  | DropReceiver => drop_receiver p
  | Status op => Next (with_status (update op (p_status p)).2 p)
  | Lagged dropped now => router_lagged dropped now p
  end.

Fixpoint run (steps : list Step) p : Outcome (Pipeline L) :=
  match steps with
  | [] => Next p
  | s :: steps' =>
      match step s p with
      | Next p' => run steps' p'
      | Stuck => Stuck
      | Panic => Panic
      end
  end.

End pipeline.
