(* ===== verification/EgressLedger.v ===== *)
(** * The delivery journal implements the egress pipeline's contract

    [LedgerOps] for the [DeliveryLedger] facade over its worker thread, and the
    laws the pipeline's theorems rely on. Between two calls the thread has
    drained its queue. *)

From S2P Require Import Prelude Journal JournalFacts LedgerWorker LedgerWorkerFacts Egress.

Section instance.
Context {sha : Sha256}.

#[export] Instance delivery_ops : LedgerOps (Worker * Fs) := {
  ledger_reserve d l := let '(r, w, fs) := check_and_reserve d l.1 l.2 in (r, (w, fs));
  ledger_complete d l := let '(r, w, fs) := mark_completed d l.1 l.2 in (r, (w, fs));
  ledger_suppressed d l := let '(r, w, fs) := is_suppressed d l.1 l.2 in (r, (w, fs));
  ledger_healthy l := w_healthy l.1;
}.

(** Between calls: nothing queued, and a delivery journal's index. *)
Definition delivery_inv (l : Worker * Fs) : Prop :=
  w_queue l.1 = [] ∧ map_Forall (λ _ s, s ≠ LocalExcluded) (j_index (w_journal l.1)).

Definition delivery_seen (l : Worker * Fs) (d : LedgerDigest) : Prop := is_Some (j_index (w_journal l.1) !! d).

Lemma find_reply_fresh w : find_reply (fresh_id w) w = None.
Proof.
  unfold find_reply, fresh_id. assert (∀ l k, Forall (λ p : nat * Reply, (p.1 ≤ k)%nat) l →
    List.find (λ p, Nat.eqb p.1 (S k)) l = None) as Hgen.
  { intros l k. induction 1 as [|p l Hp Hl IH]; cbn -[Nat.eqb]; [done|].
    destruct (Nat.eqb_spec p.1 (S k)); [lia|done]. }
  rewrite Hgen; [done|]. clear. generalize (command_id <$> w_queue w) as ids. intros ids.
  apply Forall_forall. intros p Hp.
  assert (p.1 ∈ ids ++ (w_replies w).*1) as Hin by (apply elem_of_app; right; by apply list_elem_of_fmap_2).
  revert Hin. generalize (ids ++ (w_replies w).*1) as l. induction 1; cbn; lia.
Qed.

(** A call on a drained worker: answered by the journal, or refused with the
    journal untouched. *)
Lemma worker_record_drained d s w fs :
  w_queue w = [] →
  (∃ r st, record d s (mkJState (w_journal w) fs) = (r, st) ∧ (worker_record d s w fs).1.1 = r ∧
     w_journal (worker_record d s w fs).1.2 = js_journal st ∧ w_queue (worker_record d s w fs).1.2 = []) ∨
  (is_ok (worker_record d s w fs).1.1 = false ∧ w_journal (worker_record d s w fs).1.2 = w_journal w ∧
     w_queue (worker_record d s w fs).1.2 = []).
Proof.
  intros Hq. destruct (w_healthy w) eqn:Hh.
  2: { right. unfold worker_record, submit. by rewrite Hh. }
  destruct (w_alive w) eqn:Ha.
  2: { right. unfold worker_record, submit, try_send. by rewrite Hh, Ha. }
  destruct (w_stopped w) eqn:Hs.
  - right. pose proof (find_reply_fresh w) as Hfresh. destruct w as [j q h sp al rs]. cbn in Hq, Hh, Ha, Hs. subst.
    unfold worker_record, submit, try_send, run_queue. cbn -[record fresh_id]. unfold find_reply in *.
    cbn -[fresh_id] in Hfresh |- *. rewrite Hfresh. done.
  - left. destruct (record d s (mkJState (w_journal w) fs)) as [r st] eqn:Hr. exists r, st.
    rewrite (worker_record_idle d s w fs r st) by (done || by repeat split). done.
Qed.

(** What a recording does to the index. *)
Lemma worker_record_effect d s w fs :
  w_queue w = [] →
  w_queue (worker_record d s w fs).1.2 = [] ∧
  ((worker_record d s w fs).1.1 = Ok true ∧ record_transition (j_index (w_journal w) !! d) s = Append ∧
     j_index (w_journal (worker_record d s w fs).1.2) = <[d := s]> (j_index (w_journal w)) ∨
   (worker_record d s w fs).1.1 ≠ Ok true ∧
     j_index (w_journal (worker_record d s w fs).1.2) = j_index (w_journal w)).
Proof.
  intros Hq. destruct (worker_record_drained d s w fs Hq) as [(r & st & Hr & -> & -> & ->)|(Hr & -> & ->)].
  - split; [done|]. by apply record_index in Hr.
  - split; [done|]. right. split; [|done]. intros Heq. by rewrite Heq in Hr.
Qed.

(** An answer without an append: the index already had it. *)
Lemma worker_record_unchanged d s w fs :
  w_queue w = [] → (worker_record d s w fs).1.1 = Ok false → record_transition (j_index (w_journal w) !! d) s = Unchanged.
Proof.
  intros Hq Hr. destruct (worker_record_drained d s w fs Hq) as [(r & st & Hrec & <- & _)|(He & _)].
  2: { by rewrite Hr in He. }
  assert (wp (record d s) (λ r _, r = Ok false → record_transition (j_index (w_journal w) !! d) s = Unchanged)
    (mkJState (w_journal w) fs)) as Hwp.
  { unfold record. wp_step. apply wp_gets. cbn beta iota. destruct (negb _); [by apply wp_fail|].
    cbn [js_journal]. destruct (record_transition _ _); [apply wp_run; eauto| |by apply wp_fail].
    destruct (_ && _); [by apply wp_fail|]. apply wp_bind.
    eapply (wp_mono _ (λ _ _, True)); [by apply wp_run|]. intros [[]|e] st1 _; [|done].
    eapply wp_mono; [apply wp_append_index|]. cbn beta. intros [b|e] st2 Hpost; [|done]. destruct Hpost as [-> _]. done. }
  by apply (wp_elim _ _ _ Hwp _ _ Hrec).
Qed.

Lemma worker_lookup_drained d w fs :
  w_queue w = [] →
  w_queue (worker_lookup d w fs).1.2 = [] ∧ w_journal (worker_lookup d w fs).1.2 = w_journal w ∧
  ∀ s, (worker_lookup d w fs).1.1 = Ok s → s = j_index (w_journal w) !! d.
Proof.
  intros Hq. destruct (w_healthy w) eqn:Hh.
  2: { unfold worker_lookup, submit. by rewrite Hh. }
  destruct (w_alive w) eqn:Ha.
  2: { unfold worker_lookup, submit, try_send. by rewrite Hh, Ha. }
  destruct (w_stopped w) eqn:Hs.
  - pose proof (find_reply_fresh w) as Hfresh. destruct w as [j q h sp al rs]. cbn in Hq, Hh, Ha, Hs. subst.
    unfold worker_lookup, submit, try_send, run_queue. cbn -[fresh_id]. unfold find_reply in *.
    cbn -[fresh_id] in Hfresh |- *. rewrite Hfresh. done.
  - rewrite (worker_lookup_idle d w fs) by (by repeat split). cbn. split_and!; [done|done|]. by intros s [= <-].
Qed.

Lemma delivery_record d s w fs :
  s ≠ LocalExcluded → delivery_inv (w, fs) →
  delivery_inv ((worker_record d s w fs).1.2, (worker_record d s w fs).2) ∧
  ∀ e, delivery_seen (w, fs) e → delivery_seen ((worker_record d s w fs).1.2, (worker_record d s w fs).2) e.
Proof.
  intros Hs [Hq Hf]. cbn in Hq, Hf. destruct (worker_record_effect d s w fs Hq) as [Hq' [(_ & _ & Hi)|[_ Hi]]].
  - split; [split; [done|]|]; unfold delivery_seen in *; cbn; rewrite Hi.
    + by apply map_Forall_insert_2.
    + intros e He. destruct (decide (d = e)) as [->|]; [rewrite lookup_insert_eq|rewrite lookup_insert_ne by done]; eauto.
  - split; [split; [done|]|]; unfold delivery_seen in *; cbn; by rewrite Hi.
Qed.

#[export] Program Instance delivery_laws : LedgerLaws (Worker * Fs) := {
  ledger_inv := delivery_inv;
  ledger_seen := delivery_seen;
}.
Next Obligation.
  intros d [w fs] Hl. cbn. unfold check_and_reserve. cbn. destruct (delivery_record d Reserved w fs) as [Hi _]; [done..|].
  by destruct (worker_record d Reserved w fs) as [[r w'] fs'].
Qed.
Next Obligation.
  intros d [w fs] Hl. cbn. unfold mark_completed. destruct (delivery_record d Completed w fs) as [Hi _]; [done..|].
  by destruct (worker_record d Completed w fs) as [[r w'] fs'].
Qed.
Next Obligation.
  intros d [w fs] [Hq Hf]. cbn in *. unfold is_suppressed. destruct (worker_lookup_drained d w fs Hq) as (Hq' & Hj & _).
  destruct (worker_lookup d w fs) as [[r w'] fs']. cbn in *. split; cbn; [done|by rewrite Hj].
Qed.
Next Obligation.
  intros d [w fs] e Hl He. cbn. unfold check_and_reserve. destruct (delivery_record d Reserved w fs) as [_ Hm]; [done..|].
  specialize (Hm e He). by destruct (worker_record d Reserved w fs) as [[r w'] fs'].
Qed.
Next Obligation.
  intros d [w fs] e Hl He. cbn. unfold mark_completed. destruct (delivery_record d Completed w fs) as [_ Hm]; [done..|].
  specialize (Hm e He). by destruct (worker_record d Completed w fs) as [[r w'] fs'].
Qed.
Next Obligation.
  intros d [w fs] e [Hq Hf]. cbn in *. unfold is_suppressed. destruct (worker_lookup_drained d w fs Hq) as (Hq' & Hj & _).
  destruct (worker_lookup d w fs) as [[r w'] fs']. cbn in *. unfold delivery_seen. cbn. by rewrite Hj.
Qed.
Next Obligation.
  intros d [w fs] [Hq Hf] Hr. cbn in *. unfold check_and_reserve in *.
  destruct (worker_record_effect d Reserved w fs Hq) as [_ He].
  destruct (worker_record d Reserved w fs) as [[r w'] fs']. cbn in *. unfold delivery_seen. cbn.
  destruct r as [[]|]; cbn in Hr; try done. destruct He as [(_ & Ht & Hi)|[He _]]; [|done].
  rewrite Hi, lookup_insert_eq. split; [|by eexists]. intros [s Hs]. rewrite Hs in Ht. by destruct s.
Qed.
Next Obligation.
  intros d [w fs] [Hq Hf] Hr. cbn in *. unfold check_and_reserve in *.
  pose proof (worker_record_unchanged d Reserved w fs Hq) as Href. destruct (worker_record d Reserved w fs) as [[r w'] fs'].
  destruct r as [[]|]; cbn in Hr; try done. specialize (Href eq_refl). unfold delivery_seen. cbn.
  by destruct (j_index (w_journal w) !! d).
Qed.
Next Obligation.
  intros d [w fs] b [Hq Hf] Hr. cbn in *. unfold is_suppressed in *.
  destruct (worker_lookup_drained d w fs Hq) as (_ & _ & Hs). destruct (worker_lookup d w fs) as [[r w'] fs'].
  destruct r as [s|]; cbn in Hr; [|done]. injection Hr as <-. rewrite (Hs s eq_refl). unfold delivery_seen. cbn.
  destruct (j_index (w_journal w) !! d) as [st|] eqn:Hd; [|split; [done|by intros [? ?]]].
  split; [eauto|]. intros _. specialize (Hf d st Hd). by destruct st.
Qed.

(** A drained worker over a well-formed delivery journal satisfies the contract. *)
Lemma delivery_inv_journal log w fs :
  w_queue w = [] → j_kind (w_journal w) = Delivery → journal_ok log (mkJState (w_journal w) fs) → delivery_inv (w, fs).
Proof.
  intros Hq Hk (_ & _ & _ & Hr & _). split; [done|]. cbn in *. rewrite Hk in Hr.
  apply replay_permits in Hr; [|by apply map_Forall_empty]. intros d s Hd. specialize (Hr d s Hd). cbn in Hr. by destruct s.
Qed.

End instance.
