(* ===== verification/EgressFacts.v ===== *)
(** * Correctness of the egress pipeline

    No interleaving publishes a document twice or panics, every offered event is
    counted once, the diagnostics lose nothing, and the payload the broker gets
    is the payload another node's bridge received. *)

From S2P Require Import Prelude Journal JournalFacts LedgerWorker Readiness Envelope NatsConfig RateLimit Egress EgressLedger.

(** ** Diagnostics *)

Fixpoint diag_run (acts : list (Z * EgressAction)) (d : EgressDiagnostics) : option EgressDiagnostics :=
  match acts with
  | [] => Some d
  | (now, a) :: acts' => d' ← record_at a now d; diag_run acts' d'
  end.

Definition same_class (n : nat) (r : option nat) (k : EgressActionKind) (p : Z * EgressAction) : bool :=
  Nat.eqb (route_bank n (act_route_index p.2)) (route_bank n r) && bool_decide (act_kind p.2 = k).

Definition in_bucket (n i : nat) (p : Z * EgressAction) : bool :=
  Nat.eqb (bucket_index n (act_route_index p.2) (act_kind p.2)) i.

Definition lines_of (f : Z * EgressAction → bool) (l : list (Z * EgressAction)) : list (Z * Z) :=
  (λ p, (p.1, act_suppressed_count p.2)) <$> List.filter f l.

Lemma classification_range k : (diagnostic_classification k < EGRESS_DIAGNOSTIC_CLASSIFICATIONS)%nat.
Proof. unfold EGRESS_DIAGNOSTIC_CLASSIFICATIONS. destruct k as [[]|[]|]; cbn; lia. Qed.

Lemma classification_inj k1 k2 : diagnostic_classification k1 = diagnostic_classification k2 → k1 = k2.
Proof. destruct k1 as [[]|[]|], k2 as [[]|[]|]; cbn; intros Heq; try discriminate Heq; reflexivity. Qed.

Lemma route_bank_range n r : (route_bank n r ≤ n)%nat.
Proof. unfold route_bank. destruct r as [i|]; [|lia]. destruct (Nat.ltb_spec i n); lia. Qed.

Lemma bucket_index_range n r k :
  (bucket_index n r k < (n + 1) * EGRESS_DIAGNOSTIC_CLASSIFICATIONS)%nat.
Proof.
  unfold bucket_index. pose proof (classification_range k). pose proof (route_bank_range n r).
  unfold EGRESS_DIAGNOSTIC_CLASSIFICATIONS in *. lia.
Qed.

Lemma bucket_index_inj n r1 k1 r2 k2 :
  bucket_index n r1 k1 = bucket_index n r2 k2 → route_bank n r1 = route_bank n r2 ∧ k1 = k2.
Proof.
  unfold bucket_index. pose proof (classification_range k1). pose proof (classification_range k2).
  unfold EGRESS_DIAGNOSTIC_CLASSIFICATIONS in *. intros. split; [lia|]. apply classification_inj. lia.
Qed.

Lemma in_bucket_same n r k p : in_bucket n (bucket_index n r k) p = same_class n r k p.
Proof.
  unfold in_bucket, same_class. apply eq_bool_prop_intro. rewrite !Is_true_true, Nat.eqb_eq, andb_true_iff, Nat.eqb_eq, bool_decide_eq_true.
  split; [apply bucket_index_inj|]. intros [H1 <-]. unfold bucket_index. by rewrite H1.
Qed.

(** Every bucket has seen exactly the occurrences of its class. *)
Definition diag_inv (n : nat) (acts : list (Z * EgressAction)) (d : EgressDiagnostics) : Prop :=
  ed_route_count d = n ∧ length (ed_buckets d) = ((n + 1) * EGRESS_DIAGNOSTIC_CLASSIFICATIONS)%nat ∧
  ∀ i b, ed_buckets d !! i = Some b →
    bucket_run EGRESS_DIAGNOSTIC_INTERVAL (List.filter (in_bucket n i) acts).*1 bucket_default =
    (lines_of (in_bucket n i) (ed_emitted d), b).

Lemma record_at_total a now d :
  length (ed_buckets d) = ((ed_route_count d + 1) * EGRESS_DIAGNOSTIC_CLASSIFICATIONS)%nat →
  ∃ d', record_at a now d = Some d' ∧ ed_route_count d' = ed_route_count d ∧
    length (ed_buckets d') = length (ed_buckets d).
Proof.
  intros Hlen. unfold record_at.
  destruct (lookup_lt_is_Some_2 (ed_buckets d) (bucket_index (ed_route_count d) (act_route_index a) (act_kind a))) as [b Hb].
  { rewrite Hlen. apply bucket_index_range. }
  rewrite Hb. cbn. destruct (bucket_record _ now b) as [o b']. eexists. split; [done|]. cbn. by rewrite length_insert.
Qed.

Lemma lines_of_snoc f l p :
  lines_of f (l ++ [p]) = lines_of f l ++ (if f p then [(p.1, act_suppressed_count p.2)] else []).
Proof. unfold lines_of. rewrite List.filter_app. cbn. destruct (f p); by rewrite fmap_app. Qed.

Lemma diag_inv_step n acts d a now :
  diag_inv n acts d → ∃ d', record_at a now d = Some d' ∧ diag_inv n (acts ++ [(now, a)]) d'.
Proof.
  intros (Hn & Hlen & Hb). destruct (record_at_total a now d) as (d' & Hd' & Hn' & Hlen'); [by rewrite Hn|].
  exists d'. split; [done|]. split_and!; [congruence..|].
  unfold record_at in Hd'. rewrite Hn in Hd'. set (i0 := bucket_index n (act_route_index a) (act_kind a)) in *.
  destruct (ed_buckets d !! i0) as [b0|] eqn:Hb0; [|done]. cbn [mbind option_bind] in Hd'.
  destruct (bucket_record EGRESS_DIAGNOSTIC_INTERVAL now b0) as [o b0'] eqn:Ho. injection Hd' as <-. cbn [ed_buckets ed_emitted].
  intros i b Hi. rewrite List.filter_app, fmap_app, bucket_run_app. cbn [List.filter].
  destruct (decide (i0 = i)) as [<-|Hne].
  - rewrite list_lookup_insert_eq in Hi by (by eapply lookup_lt_Some). injection Hi as <-. rewrite (Hb _ _ Hb0).
    assert (∀ x, in_bucket n i0 (x, a) = true) as Hin by (intros; unfold in_bucket; apply Nat.eqb_refl).
    rewrite Hin. cbn. rewrite Ho. destruct o; [|by rewrite app_nil_r].
    rewrite lines_of_snoc.
    assert (in_bucket n i0 (now, set_suppressed z a) = true) as -> by (unfold in_bucket; apply Nat.eqb_refl). done.
  - rewrite list_lookup_insert_ne in Hi by done. rewrite (Hb _ _ Hi).
    assert (∀ x, in_bucket n i (x, a) = false) as Hin by (intros; unfold in_bucket; by apply Nat.eqb_neq).
    rewrite Hin. cbn. rewrite app_nil_r. f_equal. destruct o; [|done]. rewrite lines_of_snoc.
    assert (in_bucket n i (now, set_suppressed z a) = false) as -> by (unfold in_bucket; by apply Nat.eqb_neq).
    by rewrite app_nil_r.
Qed.

Lemma diag_run_inv n acts acts0 d :
  diag_inv n acts0 d → ∃ d', diag_run acts d = Some d' ∧ diag_inv n (acts0 ++ acts) d'.
Proof.
  revert acts0 d. induction acts as [|[now a] acts IH]; intros acts0 d Hd; cbn.
  - exists d. by rewrite app_nil_r.
  - destruct (diag_inv_step n acts0 d a now Hd) as (d1 & -> & Hd1). cbn.
    destruct (IH _ _ Hd1) as (d2 & -> & Hd2). exists d2. by rewrite <-app_assoc in Hd2.
Qed.

Lemma diag_inv_new n : diag_inv n [] (diagnostics_new n).
Proof.
  unfold diag_inv, diagnostics_new. cbn. split_and!; [done|apply length_replicate|].
  intros i b Hi. apply lookup_replicate_1 in Hi as [-> _]. done.
Qed.

(** The egress diagnostics are lossless and rate-limited: recording never
    indexes out of bounds, and for every route and action kind the lines emitted for
    it, each with the suppressed count it carries, together with the bucket's pending
    count add up to exactly the occurrences of that route and kind (no other route's
    flood is ever attributed to it), with 60 seconds between two lines. *)
Theorem diagnostics_lossless n acts :
  Z.of_nat (length acts) ≤ U64_MAX →
  ∃ d, diag_run acts (diagnostics_new n) = Some d ∧
  ∀ r k, ∃ b, ed_buckets d !! bucket_index n r k = Some b ∧
    accounted (lines_of (same_class n r k) (ed_emitted d)) + suppressed b =
      Z.of_nat (length (List.filter (same_class n r k) acts)) ∧
    spaced EGRESS_DIAGNOSTIC_INTERVAL None (lines_of (same_class n r k) (ed_emitted d)).
Proof.
  intros Hmax. destruct (diag_run_inv n acts [] (diagnostics_new n) (diag_inv_new n)) as (d & Hd & Hn & Hlen & Hb).
  exists d. split; [done|]. intros r k.
  destruct (lookup_lt_is_Some_2 (ed_buckets d) (bucket_index n r k)) as [b Hi].
  { rewrite Hlen. apply bucket_index_range. }
  exists b. split; [done|]. apply Hb in Hi. cbn [app] in Hi.
  assert (∀ l, List.filter (in_bucket n (bucket_index n r k)) l = List.filter (same_class n r k) l) as Hf.
  { intros l. apply List.filter_ext. intros p. apply in_bucket_same. }
  unfold lines_of in *. rewrite Hf in Hi. rewrite Hf in Hi.
  split.
  - apply bucket_run_accounts in Hi as [E _]; [|done|].
    + rewrite E. cbn. by rewrite length_fmap.
    + cbn. rewrite length_fmap. pose proof (List.filter_length_le (same_class n r k) acts). lia.
  - pose proof (bucket_run_spaced EGRESS_DIAGNOSTIC_INTERVAL (List.filter (same_class n r k) acts).*1 bucket_default) as Hs.
    by rewrite Hi in Hs.
Qed.

(** ** Accounting *)

(** The counters in which an offered event can end. *)
Definition outcome_counters : list EgressCounter :=
  [c_malformed; c_unsupported; c_unmapped; c_route_mismatch; c_returned_local; c_oversized_payload; c_duplicate;
   c_queue_full; c_queue_closed; c_unavailable; c_publish_failed; c_max_payload_exceeded; c_flush_failed;
   c_ledger_unavailable; c_published].

Definition sum_counters (l : list EgressCounter) (st : EgressStats) : Z := foldr (λ c acc, st c + acc) 0 l.

Definition total : EgressStats → Z := sum_counters outcome_counters.

Lemma sum_fetch_add l c n st :
  NoDup l → eqm (sum_counters l (fetch_add c n st)) (sum_counters l st + (if bool_decide (c ∈ l) then n else 0)).
Proof.
  induction 1 as [|x l Hx Hl IH]; cbn [sum_counters foldr]; [by rewrite bool_decide_false by apply not_elem_of_nil|].
  fold (sum_counters l (fetch_add c n st)) (sum_counters l st). rewrite IH. unfold fetch_add at 1.
  destruct (decide (c = x)) as [->|Hne].
  - rewrite (bool_decide_true (x = x)), (bool_decide_false (x ∈ l)), (bool_decide_true (x ∈ x :: l)) by (done || by left).
    rewrite eqm_wrapping. exists 0. lia.
  - rewrite (bool_decide_false (c = x)) by done.
    rewrite (bool_decide_ext (c ∈ x :: l) (c ∈ l)) by (rewrite elem_of_cons; naive_solver). exists 0. lia.
Qed.

Lemma total_fetch_add c n st :
  eqm (total (fetch_add c n st)) (total st + (if bool_decide (c ∈ outcome_counters) then n else 0)).
Proof. apply sum_fetch_add. apply (bool_decide_unpack _). reflexivity. Qed.

(** Reservations, completions and lag are not outcomes of an offered event. *)
Lemma total_uncounted c n st :
  c = c_reserved ∨ c = c_completed ∨ c = c_event_lagged → eqm (total (fetch_add c n st)) (total st).
Proof.
  intros Hc. rewrite total_fetch_add. replace (bool_decide (c ∈ outcome_counters)) with false; [exists 0; lia|].
  by destruct Hc as [->|[->| ->]].
Qed.

Lemma total_counted kind st :
  kind ≠ Lost EventLagged → eqm (total (fetch_add (action_counter kind) 1 st)) (total st + 1).
Proof.
  intros Hk. rewrite total_fetch_add. by destruct kind as [[]|[]|].
Qed.

#[local] Arguments total _ : simpl never.
#[local] Arguments fetch_add : simpl never.
#[local] Arguments outcome_counters : simpl never.

Section pipeline_facts.
Context {sha : Sha256} `{Serde} {L : Type} `{LedgerLaws L} (origin : string).
Implicit Types p : Pipeline L.

Definition shape p : Prop :=
  length (ed_buckets (p_diagnostics p)) = ((ed_route_count (p_diagnostics p) + 1) * EGRESS_DIAGNOSTIC_CLASSIFICATIONS)%nat.

(** Events offered and not yet counted, plus those counted. *)
Definition census p : Z :=
  total (p_stats p) + Z.of_nat (length (p_inflight p) + length (p_queue p) + held (p_worker p) + p_abandoned p).

Definition offers (s : Step) : Z := match s with Offer _ _ => 1 | _ => 0 end.

(** A step that did not panic keeps the census. *)
Definition census_step (change : Z) p (o : Outcome (Pipeline L)) : Prop :=
  match o with
  | Next p' => shape p' ∧ eqm (census p') (census p + change) ∧
      (p_stats p c_completed = p_stats p c_published → p_stats p' c_completed = p_stats p' c_published)
  | Stuck => True
  | Panic => False
  end.

Lemma diagnose_next kind r b now p :
  shape p → ∃ d, diagnose kind r b now p = Next (with_diagnostics d p) ∧ shape (with_diagnostics d p).
Proof.
  intros Hs. unfold diagnose. destruct (record_at_total (mkAction kind r b 0) now (p_diagnostics p)) as (d & -> & Hn & Hl); [done|].
  exists d. split; [done|]. unfold shape. cbn. by rewrite Hn, Hl.
Qed.

(** Counting an action as the outcome of one event that was held in [p]. *)
Lemma record_action_census kind r b now p0 p change :
  shape p → eqm (census p + 1) (census p0 + change) → kind ≠ Published → kind ≠ Lost EventLagged →
  p_stats p c_completed = p_stats p0 c_completed → p_stats p c_published = p_stats p0 c_published →
  census_step change p0 (record_action kind r b now p).
Proof.
  intros Hs Hc Hk1 Hk2 Hst1 Hst2. unfold record_action.
  destruct (diagnose_next kind r b now (with_stats (fetch_add (action_counter kind) 1 (p_stats p)) p)) as (d & -> & Hd); [done|].
  split_and!; [done| |].
  - rewrite <-Hc. unfold census. cbn. rewrite total_counted by done. exists 0. lia.
  - cbn. unfold fetch_add. destruct kind as [[]|[]|]; try done; cbn; by rewrite Hst1, Hst2.
Qed.

Lemma worker_failure_census kind item now p0 p :
  kind ≠ EventLagged → kind ≠ QueueFull → kind ≠ QueueClosed →
  shape p → eqm (census (with_worker WRecv p) + 1) (census p0) → p_stats p = p_stats p0 →
  census_step 0 p0 (worker_failure kind item now p).
Proof.
  intros Hk1 Hk2 Hk3 Hs Hc Hst. rewrite <-(Z.add_0_r (census p0)) in Hc.
  destruct kind; try done; apply record_action_census; try done; cbn; by rewrite Hst.
Qed.

(** The publisher only reports what the loop handles. *)
Lemma nats_publish_kinds status conn client called k :
  nats_publish status conn client = (called, Err k) → k ≠ EventLagged ∧ k ≠ QueueFull ∧ k ≠ QueueClosed.
Proof. unfold nats_publish. intros. destruct (_ || _); [|destruct client as [|[]]]; by simplify_eq/=. Qed.

Lemma nats_flush_kinds status client k :
  nats_flush status client = Err k → k ≠ EventLagged ∧ k ≠ QueueFull ∧ k ≠ QueueClosed.
Proof. unfold nats_flush. intros. destruct client as [[]|]; try destruct (negb _); by simplify_eq/=. Qed.

Lemma step_census s p : shape p → census_step (offers s) p (step origin s p).
Proof.
  intros Hs. destruct s as [event now|i|i now|conn client now|client now|now| |op|dropped now]; cbn [step offers].
  - unfold deliver_admit. destruct (classify _ event) as [item|k].
    + case_match; [by apply record_action_census|].
      split_and!; [done| |done]. unfold census. cbn. rewrite length_app. cbn. exists 0. lia.
    + by apply record_action_census.
  - unfold ledger_answer. destruct (p_inflight p !! i) as [[item [r|]]|] eqn:Hi; [done| |done].
    destruct (ledger_reserve _ _) as [r l]. split_and!; [done| |done].
    unfold census. cbn. rewrite length_insert. exists 0. lia.
  - unfold deliver_resume. destruct (p_inflight p !! i) as [[item [r|]]|] eqn:Hi; [|done..].
    assert (length (p_inflight p) = S (length (delete i (p_inflight p)))) as Hlen.
    { pose proof (lookup_lt_Some _ _ _ Hi). rewrite length_delete by eauto. lia. }
    destruct r as [[]|e].
    + assert (∀ k, k ≠ Published → k ≠ Lost EventLagged → ∀ b,
        census_step 0 p (record_action k (Some (item_route_index item)) b now
          (with_stats (fetch_add c_reserved 1 (p_stats p)) (with_inflight (delete i (p_inflight p)) p)))) as Hrec.
      { intros k ?? b. apply record_action_census; try done.
        unfold census. cbn. rewrite total_uncounted by auto. rewrite Hlen. exists 0. lia. }
      assert (census_step 0 p (if Nat.leb EGRESS_QUEUE_CAPACITY (length (p_queue p))
        then record_action (Lost QueueFull) (Some (item_route_index item)) (payload_len item) now
               (with_stats (fetch_add c_reserved 1 (p_stats p)) (with_inflight (delete i (p_inflight p)) p))
        else Next (with_queue (p_queue p ++ [item])
               (with_stats (fetch_add c_reserved 1 (p_stats p)) (with_inflight (delete i (p_inflight p)) p))))) as Hq.
      { case_match; [by apply Hrec|]. split_and!; [done| |done]. unfold census. cbn. rewrite total_uncounted by auto.
        rewrite Hlen, length_app. cbn. exists 0. lia. }
      destruct (p_worker p) eqn:Hw; cbn; rewrite Hw; [exact Hq..|]. by apply Hrec.
    + apply record_action_census; try done. unfold census. cbn. rewrite Hlen. exists 0. lia.
    + apply record_action_census; try done. unfold census. cbn. rewrite Hlen. exists 0. lia.
  - unfold worker_publish. destruct (p_worker p) eqn:Hw; try done. destruct (p_queue p) as [|item rest] eqn:Hq; [done|].
    cbn [p_status with_queue]. destruct (nats_publish _ conn client) as [called [[]|k]] eqn:Hpub.
    + destruct called; (split_and!; [done| |done]); unfold census; cbn; rewrite Hq, Hw; cbn; exists 0; lia.
    + apply nats_publish_kinds in Hpub as (? & ? & ?).
      destruct called; (apply worker_failure_census; try done); unfold census; cbn; rewrite Hq, Hw; cbn; exists 0; lia.
  - unfold worker_flush. destruct (p_worker p) as [|item|item|] eqn:Hw; try done.
    destruct (nats_flush _ client) as [[]|k] eqn:Hf.
    + split_and!; [done| |done]. unfold census. cbn. rewrite Hw. cbn. exists 0. lia.
    + apply nats_flush_kinds in Hf as (? & ? & ?). apply worker_failure_census; try done.
      unfold census. cbn. rewrite Hw. cbn. exists 0. lia.
  - unfold worker_complete. destruct (p_worker p) as [|item|item|] eqn:Hw; try done.
    destruct (ledger_complete _ _) as [[[]|e] l].
    + unfold record_action. edestruct diagnose_next as (d & -> & Hd); [|split_and!; [done| |]]; [done| |].
      * unfold census. cbn. rewrite Hw, (total_counted Published), total_uncounted by auto. cbn. exists 0. lia.
      * cbn. unfold fetch_add. intros Heq. cbn. by rewrite Heq.
    + apply worker_failure_census; try done. unfold census. cbn. rewrite Hw. cbn. exists 0. lia.
  - unfold drop_receiver. destruct (p_worker p) as [|item|item|] eqn:Hw; try done.
    all: split_and!; [done| |done]; unfold census; cbn; rewrite Hw; cbn; exists 0; lia.
  - split_and!; [done| |done]. unfold census. cbn. exists 0. lia.
  - unfold router_lagged. edestruct diagnose_next as (d & -> & Hd); [|split_and!; [done| |]]; [done| |].
    + unfold census. cbn. unfold record_event_lagged. rewrite total_uncounted by auto. exists 0. lia.
    + cbn. unfold record_event_lagged, fetch_add. done.
Qed.

Lemma run_census steps p :
  shape p →
  match run origin steps p with
  | Next p' => shape p' ∧ eqm (census p') (census p + foldr (λ s acc, offers s + acc) 0 steps) ∧
      (p_stats p c_completed = p_stats p c_published → p_stats p' c_completed = p_stats p' c_published)
  | Stuck => True
  | Panic => False
  end.
Proof.
  revert p. induction steps as [|s steps IH]; intros p Hs; cbn [run foldr].
  - split_and!; [done|exists 0; lia|done].
  - pose proof (step_census s p Hs) as Hstep. destruct (step origin s p) as [p1| |]; [|done..].
    destruct Hstep as (Hs1 & Hc1 & He1). specialize (IH p1 Hs1). destruct (run origin steps p1) as [p2| |]; [|done..].
    destruct IH as (Hs2 & Hc2 & He2). split_and!; [done| |auto]. rewrite Hc2, Hc1. exists 0. lia.
Qed.

(** ** Grants *)

Definition granted (x : EgressItem * option (result LedgerError ReserveResult)) : option LedgerDigest :=
  match x.2 with Some (Ok RReserved) => Some (item_digest x.1) | _ => None end.

(** The digests of items that were granted and not yet lost. *)
Definition grants_of p : list LedgerDigest :=
  (item_digest ∘ snd <$> p_client p) ++ (item_digest <$> p_queue p) ++ omap granted (p_inflight p).

Definition grants_inv (l0 : L) p : Prop :=
  ledger_inv (p_ledger p) ∧ NoDup (grants_of p) ∧
  (∀ d, d ∈ grants_of p → ledger_seen (p_ledger p) d ∧ ¬ ledger_seen l0 d) ∧
  (∀ d, ledger_seen l0 d → ledger_seen (p_ledger p) d).

Lemma delete_insert_same {A} (l : list A) i x : delete i (<[i := x]> l) = delete i l.
Proof. revert i. induction l as [|a l IH]; intros [|i]; cbn; try done. by rewrite IH. Qed.

Lemma granted_at fl i x :
  fl !! i = Some x → omap granted fl ≡ₚ option_list (granted x) ++ omap granted (delete i fl).
Proof.
  intros Hi. rewrite (delete_Permutation fl i x Hi) at 1. cbn. by destruct (granted x).
Qed.

(** Losing grants is harmless. *)
Lemma grants_inv_sub l0 p p' lost :
  grants_inv l0 p → p_ledger p' = p_ledger p → grants_of p ≡ₚ lost ++ grants_of p' → grants_inv l0 p'.
Proof.
  intros (Hinv & Hnd & Hseen & Hold) Hl Hperm. unfold grants_inv. rewrite Hl. split_and!; try done.
  - rewrite Hperm in Hnd. by apply NoDup_app in Hnd as (_ & _ & ?).
  - intros d Hd. apply Hseen. rewrite Hperm. apply elem_of_app. by right.
Qed.

Lemma record_action_frame kind r b now p p' :
  record_action kind r b now p = Next p' → p_ledger p' = p_ledger p ∧ grants_of p' = grants_of p.
Proof. unfold record_action, diagnose. intros. case_match; by simplify_eq. Qed.

Lemma worker_failure_frame kind item now p p' :
  worker_failure kind item now p = Next p' → p_ledger p' = p_ledger p ∧ grants_of p' = grants_of p.
Proof. unfold worker_failure. intros Hw. destruct kind; try done; by apply record_action_frame in Hw. Qed.

Lemma ledger_answer_grants l0 i p p' :
  ledger_answer i p = Next p' → grants_inv l0 p → grants_inv l0 p'.
Proof.
  unfold ledger_answer. destruct (p_inflight p !! i) as [[item [r|]]|] eqn:Hi; try done.
  destruct (ledger_reserve (item_digest item) (p_ledger p)) as [r l] eqn:Hr. intros ? (Hinv & Hnd & Hseen & Hold). simplify_eq.
  pose proof (reserve_inv (item_digest item) (p_ledger p) Hinv) as Hinv'.
  pose proof (λ e, reserve_mono (item_digest item) (p_ledger p) e Hinv) as Hmono.
  pose proof (reserve_granted (item_digest item) (p_ledger p) Hinv) as Hgrant. rewrite Hr in Hinv', Hmono, Hgrant. cbn in *.
  set (p' := with_ledger _ _).
  assert (grants_of p' ≡ₚ option_list (granted (item, Some r)) ++ grants_of p) as Hperm.
  { unfold grants_of, p'. cbn [p_client p_queue p_inflight with_ledger with_inflight].
    rewrite (granted_at (p_inflight p) i _ Hi).
    rewrite (granted_at (<[i := (item, Some r)]> (p_inflight p)) i (item, Some r)).
    2: { apply list_lookup_insert_eq. by eapply lookup_lt_Some. }
    rewrite delete_insert_same. change (granted (item, None)) with (@None LedgerDigest). cbn [option_list app]. solve_Permutation. }
  unfold grants_inv. change (p_ledger p') with l. split_and!; [done| | |auto].
  - rewrite Hperm. apply NoDup_app. split_and!; [destruct (granted _); repeat constructor; set_solver| |done].
    unfold granted. cbn. destruct r as [[]|]; cbn; try (intros d Hd; by apply elem_of_nil in Hd).
    intros d ->%list_elem_of_singleton Hin. destruct (Hgrant eq_refl) as [Hn _]. by apply Hn, Hseen.
  - intros d. rewrite Hperm, elem_of_app. intros [Hd|Hd].
    + unfold granted in Hd. cbn in Hd. destruct r as [[]|]; cbn in Hd; try by apply elem_of_nil in Hd.
      apply list_elem_of_singleton in Hd as ->. destruct (Hgrant eq_refl) as [Hn Hs]. split; [done|]. naive_solver.
    + destruct (Hseen d Hd). auto.
Qed.

Lemma deliver_resume_grants l0 i now p p' :
  deliver_resume i now p = Next p' → grants_inv l0 p → grants_inv l0 p'.
Proof.
  unfold deliver_resume. destruct (p_inflight p !! i) as [[item [r|]]|] eqn:Hi; [|done..].
  assert (grants_of p ≡ₚ option_list (granted (item, Some r)) ++ grants_of (with_inflight (delete i (p_inflight p)) p)) as Hperm.
  { unfold grants_of. cbn [p_client p_queue p_inflight with_inflight].
    rewrite (granted_at (p_inflight p) i _ Hi). solve_Permutation. }
  destruct r as [[]|e].
  - intros Hrun Hg.
    assert (∀ q, record_action q (Some (item_route_index item)) (payload_len item) now
        (with_stats (fetch_add c_reserved 1 (p_stats p)) (with_inflight (delete i (p_inflight p)) p)) = Next p' →
        grants_inv l0 p') as Hrec.
    { intros q [Hl Heq]%record_action_frame. eapply grants_inv_sub; [done|by rewrite Hl|]. rewrite Heq. exact Hperm. }
    cbn in Hrun. destruct (p_worker p); [..|by eapply Hrec]; (case_match; [by eapply Hrec|]); simplify_eq.
    all: eapply (grants_inv_sub l0 p _ []); [done..|]; rewrite Hperm; unfold grants_of; cbn; rewrite fmap_app; cbn; solve_Permutation.
  - intros [Hl Heq]%record_action_frame Hg. eapply grants_inv_sub; [done|by rewrite Hl|]. rewrite Heq. exact Hperm.
  - intros [Hl Heq]%record_action_frame Hg. eapply grants_inv_sub; [done|by rewrite Hl|]. rewrite Heq. exact Hperm.
Qed.

Lemma worker_publish_grants l0 conn client now p p' :
  worker_publish origin conn client now p = Next p' → grants_inv l0 p → grants_inv l0 p'.
Proof.
  unfold worker_publish. destruct (p_worker p); try done. destruct (p_queue p) as [|item rest] eqn:Hq; [done|].
  cbn [p_status with_queue]. destruct (nats_publish _ conn client) as [called r]. intros Hrun Hg.
  assert (∃ lost p1, p_ledger p1 = p_ledger p ∧ grants_of p ≡ₚ lost ++ grants_of p1 ∧
    p_ledger p' = p_ledger p1 ∧ grants_of p' = grants_of p1) as (lost & p1 & Hl1 & Hp1 & Hl & Heq).
  { exists (if called then [] else [item_digest item]). eexists. split; [|split; [|destruct r as [[]|k]]].
    4: { by apply worker_failure_frame in Hrun. }
    3: { injection Hrun as <-. split; reflexivity. }
    - by destruct called.
    - unfold grants_of. rewrite Hq. destruct called; cbn; rewrite ?fmap_app; cbn; solve_Permutation. }
  eapply (grants_inv_sub l0 p p' lost); [done|congruence|]. by rewrite Heq.
Qed.

Lemma step_grants l0 s p p' : step origin s p = Next p' → grants_inv l0 p → grants_inv l0 p'.
Proof.
  intros Hstep Hg.
  assert (p_ledger p' = p_ledger p ∧ grants_of p' = grants_of p → grants_inv l0 p') as Hframe.
  { intros [Hl Heq]. unfold grants_inv in *. by rewrite Hl, Heq. }
  destruct s as [event now|i|i now|conn client now|client now|now| |op|dropped now]; cbn [step] in Hstep.
  - apply Hframe. unfold deliver_admit in Hstep. destruct (classify _ event); [|by apply record_action_frame in Hstep].
    case_match; [by apply record_action_frame in Hstep|]. simplify_eq. split; [done|].
    unfold grants_of. cbn. by rewrite omap_app, app_nil_r.
  - by eapply ledger_answer_grants.
  - by eapply deliver_resume_grants.
  - by eapply worker_publish_grants.
  - apply Hframe. unfold worker_flush in Hstep. destruct (p_worker p); try done.
    destruct (nats_flush _ _); [by simplify_eq|by apply worker_failure_frame in Hstep].
  - unfold worker_complete in Hstep. destruct (p_worker p) as [|item|item|]; try done.
    destruct Hg as (Hinv & Hnd & Hseen & Hold).
    pose proof (complete_inv (item_digest item) (p_ledger p) Hinv) as Hinv'.
    pose proof (λ e, complete_mono (item_digest item) (p_ledger p) e Hinv) as Hmono.
    destruct (ledger_complete _ _) as [r l].
    assert (p_ledger p' = l ∧ grants_of p' = grants_of p) as [Hl Heq].
    { destruct r; [by apply record_action_frame in Hstep|by apply worker_failure_frame in Hstep]. }
    unfold grants_inv. rewrite Hl, Heq. cbn in *. split_and!; [done|done| |auto].
    intros d Hd. destruct (Hseen d Hd). auto.
  - unfold drop_receiver in Hstep. destruct (p_worker p); try done; simplify_eq.
    all: eapply (grants_inv_sub l0 p _ (item_digest <$> p_queue p)); [done..|]; unfold grants_of; cbn; solve_Permutation.
  - apply Hframe. by simplify_eq.
  - apply Hframe. unfold router_lagged, diagnose in Hstep. case_match; by simplify_eq.
Qed.

Lemma run_grants l0 steps p p' : run origin steps p = Next p' → grants_inv l0 p → grants_inv l0 p'.
Proof.
  revert p. induction steps as [|s steps IH]; intros p Hrun Hg; cbn in Hrun; [by simplify_eq|].
  destruct (step origin s p) as [p1| |] eqn:Hs; [|done..]. eauto using step_grants.
Qed.

(** Everything handed to the client carries the node's origin mark. *)
Lemma step_marked s p p' :
  step origin s p = Next p' →
  Forall (λ x, x.1 = (BRIDGE_ORIGIN_HEADER, origin)) (p_client p) →
  Forall (λ x, x.1 = (BRIDGE_ORIGIN_HEADER, origin)) (p_client p').
Proof.
  intros Hstep Hc.
  assert (∀ k r b now q, record_action k r b now q = Next p' → p_client p' = p_client q) as Hra.
  { intros k r b now q. unfold record_action, diagnose. intros. case_match; by simplify_eq. }
  assert (∀ k i now q, worker_failure k i now q = Next p' → p_client p' = p_client q) as Hwf.
  { intros k i now q. unfold worker_failure. destruct k; try done; intros Hk; by apply Hra in Hk. }
  destruct s; cbn [step] in Hstep.
  all: unfold deliver_admit, ledger_answer, deliver_resume, worker_flush, worker_complete, drop_receiver, router_lagged in Hstep.
  4: { unfold worker_publish in Hstep. destruct (p_worker p); try done. destruct (p_queue p) as [|item rest]; [done|].
    destruct (nats_publish _ _ _) as [[] r]; cbn in Hstep.
    - assert (p_client p' = p_client p ++ [(BRIDGE_ORIGIN_HEADER, origin, item)]) as ->
        by (destruct r; [by simplify_eq|by apply Hwf in Hstep]).
      apply Forall_app. split; [done|]. by constructor.
    - assert (p_client p' = p_client p) as -> by (destruct r; [by simplify_eq|by apply Hwf in Hstep]). done. }
  all: repeat case_match; try done; simplify_eq; first [done | by (apply Hra in Hstep; rewrite Hstep) | by (apply Hwf in Hstep; rewrite Hstep) | idtac].
  all: unfold diagnose in Hstep; case_match; by simplify_eq.
Qed.

Lemma run_marked steps p p' :
  run origin steps p = Next p' →
  Forall (λ x, x.1 = (BRIDGE_ORIGIN_HEADER, origin)) (p_client p) →
  Forall (λ x, x.1 = (BRIDGE_ORIGIN_HEADER, origin)) (p_client p').
Proof.
  revert p. induction steps as [|s steps IH]; intros p Hrun Hg; cbn in Hrun; [by simplify_eq|].
  destruct (step origin s p) as [p1| |] eqn:Hs; [|done..]. eauto using step_marked.
Qed.

End pipeline_facts.

(** ** Classification *)

Lemma foldl_insert_notin {A B} (f : A → string) (g : A → B) l (m : gmap string B) k :
  k ∉ f <$> l → foldl (λ m x, <[f x := g x]> m) m l !! k = m !! k.
Proof.
  revert m. induction l as [|x l IH]; intros m Hk; cbn in *; [done|].
  apply not_elem_of_cons in Hk as [Hne Hk]. rewrite IH, lookup_insert_ne by done. done.
Qed.

Lemma foldl_insert_in {A B} (f : A → string) (g : A → B) l (m : gmap string B) x :
  NoDup (f <$> l) → x ∈ l → foldl (λ m x, <[f x := g x]> m) m l !! f x = Some (g x).
Proof.
  revert m. induction l as [|y l IH]; intros m Hnd Hx; cbn in *; [by apply elem_of_nil in Hx|].
  apply NoDup_cons in Hnd as [Hy Hnd]. apply elem_of_cons in Hx as [->|Hx]; [|by apply IH].
  by rewrite foldl_insert_notin, lookup_insert_eq.
Qed.

(** The tables hold the configured routes, by position. *)
Lemma classifier_new_route mappings node i m :
  NoDup (collection <$> mappings) → mappings !! i = Some m →
  routes (classifier_new mappings node) !! collection m = Some (subject m) ∧
  route_indexes (classifier_new mappings node) !! collection m = Some i.
Proof.
  intros Hnd Hi. unfold classifier_new. cbn [routes route_indexes]. split.
  - apply (foldl_insert_in collection subject); [done|]. by eapply list_elem_of_lookup_2.
  - apply (foldl_insert_in (collection ∘ snd) fst (imap pair mappings) ∅ (i, m)).
    + rewrite fmap_imap. erewrite imap_ext; [by rewrite (imap_const collection)|]. done.
    + apply elem_of_lookup_imap. by exists i, m.
Qed.

Section properties.
Context {sha : Sha256} `{Serde} {L : Type} `{LedgerLaws L} (origin : string).

(** [C5] At-most-once publication under every interleaving: however deliveries,
    journal answers, resumptions, publishes, flushes, completions, connection and
    health changes, lag and the publisher's death interleave, no document's digest is
    handed to the broker client twice, none that the journal already knew at start is
    handed over at all, each one handed over is recorded in the journal, and each
    carries this node's origin mark. *)
Theorem publish_at_most_once mappings node l0 s0 steps p :
  ledger_inv l0 → run origin steps (coordinator_new mappings node l0 s0) = Next p →
  NoDup ((λ x, item_digest x.2) <$> p_client p) ∧
  Forall (λ x, ¬ ledger_seen l0 (item_digest x.2) ∧ ledger_seen (p_ledger p) (item_digest x.2) ∧
    x.1 = (BRIDGE_ORIGIN_HEADER, origin)) (p_client p).
Proof.
  intros Hl Hrun.
  destruct (run_grants origin l0 _ _ _ Hrun) as (_ & Hnd & Hseen & _); [by repeat split; try constructor; try set_solver|].
  pose proof (run_marked origin _ _ _ Hrun (Forall_nil_2 _)) as Hmark. split.
  - by apply NoDup_app in Hnd as [? _].
  - apply Forall_forall. intros x Hx. rewrite Forall_forall in Hmark.
    destruct (Hseen (item_digest x.2)) as [? ?]; [|auto].
    unfold grants_of. apply elem_of_app. left. by apply (list_elem_of_fmap_2 (item_digest ∘ snd)).
Qed.


(** The gates are exact: an event becomes an item iff its text is an envelope
    of the bridge's kind and version, its collection is a configured route whose
    subject is the envelope's, the envelope does not come from this node, and the
    payload fits; the item then has the document's digest, the route's subject and
    position, and the payload's exact bytes. *)
Theorem classify_exact c event item :
  classify c event = Ok item ↔
  ∃ env, envelope_from_json (ev_json_data event) = Some env ∧
    env_kind env = BRIDGE_ENVELOPE_KIND ∧ env_version env = BRIDGE_ENVELOPE_VERSION ∧
    routes c !! ev_collection event = Some (env_subject env) ∧
    route_indexes c !! ev_collection event = Some (item_route_index item) ∧
    env_source_node_id env ≠ local_node_id c ∧ str_len (env_payload env) ≤ MAX_INGRESS_PAYLOAD_BYTES ∧
    item_digest item = document_digest (ev_collection event) (ev_doc_id event) ∧
    item_subject item = env_subject env ∧ item_payload item = str_bytes (env_payload env).
Proof.
  unfold classify. destruct (envelope_from_json (ev_json_data event)) as [env|]; cbn [ok_or].
  2: { split; [done|]. by intros (? & ? & _). }
  split.
  - intros Hc. repeat (case_match; simplify_eq/=); to_prop. unfold ok_or in *. repeat case_match; simplify_eq.
    exists env. cbn. split_and!; congruence || done.
  - intros (env' & [= <-] & Hk & Hv & Hr & Hi & Hn & Hlen & Hd & Hs & Hp).
    rewrite Hk, Hv, Hr, Hi, !bool_decide_true, bool_decide_false by done. rewrite Z.eqb_refl. cbn.
    rewrite (bool_decide_true (env_subject env = _)) by done. cbn.
    rewrite (proj2 (Z.ltb_ge _ _)) by done. destruct item; cbn in *. by subst.
Qed.

(** [C7] Byte-exact transport between two bridges: a payload one node's ingress
    accepts on a subject, stored under the route's collection and received by another
    node with that route, leaves that node on the same subject with the same bytes,
    under the digest of the document; the node that ingested it drops it instead. *)
Theorem transport_byte_exact `{!SerdeLaws} mappings i m source node data env doc_id peer :
  NoDup (collection <$> mappings) → mappings !! i = Some m →
  from_payload (subject m) source data = Ok env → Z.of_nat (length data) ≤ MAX_INGRESS_PAYLOAD_BYTES →
  classify (classifier_new mappings node) (mkEvent (collection m) doc_id peer (envelope_to_json env)) =
  if bool_decide (source = node) then Err ReturnedLocal
  else Ok (mkEgressItem (document_digest (collection m) doc_id) (subject m) data i).
Proof.
  intros Hnd Hi Hp Hlen. apply from_payload_Ok in Hp as (_ & Hk & Hv & Hs & Hn & Hb).
  destruct (classifier_new_route mappings node i m Hnd Hi) as [Hr Hx].
  unfold classify. cbn [ev_json_data ev_collection ev_doc_id]. rewrite envelope_roundtrip by (rewrite Hv; unfold BRIDGE_ENVELOPE_VERSION, U32_MAX; lia). cbn [ok_or].
  rewrite Hk, Hv, Hr, Hx, Hs, Hn, bool_decide_true, Z.eqb_refl by done. cbn.
  rewrite (bool_decide_true (subject m = subject m)) by done. cbn. case_bool_decide; [done|].
  rewrite (proj2 (Z.ltb_ge _ _)); [by rewrite Hb|]. unfold str_len. by rewrite <-length_str_bytes, Hb.
Qed.

End properties.

(** ** Witnesses *)

Definition toy_mappings : list SubjectMapping := [mkMapping "tracks.up" "tracks"].

(** A remote envelope with the payload ["{}"]. *)
Definition toy_payload : bytes := [Byte.x7b; Byte.x7d].
Definition toy_envelope : BridgeEnvelope :=
  mkEnvelope BRIDGE_ENVELOPE_KIND BRIDGE_ENVELOPE_VERSION "tracks.up" "alpha" (String.string_of_list_byte toy_payload).
Definition toy_event : BridgeChangeEvent :=
  mkEvent "tracks" "doc" "peer" (envelope_to_json (Serde := toy_serde) toy_envelope).

Definition toy_delivery : Worker * Fs :=
  (mkWorker (js_journal fresh_state) [] true false true [], js_fs fresh_state).

Definition toy_status : BridgeStatus :=
  (run_updates [SetConnected; MarkAllSubscriptionsEstablished] (readiness_new ["tracks.up"%string])).2.

(** The same document offered twice, live and by reconciliation: published once. *)
Definition toy_steps : list Step :=
  [Offer toy_event 0; Offer toy_event 1; LedgerAnswer 0; LedgerAnswer 1; Resume 1 2; Resume 0 3;
   Publish true (Ok tt) 4; Flush (Some (Ok tt)) 5; Complete 6].

Definition toy_run : Outcome (Pipeline (Worker * Fs)) :=
  run (sha := toy_sha) (H := toy_serde) (H0 := delivery_ops (sha := toy_sha)) "beta" toy_steps
    (coordinator_new toy_mappings "beta" toy_delivery toy_status).

Definition client_payloads (o : Outcome (Pipeline (Worker * Fs))) : list bytes :=
  match o with Next p => (λ x, item_payload x.2) <$> p_client p | _ => [] end.

Lemma toy_delivery_inv : delivery_inv toy_delivery.
Proof.
  unfold toy_delivery. eapply (delivery_inv_journal (sha := toy_sha) []); [done|by vm_compute|]. apply fresh_state_ok.
Qed.

Lemma publish_at_most_once_witness :
  client_payloads toy_run = [toy_payload] ∧
  ∀ p, toy_run = Next p → NoDup ((λ x, item_digest x.2) <$> p_client p).
Proof.
  split; [vm_compute; reflexivity|]. intros p Hp.
  apply (publish_at_most_once (sha := toy_sha) (H := toy_serde) (H0 := delivery_ops (sha := toy_sha))
           (H1 := delivery_laws (sha := toy_sha)) "beta" toy_mappings "beta" toy_delivery toy_status toy_steps p
           toy_delivery_inv Hp).
Defined.

Lemma diagnostics_lossless_witness :
  ∃ d, diag_run [(0, mkAction Published None None 0); (1, mkAction Published None None 0)] (diagnostics_new 1) = Some d.
Proof.
  destruct (diagnostics_lossless 1 [(0, mkAction Published None None 0); (1, mkAction Published None None 0)]) as (d & Hd & _).
  - vm_compute. discriminate.
  - exists d. exact Hd.
Defined.

Lemma transport_byte_exact_witness :
  classify (sha := toy_sha) (H := toy_serde) (classifier_new toy_mappings "beta") toy_event =
  Ok (mkEgressItem (document_digest (sha := toy_sha) "tracks" "doc") "tracks.up" toy_payload 0).
Proof.
  apply (transport_byte_exact (sha := toy_sha) (H := toy_serde) (H2 := toy_serde_laws) toy_mappings 0
           (mkMapping "tracks.up" "tracks") "alpha" "beta" toy_payload toy_envelope "doc" "peer").
  - apply NoDup_singleton.
  - reflexivity.
  - vm_compute. reflexivity.
  - vm_compute. discriminate.
Defined.

