(* ===== verification/Preflight.v ===== *)
(** * The structural preflight of replicated documents

    Model of [preflight_event_document] and its helpers in [src/node.rs]: an
    iterative walk over a document with an explicit stack and running totals,
    rejecting before anything is hydrated into JSON. An Automerge document is
    seen through its read interface: a tree of maps (and tables), lists and
    texts, with scalars at the leaves; an object id is the object. *)

From S2P Require Import Prelude.

Inductive ScalarValueRef :=
| SStr (len : N) | SBytes (len : N) | SUnknown (len : N) | SNumber | SBoolean | SNull.

Inductive AmObject :=
| AmMap (entries : list (string * AmValue))
| AmList (entries : list AmValue)
| AmText (len : N)
with AmValue :=
| VObject (o : AmObject)
| VScalar (s : ScalarValueRef).

Definition MAX_BRIDGE_EVENT_JSON_BYTES : Z := 2 * 1048576 + 4096.
Definition MAX_EVENT_DOCUMENT_DEPTH : Z := 64.
Definition MAX_EVENT_DOCUMENT_OBJECTS : Z := 4096.
Definition MAX_EVENT_CONTAINER_ENTRIES : Z := 4096.
Definition MAX_EVENT_TOTAL_ENTRIES : Z := 65536.
Definition MAX_EVENT_SCALAR_BYTES : Z := 2 * 1048576.
Definition MAX_EVENT_OUTPUT_PROXY_BYTES : Z := 6 * MAX_BRIDGE_EVENT_JSON_BYTES.

Inductive NodeChangeRejectKind :=
| InvalidKey | IdentityTooLarge | NcStoreRead | EncodedTooLarge | StructuralLimit | Decrypt | NcConversion | EventTooLarge.

(** The mutable variables of the walk; the top of the stack is the head. *)
Record Walk := mkWalk {
  wk_stack : list (AmObject * Z);
  wk_objects : Z;
  wk_total : Z;
  wk_scalar : Z;
  wk_proxy : Z;
}.

(** The bytes and the output proxy a scalar adds. *)
Definition scalar_cost (s : ScalarValueRef) : Z * Z :=
  match s with
  | SStr len => (Z.of_N len, saturating_mul_u64 (Z.of_N len) 6 + 2)
  | SBytes len => (Z.of_N len, 4)
  | SUnknown len => (Z.of_N len, 4)
  | SNumber => (0, 32)
  | SBoolean => (0, 5)
  | SNull => (0, 4)
  end.

Definition preflight_value (value : AmValue) (depth : Z) (w : Walk) : result NodeChangeRejectKind Walk :=
  match value with
  | VObject o =>
      let objects := saturating_add_u64 (wk_objects w) 1 in
      if (MAX_EVENT_DOCUMENT_OBJECTS <? objects) || (MAX_EVENT_DOCUMENT_DEPTH <=? depth) then Err StructuralLimit
      else Ok (mkWalk ((o, depth + 1) :: wk_stack w) objects (wk_total w) (wk_scalar w) (wk_proxy w))
  | VScalar s =>
      let '(bytes, proxy) := scalar_cost s in
      Ok (mkWalk (wk_stack w) (wk_objects w) (wk_total w)
            (saturating_add_u64 (wk_scalar w) bytes) (saturating_add_u64 (wk_proxy w) proxy))
  end.

Definition enforce_preflight_counts (container : Z) (w : Walk) : result NodeChangeRejectKind unit :=
  if (MAX_EVENT_CONTAINER_ENTRIES <? container) || (MAX_EVENT_TOTAL_ENTRIES <? wk_total w)
     || (MAX_EVENT_DOCUMENT_OBJECTS <? wk_objects w) || (MAX_EVENT_SCALAR_BYTES <? wk_scalar w)
     || (MAX_EVENT_OUTPUT_PROXY_BYTES <? wk_proxy w)
  then Err StructuralLimit else Ok tt.

(** What an entry adds to the proxy before its value: a map entry its key, a list
    entry a separator. *)
Definition entry_proxy (key : option string) (p : Z) : Z :=
  match key with
  | Some k => saturating_add_u64 (saturating_add_u64 p (saturating_mul_u64 (str_len k) 6)) 4
  | None => saturating_add_u64 p 1
  end.

(** The [for] loops over a container's entries. *)
Fixpoint preflight_entries (entries : list (option string * AmValue)) (depth container : Z) (w : Walk)
  : result NodeChangeRejectKind Walk :=
  match entries with
  | [] => Ok w
  | (key, value) :: rest =>
      let container := saturating_add_u64 container 1 in
      let w := mkWalk (wk_stack w) (wk_objects w) (saturating_add_u64 (wk_total w) 1) (wk_scalar w)
                 (entry_proxy key (wk_proxy w)) in
      let? w := preflight_value value depth w in
      let? _ := enforce_preflight_counts container w in
      preflight_entries rest depth container w
  end.

Definition children (o : AmObject) : list (option string * AmValue) :=
  match o with
  | AmMap es => (λ p, (Some p.1, p.2)) <$> es
  | AmList es => (λ v, (None, v)) <$> es
  | AmText _ => []
  end.

(** One iteration of the [while let Some(..) = stack.pop()] loop, after the pop. *)
Definition preflight_object (o : AmObject) (depth : Z) (w : Walk) : result NodeChangeRejectKind Walk :=
  if MAX_EVENT_DOCUMENT_DEPTH <? depth then Err StructuralLimit
  else
    match o with
    | AmMap _ | AmList _ => preflight_entries (children o) depth 0 w
    | AmText len =>
        let w := mkWalk (wk_stack w) (wk_objects w) (wk_total w) (saturating_add_u64 (wk_scalar w) (Z.of_N len))
                   (saturating_add_u64 (wk_proxy w) (saturating_mul_u64 (Z.of_N len) 6)) in
        let? _ := enforce_preflight_counts 0 w in
        Ok w
    end.

Fixpoint preflight_loop (fuel : nat) (w : Walk) : option (result NodeChangeRejectKind unit) :=
  match wk_stack w with
  | [] => Some (Ok tt)
  | (o, depth) :: rest =>
      match fuel with
      | O => None
      | S fuel' =>
          match preflight_object o depth (mkWalk rest (wk_objects w) (wk_total w) (wk_scalar w) (wk_proxy w)) with
          | Err k => Some (Err k)
          | Ok w' => preflight_loop fuel' w'
          end
      end
  end.

(** The object limit bounds the pops, so this fuel is enough. *)
Definition preflight_event_document (doc : list (string * AmValue)) : option (result NodeChangeRejectKind unit) :=
  preflight_loop (S (Z.to_nat MAX_EVENT_DOCUMENT_OBJECTS)) (mkWalk [(AmMap doc, 0)] 1 0 0 2).

(** ** Reference: what the limits mean for the document as a tree *)

Record Cost := mkCost { c_objects : Z; c_entries : Z; c_scalar : Z; c_proxy : Z }.

Definition cost_zero : Cost := mkCost 0 0 0 0.
Definition cost_add (a b : Cost) : Cost :=
  mkCost (c_objects a + c_objects b) (c_entries a + c_entries b) (c_scalar a + c_scalar b) (c_proxy a + c_proxy b).

Definition key_cost (key : option string) : Z := match key with Some k => 6 * str_len k + 4 | None => 1 end.

Definition leaf_cost (s : ScalarValueRef) : Cost :=
  match s with
  | SStr len => mkCost 0 0 (Z.of_N len) (6 * Z.of_N len + 2)
  | SBytes len | SUnknown len => mkCost 0 0 (Z.of_N len) 4
  | SNumber => mkCost 0 0 0 32
  | SBoolean => mkCost 0 0 0 5
  | SNull => mkCost 0 0 0 4
  end.

(** Everything below an object: objects, entries, scalar bytes, output proxy. *)
Fixpoint object_cost (o : AmObject) : Cost :=
  match o with
  | AmMap es =>
      foldr (λ p acc, cost_add (cost_add (mkCost 0 1 0 (key_cost (Some p.1))) (value_cost p.2)) acc) cost_zero es
  | AmList es => foldr (λ v acc, cost_add (cost_add (mkCost 0 1 0 (key_cost None)) (value_cost v)) acc) cost_zero es
  | AmText len => mkCost 0 0 (Z.of_N len) (6 * Z.of_N len)
  end
with value_cost (v : AmValue) : Cost :=
  match v with
  | VObject o => cost_add (mkCost 1 0 0 0) (object_cost o)
  | VScalar s => leaf_cost s
  end.

(** No object deeper than the limit, no container wider than it. *)
Fixpoint object_shape (depth : Z) (o : AmObject) : bool :=
  (depth <=? MAX_EVENT_DOCUMENT_DEPTH)
  && match o with
     | AmMap es => (Z.of_nat (length es) <=? MAX_EVENT_CONTAINER_ENTRIES)
                   && forallb (λ p, value_shape depth p.2) es
     | AmList es => (Z.of_nat (length es) <=? MAX_EVENT_CONTAINER_ENTRIES) && forallb (value_shape depth) es
     | AmText _ => true
     end
with value_shape (depth : Z) (v : AmValue) : bool :=
  match v with
  | VObject o => object_shape (depth + 1) o
  | VScalar _ => true
  end.

Definition within (c : Cost) : Prop :=
  c_objects c ≤ MAX_EVENT_DOCUMENT_OBJECTS ∧ c_entries c ≤ MAX_EVENT_TOTAL_ENTRIES ∧
  c_scalar c ≤ MAX_EVENT_SCALAR_BYTES ∧ c_proxy c ≤ MAX_EVENT_OUTPUT_PROXY_BYTES.

#[global] Instance within_dec c : Decision (within c).
Proof. unfold within. apply _. Defined.

(** ** Lemmas *)

Definition nonneg (c : Cost) : Prop := 0 ≤ c_objects c ∧ 0 ≤ c_entries c ∧ 0 ≤ c_scalar c ∧ 0 ≤ c_proxy c.

Definition entry_cost (p : option string * AmValue) : Cost := cost_add (mkCost 0 1 0 (key_cost p.1)) (value_cost p.2).
Definition entries_cost (es : list (option string * AmValue)) : Cost := foldr (λ p acc, cost_add (entry_cost p) acc) cost_zero es.
Definition stack_cost (l : list (AmObject * Z)) : Cost := foldr (λ p acc, cost_add (object_cost p.1) acc) cost_zero l.
Definition stack_shape (l : list (AmObject * Z)) : bool := forallb (λ p, object_shape p.2 p.1) l.
Definition counts (w : Walk) : Cost := mkCost (wk_objects w) (wk_total w) (wk_scalar w) (wk_proxy w).

Lemma key_cost_nonneg key : 0 ≤ key_cost key.
Proof. destruct key; cbn; unfold str_len; lia. Qed.

Lemma leaf_cost_nonneg s : nonneg (leaf_cost s).
Proof. unfold nonneg. destruct s; cbn; lia. Qed.

Lemma cost_add_nonneg a b : nonneg a → nonneg b → nonneg (cost_add a b).
Proof. unfold nonneg. cbn. lia. Qed.

Lemma object_cost_nonneg : ∀ o, nonneg (object_cost o).
Proof.
  fix IH 1. intros [es|es|len].
  - cbn [object_cost]. induction es as [|[k v] es IHes]; [unfold nonneg; cbn; lia|].
    cbn [foldr]. apply cost_add_nonneg; [|exact IHes]. apply cost_add_nonneg.
    + pose proof (key_cost_nonneg (Some k)). unfold nonneg. cbn [fst c_objects c_entries c_scalar c_proxy]. lia.
    + destruct v as [o|s]; cbn [snd value_cost]; [|apply leaf_cost_nonneg].
      apply cost_add_nonneg; [unfold nonneg; cbn; lia|apply IH].
  - cbn [object_cost]. induction es as [|v es IHes]; [unfold nonneg; cbn; lia|].
    cbn [foldr]. apply cost_add_nonneg; [|exact IHes]. apply cost_add_nonneg.
    + unfold nonneg. cbn. lia.
    + destruct v as [o|s]; cbn [value_cost]; [|apply leaf_cost_nonneg].
      apply cost_add_nonneg; [unfold nonneg; cbn; lia|apply IH].
  - unfold nonneg. cbn. lia.
Qed.

Lemma value_cost_nonneg v : nonneg (value_cost v).
Proof.
  destruct v as [o|s]; [|apply leaf_cost_nonneg].
  apply cost_add_nonneg; [unfold nonneg; cbn; lia|apply object_cost_nonneg].
Qed.

Lemma entry_cost_nonneg p : nonneg (entry_cost p).
Proof.
  apply cost_add_nonneg; [|apply value_cost_nonneg]. pose proof (key_cost_nonneg p.1). unfold nonneg. cbn. lia.
Qed.

Lemma entries_cost_nonneg es : nonneg (entries_cost es).
Proof.
  induction es as [|p es IH]; [unfold nonneg; cbn; lia|]. apply cost_add_nonneg; [apply entry_cost_nonneg|exact IH].
Qed.

Lemma stack_cost_nonneg l : nonneg (stack_cost l).
Proof.
  induction l as [|p l IH]; [unfold nonneg; cbn; lia|]. apply cost_add_nonneg; [apply object_cost_nonneg|exact IH].
Qed.

(** The containers' costs and shapes, by their entries. *)
Lemma object_cost_children o :
  object_cost o = match o with AmText len => mkCost 0 0 (Z.of_N len) (6 * Z.of_N len) | _ => entries_cost (children o) end.
Proof.
  destruct o as [es|es|len]; [| |done]; cbn [object_cost children].
  - induction es as [|[k v] es IH]; [done|]. cbn [foldr fmap list_fmap entries_cost]. by rewrite IH.
  - induction es as [|v es IH]; [done|]. cbn [foldr fmap list_fmap entries_cost]. by rewrite IH.
Qed.

Lemma object_shape_children depth o :
  object_shape depth o =
  (depth <=? MAX_EVENT_DOCUMENT_DEPTH) &&
  ((Z.of_nat (length (children o)) <=? MAX_EVENT_CONTAINER_ENTRIES) && forallb (λ p, value_shape depth p.2) (children o)).
Proof.
  destruct o as [es|es|len]; cbn [object_shape children]; [| |by rewrite ?andb_true_r].
  - rewrite length_fmap. do 2 f_equal. induction es as [|p es IH]; cbn; [done|]. by rewrite IH.
  - rewrite length_fmap. do 2 f_equal. induction es as [|p es IH]; cbn; [done|]. by rewrite IH.
Qed.

#[local] Ltac limits :=
  unfold within, nonneg, saturating_add_u64, saturating_mul_u64, U64_MAX, MAX_EVENT_CONTAINER_ENTRIES,
    MAX_EVENT_TOTAL_ENTRIES, MAX_EVENT_DOCUMENT_OBJECTS, MAX_EVENT_SCALAR_BYTES, MAX_EVENT_OUTPUT_PROXY_BYTES,
    MAX_BRIDGE_EVENT_JSON_BYTES, MAX_EVENT_DOCUMENT_DEPTH in *.

(** A saturated total is exact, or both it and the exact one are over the limit. *)
Definition near (lim x1 x : Z) : Prop := 0 ≤ x1 ∧ 0 ≤ x ∧ (x1 = x ∧ x ≤ lim ∨ lim < x1 ∧ lim < x).

Lemma near_add lim x1 x y1 y :
  lim < U64_MAX → near lim x1 x → near lim y1 y → near lim (saturating_add_u64 x1 y1) (x + y).
Proof. unfold near, saturating_add_u64, U64_MAX. lia. Qed.

Lemma near_mul6 lim x : 0 ≤ lim < U64_MAX → 0 ≤ x → near lim (saturating_mul_u64 x 6) (6 * x).
Proof. unfold near, saturating_mul_u64, U64_MAX. lia. Qed.

Lemma near_refl lim x : 0 ≤ x → near lim x x.
Proof. unfold near. lia. Qed.

Definition near_cost (a b : Cost) : Prop :=
  near MAX_EVENT_DOCUMENT_OBJECTS (c_objects a) (c_objects b) ∧ near MAX_EVENT_TOTAL_ENTRIES (c_entries a) (c_entries b) ∧
  near MAX_EVENT_SCALAR_BYTES (c_scalar a) (c_scalar b) ∧ near MAX_EVENT_OUTPUT_PROXY_BYTES (c_proxy a) (c_proxy b).

Lemma near_cost_within a b : near_cost a b → within a → a = b ∧ within b.
Proof. unfold near_cost, near, within. destruct a, b; cbn. intros. split; [f_equal|]; lia. Qed.

Lemma near_cost_not_within a b : near_cost a b → ¬ within a → ¬ within b.
Proof. unfold near_cost, near, within. lia. Qed.

Lemma enforce_spec container w :
  (enforce_preflight_counts container w = Ok tt ∧ container ≤ MAX_EVENT_CONTAINER_ENTRIES ∧ within (counts w)) ∨
  (enforce_preflight_counts container w = Err StructuralLimit ∧
   (MAX_EVENT_CONTAINER_ENTRIES < container ∨ ¬ within (counts w))).
Proof.
  unfold enforce_preflight_counts, within, counts. cbn.
  destruct (_ || _) eqn:E; [right|left]; (split; [done|]).
  - repeat (apply orb_true_iff in E as [E|E]); to_prop; lia.
  - to_prop. lia.
Qed.

Lemma entry_proxy_near key p : 0 ≤ p → near MAX_EVENT_OUTPUT_PROXY_BYTES (entry_proxy key p) (p + key_cost key).
Proof.
  intros Hp. assert (0 ≤ MAX_EVENT_OUTPUT_PROXY_BYTES < U64_MAX) by (limits; lia). unfold entry_proxy, key_cost. destruct key as [k|].
  - replace (p + (6 * str_len k + 4)) with (p + 6 * str_len k + 4) by lia.
    apply near_add; [lia| |by apply near_refl]. apply near_add; [lia|by apply near_refl|].
    apply near_mul6; [done|]. unfold str_len. lia.
  - apply near_add; [lia|by apply near_refl..].
Qed.

Lemma scalar_cost_near s :
  near MAX_EVENT_SCALAR_BYTES (scalar_cost s).1 (c_scalar (leaf_cost s)) ∧
  near MAX_EVENT_OUTPUT_PROXY_BYTES (scalar_cost s).2 (c_proxy (leaf_cost s)).
Proof. destruct s; cbn; unfold near; limits; lia. Qed.

(** The state after an entry's own bookkeeping. *)
Definition enter (key : option string) (w : Walk) : Walk :=
  mkWalk (wk_stack w) (wk_objects w) (saturating_add_u64 (wk_total w) 1) (wk_scalar w) (entry_proxy key (wk_proxy w)).

(** One entry: accepted with exact totals and its object pushed, or over a limit. *)
Lemma entry_step key v depth container w :
  within (counts w) → nonneg (counts w) → 0 ≤ container ≤ MAX_EVENT_CONTAINER_ENTRIES → depth ≤ MAX_EVENT_DOCUMENT_DEPTH →
  match (let? w1 := preflight_value v depth (enter key w) in
         let? _ := enforce_preflight_counts (saturating_add_u64 container 1) w1 in Ok w1) with
  | Ok w1 =>
      within (counts w1) ∧ nonneg (counts w1) ∧ container + 1 ≤ MAX_EVENT_CONTAINER_ENTRIES ∧
      cost_add (counts w1) (stack_cost (wk_stack w1)) =
        cost_add (cost_add (counts w) (entry_cost (key, v))) (stack_cost (wk_stack w)) ∧
      stack_shape (wk_stack w1) = value_shape depth v && stack_shape (wk_stack w)
  | Err k =>
      k = StructuralLimit ∧
      (¬ within (cost_add (counts w) (entry_cost (key, v))) ∨ MAX_EVENT_CONTAINER_ENTRIES < container + 1 ∨
       value_shape depth v = false)
  end.
Proof.
  intros Hw Hnn Hcont Hdepth. pose proof (entry_proxy_near key (wk_proxy w)) as Hproxy.
  assert (near MAX_EVENT_TOTAL_ENTRIES (saturating_add_u64 (wk_total w) 1) (wk_total w + 1)) as Htotal.
  { apply near_add; [limits; lia|apply near_refl; unfold nonneg in Hnn; cbn in Hnn; lia|by apply near_refl]. }
  destruct v as [o|s]; cbn [preflight_value].
  - destruct ((MAX_EVENT_DOCUMENT_OBJECTS <? _) || _) eqn:E.
    + split; [done|]. apply orb_true_iff in E as [E|E]; to_prop.
      * left. pose proof (object_cost_nonneg o). unfold entry_cost. limits. cbn in *. lia.
      * right. right. cbn. rewrite object_shape_children. rewrite (proj2 (Z.leb_gt _ _)) by lia. done.
    + to_prop. set (w1 := mkWalk _ _ _ _ _).
      assert (near_cost (counts w1) (cost_add (counts w) (mkCost 1 1 0 (key_cost key)))) as Hnear.
      { unfold near_cost, nonneg in *. cbn in *. split_and!; [|exact Htotal| |apply Hproxy; lia].
        - apply near_add; [limits; lia|apply near_refl; lia|by apply near_refl].
        - rewrite Z.add_0_r. apply near_refl. lia. }
      destruct (enforce_spec (saturating_add_u64 container 1) w1) as [(-> & Hc1 & Hw1)|(-> & Hbad)].
      * destruct (near_cost_within _ _ Hnear Hw1) as [Heq _]. split_and!; [done| | | |].
        -- unfold near_cost, near in Hnear. unfold nonneg. lia.
        -- limits. lia.
        -- rewrite Heq. unfold entry_cost, stack_cost, cost_add. cbn. f_equal; lia.
        -- done.
      * split; [done|]. destruct Hbad as [Hbad|Hbad]; [right; left; limits; lia|]. left.
        apply (near_cost_not_within _ _ Hnear) in Hbad. pose proof (object_cost_nonneg o). intros Hin. apply Hbad.
        unfold within, nonneg, entry_cost in *. cbn in *. lia.
  - destruct (scalar_cost s) as [bytes proxy] eqn:Hs. pose proof (scalar_cost_near s) as [Hsc Hsp]. rewrite Hs in Hsc, Hsp.
    set (w1 := mkWalk _ _ _ _ _).
    assert (near_cost (counts w1) (cost_add (counts w) (entry_cost (key, VScalar s)))) as Hnear.
    { assert (c_objects (leaf_cost s) = 0 ∧ c_entries (leaf_cost s) = 0) as [Hl1 Hl2] by (by destruct s).
      unfold near_cost, nonneg, entry_cost in *. cbn in *. rewrite Hl1, Hl2. split_and!.
      - rewrite Z.add_0_r. apply near_refl. lia.
      - exact Htotal.
      - apply near_add; [limits; lia|apply near_refl; lia|done].
      - rewrite Z.add_assoc. apply near_add; [limits; lia|apply Hproxy; lia|done]. }
    destruct (enforce_spec (saturating_add_u64 container 1) w1) as [(-> & Hc1 & Hw1)|(-> & Hbad)].
    + destruct (near_cost_within _ _ Hnear Hw1) as [Heq _]. split_and!; [done| | | |done].
      * unfold near_cost, near in Hnear. unfold nonneg. lia.
      * limits. lia.
      * by rewrite Heq.
    + split; [done|]. destruct Hbad as [Hbad|Hbad]; [right; left; limits; lia|]. left.
      by apply (near_cost_not_within _ _ Hnear).
Qed.

Lemma preflight_entries_cons key v rest depth container w :
  preflight_entries ((key, v) :: rest) depth container w =
  match (let? w1 := preflight_value v depth (enter key w) in
         let? _ := enforce_preflight_counts (saturating_add_u64 container 1) w1 in Ok w1) with
  | Ok w1 => preflight_entries rest depth (saturating_add_u64 container 1) w1
  | Err k => Err k
  end.
Proof.
  cbn [preflight_entries]. unfold enter. destruct (preflight_value _ _ _) as [w1|]; [|done].
  by destruct (enforce_preflight_counts _ _) as [[]|].
Qed.

(** What a walk from [w] still has to visit. *)
Definition whole (w : Walk) : Cost := cost_add (counts w) (stack_cost (wk_stack w)).

Definition good (w : Walk) : Prop := within (counts w) ∧ nonneg (counts w).

(** A step of the walk: exact, or rejected because the document is over a limit. *)
Definition walk_step (w : Walk) (c : Cost) (shape : bool) (r : result NodeChangeRejectKind Walk) : Prop :=
  match r with
  | Ok w' => good w' ∧ whole w' = cost_add (whole w) c ∧ stack_shape (wk_stack w') = shape && stack_shape (wk_stack w)
  | Err k => k = StructuralLimit ∧ ¬ (within (cost_add (whole w) c) ∧ shape = true)
  end.

Lemma cost_add_assoc a b c : cost_add a (cost_add b c) = cost_add (cost_add a b) c.
Proof. unfold cost_add. cbn. f_equal; lia. Qed.

Lemma cost_add_comm a b : cost_add a b = cost_add b a.
Proof. unfold cost_add. cbn. f_equal; lia. Qed.

Lemma cost_add_zero a : cost_add a cost_zero = a.
Proof. destruct a. unfold cost_add. cbn. f_equal; lia. Qed.

Lemma within_mono a b : within (cost_add a b) → nonneg b → within a.
Proof. unfold within, nonneg, cost_add. cbn. lia. Qed.

Lemma preflight_entries_step es depth container w :
  good w → 0 ≤ container ≤ MAX_EVENT_CONTAINER_ENTRIES → depth ≤ MAX_EVENT_DOCUMENT_DEPTH →
  walk_step w (entries_cost es)
    ((container + Z.of_nat (length es) <=? MAX_EVENT_CONTAINER_ENTRIES) && forallb (λ p, value_shape depth p.2) es)
    (preflight_entries es depth container w).
Proof.
  intros Hgood Hcont Hdepth. revert container w Hgood Hcont.
  induction es as [|[key v] es IH]; intros container w [Hw Hnn] Hcont.
  - cbn -[Z.of_nat]. split; [done|]. rewrite cost_add_zero. split; [done|].
    by rewrite (proj2 (Z.leb_le _ _)) by lia.
  - rewrite preflight_entries_cons. pose proof (entry_step key v depth container w Hw Hnn Hcont Hdepth) as Hstep.
    set (r := match preflight_value _ _ _ with Ok _ => _ | Err _ => _ end) in *. destruct r as [w1|k].
    + destruct Hstep as (Hw1 & Hnn1 & Hc1 & Hcost & Hshape).
      assert (saturating_add_u64 container 1 = container + 1) as -> by (limits; lia).
      specialize (IH (container + 1) w1 (conj Hw1 Hnn1) ltac:(lia)). unfold walk_step in *.
      cbn [length entries_cost foldr]. fold (entries_cost es).
      replace (container + Z.of_nat (S (length es))) with (container + 1 + Z.of_nat (length es)) by lia.
      assert (cost_add (whole w1) (entries_cost es) =
        cost_add (whole w) (cost_add (entry_cost (key, v)) (entries_cost es))) as Hwhole.
      { unfold whole in *. rewrite Hcost. unfold cost_add. cbn. f_equal; lia. }
      cbn [forallb snd]. destruct (preflight_entries es depth (container + 1) w1) as [w'|k].
      * destruct IH as (Hg & Hc & Hs). split; [done|]. split; [congruence|].
        rewrite Hs, Hshape. destruct (_ <=? _), (value_shape depth v), (forallb _ es), (stack_shape _); done.
      * destruct IH as [-> Hbad]. split; [done|]. intros [Hin Hsh]. apply Hbad. rewrite Hwhole. split; [done|].
        destruct (_ <=? _), (value_shape depth v), (forallb _ es); done.
    + destruct Hstep as [-> Hbad]. split; [done|]. intros [Hin Hsh].
      apply andb_true_iff in Hsh as [Hlen Hsh]. cbn [forallb snd length] in *. apply andb_true_iff in Hsh as [Hv _]. to_prop.
      destruct Hbad as [Hbad|[Hbad|Hbad]]; [|lia|congruence]. apply Hbad.
      apply (within_mono _ (cost_add (stack_cost (wk_stack w)) (entries_cost es))).
      2: { apply cost_add_nonneg; [apply stack_cost_nonneg|apply entries_cost_nonneg]. }
      change (entries_cost ((key, v) :: es)) with (cost_add (entry_cost (key, v)) (entries_cost es)) in Hin.
      eapply (eq_ind _ within Hin). unfold whole, cost_add. cbn [c_objects c_entries c_scalar c_proxy]. f_equal; lia.
Qed.

#[local] Arguments stack_cost : simpl never.

Lemma preflight_object_step o depth w :
  good w → 0 ≤ depth →
  walk_step w (object_cost o) (object_shape depth o) (preflight_object o depth w).
Proof.
  intros Hgood Hd. unfold preflight_object. rewrite object_shape_children, object_cost_children.
  destruct (Z.ltb_spec MAX_EVENT_DOCUMENT_DEPTH depth) as [Hlt|Hge].
  { rewrite (proj2 (Z.leb_gt _ _)) by lia. split; [done|]. by intros [_ ?]. }
  rewrite (proj2 (Z.leb_le depth _)) by lia. cbn [andb].
  destruct o as [es|es|len]; [apply (preflight_entries_step _ depth 0 w); [done|limits; lia|done]..|].
  cbn [children length forallb]. destruct Hgood as [Hw Hnn].
  set (w1 := mkWalk _ _ _ _ _).
  assert (near_cost (counts w1) (cost_add (counts w) (mkCost 0 0 (Z.of_N len) (6 * Z.of_N len)))) as Hnear.
  { unfold near_cost, nonneg in *. cbn in *. rewrite !Z.add_0_r. split_and!; [apply near_refl; lia..| |].
    - apply near_add; [limits; lia|apply near_refl; lia|apply near_refl; lia].
    - apply near_add; [limits; lia|apply near_refl; lia|]. apply near_mul6; [limits; lia|lia]. }
  destruct (enforce_spec 0 w1) as [(-> & _ & Hw1)|(-> & Hbad)].
  - destruct (near_cost_within _ _ Hnear Hw1) as [Heq _]. unfold walk_step. split_and!; [split; [done|]| |done].
    + unfold near_cost, near in Hnear. unfold nonneg. lia.
    + unfold whole. rewrite Heq. unfold cost_add. cbn. f_equal; lia.
  - split; [done|]. intros [Hin _]. destruct Hbad as [Hbad|Hbad]; [limits; lia|].
    apply (near_cost_not_within _ _ Hnear) in Hbad. apply Hbad.
    apply (within_mono _ (stack_cost (wk_stack w))); [|apply stack_cost_nonneg].
    eapply (eq_ind _ within Hin). unfold whole, cost_add. cbn. f_equal; lia.
Qed.

(** Every object on the stack was counted. *)
Lemma preflight_value_pushes v depth w w' :
  preflight_value v depth w = Ok w' → 0 ≤ depth → Forall (λ p, 0 ≤ p.2) (wk_stack w) →
  wk_objects w' - Z.of_nat (length (wk_stack w')) = wk_objects w - Z.of_nat (length (wk_stack w)) ∧
  Forall (λ p, 0 ≤ p.2) (wk_stack w').
Proof.
  intros Hv Hd Hf. destruct v as [o|s]; cbn in Hv.
  - destruct (_ || _) eqn:E; [done|]. injection Hv as <-. to_prop. cbn -[Z.of_nat].
    split; [limits; lia|]. constructor; [cbn; lia|done].
  - destruct (scalar_cost s). by injection Hv as <-.
Qed.

Lemma preflight_entries_pushes es depth container w w' :
  preflight_entries es depth container w = Ok w' → 0 ≤ depth → Forall (λ p, 0 ≤ p.2) (wk_stack w) →
  wk_objects w' - Z.of_nat (length (wk_stack w')) = wk_objects w - Z.of_nat (length (wk_stack w)) ∧
  Forall (λ p, 0 ≤ p.2) (wk_stack w').
Proof.
  revert container w. induction es as [|[key v] es IH]; intros container w He Hd Hf; [by injection He as <-|].
  rewrite preflight_entries_cons in He. destruct (preflight_value v depth (enter key w)) as [w1|] eqn:Hv; [|done].
  destruct (enforce_preflight_counts _ w1); [|done].
  destruct (preflight_value_pushes _ _ _ _ Hv Hd Hf) as [E1 F1]. destruct (IH _ _ He Hd F1) as [E2 F2].
  split; [|done]. rewrite E2, E1. done.
Qed.

Lemma preflight_object_pushes o depth w w' :
  preflight_object o depth w = Ok w' → 0 ≤ depth → Forall (λ p, 0 ≤ p.2) (wk_stack w) →
  wk_objects w' - Z.of_nat (length (wk_stack w')) = wk_objects w - Z.of_nat (length (wk_stack w)) ∧
  Forall (λ p, 0 ≤ p.2) (wk_stack w').
Proof.
  unfold preflight_object. destruct (_ <? _); [done|]. destruct o as [es|es|len]; [apply preflight_entries_pushes..|].
  destruct (enforce_preflight_counts _ _); [|done]. by intros [= <-] _ Hf.
Qed.

(** The walk: rejects exactly the documents over a limit, and the fuel lasts as
    every pop was paid for by an object. *)
Lemma preflight_loop_exact fuel w :
  good w → Forall (λ p, 0 ≤ p.2) (wk_stack w) →
  MAX_EVENT_DOCUMENT_OBJECTS < Z.of_nat fuel + (wk_objects w - Z.of_nat (length (wk_stack w))) →
  (preflight_loop fuel w = Some (Ok tt) ∧ within (whole w) ∧ stack_shape (wk_stack w) = true) ∨
  (preflight_loop fuel w = Some (Err StructuralLimit) ∧ ¬ (within (whole w) ∧ stack_shape (wk_stack w) = true)).
Proof.
  revert w. induction fuel as [|fuel IH]; intros w Hgood Hf Hfuel; destruct w as [[|[o depth] rest] n t s p].
  - left. split_and!; [done| |done]. unfold whole. change (stack_cost (wk_stack _)) with cost_zero. rewrite cost_add_zero. apply Hgood.
  - exfalso. destruct Hgood as [Hw _]. unfold within in Hw. cbn -[Z.of_nat] in *. lia.
  - left. split_and!; [done| |done]. unfold whole. change (stack_cost (wk_stack _)) with cost_zero. rewrite cost_add_zero. apply Hgood.
  - cbn [wk_stack preflight_loop wk_objects wk_total wk_scalar wk_proxy] in *. inversion Hf as [|? ? Hd Hf']; subst. cbn in Hd.
    set (w0 := mkWalk rest n t s p) in *.
    assert (good w0) as Hg0 by exact Hgood.
    pose proof (preflight_object_step o depth w0 Hg0 Hd) as Hstep.
    assert (cost_add (whole w0) (object_cost o) = whole (mkWalk ((o, depth) :: rest) n t s p)) as Hwhole.
    { unfold whole, w0. cbn [wk_stack]. change (stack_cost ((o, depth) :: rest)) with (cost_add (object_cost o) (stack_cost rest)).
      unfold cost_add. cbn. f_equal; lia. }
    unfold walk_step in Hstep. rewrite Hwhole in Hstep. cbn [stack_shape forallb fst snd]. fold (stack_shape rest).
    destruct (preflight_object o depth w0) as [w'|k] eqn:Hobj.
    + destruct Hstep as (Hg' & Hw' & Hs'). destruct (preflight_object_pushes _ _ _ _ Hobj Hd Hf') as [E F'].
      specialize (IH w' Hg' F'). cbn -[Z.of_nat] in E, Hfuel. rewrite Hw', Hs' in IH. apply IH. lia.
    + right. destruct Hstep as [-> Hbad]. split; [done|]. intros [Hin Hsh]. apply Hbad. split; [done|].
      by apply andb_true_iff in Hsh as [? _].
Qed.

(** The walk decides the costs and the shape of the tree. *)
Lemma preflight_decides doc :
  preflight_event_document doc =
  Some (if bool_decide (within (cost_add (mkCost 1 0 0 2) (object_cost (AmMap doc)))) && object_shape 0 (AmMap doc)
        then Ok tt else Err StructuralLimit).
Proof.
  unfold preflight_event_document.
  assert (whole (mkWalk [(AmMap doc, 0)] 1 0 0 2) = cost_add (mkCost 1 0 0 2) (object_cost (AmMap doc))) as Hwhole.
  { unfold whole. change (stack_cost (wk_stack _)) with (cost_add (object_cost (AmMap doc)) cost_zero). by rewrite cost_add_zero. }
  assert (stack_shape [(AmMap doc, 0)] = object_shape 0 (AmMap doc)) as Hshape by apply andb_true_r.
  destruct (preflight_loop_exact (S (Z.to_nat MAX_EVENT_DOCUMENT_OBJECTS)) (mkWalk [(AmMap doc, 0)] 1 0 0 2))
    as [(-> & Hw & Hs)|[-> Hbad]].
  - split; unfold counts; limits; cbn; lia.
  - by repeat constructor.
  - unfold MAX_EVENT_DOCUMENT_OBJECTS. cbn -[Z.of_nat Z.to_nat]. lia.
  - rewrite Hwhole in Hw. cbn [wk_stack] in Hs. rewrite Hshape in Hs. by rewrite bool_decide_true, Hs.
  - rewrite Hwhole in Hbad. cbn [wk_stack] in Hbad. rewrite Hshape in Hbad. f_equal.
    destruct (object_shape 0 (AmMap doc)); [|by rewrite andb_false_r]. rewrite bool_decide_false; [done|].
    intros Hin. by apply Hbad.
Qed.

(** ** Properties *)

(** [C21] The iterative preflight is the tree specification, and always answers: on
    every document the walk ends within its fuel, and it accepts exactly the documents
    in which no object is nested deeper than 64 levels, no container has more than 4096
    entries, and the whole tree stays within the limits on objects, entries, scalar
    bytes and JSON output estimate; every other document is a structural rejection. *)
Theorem preflight_exact doc :
  preflight_event_document doc =
  Some (if bool_decide (within (cost_add (mkCost 1 0 0 2) (object_cost (AmMap doc)))) && object_shape 0 (AmMap doc)
        then Ok tt else Err StructuralLimit).
Proof. apply preflight_decides. Qed.
