(* ===== verification/Crypto.v ===== *)
(** * Encryption at rest

    Model of [src/crypto.rs]: the cipher's key, the [ENC:v1:] text form, and the
    identity seed. AES-256-GCM, the random nonce, base64 and HKDF are parameters. *)

From S2P Require Import Prelude Envelope.

Definition PREFIX : string := "ENC:v1:".

Inductive CipherError :=
| BadKeyBase64 | BadKeyLength (n : Z) | EncryptionFailed | NotEncrypted | BadBase64 | BlobTooShort | DecryptionFailed | NotUtf8.

Class CipherOps := {
  base64_encode : bytes → string;
  base64_decode : string → option bytes;
  aead_encrypt : bytes → bytes → bytes → option bytes; (* key, nonce, plaintext *)
  aead_decrypt : bytes → bytes → bytes → option bytes; (* key, nonce, ciphertext *)
  hkdf_sha256 : bytes → bytes → bytes;                 (* ikm, info; 32 bytes of output *)
}.

(** Documented behaviour: base64 decodes what it encodes, and an authenticated
    ciphertext opens under its key and nonce. *)
Class CipherLaws `{CipherOps} := {
  base64_roundtrip : ∀ b, base64_decode (base64_encode b) = Some b;
  aead_roundtrip : ∀ key nonce p c, length nonce = 12%nat → aead_encrypt key nonce p = Some c → aead_decrypt key nonce c = Some p;
}.

(** [StoreCipher] is its key. *)
Record StoreCipher := mkCipher { cipher_key : bytes }.

Section crypto.
Context `{CipherOps}.

Definition from_base64_key (key_b64 : string) : result CipherError StoreCipher :=
  let? key_bytes := ok_or (base64_decode key_b64) BadKeyBase64 in
  if negb (Nat.eqb (length key_bytes) 32) then Err (BadKeyLength (Z.of_nat (length key_bytes)))
  else Ok (mkCipher key_bytes).

(** [nonce] is what [generate_nonce] drew. *)
Definition encrypt (c : StoreCipher) (nonce : bytes) (plaintext : string) : result CipherError string :=
  let? ciphertext := ok_or (aead_encrypt (cipher_key c) nonce (str_bytes plaintext)) EncryptionFailed in
  Ok (PREFIX +:+ base64_encode (nonce ++ ciphertext)).

Definition decrypt (c : StoreCipher) (stored : string) : result CipherError string :=
  let? encoded := ok_or (strip_prefix PREFIX stored) NotEncrypted in
  let? blob := ok_or (base64_decode encoded) BadBase64 in
  if Nat.ltb (length blob) 12 then Err BlobTooShort
  else
    let? plaintext := ok_or (aead_decrypt (cipher_key c) (take 12 blob) (drop 12 blob)) DecryptionFailed in
    ok_or (from_utf8 plaintext) NotUtf8.

Definition is_encrypted (value : string) : bool := starts_with value PREFIX.

(** [derive_iroh_node_key], release build *)
Definition derive_iroh_node_key (formation_secret : bytes) (pod_name : string) : bytes :=
  hkdf_sha256 formation_secret (str_bytes ("iroh:" +:+ pod_name)).

(** What [encrypt] writes is recognised and opens to the text it was given, for any
    12-byte nonce and any text. *)
Lemma decrypt_encrypt `{!CipherLaws} c nonce plaintext stored :
  length nonce = 12%nat → is_Some (chars (str_bytes plaintext)) → encrypt c nonce plaintext = Ok stored →
  is_encrypted stored = true ∧ decrypt c stored = Ok plaintext.
Proof.
  intros Hn Hutf Henc. unfold encrypt in Henc. destruct (aead_encrypt _ _ _) as [ct|] eqn:Hct; cbn in Henc; [|done].
  injection Henc as <-. split; [apply starts_with_spec; eauto|]. unfold decrypt.
  rewrite strip_prefix_app. cbn [ok_or]. rewrite base64_roundtrip. cbn [ok_or].
  rewrite length_app, Hn. cbn [Nat.ltb]. rewrite (proj2 (Nat.ltb_ge _ _)) by lia.
  rewrite <-Hn, take_app_length, drop_app_length, (aead_roundtrip _ _ _ _ Hn Hct). cbn [ok_or].
  unfold from_utf8. rewrite bool_decide_true by done. cbn. unfold str_bytes.
  by rewrite String.string_of_list_byte_of_string.
Qed.

End crypto.

(** A cipher with the laws: base64 as the identity on bytes, encryption as the
    identity with the key in front. *)
Definition toy_cipher : CipherOps := {|
  base64_encode := String.string_of_list_byte;
  base64_decode s := Some (str_bytes s);
  aead_encrypt key nonce p := Some (key ++ p);
  aead_decrypt key nonce c := if bool_decide (take (length key) c = key) then Some (drop (length key) c) else None;
  hkdf_sha256 ikm info := take 32 (ikm ++ info);
|}.

Lemma toy_cipher_laws : @CipherLaws toy_cipher.
Proof.
  constructor.
  - intros b. change (Some (str_bytes (String.string_of_list_byte b)) = Some b). by rewrite str_bytes_of_list.
  - intros key nonce p c _ [= <-]. cbn. by rewrite take_app_length, drop_app_length, bool_decide_true.
Qed.
