(* ===== verification/NodeDocs.v ===== *)
(** * Document operations of the node

    Model of the document half of [src/node.rs]: writes with write-ahead local
    exclusion, reads with decryption, the bounded bridge read, the forwarding of
    remote changes to the bridge and the offer of a reconciliation candidate.

    serde_json, Automerge and peat-mesh's store are parameters ([Docs],
    [DocStore]); the exclusion journal is reached through [ExclusionOps]. *)

From S2P Require Import Prelude Journal LedgerWorker Envelope NatsConfig Egress Preflight Crypto.
From Stdlib Require Import Strings.Ascii.

#[local] Open Scope Z_scope.

Definition MAX_BRIDGE_AUTOMERGE_BYTES : Z := 8 * 1048576.

Class Docs := {
  Json : Type;
  Doc : Type;
  json_parse : string → option Json;
  json_text : Json → option string;
  json_value_str : Json → option string; (* [get("value").and_then(as_str)] *)
  json_wrap : string → Json;             (* [json!({"value": s})] *)
  json_to_automerge : Json → option Doc → option Doc;
  automerge_to_json : Doc → Json;
  encoded_len : Doc → Z;                 (* [save_nocompress().len()] *)
  doc_root : Doc → list (string * AmValue);
}.

(** A failed call is [None], or [false] with whatever state the store is left in. *)
Class DocStore (St : Type) `{Docs} := {
  store_get : string → St → option (option Doc);
  store_put : string → Doc → St → bool * St;
  store_delete : string → St → bool * St;
  keys_with_prefix : string → St → option (list string);
  scan_prefix : string → St → option (list (string * Doc));
}.

(** The exclusion journal, as the node and the reconciler see it. *)
Class ExclusionOps (E : Type) := {
  excl_record : LedgerDigest → E → result LedgerError unit * E;
  excl_contains : LedgerDigest → E → result LedgerError bool * E;
  excl_healthy : E → bool;
}.

Class ExclusionLaws (E : Type) `{ExclusionOps E} := {
  excl_inv : E → Prop;
  excluded : E → LedgerDigest → Prop;
  excl_record_inv d e : excl_inv e → excl_inv (excl_record d e).2;
  excl_contains_inv d e : excl_inv e → excl_inv (excl_contains d e).2;
  excl_record_mono d e x : excl_inv e → excluded e x → excluded (excl_record d e).2 x;
  excl_record_ok d e : excl_inv e → (excl_record d e).1 = Ok tt → excluded (excl_record d e).2 d;
  excl_contains_same d e x : excl_inv e → excluded (excl_contains d e).2 x ↔ excluded e x;
  excl_contains_answer d e b : excl_inv e → (excl_contains d e).1 = Ok b → (b = true ↔ excluded e d);
}.

Inductive DocumentWriteMode := Upsert | CreateOnly.

Inductive DocumentWriteError :=
| DwAlreadyExists | DwInvalidInput | DwEncryption | DwConversion | DwStoreRead | DwStoreWrite | DwLedger.

Inductive CreateBridgeDocumentError :=
| CbAlreadyExists | CbInvalidInput | CbEncryption | CbConversion | CbStoreRead | CbStoreWrite | CbLedger.

#[global] Instance CreateBridgeDocumentError_eq_dec : EqDecision CreateBridgeDocumentError.
Proof. solve_decision. Defined.

Definition classification (e : DocumentWriteError) : CreateBridgeDocumentError :=
  match e with
  | DwAlreadyExists => CbAlreadyExists
  | DwInvalidInput => CbInvalidInput
  | DwEncryption => CbEncryption
  | DwConversion => CbConversion
  | DwStoreRead => CbStoreRead
  | DwStoreWrite => CbStoreWrite
  | DwLedger => CbLedger
  end.

Inductive CandidateOutcome := Missing | CandidateExcluded | Offered.
Inductive CandidateError := CeRead | CeExclusion.

(** [InstalledBridgeLedger], the delivery half apart. *)
Record InstalledLedger (E : Type) := mkInstalled { il_collections : gset string; il_exclusion : option E }.
Arguments mkInstalled {E}. Arguments il_collections {E}. Arguments il_exclusion {E}.

(** [nd_deletes] is what [delete_document] sent on the change channel. *)
Record Node (St E : Type) := mkNode {
  nd_store : St;
  nd_ledger : option (InstalledLedger E);
  nd_cipher : option StoreCipher;
  nd_deletes : list (string * string);
}.
Arguments mkNode {St E}. Arguments nd_store {St E}. Arguments nd_ledger {St E}.
Arguments nd_cipher {St E}. Arguments nd_deletes {St E}.

(** [format!("{collection}:{doc_id}")] *)
Definition doc_key (collection doc_id : string) : string := collection +:+ ":" +:+ doc_id.

Section node.
Context {sha : Sha256} `{CipherOps} `{D : Docs} {St : Type} `{!DocStore St} {E : Type} `{ExclusionOps E}.
Implicit Types n : Node St E.

Definition with_store (st : St) n : Node St E := mkNode st (nd_ledger n) (nd_cipher n) (nd_deletes n).
Definition with_exclusion (e : E) n : Node St E :=
  mkNode (nd_store n) ((λ l, mkInstalled (il_collections l) (Some e)) <$> nd_ledger n) (nd_cipher n) (nd_deletes n).

Definition record_local_exclusion (collection doc_id : string) n : result LedgerError unit * Node St E :=
  match nd_ledger n with
  | Some l =>
      if bool_decide (collection ∈ il_collections l) then
        match il_exclusion l with
        | Some exclusion =>
            let '(r, e) := excl_record (document_digest collection doc_id) exclusion in (r, with_exclusion e n)
        | None => (Err Unavailable, n)
        end
      else (Ok tt, n)
  | None => (Ok tt, n)
  end.

(** The document a write stores; [nonce] is what the cipher draws. *)
Definition build_document (nonce : bytes) (json_data : string) (parsed : Json) (base : option Doc) n
  : result DocumentWriteError Doc :=
  match nd_cipher n with
  | Some cipher =>
      let? ciphertext := map_err (λ _, DwEncryption) (encrypt cipher nonce json_data) in
      ok_or (json_to_automerge (json_wrap ciphertext) base) DwConversion
  | None => ok_or (json_to_automerge parsed base) DwConversion
  end.

Definition write_document (nonce : bytes) (collection doc_id json_data : string) (mode : DocumentWriteMode) n
  : result DocumentWriteError unit * Node St E :=
  match json_parse json_data with
  | None => (Err DwInvalidInput, n)
  | Some parsed =>
      let key := doc_key collection doc_id in
      match record_local_exclusion collection doc_id n with
      | (Err _, n) => (Err DwLedger, n)
      | (Ok _, n) =>
          match store_get key (nd_store n) with
          | None => (Err DwStoreRead, n)
          | Some existing =>
              match mode, existing with
              | CreateOnly, Some _ => (Err DwAlreadyExists, n)
              | _, _ =>
                  let base := match mode with Upsert => existing | CreateOnly => None end in
                  match build_document nonce json_data parsed base n with
                  | Err e => (Err e, n)
                  | Ok doc =>
                      let '(ok, st) := store_put key doc (nd_store n) in
                      ((if ok then Ok tt else Err DwStoreWrite), with_store st n)
                  end
              end
          end
      end
  end.

Definition put_document (nonce : bytes) (collection doc_id json_data : string) n := write_document nonce collection doc_id json_data Upsert n.

Definition create_bridge_document (nonce : bytes) (collection doc_id envelope_json : string) n
  : result CreateBridgeDocumentError unit * Node St E :=
  let '(r, n') := write_document nonce collection doc_id envelope_json CreateOnly n in (map_err classification r, n').

(** [false] is an error, of the ledger or the store. *)
Definition delete_document (collection doc_id : string) n : bool * Node St E :=
  match record_local_exclusion collection doc_id n with
  | (Err _, n) => (false, n)
  | (Ok _, n) =>
      let '(ok, st) := store_delete (doc_key collection doc_id) (nd_store n) in
      let n := with_store st n in
      if ok then (true, mkNode (nd_store n) (nd_ledger n) (nd_cipher n) (nd_deletes n ++ [(collection, doc_id)]))
      else (false, n)
  end.

(** [json.get("value").and_then(as_str).filter(is_encrypted)] *)
Definition encrypted_value (j : Json) : option string :=
  match json_value_str j with
  | Some s => if is_encrypted s then Some s else None
  | None => None
  end.

Definition maybe_decrypt (v : string) n : result unit string :=
  if is_encrypted v then
    match nd_cipher n with
    | Some c => map_err (λ _, tt) (decrypt c v)
    | None => Ok v
    end
  else Ok v.

Definition get_document (collection doc_id : string) n : result unit (option string) :=
  match store_get (doc_key collection doc_id) (nd_store n) with
  | None => Err tt
  | Some None => Ok None
  | Some (Some doc) =>
      let json := automerge_to_json doc in
      match encrypted_value json with
      | Some s => map_ok Some (maybe_decrypt s n)
      | None => map_ok Some (ok_or (json_text json) tt)
      end
  end.

(** The size and structure gates, then the text of a stored document; the reason
    when it is not forwarded. *)
Definition hydrate (doc : Doc) n : result NodeChangeRejectKind string :=
  if MAX_BRIDGE_AUTOMERGE_BYTES <? encoded_len doc then Err EncodedTooLarge
  else
    match preflight_event_document (doc_root doc) with
    | Some (Ok _) =>
        let json := automerge_to_json doc in
        let? text :=
          (match encrypted_value json with
           | Some encrypted =>
               match nd_cipher n with
               | None => Err Decrypt
               | Some cipher => map_err (λ _, Decrypt) (decrypt cipher encrypted)
               end
           | None => ok_or (json_text json) NcConversion
           end) in
        if MAX_BRIDGE_EVENT_JSON_BYTES <? str_len text then Err EventTooLarge else Ok text
    | Some (Err k) => Err k
    | None => Err StructuralLimit (* not reached: the fuel is enough *)
    end.

(** [get_bridge_document]: gates that fail are [Ok(None)], the rest are errors;
    a missing cipher is [Ok(None)] too. *)
Definition get_bridge_document (collection doc_id : string) n : result unit (option string) :=
  if (MAX_BRIDGE_IDENTITY_BYTES <? str_len collection) || (MAX_BRIDGE_IDENTITY_BYTES <? str_len doc_id) then Ok None
  else
    match store_get (doc_key collection doc_id) (nd_store n) with
    | None => Err tt
    | Some None => Ok None
    | Some (Some doc) =>
        match hydrate doc n with
        | Ok text => Ok (Some text)
        | Err EncodedTooLarge | Err StructuralLimit | Err EventTooLarge => Ok None
        | Err Decrypt => match nd_cipher n with None => Ok None | Some _ => Err tt end
        | Err _ => Err tt
        end
    end.

(** [deliver_bridge_reconciliation_candidate]; the event it hands to
    [coordinator.deliver], if any. *)
Definition reconciliation_candidate (collection doc_id : string) n (exclusion : E)
  : result CandidateError (CandidateOutcome * option BridgeChangeEvent) * E :=
  match get_bridge_document collection doc_id n with
  | Err _ => (Err CeRead, exclusion)
  | Ok None => (Ok (Missing, None), exclusion)
  | Ok (Some json_data) =>
      match excl_contains (document_digest collection doc_id) exclusion with
      | (Err _, e) => (Err CeExclusion, e)
      | (Ok true, e) => (Ok (CandidateExcluded, None), e)
      | (Ok false, e) => (Ok (Offered, Some (mkEvent collection doc_id "" json_data)), e)
      end
  end.

(** One [ChangeOrigin::Remote] notification in [forward_bridge_changes]: the event
    sent, nothing, or a counted rejection. *)
Definition forward_remote (key remote_peer_id : string) n : result NodeChangeRejectKind (option BridgeChangeEvent) :=
  match split_once ":"%char key with
  | None => Err InvalidKey
  | Some (collection, doc_id) =>
      if (MAX_BRIDGE_IDENTITY_BYTES <? str_len collection) || (MAX_BRIDGE_IDENTITY_BYTES <? str_len doc_id)
         || (MAX_BRIDGE_IDENTITY_BYTES <? str_len remote_peer_id)
      then Err IdentityTooLarge
      else
        match store_get key (nd_store n) with
        | Some (Some doc) => map_ok (λ text, Some (mkEvent collection doc_id remote_peer_id text)) (hydrate doc n)
        | Some None => Ok None
        | None => Err NcStoreRead
        end
  end.

Definition list_documents (collection : string) n : result unit (list string) :=
  let prefix := collection +:+ ":" in
  let? entries := ok_or (scan_prefix prefix (nd_store n)) tt in
  Ok (omap (λ p, strip_prefix prefix p.1) entries).

End node.
