(* ===== verification/ExclusionLedger.v ===== *)
(** * The exclusion journal implements the node's contract

    [ExclusionOps] for the [LocalExclusionLedger] facade over its worker thread,
    with the laws the node's and the reconciler's theorems rely on. *)

From S2P Require Import Prelude Journal JournalFacts LedgerWorker LedgerWorkerFacts Egress EgressLedger Preflight Crypto NodeDocs.

Section instance.
Context {sha : Sha256}.

#[export] Instance exclusion_ops : ExclusionOps (Worker * Fs) := {
  excl_record d e := let '(r, w, fs) := record_local_excluded d e.1 e.2 in (r, (w, fs));
  excl_contains d e := let '(r, w, fs) := contains d e.1 e.2 in (r, (w, fs));
  excl_healthy e := w_healthy e.1;
}.

Definition exclusion_holds (e : Worker * Fs) (d : LedgerDigest) : Prop :=
  j_index (w_journal e.1) !! d = Some LocalExcluded.

Lemma exclusion_record d w fs :
  w_queue w = [] →
  w_queue (worker_record d LocalExcluded w fs).1.2 = [] ∧
  (is_ok (worker_record d LocalExcluded w fs).1.1 = true →
     j_index (w_journal (worker_record d LocalExcluded w fs).1.2) !! d = Some LocalExcluded) ∧
  ∀ x, j_index (w_journal w) !! x = Some LocalExcluded →
    j_index (w_journal (worker_record d LocalExcluded w fs).1.2) !! x = Some LocalExcluded.
Proof.
  intros Hq. destruct (worker_record_effect d LocalExcluded w fs Hq) as [Hq' [(Hr & _ & Hi)|[Hr Hi]]]; rewrite Hi.
  - split_and!; [done| |].
    + intros _. apply lookup_insert_eq.
    + intros x Hx. destruct (decide (d = x)) as [->|]; [apply lookup_insert_eq|by rewrite lookup_insert_ne].
  - split_and!; [done| |done]. intros Hok. pose proof (worker_record_unchanged d LocalExcluded w fs Hq) as Hu.
    destruct (worker_record d LocalExcluded w fs) as [[[[]|] w'] fs']; cbn in *; try done.
    specialize (Hu eq_refl). by destruct (j_index (w_journal w) !! d) as [[]|].
Qed.

#[export] Program Instance exclusion_laws : ExclusionLaws (Worker * Fs) := {
  excl_inv e := w_queue e.1 = [];
  excluded := exclusion_holds;
}.
Next Obligation.
  intros d [w fs] Hq. cbn in *. unfold record_local_excluded. destruct (exclusion_record d w fs Hq) as (Hq' & _).
  by destruct (worker_record _ _ _ _) as [[r w'] fs'].
Qed.
Next Obligation.
  intros d [w fs] Hq. cbn in *. unfold contains. destruct (worker_lookup_drained d w fs Hq) as (Hq' & _).
  by destruct (worker_lookup _ _ _) as [[r w'] fs'].
Qed.
Next Obligation.
  intros d [w fs] x Hq Hx. cbn in *. unfold record_local_excluded. destruct (exclusion_record d w fs Hq) as (_ & _ & Hm).
  specialize (Hm x Hx). by destruct (worker_record _ _ _ _) as [[r w'] fs'].
Qed.
Next Obligation.
  intros d [w fs] Hq Hr. cbn in *. unfold record_local_excluded in *. destruct (exclusion_record d w fs Hq) as (_ & Hok & _).
  destruct (worker_record _ _ _ _) as [[r w'] fs']. cbn in *. apply Hok. by destruct r.
Qed.
Next Obligation.
  intros d [w fs] x Hq. cbn in *. unfold contains. destruct (worker_lookup_drained d w fs Hq) as (_ & Hj & _).
  destruct (worker_lookup _ _ _) as [[r w'] fs']. unfold exclusion_holds. cbn in *. by rewrite Hj.
Qed.
Next Obligation.
  intros d [w fs] b Hq Hr. cbn in *. unfold contains in *. destruct (worker_lookup_drained d w fs Hq) as (_ & _ & Hs).
  destruct (worker_lookup _ _ _) as [[r w'] fs']. destruct r as [s|]; cbn in Hr; [|done]. injection Hr as <-.
  rewrite (Hs s eq_refl). unfold exclusion_holds. cbn. by destruct (j_index (w_journal w) !! d) as [[]|].
Qed.

End instance.
