(* ===== verification/NodeDocsFacts.v ===== *)
(** * Correctness of the node's document operations

    Local writes are excluded from the bridge before they are visible, creation
    never overwrites, the live and the reconciliation read agree, encrypted
    documents read back as written; and the key format lets a write into an
    unmapped collection land under a mapped one. *)

From S2P Require Import Prelude Journal JournalFacts LedgerWorker LedgerWorkerFacts Envelope NatsConfig Egress EgressLedger.
From S2P Require Import Preflight Crypto NodeDocs ExclusionLedger.
From Stdlib Require Import Strings.Ascii.

#[local] Open Scope Z_scope.

(** What the code relies on of peat-mesh's store and conversion. *)
Class DocStoreLaws (St : Type) `{DocStore St} := {
  put_get k d st st' : store_put k d st = (true, st') → store_get k st' = Some (Some d) ∨ store_get k st' = None;
}.

Class DocsLaws `{Docs} := {
  wrapped_value s base d : json_to_automerge (json_wrap s) base = Some d → json_value_str (automerge_to_json d) = Some s;
}.

Section facts.
Context {sha : Sha256} `{CipherOps} `{D : Docs} {St : Type} `{!DocStore St} {E : Type} `{!ExclusionOps E, !ExclusionLaws E}.
Implicit Types n : Node St E.

Definition exclusion_of n : option E := nd_ledger n ≫= il_exclusion.

Definition node_inv n : Prop := ∀ e, exclusion_of n = Some e → excl_inv e.

Definition node_excluded n (d : LedgerDigest) : Prop := ∃ e, exclusion_of n = Some e ∧ excluded e d.

Definition mapped n (collection : string) : Prop := ∃ l, nd_ledger n = Some l ∧ collection ∈ il_collections l.

(** What every operation keeps: the mapped collections, the cipher, the
    exclusions so far. *)
Definition node_le n n' : Prop :=
  (node_inv n → node_inv n') ∧ nd_cipher n' = nd_cipher n ∧ (∀ c, mapped n c ↔ mapped n' c) ∧
  (node_inv n → ∀ d, node_excluded n d → node_excluded n' d).

#[local] Instance node_le_refl : Reflexive node_le.
Proof. intros n. by repeat split. Qed.

#[local] Instance node_le_trans : Transitive node_le.
Proof.
  intros n1 n2 n3 (I1 & C1 & M1 & X1) (I2 & C2 & M2 & X2). split_and!; [auto|congruence| |auto].
  intros c. by rewrite M1, M2.
Qed.

Lemma node_le_store st n : node_le n (with_store st n).
Proof. by repeat split. Qed.

Lemma record_local_exclusion_le collection doc_id n r n' :
  record_local_exclusion collection doc_id n = (r, n') →
  node_le n n' ∧ nd_store n' = nd_store n ∧ nd_deletes n' = nd_deletes n ∧
  (r = Ok tt → mapped n collection → node_inv n → node_excluded n' (document_digest collection doc_id)).
Proof.
  unfold record_local_exclusion. intros Hrun. destruct (nd_ledger n) as [l|] eqn:Hl.
  2: { simplify_eq. split_and!; try done. intros _ (? & ? & _). congruence. }
  case_bool_decide as Hc.
  2: { simplify_eq. split_and!; try done. intros _ (l' & ? & ?). congruence. }
  destruct (il_exclusion l) as [e|] eqn:He; [|simplify_eq; by split_and!].
  assert (exclusion_of n = Some e) as Hex by (unfold exclusion_of; by rewrite Hl).
  destruct (excl_record _ e) as [r1 e1] eqn:Hr. simplify_eq.
  assert (exclusion_of (with_exclusion e1 n) = Some e1) as Hex' by (unfold exclusion_of; cbn; by rewrite Hl).
  split_and!; [|done|done|].
  - split_and!; [|done| |].
    + intros Hi e' He'. rewrite Hex' in He'. simplify_eq. pose proof (excl_record_inv (document_digest collection doc_id) e (Hi e Hex)) as Hinv.
      by rewrite Hr in Hinv.
    + intros c. unfold mapped. cbn. rewrite Hl. split; intros (l' & [= <-] & Hin); eexists; (split; [done|]); done.
    + intros Hi d (e' & He' & Hd). rewrite Hex in He'. simplify_eq. exists e1. split; [done|].
      pose proof (excl_record_mono (document_digest collection doc_id) e' d (Hi e' Hex) Hd) as Hm. by rewrite Hr in Hm.
  - intros -> _ Hi. exists e1. split; [done|]. pose proof (excl_record_ok (document_digest collection doc_id) e (Hi e Hex)) as Hm.
    rewrite Hr in Hm. auto.
Qed.

(** A write: excluded before the store changes. *)
Lemma write_document_spec nonce collection doc_id json mode n r n' :
  write_document nonce collection doc_id json mode n = (r, n') →
  node_le n n' ∧
  (mapped n collection → node_inv n →
     (r = Ok tt → node_excluded n' (document_digest collection doc_id)) ∧
     (nd_store n' = nd_store n ∨ node_excluded n' (document_digest collection doc_id))).
Proof.
  unfold write_document. intros Hrun. destruct (json_parse json) as [parsed|]; [|simplify_eq; split; [done|intros; split; [done|by left]]].
  destruct (record_local_exclusion collection doc_id n) as [rl n1] eqn:Hl.
  apply record_local_exclusion_le in Hl as (Hle & Hst & _ & Hex).
  destruct rl as [[]|]; [|simplify_eq; split; [done|intros; split; [done|by left]]].
  assert (∀ st, node_le n (with_store st n1)) as Hle' by (intros; etrans; [done|apply node_le_store]).
  assert (∀ st, mapped n collection → node_inv n → node_excluded (with_store st n1) (document_digest collection doc_id)) as Hex'.
  { intros st Hm Hi. exact (Hex eq_refl Hm Hi). }
  assert (∀ r' : result DocumentWriteError unit, (r', n1) = (r, n') → node_le n n' ∧ (mapped n collection → node_inv n →
     (r = Ok tt → node_excluded n' (document_digest collection doc_id)) ∧
     (nd_store n' = nd_store n ∨ node_excluded n' (document_digest collection doc_id)))) as Hsame.
  { intros r' [= <- <-]. split; [done|]. auto. }
  destruct (store_get _ _) as [existing|]; [|by eapply Hsame].
  destruct mode, existing; try by eapply Hsame.
  all: destruct (build_document _ _ _ _ _) as [doc|]; [|by eapply Hsame].
  all: destruct (store_put _ _ _) as [ok st]; simplify_eq; split; [apply Hle'|]; intros; split; auto.
Qed.

Lemma delete_document_spec collection doc_id n ok n' :
  delete_document collection doc_id n = (ok, n') →
  node_le n n' ∧
  (mapped n collection → node_inv n →
     (ok = true → node_excluded n' (document_digest collection doc_id)) ∧
     (nd_store n' = nd_store n ∨ node_excluded n' (document_digest collection doc_id))).
Proof.
  unfold delete_document. intros Hrun. destruct (record_local_exclusion collection doc_id n) as [rl n1] eqn:Hl.
  apply record_local_exclusion_le in Hl as (Hle & Hst & _ & Hex).
  destruct rl as [[]|]; [|simplify_eq; split; [done|intros; split; [done|by left]]].
  destruct (store_delete _ _) as [b st].
  assert (node_le n n' ∧ exclusion_of n' = exclusion_of n1) as [Hle' Heq].
  { destruct b; simplify_eq; (split; [|done]); (etrans; [exact Hle|]); by repeat split. }
  split; [done|]. intros Hm Hi. specialize (Hex eq_refl Hm Hi). unfold node_excluded in *. rewrite Heq. auto.
Qed.

(** ** Local operations *)

Inductive LocalOp :=
| LPut (nonce : bytes) (collection doc_id json : string)
| LCreate (nonce : bytes) (collection doc_id json : string)
| LDelete (collection doc_id : string).

Definition op_target (op : LocalOp) : string * string :=
  match op with LPut _ c i _ | LCreate _ c i _ | LDelete c i => (c, i) end.

Definition run_op (op : LocalOp) n : bool * Node St E :=
  match op with
  | LPut nonce c i j => let '(r, n') := put_document nonce c i j n in (is_ok r, n')
  | LCreate nonce c i j => let '(r, n') := create_bridge_document nonce c i j n in (is_ok r, n')
  | LDelete c i => delete_document c i n
  end.

Definition run_ops (ops : list LocalOp) n : Node St E := foldl (λ n op, (run_op op n).2) n ops.

Lemma run_op_spec op n ok n' :
  run_op op n = (ok, n') →
  node_le n n' ∧
  (mapped n (op_target op).1 → node_inv n →
     (ok = true → node_excluded n' (document_digest (op_target op).1 (op_target op).2)) ∧
     (nd_store n' = nd_store n ∨ node_excluded n' (document_digest (op_target op).1 (op_target op).2))).
Proof.
  intros Hrun. destruct op as [nonce c i j|nonce c i j|c i]; cbn [run_op op_target fst snd] in *.
  - unfold put_document in Hrun. destruct (write_document _ _ _ _ _ _) as [r n1] eqn:Hw. injection Hrun as <- <-.
    apply write_document_spec in Hw as [Hle Hex]. split; [done|]. intros Hm Hi. destruct (Hex Hm Hi) as [H1 H2].
    split; [|done]. intros Hok. apply H1. by destruct r as [[]|].
  - unfold create_bridge_document in Hrun. destruct (write_document _ _ _ _ _ _) as [r n1] eqn:Hw. injection Hrun as <- <-.
    apply write_document_spec in Hw as [Hle Hex]. split; [done|]. intros Hm Hi. destruct (Hex Hm Hi) as [H1 H2].
    split; [|done]. intros Hok. apply H1. by destruct r as [[]|].
  - by apply delete_document_spec in Hrun.
Qed.

Lemma run_ops_le ops n : node_le n (run_ops ops n).
Proof.
  revert n. induction ops as [|op ops IH]; intros n; [done|]. cbn. destruct (run_op op n) as [ok n1] eqn:Hop.
  apply run_op_spec in Hop as [Hle _]. etrans; [exact Hle|apply IH].
Qed.

Lemma candidate_excluded collection doc_id n e ev :
  excl_inv e → excluded e (document_digest collection doc_id) →
  (reconciliation_candidate collection doc_id n e).1 ≠ Ok (Offered, ev).
Proof.
  intros Hi Hx. unfold reconciliation_candidate. destruct (get_bridge_document _ _ _) as [[text|]|]; try done.
  pose proof (excl_contains_answer (document_digest collection doc_id) e) as Ha.
  destruct (excl_contains _ e) as [[[]|] e']; try done. cbn in Ha. specialize (Ha false Hi eq_refl). naive_solver.
Qed.

(** ** Reads *)

Lemma doc_key_split collection doc_id :
  str_contains collection ":"%char = false → split_once ":"%char (doc_key collection doc_id) = Some (collection, doc_id).
Proof. intros Hc. unfold doc_key. by apply (split_once_app ":"%char collection doc_id). Qed.

End facts.

Lemma string_app_assoc (a b c : string) : (a +:+ b) +:+ c = a +:+ b +:+ c.
Proof. induction a as [|x a IH]; [done|]. rewrite !string_app_cons. by rewrite IH. Qed.

Section properties.
Context {sha : Sha256} `{CipherOps} `{D : Docs} {St : Type} `{!DocStore St} {E : Type} `{!ExclusionOps E, !ExclusionLaws E}.
Implicit Types n : Node St E.

(** [C11] Write-ahead exclusion: on a mapped collection no local put, create or
    delete changes the document store without the document's digest being in the
    exclusion journal, each one that reports success has recorded it, and the record
    survives every later local operation; so however local operations continue, the
    reconciler's candidate check never offers the document to the bridge. *)
Theorem local_documents_never_offered n op ok n1 ops c i :
  node_inv n → op_target op = (c, i) → mapped n c → run_op op n = (ok, n1) →
  (nd_store n1 = nd_store n ∨ node_excluded n1 (document_digest c i)) ∧
  (ok = true → ∀ e, exclusion_of (run_ops ops n1) = Some e →
     ∀ ev, (reconciliation_candidate c i (run_ops ops n1) e).1 ≠ Ok (Offered, ev)).
Proof.
  intros Hi Ht Hm Hop. apply run_op_spec in Hop as [Hle Hex]. rewrite Ht in Hex. destruct (Hex Hm Hi) as [Hok Hst].
  split; [done|]. intros Htrue e He ev. destruct (run_ops_le ops n1) as (Hinv & _ & _ & Hmono).
  destruct Hle as (Hinv1 & _). specialize (Hmono (Hinv1 Hi) _ (Hok Htrue)). destruct Hmono as (e' & He' & Hx).
  rewrite He in He'. simplify_eq. apply candidate_excluded; [|done]. apply Hinv; auto.
Qed.

(** Creation never overwrites: [create_bridge_document] reports success only
    when it read the key as absent and its put succeeded, and whenever the key holds a
    document it fails with the store unchanged, under every mode of failure of the
    journal, the cipher and the store. *)
Theorem create_never_overwrites nonce c i json n r n' :
  create_bridge_document nonce c i json n = (r, n') →
  (r = Ok tt → store_get (doc_key c i) (nd_store n) = Some None ∧
     ∃ doc, store_put (doc_key c i) doc (nd_store n) = (true, nd_store n')) ∧
  (∀ doc, store_get (doc_key c i) (nd_store n) = Some (Some doc) → is_ok r = false ∧ nd_store n' = nd_store n).
Proof.
  unfold create_bridge_document, write_document. intros Hrun.
  destruct (json_parse json) as [parsed|]; [|simplify_eq; by split].
  destruct (record_local_exclusion c i n) as [rl n1] eqn:Hl. apply record_local_exclusion_le in Hl as (_ & Hst & _).
  destruct rl as [[]|]; [|simplify_eq; by split]. rewrite Hst in Hrun.
  destruct (store_get _ _) as [[doc|]|] eqn:Hget; [simplify_eq; by split| |simplify_eq; by split].
  destruct (build_document _ _ _ _ _) as [doc|e] eqn:Hb; [|simplify_eq; by split].
  destruct (store_put _ _ _) as [b st] eqn:Hput. simplify_eq. split; [|done]. intros Hok. split; [done|]. exists doc.
  destruct b; [done|]. by cbn in Hok.
Qed.

(** The live path and the reconciliation path read alike: for a collection
    without ':' a remote change notification of a document is forwarded exactly when
    the bounded bridge read returns its text, with the same text and the document's
    own collection and id. *)
Theorem live_and_reconciled_agree c i peer n text :
  str_contains c ":"%char = false → str_len peer ≤ MAX_BRIDGE_IDENTITY_BYTES →
  (forward_remote (doc_key c i) peer n = Ok (Some (mkEvent c i peer text)) ↔ get_bridge_document c i n = Ok (Some text)) ∧
  (∀ ev, forward_remote (doc_key c i) peer n = Ok (Some ev) → ev_collection ev = c ∧ ev_doc_id ev = i).
Proof.
  intros Hc Hp. unfold forward_remote, get_bridge_document. rewrite doc_key_split by done.
  rewrite (proj2 (Z.ltb_ge MAX_BRIDGE_IDENTITY_BYTES (str_len peer))), orb_false_r by done.
  destruct (_ || _); [by split|]. destruct (store_get _ _) as [[doc|]|]; [|by split..].
  destruct (hydrate doc n) as [t|k]; cbn.
  - split; [split; by intros; simplify_eq|]. intros ev ?. by simplify_eq.
  - split; [|done]. split; [done|]. destruct k; try done. by destruct (nd_cipher n).
Qed.

(** What a successful put stored. *)
Lemma put_document_Ok nonce c i json n n' :
  put_document nonce c i json n = (Ok tt, n') →
  ∃ parsed base doc st, json_parse json = Some parsed ∧ nd_cipher n' = nd_cipher n ∧
    build_document nonce json parsed base n' = Ok doc ∧ store_put (doc_key c i) doc st = (true, nd_store n').
Proof.
  unfold put_document, write_document. intros Hrun. destruct (json_parse json) as [parsed|]; [|done].
  destruct (record_local_exclusion c i n) as [rl n1] eqn:Hl. apply record_local_exclusion_le in Hl as ((_ & Hcip & _) & _).
  destruct rl as [[]|]; [|done]. destruct (store_get _ (nd_store n1)) as [existing|]; [|done].
  destruct (build_document nonce json parsed existing n1) as [doc|e] eqn:Hb; [|done].
  destruct (store_put _ doc _) as [b st] eqn:Hput. destruct b; [|done]. injection Hrun as <-.
  by exists parsed, existing, doc, (nd_store n1).
Qed.

Lemma put_get_encrypted `{!CipherLaws, !DocsLaws, !DocStoreLaws St} cipher nonce c i json n n' :
  nd_cipher n = Some cipher → length nonce = 12%nat → is_Some (chars (str_bytes json)) →
  put_document nonce c i json n = (Ok tt, n') →
  get_document c i n' = Ok (Some json) ∨ store_get (doc_key c i) (nd_store n') = None.
Proof.
  intros Hc Hn Hu (parsed & base & doc & st & _ & Hcip & Hb & Hput)%put_document_Ok.
  unfold build_document in Hb. rewrite Hcip, Hc in Hb. destruct (encrypt cipher nonce json) as [stored|] eqn:Henc; cbn in Hb; [|done].
  destruct (json_to_automerge _ _) as [d|] eqn:Hconv; cbn in Hb; [|done]. injection Hb as ->.
  destruct (decrypt_encrypt cipher nonce json stored Hn Hu Henc) as [Henc' Hdec].
  destruct (put_get _ _ _ _ Hput) as [Hget|Hget]; [left|by right].
  unfold get_document, encrypted_value. rewrite Hget, (wrapped_value _ _ _ Hconv), Henc'. unfold maybe_decrypt.
  by rewrite Henc', Hcip, Hc, Hdec.
Qed.

(** Encrypted documents read back as written: after a successful put under a
    configured cipher, reading the document returns exactly the text that was put, or
    the store's read fails. *)
Theorem encrypted_put_get `{!CipherLaws, !DocsLaws, !DocStoreLaws St} cipher nonce c i json n n' :
  nd_cipher n = Some cipher → length nonce = 12%nat → is_Some (chars (str_bytes json)) →
  put_document nonce c i json n = (Ok tt, n') →
  get_document c i n' = Ok (Some json) ∨ store_get (doc_key c i) (nd_store n') = None.
Proof. apply put_get_encrypted. Qed.

(** The key format lets a local write bypass the exclusion: writing document
    [i] of the unmapped collection [c:s] stores under the key of document [s:i] of the
    mapped collection [c] and records nothing, so the reconciler reads it there and
    offers it to the bridge as if it were remote. *)
Theorem alias_write_bypasses_exclusion nonce c s i json n n' e text :
  ¬ mapped n (c +:+ ":" +:+ s) → exclusion_of n = Some e → excl_inv e →
  ¬ excluded e (document_digest c (s +:+ ":" +:+ i)) →
  is_ok (excl_contains (document_digest c (s +:+ ":" +:+ i)) e).1 = true →
  put_document nonce (c +:+ ":" +:+ s) i json n = (Ok tt, n') →
  get_bridge_document c (s +:+ ":" +:+ i) n' = Ok (Some text) →
  doc_key (c +:+ ":" +:+ s) i = doc_key c (s +:+ ":" +:+ i) ∧ exclusion_of n' = Some e ∧
  (reconciliation_candidate c (s +:+ ":" +:+ i) n' e).1 = Ok (Offered, Some (mkEvent c (s +:+ ":" +:+ i) "" text)).
Proof.
  intros Hm He Hi Hx Hok Hput Hget. split_and!.
  - unfold doc_key. by rewrite !string_app_assoc.
  - unfold put_document, write_document in Hput. destruct (json_parse json) as [parsed|]; [|done].
    assert (record_local_exclusion (c +:+ ":" +:+ s) i n = (Ok tt, n)) as Hrec.
    { unfold record_local_exclusion. destruct (nd_ledger n) as [l|] eqn:Hl; [|done].
      rewrite bool_decide_false; [done|]. intros Hin. apply Hm. by exists l. }
    rewrite Hrec in Hput. destruct (store_get _ _) as [existing|]; [|done].
    destruct (build_document _ _ _ _ _); [|done]. destruct (store_put _ _ _) as [b st]. destruct b; [|done]. by injection Hput as <-.
  - unfold reconciliation_candidate. rewrite Hget. pose proof (excl_contains_answer (document_digest c (s +:+ ":" +:+ i)) e) as Ha.
    destruct (excl_contains _ e) as [[[]|] e']; cbn in *; [|done|done]. exfalso. apply Hx. by apply (Ha true).
Qed.

End properties.

(** ** Witnesses

    Documents that are their own text, in a map; the exclusion journal is the
    real one on a fresh directory. *)

Definition toy_docs : Docs := {|
  Json := string;
  Doc := string;
  json_parse s := if is_empty_str s then None else Some s;
  json_text j := Some j;
  json_value_str j := strip_prefix "W" j;
  json_wrap s := "W" +:+ s;
  json_to_automerge j base := Some j;
  automerge_to_json d := d;
  encoded_len d := str_len d;
  doc_root d := [];
|}.

Definition toy_doc_store : @DocStore (gmap string string) toy_docs := {|
  store_get k st := Some (st !! k);
  store_put k d st := (true, <[k := d]> st);
  store_delete k st := (true, delete k st);
  keys_with_prefix p st := Some (List.filter (λ k, starts_with k p) (map_to_list st).*1);
  scan_prefix p st := Some (List.filter (λ x, starts_with x.1 p) (map_to_list st));
|}.

Lemma toy_doc_store_laws : @DocStoreLaws (gmap string string) toy_docs toy_doc_store.
Proof. constructor. intros k d st st' [= <-]. left. cbn. by rewrite lookup_insert_eq. Qed.

Lemma toy_docs_laws : @DocsLaws toy_docs.
Proof. constructor. intros s base d [= <-]. apply strip_prefix_app. Qed.

Definition toy_exclusion : Worker * Fs :=
  (mkWorker (mkJournal Exclusion 0 0 0 ∅) [] true false true [],
   mkFs {[ EXCLUSION_FILE := Regular 0 ]} {[ 0%nat := header Exclusion ]} 1 []).

Definition toy_node (cipher : option StoreCipher) : Node (gmap string string) (Worker * Fs) :=
  mkNode ∅ (Some (mkInstalled {["frames"%string]} (Some toy_exclusion))) cipher [].

Definition toy_put : LocalOp := LPut [] "frames" "one" "{}".

#[local] Existing Instances toy_sha toy_cipher toy_cipher_laws toy_docs toy_docs_laws toy_doc_store toy_doc_store_laws.

Lemma toy_node_inv c : node_inv (toy_node c).
Proof. intros e He. cbn in He. by injection He as <-. Qed.

Lemma toy_node_mapped c : mapped (toy_node c) "frames".
Proof. eexists. split; [reflexivity|]. set_solver. Qed.

Lemma local_documents_never_offered_witness :
  (run_op toy_put (toy_node None)).1 = true ∧
  ∀ e ev, exclusion_of (run_op toy_put (toy_node None)).2 = Some e →
    (reconciliation_candidate "frames" "one" (run_op toy_put (toy_node None)).2 e).1 ≠ Ok (Offered, ev).
Proof.
  split; [vm_compute; reflexivity|]. intros e ev He. destruct (run_op toy_put (toy_node None)) as [ok n1] eqn:Hop.
  apply (local_documents_never_offered (toy_node None) toy_put ok n1 [] "frames" "one"
    (toy_node_inv None) eq_refl (toy_node_mapped None) Hop); [|exact He].
  apply (f_equal fst) in Hop. cbn [fst] in Hop. rewrite <-Hop. vm_compute. reflexivity.
Defined.

(** A second create of the same document. *)
Definition toy_created : Node (gmap string string) (Worker * Fs) :=
  (create_bridge_document [] "frames" "one" "{}" (toy_node None)).2.

Lemma create_never_overwrites_witness :
  (create_bridge_document [] "frames" "one" "[]" toy_created).1 = Err CbAlreadyExists ∧
  nd_store (create_bridge_document [] "frames" "one" "[]" toy_created).2 = nd_store toy_created.
Proof.
  split; [vm_compute; reflexivity|].
  destruct (create_bridge_document [] "frames" "one" "[]" toy_created) as [r n'] eqn:Hc.
  destruct (create_never_overwrites [] "frames" "one" "[]" toy_created r n' Hc) as [_ Hkeep].
  apply (Hkeep "{}"%string). vm_compute. reflexivity.
Defined.

Lemma live_and_reconciled_agree_witness :
  forward_remote (doc_key "frames" "one") "peer" toy_created = Ok (Some (mkEvent "frames" "one" "peer" "{}")).
Proof.
  apply (live_and_reconciled_agree "frames" "one" "peer" toy_created "{}"); vm_compute; [reflexivity|discriminate|reflexivity].
Defined.

Definition toy_nonce : bytes := replicate 12 Byte.x00.

Lemma encrypted_put_get_witness :
  get_document "frames" "one" (put_document toy_nonce "frames" "one" "{}" (toy_node (Some (mkCipher [Byte.x01])))).2 = Ok (Some "{}"%string).
Proof.
  destruct (put_document toy_nonce "frames" "one" "{}" (toy_node (Some (mkCipher [Byte.x01])))) as [r n'] eqn:Hput.
  assert (r = Ok tt) as -> by (apply (f_equal fst) in Hput; cbn [fst] in Hput; rewrite <-Hput; vm_compute; reflexivity).
  destruct (encrypted_put_get (mkCipher [Byte.x01]) toy_nonce "frames" "one" "{}" (toy_node (Some (mkCipher [Byte.x01]))) n') as [Hget|Hget].
  - reflexivity.
  - reflexivity.
  - exists [[Byte.x7b]; [Byte.x7d]]. vm_compute. reflexivity.
  - exact Hput.
  - exact Hget.
  - discriminate Hget.
Defined.

Lemma alias_write_bypasses_exclusion_witness :
  (put_document [] "frames:a" "b" "{}" (toy_node None)).1 = Ok tt ∧
  (reconciliation_candidate "frames" "a:b" (put_document [] "frames:a" "b" "{}" (toy_node None)).2 toy_exclusion).1 =
    Ok (Offered, Some (mkEvent "frames" "a:b" "" "{}")).
Proof.
  split; [vm_compute; reflexivity|].
  destruct (put_document [] "frames:a" "b" "{}" (toy_node None)) as [r n'] eqn:Hput.
  assert (r = Ok tt) as -> by (apply (f_equal fst) in Hput; cbn [fst] in Hput; rewrite <-Hput; vm_compute; reflexivity).
  refine (proj2 (proj2 (alias_write_bypasses_exclusion [] "frames" "a" "b" "{}" (toy_node None) n' toy_exclusion "{}" _ _ _ _ _ Hput _))).
  - intros (l & [= <-] & Hin). cbn in Hin. apply elem_of_singleton in Hin. discriminate Hin.
  - reflexivity.
  - reflexivity.
  - vm_compute. discriminate.
  - vm_compute. reflexivity.
  - apply (f_equal snd) in Hput. cbn [snd] in Hput. rewrite <-Hput. vm_compute. reflexivity.
Defined.
