(* ===== verification/Ingress.v ===== *)
(** * Ingress: from the broker to documents

    Model of [src/nats_bridge/ingress.rs]: one serial processor validates each
    message, creates its document with bounded retries under one generated id,
    and limits the warnings on invalid input per configured subject. The writer
    is the interface [BridgeDocumentWriter], which the node implements; the
    generated id of each message is an input. Serialising an envelope (five
    strings and numbers) cannot fail, so the [EnvelopeEncoding] exit is not a
    branch. *)

From S2P Require Import Prelude Envelope RateLimit Egress NodeDocs.

Definition INGRESS_QUEUE_CAPACITY : nat := 256.
Definition STORE_MAX_ATTEMPTS : nat := 3.
Definition STORE_RETRY_DELAY_FIRST : Z := 50.
Definition STORE_RETRY_DELAY_SECOND : Z := 200.
Definition OVERSIZED_WARNING_INTERVAL : Z := 60 * 1000000000.

Definition STORE_ATTEMPT_DELAYS : list (option Z) :=
  [Some STORE_RETRY_DELAY_FIRST; Some STORE_RETRY_DELAY_SECOND; None].

Inductive IngressCounter :=
| i_self_suppressed | i_received | i_stored | i_invalid_utf8 | i_invalid_json | i_oversized_payloads
| i_final_store_failures | i_slow_consumer_events.

#[global] Instance IngressCounter_eq_dec : EqDecision IngressCounter.
Proof. solve_decision. Defined.

Definition IngressStats : Type := IngressCounter → Z.
Definition ingress_stats_default : IngressStats := λ _, 0.
Definition ingress_add (c : IngressCounter) (st : IngressStats) : IngressStats :=
  λ c', if bool_decide (c = c') then wrapping_add_u64 (st c') 1 else st c'.

Inductive IngressActionKind :=
| IOversizedPayload | InvalidOccurrence | InvalidWarning | InvalidSummary | StoreRetry | StoreFailure.

Inductive IngressErrorKind :=
| ErrOversizedPayload | ErrInvalidUtf8 | ErrInvalidJson | ErrInvalidInputSummary | ErrEnvelopeEncoding | ErrAlreadyExists | ErrInvalidInput
| ErrEncryption | ErrConversion | ErrStoreRead | ErrStoreWrite | ErrLocalExclusion.

Record IngressAction := mkIngressAction {
  ia_kind : IngressActionKind;
  ia_subject : option string;
  ia_collection : option string;
  ia_payload_bytes : option Z;
  ia_document_id : option string;
  ia_attempt : option nat;
  ia_delay_ms : option Z;
  ia_suppressed_count : option Z;
  ia_error_kind : IngressErrorKind;
}.

Record IngressItem := mkIngressItem { ii_subject : string; ii_collection : string; ii_payload : bytes }.

Record InvalidWarningState := mkInvalid { warning_emitted : bool; iw_suppressed : Z }.

(** [impl From<CreateBridgeDocumentError> for IngressErrorKind] *)
Definition ingress_error_kind (e : CreateBridgeDocumentError) : IngressErrorKind :=
  match e with
  | CbAlreadyExists => ErrAlreadyExists
  | CbInvalidInput => ErrInvalidInput
  | CbEncryption => ErrEncryption
  | CbConversion => ErrConversion
  | CbStoreRead => ErrStoreRead
  | CbStoreWrite => ErrStoreWrite
  | CbLedger => ErrLocalExclusion
  end.

Definition is_transient (e : CreateBridgeDocumentError) : bool :=
  match e with CbStoreRead | CbStoreWrite => true | _ => false end.

Definition is_payload_oversized (payload_bytes : Z) : bool := MAX_INGRESS_PAYLOAD_BYTES <? payload_bytes.

Class BridgeDocumentWriter (W : Type) := {
  create_document : string → string → string → W → result CreateBridgeDocumentError unit * W;
}.

(** The processor: counters, warning states, the writer, and the actions emitted,
    oldest first. *)
Record Processor (W : Type) := mkProcessor {
  ip_stats : IngressStats;
  ip_warnings : gmap string InvalidWarningState;
  ip_writer : W;
  ip_emitted : list IngressAction;
}.
Arguments mkProcessor {W}. Arguments ip_stats {W}. Arguments ip_warnings {W}. Arguments ip_writer {W}. Arguments ip_emitted {W}.

Section ingress.
Context `{Serde} {W : Type} `{BridgeDocumentWriter W} (source_node_id : string).
Implicit Types p : Processor W.

Definition emit (a : IngressAction) p : Processor W :=
  mkProcessor (ip_stats p) (ip_warnings p) (ip_writer p) (ip_emitted p ++ [a]).
Definition count (c : IngressCounter) p : Processor W :=
  mkProcessor (ingress_add c (ip_stats p)) (ip_warnings p) (ip_writer p) (ip_emitted p).
Definition set_warning (subject : string) (s : InvalidWarningState) p : Processor W :=
  mkProcessor (ip_stats p) (<[subject := s]> (ip_warnings p)) (ip_writer p) (ip_emitted p).
Definition set_writer (w : W) p : Processor W := mkProcessor (ip_stats p) (ip_warnings p) w (ip_emitted p).

(** The state [run_ingress_processor] starts with. *)
Definition processor_new (subjects : list string) (w : W) : Processor W :=
  mkProcessor ingress_stats_default (list_to_map ((λ s, (s, mkInvalid false 0)) <$> subjects)) w [].

Definition invalid_action (kind : IngressActionKind) (item : IngressItem) (error_kind : IngressErrorKind) (suppressed_count : option Z)
  : IngressAction :=
  mkIngressAction kind (Some (ii_subject item)) (Some (ii_collection item)) (Some (Z.of_nat (length (ii_payload item))))
    None None None suppressed_count error_kind.

Definition store_action (kind : IngressActionKind) (item : IngressItem) (doc_id : string) (attempt : nat) (delay : option Z)
    (error_kind : IngressErrorKind) : IngressAction :=
  mkIngressAction kind (Some (ii_subject item)) (Some (ii_collection item)) (Some (Z.of_nat (length (ii_payload item))))
    (Some doc_id) (Some attempt) delay None error_kind.

Definition record_invalid (item : IngressItem) (error : IngressValidationError) p : Processor W :=
  let '(p, error_kind) :=
    match error with
    | InvalidUtf8 => (count i_invalid_utf8 p, ErrInvalidUtf8)
    | InvalidJson => (count i_invalid_json p, ErrInvalidJson)
    end in
  let p := emit (invalid_action InvalidOccurrence item error_kind None) p in
  match ip_warnings p !! ii_subject item with
  | None => p
  | Some state =>
      if warning_emitted state
      then set_warning (ii_subject item) (mkInvalid true (saturating_add_u64 (iw_suppressed state) 1)) p
      else emit (invalid_action InvalidWarning item error_kind None)
             (set_warning (ii_subject item) (mkInvalid true (iw_suppressed state)) p)
  end.

(** The retry loop over [STORE_ATTEMPT_DELAYS]; [attempt] counts from zero. *)
Fixpoint store_loop (item : IngressItem) (doc_id envelope_json : string) (attempt : nat) (delays : list (option Z)) p
  : Processor W :=
  match delays with
  | [] => p
  | retry_delay :: rest =>
      let '(r, w) := create_document (ii_collection item) doc_id envelope_json (ip_writer p) in
      let p := set_writer w p in
      match r with
      | Ok _ => count i_stored p
      | Err error =>
          match retry_delay with
          | Some delay =>
              if is_transient error
              then store_loop item doc_id envelope_json (S attempt) rest
                     (emit (store_action StoreRetry item doc_id (S attempt) (Some delay) (ingress_error_kind error)) p)
              else emit (store_action StoreFailure item doc_id (S attempt) None (ingress_error_kind error))
                     (count i_final_store_failures p)
          | None =>
              emit (store_action StoreFailure item doc_id (S attempt) None (ingress_error_kind error))
                (count i_final_store_failures p)
          end
      end
  end.

(** [doc_id] is the generated UUID. *)
Definition process_item (item : IngressItem) (doc_id : string) p : Processor W :=
  let p := count i_received p in
  match from_payload (ii_subject item) source_node_id (ii_payload item) with
  | Err error => record_invalid item error p
  | Ok envelope => store_loop item doc_id (envelope_to_json envelope) 0 STORE_ATTEMPT_DELAYS p
  end.

Definition summary_action (subject : string) (n : Z) : IngressAction :=
  mkIngressAction InvalidSummary (Some subject) None None None None None (Some n) ErrInvalidInputSummary.

(** The subjects are visited in the map's order. *)
Definition emit_invalid_summaries p : Processor W :=
  mkProcessor (ip_stats p) ((λ _, mkInvalid false 0) <$> ip_warnings p) (ip_writer p)
    (ip_emitted p ++
     omap (λ q, if 0 <? iw_suppressed q.2 then Some (summary_action q.1 (iw_suppressed q.2)) else None) (map_to_list (ip_warnings p))).

(** What [tokio::select!] serves. *)
Inductive IngressEvent := Item (item : IngressItem) (doc_id : string) | SummaryTick.

Definition ingress_step (e : IngressEvent) p : Processor W :=
  match e with
  | Item item doc_id => process_item item doc_id p
  | SummaryTick => emit_invalid_summaries p
  end.

Definition run_ingress (events : list IngressEvent) p : Processor W := foldl (λ p e, ingress_step e p) p events.

End ingress.

(** ** Oversized payloads, before the queue *)

Record IngressDiagnostics := mkIngressDiagnostics {
  id_warnings : gmap string DiagnosticBucket;
  id_emitted : list (Z * IngressAction);
}.

Definition ingress_diagnostics_new (routes : list (string * string)) : IngressDiagnostics :=
  mkIngressDiagnostics (list_to_map ((λ r, (r.1, bucket_default)) <$> routes)) [].

Definition oversized_action (subject collection : string) (payload_bytes n : Z) : IngressAction :=
  mkIngressAction IOversizedPayload (Some subject) (Some collection) (Some payload_bytes) None None None (Some n) ErrOversizedPayload.

(** [record_oversized_at] *)
Definition record_oversized_at (subject collection : string) (payload_bytes now : Z) (d : IngressDiagnostics) : IngressDiagnostics :=
  match id_warnings d !! subject with
  | None => d
  | Some state =>
      let '(line, state') := bucket_record OVERSIZED_WARNING_INTERVAL now state in
      mkIngressDiagnostics (<[subject := state']> (id_warnings d))
        (match line with
         | Some n => id_emitted d ++ [(now, oversized_action subject collection payload_bytes n)]
         | None => id_emitted d
         end)
  end.
