(* ===== verification/IngressFacts.v ===== *)
(** * Correctness of ingress

    One accepted message is at most three create calls for one document, every
    message is counted once, and the limited warnings account for every invalid
    message. *)

From S2P Require Import Prelude Journal LedgerWorker Envelope RateLimit Egress NodeDocs Ingress.

Section facts.
Context `{Serde} {W : Type} `{BridgeDocumentWriter W} (source : string).
Implicit Types p : Processor W.

(** [k] calls to the writer with the same arguments. *)
Fixpoint create_times (k : nat) (c d j : string) (w : W) : list (result CreateBridgeDocumentError unit) * W :=
  match k with
  | O => ([], w)
  | S k' =>
      let '(r, w1) := create_document c d j w in
      let '(rs, w2) := create_times k' c d j w1 in
      (r :: rs, w2)
  end.

Definition transient_result (r : result CreateBridgeDocumentError unit) : Prop :=
  ∃ e, r = Err e ∧ is_transient e = true.

(** The loop stops at the first result that is not a transient error, or at the
    last attempt. *)
Lemma store_loop_exact item d j attempt delays p :
  delays ≠ [] → (∀ k, delays !! k = Some None ↔ S k = length delays) →
  ∃ k rs r, create_times (S k) (ii_collection item) d j (ip_writer p) = (rs ++ [r], ip_writer (store_loop item d j attempt delays p)) ∧
    length rs = k ∧ (k < length delays)%nat ∧ Forall transient_result rs ∧ (transient_result r → S k = length delays) ∧
    ip_warnings (store_loop item d j attempt delays p) = ip_warnings p ∧
    ip_stats (store_loop item d j attempt delays p) =
      ingress_add (if is_ok r then i_stored else i_final_store_failures) (ip_stats p) ∧
    ∃ new, ip_emitted (store_loop item d j attempt delays p) = ip_emitted p ++ new ∧
      Forall (λ a, ia_kind a = StoreRetry ∨ ia_kind a = StoreFailure) new.
Proof.
  intros Hne Hd. revert attempt p. induction delays as [|delay rest IH]; [done|]. intros attempt p. cbn [store_loop].
  destruct (create_document (ii_collection item) d j (ip_writer p)) as [r w] eqn:Hc.
  assert (∀ p', ip_writer p' = w → ip_warnings p' = ip_warnings p →
    ip_stats p' = ingress_add (if is_ok r then i_stored else i_final_store_failures) (ip_stats p) →
    (transient_result r → rest = []) →
    (∃ new, ip_emitted p' = ip_emitted p ++ new ∧ Forall (λ a, ia_kind a = StoreRetry ∨ ia_kind a = StoreFailure) new) →
    ∃ k rs r0, create_times (S k) (ii_collection item) d j (ip_writer p) = (rs ++ [r0], ip_writer p') ∧
      length rs = k ∧ (k < length (delay :: rest))%nat ∧ Forall transient_result rs ∧
      (transient_result r0 → S k = length (delay :: rest)) ∧ ip_warnings p' = ip_warnings p ∧
      ip_stats p' = ingress_add (if is_ok r0 then i_stored else i_final_store_failures) (ip_stats p) ∧
      ∃ new, ip_emitted p' = ip_emitted p ++ new ∧ Forall (λ a, ia_kind a = StoreRetry ∨ ia_kind a = StoreFailure) new) as Hstop.
  { intros p' Hw Hwarn Hst Hlast Hnew. exists O, [], r. cbn [create_times]. rewrite Hc. split_and!; try done.
    - by rewrite Hw.
    - cbn. lia.
    - intros Ht. cbn. by rewrite (Hlast Ht). }
  destruct r as [[]|e].
  - apply Hstop; try done; [by intros (? & ? & _)|]. exists []. by rewrite app_nil_r.
  - destruct delay as [ms|].
    + assert (rest ≠ []) as Hrest.
      { intros ->. pose proof (proj2 (Hd O)) as Hlast. cbn in Hlast. specialize (Hlast eq_refl). done. }
      destruct (is_transient e) eqn:Ht.
      * destruct (IH Hrest) with (attempt := S attempt)
          (p := emit (store_action StoreRetry item d (S attempt) (Some ms) (ingress_error_kind e)) (set_writer w p))
          as (k & rs & r & Hrun & Hk & Hlt & Hf & Hl & Hwarn & Hst & new & Hem & Hkinds).
        { intros k. specialize (Hd (S k)). cbn in Hd. rewrite Hd. lia. }
        cbn [ip_writer emit set_writer] in Hrun.
        exists (S k), (Err e :: rs), r. split_and!.
        -- change (create_times (S (S k))) with (λ c d j w, let '(r, w1) := create_document c d j w in
             let '(rs, w2) := create_times (S k) c d j w1 in (r :: rs, w2)). cbn beta. by rewrite Hc, Hrun.
        -- cbn. by rewrite Hk.
        -- cbn. lia.
        -- constructor; [by exists e|done].
        -- intros Hr. cbn. by rewrite (Hl Hr).
        -- done.
        -- done.
        -- cbn in Hem. exists (store_action StoreRetry item d (S attempt) (Some ms) (ingress_error_kind e) :: new).
           rewrite Hem, <-app_assoc. split; [done|]. constructor; [by left|done].
      * apply Hstop; try done.
        -- intros (e' & [= <-] & ?). congruence.
        -- eexists. split; [reflexivity|]. apply Forall_singleton. by right.
    + apply Hstop; try done.
      * intros _. pose proof (proj1 (Hd O) eq_refl) as Hlen. cbn in Hlen. by destruct rest.
      * eexists. split; [reflexivity|]. apply Forall_singleton. by right.
Qed.

Lemma attempt_delays_last k : STORE_ATTEMPT_DELAYS !! k = Some None ↔ S k = length STORE_ATTEMPT_DELAYS.
Proof. destruct k as [|[|[|k]]]; cbn; split; intros Hk; try done; try lia; by destruct k. Qed.

(** ** Accounting *)

Lemma ingress_add_eqm c st c' : eqm (ingress_add c st c') (st c' + (if bool_decide (c = c') then 1 else 0)).
Proof. unfold ingress_add. case_bool_decide; [apply eqm_wrapping|exists 0; lia]. Qed.

(** What a message can end as. *)
Definition outcomes (st : IngressStats) : Z :=
  st i_stored + st i_invalid_utf8 + st i_invalid_json + st i_final_store_failures.

Lemma outcomes_add c st :
  c ∈ [i_stored; i_invalid_utf8; i_invalid_json; i_final_store_failures] →
  eqm (outcomes (ingress_add c st)) (outcomes st + 1) ∧ ingress_add c st i_received = st i_received.
Proof.
  intros Hc. unfold outcomes. rewrite !ingress_add_eqm.
  repeat (apply elem_of_cons in Hc as [->|Hc]); [..|by apply elem_of_nil in Hc]; (split; [|done]); repeat (case_bool_decide; try congruence); exists 0; lia.
Qed.

Lemma outcomes_received st :
  eqm (outcomes (ingress_add i_received st)) (outcomes st) ∧ eqm (ingress_add i_received st i_received) (st i_received + 1).
Proof. unfold outcomes. rewrite !ingress_add_eqm. split; repeat (case_bool_decide; try congruence); exists 0; lia. Qed.

Lemma record_invalid_stats item error p :
  ∃ c, c ∈ [i_stored; i_invalid_utf8; i_invalid_json; i_final_store_failures] ∧
    ip_stats (record_invalid item error p) = ingress_add c (ip_stats p) ∧
    dom (ip_warnings (record_invalid item error p)) = dom (ip_warnings p).
Proof.
  exists (match error with InvalidUtf8 => i_invalid_utf8 | InvalidJson => i_invalid_json end).
  split; [destruct error; set_solver|]. unfold record_invalid. destruct error; cbn.
  all: destruct (ip_warnings p !! ii_subject item) as [[em sup]|] eqn:Hw; cbn; [|done]; destruct em; cbn; (split; [done|]).
  all: rewrite dom_insert_L; apply elem_of_dom_2 in Hw; set_solver.
Qed.

Lemma process_item_counts item d p :
  ∃ c, c ∈ [i_stored; i_invalid_utf8; i_invalid_json; i_final_store_failures] ∧
    ip_stats (process_item source item d p) = ingress_add c (ingress_add i_received (ip_stats p)) ∧
    dom (ip_warnings (process_item source item d p)) = dom (ip_warnings p).
Proof.
  unfold process_item. destruct (from_payload _ _ _) as [env|error].
  - destruct (store_loop_exact item d (envelope_to_json env) 0 STORE_ATTEMPT_DELAYS (count i_received p))
      as (k & rs & r & _ & _ & _ & _ & _ & Hwarn & Hst & _); [done|apply attempt_delays_last|].
    eexists. split; [|split; [exact Hst|by rewrite Hwarn]]. destruct (is_ok r); set_solver.
  - apply (record_invalid_stats item error (count i_received p)).
Qed.

Lemma run_ingress_counts events p :
  eqm (ip_stats (run_ingress source events p) i_received) (ip_stats p i_received + (outcomes (ip_stats (run_ingress source events p)) - outcomes (ip_stats p))) ∧
  dom (ip_warnings (run_ingress source events p)) = dom (ip_warnings p).
Proof.
  revert p. induction events as [|e events IH]; intros p; cbn [run_ingress foldl]; [split; [exists 0; lia|done]|].
  destruct (IH (ingress_step source e p)) as [Hc Hd]. clear IH. fold (run_ingress source events (ingress_step source e p)). rewrite Hd.
  destruct e as [item d|]; cbn [ingress_step] in *.
  - destruct (process_item_counts item d p) as (c & Hin & Hst & Hdom). rewrite Hst in Hc. split; [|done].
    destruct (outcomes_add c (ingress_add i_received (ip_stats p)) Hin) as [[k1 E1] E2].
    destruct (outcomes_received (ip_stats p)) as [[k2 E3] [k3 E4]]. destruct Hc as [k4 Hc].
    rewrite E2 in Hc. exists (k4 + k3 - k1 - k2). lia.
  - split; [done|]. cbn. by rewrite dom_fmap_L.
Qed.

(** ** Invalid input *)

(** Occurrences of invalid input on a subject an action reports. *)
Definition reported (s : string) (a : IngressAction) : Z :=
  if bool_decide (ia_subject a = Some s) then
    match ia_kind a with
    | InvalidWarning => 1
    | InvalidSummary => default 0 (ia_suppressed_count a)
    | _ => 0
    end
  else 0.

Definition total_reported (s : string) (l : list IngressAction) : Z := foldr (λ a acc, reported s a + acc) 0 l.

Definition pending (s : string) p : Z := match ip_warnings p !! s with Some st => iw_suppressed st | None => 0 end.

Definition invalid_on (s : string) (e : IngressEvent) : bool :=
  match e with
  | Item item _ => bool_decide (ii_subject item = s) && negb (is_ok (from_payload (ii_subject item) source (ii_payload item)))
  | SummaryTick => false
  end.

Lemma total_reported_app s l1 l2 : total_reported s (l1 ++ l2) = total_reported s l1 + total_reported s l2.
Proof. induction l1 as [|a l1 IH]; cbn; [done|]. fold (total_reported s (l1 ++ l2)) (total_reported s l1). lia. Qed.

Lemma total_reported_zero s l : Forall (λ a, reported s a = 0) l → total_reported s l = 0.
Proof. induction 1 as [|a l Ha Hl IH]; cbn; [done|]. fold (total_reported s l). lia. Qed.

(** A tick reports exactly what was pending on the subject. *)
Definition summary_of (q : string * InvalidWarningState) : option IngressAction :=
  if 0 <? iw_suppressed q.2 then Some (summary_action q.1 (iw_suppressed q.2)) else None.

Lemma summaries_report_list s (l : list (string * InvalidWarningState)) :
  Forall (λ q, q.1 = s → 0 ≤ iw_suppressed q.2) l →
  total_reported s (omap summary_of l) =
  foldr (λ q acc, (if bool_decide (q.1 = s) then iw_suppressed q.2 else 0) + acc) 0 l.
Proof.
  induction 1 as [|[k st] l Hst Hl IH]; [done|]. cbn [foldr fst snd].
  change (omap summary_of ((k, st) :: l)) with
    (match summary_of (k, st) with Some a => a :: omap summary_of l | None => omap summary_of l end).
  unfold summary_of at 1. cbn [fst snd] in *. destruct (Z.ltb_spec 0 (iw_suppressed st)) as [Hpos|Hle].
  - change (total_reported s (?a :: ?r)) with (reported s a + total_reported s r). rewrite IH. f_equal.
    unfold reported. cbn. repeat case_bool_decide; congruence.
  - rewrite IH. case_bool_decide as Hks; [|done]. specialize (Hst Hks). lia.
Qed.

Lemma pending_of_list s (m : gmap string InvalidWarningState) :
  foldr (λ q acc, (if bool_decide (q.1 = s) then iw_suppressed q.2 else 0) + acc) 0 (map_to_list m) =
  match m !! s with Some st => iw_suppressed st | None => 0 end.
Proof.
  induction m as [|k st m Hk IH] using map_ind; [by rewrite map_to_list_empty, lookup_empty|].
  assert (∀ l1 l2 : list (string * InvalidWarningState), l1 ≡ₚ l2 →
    foldr (λ q acc, (if bool_decide (q.1 = s) then iw_suppressed q.2 else 0) + acc) 0 l1 =
    foldr (λ q acc, (if bool_decide (q.1 = s) then iw_suppressed q.2 else 0) + acc) 0 l2) as Hperm.
  { induction 1; cbn; lia. }
  rewrite (Hperm _ _ (map_to_list_insert m k st Hk)). cbn. rewrite IH.
  case_bool_decide as Hks; [subst; by rewrite lookup_insert_eq, Hk, Z.add_0_r|by rewrite lookup_insert_ne].
Qed.

Lemma tick_reports s p :
  (∀ st, ip_warnings p !! s = Some st → 0 ≤ iw_suppressed st) →
  total_reported s (ip_emitted (emit_invalid_summaries p)) = total_reported s (ip_emitted p) + pending s p.
Proof.
  intros Hnn. unfold emit_invalid_summaries. cbn [ip_emitted]. rewrite total_reported_app. f_equal.
  change (omap _ (map_to_list (ip_warnings p))) with (omap summary_of (map_to_list (ip_warnings p))).
  rewrite summaries_report_list; [apply pending_of_list|].
  apply Forall_forall. intros [k st] Hin. cbn. intros ->. apply Hnn. by apply elem_of_map_to_list.
Qed.

(** The measure the runs preserve: reported plus pending. *)
Definition seen_on (s : string) p : Z := total_reported s (ip_emitted p) + pending s p.

Definition subject_ok (s : string) p : Prop := ∃ st, ip_warnings p !! s = Some st ∧ 0 ≤ iw_suppressed st.

Lemma reported_zero s a : ia_kind a ≠ InvalidWarning → ia_kind a ≠ InvalidSummary → reported s a = 0.
Proof. unfold reported. intros. case_bool_decide; [|done]. by destruct (ia_kind a). Qed.

Lemma seen_on_emit s a p : seen_on s (emit a p) = seen_on s p + reported s a.
Proof. unfold seen_on. change (pending s (emit a p)) with (pending s p). cbn [ip_emitted emit]. rewrite total_reported_app. cbn. lia. Qed.

Lemma seen_on_set_warning s subject st p :
  seen_on s (set_warning subject st p) = seen_on s p + (if bool_decide (subject = s) then iw_suppressed st - pending s p else 0) ∧
  pending s (set_warning subject st p) = if bool_decide (subject = s) then iw_suppressed st else pending s p.
Proof.
  unfold seen_on, pending. cbn [ip_warnings set_warning ip_emitted].
  case_bool_decide as Hs; [subst; rewrite lookup_insert_eq; lia|rewrite lookup_insert_ne by done; lia].
Qed.

Lemma subject_ok_set_warning s subject st p :
  (subject = s → 0 ≤ iw_suppressed st) → subject_ok s p → subject_ok s (set_warning subject st p).
Proof.
  intros Hst (st0 & Hs & Hnn). unfold subject_ok. cbn. destruct (decide (subject = s)) as [->|Hne].
  - rewrite lookup_insert_eq. eauto.
  - rewrite lookup_insert_ne by done. eauto.
Qed.

Lemma record_invalid_seen s item error p :
  subject_ok s p → pending s p < U64_MAX →
  subject_ok s (record_invalid item error p) ∧
  seen_on s (record_invalid item error p) = seen_on s p + (if bool_decide (ii_subject item = s) then 1 else 0) ∧
  pending s (record_invalid item error p) ≤ pending s p + 1.
Proof.
  intros Hok Hmax. unfold record_invalid.
  set (first := match error with InvalidUtf8 => _ | InvalidJson => _ end).
  assert (∃ c k, first = (count c p, k)) as (c & kind & ->) by (destruct error; by repeat eexists).
  set (p1 := emit (invalid_action InvalidOccurrence item kind None) (count c p)).
  assert (seen_on s p1 = seen_on s p) as Hp1.
  { unfold p1. rewrite seen_on_emit, (reported_zero s) by done. rewrite Z.add_0_r. done. }
  assert (pending s p1 = pending s p ∧ subject_ok s p1 ∧ ip_warnings p1 = ip_warnings p) as (Hpend & Hok1 & Hw1) by done.
  rewrite Hw1. destruct (ip_warnings p !! ii_subject item) as [[em sup]|] eqn:Hw.
  2: { rewrite bool_decide_false; [split_and!; [done|lia..]|]. intros <-. destruct Hok as (st & Hs & _). congruence. }
  assert (ii_subject item = s → pending s p = sup ∧ 0 ≤ sup) as Hsup.
  { intros <-. unfold pending. rewrite Hw. split; [done|]. destruct Hok as (st & Hs & Hnn). rewrite Hw in Hs. by simplify_eq. }
  cbn [warning_emitted iw_suppressed]. destruct em.
  - set (st := mkInvalid true (saturating_add_u64 sup 1)).
    destruct (seen_on_set_warning s (ii_subject item) st p1) as [E1 E2].
    split; [|rewrite E1, E2, Hpend, Hp1; unfold st, saturating_add_u64; cbn].
    + apply subject_ok_set_warning; [|done]. intros Hs. destruct (Hsup Hs). unfold st, saturating_add_u64, U64_MAX. cbn. lia.
    + case_bool_decide as Hs; [destruct (Hsup Hs)|]; lia.
  - set (st := mkInvalid true sup). destruct (seen_on_set_warning s (ii_subject item) st p1) as [E1 E2].
    rewrite seen_on_emit, E1. change (pending s (emit ?a ?q)) with (pending s q). rewrite E2, Hpend, Hp1. split.
    + apply (subject_ok_set_warning s (ii_subject item) st p1); [|done]. intros Hs. by destruct (Hsup Hs).
    + unfold reported. cbn. rewrite (bool_decide_ext (Some (ii_subject item) = Some s) (ii_subject item = s)) by naive_solver.
      case_bool_decide as Hs; [destruct (Hsup Hs)|]; lia.
Qed.

Lemma ingress_step_seen s e p :
  subject_ok s p → pending s p < U64_MAX →
  subject_ok s (ingress_step source e p) ∧
  seen_on s (ingress_step source e p) = seen_on s p + (if invalid_on s e then 1 else 0) ∧
  pending s (ingress_step source e p) ≤ pending s p + 1.
Proof.
  intros Hok Hmax. destruct e as [item d|]; cbn [ingress_step invalid_on].
  - unfold process_item. destruct (from_payload _ _ _) as [env|error]; cbn [is_ok negb].
    + rewrite andb_false_r.
      destruct (store_loop_exact item d (envelope_to_json env) 0 STORE_ATTEMPT_DELAYS (count i_received p))
        as (k & rs & r & _ & _ & _ & _ & _ & Hwarn & _ & new & Hem & Hkinds); [done|apply attempt_delays_last|].
      unfold subject_ok, seen_on, pending in *. rewrite Hwarn, Hem. cbn [ip_warnings ip_emitted count].
      rewrite total_reported_app, (total_reported_zero s new); [split_and!; [done|lia..]|].
      eapply Forall_impl; [exact Hkinds|]. cbn. intros a [Ha|Ha]; apply reported_zero; congruence.
    + rewrite andb_true_r. apply (record_invalid_seen s item error (count i_received p)); done.
  - destruct Hok as (st & Hs & Hnn). unfold seen_on. rewrite tick_reports by (intros st' ?; congruence).
    unfold pending in *. cbn. rewrite lookup_fmap, Hs. cbn. split_and!; [|lia..].
    eexists. split; [cbn; by rewrite lookup_fmap, Hs|]. cbn. lia.
Qed.

Lemma run_ingress_seen s events p :
  subject_ok s p → pending s p + Z.of_nat (length events) ≤ U64_MAX →
  seen_on s (run_ingress source events p) = seen_on s p + Z.of_nat (length (List.filter (invalid_on s) events)).
Proof.
  revert p. induction events as [|e events IH]; intros p Hok Hmax; cbn [run_ingress foldl List.filter length] in *; [lia|].
  fold (run_ingress source events (ingress_step source e p)).
  destruct (ingress_step_seen s e p Hok) as (Hok1 & Hseen & Hp); [lia|].
  rewrite IH, Hseen by (done || lia). destruct (invalid_on s e); cbn [length]; lia.
Qed.

End facts.

Section properties.
Context `{Serde} {W : Type} `{BridgeDocumentWriter W} (source : string).
Implicit Types p : Processor W.

(** [C22] One message, one document, three tries: an accepted message leads to between
    one and three create calls, all for the same collection, generated id and text;
    every call but the last failed transiently, a last call that failed transiently
    was the third, and exactly one of the stored and final-failure counters is bumped,
    as the last call says. *)
Theorem store_attempts_exact item d p env :
  from_payload (ii_subject item) source (ii_payload item) = Ok env →
  ∃ k rs r, create_times (S k) (ii_collection item) d (envelope_to_json env) (ip_writer p) =
      (rs ++ [r], ip_writer (process_item source item d p)) ∧
    length rs = k ∧ (S k ≤ STORE_MAX_ATTEMPTS)%nat ∧ Forall transient_result rs ∧
    (transient_result r → S k = STORE_MAX_ATTEMPTS) ∧
    ip_stats (process_item source item d p) =
      ingress_add (if is_ok r then i_stored else i_final_store_failures) (ingress_add i_received (ip_stats p)).
Proof.
  intros Hok. unfold process_item. rewrite Hok.
  destruct (store_loop_exact item d (envelope_to_json env) 0 STORE_ATTEMPT_DELAYS (count i_received p))
    as (k & rs & r & Hrun & Hk & Hlt & Hf & Hl & _ & Hst & _); [done|apply attempt_delays_last|].
  exists k, rs, r. split_and!; [exact Hrun|done| |done|exact Hl|exact Hst]. unfold STORE_MAX_ATTEMPTS. cbn in Hlt. lia.
Qed.

(** Every message is counted once, and input never grows the processor's state:
    after any sequence of messages and summary ticks, modulo 64 bits the messages
    received are exactly those stored, rejected as invalid UTF-8 or JSON, or finally
    failed, and the warning table still has exactly the configured subjects. *)
Theorem ingress_accounting subjects w events :
  let p := run_ingress source events (processor_new subjects w) in
  ip_stats p i_received mod 2 ^ 64 =
    (ip_stats p i_stored + ip_stats p i_invalid_utf8 + ip_stats p i_invalid_json + ip_stats p i_final_store_failures) mod 2 ^ 64 ∧
  dom (ip_warnings p) = list_to_set subjects.
Proof.
  cbn zeta. destruct (run_ingress_counts source events (processor_new subjects w)) as [Hc Hd]. split.
  - apply eqm_mod. rewrite Hc. fold (outcomes (ip_stats (run_ingress source events (processor_new subjects w)))).
    assert (ip_stats (processor_new subjects w) i_received = 0 ∧ outcomes (ip_stats (processor_new subjects w)) = 0) as [-> ->] by done.
    exists 0. lia.
  - rewrite Hd. cbn. rewrite dom_list_to_map_L. f_equal. rewrite <-list_fmap_compose. apply list_fmap_id.
Qed.

(** The warnings on invalid input lose nothing: for every configured subject,
    the warnings emitted, the counts in the emitted summaries and the count pending
    for the next one add up to exactly the invalid messages received on it, however
    messages and summary ticks alternate. *)
Theorem invalid_warnings_lossless subjects w events s :
  s ∈ subjects → Z.of_nat (length events) ≤ U64_MAX →
  let p := run_ingress source events (processor_new subjects w) in
  total_reported s (ip_emitted p) + pending s p =
    Z.of_nat (length (List.filter (invalid_on source s) events)).
Proof.
  intros Hs Hmax. cbn zeta.
  assert (ip_warnings (processor_new subjects w) !! s = Some (mkInvalid false 0)) as Hw.
  { cbn. clear -Hs. induction subjects as [|x subjects IH]; [by apply elem_of_nil in Hs|]. cbn.
    destruct (decide (x = s)) as [->|Hne]; [apply lookup_insert_eq|]. rewrite lookup_insert_ne by done. apply IH.
    by apply elem_of_cons in Hs as [|]. }
  pose proof (run_ingress_seen source s events (processor_new subjects w)) as Hrun. unfold seen_on in Hrun. rewrite Hrun.
  - unfold pending. rewrite Hw. done.
  - exists (mkInvalid false 0). done.
  - unfold pending. rewrite Hw. cbn. lia.
Qed.

End properties.

(** ** Witnesses *)

(** A writer whose first [n] creates fail with a store error. *)
Definition toy_writer : BridgeDocumentWriter (nat * list string) := {|
  create_document c d j w :=
    match w with
    | (S n, docs) => (Err CbStoreWrite, (n, docs))
    | (O, docs) => (Ok tt, (O, d :: docs))
    end;
|}.

#[local] Existing Instances toy_serde toy_writer.

Definition toy_item : IngressItem := mkIngressItem "tracks.up" "tracks" [Byte.x7b; Byte.x7d].
Definition toy_bad_item : IngressItem := mkIngressItem "tracks.up" "tracks" [Byte.xff].

Lemma store_attempts_exact_witness :
  ip_writer (process_item "alpha" toy_item "id" (processor_new ["tracks.up"%string] (2%nat, []))) = (O, ["id"%string]) ∧
  ∃ k, (S k ≤ STORE_MAX_ATTEMPTS)%nat.
Proof.
  split; [vm_compute; reflexivity|].
  destruct (store_attempts_exact "alpha" toy_item "id" (processor_new ["tracks.up"%string] (2%nat, []))
    (mkEnvelope BRIDGE_ENVELOPE_KIND BRIDGE_ENVELOPE_VERSION "tracks.up" "alpha" "{}")) as (k & _ & _ & _ & _ & Hk & _).
  - vm_compute. reflexivity.
  - exists k. exact Hk.
Defined.

Definition toy_ingress_events : list IngressEvent :=
  [Item toy_bad_item "a"; Item toy_bad_item "b"; Item toy_bad_item "c"; SummaryTick; Item toy_bad_item "d"].

Lemma invalid_warnings_lossless_witness :
  total_reported "tracks.up" (ip_emitted (run_ingress "alpha" toy_ingress_events (processor_new ["tracks.up"%string] (O, [])))) = 4.
Proof.
  pose proof (invalid_warnings_lossless "alpha" ["tracks.up"%string] (O, []) toy_ingress_events "tracks.up") as Hp.
  cbn zeta in Hp. rewrite <-(Z.add_0_r (total_reported _ _)). refine (eq_trans (Hp _ _) _).
  - by left.
  - vm_compute. discriminate.
  - vm_compute. reflexivity.
Defined.
