(* ===== verification/Reconcile.v ===== *)
(** * Reconciliation: recovering missed remote documents

    Model of [src/nats_bridge/reconcile.rs]. [Reconciler] is the shared state of
    the trigger handles and the task: the one-slot channel, the two flags, the
    counters and the task's place in its loop; trigger calls and the task
    interleave at every atomic operation. [scan_once] is one pass over the mapped
    collections; what its [can_scan] checks see of readiness and the closed flag
    is an input, as other tasks change both while it waits. *)

From S2P Require Import Prelude Journal LedgerWorker Readiness Envelope NatsConfig Egress Preflight Crypto NodeDocs.

Definition RECONCILE_BATCH_KEYS : nat := 64.

Inductive ReconcileReason := StartupReady | ReconnectReady | ReconcileEventLagged.

(** ** Triggers and the single-flight task *)

(** [TaskReceived]: a message was taken and the closed flag is checked next;
    [TaskScanning]: inside [scan_once]; [TaskAfterScan]: the check after it. *)
Inductive TaskPhase := TaskWaiting | TaskReceived | TaskScanning | TaskAfterScan | TaskDone.

(** A trigger call between its operations. *)
Inductive TriggerPhase := TrigSend (reason : ReconcileReason) | TrigSwap.

Record Reconciler := mkReconciler {
  rc_slot : option ReconcileReason;
  rc_pending : bool;
  rc_closed : bool;
  rc_task : TaskPhase;
  rc_calls : list TriggerPhase;
  rc_triggers : Z;
  rc_coalesced : Z;
  rc_scans : nat;
}.

Definition reconciler_new : Reconciler := mkReconciler None false false TaskWaiting [] 0 0 O.

Inductive RStep :=
| TriggerStart (reason : ReconcileReason)
| TriggerSend (i : nat)
| TriggerSwap (i : nat)
| CloseFlag
| ClosePending
| TaskRecv
| TaskCheck
| ScanReturns
| TaskLoop.

(** [fetch_add] on the counters; [scans] is kept unbounded to number the scans. *)
Definition rstep (s : RStep) (r : Reconciler) : option Reconciler :=
  match s with
  | TriggerStart reason =>
      if rc_closed r then Some r
      else Some (mkReconciler (rc_slot r) (rc_pending r) (rc_closed r) (rc_task r) (rc_calls r ++ [TrigSend reason])
                   (wrapping_add_u64 (rc_triggers r) 1) (rc_coalesced r) (rc_scans r))
  | TriggerSend i =>
      match rc_calls r !! i with
      | Some (TrigSend reason) =>
          match rc_slot r, rc_task r with
          | None, (TaskWaiting | TaskReceived | TaskScanning | TaskAfterScan) =>
              Some (mkReconciler (Some reason) (rc_pending r) (rc_closed r) (rc_task r) (delete i (rc_calls r))
                      (rc_triggers r) (rc_coalesced r) (rc_scans r))
          | _, _ => (* full, or the receiver is gone *)
              Some (mkReconciler (rc_slot r) (rc_pending r) (rc_closed r) (rc_task r) (<[i := TrigSwap]> (rc_calls r))
                      (rc_triggers r) (rc_coalesced r) (rc_scans r))
          end
      | _ => None
      end
  | TriggerSwap i =>
      match rc_calls r !! i with
      | Some TrigSwap =>
          Some (mkReconciler (rc_slot r) true (rc_closed r) (rc_task r) (delete i (rc_calls r)) (rc_triggers r)
                  (if rc_pending r then rc_coalesced r else wrapping_add_u64 (rc_coalesced r) 1) (rc_scans r))
      | _ => None
      end
  | CloseFlag =>
      Some (mkReconciler (rc_slot r) (rc_pending r) true (rc_task r) (rc_calls r) (rc_triggers r) (rc_coalesced r) (rc_scans r))
  | ClosePending =>
      Some (mkReconciler (rc_slot r) false (rc_closed r) (rc_task r) (rc_calls r) (rc_triggers r) (rc_coalesced r) (rc_scans r))
  | TaskRecv =>
      match rc_task r, rc_slot r with
      | TaskWaiting, Some _ =>
          Some (mkReconciler None (rc_pending r) (rc_closed r) TaskReceived (rc_calls r) (rc_triggers r) (rc_coalesced r) (rc_scans r))
      | _, _ => None
      end
  | TaskCheck =>
      match rc_task r with
      | TaskReceived =>
          if rc_closed r
          then Some (mkReconciler (rc_slot r) (rc_pending r) (rc_closed r) TaskDone (rc_calls r) (rc_triggers r) (rc_coalesced r) (rc_scans r))
          else Some (mkReconciler (rc_slot r) (rc_pending r) (rc_closed r) TaskScanning (rc_calls r) (rc_triggers r) (rc_coalesced r) (S (rc_scans r)))
      | _ => None
      end
  | ScanReturns =>
      match rc_task r with
      | TaskScanning =>
          Some (mkReconciler (rc_slot r) (rc_pending r) (rc_closed r) TaskAfterScan (rc_calls r) (rc_triggers r) (rc_coalesced r) (rc_scans r))
      | _ => None
      end
  | TaskLoop =>
      match rc_task r with
      | TaskAfterScan =>
          if rc_closed r
          then Some (mkReconciler (rc_slot r) (rc_pending r) (rc_closed r) TaskWaiting (rc_calls r) (rc_triggers r) (rc_coalesced r) (rc_scans r))
          else if rc_pending r
          then Some (mkReconciler (rc_slot r) false (rc_closed r) TaskScanning (rc_calls r) (rc_triggers r) (rc_coalesced r) (S (rc_scans r)))
          else Some (mkReconciler (rc_slot r) false (rc_closed r) TaskWaiting (rc_calls r) (rc_triggers r) (rc_coalesced r) (rc_scans r))
      | _ => None
      end
  end.

Fixpoint rrun (steps : list RStep) (r : Reconciler) : option Reconciler :=
  match steps with
  | [] => Some r
  | s :: steps' => r' ← rstep s r; rrun steps' r'
  end.

(** ** One scan *)

(** What the scan changes: the counters, the health it reports, the ledgers it
    asks and the events it offers, oldest first. *)
Record Scan (L E : Type) := mkScan {
  sc_exclusion : E;
  sc_delivery : L;
  sc_status : BridgeStatus;
  sc_hydrated : Z;
  sc_suppressed : Z;
  sc_failures : Z;
  sc_offered : list BridgeChangeEvent;
}.
Arguments mkScan {L E}. Arguments sc_exclusion {L E}. Arguments sc_delivery {L E}. Arguments sc_status {L E}.
Arguments sc_hydrated {L E}. Arguments sc_suppressed {L E}. Arguments sc_failures {L E}. Arguments sc_offered {L E}.

(** What another task may have done by the time of a check: the closed flag and
    the readiness seen there. *)
Record Observation := mkObs { ob_closed : bool; ob_status : BridgeStatus }.

(** How the scan goes on after a key. *)
Inductive Flow := Continue | Return.

Section scan.
Context {sha : Sha256} `{CipherOps} `{D : Docs} {St : Type} `{!DocStore St} {E : Type} `{!ExclusionOps E} {L : Type} `{!LedgerOps L}.
Context (n : Node St E).
(** [deliver] of an offered event, as far as the delivery journal is concerned. *)
Context (deliver_effect : BridgeChangeEvent → L → L).
(** The [k]-th observation, from the state the scan itself left. *)
Context (observe : nat → BridgeStatus → Observation).
Implicit Types s : Scan L E.

Definition can_scan (k : nat) s : bool :=
  let o := observe k (sc_status s) in
  negb (ob_closed o) && excl_healthy (sc_exclusion s) && ledger_healthy (sc_delivery s) && is_ready (ob_status o).

Definition with_counts (h sp f : Z) s : Scan L E :=
  mkScan (sc_exclusion s) (sc_delivery s) (sc_status s) (wrapping_add_u64 (sc_hydrated s) h)
    (wrapping_add_u64 (sc_suppressed s) sp) (wrapping_add_u64 (sc_failures s) f) (sc_offered s).
Definition with_ledgers (e : E) (l : L) s : Scan L E :=
  mkScan e l (sc_status s) (sc_hydrated s) (sc_suppressed s) (sc_failures s) (sc_offered s).
Definition with_scan_status (b : BridgeStatus) s : Scan L E :=
  mkScan (sc_exclusion s) (sc_delivery s) b (sc_hydrated s) (sc_suppressed s) (sc_failures s) (sc_offered s).

(** [deliver_candidate] and what follows it *)
Definition scan_candidate (collection doc_id : string) s : Flow * Scan L E :=
  let '(r, e) := reconciliation_candidate collection doc_id n (sc_exclusion s) in
  let s := with_ledgers e (sc_delivery s) s in
  match r with
  | Ok (Missing, _) => (Continue, s)
  | Ok (CandidateExcluded, _) => (Continue, with_counts 0 1 0 s)
  | Ok (Offered, ev) =>
      let s := match ev with
               | Some ev => mkScan (sc_exclusion s) (deliver_effect ev (sc_delivery s)) (sc_status s) (sc_hydrated s)
                              (sc_suppressed s) (sc_failures s) (sc_offered s ++ [ev])
               | None => s
               end in
      (Continue, with_counts 1 0 0 s)
  | Err CeRead => (Continue, with_counts 0 0 1 s)
  | Err CeExclusion =>
      (Return, with_counts 0 0 1 (with_scan_status (update (SetExclusionHealthy false) (sc_status s)).2 s))
  end.

(** The body of the loop over keys; two checks per key. *)
Definition scan_key (k : nat) (collection key : string) s : Flow * Scan L E :=
  if negb (can_scan k s) then (Return, s)
  else
    match strip_prefix (collection +:+ ":") key with
    | None => (Continue, s)
    | Some doc_id =>
        let digest := document_digest collection doc_id in
        let '(r, e) := excl_contains digest (sc_exclusion s) in
        let s := with_ledgers e (sc_delivery s) s in
        match r with
        | Err _ => (Return, with_counts 0 0 1 (with_scan_status (update (SetExclusionHealthy false) (sc_status s)).2 s))
        | Ok true => (Continue, with_counts 0 1 0 s)
        | Ok false =>
            let '(r, l) := ledger_suppressed digest (sc_delivery s) in
            let s := with_ledgers (sc_exclusion s) l s in
            match r with
            | Err _ => (Return, with_counts 0 0 1 (with_scan_status (update (SetDeliveryHealthy false) (sc_status s)).2 s))
            | Ok true => (Continue, with_counts 0 1 0 s)
            | Ok false => if negb (can_scan (S k) s) then (Return, s) else scan_candidate collection doc_id s
            end
        end
    end.

(** The batches of [keys.chunks(64)] in order are the keys in order. *)
Fixpoint scan_keys (k : nat) (collection : string) (keys : list string) s : nat * Flow * Scan L E :=
  match keys with
  | [] => (k, Continue, s)
  | key :: rest =>
      match scan_key k collection key s with
      | (Return, s) => (k, Return, s)
      | (Continue, s) => scan_keys (k + 2) collection rest s
      end
  end.

(** [Continue] marks a pass that reached the end. *)
Fixpoint scan_once (k : nat) (mappings : list SubjectMapping) s : Flow * Scan L E :=
  match mappings with
  | [] => (Continue, s)
  | mapping :: rest =>
      if negb (can_scan k s) then (Return, s)
      else
        match keys_with_prefix (collection mapping +:+ ":") (nd_store n) with
        | None => (Return, with_counts 0 0 1 s)
        | Some keys =>
            match scan_keys (S k) (collection mapping) keys s with
            | (_, Return, s) => (Return, s)
            | (k, Continue, s) => scan_once k rest s
            end
        end
  end.

End scan.
