(* ===== verification/ReconcileFacts.v ===== *)
(** * Correctness of reconciliation

    No trigger is lost, and a pass offers exactly what is neither locally
    excluded nor already delivered. *)

From S2P Require Import Prelude Journal JournalFacts LedgerWorker Readiness Envelope NatsConfig Egress EgressLedger.
From S2P Require Import EgressFacts Preflight Crypto NodeDocs ExclusionLedger NodeDocsFacts Reconcile.

(** ** Triggers *)

(** A trigger that ran its send when [n] scans had started is covered: a later
    scan started, or one is bound to. *)
Definition covered (n : nat) (r : Reconciler) : Prop :=
  (n ≤ rc_scans r)%nat ∧ (rc_closed r = true ∨ (n < rc_scans r)%nat ∨ is_Some (rc_slot r) ∨ rc_task r = TaskReceived).

Definition task_inv (r : Reconciler) : Prop := rc_task r = TaskDone → rc_closed r = true.

Lemma rstep_inv s r r' : rstep s r = Some r' → task_inv r → task_inv r' ∧ (rc_closed r = true → rc_closed r' = true).
Proof. unfold task_inv. destruct r. intros Hs Hi. destruct s; cbn in *; repeat case_match; simplify_eq; cbn; auto; by intros. Qed.

Lemma rstep_covered n s r r' : rstep s r = Some r' → covered n r → covered n r'.
Proof.
  unfold covered. destruct r as [sl pe cl ta ca tr co sc].
  intros Hs Hc. destruct s; cbn in *; repeat case_match; simplify_eq; cbn; destruct Hc as [? [?|[?|[[? ?]|?]]]]; simplify_eq; (split; [lia|]).
  all: first [by left | by (right; left; lia) | by (right; right; left; eexists) | by (right; right; right)].
Qed.

Lemma rrun_inv steps r r' : rrun steps r = Some r' → task_inv r → task_inv r'.
Proof.
  revert r. induction steps as [|s steps IH]; intros r Hr Hi; cbn in Hr; [by simplify_eq|].
  destruct (rstep s r) as [r1|] eqn:Hs; cbn in Hr; [|done]. apply rstep_inv in Hs as [? _]; eauto.
Qed.

Lemma rrun_covered n steps r r' : rrun steps r = Some r' → covered n r → covered n r'.
Proof.
  revert r. induction steps as [|s steps IH]; intros r Hr Hc; cbn in Hr; [by simplify_eq|].
  destruct (rstep s r) as [r1|] eqn:Hs; cbn in Hr; [|done]. eauto using rstep_covered.
Qed.

(** [C19] No trigger is lost: under every interleaving of trigger calls, closing and
    the task at the granularity of single atomic operations, once a trigger has tried
    the channel, a scan that started after it is over or running whenever the task is
    parked on an empty channel, unless the reconciler was closed; and the task always
    has a next step while it is not parked so. *)
Theorem no_trigger_lost steps1 i r1 r2 steps2 r3 :
  rrun steps1 reconciler_new = Some r1 → rstep (TriggerSend i) r1 = Some r2 → rrun steps2 r2 = Some r3 →
  rc_closed r3 = false →
  (rc_task r3 = TaskWaiting → rc_slot r3 = None → (rc_scans r1 < rc_scans r3)%nat) ∧
  (rc_task r3 ≠ TaskWaiting ∨ is_Some (rc_slot r3) → ∃ s, s ∈ [TaskRecv; TaskCheck; ScanReturns; TaskLoop] ∧ is_Some (rstep s r3)).
Proof.
  intros H1 Hsend H2 Hopen.
  assert (task_inv r1) as Hi1 by (eapply rrun_inv; [exact H1|]; intros Ht; discriminate Ht).
  assert (task_inv r3) as Hi3 by (eapply rrun_inv; [exact H2|]; by eapply rstep_inv).
  assert (covered (rc_scans r1) r2) as Hc2.
  { unfold covered, task_inv in *. destruct r1 as [sl pe cl ta ca tr co sc]. cbn in *.
    repeat case_match; simplify_eq; cbn in *; (split; [lia|]); eauto. }
  split.
  - intros Hw Hs. destruct (rrun_covered _ _ _ _ H2 Hc2) as [_ [?|[?|[[? ?]|?]]]]; congruence.
  - intros Hen. destruct r3 as [sl pe cl ta ca tr co sc]. cbn in *. subst cl. destruct ta.
    + destruct sl; [|destruct Hen as [?|[? ?]]; congruence]. exists TaskRecv. split; [set_solver|]. cbn. eauto.
    + exists TaskCheck. split; [set_solver|]. cbn. eauto.
    + exists ScanReturns. split; [set_solver|]. cbn. eauto.
    + exists TaskLoop. split; [set_solver|]. cbn. destruct pe; eauto.
    + specialize (Hi3 eq_refl). discriminate Hi3.
Qed.

(** A trigger during a scan: the task parks only after a second scan. *)
Definition toy_before : list RStep := [TriggerStart StartupReady; TriggerSend 0; TaskRecv; TaskCheck; TriggerStart ReconnectReady].
Definition toy_after : list RStep := [ScanReturns; TaskLoop; TaskRecv; TaskCheck; ScanReturns; TaskLoop].

Lemma no_trigger_lost_witness :
  ∃ r1 r2 r3, rrun toy_before reconciler_new = Some r1 ∧ rstep (TriggerSend 0) r1 = Some r2 ∧ rrun toy_after r2 = Some r3 ∧
    (rc_scans r1 < rc_scans r3)%nat.
Proof.
  do 3 eexists. split; [vm_compute; reflexivity|]. split; [vm_compute; reflexivity|]. split; [vm_compute; reflexivity|].
  refine (proj1 (no_trigger_lost toy_before 0 _ _ toy_after _ _ _ _ _) _ _); vm_compute; reflexivity.
Defined.

(** ** Scans *)

Section scan_facts.
Context {sha : Sha256} `{CipherOps} `{D : Docs} {St : Type} `{!DocStore St}.
Context {E : Type} `{!ExclusionOps E, !ExclusionLaws E} {L : Type} `{!LedgerOps L, !LedgerLaws L}.
Context (n : Node St E) (deliver_effect : BridgeChangeEvent → L → L) (observe : nat → BridgeStatus → Observation).
(** Delivery keeps the journal's contract. *)
Context (effect_inv : ∀ ev l, ledger_inv l → ledger_inv (deliver_effect ev l)).
Context (effect_mono : ∀ ev l d, ledger_inv l → ledger_seen l d → ledger_seen (deliver_effect ev l) d).
Implicit Types s : Scan L E.

Definition scan_inv s : Prop := excl_inv (sc_exclusion s) ∧ ledger_inv (sc_delivery s).

(** The scan leaves the exclusions as they were and only adds to the journal. *)
Definition scan_le s s' : Prop :=
  (∀ d, excluded (sc_exclusion s) d ↔ excluded (sc_exclusion s') d) ∧
  (∀ d, ledger_seen (sc_delivery s) d → ledger_seen (sc_delivery s') d).

Definition event_digest (ev : BridgeChangeEvent) : LedgerDigest := document_digest (ev_collection ev) (ev_doc_id ev).

(** A candidate a pass may offer, judged when the pass is in [s]. *)
Definition fresh s (ev : BridgeChangeEvent) : Prop :=
  ¬ excluded (sc_exclusion s) (event_digest ev) ∧ ¬ ledger_seen (sc_delivery s) (event_digest ev) ∧
  get_bridge_document (ev_collection ev) (ev_doc_id ev) n = Ok (Some (ev_json_data ev)).

(** What a part of a pass over given keys guarantees. *)
Definition pass (c : string) (keys : list string) s (f : Flow) s' : Prop :=
  scan_inv s' ∧ scan_le s s' ∧ ∃ new, sc_offered s' = sc_offered s ++ new ∧
    Forall (λ ev, fresh s ev ∧ ev_collection ev = c ∧ doc_key c (ev_doc_id ev) ∈ keys) new ∧
    (f = Continue → ∀ i text, doc_key c i ∈ keys → get_bridge_document c i n = Ok (Some text) →
       excluded (sc_exclusion s) (document_digest c i) ∨ ledger_seen (sc_delivery s') (document_digest c i) ∨ mkEvent c i "" text ∈ new).

Lemma strip_key c key i : strip_prefix (c +:+ ":") key = Some i ↔ key = doc_key c i.
Proof.
  rewrite strip_prefix_Some. unfold doc_key.
  assert (∀ a b d : string, (a +:+ b) +:+ d = a +:+ b +:+ d) as Hassoc.
  { intros a b d. induction a as [|x a IH]; [done|]. rewrite !string_app_cons. by rewrite IH. }
  by rewrite Hassoc.
Qed.

Lemma doc_key_inj c i j : doc_key c i = doc_key c j → i = j.
Proof. intros Heq. pose proof (proj2 (strip_key c (doc_key c i) i) eq_refl) as H1. rewrite Heq in H1.
  pose proof (proj2 (strip_key c (doc_key c j) j) eq_refl) as H2. congruence. Qed.

(** A key passed over without an offer. *)
Lemma pass_skip c key s f s' :
  scan_inv s' → scan_le s s' → sc_offered s' = sc_offered s →
  (f = Continue → ∀ i text, key = doc_key c i → get_bridge_document c i n = Ok (Some text) →
     excluded (sc_exclusion s) (document_digest c i) ∨ ledger_seen (sc_delivery s') (document_digest c i)) →
  pass c [key] s f s'.
Proof.
  intros Hi Hle Hoff Hskip. split_and!; [done|done|]. exists []. rewrite app_nil_r. split_and!; [done|constructor|].
  intros Hf i text Hkey Hget. apply list_elem_of_singleton in Hkey. destruct (Hskip Hf i text (eq_sym Hkey) Hget); auto.
Qed.

Lemma scan_candidate_pass c i s f s' :
  scan_candidate n deliver_effect c i s = (f, s') → scan_inv s →
  ¬ excluded (sc_exclusion s) (document_digest c i) → ¬ ledger_seen (sc_delivery s) (document_digest c i) →
  pass c [doc_key c i] s f s'.
Proof.
  intros Hrun [Hie Hil] Hne Hns. unfold scan_candidate, reconciliation_candidate in Hrun.
  destruct (get_bridge_document c i n) as [[text|]|] eqn:Hget.
  - pose proof (excl_contains_inv (document_digest c i) _ Hie) as Hie'.
    pose proof (λ x, excl_contains_same (document_digest c i) _ x Hie) as Hsame.
    pose proof (excl_contains_answer (document_digest c i) (sc_exclusion s)) as Hans.
    destruct (excl_contains (document_digest c i) (sc_exclusion s)) as [r e]. cbn in Hie', Hsame, Hans.
    destruct r as [[]|].
    + exfalso. apply Hne. by apply (Hans true Hie eq_refl).
    + injection Hrun as <- <-. split_and!.
      * split; cbn; [done|auto].
      * split; cbn; [intros d; by rewrite Hsame|auto].
      * exists [mkEvent c i "" text]. cbn. split_and!; [done| |].
        -- apply Forall_singleton. split_and!; [split_and!; done|done|set_solver].
        -- intros _ j text' Hj Hget'. apply list_elem_of_singleton, doc_key_inj in Hj as ->. right. right.
           rewrite Hget in Hget'. simplify_eq. set_solver.
    + injection Hrun as <- <-. apply pass_skip; [done|split; [cbn; intros; by rewrite Hsame|done]|done|done].
  - injection Hrun as <- <-. apply pass_skip; [done|done|done|]. intros _ j text Hj Hg. apply doc_key_inj in Hj. congruence.
  - injection Hrun as <- <-. apply pass_skip; [done|done|done|]. intros _ j text Hj Hg. apply doc_key_inj in Hj. congruence.
Qed.

Lemma pass_start c keys s1 s f s' :
  (∀ d, excluded (sc_exclusion s) d ↔ excluded (sc_exclusion s1) d) →
  (∀ d, ledger_seen (sc_delivery s) d ↔ ledger_seen (sc_delivery s1) d) →
  sc_offered s1 = sc_offered s → pass c keys s1 f s' → pass c keys s f s'.
Proof.
  intros He Hl Ho (Hi & [Hle1 Hle2] & new & Hnew & Hf & Hc). split_and!; [done| |].
  - split; [intros d; by rewrite He|]. intros d Hd. apply Hle2. by apply Hl.
  - exists new. rewrite <-Ho. split_and!; [done| |].
    + eapply Forall_impl; [exact Hf|]. cbn. unfold fresh. intros ev. by rewrite He, Hl.
    + intros Hcont i text Hk Hg. rewrite He. eauto.
Qed.

Lemma scan_key_pass k c key s f s' :
  scan_key n deliver_effect observe k c key s = (f, s') → scan_inv s → pass c [key] s f s'.
Proof.
  intros Hrun Hinv. destruct Hinv as [Hie Hil]. unfold scan_key in Hrun.
  destruct (negb (can_scan _ k s)); [injection Hrun as <- <-; by apply pass_skip|].
  destruct (strip_prefix (c +:+ ":") key) as [i|] eqn:Hstrip.
  2: { injection Hrun as <- <-. apply pass_skip; [done..|]. intros _ i text Hk. apply strip_key in Hk. congruence. }
  apply strip_key in Hstrip as ->. set (d := document_digest c i) in *.
  pose proof (excl_contains_inv d _ Hie) as Hie'. pose proof (λ x, excl_contains_same d _ x Hie) as Hsame.
  pose proof (excl_contains_answer d (sc_exclusion s)) as Hans.
  destruct (excl_contains d (sc_exclusion s)) as [r e]. cbn in Hie', Hsame, Hans.
  destruct r as [[]|].
  - injection Hrun as <- <-. apply pass_skip; [done|split; [cbn; intros; by rewrite Hsame|done]|done|].
    intros _ j text Hj _. apply doc_key_inj in Hj as <-. left. by apply (Hans true Hie eq_refl).
  - cbn [sc_delivery with_ledgers] in Hrun.
    pose proof (lookup_inv d _ Hil) as Hil'. pose proof (λ x, lookup_seen d _ x Hil) as Hsame'.
    pose proof (lookup_answer d (sc_delivery s)) as Hans'.
    destruct (ledger_suppressed d (sc_delivery s)) as [r l]. cbn in Hil', Hsame', Hans'.
    assert (scan_le s (with_ledgers e l s)) as Hle.
    { split; cbn; [intros; by rewrite Hsame|]. intros x Hx. by apply Hsame'. }
    destruct r as [[]|].
    + injection Hrun as <- <-. apply pass_skip; [done|done|done|].
      intros _ j text Hj _. apply doc_key_inj in Hj as <-. right. cbn. apply Hsame'. by apply (Hans' true Hil eq_refl).
    + cbn [sc_exclusion with_ledgers] in Hrun.
      change (with_ledgers e l (with_ledgers e (sc_delivery s) s)) with (with_ledgers e l s) in Hrun.
      destruct (negb (can_scan _ (S k) _)); [injection Hrun as <- <-; by apply pass_skip|].
      apply (pass_start c _ (with_ledgers e l s)); [cbn; intros; by rewrite Hsame|cbn; intros; by rewrite Hsame'|done|].
      apply scan_candidate_pass; [exact Hrun|done| |].
      * cbn. rewrite Hsame. intros Hx. by apply (Hans false Hie eq_refl) in Hx.
      * cbn. rewrite Hsame'. intros Hx. by apply (Hans' false Hil eq_refl) in Hx.
    + injection Hrun as <- <-. by apply pass_skip.
  - injection Hrun as <- <-. apply pass_skip; [done|split; [cbn; intros; by rewrite Hsame|done]|done|done].
Qed.

Lemma fresh_mono s s1 ev : scan_le s s1 → fresh s1 ev → fresh s ev.
Proof. intros [He Hl] (H1 & H2 & H3). split_and!; [by rewrite He|naive_solver|done]. Qed.

Lemma scan_le_trans s1 s2 s3 : scan_le s1 s2 → scan_le s2 s3 → scan_le s1 s3.
Proof. intros [E1 L1] [E2 L2]. split; [intros d; by rewrite E1|auto]. Qed.

Lemma pass_app c keys1 keys2 s s1 f s2 :
  pass c keys1 s Continue s1 → pass c keys2 s1 f s2 → pass c (keys1 ++ keys2) s f s2.
Proof.
  intros (_ & Hle1 & new1 & E1 & F1 & C1) (Hi2 & Hle2 & new2 & E2 & F2 & C2).
  split_and!; [done|by eapply scan_le_trans|]. exists (new1 ++ new2). rewrite E2, E1, app_assoc. split_and!; [done| |].
  - apply Forall_app. split; (eapply Forall_impl; [done|]); cbn; intros ev (Hf & Hc & Hk).
    + split_and!; [done..|]. set_solver.
    + split_and!; [by eapply fresh_mono|done|]. set_solver.
  - intros Hf i text Hk Hg. destruct Hle1 as [He1 _], Hle2 as [_ Hl2]. apply elem_of_app in Hk as [Hk|Hk].
    + destruct (C1 eq_refl i text Hk Hg) as [?|[?|?]]; [auto|auto|]. right. right. set_solver.
    + destruct (C2 Hf i text Hk Hg) as [Hx|[?|?]]; [left; by apply He1|auto|]. right. right. set_solver.
Qed.

Lemma pass_return c keys1 keys2 s s' : pass c keys1 s Return s' → pass c (keys1 ++ keys2) s Return s'.
Proof.
  intros (Hi & Hle & new & E1 & F1 & _). split_and!; [done|done|]. exists new. split_and!; [done| |done].
  eapply Forall_impl; [exact F1|]. cbn. intros ev (? & ? & ?). split_and!; [done..|]. set_solver.
Qed.

Lemma scan_keys_pass k c keys s k' f s' :
  scan_keys n deliver_effect observe k c keys s = (k', f, s') → scan_inv s → pass c keys s f s'.
Proof.
  revert k s. induction keys as [|key keys IH]; intros k s Hrun Hinv; cbn in Hrun.
  - injection Hrun as <- <- <-. split_and!; [done|done|]. exists []. rewrite app_nil_r. split_and!; [done|constructor|].
    intros _ i text Hk. by apply elem_of_nil in Hk.
  - destruct (scan_key _ _ _ k c key s) as [f1 s1] eqn:Hkey. apply scan_key_pass in Hkey; [|done].
    destruct f1.
    + apply (pass_app c [key] keys s s1); [done|]. eapply IH; [exact Hrun|]. by destruct Hkey.
    + injection Hrun as <- <- <-. by apply (pass_return c [key]).
Qed.

(** What a pass over mappings guarantees. *)
Definition whole_pass (mappings : list SubjectMapping) s (f : Flow) s' : Prop :=
  scan_inv s' ∧ scan_le s s' ∧ ∃ new, sc_offered s' = sc_offered s ++ new ∧
    Forall (λ ev, fresh s ev ∧ ∃ keys, ev_collection ev ∈ collection <$> mappings ∧
      keys_with_prefix (ev_collection ev +:+ ":") (nd_store n) = Some keys ∧ doc_key (ev_collection ev) (ev_doc_id ev) ∈ keys) new ∧
    (f = Continue → ∀ c keys i text, c ∈ collection <$> mappings → keys_with_prefix (c +:+ ":") (nd_store n) = Some keys →
       doc_key c i ∈ keys → get_bridge_document c i n = Ok (Some text) →
       excluded (sc_exclusion s) (document_digest c i) ∨ ledger_seen (sc_delivery s') (document_digest c i) ∨ mkEvent c i "" text ∈ new).

Lemma scan_once_pass k mappings s f s' :
  scan_once n deliver_effect observe k mappings s = (f, s') → scan_inv s → whole_pass mappings s f s'.
Proof.
  revert k s. induction mappings as [|m mappings IH]; intros k s Hrun Hinv; cbn in Hrun.
  { injection Hrun as <- <-. split_and!; [done|done|]. exists []. rewrite app_nil_r. split_and!; [done|constructor|].
    intros _ c keys i text Hc. by apply elem_of_nil in Hc. }
  assert (∀ s1, scan_inv s1 → scan_le s s1 → sc_offered s1 = sc_offered s → whole_pass (m :: mappings) s Return s1) as Hstop.
  { intros s1 Hi Hle Ho. split_and!; [done|done|]. exists []. rewrite app_nil_r. split_and!; [done|constructor|done]. }
  destruct (negb (can_scan _ k s)); [injection Hrun as <- <-; by apply Hstop|].
  destruct (keys_with_prefix _ _) as [keys|] eqn:Hkeys; [|injection Hrun as <- <-; by apply Hstop].
  destruct (scan_keys _ _ _ (S k) (collection m) keys s) as [[k1 f1] s1] eqn:Hscan.
  apply scan_keys_pass in Hscan as (Hi1 & Hle1 & new1 & E1 & F1 & C1); [|done].
  assert (Forall (λ ev, fresh s ev ∧ ∃ keys, ev_collection ev ∈ collection <$> m :: mappings ∧
      keys_with_prefix (ev_collection ev +:+ ":") (nd_store n) = Some keys ∧ doc_key (ev_collection ev) (ev_doc_id ev) ∈ keys) new1) as F1'.
  { eapply Forall_impl; [exact F1|]. cbn. intros ev (Hf & Heq & Hk). split; [done|]. exists keys. rewrite Heq.
    split_and!; [left|done|done]. }
  destruct f1.
  - destruct (IH _ _ Hrun Hi1) as (Hi2 & Hle2 & new2 & E2 & F2 & C2).
    split_and!; [done|by eapply scan_le_trans|]. exists (new1 ++ new2). rewrite E2, E1, app_assoc. split_and!; [done| |].
    + apply Forall_app. split; [done|]. eapply Forall_impl; [exact F2|]. cbn. intros ev (Hf & ks & Hc & ?).
      split; [by eapply fresh_mono|]. exists ks. split; [set_solver|done].
    + intros Hf c ks i text Hc Hks Hk Hg. cbn in Hc. destruct Hle1 as [He1 _], Hle2 as [_ Hl2].
      apply elem_of_cons in Hc as [->|Hc].
      * rewrite Hkeys in Hks. simplify_eq. destruct (C1 eq_refl i text Hk Hg) as [?|[?|?]]; [auto|auto|]. right. right. set_solver.
      * destruct (C2 Hf c ks i text Hc Hks Hk Hg) as [Hx|[?|?]]; [left; by apply He1|auto|]. right. right. set_solver.
  - injection Hrun as <- <-. split_and!; [done|done|]. exists new1. split_and!; [done|done|done].
Qed.

(** [C13] A reconciliation pass is sound and complete: everything it offers is a listed
    document of a mapped collection, with the text the bounded read gives, that was
    neither locally excluded nor known to the delivery journal when the pass began; and
    when it runs to the end, every listed document of a mapped collection that reads
    has been offered, or is locally excluded, or is known to the delivery journal. *)
Theorem scan_once_exact mappings s f s' :
  scan_once n deliver_effect observe 0 mappings s = (f, s') → excl_inv (sc_exclusion s) → ledger_inv (sc_delivery s) →
  sc_offered s = [] →
  Forall (λ ev, ¬ excluded (sc_exclusion s) (document_digest (ev_collection ev) (ev_doc_id ev)) ∧
    ¬ ledger_seen (sc_delivery s) (document_digest (ev_collection ev) (ev_doc_id ev)) ∧
    get_bridge_document (ev_collection ev) (ev_doc_id ev) n = Ok (Some (ev_json_data ev)) ∧
    ∃ keys, ev_collection ev ∈ collection <$> mappings ∧ keys_with_prefix (ev_collection ev +:+ ":") (nd_store n) = Some keys ∧
      doc_key (ev_collection ev) (ev_doc_id ev) ∈ keys) (sc_offered s') ∧
  (f = Continue → ∀ c keys i text, c ∈ collection <$> mappings → keys_with_prefix (c +:+ ":") (nd_store n) = Some keys →
     doc_key c i ∈ keys → get_bridge_document c i n = Ok (Some text) →
     excluded (sc_exclusion s) (document_digest c i) ∨ ledger_seen (sc_delivery s') (document_digest c i) ∨
     mkEvent c i "" text ∈ sc_offered s').
Proof.
  intros Hrun He Hl Ho. destruct (scan_once_pass _ _ _ _ _ Hrun (conj He Hl)) as (_ & _ & new & E1 & F1 & C1).
  rewrite Ho in E1. cbn in E1. rewrite E1. split; [|done].
  eapply Forall_impl; [exact F1|]. cbn. intros ev ((? & ? & ?) & Hk). by split_and!.
Qed.

End scan_facts.

(** ** Witnesses *)

#[local] Existing Instances toy_sha toy_cipher toy_docs toy_doc_store.

(** A document that arrived by replication, and one written locally. *)
Definition toy_replica : Node (gmap string string) (Worker * Fs) :=
  let n := (put_document [] "frames" "a" "{}" (toy_node None)).2 in
  with_store (<["frames:b"%string := "{}"%string]> (nd_store n)) n.

Definition toy_scan : Scan (Worker * Fs) (Worker * Fs) :=
  mkScan (default toy_exclusion (exclusion_of toy_replica)) toy_delivery toy_status 0 0 0 [].

Definition toy_effect (ev : BridgeChangeEvent) (l : Worker * Fs) : Worker * Fs := (ledger_reserve (event_digest ev) l).2.

Definition toy_observe (k : nat) (b : BridgeStatus) : Observation := mkObs false b.

Definition toy_scanned : Flow * Scan (Worker * Fs) (Worker * Fs) :=
  scan_once toy_replica toy_effect toy_observe 0 [mkMapping "tracks.up" "frames"] toy_scan.

Lemma scan_once_exact_witness :
  sc_offered toy_scanned.2 = [mkEvent "frames" "b" "" "{}"] ∧
  Forall (λ ev, ¬ excluded (sc_exclusion toy_scan) (document_digest (ev_collection ev) (ev_doc_id ev))) (sc_offered toy_scanned.2).
Proof.
  split; [vm_compute; reflexivity|]. destruct toy_scanned as [f s'] eqn:Hrun.
  destruct (scan_once_exact toy_replica toy_effect toy_observe) with (mappings := [mkMapping "tracks.up" "frames"]) (s := toy_scan)
    (f := f) (s' := s') as [Hf _].
  - intros ev l. apply reserve_inv.
  - intros ev l d. apply reserve_mono.
  - exact Hrun.
  - vm_compute. reflexivity.
  - exact toy_delivery_inv.
  - reflexivity.
  - eapply Forall_impl; [exact Hf|]. intros ev Hev. apply Hev.
Defined.
