(* ===== verification/Json.v ===== *)
(** * JSON values

    The JSON library is a parameter of the development. A [Value] has
    serde_json's variants, with an object's entries as a list without repeated
    keys; numbers are the library's, with their integer and [f64] views, and an
    [f64] is a [spec_float]. [JsonLib] has the operations the code calls and
    [JsonLaws] what serde_json documents of them. *)

From S2P Require Import Prelude.
From Stdlib Require Import Floats.SpecFloat.

Inductive Value (N : Type) : Type :=
| VNull
| VBool (b : bool)
| VNumber (n : N)
| VString (s : string)
| VArray (vs : list (Value N))
| VObject (entries : list (string * Value N)).
Arguments VNull {N}. Arguments VBool {N}. Arguments VNumber {N}.
Arguments VString {N}. Arguments VArray {N}. Arguments VObject {N}.

Class JsonLib := {
  JNumber : Type;
  (** [Number::as_f64], [as_i64], [as_u64] *)
  as_f64 : JNumber → option spec_float;
  as_i64 : JNumber → option Z;
  as_u64 : JNumber → option Z;
  (** [Number::from] on integers and [Number::from_f64], [None] when not finite *)
  of_int : Z → JNumber;
  of_f64 : spec_float → option JNumber;
  (** [PartialEq for Value] *)
  value_eqb : Value JNumber → Value JNumber → bool;
  (** [serde_json::from_str] and [to_string] on values *)
  from_str : string → result string (Value JNumber);
  to_string : Value JNumber → string;
}.

Section json.
Context `{J : JsonLib}.
Abbreviation value := (Value JNumber).

Fixpoint entry_get (field : string) (entries : list (string * value)) : option value :=
  match entries with
  | [] => None
  | (k, v) :: rest => if bool_decide (k = field) then Some v else entry_get field rest
  end.

(** [Value::get] with a string key *)
Definition value_get (field : string) (v : value) : option value :=
  match v with
  | VObject entries => entry_get field entries
  | _ => None
  end.

(** [v[field]]: [Null] when there is no such entry *)
Definition value_index (v : value) (field : string) : value := default VNull (value_get field v).

Definition value_as_str (v : value) : option string := match v with VString s => Some s | _ => None end.
Definition value_as_array (v : value) : option (list value) := match v with VArray vs => Some vs | _ => None end.
Definition value_as_f64 (v : value) : option spec_float := match v with VNumber n => as_f64 n | _ => None end.
Definition value_as_i64 (v : value) : option Z := match v with VNumber n => as_i64 n | _ => None end.
Definition value_as_u64 (v : value) : option Z := match v with VNumber n => as_u64 n | _ => None end.

(** [json!] of a string, an integer, a float and an optional value *)
Definition json_f64 (x : spec_float) : value := match of_f64 x with Some n => VNumber n | None => VNull end.
Definition json_int (z : Z) : value := VNumber (of_int z).
Definition json_option {A} (f : A → value) (o : option A) : value := match o with Some a => f a | None => VNull end.

End json.

Definition I64_MIN : Z := - 2 ^ 63.
Definition I64_MAX : Z := 2 ^ 63 - 1.

(** What a finite float is: the ones [Number::from_f64] accepts. *)
Definition is_finite (x : spec_float) : bool :=
  match x with S754_zero _ | S754_finite _ _ _ => true | _ => false end.

Class JsonLaws `{JsonLib} := {
  as_f64_of_f64 x n : of_f64 x = Some n → as_f64 n = Some x;
  of_f64_finite x : is_finite x = true ↔ is_Some (of_f64 x);
  as_i64_of_int z : I64_MIN ≤ z ≤ I64_MAX → as_i64 (of_int z) = Some z;
  as_u64_of_int z : is_u64 z → as_u64 (of_int z) = Some z;
}.

(** The text of an object parses to an object with the same entries. Nesting and
    the precision of the library's float parser make this a property of the
    value and not a law. *)
Definition text_faithful `{JsonLib} (v : Value JNumber) : Prop :=
  ∃ v', from_str (to_string v) = Ok v' ∧ ∀ field, value_get field v' = value_get field v.

(** ** A concrete library over a table of texts

    Numbers are integers or floats, kept apart by equality as serde_json keeps
    them. *)

Inductive ToyNumber := JInt (z : Z) | JFloat (x : spec_float).

Definition toy_int_to_f64 (z : Z) : spec_float :=
  binary_normalize 53 1024 z 0 false.

Definition toy_json (table : string → option (Value ToyNumber)) (print : Value ToyNumber → string) : JsonLib := {|
  JNumber := ToyNumber;
  as_f64 n := match n with JInt z => Some (toy_int_to_f64 z) | JFloat x => Some x end;
  as_i64 n := match n with JInt z => if (I64_MIN <=? z) && (z <=? I64_MAX) then Some z else None | _ => None end;
  as_u64 n := match n with JInt z => if (0 <=? z) && (z <=? U64_MAX) then Some z else None | _ => None end;
  of_int := JInt;
  of_f64 x := if is_finite x then Some (JFloat x) else None;
  value_eqb v w :=
    match v, w with
    | VNumber (JInt a), VNumber (JInt b) => a =? b
    | VNumber (JFloat a), VNumber (JFloat b) => match SFcompare a b with Some Eq => true | _ => false end
    | VString a, VString b => bool_decide (a = b)
    | VBool a, VBool b => Bool.eqb a b
    | VNull, VNull => true
    | _, _ => false
    end;
  from_str s := match table s with Some v => Ok v | None => Err "invalid"%string end;
  to_string := print;
|}.

Lemma toy_json_laws table print : @JsonLaws (toy_json table print).
Proof.
  split.
  - intros x n. cbn. destruct (is_finite x); intros; by simplify_eq.
  - intros x. cbn. destruct (is_finite x); split; intros H; eauto; [done|by destruct H].
  - intros z [? ?]. cbn. rewrite !(proj2 (Z.leb_le _ _)) by done. done.
  - intros z [? ?]. cbn. rewrite !(proj2 (Z.leb_le _ _)) by done. done.
Qed.
