(* ===== verification/Query.v ===== *)
(** * Subscription queries

    Model of [src/query.rs]: the wire query ([SubscriptionQuery], a oneof node
    that may be unset), the validated [Matcher] built from it under a depth
    limit, its evaluation on a document, and the per-event decision of a
    subscription.

    Strings compare by their bytes, as Rust's do, and numbers by their [f64]
    views with IEEE 754's comparison. *)

From S2P Require Import Prelude Json.
From Stdlib Require Import Floats.SpecFloat Strings.String.

(** ** The wire query *)

Inductive SubscriptionQuery : Type :=
| QUnset
| QAll
| QEq (field value : string)
| QLt (field value : string)
| QGt (field value : string)
| QAnd (clauses : list SubscriptionQuery)
| QOr (clauses : list SubscriptionQuery)
| QNot (inner : SubscriptionQuery).

Section query_ind.
Variable P : SubscriptionQuery → Prop.
Hypotheses (Hunset : P QUnset) (Hall : P QAll) (Heq : ∀ f v, P (QEq f v)) (Hlt : ∀ f v, P (QLt f v))
  (Hgt : ∀ f v, P (QGt f v)) (Hand : ∀ cs, Forall P cs → P (QAnd cs)) (Hor : ∀ cs, Forall P cs → P (QOr cs))
  (Hnot : ∀ q, P q → P (QNot q)).

(** Induction with a hypothesis for every clause. *)
Fixpoint query_ind' (q : SubscriptionQuery) : P q :=
  let fix go (cs : list SubscriptionQuery) : Forall P cs :=
    match cs with
    | [] => Forall_nil_2 P
    | c :: cs' => Forall_cons_2 P c cs' (query_ind' c) (go cs')
    end in
  match q with
  | QUnset => Hunset
  | QAll => Hall
  | QEq f v => Heq f v
  | QLt f v => Hlt f v
  | QGt f v => Hgt f v
  | QAnd cs => Hand cs (go cs)
  | QOr cs => Hor cs (go cs)
  | QNot q' => Hnot q' (query_ind' q')
  end.
End query_ind.

Definition MAX_DEPTH : nat := 16.

Inductive QueryError :=
| EmptyNode
| InvalidJsonValue (raw message : string)
| EmptyField
| TooDeep (limit : nat).

Definition validate_field (field : string) : result QueryError string :=
  if is_empty_str field then Err EmptyField else Ok field.

Section query.
Context `{J : JsonLib}.

Inductive Matcher : Type :=
| MAll
| MEq (field : string) (value : Value JNumber)
| MLt (field : string) (value : Value JNumber)
| MGt (field : string) (value : Value JNumber)
| MAnd (clauses : list Matcher)
| MOr (clauses : list Matcher)
| MNot (inner : Matcher).

Definition parse_value (raw : string) : result QueryError (Value JNumber) :=
  map_err (InvalidJsonValue raw) (from_str raw).

(** [Matcher::build]; [depth] is the [u8] that counts down. *)
Fixpoint build (depth : nat) (q : SubscriptionQuery) : result QueryError Matcher :=
  match depth with
  | O => Err (TooDeep MAX_DEPTH)
  | S depth' =>
      match q with
      | QUnset => Err EmptyNode
      | QAll => Ok MAll
      | QEq field value =>
          let? field := validate_field field in
          let? value := parse_value value in
          Ok (MEq field value)
      | QLt field value =>
          let? field := validate_field field in
          let? value := parse_value value in
          Ok (MLt field value)
      | QGt field value =>
          let? field := validate_field field in
          let? value := parse_value value in
          Ok (MGt field value)
      | QAnd clauses => map_ok MAnd (collect_results (build depth') clauses)
      | QOr clauses => map_ok MOr (collect_results (build depth') clauses)
      | QNot inner => map_ok MNot (build depth' inner)
      end
  end.

Definition from_proto (q : SubscriptionQuery) : result QueryError Matcher := build MAX_DEPTH q.

Definition json_eq (a b : Value JNumber) : bool := value_eqb a b.

Definition compare (a b : Value JNumber) : option comparison :=
  match a, b with
  | VString x, VString y => Some (String.compare x y)
  | VNumber x, VNumber y =>
      x ← as_f64 x;
      y ← as_f64 y;
      SFcompare x y
  | _, _ => None
  end.

Fixpoint eval (m : Matcher) (doc : Value JNumber) : bool :=
  match m with
  | MAll => true
  | MEq field value => match value_get field doc with Some v => json_eq v value | None => false end
  | MLt field value =>
      match v ← value_get field doc; compare v value with Some Lt => true | _ => false end
  | MGt field value =>
      match v ← value_get field doc; compare v value with Some Gt => true | _ => false end
  | MAnd clauses => forallb (λ m, eval m doc) clauses
  | MOr clauses => existsb (λ m, eval m doc) clauses
  | MNot inner => negb (eval inner doc)
  end.

Definition matches_upsert (m : Matcher) (json_data : string) : bool :=
  match from_str json_data with
  | Ok doc => eval m doc
  | Err _ => false
  end.

Definition event_passes (collections : list string) (matcher : option Matcher) (collection : string)
    (json_data : option string) : bool :=
  if negb (bool_decide (collections = [])) && negb (existsb (λ c, bool_decide (c = collection)) collections)
  then false
  else
    match matcher, json_data with
    | None, _ => true
    | Some _, None => true
    | Some m, Some data => matches_upsert m data
    end.

(** ** Specification

    What is wrong with a query, in the order of a depth-first walk from the
    root; a node below the limit is reported and not entered. *)
Definition leaf_defects (field value : string) : list QueryError :=
  if is_empty_str field then [EmptyField]
  else match from_str value with Ok _ => [] | Err message => [InvalidJsonValue value message] end.

Fixpoint defects (level : nat) (q : SubscriptionQuery) : list QueryError :=
  if Nat.leb MAX_DEPTH level then [TooDeep MAX_DEPTH]
  else
    match q with
    | QUnset => [EmptyNode]
    | QAll => []
    | QEq field value | QLt field value | QGt field value => leaf_defects field value
    | QAnd clauses | QOr clauses => flat_map (defects (S level)) clauses
    | QNot inner => defects (S level) inner
    end.

(** The number of nodes on the longest path. *)
Fixpoint height (q : SubscriptionQuery) : nat :=
  match q with
  | QAnd clauses | QOr clauses => S (foldr (λ c n, Nat.max (height c) n) O clauses)
  | QNot inner => S (height inner)
  | _ => 1%nat
  end.

(** What a query says of a document, on the query itself. *)
Definition orders (want : comparison) (field value : string) (doc : Value JNumber) : Prop :=
  ∃ v w, value_get field doc = Some v ∧ from_str value = Ok w ∧
    match v, w with
    | VString x, VString y => String.compare x y = want
    | VNumber x, VNumber y => ∃ fx fy, as_f64 x = Some fx ∧ as_f64 y = Some fy ∧ SFcompare fx fy = Some want
    | _, _ => False
    end.

Fixpoint holds (q : SubscriptionQuery) (doc : Value JNumber) : Prop :=
  match q with
  | QUnset => False
  | QAll => True
  | QEq field value => ∃ v w, value_get field doc = Some v ∧ from_str value = Ok w ∧ value_eqb v w = true
  | QLt field value => orders Lt field value doc
  | QGt field value => orders Gt field value doc
  | QAnd clauses => foldr (λ c P, holds c doc ∧ P) True clauses
  | QOr clauses => foldr (λ c P, holds c doc ∨ P) False clauses
  | QNot inner => ¬ holds inner doc
  end.

(** ** Lemmas *)

Lemma collect_results_defects {A B} (f : A → result QueryError B) (g : A → list QueryError) l :
  (∀ a, a ∈ l → match g a with [] => is_ok (f a) = true | e :: _ => f a = Err e end) →
  match flat_map g l with
  | [] => is_ok (collect_results f l) = true
  | e :: _ => collect_results f l = Err e
  end.
Proof.
  induction l as [|a l IH]; intros H; cbn; [done|].
  pose proof (H a (list_elem_of_here _ _)) as Ha.
  specialize (IH (λ b Hb, H b (list_elem_of_further _ _ _ Hb))).
  destruct (g a) as [|e es]; cbn; [|by rewrite Ha].
  destruct (f a) as [b|]; [|done].
  destruct (flat_map g l); [|by rewrite IH]. by destruct (collect_results f l).
Qed.

Lemma leaf_ok {M} (mk : string → Value JNumber → M) field value :
  let r := (let? field := validate_field field in let? value := parse_value value in Ok (mk field value)) in
  match leaf_defects field value with
  | [] => is_ok r = true
  | e :: _ => r = Err e
  end.
Proof.
  unfold leaf_defects, validate_field, parse_value. destruct (is_empty_str field); [done|].
  by destruct (from_str value).
Qed.

Lemma build_defects q level :
  (level ≤ MAX_DEPTH)%nat →
  match defects level q with
  | [] => is_ok (build (MAX_DEPTH - level) q) = true
  | e :: _ => build (MAX_DEPTH - level) q = Err e
  end.
Proof.
  revert level. induction q as [| |f v|f v|f v|cs IH|cs IH|q IH] using query_ind'; intros level Hl.
  all: assert (MAX_DEPTH - level = O ∧ Nat.leb MAX_DEPTH level = true ∨
               ∃ d, MAX_DEPTH - level = S d ∧ d = (MAX_DEPTH - S level)%nat ∧ (S level ≤ MAX_DEPTH)%nat ∧
                    Nat.leb MAX_DEPTH level = false)%nat as [[Hd Hb]|(d & Hd & Hd' & Hl' & Hb)]
         by (destruct (Nat.leb_spec MAX_DEPTH level); [left; lia|right; eexists; split_and!; eauto; lia]).
  all: cbn [defects]; rewrite Hb, Hd; cbn [build]; try done; try apply leaf_ok.
  1-2: rewrite Forall_forall in IH; pose proof (collect_results_defects (build d) (defects (S level)) cs) as H;
    destruct (flat_map _ _); [|rewrite H; [done|]; intros; rewrite Hd'; by apply IH];
    unfold map_ok; destruct (collect_results _ _); [done|]; apply H; intros; rewrite Hd'; by apply IH.
  specialize (IH (S level) Hl'). rewrite Hd'. unfold map_ok.
  destruct (defects (S level) q); [by destruct (build _ q)|by rewrite IH].
Qed.

(** The limit is on the height and on nothing else. *)
Lemma too_deep_defects q level :
  (level ≤ MAX_DEPTH)%nat → TooDeep MAX_DEPTH ∈ defects level q ↔ (MAX_DEPTH < level + height q)%nat.
Proof.
  revert level. induction q as [| |f v|f v|f v|cs IH|cs IH|q IH] using query_ind'; intros level Hl.
  all: cbn [defects height]; destruct (Nat.leb_spec MAX_DEPTH level) as [|Hlt];
    try (rewrite list_elem_of_singleton; split; [intros _; lia|done]).
  1-2: split; [set_solver|lia].
  1-3: unfold leaf_defects; split; [|lia]; destruct (is_empty_str f); [set_solver|];
    destruct (from_str v); set_solver.
  1-2: transitivity (∃ c, c ∈ cs ∧ (MAX_DEPTH < S level + height c)%nat);
    [rewrite list_elem_of_In, in_flat_map; setoid_rewrite <-list_elem_of_In;
     rewrite Forall_forall in IH; split; intros (c & Hc & H); exists c; split; [done| |done|]; by apply IH
    |clear IH; induction cs as [|c cs IHcs]; cbn [foldr];
     [split; [intros (? & ?%elem_of_nil & _); done|lia]|]].
  1-2: setoid_rewrite elem_of_cons; split; [intros (c' & [->|Hc'] & H); [lia|]|].
  1,3: destruct IHcs as [IHcs _]; specialize (IHcs (ex_intro _ c' (conj Hc' H))); lia.
  1-2: intros H; destruct (decide (MAX_DEPTH < S level + height c)%nat); [exists c; auto|];
    destruct IHcs as [_ IHcs]; destruct IHcs as (c' & ? & ?); [lia|]; exists c'; auto.
  rewrite IH by lia. lia.
Qed.

Lemma leaf_inv {M} (mk : string → Value JNumber → M) field value m :
  (let? field := validate_field field in let? value := parse_value value in Ok (mk field value)) = Ok m →
  ∃ w, from_str value = Ok w ∧ m = mk field w.
Proof.
  unfold validate_field, parse_value, map_err. destruct (is_empty_str field); [done|].
  destruct (from_str value); intros; simplify_eq. eauto.
Qed.

Lemma compare_orders field value doc w want :
  from_str value = Ok w →
  (v ← value_get field doc; compare v w) = Some want ↔ orders want field value doc.
Proof.
  intros Hw. unfold orders. split.
  - intros H. destruct (value_get field doc) as [v|]; [|done]. exists v, w. split_and!; [done..|].
    cbn in H. destruct v, w; try done; cbn in H; [|by simplify_eq].
    destruct (as_f64 n) as [x|] eqn:?; [|done]. cbn in H. destruct (as_f64 n0) as [y|] eqn:?; [|done]. eauto.
  - intros (v & w' & Hv & Hw' & H). rewrite Hw in Hw'. simplify_eq. rewrite Hv. cbn. destruct v, w'; try done; cbn in *; [|congruence].
    destruct H as (x & y & Hx & Hy & H). cbn. by rewrite Hx, Hy.
Qed.

Lemma collect_results_Forall2 {E A B} (f : A → result E B) l bs :
  collect_results f l = Ok bs → Forall2 (λ a b, f a = Ok b) l bs.
Proof.
  revert bs. induction l as [|a l IH]; intros bs H; cbn in H; [simplify_eq; constructor|].
  destruct (f a) eqn:Ha; [|done]. destruct (collect_results f l); [|done]. simplify_eq. constructor; auto.
Qed.

Lemma eval_holds q depth m doc : build depth q = Ok m → eval m doc = true ↔ holds q doc.
Proof.
  revert depth m. induction q as [| |f v|f v|f v|cs IH|cs IH|q IH] using query_ind';
    intros [|depth] m H; cbn [build] in H; try done.
  - by simplify_eq.
  - apply leaf_inv in H as (w & Hw & ->). cbn. unfold json_eq.
    destruct (value_get f doc) as [d|]; [|split; [done|intros (? & ? & ? & _); done]].
    split; [intros; by exists d, w|intros (? & ? & ? & ? & ?); congruence].
  - apply leaf_inv in H as (w & Hw & ->). cbn. rewrite <-(compare_orders f v doc w Lt Hw).
    by destruct (_ ≫= _) as [[]|].
  - apply leaf_inv in H as (w & Hw & ->). cbn. rewrite <-(compare_orders f v doc w Gt Hw).
    by destruct (_ ≫= _) as [[]|].
  - destruct (collect_results (build depth) cs) as [ms|] eqn:Hc; [|done]. cbn in H. simplify_eq.
    apply collect_results_Forall2 in Hc. cbn [eval holds]. induction Hc as [|c m cs ms Hm _ IHc]; cbn; [done|].
    inversion_clear IH. rewrite andb_true_iff, IHc by done. by rewrite H.
  - destruct (collect_results (build depth) cs) as [ms|] eqn:Hc; [|done]. cbn in H. simplify_eq.
    apply collect_results_Forall2 in Hc. cbn [eval holds]. induction Hc as [|c m cs ms Hm _ IHc]; cbn; [done|].
    inversion_clear IH. rewrite orb_true_iff, IHc by done. by rewrite H.
  - destruct (build depth q) eqn:Hq; [|done]. cbn in H. simplify_eq. cbn. rewrite negb_true_iff, <-(IH _ _ Hq).
    destruct (eval _ doc); intuition congruence.
Qed.

Lemma from_proto_build q : from_proto q = build MAX_DEPTH q.
Proof. unfold from_proto. reflexivity. Qed.

(** ** Properties *)

(** A subscription query is accepted exactly when a depth-first walk finds
    nothing wrong with it, the error returned is the first one of the walk, the
    nesting error occurs exactly for queries of more than sixteen levels, and an
    accepted query's matcher decides what the query says of a document. *)
Theorem from_proto_exact q :
  match defects 0 q with
  | [] => ∃ m, from_proto q = Ok m ∧ ∀ doc, eval m doc = true ↔ holds q doc
  | e :: _ => from_proto q = Err e
  end ∧ (TooDeep MAX_DEPTH ∈ defects 0 q ↔ (MAX_DEPTH < height q)%nat).
Proof.
  split; [|apply (too_deep_defects q 0); unfold MAX_DEPTH; lia].
  pose proof (build_defects q 0 ltac:(unfold MAX_DEPTH; lia)) as H. unfold from_proto.
  replace (MAX_DEPTH - 0)%nat with MAX_DEPTH in H by (unfold MAX_DEPTH; lia).
  destruct (defects 0 q); [|done]. destruct (build MAX_DEPTH q) as [m|] eqn:Hb; [|done].
  exists m. split; [done|]. intros doc. by eapply eval_holds.
Qed.

(** An event reaches a subscriber exactly when its collection is one of the
    requested ones (or none was named) and, if it is an upsert and a query was
    given, its payload is JSON of which the query holds; deletions pass whatever
    the query. *)
Theorem event_passes_exact collections q matcher collection data :
  match q with Some q => ∃ m, from_proto q = Ok m ∧ matcher = Some m | None => matcher = None end →
  event_passes collections matcher collection data = true ↔
  (collections = [] ∨ collection ∈ collections) ∧
  ∀ query text, q = Some query → data = Some text → ∃ doc, from_str text = Ok doc ∧ holds query doc.
Proof.
  intros Hm. unfold event_passes.
  assert (negb (bool_decide (collections = [])) && negb (existsb (λ c, bool_decide (c = collection)) collections) = false
          ↔ collections = [] ∨ collection ∈ collections) as Hc.
  { rewrite andb_false_iff, !negb_false_iff, bool_decide_eq_true. apply or_iff_compat_l.
    rewrite existsb_exists. split.
    - intros (c & Hin & ->%bool_decide_eq_true). by apply list_elem_of_In.
    - intros Hin. exists collection. rewrite bool_decide_eq_true. by split; [apply list_elem_of_In|]. }
  destruct (negb _ && negb _) eqn:Hb; [split; [done|]; intros [Hin _]; by apply Hc in Hin|].
  apply proj1 in Hc. specialize (Hc eq_refl).
  transitivity (∀ query text, q = Some query → data = Some text → ∃ doc, from_str text = Ok doc ∧ holds query doc);
    [|split; [intros H; exact (conj Hc H)|intros [_ H]; exact H]].
  destruct q as [q|]; [destruct Hm as (m & Hm & ->)|subst; split; [discriminate|reflexivity]].
  destruct data as [text|]; [|split; [discriminate|reflexivity]]. unfold matches_upsert. destruct (from_str text) as [doc|] eqn:Ht.
  - rewrite from_proto_build in Hm. rewrite (eval_holds q MAX_DEPTH m doc Hm). split; [intros; simplify_eq; eauto|intros H].
    destruct (H q text eq_refl eq_refl) as (d & ? & ?). congruence.
  - split; [done|]. intros H. destruct (H q text eq_refl eq_refl) as (d & ? & ?). congruence.
Qed.

End query.

(** ** Evaluation *)

Definition toy_texts (s : string) : option (Value ToyNumber) :=
  if bool_decide (s = "5"%string) then Some (VNumber (JInt 5))
  else if bool_decide (s = "{speed:4.5}"%string) then Some (VObject [("speed", VNumber (JFloat (S754_finite false 5066549580791808 (-50))))])
  else None.

Definition toy_lib : JsonLib := toy_json toy_texts (λ _, "").

Definition slow_query : SubscriptionQuery := QAnd [QLt "speed" "5"; QNot (QEq "speed" "5")].
Definition slow_matcher : Matcher (J := toy_lib) :=
  MAnd (J := toy_lib) [MLt (J := toy_lib) "speed" (VNumber (JInt 5)); MNot (J := toy_lib) (MEq (J := toy_lib) "speed" (VNumber (JInt 5)))].

Lemma event_passes_exact_witness :
  event_passes (J := toy_lib) ["tracks"] (Some slow_matcher) "tracks" (Some "{speed:4.5}") = true ∧
  event_passes (J := toy_lib) ["tracks"] (Some slow_matcher) "nodes" (Some "{speed:4.5}") = false.
Proof.
  split; [|reflexivity].
  apply (event_passes_exact (J := toy_lib) ["tracks"] (Some slow_query)).
  - exists slow_matcher. split; reflexivity.
  - split; [right; apply list_elem_of_here|]. intros query text Hq Ht.
    injection Hq as <-. injection Ht as <-. eexists. split; [reflexivity|]. split.
    + eexists _, _. split_and!; [reflexivity..|]. eexists _, _. split_and!; reflexivity.
    + split; [|exact I]. intros (v & w & Hv & Hw & He).
      injection Hv as <-. injection Hw as <-. discriminate He.
Defined.
