(* ===== verification/Lifecycle.v ===== *)
(** * Connection lifecycle of the NATS bridge

    Model of the pure parts of [src/nats_bridge/runtime.rs]: the lifecycle
    snapshot that the client's callbacks drive, the barrier tags and the commit
    that validates them, the decisions on subscription generations, the log
    actions, the rate limits on outage and slow-consumer warnings, the retry
    delay, and the reader of one subscription. [Supervisor] composes them.

    Instants are nanoseconds on the monotonic clock, delays milliseconds. *)

From S2P Require Import Prelude Envelope Readiness RateLimit Egress NodeDocs Ingress Reconcile.

Definition RETRY_MIN : Z := 1000.
Definition RETRY_MAX : Z := 30000.
Definition OUTAGE_WARNING_INTERVAL : Z := 5 * 60 * 1000000000.
Definition SLOW_CONSUMER_WARNING_INTERVAL : Z := 60 * 1000000000.

(** ** Lifecycle snapshots *)

Inductive DeliveredLifecycleEvent := DlInitial | DlConnected | DlDisconnected | DlError.

#[global] Instance DeliveredLifecycleEvent_eq_dec : EqDecision DeliveredLifecycleEvent.
Proof. solve_decision. Defined.

Record LifecycleSnapshot := mkSnapshot {
  ls_sequence : Z;
  ls_connection_epoch : Z;
  ls_invalidation_epoch : Z;
  ls_connected : bool;
  ls_last_event : DeliveredLifecycleEvent;
  ls_connected_sequence : Z;
  ls_invalidation_sequence : Z;
}.

Definition snapshot_default : LifecycleSnapshot := mkSnapshot 0 0 0 false DlInitial 0 0.

(** [LifecycleControl::delivered], its two halves under the transition lock: the
    readiness update and the update of the snapshot. *)
Definition delivered_readiness (event : DeliveredLifecycleEvent) (s : BridgeStatus) : BridgeStatus :=
  match event with
  | DlConnected => (update SetConnected s).2
  | DlDisconnected => (update MarkDisconnected s).2
  | DlError => (update InvalidateSubscriptionGeneration s).2
  | DlInitial => s
  end.

Definition delivered_snapshot (event : DeliveredLifecycleEvent) (s : LifecycleSnapshot) : LifecycleSnapshot :=
  let sequence := saturating_add_u64 (ls_sequence s) 1 in
  match event with
  | DlConnected =>
      mkSnapshot sequence (saturating_add_u64 (ls_connection_epoch s) 1) (ls_invalidation_epoch s) true event
        sequence (ls_invalidation_sequence s)
  | DlDisconnected =>
      mkSnapshot sequence (ls_connection_epoch s) (saturating_add_u64 (ls_invalidation_epoch s) 1) false event
        (ls_connected_sequence s) sequence
  | DlError =>
      mkSnapshot sequence (ls_connection_epoch s) (saturating_add_u64 (ls_invalidation_epoch s) 1) (ls_connected s) event
        (ls_connected_sequence s) sequence
  | DlInitial => s
  end.

(** The callback's dispatch on the client's events; the others are not for the
    lifecycle. *)
Inductive ClientEvent := EvConnected | EvDisconnected | EvClosed | EvClientError | EvServerError | EvSlowConsumer | EvOther.

Definition callback_event (event : ClientEvent) : option DeliveredLifecycleEvent :=
  match event with
  | EvConnected => Some DlConnected
  | EvDisconnected | EvClosed => Some DlDisconnected
  | EvClientError | EvServerError => Some DlError
  | EvSlowConsumer | EvOther => None
  end.

(** ** Barriers *)

Record BarrierTags := mkTags {
  bt_connection_epoch : Z;
  bt_invalidation_epoch : Z;
  bt_generation_id : Z;
}.

Definition barrier_tags_match (tags : BarrierTags) (lifecycle : LifecycleSnapshot) (generation_id : option Z) : bool :=
  ls_connected lifecycle
  && (ls_connection_epoch lifecycle =? bt_connection_epoch tags)
  && (ls_invalidation_epoch lifecycle =? bt_invalidation_epoch tags)
  && bool_decide (generation_id = Some (bt_generation_id tags)).

Definition barrier_allowed_after_latest_delivery (lifecycle : LifecycleSnapshot) : bool :=
  ls_connected lifecycle && (ls_invalidation_sequence lifecycle <? ls_connected_sequence lifecycle).

(** [LifecycleControl::commit_barrier]: whether the bridge became ready, and the
    readiness after it. *)
Definition commit_barrier (tags : BarrierTags) (lifecycle : LifecycleSnapshot) (generation_id : option Z) (s : BridgeStatus)
  : bool * BridgeStatus :=
  if negb (barrier_tags_match tags lifecycle generation_id) then (false, s)
  else let '(t, s') := update MarkAllSubscriptionsEstablished s in (became_ready t, s').

Definition reconcile_reason_for_ready_generation (ready_generations : Z) : ReconcileReason :=
  if ready_generations =? 0 then StartupReady else ReconnectReady.

(** [start_barrier]: the tags of the attempt, if a generation is live *)
Definition start_barrier (generation : option Z) (lifecycle : LifecycleSnapshot) : option BarrierTags :=
  generation_id ← generation;
  Some (mkTags (ls_connection_epoch lifecycle) (ls_invalidation_epoch lifecycle) generation_id).

(** [broker_round_trip]: any answer, or the broker's word that nobody listens *)
Inductive RequestErrorKind := NoResponders | OtherRequestError.

Definition broker_round_trip (reply : result RequestErrorKind unit) : bool :=
  match reply with
  | Ok _ => true
  | Err NoResponders => true
  | Err _ => false
  end.

(** ** Generations *)

Inductive GenerationAction :=
| BuildAll (subject_count : nat)
| FlushRetained (generation_id : Z)
| RemoveOnly (generation_id : Z)
| RebuildAll (generation_id : Z) (subject_count : nat).

Definition connected_generation_action (generation : option Z) (subject_count : nat) : GenerationAction :=
  match generation with
  | Some id => FlushRetained id
  | None => BuildAll subject_count
  end.

Definition ended_generation_action (generation : option Z) (ended_generation_id : Z) (connected : bool) (subject_count : nat)
  : option GenerationAction :=
  id ← generation;
  if negb (id =? ended_generation_id) then None
  else if connected then Some (RebuildAll id subject_count)
  else Some (RemoveOnly id).

(** ** Log actions *)

Inductive LifecycleReason := Starting | BrokerUnavailable | SubscriptionsPending | Disconnected | Ready | RetryScheduled.

#[global] Instance LifecycleReason_eq_dec : EqDecision LifecycleReason.
Proof. solve_decision. Defined.

Definition reason_as_str (r : LifecycleReason) : string :=
  match r with
  | Starting => "starting"
  | BrokerUnavailable => "broker_unavailable"
  | SubscriptionsPending => "subscriptions_pending"
  | Disconnected => "disconnected"
  | Ready => "ready"
  | RetryScheduled => "retry_scheduled"
  end.

Definition disconnected_reason (lifecycle : LifecycleSnapshot) : LifecycleReason :=
  if ls_connection_epoch lifecycle =? 0 then BrokerUnavailable else Disconnected.

Record LifecycleAction := mkLifecycleAction {
  la_bridge_ready : bool;
  la_reason : LifecycleReason;
  la_host : string;
  la_port : Z;
  la_connected : bool;
  la_established : nat;
  la_expected : nat;
  la_retry_attempt : option Z;
  la_retry_delay_ms : option Z;
  la_error_kind : option string;
}.

Definition action_status (reason : LifecycleReason) (host : string) (port : Z) (s : BridgeStatus) : LifecycleAction :=
  mkLifecycleAction (is_ready s) reason host port (connected s) (size (established_subjects s)) (expected_subscriptions s)
    None None None.

Definition action_unavailable (host : string) (port : Z) (s : BridgeStatus) : LifecycleAction :=
  mkLifecycleAction (is_ready s) BrokerUnavailable host port (connected s) (size (established_subjects s))
    (expected_subscriptions s) None None (Some "connection_unavailable"%string).

(** [delay_ms] is [delay.as_millis()]. *)
Definition action_retry (host : string) (port attempt delay_ms : Z) : LifecycleAction :=
  mkLifecycleAction false RetryScheduled host port false 0 0 (Some attempt) (Some (Z.min delay_ms U64_MAX)) None.

(** ** Warning limits *)

(** [OutageLogState::next_warning] *)
Definition OutageLogState : Type := option Z.

Definition outage_begin (now : Z) (s : OutageLogState) : bool * OutageLogState :=
  match s with
  | Some _ => (false, s)
  | None => (true, Some (now + OUTAGE_WARNING_INTERVAL))
  end.

Definition outage_periodic_due (now : Z) (s : OutageLogState) : bool * OutageLogState :=
  match s with
  | Some deadline => if deadline <=? now then (true, Some (now + OUTAGE_WARNING_INTERVAL)) else (false, s)
  | None => (false, s)
  end.

Definition outage_recovered (s : OutageLogState) : OutageLogState := None.

(** [SlowConsumerLogState::next_warning] *)
Definition SlowConsumerLogState : Type := option Z.

Definition should_warn (now : Z) (s : SlowConsumerLogState) : bool * SlowConsumerLogState :=
  if match s with Some deadline => now <? deadline | None => false end then (false, s)
  else (true, Some (now + SLOW_CONSUMER_WARNING_INTERVAL)).

Record SlowConsumerAction := mkSlowConsumerAction { sa_host : string; sa_port : Z; sa_event_count : Z }.

Definition handle_slow_consumer (stats : IngressStats) (w : SlowConsumerLogState) (now : Z) (host : string) (port : Z)
  : IngressStats * SlowConsumerLogState * option SlowConsumerAction :=
  let stats := ingress_add i_slow_consumer_events stats in
  let '(warn, w') := should_warn now w in
  (stats, w', if warn then Some (mkSlowConsumerAction host port (stats i_slow_consumer_events)) else None).

(** ** Retry delay *)

Definition RETRY_SECONDS : list Z := [1; 2; 4; 8; 16; 30].

(** [nominal_retry_delay] in milliseconds; [None] is an index out of bounds.
    [attempt] is a [usize]. *)
Definition nominal_retry_delay (attempt : Z) : option Z :=
  s ← RETRY_SECONDS !! Z.to_nat (Z.min (Z.max (attempt - 1) 0) (Z.of_nat (length RETRY_SECONDS) - 1));
  Some (s * 1000).

Definition retry_delay (attempt jitter_percent : Z) : option Z :=
  nominal ← nominal_retry_delay attempt;
  let base_ms := Z.min nominal U64_MAX in
  let extra_ms := saturating_mul_u64 base_ms (Z.min jitter_percent 20) / 100 in
  Some (Z.min (Z.max (saturating_add_u64 base_ms extra_ms) RETRY_MIN) RETRY_MAX).

(** ** The reader of one subscription *)

(** A message as the client hands it over; a header map as its entries. *)
Record Message := mkMessage {
  m_subject : string;
  m_headers : option (list (string * string));
  m_payload : bytes;
}.

(** [HeaderMap::get_all] *)
Definition get_all (headers : list (string * string)) (name : string) : list string :=
  snd <$> filter (λ h, h.1 = name) headers.

Definition has_exact_own_origin (headers : option (list (string * string))) (local_node_id : string) : bool :=
  match headers with
  | None => false
  | Some headers =>
      match get_all headers BRIDGE_ORIGIN_HEADER with
      | [] => false
      | value :: rest => bool_decide (value = local_node_id) && bool_decide (rest = [])
      end
  end.

(** What a reader changes: the counters, the diagnostics and the shared queue. *)
Record Reader := mkReader {
  rd_stats : IngressStats;
  rd_diagnostics : IngressDiagnostics;
  rd_sent : list IngressItem;
}.

(** What a reader sees of the other tasks at one message: the accepting flag, the
    clock, and whether the queue's receiver still exists when the item is sent. *)
Record ReaderView := mkView { rv_accepting : bool; rv_now : Z; rv_queue_open : bool }.

Inductive ReaderFlow := ReaderContinue | ReaderEnd.

Definition read_message (collection local_node_id : string) (view : ReaderView) (m : Message) (r : Reader) : ReaderFlow * Reader :=
  if negb (rv_accepting view) then (ReaderEnd, r)
  else if has_exact_own_origin (m_headers m) local_node_id
  then (ReaderContinue, mkReader (ingress_add i_self_suppressed (rd_stats r)) (rd_diagnostics r) (rd_sent r))
  else
    let payload_bytes := Z.of_nat (length (m_payload m)) in
    if is_payload_oversized payload_bytes
    then (ReaderContinue,
          mkReader (ingress_add i_oversized_payloads (rd_stats r))
            (record_oversized_at (m_subject m) collection payload_bytes (rv_now view) (rd_diagnostics r)) (rd_sent r))
    else
      let item := mkIngressItem (m_subject m) collection (m_payload m) in
      if rv_queue_open view then (ReaderContinue, mkReader (rd_stats r) (rd_diagnostics r) (rd_sent r ++ [item]))
      else (ReaderEnd, r).

(** [read_subscription] over the messages of one subscription *)
Fixpoint read_subscription (collection local_node_id : string) (ms : list (ReaderView * Message)) (r : Reader) : Reader :=
  match ms with
  | [] => r
  | (view, m) :: rest =>
      match read_message collection local_node_id view m r with
      | (ReaderEnd, r') => r'
      | (ReaderContinue, r') => read_subscription collection local_node_id rest r'
      end
  end.
