(* ===== verification/LifecycleFacts.v ===== *)
(** * Lifecycle: readers, echoes and retry delays

    A subscription's reader accounts for every message it takes and forwards the
    rest in order; what the egress side publishes is never read back by the same
    node; the retry delay stays within its limits and never shrinks from one
    attempt to the next. *)

From S2P Require Import Prelude Journal LedgerWorker Envelope Readiness NatsConfig RateLimit Egress EgressLedger EgressFacts.
From S2P Require Import JournalFacts NodeDocs Ingress IngressFacts Reconcile Lifecycle.

(** ** The reader *)

(** What becomes of one message a reader takes. *)
Inductive Fate := OwnEcho | TooLarge | Forwarded.

Definition fate (local_node_id : string) (m : Message) : Fate :=
  if has_exact_own_origin (m_headers m) local_node_id then OwnEcho
  else if is_payload_oversized (Z.of_nat (length (m_payload m))) then TooLarge
  else Forwarded.

#[global] Instance Fate_eq_dec : EqDecision Fate.
Proof. solve_decision. Defined.

Definition fated (local_node_id : string) (f : Fate) (ms : list (ReaderView * Message)) : list Message :=
  filter (λ m, fate local_node_id m = f) (snd <$> ms).

(** A message the reader stops at: the bridge no longer accepts, or the queue's
    receiver is gone when there is something to forward. *)
Definition stops_at (local_node_id : string) (v : ReaderView) (m : Message) : Prop :=
  rv_accepting v = false ∨ (fate local_node_id m = Forwarded ∧ rv_queue_open v = false).

Lemma read_message_cases collection local v m r :
  (stops_at local v m ∧ read_message collection local v m r = (ReaderEnd, r)) ∨
  ∃ r', read_message collection local v m r = (ReaderContinue, r') ∧
    rd_sent r' = rd_sent r ++ (if bool_decide (fate local m = Forwarded) then [mkIngressItem (m_subject m) collection (m_payload m)] else []) ∧
    rd_stats r' = match fate local m with
                  | OwnEcho => ingress_add i_self_suppressed (rd_stats r)
                  | TooLarge => ingress_add i_oversized_payloads (rd_stats r)
                  | Forwarded => rd_stats r
                  end.
Proof.
  unfold read_message, stops_at, fate. destruct (rv_accepting v); cbn [negb]; [|by left; auto].
  destruct (has_exact_own_origin _ _); [right; eexists; by rewrite app_nil_r|].
  destruct (is_payload_oversized _); [right; eexists; by rewrite app_nil_r|].
  destruct (rv_queue_open v); [right; eexists; done|left; auto].
Qed.

Lemma fated_cons local f v m ms :
  fated local f ((v, m) :: ms) = if decide (fate local m = f) then m :: fated local f ms else fated local f ms.
Proof. unfold fated. rewrite fmap_cons, filter_cons. done. Qed.

(** A reader takes a prefix of its subscription's messages and accounts for each
    one: its own echoes and the oversized ones in their counters (modulo 2^64),
    the others as ingress items in order, with the subscription's collection and
    the message's bytes. It stops before the end only at a message it may not
    take. *)
Theorem read_subscription_exact collection local ms r :
  ∃ k, let taken := take k ms in let r' := read_subscription collection local ms r in
    rd_sent r' = rd_sent r ++ ((λ m, mkIngressItem (m_subject m) collection (m_payload m)) <$> fated local Forwarded taken) ∧
    eqm (rd_stats r' i_self_suppressed) (rd_stats r i_self_suppressed + Z.of_nat (length (fated local OwnEcho taken))) ∧
    eqm (rd_stats r' i_oversized_payloads) (rd_stats r i_oversized_payloads + Z.of_nat (length (fated local TooLarge taken))) ∧
    (∀ v m, ms !! k = Some (v, m) → stops_at local v m).
Proof.
  revert r. induction ms as [|[v m] ms IH]; intros r.
  { exists O. cbn. rewrite app_nil_r. split_and!; try done; exists 0; lia. }
  cbn [read_subscription]. destruct (read_message_cases collection local v m r) as [[Hstop ->]|(r1 & -> & Hs & Hst)].
  { exists O. cbn. rewrite app_nil_r. split_and!; try (exists 0; lia); [done|]. by intros ? ? [= <- <-]. }
  destruct (IH r1) as (k & H1 & H2 & H3 & H4). exists (S k). cbn [take].
  rewrite !fated_cons. split_and!; [| | |done].
  - rewrite H1, Hs. case_decide.
    + rewrite bool_decide_true by done. by rewrite <-app_assoc.
    + by rewrite bool_decide_false, app_nil_r by done.
  - rewrite H2, Hst. destruct (fate local m); rewrite ?ingress_add_eqm; repeat (case_decide || case_bool_decide); try done; cbn [length]; exists 0; lia.
  - rewrite H3, Hst. destruct (fate local m); rewrite ?ingress_add_eqm; repeat (case_decide || case_bool_decide); try done; cbn [length]; exists 0; lia.
Qed.

(** ** Echoes *)

(** A published item as the broker delivers it to a subscriber. *)
Definition as_message (x : string * string * EgressItem) : Message :=
  mkMessage (item_subject x.2) (Some [x.1]) (item_payload x.2).

Lemma own_origin_single value local :
  has_exact_own_origin (Some [(BRIDGE_ORIGIN_HEADER, value)]) local = bool_decide (value = local).
Proof.
  unfold has_exact_own_origin, get_all. rewrite filter_cons_True by done. cbn. by rewrite andb_true_r.
Qed.

(** No bridge reads back what it published, and no other bridge drops it: under
    every interleaving of the egress side, a message it handed to the broker, if
    delivered to a reader, is an own echo exactly for the node that published it. *)
Theorem echo_only_at_publisher {sha : Sha256} `{Serde} {L : Type} `{LedgerOps L} origin mappings node l0 s0 steps p reader :
  run origin steps (coordinator_new mappings node l0 s0) = Next p →
  Forall (λ x, fate reader (as_message x) = OwnEcho ↔ origin = reader) (p_client p).
Proof.
  intros Hrun. pose proof (run_marked origin _ _ _ Hrun (Forall_nil_2 _)) as Hmark.
  eapply Forall_impl; [exact Hmark|]. intros [h item] E. cbn in E. subst h. unfold fate, as_message. cbn [m_headers fst].
  rewrite own_origin_single. case_bool_decide; [done|]. destruct (is_payload_oversized _); naive_solver.
Qed.

(** ** Retry delays *)

Lemma nominal_cases attempt :
  ∃ k, (k ≤ 5)%nat ∧ nominal_retry_delay attempt = Some ([1000; 2000; 4000; 8000; 16000; 30000] !!! k) ∧
    Z.of_nat k = Z.min (Z.max (attempt - 1) 0) 5.
Proof.
  unfold nominal_retry_delay. cbn [length RETRY_SECONDS]. exists (Z.to_nat (Z.min (Z.max (attempt - 1) 0) (Z.of_nat 6 - 1))).
  split; [lia|]. split; [|lia].
  assert (Z.to_nat (Z.min (Z.max (attempt - 1) 0) (Z.of_nat 6 - 1)) ≤ 5)%nat as Hk by lia.
  revert Hk. generalize (Z.to_nat (Z.min (Z.max (attempt - 1) 0) (Z.of_nat 6 - 1))). intros k Hk.
  do 6 (destruct k as [|k]; [done|]). lia.
Qed.

(** The retry delay is defined for every attempt and every random byte, never
    leaves the one to thirty seconds, never undercuts the attempt's nominal delay
    and exceeds it by at most a fifth, and a later attempt without jitter never
    waits less. *)
Theorem retry_delay_bounds attempt jitter :
  0 ≤ jitter →
  ∃ nominal d, nominal_retry_delay attempt = Some nominal ∧ retry_delay attempt jitter = Some d ∧
    RETRY_MIN ≤ d ≤ RETRY_MAX ∧ nominal ≤ d ∧ 5 * d ≤ 6 * nominal ∧
    ∀ later, attempt ≤ later → ∃ d', retry_delay later 0 = Some d' ∧ nominal ≤ d'.
Proof.
  intros Hj. destruct (nominal_cases attempt) as (k & Hk & Hn & Ek). exists ([1000; 2000; 4000; 8000; 16000; 30000] !!! k).
  unfold retry_delay, saturating_mul_u64, saturating_add_u64, RETRY_MIN, RETRY_MAX, U64_MAX. rewrite Hn. cbn [mbind option_bind].
  eexists. split; [done|]. split; [reflexivity|].
  assert (∀ later, attempt ≤ later → ∃ k', (k ≤ k' ≤ 5)%nat ∧
    nominal_retry_delay later = Some ([1000; 2000; 4000; 8000; 16000; 30000] !!! k')) as Hlater.
  { intros later Hl. destruct (nominal_cases later) as (k' & ? & ? & ?). exists k'. split; [lia|done]. }
  assert (1000 ≤ [1000; 2000; 4000; 8000; 16000; 30000] !!! k ≤ 30000) as Hb
    by (do 6 (destruct k as [|k]; [cbn; lia|]); lia).
  set (x := [1000; 2000; 4000; 8000; 16000; 30000] !!! k) in *.
  pose proof (Z.mul_div_le (Z.min (Z.min x (2 ^ 64 - 1) * Z.min jitter 20) (2 ^ 64 - 1)) 100 ltac:(lia)).
  assert (0 ≤ Z.min (Z.min x (2 ^ 64 - 1) * Z.min jitter 20) (2 ^ 64 - 1) / 100) by (apply Z.div_pos; nia).
  split_and!; try nia. intros later Hl. destruct (Hlater later Hl) as (k' & Hk' & ->). cbn [mbind option_bind].
  eexists. split; [reflexivity|]. subst x. clear -Hk'.
  do 6 (destruct k as [|k]; [do 6 (destruct k' as [|k']; [first [exfalso; lia|vm_compute; discriminate]|]); lia|]). lia.
Qed.

(** ** Evaluation *)

Lemma retry_delay_bounds_witness : ∃ d, retry_delay 3 20 = Some d ∧ 4000 ≤ d ≤ 4800.
Proof.
  destruct (retry_delay_bounds 3 20 ltac:(lia)) as (nominal & d & Hn & Hd & _ & H1 & H2 & _).
  exists d. split; [exact Hd|]. vm_compute in Hn. injection Hn as <-. lia.
Defined.

Lemma echo_only_at_publisher_witness :
  client_payloads EgressFacts.toy_run = [toy_payload] ∧
  ∀ p, EgressFacts.toy_run = Next p → Forall (λ x, fate "beta" (as_message x) = OwnEcho) (p_client p).
Proof.
  split; [vm_compute; reflexivity|]. intros p E.
  eapply Forall_impl; [exact (echo_only_at_publisher (sha := toy_sha) (H := toy_serde) (H0 := delivery_ops (sha := toy_sha))
    "beta" toy_mappings "beta" toy_delivery toy_status toy_steps p "beta" E)|].
  intros x [_ Hx]. apply Hx. reflexivity.
Defined.
