(* ===== verification/Supervisor.v ===== *)
(** * The client supervisor

    Model of [run_client_supervisor] in [src/nats_bridge/runtime.rs] as a step
    system. The supervisor serves one arm of its [select!] at a time and suspends
    inside an arm while it stops a barrier or a generation and while it
    subscribes; the client's callbacks, the ledger monitors and the shutdown run
    at any of these points. Each suspension point ends a step.

    The callback holds the transition lock between the readiness update and the
    snapshot update ([sv_lock] is the event in between), and the commit of a
    barrier needs the lock. A [watch] receiver sees the latest value only:
    [sv_changed] says that the value was replaced since the supervisor last
    looked. Outcomes of subscribing and of the broker round trip, the clock and
    the ended generations are inputs of the steps. *)

From S2P Require Import Prelude Readiness RateLimit Egress NodeDocs Ingress Reconcile Lifecycle.

(** Where the supervisor is suspended. *)
Inductive SupervisorPc :=
| AtSelect
| LifecycleStopBarrier (delivered : LifecycleSnapshot)
| LifecycleBuild (delivered : LifecycleSnapshot)
| EndedStop (action : GenerationAction)
| EndedBuild
| InShutdown
| Panicked.

Record Supervisor := mkSupervisor {
  sv_status : BridgeStatus;
  sv_snapshot : LifecycleSnapshot;
  sv_lock : option DeliveredLifecycleEvent;
  sv_changed : bool;
  sv_pc : SupervisorPc;
  sv_generation : option Z;
  sv_next_generation_id : Z;
  sv_handled_connection_epoch : Z;
  sv_handled_invalidation_epoch : Z;
  sv_ready_generations : Z;
  sv_barrier : option BarrierTags;
  sv_outage : OutageLogState;
  sv_slow : SlowConsumerLogState;
  sv_stats : IngressStats;
  (** what left the supervisor, oldest first: log actions, slow-consumer
      warnings, reconciliation triggers, and the tags of committed barriers *)
  sv_emitted : list LifecycleAction;
  sv_slow_emitted : list SlowConsumerAction;
  sv_triggers : list ReconcileReason;
  sv_commits : list BarrierTags;
}.

Inductive SvStep :=
(** the client's callback, in two halves *)
| CallbackReadiness (event : DeliveredLifecycleEvent)
| CallbackSnapshot
(** other tasks: a ledger monitor, egress or reconciliation reports a ledger
    unhealthy, the handle begins the shutdown *)
| OtherReadiness (op : ReadinessOp)
(** arms of [select!] *)
| ArmLifecycle (now : Z)
| ArmSignal (ended_generation_id : Z)
| ArmSlowConsumer (now : Z)
| ArmBarrier (result : option (result RequestErrorKind unit))
| ArmOutage (now : Z)
| ArmShutdown
(** resumptions *)
| BarrierStopped (now : Z)
| GenerationBuilt (subscribed : bool)
| GenerationStopped.

Section supervisor.
(** [ingress] and [reconcile] say whether the runtime was given them. *)
Context (host : string) (port : Z) (subject_count : nat) (ingress reconcile : bool).
Implicit Types s : Supervisor.

Definition supervisor_new (status : BridgeStatus) : Supervisor :=
  mkSupervisor status snapshot_default None false AtSelect None 1 0 0 0 None None None ingress_stats_default [] [] [] [].

Definition with_status (b : BridgeStatus) s : Supervisor :=
  mkSupervisor b (sv_snapshot s) (sv_lock s) (sv_changed s) (sv_pc s) (sv_generation s) (sv_next_generation_id s)
    (sv_handled_connection_epoch s) (sv_handled_invalidation_epoch s) (sv_ready_generations s) (sv_barrier s) (sv_outage s)
    (sv_slow s) (sv_stats s) (sv_emitted s) (sv_slow_emitted s) (sv_triggers s) (sv_commits s).
Definition with_lock (l : option DeliveredLifecycleEvent) s : Supervisor :=
  mkSupervisor (sv_status s) (sv_snapshot s) l (sv_changed s) (sv_pc s) (sv_generation s) (sv_next_generation_id s)
    (sv_handled_connection_epoch s) (sv_handled_invalidation_epoch s) (sv_ready_generations s) (sv_barrier s) (sv_outage s)
    (sv_slow s) (sv_stats s) (sv_emitted s) (sv_slow_emitted s) (sv_triggers s) (sv_commits s).
Definition with_snapshot (l : LifecycleSnapshot) (changed : bool) s : Supervisor :=
  mkSupervisor (sv_status s) l (sv_lock s) changed (sv_pc s) (sv_generation s) (sv_next_generation_id s)
    (sv_handled_connection_epoch s) (sv_handled_invalidation_epoch s) (sv_ready_generations s) (sv_barrier s) (sv_outage s)
    (sv_slow s) (sv_stats s) (sv_emitted s) (sv_slow_emitted s) (sv_triggers s) (sv_commits s).
Definition with_pc (pc : SupervisorPc) s : Supervisor :=
  mkSupervisor (sv_status s) (sv_snapshot s) (sv_lock s) (sv_changed s) pc (sv_generation s) (sv_next_generation_id s)
    (sv_handled_connection_epoch s) (sv_handled_invalidation_epoch s) (sv_ready_generations s) (sv_barrier s) (sv_outage s)
    (sv_slow s) (sv_stats s) (sv_emitted s) (sv_slow_emitted s) (sv_triggers s) (sv_commits s).
Definition with_generation (g : option Z) (next : Z) s : Supervisor :=
  mkSupervisor (sv_status s) (sv_snapshot s) (sv_lock s) (sv_changed s) (sv_pc s) g next
    (sv_handled_connection_epoch s) (sv_handled_invalidation_epoch s) (sv_ready_generations s) (sv_barrier s) (sv_outage s)
    (sv_slow s) (sv_stats s) (sv_emitted s) (sv_slow_emitted s) (sv_triggers s) (sv_commits s).
Definition with_handled (c i : Z) s : Supervisor :=
  mkSupervisor (sv_status s) (sv_snapshot s) (sv_lock s) (sv_changed s) (sv_pc s) (sv_generation s) (sv_next_generation_id s)
    c i (sv_ready_generations s) (sv_barrier s) (sv_outage s)
    (sv_slow s) (sv_stats s) (sv_emitted s) (sv_slow_emitted s) (sv_triggers s) (sv_commits s).
Definition with_barrier (b : option BarrierTags) s : Supervisor :=
  mkSupervisor (sv_status s) (sv_snapshot s) (sv_lock s) (sv_changed s) (sv_pc s) (sv_generation s) (sv_next_generation_id s)
    (sv_handled_connection_epoch s) (sv_handled_invalidation_epoch s) (sv_ready_generations s) b (sv_outage s)
    (sv_slow s) (sv_stats s) (sv_emitted s) (sv_slow_emitted s) (sv_triggers s) (sv_commits s).
Definition with_outage (o : OutageLogState) s : Supervisor :=
  mkSupervisor (sv_status s) (sv_snapshot s) (sv_lock s) (sv_changed s) (sv_pc s) (sv_generation s) (sv_next_generation_id s)
    (sv_handled_connection_epoch s) (sv_handled_invalidation_epoch s) (sv_ready_generations s) (sv_barrier s) o
    (sv_slow s) (sv_stats s) (sv_emitted s) (sv_slow_emitted s) (sv_triggers s) (sv_commits s).
Definition with_slow (w : SlowConsumerLogState) (stats : IngressStats) (a : option SlowConsumerAction) s : Supervisor :=
  mkSupervisor (sv_status s) (sv_snapshot s) (sv_lock s) (sv_changed s) (sv_pc s) (sv_generation s) (sv_next_generation_id s)
    (sv_handled_connection_epoch s) (sv_handled_invalidation_epoch s) (sv_ready_generations s) (sv_barrier s) (sv_outage s)
    w stats (sv_emitted s) (sv_slow_emitted s ++ option_list a) (sv_triggers s) (sv_commits s).
Definition emit_action (a : LifecycleAction) s : Supervisor :=
  mkSupervisor (sv_status s) (sv_snapshot s) (sv_lock s) (sv_changed s) (sv_pc s) (sv_generation s) (sv_next_generation_id s)
    (sv_handled_connection_epoch s) (sv_handled_invalidation_epoch s) (sv_ready_generations s) (sv_barrier s) (sv_outage s)
    (sv_slow s) (sv_stats s) (sv_emitted s ++ [a]) (sv_slow_emitted s) (sv_triggers s) (sv_commits s).
(** a committed barrier that made the bridge ready: trigger and count *)
Definition count_ready s : Supervisor :=
  mkSupervisor (sv_status s) (sv_snapshot s) (sv_lock s) (sv_changed s) (sv_pc s) (sv_generation s) (sv_next_generation_id s)
    (sv_handled_connection_epoch s) (sv_handled_invalidation_epoch s) (saturating_add_u64 (sv_ready_generations s) 1)
    (sv_barrier s) (sv_outage s) (sv_slow s) (sv_stats s) (sv_emitted s) (sv_slow_emitted s)
    (if reconcile then sv_triggers s ++ [reconcile_reason_for_ready_generation (sv_ready_generations s)] else sv_triggers s)
    (sv_commits s).
Definition log_commit (tags : BarrierTags) s : Supervisor :=
  mkSupervisor (sv_status s) (sv_snapshot s) (sv_lock s) (sv_changed s) (sv_pc s) (sv_generation s) (sv_next_generation_id s)
    (sv_handled_connection_epoch s) (sv_handled_invalidation_epoch s) (sv_ready_generations s) (sv_barrier s) (sv_outage s)
    (sv_slow s) (sv_stats s) (sv_emitted s) (sv_slow_emitted s) (sv_triggers s) (sv_commits s ++ [tags]).

(** The lifecycle arm from the connection check on: the snapshot it works with is
    the one it borrowed at the start. *)
Definition lifecycle_connection (delivered : LifecycleSnapshot) s : Supervisor :=
  if ls_connection_epoch delivered =? sv_handled_connection_epoch s then with_pc AtSelect s
  else
    let s := with_handled (ls_connection_epoch delivered) (sv_handled_invalidation_epoch s) s in
    let s := with_outage (outage_recovered (sv_outage s)) s in
    let s := emit_action (action_status SubscriptionsPending host port (sv_status s)) s in
    if negb ingress then with_pc AtSelect s
    else
      match connected_generation_action (sv_generation s) subject_count with
      | BuildAll n => if Nat.eqb n subject_count then with_pc (LifecycleBuild delivered) s else with_pc Panicked s
      | FlushRetained id =>
          if bool_decide (sv_generation s = Some id)
          then
            with_pc AtSelect
              (if barrier_allowed_after_latest_delivery delivered
               then with_barrier (start_barrier (sv_generation s) delivered) s
               else s)
          else with_pc Panicked s
      | RebuildAll _ _ | RemoveOnly _ => with_pc Panicked s
      end.

(** The invalidation part after the barrier, if there was one, has stopped, and
    what follows it. *)
Definition lifecycle_invalidated (delivered : LifecycleSnapshot) (now : Z) s : Supervisor :=
  let '(first, outage) := outage_begin now (sv_outage s) in
  let s := with_outage outage s in
  if ls_connected delivered
  then lifecycle_connection delivered (if first then emit_action (action_unavailable host port (sv_status s)) s else s)
  else
    match disconnected_reason delivered with
    | BrokerUnavailable => lifecycle_connection delivered (emit_action (action_unavailable host port (sv_status s)) s)
    | Disconnected => lifecycle_connection delivered (emit_action (action_status Disconnected host port (sv_status s)) s)
    | _ => with_pc Panicked s
    end.

Definition lifecycle_arm (now : Z) s : Supervisor :=
  let delivered := sv_snapshot s in
  let s := with_snapshot delivered false s in
  if ls_invalidation_epoch delivered =? sv_handled_invalidation_epoch s then lifecycle_connection delivered s
  else
    let s := with_handled (sv_handled_connection_epoch s) (ls_invalidation_epoch delivered) s in
    match sv_barrier s with
    | Some _ => with_pc (LifecycleStopBarrier delivered) (with_barrier None s)
    | None => lifecycle_invalidated delivered now s
    end.

(** [build_subscription_generation] returned; the id is used up either way. *)
Definition built (subscribed : bool) s : Supervisor :=
  with_generation (if subscribed then Some (sv_next_generation_id s) else None)
    (saturating_add_u64 (sv_next_generation_id s) 1) s.

Definition signal_arm (ended_generation_id : Z) s : Supervisor :=
  match ended_generation_action (sv_generation s) ended_generation_id (connected (sv_status s)) subject_count with
  | None => s
  | Some (RemoveOnly id as action) | Some (RebuildAll id _ as action) =>
      if id =? ended_generation_id
      then with_pc (EndedStop action)
             (with_barrier None (with_status (update InvalidateSubscriptionGeneration (sv_status s)).2 s))
      else with_pc Panicked s
  | Some (BuildAll _) | Some (FlushRetained _) => with_pc Panicked s
  end.

(** [result] is [None] when the barrier task could not be joined. *)
Definition barrier_arm (result : option (result RequestErrorKind unit)) (tags : BarrierTags) s : Supervisor :=
  let s := with_barrier None s in
  if match result with Some r => broker_round_trip r | None => false end
  then
    let '(became, status) := commit_barrier tags (sv_snapshot s) (sv_generation s) (sv_status s) in
    let s := if barrier_tags_match tags (sv_snapshot s) (sv_generation s) then log_commit tags s else s in
    let s := with_status status s in
    if became
    then emit_action (action_status Ready host port (sv_status s)) (count_ready s)
    else s
  else s.

(** One step; [None] when it is not enabled. *)
Definition sv_step (step : SvStep) s : option Supervisor :=
  match step with
  | CallbackReadiness event =>
      match sv_lock s with
      | Some _ => None
      | None =>
          if bool_decide (event = DlInitial) then Some s
          else Some (with_lock (Some event) (with_status (delivered_readiness event (sv_status s)) s))
      end
  | CallbackSnapshot =>
      event ← sv_lock s;
      Some (with_lock None (with_snapshot (delivered_snapshot event (sv_snapshot s)) true s))
  | OtherReadiness op =>
      match op with
      | SetDeliveryHealthy false | SetExclusionHealthy false | BeginShutdown => Some (with_status (update op (sv_status s)).2 s)
      | _ => None
      end
  | ArmLifecycle now =>
      match sv_pc s with
      | AtSelect => if sv_changed s then Some (lifecycle_arm now s) else None
      | _ => None
      end
  | ArmSignal id => match sv_pc s with AtSelect => Some (signal_arm id s) | _ => None end
  | ArmSlowConsumer now =>
      match sv_pc s with
      | AtSelect =>
          let '(stats, w, a) := handle_slow_consumer (sv_stats s) (sv_slow s) now host port in
          Some (with_slow w stats a s)
      | _ => None
      end
  | ArmBarrier result =>
      match sv_pc s, sv_barrier s, sv_lock s with
      | AtSelect, Some tags, None => Some (barrier_arm result tags s)
      | _, _, _ => None
      end
  | ArmOutage now =>
      match sv_pc s, sv_outage s with
      | AtSelect, Some deadline =>
          if deadline <=? now
          then
            let '(due, outage) := outage_periodic_due now (sv_outage s) in
            let s := with_outage outage s in
            Some (if due then emit_action (action_unavailable host port (sv_status s)) s else s)
          else None
      | _, _ => None
      end
  | ArmShutdown =>
      match sv_pc s with
      | AtSelect =>
          Some (with_pc InShutdown
                  (with_generation None (sv_next_generation_id s)
                     (with_barrier None (with_status (update BeginShutdown (sv_status s)).2 s))))
      | _ => None
      end
  | BarrierStopped now =>
      match sv_pc s with
      | LifecycleStopBarrier delivered => Some (lifecycle_invalidated delivered now s)
      | _ => None
      end
  | GenerationBuilt subscribed =>
      match sv_pc s with
      | LifecycleBuild delivered =>
          let s := built subscribed s in
          Some (with_pc AtSelect
                  (if barrier_allowed_after_latest_delivery delivered
                   then with_barrier (start_barrier (sv_generation s) delivered) s
                   else s))
      | EndedBuild =>
          let s := built subscribed s in
          Some (with_pc AtSelect
                  (if barrier_allowed_after_latest_delivery (sv_snapshot s)
                   then with_barrier (start_barrier (sv_generation s) (sv_snapshot s)) s
                   else s))
      | _ => None
      end
  | GenerationStopped =>
      match sv_pc s with
      | EndedStop action =>
          let s := with_generation None (sv_next_generation_id s) s in
          match action with
          | RebuildAll _ n =>
              Some (if negb (Nat.eqb n subject_count) then with_pc Panicked s
                    else if ingress then with_pc EndedBuild s
                    else with_pc AtSelect s)
          | _ => Some (with_pc AtSelect s)
          end
      | _ => None
      end
  end.

Fixpoint sv_run (steps : list SvStep) s : option Supervisor :=
  match steps with
  | [] => Some s
  | step :: rest => s' ← sv_step step s; sv_run rest s'
  end.

End supervisor.
