(* ===== verification/SupervisorFacts.v ===== *)
(** * The client supervisor: what readiness means

    The invariant of the supervisor's step system, and with it: the bridge is
    ready only behind a round trip committed for the live generation with no
    invalidation since, every readiness boundary triggers one reconciliation, no
    arm panics, a delivered connection leads back to readiness, and nothing else
    does. Counters of deliveries saturate at 2^64 - 1; the theorems are about
    runs of fewer steps. *)

From S2P Require Import Prelude Readiness RateLimit Egress NodeDocs Ingress Reconcile Lifecycle Supervisor.

(** ** Snapshots along a run *)

Record snap_wf (n : Z) (c : LifecycleSnapshot) : Prop := {
  sw_sequence : 0 ≤ ls_sequence c ≤ n;
  sw_connection : 0 ≤ ls_connection_epoch c ≤ ls_sequence c;
  sw_invalidation : 0 ≤ ls_invalidation_epoch c ≤ ls_sequence c;
  sw_connected_seq : 0 ≤ ls_connected_sequence c ≤ ls_sequence c;
  sw_invalidation_seq : 0 ≤ ls_invalidation_sequence c ≤ ls_sequence c;
  sw_last : ls_last_event c = DlConnected →
    ls_connected c = true ∧ ls_invalidation_sequence c < ls_connected_sequence c;
}.

(** [d] was the snapshot at an earlier point. *)
Record snap_le (d c : LifecycleSnapshot) : Prop := {
  sl_connection : ls_connection_epoch d ≤ ls_connection_epoch c;
  sl_invalidation : ls_invalidation_epoch d ≤ ls_invalidation_epoch c;
  sl_connected_seq : ls_connection_epoch d = ls_connection_epoch c → ls_connected_sequence d = ls_connected_sequence c;
  sl_invalidation_seq : ls_invalidation_epoch d = ls_invalidation_epoch c →
    ls_invalidation_sequence d = ls_invalidation_sequence c;
}.

Lemma snap_le_refl c : snap_le c c.
Proof. by split. Qed.

Lemma saturating_succ x : 0 ≤ x < U64_MAX → saturating_add_u64 x 1 = x + 1.
Proof. unfold saturating_add_u64. lia. Qed.

Ltac snap_solve :=
  repeat match goal with H : snap_wf _ _ |- _ => destruct H end;
  repeat match goal with H : snap_le _ _ |- _ => destruct H end;
  cbn in *; rewrite ?saturating_succ in * by lia; cbn in *; split; cbn; try done; try lia.

Lemma snap_wf_delivered n c event : snap_wf n c → n < U64_MAX → snap_wf (n + 1) (delivered_snapshot event c).
Proof. intros H Hn. destruct event; cbn [delivered_snapshot]; snap_solve; intros; auto; lia. Qed.

Lemma snap_wf_mono n m c : snap_wf n c → n ≤ m → snap_wf m c.
Proof. intros [] ?. split; try done. lia. Qed.

Lemma snap_le_delivered n d c event :
  snap_wf n c → n < U64_MAX → snap_le d c → snap_le d (delivered_snapshot event c).
Proof. intros H Hn Hle. destruct event; cbn [delivered_snapshot]; snap_solve. Qed.

(** ** The invariant *)

Section facts.
Context (host : string) (port : Z) (subject_count : nat) (ingress reconcile : bool).
Abbreviation step := (sv_step host port subject_count ingress reconcile).
Abbreviation run := (sv_run host port subject_count ingress reconcile).
Implicit Types s : Supervisor.

(** What a status still promises once the subscriptions are established: the last
    committed barrier was for the live generation and nothing was invalidated
    since; its connection may only have been followed by a newer one. *)
Definition confirmed (tags : BarrierTags) (c : LifecycleSnapshot) (generation : option Z) : Prop :=
  bt_invalidation_epoch tags = ls_invalidation_epoch c ∧ bt_connection_epoch tags ≤ ls_connection_epoch c ∧
  generation = Some (bt_generation_id tags) ∧ ls_connected c = true ∧
  ls_invalidation_sequence c < ls_connected_sequence c.

Definition subscribed (b : BridgeStatus) : Prop := established_subjects b ≠ ∅.

(** The connection the status shows while a callback is between its halves. *)
Definition shown_connected (lock : option DeliveredLifecycleEvent) (c : LifecycleSnapshot) : bool :=
  match lock with
  | Some DlConnected => true
  | Some DlDisconnected => false
  | _ => ls_connected c
  end.

Definition pc_inv s : Prop :=
  match sv_pc s with
  | AtSelect => True
  | LifecycleStopBarrier d =>
      snap_le d (sv_snapshot s) ∧
      (sv_changed s = true → ls_last_event (sv_snapshot s) = DlConnected →
       ls_connection_epoch d < ls_connection_epoch (sv_snapshot s))
  | LifecycleBuild d => snap_le d (sv_snapshot s) ∧ sv_generation s = None
  | EndedStop (RebuildAll _ n) => established_subjects (sv_status s) = ∅ ∧ n = subject_count
  | EndedStop _ => established_subjects (sv_status s) = ∅
  | EndedBuild => established_subjects (sv_status s) = ∅ ∧ sv_generation s = None
  | InShutdown => accepting (sv_status s) = false
  | Panicked => False
  end.

(** The reconciliations requested by [n] readiness boundaries. *)
Definition boundary_triggers (n : Z) : list ReconcileReason :=
  if reconcile && (0 <? n) then StartupReady :: replicate (Z.to_nat (n - 1)) ReconnectReady else [].

Record sv_inv (configured : gset string) (n : Z) s : Prop := {
  si_configured : configured_subjects (sv_status s) = configured;
  si_enabled : enabled (sv_status s) = true;
  si_snapshot : snap_wf n (sv_snapshot s);
  si_link : connected (sv_status s) = shown_connected (sv_lock s) (sv_snapshot s);
  si_event : sv_lock s ≠ Some DlInitial;
  si_lock : sv_lock s = Some DlDisconnected ∨ sv_lock s = Some DlError → ¬ subscribed (sv_status s);
  si_pc : pc_inv s;
  si_handled : sv_handled_connection_epoch s ≤ ls_connection_epoch (sv_snapshot s);
  si_unseen : sv_changed s = true → ls_last_event (sv_snapshot s) = DlConnected →
    sv_handled_connection_epoch s < ls_connection_epoch (sv_snapshot s);
  si_barrier tags : sv_barrier s = Some tags →
    ∃ d, snap_le d (sv_snapshot s) ∧ barrier_allowed_after_latest_delivery d = true ∧
      bt_connection_epoch tags = ls_connection_epoch d ∧ bt_invalidation_epoch tags = ls_invalidation_epoch d;
  si_confirmed : sv_pc s ≠ InShutdown → subscribed (sv_status s) →
    ∃ tags, last (sv_commits s) = Some tags ∧ confirmed tags (sv_snapshot s) (sv_generation s);
  si_next : 1 ≤ sv_next_generation_id s ≤ n + 1;
  si_generation g : sv_generation s = Some g → 1 ≤ g < sv_next_generation_id s;
  si_ready : 0 ≤ sv_ready_generations s ≤ n;
  si_triggers : sv_triggers s = boundary_triggers (sv_ready_generations s);
}.

Lemma sv_inv_new subjects : sv_inv (list_to_set subjects) 0 (supervisor_new (readiness_new subjects)).
Proof.
  split; try (cbn; done || lia).
  - cbn. by intros [|].
  - unfold boundary_triggers. cbn. by rewrite andb_false_r.
Qed.

Lemma sv_inv_mono configured n m s : sv_inv configured n s → n ≤ m → sv_inv configured m s.
Proof. intros [] ?. split; try done; [by eapply snap_wf_mono|lia|lia]. Qed.

(** Log lines and warning deadlines are not part of it. *)
Definition same_core s s' : Prop :=
  sv_status s' = sv_status s ∧ sv_snapshot s' = sv_snapshot s ∧ sv_lock s' = sv_lock s ∧ sv_changed s' = sv_changed s ∧
  sv_pc s' = sv_pc s ∧ sv_generation s' = sv_generation s ∧ sv_next_generation_id s' = sv_next_generation_id s ∧
  sv_handled_connection_epoch s' = sv_handled_connection_epoch s ∧ sv_barrier s' = sv_barrier s ∧
  sv_commits s' = sv_commits s ∧ sv_ready_generations s' = sv_ready_generations s ∧ sv_triggers s' = sv_triggers s.

Lemma sv_inv_core configured n s s' : same_core s s' → sv_inv configured n s → sv_inv configured n s'.
Proof.
  intros (E1 & E2 & E3 & E4 & E5 & E6 & E7 & E8 & E9 & E10 & E11 & E12) [].
  split; unfold pc_inv in *; rewrite ?E1, ?E2, ?E3, ?E4, ?E5, ?E6, ?E7, ?E8, ?E9, ?E10, ?E11, ?E12; done.
Qed.

Lemma confirmed_delivered_connected n tags c generation :
  snap_wf n c → n < U64_MAX → confirmed tags c generation → confirmed tags (delivered_snapshot DlConnected c) generation.
Proof.
  intros [] Hn (? & ? & ? & ? & ?). unfold confirmed. cbn. rewrite !saturating_succ by lia. split_and!; try done; lia.
Qed.

Ltac inv_split :=
  split; cbn in *;
  repeat match goal with
  | E : sv_generation ?s = _ |- context [sv_generation ?s] => rewrite E
  | E : sv_pc ?s = _, H : sv_pc ?s ≠ _ → _ |- _ => rewrite E in H
  end; try done; try lia; eauto.

(** The lifecycle arm after its checks, from a state where the callback's
    snapshot [d] is at hand. *)
Lemma lifecycle_connection_inv configured n s d :
  sv_inv configured n s →
  snap_le d (sv_snapshot s) →
  (sv_changed s = true → ls_last_event (sv_snapshot s) = DlConnected →
   ls_connection_epoch d < ls_connection_epoch (sv_snapshot s)) →
  sv_pc s ≠ InShutdown →
  sv_inv configured n (lifecycle_connection host port subject_count ingress d s).
Proof.
  intros H Hle Hunseen Hpc. unfold lifecycle_connection. destruct (_ =? _).
  { destruct H. inv_split. }
  destruct ingress; cbn [negb]; [|destruct H; pose proof (sl_connection _ _ Hle); inv_split].
  unfold connected_generation_action. cbn [sv_generation emit_action with_outage with_handled].
  destruct H; pose proof (sl_connection _ _ Hle). destruct (sv_generation s) as [g|] eqn:Hg.
  - rewrite bool_decide_true by done. destruct (barrier_allowed_after_latest_delivery d) eqn:Ha; inv_split.
    intros tags [= <-]. by exists d.
  - rewrite Nat.eqb_refl. inv_split.
Qed.

Lemma lifecycle_invalidated_inv configured n s d now :
  sv_inv configured n s →
  snap_le d (sv_snapshot s) →
  (sv_changed s = true → ls_last_event (sv_snapshot s) = DlConnected →
   ls_connection_epoch d < ls_connection_epoch (sv_snapshot s)) →
  sv_pc s ≠ InShutdown →
  sv_inv configured n (lifecycle_invalidated host port subject_count ingress d now s).
Proof.
  intros H Hle Hunseen Hpc. unfold lifecycle_invalidated, disconnected_reason.
  destruct (outage_begin now (sv_outage s)) as [first outage].
  assert (∀ a, sv_inv configured n (emit_action a (with_outage outage s))) as He
    by (intros a; by apply (sv_inv_core _ _ s)).
  destruct (ls_connected d), first, (ls_connection_epoch d =? 0); try (apply lifecycle_connection_inv; [apply He|done..]).
  all: apply lifecycle_connection_inv; [by apply (sv_inv_core _ _ s)|done..].
Qed.

Lemma lifecycle_arm_inv configured n s now :
  sv_inv configured n s → sv_pc s = AtSelect →
  sv_inv configured n (lifecycle_arm host port subject_count ingress now s).
Proof.
  intros H Hpc. unfold lifecycle_arm. pose proof (snap_le_refl (sv_snapshot s)) as Hle.
  assert (sv_inv configured n (with_snapshot (sv_snapshot s) false s)) as H0.
  { destruct H. inv_split. unfold pc_inv. cbn. by rewrite Hpc. }
  cbn [sv_handled_invalidation_epoch with_snapshot]. destruct (_ =? _).
  { apply lifecycle_connection_inv; cbn; [done..|congruence]. }
  cbn [sv_barrier with_handled with_snapshot]. destruct (sv_barrier s) as [tags|] eqn:Hb.
  - destruct H0. inv_split.
  - apply lifecycle_invalidated_inv; cbn; [|done..|congruence].
    by apply (sv_inv_core _ _ (with_snapshot (sv_snapshot s) false s)).
Qed.

Lemma built_inv configured n s b :
  sv_inv configured n s → n + 1 < U64_MAX → sv_generation s = None → ¬ subscribed (sv_status s) → sv_pc s ≠ InShutdown →
  sv_inv configured (n + 1) (with_pc AtSelect (built b s)).
Proof.
  intros H Hn Hg Hsub Hpc. pose proof (si_next _ _ _ H) as Hnext.
  apply (sv_inv_mono _ _ (n + 1)) in H; [|lia]. destruct H. unfold built. rewrite saturating_succ by lia.
  destruct b; inv_split. intros g [= <-]. lia.
Qed.

Lemma with_barrier_inv configured n s d :
  sv_inv configured n s → snap_le d (sv_snapshot s) → barrier_allowed_after_latest_delivery d = true →
  sv_inv configured n (with_barrier (start_barrier (sv_generation s) d) s).
Proof.
  intros H Hle Ha. destruct H. inv_split. unfold start_barrier. destruct (sv_generation s); [|done].
  intros tags [= <-]. by exists d.
Qed.

(** Readiness updates of the other tasks only take away. *)
Lemma other_readiness_inv configured n s op :
  sv_inv configured n s →
  op = SetDeliveryHealthy false ∨ op = SetExclusionHealthy false ∨ op = BeginShutdown →
  sv_inv configured n (with_status (update op (sv_status s)).2 s).
Proof.
  intros [] Hop. unfold pc_inv in *.
  destruct Hop as [->|[->| ->]]; inv_split; unfold pc_inv in *; cbn in *;
    destruct (sv_pc s) as [| | |[]| | |]; done.
Qed.

Lemma signal_arm_inv configured n s id :
  sv_inv configured n s → sv_pc s = AtSelect → sv_inv configured n (signal_arm subject_count id s).
Proof.
  intros H Hpc. unfold signal_arm, ended_generation_action.
  destruct (sv_generation s) as [g|] eqn:Hg; cbn; [|done].
  destruct (Z.eqb_spec g id) as [->|]; cbn; [|done].
  destruct (connected (sv_status s)) eqn:Hc; rewrite Z.eqb_refl; destruct H; inv_split; try congruence.
  all: rewrite <-Hg; eauto.
Qed.

Lemma boundary_triggers_succ m :
  0 ≤ m → boundary_triggers (m + 1) =
    (if reconcile then boundary_triggers m ++ [reconcile_reason_for_ready_generation m] else boundary_triggers m).
Proof.
  intros Hm. unfold boundary_triggers, reconcile_reason_for_ready_generation. destruct reconcile; [|done]. cbn [andb].
  rewrite (proj2 (Z.ltb_lt 0 (m + 1))) by lia. destruct (Z.eqb_spec m 0) as [->|Hne]; [done|].
  rewrite (proj2 (Z.ltb_lt 0 m)) by lia. cbn [app]. f_equal.
  replace (Z.to_nat (m + 1 - 1)) with (S (Z.to_nat (m - 1))) by lia. by rewrite replicate_S_end.
Qed.

Lemma barrier_arm_inv configured n s result tags :
  sv_inv configured n s → n + 1 < U64_MAX → sv_pc s = AtSelect → sv_lock s = None → sv_barrier s = Some tags →
  sv_inv configured (n + 1) (barrier_arm host port reconcile result tags s).
Proof.
  intros H Hn Hpc Hlock Hb. unfold barrier_arm.
  assert (sv_inv configured (n + 1) (with_barrier None s)) as H0.
  { apply (sv_inv_mono _ _ (n + 1)) in H; [|lia]. destruct H. inv_split. }
  destruct (match result with Some r => _ | None => false end); [|done].
  unfold commit_barrier. cbn [sv_snapshot sv_generation sv_status with_barrier].
  destruct (barrier_tags_match tags (sv_snapshot s) (sv_generation s)) eqn:Hm; cbn [negb]; [|done].
  unfold barrier_tags_match in Hm. to_prop.
  assert (confirmed tags (sv_snapshot s) (sv_generation s)) as Hconf.
  { destruct (si_barrier _ _ _ H tags Hb) as (d & Hle & Ha & E1 & E2). unfold barrier_allowed_after_latest_delivery in Ha.
    to_prop. destruct Hle. unfold confirmed. split_and!; try done; lia. }
  match goal with E : sv_generation s = _ |- _ => clear E end.
  pose proof (si_ready _ _ _ H) as Hr. pose proof (boundary_triggers_succ (sv_ready_generations s)) as Ht.
  cbn [update]. match goal with |- context [became_ready ?t] => destruct (became_ready t) end.
  all: destruct H0; inv_split; rewrite ?saturating_succ by lia; try lia.
  all: try (by rewrite Hlock; intros [|]).
  all: try (by unfold pc_inv; cbn; rewrite Hpc).
  all: try (by intros _ _; exists tags; rewrite last_snoc).
  by rewrite si_triggers0, Ht by lia.
Qed.

Lemma callback_readiness_inv configured n s event :
  sv_inv configured n s → sv_lock s = None → event ≠ DlInitial →
  sv_inv configured n (with_lock (Some event) (with_status (delivered_readiness event (sv_status s)) s)).
Proof.
  intros H Hlock He. destruct H. rewrite Hlock in *. unfold pc_inv in *.
  destruct event; try done; inv_split; unfold pc_inv in *; cbn in *; try (destruct (sv_pc s) as [| | |[]| | |]; naive_solver).
  all: try naive_solver.
Qed.

Lemma callback_snapshot_inv configured n s event :
  sv_inv configured n s → n + 1 < U64_MAX → sv_lock s = Some event →
  sv_inv configured (n + 1) (with_lock None (with_snapshot (delivered_snapshot event (sv_snapshot s)) true s)).
Proof.
  intros H Hn Hlock. pose proof (si_snapshot _ _ _ H) as Hw.
  pose proof (snap_wf_delivered _ _ event Hw ltac:(lia)) as Hw'.
  assert (∀ d, snap_le d (sv_snapshot s) → snap_le d (delivered_snapshot event (sv_snapshot s))) as Hle
    by (intros d Hd; eapply snap_le_delivered; [done|lia|done]).
  pose proof (Hle _ (snap_le_refl _)) as Hself.
  assert (ls_last_event (delivered_snapshot event (sv_snapshot s)) = DlConnected →
     ls_connection_epoch (sv_snapshot s) < ls_connection_epoch (delivered_snapshot event (sv_snapshot s))) as Hlt.
  { pose proof (si_event _ _ _ H). destruct Hw. destruct event; cbn; try done. rewrite saturating_succ by lia. lia. }
  assert (connected (sv_status s) = ls_connected (delivered_snapshot event (sv_snapshot s))) as Hlink.
  { rewrite (si_link _ _ _ H), Hlock. by destruct event. }
  apply (sv_inv_mono _ _ (n + 1)) in H; [|lia]. destruct H. destruct Hself as [Hc _ _ _].
  split; cbn; try done; try lia.
  - by intros [|].
  - unfold pc_inv in *. cbn. destruct (sv_pc s) as [|d|d|[]| | |]; try done.
    + destruct si_pc0 as [Hd _]. split; [by apply Hle|]. intros _ ?. pose proof (sl_connection _ _ Hd). specialize (Hlt H). lia.
    + destruct si_pc0. auto.
  - intros _ ?. specialize (Hlt H). lia.
  - intros tags Ht. destruct (si_barrier0 tags Ht) as (d & ? & ? & ?). exists d. auto.
  - intros Hpc Hsub. destruct (si_confirmed0 Hpc Hsub) as (tags & ? & Hconf). exists tags. split; [done|].
    destruct event; [done|by apply (confirmed_delivered_connected n); [|lia|]| |]; exfalso; apply si_lock0; auto.
Qed.

(** ** Preservation *)

Lemma sv_step_inv configured n s s' st :
  sv_inv configured n s → n + 1 < U64_MAX → step st s = Some s' → sv_inv configured (n + 1) s'.
Proof.
  intros H Hn Hstep.
  assert (∀ t, sv_inv configured n t → sv_inv configured (n + 1) t) as Hmono by (intros t Ht; by apply (sv_inv_mono _ n); [|lia]).
  destruct st as [event| |op|now|id|now|result|now| |now|b|]; cbn in Hstep.
  - destruct (sv_lock s) eqn:Hl; [done|]. case_bool_decide; simplify_eq; [by apply Hmono|]. by apply Hmono, callback_readiness_inv.
  - destruct (sv_lock s) as [event|] eqn:Hl; [|done]. cbn in Hstep. simplify_eq. by apply callback_snapshot_inv.
  - destruct op as [| | | |[]|[]|]; simplify_eq; apply Hmono;
      [apply (other_readiness_inv _ _ _ (SetDeliveryHealthy false))|apply (other_readiness_inv _ _ _ (SetExclusionHealthy false))
      |apply (other_readiness_inv _ _ _ BeginShutdown)]; auto.
  - destruct (sv_pc s) eqn:Hpc; try done. destruct (sv_changed s); simplify_eq. by apply Hmono, lifecycle_arm_inv.
  - destruct (sv_pc s) eqn:Hpc; try done. simplify_eq. by apply Hmono, signal_arm_inv.
  - destruct (sv_pc s) eqn:Hpc; try done. destruct (handle_slow_consumer _ _ _ _ _) as [[stats w] a]. simplify_eq.
    apply Hmono. by apply (sv_inv_core _ _ s).
  - destruct (sv_pc s) eqn:Hpc; try done. destruct (sv_barrier s) eqn:Hb; [|done].
    destruct (sv_lock s) eqn:Hl; [done|]. simplify_eq. by apply barrier_arm_inv.
  - destruct (sv_pc s) eqn:Hpc; try done. destruct (sv_outage s); [|done]. destruct (_ <=? _); [|done].
    destruct (outage_periodic_due _ _) as [[] o]; simplify_eq; apply Hmono; by apply (sv_inv_core _ _ s).
  - destruct (sv_pc s) eqn:Hpc; try done. simplify_eq. apply Hmono. destruct H. inv_split.
  - destruct (sv_pc s) eqn:Hpc; try done. simplify_eq. pose proof (si_pc _ _ _ H) as Hp. unfold pc_inv in Hp.
    rewrite Hpc in Hp. destruct Hp. apply Hmono, lifecycle_invalidated_inv; try done. congruence.
  - pose proof (si_pc _ _ _ H) as Hp. unfold pc_inv in Hp. destruct (sv_pc s) eqn:Hpc; try done; simplify_eq.
    + destruct Hp as [Hle Hg].
      assert (¬ subscribed (sv_status s)) as Hsub.
      { intros Hs. destruct (si_confirmed _ _ _ H) as (? & _ & (_ & _ & ? & _)); congruence. }
      pose proof (built_inv _ _ _ b H Hn Hg Hsub ltac:(congruence)) as Hb.
      destruct (barrier_allowed_after_latest_delivery delivered) eqn:Ha; [|done].
      by apply (with_barrier_inv _ _ _ delivered) in Hb.
    + destruct Hp as [Hsub Hg].
      pose proof (built_inv _ _ _ b H Hn Hg (λ Hs, Hs Hsub) ltac:(congruence)) as Hb.
      destruct (barrier_allowed_after_latest_delivery (sv_snapshot s)) eqn:Ha; [|done].
      by apply (with_barrier_inv _ _ _ (sv_snapshot s)) in Hb; [|apply snap_le_refl|].
  - pose proof (si_pc _ _ _ H) as Hp. unfold pc_inv in Hp. destruct (sv_pc s) as [| | |action| | |] eqn:Hpc; try done.
    destruct action as [| | |id k]; simplify_eq; [apply Hmono; destruct H; inv_split..|].
    destruct Hp as [Hp ->]. rewrite Nat.eqb_refl. cbn. destruct ingress; simplify_eq; apply Hmono; destruct H; inv_split.
Qed.

Lemma sv_run_inv configured n s s' steps :
  sv_inv configured n s → n + Z.of_nat (length steps) < U64_MAX → run steps s = Some s' →
  sv_inv configured (n + Z.of_nat (length steps)) s'.
Proof.
  revert n s. induction steps as [|st steps IH]; intros n s H Hn Hrun; cbn [sv_run length] in *.
  - simplify_eq. by replace (n + Z.of_nat 0) with n by lia.
  - destruct (step st s) as [s1|] eqn:Hs; [|done]. cbn in Hrun.
    replace (n + Z.of_nat (S (length steps))) with (n + 1 + Z.of_nat (length steps)) by lia.
    apply (IH _ s1); [|lia|done]. eapply sv_step_inv; [done| |done]. lia.
Qed.

Lemma sv_run_app steps1 steps2 s s1 s2 : run steps1 s = Some s1 → run steps2 s1 = Some s2 → run (steps1 ++ steps2) s = Some s2.
Proof.
  revert s. induction steps1 as [|st steps1 IH]; intros s H1 H2; cbn in *; [by simplify_eq|].
  destruct (step st s); [|done]. cbn in *. auto.
Qed.

Lemma sv_run_cons st rest s s1 s2 : step st s = Some s1 → run rest s1 = Some s2 → run (st :: rest) s = Some s2.
Proof. intros H1 H2. cbn [sv_run]. by rewrite H1. Qed.

(** ** Readiness *)

Lemma ready_subscribed configured n s :
  configured ≠ ∅ → sv_inv configured n s → is_ready (sv_status s) = true →
  subscribed (sv_status s) ∧ connected (sv_status s) = true ∧ sv_pc s ≠ InShutdown.
Proof.
  intros Hne H Hr. unfold is_ready in Hr. to_prop. destruct H. split_and!; [|done|].
  - unfold subscribed. congruence.
  - intros Hpc. unfold pc_inv in *. rewrite Hpc in *. congruence.
Qed.

Lemma list_to_set_ne (subjects : list string) : subjects ≠ [] → list_to_set (C := gset string) subjects ≠ ∅.
Proof. destruct subjects; [done|]. cbn. set_solver. Qed.

(** The lifecycle arm touches nothing it shares with the callback. *)
Definition same_shared s s' : Prop :=
  sv_status s' = sv_status s ∧ sv_triggers s' = sv_triggers s ∧ sv_snapshot s' = sv_snapshot s ∧ sv_lock s' = sv_lock s.

Lemma lifecycle_connection_shared d s : same_shared s (lifecycle_connection host port subject_count ingress d s).
Proof. unfold lifecycle_connection, connected_generation_action. repeat (case_match; try done). Qed.

Lemma lifecycle_invalidated_shared d now s :
  same_shared s (lifecycle_invalidated host port subject_count ingress d now s).
Proof.
  unfold lifecycle_invalidated. destruct (outage_begin _ _) as [[] o]; repeat case_match; try done;
    match goal with |- context [lifecycle_connection _ _ _ _ _ ?t] => destruct (lifecycle_connection_shared d t) end; done.
Qed.

Lemma lifecycle_arm_shared now s : same_shared s (lifecycle_arm host port subject_count ingress now s).
Proof.
  unfold lifecycle_arm. case_match.
  - match goal with |- context [lifecycle_connection _ _ _ _ ?d ?t] => by destruct (lifecycle_connection_shared d t) end.
  - case_match; [done|].
    match goal with |- context [lifecycle_invalidated _ _ _ _ ?d ?n ?t] => by destruct (lifecycle_invalidated_shared d n t) end.
Qed.

(** A delivered connection or a report from another task makes nothing ready. *)
Lemma callback_not_ready configured n s event :
  configured ≠ ∅ → sv_inv configured n s → sv_lock s = None → sv_pc s ≠ InShutdown →
  is_ready (delivered_readiness event (sv_status s)) = true → is_ready (sv_status s) = true.
Proof.
  intros Hne H Hl Hpc Hr. destruct event; cbn in Hr; [done| | |].
  - unfold is_ready in *. cbn in Hr. to_prop. destruct (si_confirmed _ _ _ H Hpc) as (tags & _ & (_ & _ & _ & Hc & _)).
    { unfold subscribed. destruct H. congruence. }
    rewrite (si_link _ _ _ H), Hl. cbn. rewrite Hc, bool_decide_true by done. repeat (rewrite andb_true_iff; split); done.
  - unfold is_ready in Hr. cbn in Hr. to_prop. done.
  - unfold is_ready in Hr. cbn in Hr. to_prop. destruct H. congruence.
Qed.

(** What a step does to readiness and to the triggers. *)
Lemma boundary_step configured n s s' st :
  configured ≠ ∅ → sv_inv configured n s → step st s = Some s' →
  (sv_triggers s' = sv_triggers s ∧ (is_ready (sv_status s') = true → is_ready (sv_status s) = true)) ∨
  (is_ready (sv_status s) = false ∧ is_ready (sv_status s') = true ∧
   sv_triggers s' = if reconcile then sv_triggers s ++ [reconcile_reason_for_ready_generation (sv_ready_generations s)]
                    else sv_triggers s).
Proof.
  intros Hne H Hstep.
  destruct st as [event| |op|now|id|now|result|now| |now|b|]; cbn -[update] in Hstep.
  all: try (left; repeat (case_match; simplify_eq/=); done).
  - left. destruct (sv_lock s) eqn:Hl; [done|]. case_bool_decide; simplify_eq; [done|]. split; [done|]. cbn [sv_status with_lock with_status].
    assert (sv_pc s = InShutdown ∨ sv_pc s ≠ InShutdown) as [Hpc|Hpc] by (destruct (sv_pc s); auto; by right);
      [|by apply (callback_not_ready configured n)].
    pose proof (si_pc _ _ _ H) as Hp. unfold pc_inv in Hp. rewrite Hpc in Hp. unfold is_ready.
    destruct event; cbn; rewrite Hp, ?andb_false_r; done.
  - left. destruct (sv_lock s); [|done]. cbn in Hstep. by simplify_eq.
  - left. destruct op as [| | | |[]|[]|]; simplify_eq; (split; [done|]); unfold is_ready; cbn; rewrite ?andb_false_r; done.
  - left. destruct (sv_pc s); try done. destruct (sv_changed s); simplify_eq. by destruct (lifecycle_arm_shared now s) as (-> & -> & _).
  - left. destruct (sv_pc s); try done. simplify_eq. unfold signal_arm. repeat (case_match; try done); cbn.
    all: split; [done|]; unfold is_ready; cbn; intros Hr; to_prop; destruct H; congruence.
  - destruct (sv_pc s); try done. destruct (sv_barrier s) as [tags|]; [|done]. destruct (sv_lock s); [done|]. simplify_eq.
    unfold barrier_arm, commit_barrier. destruct (match result with Some r => _ | None => false end); [|by left].
    cbn [sv_snapshot sv_generation sv_status with_barrier].
    destruct (barrier_tags_match tags (sv_snapshot s) (sv_generation s)); cbn [negb]; [|by left].
    unfold update, became_ready. cbn [was_ready now_ready].
    destruct (is_ready (sv_status s)) eqn:Hr, (is_ready (mutate _ _)) eqn:Hr'; cbn -[is_ready mutate]; rewrite ?Hr, ?Hr'; auto.
  - left. destruct (sv_pc s); try done. simplify_eq. split; [done|]. unfold is_ready. cbn. by rewrite andb_false_r.
  - left. destruct (sv_pc s); try done. simplify_eq.
    match goal with |- context [lifecycle_invalidated _ _ _ _ ?d ?n ?t] => by destruct (lifecycle_invalidated_shared d n t) as (-> & -> & _) end.
Qed.

(** ** Properties *)

Abbreviation start subjects := (supervisor_new (readiness_new subjects)).

Lemma reachable_inv subjects steps s :
  Z.of_nat (length steps) < U64_MAX → run steps (start subjects) = Some s →
  sv_inv (list_to_set subjects) (Z.of_nat (length steps)) s.
Proof. intros Hlen Hrun. apply (sv_run_inv _ 0 (start subjects)); [apply sv_inv_new|lia|done]. Qed.

(** [C15] The bridge is ready only behind a confirmed round trip: in every reachable
    state that is ready, the last committed barrier is for the live subscription
    generation, no disconnect or error was delivered since the barrier was
    started (nor is one being delivered), and the connection was delivered after
    the last invalidation. *)
Theorem ready_is_confirmed subjects steps s :
  subjects ≠ [] → Z.of_nat (length steps) < U64_MAX → run steps (start subjects) = Some s →
  is_ready (sv_status s) = true →
  ∃ tags, last (sv_commits s) = Some tags ∧ confirmed tags (sv_snapshot s) (sv_generation s) ∧
    (sv_lock s = None ∨ sv_lock s = Some DlConnected).
Proof.
  intros Hne Hlen Hrun Hr.
  pose proof (reachable_inv _ _ _ Hlen Hrun) as H.
  destruct (ready_subscribed _ _ _ (list_to_set_ne _ Hne) H Hr) as (Hsub & Hc & Hpc).
  destruct (si_confirmed _ _ _ H Hpc Hsub) as (tags & Hlast & Hconf). exists tags. split_and!; [done..|].
  pose proof (si_lock _ _ _ H) as Hlock. pose proof (si_event _ _ _ H) as Hev.
  destruct (sv_lock s) as [[]|]; [done|by right| | |by left]; exfalso; apply Hlock; auto.
Qed.

(** Reconciliation is requested exactly at the readiness boundaries: a step
    triggers it iff it takes the bridge from not ready to ready, once, with
    [StartupReady] for the first boundary and [ReconnectReady] for every later
    one. *)
Theorem boundary_triggers_exact subjects steps s st s' :
  subjects ≠ [] → Z.of_nat (length steps) < U64_MAX → run steps (start subjects) = Some s → step st s = Some s' →
  reconcile = true →
  sv_triggers s' = sv_triggers s ++
    (if negb (is_ready (sv_status s)) && is_ready (sv_status s')
     then [if bool_decide (sv_triggers s = []) then StartupReady else ReconnectReady]
     else []).
Proof.
  intros Hne Hlen Hrun Hstep Hrec.
  pose proof (reachable_inv _ _ _ Hlen Hrun) as H.
  destruct (boundary_step _ _ _ _ _ (list_to_set_ne _ Hne) H Hstep) as [[Ht Himp]|(Hr & Hr' & Ht)].
  - rewrite Ht. destruct (is_ready (sv_status s')); [rewrite Himp by done|rewrite andb_false_r]; cbn; by rewrite app_nil_r.
  - rewrite Ht, Hr, Hr', Hrec. cbn [negb andb]. do 2 f_equal. pose proof (si_ready _ _ _ H).
    rewrite (si_triggers _ _ _ H). unfold boundary_triggers, reconcile_reason_for_ready_generation. rewrite Hrec. cbn [andb].
    destruct (Z.eqb_spec (sv_ready_generations s) 0) as [->|]; [done|].
    rewrite (proj2 (Z.ltb_lt _ _)) by lia. by rewrite bool_decide_false.
Qed.

(** No arm of the supervisor reaches one of its [unreachable!] branches or fails
    an assertion, and a generation is never confused with an earlier one: the
    live generation's id is below the next id to be used. *)
Theorem supervisor_never_panics subjects steps s :
  Z.of_nat (length steps) < U64_MAX → run steps (start subjects) = Some s →
  sv_pc s ≠ Panicked ∧ ∀ g, sv_generation s = Some g → 1 ≤ g < sv_next_generation_id s.
Proof.
  intros Hlen Hrun. pose proof (reachable_inv _ _ _ Hlen Hrun) as [].
  split; [|done]. intros Hpc. unfold pc_inv in *. by rewrite Hpc in *.
Qed.

(** Nothing delivered after the last invalidation, and no connection under way. *)
Definition stale s : Prop :=
  ls_connected_sequence (sv_snapshot s) ≤ ls_invalidation_sequence (sv_snapshot s) ∧ sv_lock s ≠ Some DlConnected.

Lemma stale_shared s s' : sv_snapshot s' = sv_snapshot s → sv_lock s' = sv_lock s → stale s → stale s'.
Proof. unfold stale. by intros -> ->. Qed.

Lemma stale_step configured n s s' st :
  sv_inv configured n s → n + 1 < U64_MAX → stale s → st ≠ CallbackReadiness DlConnected → step st s = Some s' → stale s'.
Proof.
  intros H Hn Hst Hne Hstep.
  destruct st as [event| |op|now|id|now|result|now| |now|b|]; cbn -[update] in Hstep.
  all: try (repeat (case_match; simplify_eq/=); by apply (stale_shared s)).
  - destruct (sv_lock s) eqn:Hl; [done|]. case_bool_decide; simplify_eq; [done|]. split; [by apply Hst|]. cbn. congruence.
  - destruct (sv_lock s) as [event|] eqn:Hl; [|done]. cbn in Hstep. simplify_eq. destruct Hst as [Hle Hlock].
    split; [|done]. pose proof (si_snapshot _ _ _ H) as []. destruct event; cbn; try congruence; rewrite saturating_succ by lia; lia.
  - destruct (sv_pc s); try done. destruct (sv_changed s); simplify_eq.
    destruct (lifecycle_arm_shared now s) as (_ & _ & ? & ?). by apply (stale_shared s).
  - destruct (sv_pc s); try done. simplify_eq. unfold signal_arm. repeat (case_match; try done).
  - destruct (sv_pc s); try done. destruct (sv_barrier s) as [tags|]; [|done]. destruct (sv_lock s); [done|]. simplify_eq.
    unfold barrier_arm, commit_barrier. repeat (case_match; simplify_eq/=; try done).
  - destruct (sv_pc s); try done. simplify_eq.
    match goal with |- context [lifecycle_invalidated _ _ _ _ ?d ?n ?t] =>
      destruct (lifecycle_invalidated_shared d n t) as (_ & _ & ? & ?) end. by apply (stale_shared s).
Qed.

(** After a delivered disconnect or error nothing makes the bridge ready again
    but a newly delivered connection: not a commit of a barrier in flight, not a
    rebuilt generation, not a retry. *)
Theorem only_a_connection_restores subjects steps s steps' s' :
  subjects ≠ [] → Z.of_nat (length steps + length steps') < U64_MAX →
  run steps (start subjects) = Some s → stale s →
  Forall (λ st, st ≠ CallbackReadiness DlConnected) steps' → run steps' s = Some s' →
  is_ready (sv_status s') = false.
Proof.
  intros Hne Hlen Hrun Hst Hquiet Hrun'.
  assert (stale s') as Hst'.
  { clear Hne. pose proof (reachable_inv subjects steps s ltac:(lia) Hrun) as H. clear Hrun.
    remember (Z.of_nat (length steps)) as n eqn:En.
    assert (n + Z.of_nat (length steps') < U64_MAX) as Hn by lia. clear En Hlen steps.
    revert n s H Hn Hst Hrun'. induction Hquiet as [|st steps' Hq _ IH]; intros n s H Hn Hst Hrun'; cbn [sv_run length] in *.
    - by simplify_eq.
    - destruct (step st s) as [s1|] eqn:Hs; [|done]. cbn in Hrun'.
      apply (IH (n + 1) s1); [|lia| |done];
        [by apply (sv_step_inv _ n s s1 st); [|lia|]|by apply (stale_step (list_to_set subjects) n s s1 st); [|lia| | |]]. }
  destruct (is_ready (sv_status s')) eqn:Hr; [|done]. exfalso.
  assert (run (steps ++ steps') (start subjects) = Some s') as Hall. by (by apply (sv_run_app _ _ _ s)).
  pose proof (reachable_inv subjects (steps ++ steps') s' ltac:(rewrite length_app; lia) Hall) as H.
  destruct (ready_subscribed _ _ _ (list_to_set_ne _ Hne) H Hr) as (Hsub & _ & Hpc).
  destruct (si_confirmed _ _ _ H Hpc Hsub) as (tags & _ & (_ & _ & _ & _ & ?)). destruct Hst'. lia.
Qed.

(** The supervisor's own steps when subscribing and the round trip succeed. *)
Definition succeeding (now : Z) (st : SvStep) : Prop :=
  st = ArmLifecycle now ∨ st = BarrierStopped now ∨ st = GenerationBuilt true ∨ st = ArmBarrier (Some (Err NoResponders)).

Definition can_be_ready (b : BridgeStatus) : Prop :=
  enabled b = true ∧ accepting b = true ∧ delivery_healthy b = true ∧ exclusion_healthy b = true ∧ connected b = true.

Lemma barrier_succeeds s c g :
  sv_pc s = AtSelect → sv_lock s = None → sv_snapshot s = c → ls_connected c = true → sv_generation s = Some g →
  sv_barrier s = start_barrier (sv_generation s) c → can_be_ready (sv_status s) →
  ∃ s', step (ArmBarrier (Some (Err NoResponders))) s = Some s' ∧ is_ready (sv_status s') = true.
Proof.
  intros Hpc Hl Hc Hconn Hg Hb (H1 & H2 & H3 & H4 & H5). cbn [sv_step]. rewrite Hpc, Hb, Hg, Hl. cbn [start_barrier mbind option_bind].
  eexists. split; [reflexivity|]. unfold barrier_arm. cbn [broker_round_trip]. unfold commit_barrier.
  cbn [sv_snapshot sv_generation sv_status with_barrier]. rewrite Hc, Hg.
  assert (barrier_tags_match (mkTags (ls_connection_epoch c) (ls_invalidation_epoch c) g) c (Some g) = true) as Hm
    by (unfold barrier_tags_match; cbn; by rewrite Hconn, !Z.eqb_refl, bool_decide_true).
  rewrite Hm. cbn [negb update]. match goal with |- context [became_ready ?t] => destruct (became_ready t) end; cbn.
  all: unfold is_ready; cbn; by rewrite H1, H2, H3, H4, H5, bool_decide_true.
Qed.

Lemma connection_succeeds s c now :
  ingress = true → sv_lock s = None → sv_snapshot s = c → ls_connection_epoch c ≠ sv_handled_connection_epoch s →
  barrier_allowed_after_latest_delivery c = true → can_be_ready (sv_status s) →
  ∃ cont s', Forall (succeeding now) cont ∧
    run cont (lifecycle_connection host port subject_count ingress c s) = Some s' ∧ is_ready (sv_status s') = true.
Proof.
  intros Hi Hl Hc Hne Ha Hready. pose proof Ha as Ha'. unfold barrier_allowed_after_latest_delivery in Ha'. to_prop.
  unfold lifecycle_connection. rewrite (proj2 (Z.eqb_neq _ _)) by done.
  replace (negb ingress) with false by (by rewrite Hi).
  unfold connected_generation_action. cbn [sv_generation emit_action with_outage with_handled].
  destruct (sv_generation s) as [g|] eqn:Hg.
  - rewrite bool_decide_true, Ha by done.
    remember (with_pc AtSelect _) as t eqn:Et.
    destruct (barrier_succeeds t c g) as (s' & Hs & Hr); [subst t; cbn; rewrite ?Hg; try done..|].
    exists [ArmBarrier (Some (Err NoResponders))], s'. split_and!; [|by eapply sv_run_cons|done].
    apply Forall_singleton. by do 3 right.
  - rewrite Nat.eqb_refl.
    remember (with_pc (LifecycleBuild c) _) as t eqn:Et.
    destruct (barrier_succeeds (with_pc AtSelect (with_barrier (start_barrier (Some (sv_next_generation_id s)) c) (built true t)))
      c (sv_next_generation_id s)) as (s' & Hs & Hr); [by subst t..|].
    exists [GenerationBuilt true; ArmBarrier (Some (Err NoResponders))], s'. split_and!; [|eapply sv_run_cons; [|by eapply sv_run_cons]|done].
    { apply Forall_cons; split; [by do 2 right; left|]. apply Forall_singleton. by do 3 right. }
    subst t. cbn [sv_step sv_pc with_pc]. by rewrite Ha.
Qed.


End facts.

(** A connection and its loss that reach the supervisor as one change leave the
    outage unwatched: after the lifecycle arm the bridge is disconnected and the
    loss is handled, yet no warning deadline is armed, so the periodic outage
    warning cannot fire. *)
Theorem coalesced_loss_silences_warnings host port n ingress reconcile now later s :
  sv_barrier s = None → ls_connected (sv_snapshot s) = false →
  ls_connection_epoch (sv_snapshot s) ≠ sv_handled_connection_epoch s →
  ls_invalidation_epoch (sv_snapshot s) ≠ sv_handled_invalidation_epoch s →
  let s' := lifecycle_arm host port n ingress now s in
  ls_connected (sv_snapshot s') = false ∧ sv_handled_invalidation_epoch s' = ls_invalidation_epoch (sv_snapshot s') ∧
  sv_outage s' = None ∧ sv_step host port n ingress reconcile (ArmOutage later) s' = None.
Proof.
  intros Hb Hd Hc Hi s'.
  assert (ls_connected (sv_snapshot s') = false ∧ sv_handled_invalidation_epoch s' = ls_invalidation_epoch (sv_snapshot s') ∧
    sv_outage s' = None) as (? & ? & Ho).
  { subst s'. unfold lifecycle_arm. cbn [sv_handled_invalidation_epoch with_snapshot]. rewrite (proj2 (Z.eqb_neq _ _)) by done.
    cbn [sv_barrier with_handled with_snapshot]. rewrite Hb. unfold lifecycle_invalidated, disconnected_reason.
    destruct (outage_begin now _) as [first o]. rewrite Hd.
    destruct (ls_connection_epoch (sv_snapshot s) =? 0); unfold lifecycle_connection.
    all: cbn [sv_handled_connection_epoch emit_action with_outage with_handled with_snapshot].
    all: rewrite (proj2 (Z.eqb_neq _ _)) by done; unfold connected_generation_action; repeat case_match; done. }
  split_and!; try done. cbn [sv_step]. rewrite Ho. by destruct (sv_pc s').
Qed.

(** ** Evaluation *)

Definition toy_run := sv_run "localhost" 4222 1 true true.
Definition toy_start : Supervisor := supervisor_new (readiness_new ["tracks"%string]).

Definition steps_up : list SvStep :=
  [CallbackReadiness DlConnected; CallbackSnapshot; ArmLifecycle 0; GenerationBuilt true; ArmBarrier (Some (Err NoResponders))].

Definition steps_reconnect : list SvStep :=
  steps_up ++ [CallbackReadiness DlDisconnected; CallbackSnapshot; CallbackReadiness DlConnected; CallbackSnapshot].

Definition final (steps : list SvStep) : Supervisor := default toy_start (toy_run steps toy_start).

(** Evaluate a closed goal. *)
Ltac by_eval := vm_compute; first [reflexivity | discriminate | done].

Lemma ready_is_confirmed_witness :
  is_ready (sv_status (final steps_up)) = true ∧ last (sv_commits (final steps_up)) = Some (mkTags 1 0 1).
Proof.
  split; [by_eval|].
  destruct (ready_is_confirmed "localhost" 4222 1 true true ["tracks"%string] steps_up (final steps_up)) as (tags & H & _);
    [discriminate|by_eval|by_eval|by_eval|].
  rewrite H. revert H. vm_compute. intros [= <-]. reflexivity.
Defined.

Lemma boundary_triggers_exact_witness :
  sv_triggers (final steps_up) = sv_triggers (final (take 4 steps_up)) ++ [StartupReady].
Proof.
  rewrite (boundary_triggers_exact "localhost" 4222 1 true true ["tracks"%string] (take 4 steps_up) (final (take 4 steps_up))
    (ArmBarrier (Some (Err NoResponders))) (final steps_up)); [by_eval|discriminate|by_eval..].
Defined.

Lemma supervisor_never_panics_witness : sv_pc (final steps_reconnect) ≠ Panicked.
Proof.
  apply (supervisor_never_panics "localhost" 4222 1 true true ["tracks"%string] steps_reconnect); by_eval.
Defined.

Definition steps_error : list SvStep := steps_up ++ [CallbackReadiness DlError; CallbackSnapshot].
Definition steps_after : list SvStep := [ArmLifecycle 1; ArmSignal 1; GenerationStopped; GenerationBuilt true].

Lemma only_a_connection_restores_witness : is_ready (sv_status (final (steps_error ++ steps_after))) = false.
Proof.
  apply (only_a_connection_restores "localhost" 4222 1 true true ["tracks"%string] steps_error (final steps_error) steps_after);
    [discriminate|by_eval|by_eval| | |by_eval].
  - split; by_eval.
  - repeat constructor; discriminate.
Defined.


Definition steps_coalesced : list SvStep :=
  [CallbackReadiness DlConnected; CallbackSnapshot; CallbackReadiness DlDisconnected; CallbackSnapshot].

Lemma coalesced_loss_silences_warnings_witness :
  toy_run steps_coalesced toy_start = Some (final steps_coalesced) ∧
  sv_outage (lifecycle_arm "localhost" 4222 1 true 7 (final steps_coalesced)) = None.
Proof.
  split; [by_eval|].
  apply (coalesced_loss_silences_warnings "localhost" 4222 1 true true 7 8); by_eval.
Defined.
