(* ===== verification/Shutdown.v ===== *)
(** * Shutdown and operations of the bridge runtime

    Model of [BridgeRuntimeHandle::shutdown] and the supervisor's shutdown arm in
    [src/nats_bridge/runtime.rs], and of [src/nats_bridge/operations.rs], which
    counts their outcomes. All waiting is [timeout_at] one deadline. How the tasks
    end is an input: a task's handle resolves at some time or never ([TaskEnd]);
    the time of a producer is the one after its abort. Computation takes no
    time. *)

From S2P Require Import Prelude Journal LedgerWorker Readiness RateLimit Envelope NatsConfig Egress NodeDocs Ingress Reconcile Lifecycle.

(** ** Waiting *)

(** [Result<A, JoinError>] *)
Inductive JoinOutcome (A : Type) := Joined (a : A) | Cancelled | TaskPanic.
Arguments Joined {A}. Arguments Cancelled {A}. Arguments TaskPanic {A}.

(** When a future resolves, if it does, and to what. *)
Record TaskEnd (A : Type) := mkEnd { te_time : option Z; te_value : A }.
Arguments mkEnd {A}. Arguments te_time {A}. Arguments te_value {A}.

(** [tokio::time::timeout_at] at [now]: the future is polled first, so one that
    has resolved wins over a deadline that has passed. *)
Definition timeout_at {A} (deadline now : Z) (t : TaskEnd A) : option A * Z :=
  match te_time t with
  | Some time =>
      if time <=? Z.max now deadline then (Some (te_value t), Z.max now time) else (None, Z.max now deadline)
  | None => (None, Z.max now deadline)
  end.

(** ** Reports *)

Inductive BridgeShutdownPhase := Running | Quiescing | Aborting | PhaseComplete.

Inductive BridgeShutdownStage :=
| Producers | Consumers | ClientFlush | ClientDrain | LedgerExclusion | LedgerDelivery | StageComplete.

Inductive LedgerWorkerKind := ExclusionWorker | DeliveryWorker.

Inductive BridgeShutdownFailure :=
| DeadlineExceeded | TaskPanicked | ClientFailure | LedgerIoUnjoined (kind : LedgerWorkerKind).

#[global] Instance BridgeShutdownPhase_eq_dec : EqDecision BridgeShutdownPhase.
Proof. solve_decision. Defined.
#[global] Instance LedgerWorkerKind_eq_dec : EqDecision LedgerWorkerKind.
Proof. solve_decision. Defined.
#[global] Instance BridgeShutdownFailure_eq_dec : EqDecision BridgeShutdownFailure.
Proof. solve_decision. Defined.

Record BridgeShutdownReport := mkReport {
  phase : BridgeShutdownPhase;
  stage : BridgeShutdownStage;
  joined_tasks : Z;
  aborted_tasks : Z;
  failure : option BridgeShutdownFailure;
}.

Definition report_clean (joined aborted : Z) : BridgeShutdownReport :=
  mkReport PhaseComplete StageComplete joined aborted None.

Definition is_clean (r : BridgeShutdownReport) : bool :=
  bool_decide (failure r = None) && bool_decide (phase r = PhaseComplete).

Record SupervisorShutdown := mkSupervisorShutdown {
  ss_stage : BridgeShutdownStage;
  ss_failure : option BridgeShutdownFailure;
}.

(** ** The supervisor's shutdown arm *)

(** One turn of the loop that waits for the client to leave [Connected]: the next
    lifecycle change comes at some time or never, or its sender is gone. *)
Inductive DrainWait := NextChange (time : option Z) | SenderGone.

(** The turns for which the client is still connected; afterwards it is not. *)
Fixpoint wait_disconnected (deadline now : Z) (turns : list DrainWait) : SupervisorShutdown * Z :=
  match turns with
  | [] | SenderGone :: _ => (mkSupervisorShutdown StageComplete None, now)
  | NextChange time :: rest =>
      match timeout_at deadline now (mkEnd time tt) with
      | (Some _, now) => wait_disconnected deadline now rest
      | (None, now) => (mkSupervisorShutdown ClientDrain (Some DeadlineExceeded), now)
      end
  end.

(** What the arm waits for, in order. [BarrierAttempt::stop_at] and
    [SubscriptionGeneration::stop_at] resolve whatever the aborted task's end. *)
Record SupervisorWork := mkWork {
  sw_barrier : option (TaskEnd unit);
  sw_generation : option (TaskEnd unit);
  sw_egress : option (TaskEnd (JoinOutcome unit));
  sw_flush : TaskEnd (result unit unit);
  sw_drain : TaskEnd (result unit unit);
  sw_turns : list DrainWait;
}.

(** An optional wait: go on with the time after it, or end early. *)
Definition stop_optional (deadline now : Z) (t : option (TaskEnd unit)) : bool * Z :=
  match t with
  | None => (true, now)
  | Some t => let '(r, now) := timeout_at deadline now t in (bool_decide (is_Some r), now)
  end.

Definition client_stage (st : BridgeShutdownStage) (deadline now : Z) (t : TaskEnd (result unit unit))
  : option SupervisorShutdown * Z :=
  match timeout_at deadline now t with
  | (Some (Ok _), now) => (None, now)
  | (Some (Err _), now) => (Some (mkSupervisorShutdown st (Some ClientFailure)), now)
  | (None, now) => (Some (mkSupervisorShutdown st (Some DeadlineExceeded)), now)
  end.

Definition supervisor_shutdown (deadline now : Z) (w : SupervisorWork) : SupervisorShutdown * Z :=
  let '(stopped, now) := stop_optional deadline now (sw_barrier w) in
  if negb stopped then (mkSupervisorShutdown Producers (Some DeadlineExceeded), now)
  else
    let '(stopped, now) := stop_optional deadline now (sw_generation w) in
    if negb stopped then (mkSupervisorShutdown Producers (Some DeadlineExceeded), now)
    else
      let '(early, now) :=
        match sw_egress w with
        | None => (None, now)
        | Some task =>
            match timeout_at deadline now task with
            | (Some (Joined _), now) => (None, now)
            | (Some _, now) => (Some (mkSupervisorShutdown Consumers (Some TaskPanicked)), now)
            | (None, now) => (Some (mkSupervisorShutdown Consumers (Some DeadlineExceeded)), now)
            end
        end in
      match early with
      | Some r => (r, now)
      | None =>
          match client_stage ClientFlush deadline now (sw_flush w) with
          | (Some r, now) => (r, now)
          | (None, now) =>
              match client_stage ClientDrain deadline now (sw_drain w) with
              | (Some r, now) => (r, now)
              | (None, now) => wait_disconnected deadline now (sw_turns w)
              end
          end
      end.

(** ** The handle's shutdown *)

(** [join_ledger_worker]: every way of not joining reads the same *)
Definition join_ledger_worker (ledger : option (TaskEnd (JoinOutcome (result LedgerError unit)))) (kind : LedgerWorkerKind)
    (deadline now : Z) : option BridgeShutdownFailure * Z :=
  match ledger with
  | None => (None, now)
  | Some t =>
      match timeout_at deadline now t with
      | (Some (Joined (Ok _)), now) => (None, now)
      | (_, now) => (Some (LedgerIoUnjoined kind), now)
      end
  end.

(** The local variables of [shutdown]. *)
Record Progress := mkProgress {
  pg_now : Z;
  pg_joined : Z;
  pg_aborted : Z;
  pg_failure : option BridgeShutdownFailure;
  pg_stage : BridgeShutdownStage;
}.

Definition usize_succ (x : Z) : Z := saturating_add_u64 x 1.

(** [if failure.is_none() { failure = ..; failure_stage = .. }] *)
Definition fail_first (f : BridgeShutdownFailure) (st : BridgeShutdownStage) (p : Progress) : Progress :=
  match pg_failure p with
  | Some _ => p
  | None => mkProgress (pg_now p) (pg_joined p) (pg_aborted p) (Some f) st
  end.
Definition add_joined (p : Progress) : Progress :=
  mkProgress (pg_now p) (usize_succ (pg_joined p)) (pg_aborted p) (pg_failure p) (pg_stage p).
Definition add_aborted (p : Progress) : Progress :=
  mkProgress (pg_now p) (pg_joined p) (usize_succ (pg_aborted p)) (pg_failure p) (pg_stage p).
Definition set_now (now : Z) (p : Progress) : Progress :=
  mkProgress now (pg_joined p) (pg_aborted p) (pg_failure p) (pg_stage p).

Definition join_producer (deadline : Z) (p : Progress) (t : TaskEnd (JoinOutcome unit)) : Progress :=
  let '(r, now) := timeout_at deadline (pg_now p) t in
  let p := set_now now p in
  match r with
  | Some (Joined _) | Some Cancelled => add_aborted (add_joined p)
  | Some TaskPanic => fail_first TaskPanicked Producers (add_aborted (add_joined p))
  | None => fail_first DeadlineExceeded Producers (add_aborted p)
  end.

(** Consumers and the operations task. *)
Definition join_consumer (deadline : Z) (p : Progress) (t : TaskEnd (JoinOutcome unit)) : Progress :=
  let '(r, now) := timeout_at deadline (pg_now p) t in
  let p := set_now now p in
  match r with
  | Some (Joined _) => add_joined p
  | Some _ => fail_first TaskPanicked Consumers (add_joined p)
  | None => fail_first DeadlineExceeded Consumers (add_aborted p)
  end.

Definition join_supervisor (deadline : Z) (p : Progress) (t : TaskEnd (JoinOutcome SupervisorShutdown)) : Progress :=
  let '(r, now) := timeout_at deadline (pg_now p) t in
  let p := set_now now p in
  let '(outcome, p) :=
    match r with
    | Some (Joined outcome) => (outcome, add_joined p)
    | Some _ => (mkSupervisorShutdown Consumers (Some TaskPanicked), add_joined p)
    | None => (mkSupervisorShutdown Consumers (Some DeadlineExceeded), add_aborted p)
    end in
  match ss_failure outcome with
  | Some f => fail_first f (ss_stage outcome) p
  | None => p
  end.

(** What the handle owns, as the ends of its parts. *)
Record HandleWork := mkHandleWork {
  hw_producers : list (TaskEnd (JoinOutcome unit));
  hw_supervisor : TaskEnd (JoinOutcome SupervisorShutdown);
  hw_consumers : list (TaskEnd (JoinOutcome unit));
  hw_exclusion : option (TaskEnd (JoinOutcome (result LedgerError unit)));
  hw_delivery : option (TaskEnd (JoinOutcome (result LedgerError unit)));
  hw_operations : option (TaskEnd (JoinOutcome unit));
}.

(** The report and the time at which it is ready. *)
Definition shutdown_report (timeout now : Z) (w : HandleWork) : BridgeShutdownReport * Z :=
  let deadline := now + timeout in
  let p := mkProgress now 0 0 None StageComplete in
  let p := foldl (join_producer deadline) p (hw_producers w) in
  let p := join_supervisor deadline p (hw_supervisor w) in
  let p := foldl (join_consumer deadline) p (hw_consumers w) in
  let '(exclusion_failure, now) := join_ledger_worker (hw_exclusion w) ExclusionWorker deadline (pg_now p) in
  let '(delivery_failure, now) := join_ledger_worker (hw_delivery w) DeliveryWorker deadline now in
  let p := set_now now p in
  let p :=
    match exclusion_failure, delivery_failure with
    | Some f, _ => fail_first f LedgerExclusion p
    | None, Some f => fail_first f LedgerDelivery p
    | None, None => p
    end in
  let p := match hw_operations w with Some t => join_consumer deadline p t | None => p end in
  (match pg_failure p with
   | Some f => mkReport Aborting (pg_stage p) (pg_joined p) (pg_aborted p) (Some f)
   | None => report_clean (pg_joined p) (pg_aborted p)
   end, pg_now p).

(** ** Operations: outcome counters and the aggregate snapshot *)

Record Outcomes := mkOutcomes {
  shutdown_clean : Z;
  shutdown_failure : Z;
  shutdown_timeout : Z;
  shutdown_aborted_tasks : Z;
  ledger_io_unjoined : Z;
}.

Definition outcomes_default : Outcomes := mkOutcomes 0 0 0 0 0.

Definition record_shutdown (r : BridgeShutdownReport) (o : Outcomes) : Outcomes :=
  let clean := is_clean r in
  mkOutcomes
    (if clean then wrapping_add_u64 (shutdown_clean o) 1 else shutdown_clean o)
    (if clean then shutdown_failure o else wrapping_add_u64 (shutdown_failure o) 1)
    (match failure r with
     | Some DeadlineExceeded => wrapping_add_u64 (shutdown_timeout o) 1
     | _ => shutdown_timeout o
     end)
    (wrapping_add_u64 (shutdown_aborted_tasks o) (aborted_tasks r))
    (match failure r with
     | Some (LedgerIoUnjoined _) => wrapping_add_u64 (ledger_io_unjoined o) 1
     | _ => ledger_io_unjoined o
     end).

(** [BridgeRuntimeHandle::shutdown]: readiness stops accepting before anything is
    awaited; the report is counted and is the error when it is not clean. *)
Definition shutdown (timeout now : Z) (w : HandleWork) (status : BridgeStatus) (o : Outcomes)
  : result BridgeShutdownReport BridgeShutdownReport * Z * BridgeStatus * Outcomes :=
  let status := (update BeginShutdown status).2 in
  let '(report, now) := shutdown_report timeout now w in
  (if is_clean report then Ok report else Err report, now, status, record_shutdown report o).

Record ReconcileSnapshot := mkReconcileSnapshot {
  rs_triggers : Z;
  rs_coalesced : Z;
  rs_scans : Z;
  rs_hydrated : Z;
  rs_suppressed : Z;
  rs_failures : Z;
}.

Record BridgeOperationsSnapshot := mkOperationsSnapshot {
  os_enabled : bool;
  os_accepting : bool;
  os_ready : bool;
  os_connected : bool;
  os_delivery_healthy : bool;
  os_exclusion_healthy : bool;
  os_received : Z;
  os_stored : Z;
  os_invalid_input : Z;
  os_self_suppressed : Z;
  os_store_failures : Z;
  os_slow_consumer : Z;
  os_remote_published : Z;
  os_publish_failures : Z;
  os_reconnects : Z;
  os_event_lagged : Z;
  os_queue_loss : Z;
  os_ledger_failures : Z;
  os_delivery_reservations : Z;
  os_delivery_completions : Z;
  os_delivery_reservations_uncertain : Z;
  os_reconciliation : ReconcileSnapshot;
  os_outcomes : Outcomes;
}.

Definition aggregate (ingress : IngressStats) (egress : EgressStats) (reconcile : ReconcileSnapshot)
    (readiness : BridgeStatus) (lifecycle : LifecycleSnapshot) (outcomes : Outcomes) : BridgeOperationsSnapshot :=
  {| os_enabled := enabled readiness;
     os_accepting := accepting readiness;
     os_ready := is_ready readiness;
     os_connected := connected readiness;
     os_delivery_healthy := delivery_healthy readiness;
     os_exclusion_healthy := exclusion_healthy readiness;
     os_received := ingress i_received;
     os_stored := ingress i_stored;
     os_invalid_input := saturating_add_u64 (ingress i_invalid_utf8) (ingress i_invalid_json);
     os_self_suppressed := ingress i_self_suppressed;
     os_store_failures := ingress i_final_store_failures;
     os_slow_consumer := ingress i_slow_consumer_events;
     os_remote_published := egress c_published;
     os_publish_failures :=
       saturating_add_u64 (saturating_add_u64 (egress c_publish_failed) (egress c_max_payload_exceeded)) (egress c_flush_failed);
     os_reconnects := saturating_sub_u64 (ls_connection_epoch lifecycle) 1;
     os_event_lagged := egress c_event_lagged;
     os_queue_loss := saturating_add_u64 (egress c_queue_full) (egress c_queue_closed);
     os_ledger_failures := egress c_ledger_unavailable;
     os_delivery_reservations := egress c_reserved;
     os_delivery_completions := egress c_completed;
     os_delivery_reservations_uncertain := saturating_sub_u64 (egress c_reserved) (egress c_completed);
     os_reconciliation := reconcile;
     os_outcomes := outcomes |}.

(** [emit]: the level of the line *)
Inductive LogLevel := LogInfo | LogWarn.

Definition emit_level (s : BridgeOperationsSnapshot) : LogLevel :=
  if os_ready s && os_delivery_healthy s && os_exclusion_healthy s then LogInfo else LogWarn.

(** ** Ledger monitors *)

(** [spawn_ledger_health_monitor] over the values its watch shows: it acts on the
    first unhealthy one and ends. *)
Fixpoint ledger_health_monitor (kind : LedgerWorkerKind) (health : list bool) (status : BridgeStatus) (stats : EgressStats)
  : BridgeStatus * EgressStats :=
  match health with
  | [] => (status, stats)
  | true :: rest => ledger_health_monitor kind rest status stats
  | false :: _ =>
      ((update match kind with ExclusionWorker => SetExclusionHealthy false | DeliveryWorker => SetDeliveryHealthy false end status).2,
       fetch_add c_ledger_unavailable 1 stats)
  end.
