(* ===== verification/ShutdownFacts.v ===== *)
(** * Shutdown: bounded, and clean only when everything joined

    The handle's shutdown and the supervisor's arm end by the deadline whatever
    the tasks do; the report is the one a declarative reading of the tasks' ends
    gives, and it is clean exactly when every part joined in time. The operations
    snapshot's uncertain reservations are exact. *)

From S2P Require Import Prelude Journal LedgerWorker Readiness RateLimit Envelope NatsConfig Egress NodeDocs Ingress Reconcile Lifecycle.
From S2P Require Import JournalFacts EgressLedger EgressFacts Shutdown.

(** ** Waiting *)

(** A future resolves in time iff it does so by the deadline. *)
Definition in_time {A} (deadline : Z) (t : TaskEnd A) : option A :=
  time ← te_time t; if time <=? deadline then Some (te_value t) else None.

Lemma timeout_at_spec {A} deadline now (t : TaskEnd A) :
  now ≤ deadline →
  (timeout_at deadline now t).1 = in_time deadline t ∧ now ≤ (timeout_at deadline now t).2 ≤ deadline.
Proof.
  intros Hn. unfold timeout_at, in_time. destruct (te_time t) as [time|]; cbn; [|split; [done|lia]].
  rewrite Z.max_r by lia. destruct (Z.leb_spec time deadline); cbn; (split; [done|lia]).
Qed.

Ltac wait t Hn :=
  let E := fresh "E" in let H := fresh "Ht" in
  pose proof (timeout_at_spec _ _ t Hn) as [E H];
  destruct (timeout_at _ _ t) as [? ?]; cbn [fst snd] in E, H; subst.

(** ** The supervisor's arm *)

Lemma wait_disconnected_by deadline now turns :
  now ≤ deadline → now ≤ (wait_disconnected deadline now turns).2 ≤ deadline.
Proof.
  revert now. induction turns as [|[time|] turns IH]; intros now Hn; cbn; [lia| |lia].
  wait (mkEnd time tt) Hn. destruct (in_time _ _); [|cbn; lia]. specialize (IH z ltac:(lia)). lia.
Qed.

Lemma wait_disconnected_result deadline now turns :
  (wait_disconnected deadline now turns).1 = mkSupervisorShutdown StageComplete None ∨
  (wait_disconnected deadline now turns).1 = mkSupervisorShutdown ClientDrain (Some DeadlineExceeded).
Proof.
  revert now. induction turns as [|[time|] turns IH]; intros now; cbn; [auto| |auto].
  destruct (timeout_at deadline now (mkEnd time tt)) as [[] ?]; auto.
Qed.

(** What goes wrong with one wait, as the stage and failure it is reported as. *)
Definition problems : Type := list (BridgeShutdownStage * BridgeShutdownFailure).

Definition stop_problems (deadline : Z) (o : option (TaskEnd unit)) : problems :=
  match o with
  | Some t => match in_time deadline t with Some _ => [] | None => [(Producers, DeadlineExceeded)] end
  | None => []
  end.

Definition client_problems (st : BridgeShutdownStage) (deadline : Z) (t : TaskEnd (result unit unit)) : problems :=
  match in_time deadline t with
  | Some (Ok _) => []
  | Some (Err _) => [(st, ClientFailure)]
  | None => [(st, DeadlineExceeded)]
  end.

Definition egress_problems (deadline : Z) (o : option (TaskEnd (JoinOutcome unit))) : problems :=
  match o with
  | None => []
  | Some t =>
      match in_time deadline t with
      | Some (Joined _) => []
      | Some _ => [(Consumers, TaskPanicked)]
      | None => [(Consumers, DeadlineExceeded)]
      end
  end.

(** The arm's waits up to the drain. *)
Definition arm_problems (deadline : Z) (w : SupervisorWork) : problems :=
  stop_problems deadline (sw_barrier w) ++ stop_problems deadline (sw_generation w) ++
  egress_problems deadline (sw_egress w) ++
  client_problems ClientFlush deadline (sw_flush w) ++ client_problems ClientDrain deadline (sw_drain w).

Definition reported (p : problems) : option SupervisorShutdown := (λ x, mkSupervisorShutdown x.1 (Some x.2)) <$> head p.

Lemma stop_optional_spec deadline now o :
  now ≤ deadline →
  (stop_optional deadline now o).1 = bool_decide (stop_problems deadline o = []) ∧
  (stop_problems deadline o = [] ∨ stop_problems deadline o = [(Producers, DeadlineExceeded)]) ∧
  now ≤ (stop_optional deadline now o).2 ≤ deadline.
Proof.
  intros Hn. destruct o as [t|]; cbn; [|split_and!; auto; lia]. wait t Hn. destruct (in_time deadline t); cbn; auto.
Qed.

Lemma client_stage_spec st deadline now t :
  now ≤ deadline →
  (client_stage st deadline now t).1 = reported (client_problems st deadline t) ∧
  now ≤ (client_stage st deadline now t).2 ≤ deadline.
Proof.
  intros Hn. unfold client_stage, client_problems. wait t Hn. by destruct (in_time deadline t) as [[]|].
Qed.

Lemma reported_app p q : reported (p ++ q) = match reported p with Some r => Some r | None => reported q end.
Proof. by destruct p. Qed.

(** The supervisor's shutdown arm returns by the deadline. It reports the first
    of its stages that failed or did not finish in time; with none, it reports
    either completion or that the client did not leave the connection in time. *)
Theorem supervisor_shutdown_exact deadline now w :
  now ≤ deadline →
  let '(r, after) := supervisor_shutdown deadline now w in
  now ≤ after ≤ deadline ∧
  match reported (arm_problems deadline w) with
  | Some expected => r = expected
  | None => r = mkSupervisorShutdown StageComplete None ∨ r = mkSupervisorShutdown ClientDrain (Some DeadlineExceeded)
  end.
Proof.
  intros Hn. unfold supervisor_shutdown, arm_problems. rewrite !reported_app.
  destruct (stop_optional_spec deadline now (sw_barrier w) Hn) as (E & D & H).
  destruct (stop_optional deadline now (sw_barrier w)) as [b n1]. cbn [fst snd] in *. subst b.
  destruct D as [-> | ->]; cbn; [|split; [lia|done]].
  destruct (stop_optional_spec deadline n1 (sw_generation w) ltac:(lia)) as (E & D & H1).
  destruct (stop_optional deadline n1 (sw_generation w)) as [b n2]. cbn [fst snd] in *. subst b.
  destruct D as [-> | ->]; cbn; [|split; [lia|done]].
  assert (∃ n3, n2 ≤ n3 ≤ deadline ∧
    match sw_egress w with
    | None => (None, n2)
    | Some task =>
        match timeout_at deadline n2 task with
        | (Some (Joined _), now) => (None, now)
        | (Some _, now) => (Some (mkSupervisorShutdown Consumers (Some TaskPanicked)), now)
        | (None, now) => (Some (mkSupervisorShutdown Consumers (Some DeadlineExceeded)), now)
        end
    end = (reported (egress_problems deadline (sw_egress w)), n3)) as (n3 & H2 & ->).
  { unfold egress_problems. destruct (sw_egress w) as [t|]; [|exists n2; split; [lia|done]].
    assert (n2 ≤ deadline) as Hn2 by lia. wait t Hn2. exists z. by destruct (in_time deadline t) as [[]|]. }
  destruct (reported (egress_problems _ _)); [split; [lia|done]|].
  destruct (client_stage_spec ClientFlush deadline n3 (sw_flush w) ltac:(lia)) as [E H3].
  destruct (client_stage ClientFlush deadline n3 (sw_flush w)) as [o n4]. cbn [fst snd] in *. subst o.
  destruct (reported (client_problems ClientFlush _ _)); [split; [lia|done]|].
  destruct (client_stage_spec ClientDrain deadline n4 (sw_drain w) ltac:(lia)) as [E H4].
  destruct (client_stage ClientDrain deadline n4 (sw_drain w)) as [o n5]. cbn [fst snd] in *. subst o.
  destruct (reported (client_problems ClientDrain _ _)); [split; [lia|done]|].
  pose proof (wait_disconnected_by deadline n5 (sw_turns w) ltac:(lia)) as H5.
  pose proof (wait_disconnected_result deadline n5 (sw_turns w)) as Hr.
  destruct (wait_disconnected deadline n5 (sw_turns w)) as [r n6]. cbn in *. split; [lia|done].
Qed.

Lemma flat_map_nil {A B} (f : A → list B) l : flat_map f l = [] ↔ Forall (λ a, f a = []) l.
Proof.
  induction l as [|a l IH]; cbn; [by split|]. rewrite app_nil, Forall_cons, IH. done.
Qed.

(** ** The handle *)

Definition producer_problems (deadline : Z) (t : TaskEnd (JoinOutcome unit)) : problems :=
  match in_time deadline t with
  | Some TaskPanic => [(Producers, TaskPanicked)]
  | Some _ => []
  | None => [(Producers, DeadlineExceeded)]
  end.

Definition consumer_problems (deadline : Z) (t : TaskEnd (JoinOutcome unit)) : problems :=
  match in_time deadline t with
  | Some (Joined _) => []
  | Some _ => [(Consumers, TaskPanicked)]
  | None => [(Consumers, DeadlineExceeded)]
  end.

Definition supervisor_problems (deadline : Z) (t : TaskEnd (JoinOutcome SupervisorShutdown)) : problems :=
  match in_time deadline t with
  | Some (Joined outcome) => match ss_failure outcome with Some f => [(ss_stage outcome, f)] | None => [] end
  | Some _ => [(Consumers, TaskPanicked)]
  | None => [(Consumers, DeadlineExceeded)]
  end.

Definition ledger_problems (kind : LedgerWorkerKind) (st : BridgeShutdownStage) (deadline : Z)
    (o : option (TaskEnd (JoinOutcome (result LedgerError unit)))) : problems :=
  match o with
  | None => []
  | Some t => match in_time deadline t with Some (Joined (Ok _)) => [] | _ => [(st, LedgerIoUnjoined kind)] end
  end.

(** Everything that goes wrong with a shutdown, in the order it is looked at. *)
Definition handle_problems (deadline : Z) (w : HandleWork) : problems :=
  flat_map (producer_problems deadline) (hw_producers w) ++ supervisor_problems deadline (hw_supervisor w) ++
  flat_map (consumer_problems deadline) (hw_consumers w) ++
  ledger_problems ExclusionWorker LedgerExclusion deadline (hw_exclusion w) ++
  ledger_problems DeliveryWorker LedgerDelivery deadline (hw_delivery w) ++
  flat_map (consumer_problems deadline) (option_list (hw_operations w)).

(** One if the task joined in time. *)
Definition joins {A} (deadline : Z) (t : TaskEnd A) : Z := match in_time deadline t with Some _ => 1 | None => 0 end.

Fixpoint sum_Z {A} (f : A → Z) (l : list A) : Z :=
  match l with [] => 0 | a :: l' => f a + sum_Z f l' end.

Record progress (deadline j a : Z) (ps : problems) (p : Progress) : Prop := {
  pr_now : pg_now p ≤ deadline;
  pr_joined : pg_joined p = j;
  pr_aborted : pg_aborted p = a;
  pr_failure : match ps with
               | [] => pg_failure p = None
               | (st, f) :: _ => pg_failure p = Some f ∧ pg_stage p = st
               end;
}.

Lemma progress_fail deadline j a ps p f st :
  progress deadline j a ps p → progress deadline j a (ps ++ [(st, f)]) (fail_first f st p).
Proof.
  intros []. unfold fail_first. destruct ps as [|[st' f'] ps]; [rewrite pr_failure0|destruct pr_failure0 as [E ?]; rewrite E]; by split.
Qed.

Lemma progress_set_now deadline j a ps p now :
  progress deadline j a ps p → now ≤ deadline → progress deadline j a ps (set_now now p).
Proof. intros [] ?. by split. Qed.

Lemma progress_joined deadline j a ps p :
  progress deadline j a ps p → 0 ≤ j < U64_MAX → progress deadline (j + 1) a ps (add_joined p).
Proof. intros [] ?. split; try done. cbn. unfold usize_succ, saturating_add_u64. lia. Qed.

Lemma progress_aborted deadline j a ps p :
  progress deadline j a ps p → 0 ≤ a < U64_MAX → progress deadline j (a + 1) ps (add_aborted p).
Proof. intros [] ?. split; try done. cbn. unfold usize_succ, saturating_add_u64. lia. Qed.

(** Only the first problem counts. *)
Lemma progress_more deadline j a ps qs p : progress deadline j a ps p → ps ≠ [] → progress deadline j a (ps ++ qs) p.
Proof. intros [] ?. split; try done. by destruct ps as [|[]]. Qed.

#[local] Hint Resolve progress_fail progress_set_now progress_joined progress_aborted : peat.

Lemma join_producer_progress deadline j a ps p t :
  progress deadline j a ps p → 0 ≤ j < U64_MAX → 0 ≤ a < U64_MAX →
  progress deadline (j + joins deadline t) (a + 1) (ps ++ producer_problems deadline t) (join_producer deadline p t).
Proof.
  intros H Hj Ha. unfold join_producer, producer_problems, joins. pose proof (pr_now _ _ _ _ _ H) as Hn. wait t Hn.
  apply (progress_set_now _ _ _ _ _ z) in H; [|lia].
  destruct (in_time deadline t) as [[]|]; rewrite ?app_nil_r.
  all: rewrite ?Z.add_0_r; eauto with peat.
Qed.

Lemma join_consumer_progress deadline j a ps p t :
  progress deadline j a ps p → 0 ≤ j < U64_MAX → 0 ≤ a < U64_MAX →
  progress deadline (j + joins deadline t) (a + (1 - joins deadline t)) (ps ++ consumer_problems deadline t)
    (join_consumer deadline p t).
Proof.
  intros H Hj Ha. unfold join_consumer, consumer_problems, joins. pose proof (pr_now _ _ _ _ _ H) as Hn. wait t Hn.
  apply (progress_set_now _ _ _ _ _ z) in H; [|lia].
  destruct (in_time deadline t) as [[]|]; rewrite ?app_nil_r.
  all: rewrite ?Z.sub_diag, ?Z.sub_0_r, ?Z.add_0_r.
  all: eauto with peat.
Qed.

Lemma join_supervisor_progress deadline j a ps p t :
  progress deadline j a ps p → 0 ≤ j < U64_MAX → 0 ≤ a < U64_MAX →
  progress deadline (j + joins deadline t) (a + (1 - joins deadline t)) (ps ++ supervisor_problems deadline t)
    (join_supervisor deadline p t).
Proof.
  intros H Hj Ha. unfold join_supervisor, supervisor_problems, joins. pose proof (pr_now _ _ _ _ _ H) as Hn. wait t Hn.
  apply (progress_set_now _ _ _ _ _ z) in H; [|lia].
  destruct (in_time deadline t) as [[[st [f|]]| |]|]; cbn [ss_failure ss_stage]; rewrite ?app_nil_r.
  all: rewrite ?Z.sub_diag, ?Z.sub_0_r, ?Z.add_0_r.
  all: eauto with peat.
Qed.

Lemma joins_range {A} deadline (t : TaskEnd A) : 0 ≤ joins deadline t ≤ 1.
Proof. unfold joins. destruct (in_time deadline t); lia. Qed.

Lemma sum_joins_range {A} deadline (l : list (TaskEnd A)) : 0 ≤ sum_Z (joins deadline) l ≤ Z.of_nat (length l).
Proof. induction l as [|t l IH]; cbn [sum_Z length]; [lia|]. pose proof (joins_range deadline t). lia. Qed.

Lemma sum_not_joins {A} deadline (l : list (TaskEnd A)) :
  sum_Z (λ t, 1 - joins deadline t) l = Z.of_nat (length l) - sum_Z (joins deadline) l.
Proof. induction l as [|t l IH]; cbn [sum_Z length]; [lia|]. rewrite IH. lia. Qed.

Lemma join_producers_progress deadline l j a ps p :
  progress deadline j a ps p → 0 ≤ j → 0 ≤ a → j + Z.of_nat (length l) ≤ U64_MAX → a + Z.of_nat (length l) ≤ U64_MAX →
  progress deadline (j + sum_Z (joins deadline) l) (a + Z.of_nat (length l)) (ps ++ flat_map (producer_problems deadline) l)
    (foldl (join_producer deadline) p l).
Proof.
  revert j a ps p. induction l as [|t l IH]; intros j a ps p H Hj Ha Hjl Hal; cbn [sum_Z length foldl flat_map] in *.
  { rewrite app_nil_r. by replace (j + 0) with j by lia; replace (a + Z.of_nat 0) with a by lia. }
  pose proof (joins_range deadline t). rewrite app_assoc, Z.add_assoc.
  replace (a + Z.of_nat (S (length l))) with (a + 1 + Z.of_nat (length l)) by lia.
  apply IH; try lia. apply join_producer_progress; [done|lia|lia].
Qed.

Lemma join_consumers_progress deadline l j a ps p :
  progress deadline j a ps p → 0 ≤ j → 0 ≤ a → j + Z.of_nat (length l) ≤ U64_MAX → a + Z.of_nat (length l) ≤ U64_MAX →
  progress deadline (j + sum_Z (joins deadline) l) (a + sum_Z (λ t, 1 - joins deadline t) l)
    (ps ++ flat_map (consumer_problems deadline) l) (foldl (join_consumer deadline) p l).
Proof.
  revert j a ps p. induction l as [|t l IH]; intros j a ps p H Hj Ha Hjl Hal; cbn [sum_Z length foldl flat_map] in *.
  { rewrite app_nil_r. by replace (j + 0) with j by lia; replace (a + 0) with a by lia. }
  pose proof (joins_range deadline t). rewrite app_assoc, !Z.add_assoc.
  apply IH; try lia. apply join_consumer_progress; [done|lia|lia].
Qed.

Lemma join_ledger_worker_spec kind st deadline now o :
  now ≤ deadline →
  (join_ledger_worker o kind deadline now).1 = snd <$> head (ledger_problems kind st deadline o) ∧
  (join_ledger_worker o kind deadline now).2 ≤ deadline ∧
  (ledger_problems kind st deadline o = [] ∨ ledger_problems kind st deadline o = [(st, LedgerIoUnjoined kind)]).
Proof.
  intros Hn. unfold join_ledger_worker, ledger_problems. destruct o as [t|]; [|by auto].
  wait t Hn. destruct (in_time deadline t) as [[[]| |]|]; cbn; (split; [done|split; [lia|auto]]).
Qed.

(** What the handle joined and what it gave up on or had aborted. *)
Definition handle_joined (deadline : Z) (w : HandleWork) : Z :=
  sum_Z (joins deadline) (hw_producers w) + joins deadline (hw_supervisor w) + sum_Z (joins deadline) (hw_consumers w) +
  sum_Z (joins deadline) (option_list (hw_operations w)).

Definition handle_aborted (deadline : Z) (w : HandleWork) : Z :=
  Z.of_nat (length (hw_producers w)) + (1 - joins deadline (hw_supervisor w)) +
  sum_Z (λ t, 1 - joins deadline t) (hw_consumers w) + sum_Z (λ t, 1 - joins deadline t) (option_list (hw_operations w)).

Lemma shutdown_progress timeout now w :
  0 ≤ timeout → Z.of_nat (length (hw_producers w) + length (hw_consumers w)) + 2 ≤ U64_MAX →
  ∃ p, progress (now + timeout) (handle_joined (now + timeout) w) (handle_aborted (now + timeout) w)
         (handle_problems (now + timeout) w) p ∧
    shutdown_report timeout now w =
    (match pg_failure p with
     | Some f => mkReport Aborting (pg_stage p) (pg_joined p) (pg_aborted p) (Some f)
     | None => report_clean (pg_joined p) (pg_aborted p)
     end, pg_now p).
Proof.
  intros Ht Hlen. unfold shutdown_report. set (deadline := now + timeout).
  assert (progress deadline 0 0 [] (mkProgress now 0 0 None StageComplete)) as H0 by (split; cbn; try done; lia).
  apply (join_producers_progress _ (hw_producers w)) in H0; [|lia..].
  pose proof (sum_joins_range deadline (hw_producers w)). pose proof (joins_range deadline (hw_supervisor w)).
  pose proof (sum_joins_range deadline (hw_consumers w)). pose proof (sum_not_joins deadline (hw_consumers w)).
  apply (join_supervisor_progress _ _ _ _ _ (hw_supervisor w)) in H0; [|lia..].
  apply (join_consumers_progress _ (hw_consumers w)) in H0; [|lia..].
  set (p0 := foldl (join_consumer deadline) _ (hw_consumers w)) in *.
  destruct (join_ledger_worker_spec ExclusionWorker LedgerExclusion deadline (pg_now p0) (hw_exclusion w) (pr_now _ _ _ _ _ H0))
    as (E1 & Hn1 & D1).
  destruct (join_ledger_worker (hw_exclusion w) _ _ _) as [f1 n1]. cbn [fst snd] in *. subst f1.
  destruct (join_ledger_worker_spec DeliveryWorker LedgerDelivery deadline n1 (hw_delivery w) Hn1) as (E2 & Hn2 & D2).
  destruct (join_ledger_worker (hw_delivery w) _ _ _) as [f2 n2]. cbn [fst snd] in *. subst f2.
  apply (progress_set_now _ _ _ _ _ n2) in H0; [|done].
  set (p1 := match _ <$> head _ with Some f => _ | None => _ end).
  match type of H0 with progress _ ?J ?A ?ps _ =>
    assert (progress deadline J A (ps ++ ledger_problems ExclusionWorker LedgerExclusion deadline (hw_exclusion w) ++
      ledger_problems DeliveryWorker LedgerDelivery deadline (hw_delivery w)) p1) as H4 end.
  { unfold p1. destruct D1 as [-> | ->], D2 as [-> | ->]; cbn [fmap option_fmap option_map head snd app]; rewrite ?app_nil_r; try done.
    1-2: by apply progress_fail.
    change [?x; ?y] with ([x] ++ [y]). rewrite app_assoc. apply progress_more; [by apply progress_fail|by destruct (_ ++ _)]. }
  clear H0 D1 D2. unfold handle_joined, handle_aborted, handle_problems. rewrite !Z.add_0_l, <-!app_assoc in H4. cbn [app] in H4.
  destruct (hw_operations w) as [t|].
  - change (option_list (Some t)) with [t]. cbn [sum_Z flat_map]. eexists. split; [|reflexivity]. apply (join_consumer_progress _ _ _ _ _ t) in H4; [|lia..].
    rewrite <-!app_assoc in H4. by rewrite app_nil_r, !Z.add_0_r.
  - change (option_list None) with (@nil (TaskEnd (JoinOutcome unit))). cbn [sum_Z flat_map].
    eexists. split; [|reflexivity]. by rewrite app_nil_r, !Z.add_0_r.
Qed.

(** The report as the parts' ends determine it. *)
Definition expected_report (deadline : Z) (w : HandleWork) : BridgeShutdownReport :=
  match handle_problems deadline w with
  | [] => report_clean (handle_joined deadline w) (handle_aborted deadline w)
  | (st, f) :: _ => mkReport Aborting st (handle_joined deadline w) (handle_aborted deadline w) (Some f)
  end.

Lemma shutdown_report_value timeout now w :
  0 ≤ timeout → Z.of_nat (length (hw_producers w) + length (hw_consumers w)) + 2 ≤ U64_MAX →
  (shutdown_report timeout now w).1 = expected_report (now + timeout) w ∧ (shutdown_report timeout now w).2 ≤ now + timeout.
Proof.
  intros Ht Hlen. destruct (shutdown_progress timeout now w Ht Hlen) as (p & [Hn Hj Ha Hf] & ->). cbn [fst snd].
  split; [|done]. unfold expected_report.
  destruct (handle_problems _ w) as [|[st f] l]; [by rewrite Hf, Hj, Ha|]. destruct Hf as [-> ->]. by rewrite Hj, Ha.
Qed.

Lemma expected_clean deadline w : is_clean (expected_report deadline w) = bool_decide (handle_problems deadline w = []).
Proof. unfold expected_report. by destruct (handle_problems deadline w) as [|[]]. Qed.

(** [C23] A shutdown ends by its one deadline whatever the tasks do, and its report is
    the declarative one: the first problem of the handle's parts in order decides
    stage and failure, every task that joined in time is counted as joined, and
    the producers (always aborted) and the tasks given up on as aborted. Nothing
    is accepted any more, and the outcome is counted once. *)
Theorem shutdown_exact timeout now w status o :
  0 ≤ timeout → Z.of_nat (length (hw_producers w) + length (hw_consumers w)) + 2 ≤ U64_MAX →
  let report := expected_report (now + timeout) w in
  let '(r, after, status', o') := shutdown timeout now w status o in
  after ≤ now + timeout ∧ accepting status' = false ∧
  r = (if bool_decide (handle_problems (now + timeout) w = []) then Ok report else Err report) ∧ o' = record_shutdown report o.
Proof.
  intros Ht Hlen report. destruct (shutdown_report_value timeout now w Ht Hlen) as [E Hn]. unfold shutdown.
  destruct (shutdown_report timeout now w) as [rep after]. cbn [fst snd] in *. subst rep.
  rewrite expected_clean. done.
Qed.

(** A report is clean only when everything joined: shutdown returns [Ok] exactly
    when, by the deadline, every producer ended without a panic, the supervisor
    returned without a failure, every consumer and the operations task returned,
    and both ledger workers joined without an error. *)
Theorem clean_iff_all_joined timeout now w status o :
  0 ≤ timeout → Z.of_nat (length (hw_producers w) + length (hw_consumers w)) + 2 ≤ U64_MAX →
  let deadline := now + timeout in
  is_ok (shutdown timeout now w status o).1.1.1 = true ↔
  Forall (λ t, ∃ v, in_time deadline t = Some v ∧ v ≠ TaskPanic) (hw_producers w) ∧
  (∃ st, in_time deadline (hw_supervisor w) = Some (Joined (mkSupervisorShutdown st None))) ∧
  Forall (λ t, in_time deadline t = Some (Joined tt)) (hw_consumers w ++ option_list (hw_operations w)) ∧
  Forall (λ t, in_time deadline t = Some (Joined (Ok tt))) (option_list (hw_exclusion w) ++ option_list (hw_delivery w)).
Proof.
  intros Ht Hlen deadline. destruct (shutdown_report_value timeout now w Ht Hlen) as [E Hn]. unfold shutdown.
  destruct (shutdown_report timeout now w) as [rep after]. cbn [fst snd] in *. subst rep. rewrite expected_clean.
  transitivity (handle_problems deadline w = []); [case_bool_decide; naive_solver|].
  unfold handle_problems, problems. rewrite !app_nil, !Forall_app, !flat_map_nil.
  assert (∀ t, consumer_problems deadline t = [] ↔ in_time deadline t = Some (Joined tt)) as Hcons.
  { intros t. unfold consumer_problems. destruct (in_time deadline t) as [[[]| |]|]; naive_solver. }
  assert (∀ t, producer_problems deadline t = [] ↔ ∃ v, in_time deadline t = Some v ∧ v ≠ TaskPanic) as Hprod.
  { intros t. unfold producer_problems. destruct (in_time deadline t) as [[[]| |]|]; naive_solver. }
  assert (∀ kind st o, ledger_problems kind st deadline o = [] ↔
    Forall (λ t, in_time deadline t = Some (Joined (Ok tt))) (option_list o)) as Hledger.
  { intros kind st [t|]; cbn; [|by split]. rewrite Forall_singleton. destruct (in_time deadline t) as [[[[]|]| |]|]; naive_solver. }
  assert (supervisor_problems deadline (hw_supervisor w) = [] ↔
    ∃ st, in_time deadline (hw_supervisor w) = Some (Joined (mkSupervisorShutdown st None))) as Hsup.
  { unfold supervisor_problems. destruct (in_time deadline (hw_supervisor w)) as [[[st [f|]]| |]|]; naive_solver. }
  unfold problems in *. rewrite Hsup, !Hledger, !(Forall_iff _ _ _ Hcons), (Forall_iff _ _ _ Hprod). tauto.
Qed.

(** ** Uncertain reservations *)

Section uncertain.
Context {sha : Sha256} `{Serde} {L : Type} `{LedgerOps L} (origin : string).
Implicit Types p : Pipeline L.

Definition open_work p : Z := Z.of_nat (length (p_queue p) + held (p_worker p) + p_abandoned p).

(** Exact counters while fewer than 2^64 steps have been taken. *)
Definition reserve_inv (n : Z) p : Prop :=
  0 ≤ p_stats p c_completed ∧ p_stats p c_completed + open_work p ≤ p_stats p c_reserved ≤ n.

Lemma record_action_reserve kind route payload now p p' :
  record_action kind route payload now p = Next p' →
  p_stats p' c_completed = p_stats p c_completed ∧ p_stats p' c_reserved = p_stats p c_reserved ∧
  open_work p' = open_work p.
Proof.
  unfold record_action, diagnose. intros Hr. destruct (record_at _ _ _); simplify_eq. unfold open_work. cbn.
  by destruct kind as [[]|[]|].
Qed.

Lemma worker_failure_reserve kind item now p p' :
  worker_failure kind item now p = Next p' →
  p_stats p' c_completed = p_stats p c_completed ∧ p_stats p' c_reserved = p_stats p c_reserved ∧
  open_work p' ≤ open_work p.
Proof.
  unfold worker_failure. intros Hf.
  assert (record_action (Lost kind) (Some (item_route_index item)) (payload_len item) now (with_worker WRecv p) = Next p') as Hr
    by (by destruct kind).
  apply record_action_reserve in Hr as (-> & -> & ->). split_and!; try done. unfold open_work. cbn. lia.
Qed.

Lemma wrapping_succ x : 0 ≤ x < U64_MAX → wrapping_add_u64 x 1 = x + 1.
Proof. unfold wrapping_add_u64, U64_MAX. intros. apply Z.mod_small. lia. Qed.

Lemma fetch_add_same c n st : fetch_add c n st c = wrapping_add_u64 (st c) n.
Proof. unfold fetch_add. by rewrite bool_decide_true. Qed.

Lemma fetch_add_other c c' n st : c ≠ c' → fetch_add c n st c' = st c'.
Proof. intros ?. unfold fetch_add. by rewrite bool_decide_false. Qed.

Lemma step_reserve n s p p' :
  step origin s p = Next p' → n < U64_MAX → reserve_inv n p → reserve_inv (n + 1) p'.
Proof.
  intros Hs Hn (H1 & H2 & H3).
  assert (∀ q, p_stats q c_completed = p_stats p c_completed ∧ p_stats q c_reserved = p_stats p c_reserved ∧
    open_work q ≤ open_work p → reserve_inv (n + 1) q) as Hsame by (intros q (E1 & E2 & E3); unfold reserve_inv; rewrite E1, E2; lia).
  assert (0 ≤ open_work p) as Hw by (unfold open_work; lia).
  destruct s as [event now|i|i now|conn client now|client now|now| |op|dropped now]; cbn [step] in Hs.
  - apply Hsame. unfold deliver_admit in Hs. destruct (classify _ _); [|apply record_action_reserve in Hs as (-> & -> & ->); auto with lia].
    destruct (_ || _); [apply record_action_reserve in Hs as (-> & -> & ->); auto with lia|]. by simplify_eq.
  - apply Hsame. unfold ledger_answer in Hs. repeat case_match; by simplify_eq.
  - unfold deliver_resume in Hs. destruct (p_inflight p !! i) as [[item [r|]]|]; [|done..].
    assert (∀ q, p_stats q c_completed = p_stats p c_completed ∧ p_stats q c_reserved = p_stats p c_reserved + 1 ∧
      open_work q ≤ open_work p + 1 → reserve_inv (n + 1) q) as Hmore by (intros q (E1 & E2 & E3); unfold reserve_inv; rewrite E1, E2; lia).
    destruct r as [[]|]; cbn -[Nat.leb] in Hs.
    + apply Hmore. set (q := with_stats _ _) in Hs.
      assert (p_stats q c_completed = p_stats p c_completed ∧ p_stats q c_reserved = p_stats p c_reserved + 1 ∧
        open_work q = open_work p) as (E1 & E2 & E3).
      { unfold q, open_work. cbn [p_stats p_queue p_worker p_abandoned with_stats with_inflight].
        rewrite fetch_add_same, fetch_add_other, wrapping_succ by (done || lia). done. }
      destruct (p_worker p) eqn:Hwk; [destruct (Nat.leb _ _)..|].
      all: try (apply record_action_reserve in Hs as (-> & -> & ->); rewrite E1, E2, E3; auto with lia).
      all: injection Hs as <-; unfold open_work in *; cbn -[Z.of_nat] in *; rewrite Hwk, length_app in *; cbn -[Z.of_nat] in *; split_and!; auto; lia.
    + apply Hsame. apply record_action_reserve in Hs as (-> & -> & ->). unfold open_work. cbn -[Z.of_nat]. split_and!; auto; lia.
    + apply Hsame. apply record_action_reserve in Hs as (-> & -> & ->). unfold open_work. cbn -[Z.of_nat]. split_and!; auto; lia.
  - apply Hsame. unfold worker_publish in Hs. destruct (p_worker p) eqn:Hwk; try done. destruct (p_queue p) as [|item rest] eqn:Hq; [done|].
    destruct (nats_publish _ _ _) as [called r]. destruct r as [[]|kind].
    + injection Hs as <-. destruct called; unfold open_work; cbn -[Z.of_nat]; rewrite Hwk, Hq; cbn -[Z.of_nat]; split_and!; auto; lia.
    + apply worker_failure_reserve in Hs as (E1 & E2 & E3). rewrite E1, E2. destruct called; unfold open_work in *; cbn -[Z.of_nat] in *; rewrite Hq; cbn -[Z.of_nat] in *; split_and!; auto; lia.
  - apply Hsame. unfold worker_flush in Hs. destruct (p_worker p) eqn:Hwk; try done. destruct (nats_flush _ _) as [|kind].
    + injection Hs as <-. unfold open_work. cbn -[Z.of_nat]. rewrite Hwk. cbn -[Z.of_nat]. split_and!; auto; lia.
    + by apply worker_failure_reserve in Hs.
  - unfold worker_complete in Hs. destruct (p_worker p) eqn:Hwk; try done. destruct (ledger_complete _ _) as [[u|] l].
    + apply record_action_reserve in Hs as (E1 & E2 & E3). unfold reserve_inv. rewrite E1, E2, E3.
      cbn [p_stats with_stats with_worker with_ledger]. unfold open_work in *. cbn -[Z.of_nat fetch_add] in *. rewrite Hwk in *. cbn [held] in *.
      rewrite fetch_add_same, fetch_add_other, wrapping_succ by (done || lia). lia.
    + apply Hsame. apply worker_failure_reserve in Hs as (E1 & E2 & E3). rewrite E1, E2. unfold open_work in *. cbn -[Z.of_nat] in *. split_and!; auto; lia.
  - apply Hsame. unfold drop_receiver in Hs. destruct (p_worker p) eqn:Hwk; simplify_eq; unfold open_work; cbn -[Z.of_nat]; rewrite Hwk; cbn -[Z.of_nat]; split_and!; auto; lia.
  - apply Hsame. by simplify_eq.
  - apply Hsame. unfold router_lagged, diagnose in Hs. destruct (record_at _ _ _); by simplify_eq.
Qed.

(** The operations snapshot counts uncertain deliveries exactly: over any
    interleaving of fewer than 2^64 steps the completed reservations never exceed
    the reservations, so the uncertain ones are their difference, and they include
    everything queued, in the publisher's hands or dropped with the queue. *)
Theorem uncertain_reservations_exact mappings node l0 s0 steps p ingress reconcile lifecycle outcomes :
  run origin steps (coordinator_new mappings node l0 s0) = Next p → Z.of_nat (length steps) ≤ U64_MAX →
  let s := aggregate ingress (p_stats p) reconcile (p_status p) lifecycle outcomes in
  os_delivery_completions s + os_delivery_reservations_uncertain s = os_delivery_reservations s ∧
  open_work p ≤ os_delivery_reservations_uncertain s.
Proof.
  intros Hrun Hlen.
  assert (reserve_inv (Z.of_nat (length steps)) p) as (H1 & H2 & H3).
  { assert (∀ n q, reserve_inv n q → n + Z.of_nat (length steps) ≤ U64_MAX → run origin steps q = Next p →
      reserve_inv (n + Z.of_nat (length steps)) p) as Hgen.
    { clear Hrun Hlen. induction steps as [|st steps IH]; intros n q Hq Hn Hr; cbn [run length] in *.
      - simplify_eq. by replace (n + Z.of_nat 0) with n by lia.
      - destruct (step origin st q) as [q1| |] eqn:Hst; [|done..].
        replace (n + Z.of_nat (S (length steps))) with (n + 1 + Z.of_nat (length steps)) by lia.
        apply (IH (n + 1) q1); [|lia|done]. apply (step_reserve n st q); [done|lia|done]. }
    apply (Hgen 0 (coordinator_new mappings node l0 s0)); [|lia|done]. unfold reserve_inv, open_work. cbn. unfold stats_default. lia. }
  cbn. unfold saturating_sub_u64. assert (0 ≤ open_work p) by (unfold open_work; lia). lia.
Qed.

End uncertain.

(** ** Evaluation *)

(** One producer cancelled at 1, a supervisor back at 3, one consumer back at 4
    and a delivery worker that never joins, with a budget of 10. *)
Definition toy_work (delivery : option Z) : HandleWork :=
  mkHandleWork [mkEnd (Some 1) Cancelled] (mkEnd (Some 3) (Joined (mkSupervisorShutdown StageComplete None)))
    [mkEnd (Some 4) (Joined tt)] (Some (mkEnd (Some 5) (Joined (Ok tt)))) (Some (mkEnd delivery (Joined (Ok tt)))) None.

Lemma shutdown_exact_witness :
  (shutdown 10 0 (toy_work None) EgressFacts.toy_status outcomes_default).1.1.1 =
  Err (mkReport Aborting LedgerDelivery 3 1 (Some (LedgerIoUnjoined DeliveryWorker))).
Proof.
  pose proof (shutdown_exact 10 0 (toy_work None) EgressFacts.toy_status outcomes_default) as H.
  destruct (shutdown 10 0 (toy_work None) EgressFacts.toy_status outcomes_default) as [[[r after] st] o].
  destruct H as (_ & _ & -> & _); [lia|vm_compute; discriminate|]. vm_compute. reflexivity.
Defined.

Lemma clean_iff_all_joined_witness :
  is_ok (shutdown 10 0 (toy_work (Some 6)) EgressFacts.toy_status outcomes_default).1.1.1 = true.
Proof.
  apply clean_iff_all_joined; [lia|vm_compute; discriminate|]. split; [|split; [|split]].
  - repeat constructor. exists Cancelled. split; [reflexivity|discriminate].
  - exists StageComplete. reflexivity.
  - repeat constructor.
  - repeat constructor.
Defined.

Definition toy_supervisor_work : SupervisorWork :=
  mkWork (Some (mkEnd (Some 1) tt)) (Some (mkEnd (Some 2) tt)) (Some (mkEnd (Some 4) (Joined tt)))
    (mkEnd (Some 5) (Err tt)) (mkEnd (Some 6) (Ok tt)) [NextChange (Some 7)].

Lemma supervisor_shutdown_exact_witness :
  (supervisor_shutdown 10 0 toy_supervisor_work).1 = mkSupervisorShutdown ClientFlush (Some ClientFailure).
Proof.
  pose proof (supervisor_shutdown_exact 10 0 toy_supervisor_work ltac:(lia)) as H.
  destruct (supervisor_shutdown 10 0 toy_supervisor_work) as [r after]. destruct H as [_ ->]. reflexivity.
Defined.

Lemma uncertain_reservations_exact_witness :
  client_payloads EgressFacts.toy_run = [toy_payload] ∧
  ∀ p, EgressFacts.toy_run = Next p → p_stats p c_completed ≤ p_stats p c_reserved.
Proof.
  split; [vm_compute; reflexivity|]. intros p Hp.
  destruct (uncertain_reservations_exact (sha := toy_sha) (H := toy_serde) (H0 := delivery_ops (sha := toy_sha)) "beta"
    toy_mappings "beta" toy_delivery toy_status toy_steps p ingress_stats_default (mkReconcileSnapshot 0 0 0 0 0 0)
    snapshot_default outcomes_default Hp) as [H1 H2]; [vm_compute; discriminate|].
  cbn in H1, H2. unfold saturating_sub_u64 in *. unfold open_work in H2. lia.
Defined.
