(* ===== verification/PathFacts.v ===== *)
(** * Paths built from names

    Laws of the [std::path] model that the receiving and the sending side of the
    attachment directories share: a path made of plain names, joined by slashes
    or pushed one by one, has exactly these names as its components, and joining
    such a path to a base appends them. *)

From S2P Require Import Prelude Paths.
From Stdlib Require Import Strings.Ascii.

(** A file name: one [Normal] component. *)
Definition plain_name (s : string) : Prop :=
  s ≠ ""%string ∧ s ≠ "."%string ∧ s ≠ ".."%string ∧ str_contains s "/"%char = false.

#[global] Instance plain_name_dec s : Decision (plain_name s).
Proof. unfold plain_name. apply _. Defined.

(** Names joined by slashes. *)
Fixpoint slashed (names : list string) : string :=
  match names with
  | [] => ""
  | [s] => s
  | s :: rest => s +:+ "/" +:+ slashed rest
  end.

(** ** Splitting *)

Lemma append_assoc (a b c : string) : (a +:+ b) +:+ c = a +:+ (b +:+ c).
Proof. induction a as [|x a IH]; [done|]. by rewrite !string_app_cons, IH. Qed.

Lemma append_nil_r (a : string) : a +:+ "" = a.
Proof. induction a as [|x a IH]; [done|]. by rewrite string_app_cons, IH. Qed.

Lemma str_contains_cons a s c : str_contains (String a s) c = Ascii.eqb c a || str_contains s c.
Proof. done. Qed.

Lemma split_on_whole c s : str_contains s c = false → split_on c s = [s].
Proof.
  induction s as [|a s IH]; [done|]. rewrite str_contains_cons. intros [Ha Hs]%orb_false_iff. cbn.
  rewrite Ascii.eqb_sym, Ha. by rewrite IH.
Qed.

Lemma split_on_app c a b : split_on c (a +:+ String c b) = split_on c a ++ split_on c b.
Proof.
  induction a as [|x a IH]; [rewrite string_app_nil; cbn; by rewrite Ascii.eqb_refl|].
  rewrite string_app_cons. cbn [split_on]. rewrite IH. destruct (Ascii.eqb x c); [done|]. pose proof (split_on_not_nil c a). by destruct (split_on c a).
Qed.

Lemma split_on_pieces c s : Forall (λ p, str_contains p c = false) (split_on c s).
Proof.
  induction s as [|a s IH]; cbn; [by constructor|]. destruct (Ascii.eqb a c) eqn:Ha; [by constructor|].
  destruct (split_on c s) as [|p ps]; [by constructor; [rewrite str_contains_cons, Ascii.eqb_sym, Ha|]|].
  inversion IH as [|?? Hp Hps]; subst. constructor; [|done]. by rewrite str_contains_cons, Ascii.eqb_sym, Ha.
Qed.

(** ** Components *)

Lemma piece_plain s : plain_name s → piece_component s = [Normal s].
Proof. intros (? & ? & ? & ?). unfold piece_component. by rewrite !bool_decide_false. Qed.

Lemma piece_names p : str_contains p "/"%char = false → ∀ s, Normal s ∈ piece_component p → plain_name s.
Proof.
  intros Hp s. unfold piece_component. repeat case_bool_decide; rewrite ?elem_of_nil, ?list_elem_of_singleton; try done.
  by intros [= ->].
Qed.

Lemma pieces_names l s :
  Forall (λ p, str_contains p "/"%char = false) l → Normal s ∈ mjoin (piece_component <$> l) → plain_name s.
Proof.
  intros Hl (cs & Hs & Hcs)%list_elem_of_join. apply list_elem_of_fmap in Hcs as (p & -> & Hp).
  rewrite Forall_forall in Hl. eapply piece_names; eauto.
Qed.

Lemma components_names path s : Normal s ∈ components path → plain_name s.
Proof.
  unfold components. pose proof (split_on_pieces "/"%char path) as Hp.
  destruct (split_on "/"%char path) as [|first rest]; [by rewrite elem_of_nil|].
  inversion Hp as [|?? Hf Hr]; subst. rewrite elem_of_app. intros [Hs|Hs]; [|by eapply pieces_names].
  repeat case_bool_decide; rewrite ?elem_of_nil, ?list_elem_of_singleton in Hs; try done. by eapply piece_names.
Qed.

(** The components of a path below a non-empty base. *)
Lemma components_below base rest :
  base ≠ ""%string → components (base +:+ String "/"%char rest) = components base ++ mjoin (piece_component <$> split_on "/"%char rest).
Proof.
  intros Hb. unfold components. rewrite split_on_app.
  pose proof (split_on_not_nil "/"%char base). destruct (split_on "/"%char base) as [|first l]; [done|]. cbn [app].
  rewrite fmap_app, join_app, app_assoc. f_equal. f_equal.
  rewrite (bool_decide_false (base = ""%string)) by done.
  rewrite (bool_decide_false (base +:+ _ = ""%string)) by (by destruct base). done.
Qed.

(** A trailing slash adds no component. *)
Lemma components_slash base rest :
  ends_with_char "/"%char base = true →
  components (base +:+ rest) = components base ++ mjoin (piece_component <$> split_on "/"%char rest).
Proof.
  intros He. assert (∃ b, base = b +:+ "/") as [b ->].
  { induction base as [|x base IH]; [done|]. destruct base as [|y base].
    - cbn in He. apply Ascii.eqb_eq in He as ->. by exists "".
    - destruct IH as [b Hb]; [done|]. exists (String x b). by rewrite Hb. }
  rewrite append_assoc. change ("/" +:+ rest) with (String "/"%char rest). destruct b as [|x b].
  - change ("" +:+ String "/"%char rest) with (String "/"%char rest). unfold components. cbn. done.
  - rewrite components_below by done. change ("/"%string) with (String "/"%char ""). rewrite components_below by done.
    cbn. by rewrite app_nil_r.
Qed.

Definition not_cur (c : Component) : bool := bool_decide (c ≠ CurDir).

(** A relative path read piece by piece. *)
Lemma components_relative path :
  is_absolute path = false →
  mjoin (piece_component <$> split_on "/"%char path) = filter not_cur (components path).
Proof.
  intros Ha. unfold components. pose proof (split_on_not_nil "/"%char path) as Hn.
  destruct (split_on "/"%char path) as [|first rest] eqn:E; [done|].
  assert (∀ l, filter not_cur (mjoin (piece_component <$> l)) = mjoin (piece_component <$> l)) as Hl.
  { induction l as [|p l IH]; [done|]. rewrite fmap_cons. cbn [mjoin list_join]. rewrite filter_app. f_equal; [|apply IH].
    unfold piece_component. by repeat case_bool_decide. }
  rewrite filter_app, Hl, fmap_cons. cbn [mjoin list_join]. f_equal. unfold piece_component.
  repeat case_bool_decide; try done. subst first. destruct path as [|a path]; [done|]. exfalso.
  cbn in E. destruct (Ascii.eqb a "/") eqn:Ea; [|by destruct (split_on "/" path)].
  apply Ascii.eqb_eq in Ea as ->. unfold is_absolute, starts_with in Ha. cbn in Ha.
  rewrite Ascii.eqb_refl in Ha. apply bool_decide_eq_false in Ha. by apply Ha.
Qed.

(** [Path::join] appends the components of a relative path. *)
Lemma components_join base path :
  base ≠ ""%string → is_absolute path = false →
  components (path_join base path) = components base ++ filter not_cur (components path).
Proof.
  intros Hb Ha. unfold path_join. rewrite Ha, bool_decide_false by done. cbn [orb].
  rewrite <-components_relative by done. destruct (ends_with_char _ _) eqn:He; [by apply components_slash|].
  by apply components_below.
Qed.

(** ** Plain names *)

Lemma slashed_split names :
  names ≠ [] → Forall plain_name names → split_on "/"%char (slashed names) = names.
Proof.
  intros Hne Hp. induction Hp as [|s names (_ & _ & _ & Hs) Hp IH]; [done|]. destruct names as [|t names].
  - by apply split_on_whole.
  - change (slashed (s :: t :: names)) with (s +:+ String "/"%char (slashed (t :: names))).
    by rewrite split_on_app, IH, split_on_whole.
Qed.

Lemma pieces_plain names : Forall plain_name names → mjoin (piece_component <$> names) = Normal <$> names.
Proof.
  induction 1 as [|s names Hs _ IH]; [done|]. rewrite !fmap_cons. cbn [mjoin list_join]. rewrite piece_plain by done.
  cbn [app]. f_equal. exact IH.
Qed.

Lemma components_slashed names : Forall plain_name names → components (slashed names) = Normal <$> names.
Proof.
  intros Hp. destruct (decide (names = [])) as [->|Hne]; [done|]. unfold components.
  rewrite slashed_split by done. destruct names as [|s names]; [done|].
  inversion Hp as [|?? Hs Hr]; subst. pose proof Hs as (? & ? & ? & ?).
  rewrite !bool_decide_false by done. by rewrite pieces_plain, piece_plain.
Qed.

Lemma slashed_relative names : Forall plain_name names → is_absolute (slashed names) = false.
Proof.
  intros Hp. unfold is_absolute, starts_with. apply bool_decide_eq_false. intros [r Hr].
  destruct Hp as [|s names Hs Hp]; [done|]. destruct Hs as (Hn & _ & _ & Hs).
  destruct s as [|a s]; [done|]. rewrite str_contains_cons in Hs. apply orb_false_iff in Hs as [Hs _].
  destruct names; cbn [slashed] in Hr; rewrite ?string_app_cons in Hr; cbn in Hr; by rewrite Hs in Hr.
Qed.

