(* ===== verification/Inbox.v ===== *)
(** * The inbox sink

    Model of [src/attachments/inbox.rs]: where a received blob lands
    ([inbox_relpath]), whether it already landed ([already_delivered]) and the
    delivery itself (copy to a temporary file, check, rename) on a file system
    without links in which every call may fail. The trace of a delivery lists
    every state of the file system that another process can observe, or that a
    crash can leave. The receive watcher belongs to peat-protocol: it hands over
    the distribution document and the path of the fetched blob. *)

From S2P Require Import Prelude Paths PathFacts Ingest.

(** ** The file system *)

Inductive FsNode := FileNode (content : bytes) | DirNode.

#[global] Instance FsNode_eq_dec : EqDecision FsNode.
Proof. solve_decision. Defined.

(** Nodes by their names from the root directory, which is not listed. *)
Abbreviation Fs := (gmap (list string) FsNode).

Definition is_dir_at (fs : Fs) (loc : list string) : bool :=
  match loc with [] => true | _ => bool_decide (fs !! loc = Some DirNode) end.

(** The location a path names; all but the last component must be directories. *)
Fixpoint walk (fs : Fs) (from : list string) (path : list Component) : option (list string) :=
  match path with
  | [] => Some from
  | c :: path =>
      if is_dir_at fs from
      then
        match c with
        | RootDir => walk fs [] path
        | CurDir => walk fs from path
        | ParentDir => walk fs (removelast from) path
        | Normal s => walk fs (from ++ [s]) path
        end
      else None
  end.

(** The state a delivery runs on. [w_faults] is the fault plan, one entry per
    call: [Some k] makes the call fail, a copy after [k] bytes. *)
Record World := mkWorld {
  w_fs : Fs;
  w_faults : list (option nat);
  w_trace : list Fs;
}.

Definition world_new (fs : Fs) (faults : list (option nat)) : World := mkWorld fs faults [fs].

Definition Io (A : Type) : Type := st_err World IoError A.

Definition tick : Io (option nat) :=
  λ w, match w_faults w with
       | [] => (Ok None, w)
       | f :: rest => (Ok f, mkWorld (w_fs w) rest (w_trace w))
       end.

Definition set_fs (fs : Fs) : Io unit := modify (λ w, mkWorld fs (w_faults w) (w_trace w ++ [fs])).

(** A call without effect on failure. *)
Definition syscall : Io unit := f ← tick; match f with Some _ => fail io_error | None => mret tt end.

Section calls.
Context (cwd : list string).

Definition resolve (path : list Component) : Io (list string) :=
  fs ← gets w_fs; lift (ok_or (walk fs cwd path) io_error).

(** [create_dir_all]: the missing directories of a path, outermost first. *)
Fixpoint create_dirs (from : list string) (path : list Component) : Io unit :=
  match path with
  | [] => mret tt
  | RootDir :: path => create_dirs [] path
  | CurDir :: path => create_dirs from path
  | ParentDir :: path => create_dirs (removelast from) path
  | Normal s :: path =>
      fs ← gets w_fs;
      match fs !! (from ++ [s]) with
      | Some DirNode => create_dirs (from ++ [s]) path
      | Some (FileNode _) => fail io_error
      | None => syscall;; set_fs (<[from ++ [s] := DirNode]> fs);; create_dirs (from ++ [s]) path
      end
  end.

Definition create_dir_all (path : list Component) : Io unit := create_dirs cwd path.

(** The states a write of [content] to [loc] passes through. *)
Definition write_states (fs : Fs) (loc : list string) (content : bytes) : list Fs :=
  (λ n, <[loc := FileNode (take n content)]> fs) <$> seq 0 (S (length content)).

Definition write_file (loc : list string) (content : bytes) : Io unit :=
  modify (λ w, mkWorld (<[loc := FileNode content]> (w_fs w)) (w_faults w) (w_trace w ++ write_states (w_fs w) loc content)).

(** [tokio::fs::copy]: the source is a regular file, the destination is created
    or truncated and then written. *)
Definition copy (source dest : list Component) : Io unit :=
  f ← tick;
  from ← resolve source;
  to ← resolve dest;
  fs ← gets w_fs;
  match fs !! from, fs !! to with
  | Some (FileNode content), (None | Some (FileNode _)) =>
      let content := if bool_decide (from = to) then [] else content in
      match f with
      | None => write_file to content
      | Some k => write_file to (take k content);; fail io_error
      end
  | _, _ => fail io_error
  end.

(** [metadata]: whether it is a regular file, and its length. *)
Definition stat (path : list Component) : Io (bool * Z) :=
  syscall;;
  loc ← resolve path;
  fs ← gets w_fs;
  match fs !! loc with
  | Some (FileNode content) => mret (true, Z.of_nat (length content))
  | Some DirNode => mret (false, 0)
  | None => if bool_decide (loc = []) then mret (false, 0) else fail io_error
  end.

Definition remove_file (path : list Component) : Io unit :=
  syscall;;
  loc ← resolve path;
  fs ← gets w_fs;
  match fs !! loc with
  | Some (FileNode _) => set_fs (delete loc fs)
  | _ => fail io_error
  end.

(** [rename] of a file: replaces a file, never a directory. *)
Definition rename (source dest : list Component) : Io unit :=
  syscall;;
  from ← resolve source;
  to ← resolve dest;
  fs ← gets w_fs;
  match fs !! from, fs !! to with
  | Some (FileNode content), (None | Some (FileNode _)) => set_fs (<[to := FileNode content]> (delete from fs))
  | _, _ => fail io_error
  end.

End calls.

(** ** Where a blob lands *)

(** peat-protocol's [DistributionDocument], as far as the sink reads it. *)
Record DistributionDocument := mkDistributionDocument {
  dd_distribution_id : string;
  dd_blob_size : Z;
  dd_blob_metadata : BlobMetadata;
}.

(** The loop over the components of the name. *)
Fixpoint push_components (safe : string) (cs : list Component) : option string :=
  match cs with
  | [] => Some safe
  | Normal c :: cs => push_components (path_join safe c) cs
  | CurDir :: cs => push_components safe cs
  | (ParentDir | RootDir) :: _ => None
  end.

Definition inbox_relpath (m : BlobMetadata) : option string :=
  raw ← bm_name m;
  if is_empty_str raw then None
  else safe ← push_components "" (components raw); if is_empty_str safe then None else Some safe.

Definition inbox_rel (doc : DistributionDocument) : string :=
  default (dd_distribution_id doc +:+ ".bin") (inbox_relpath (dd_blob_metadata doc)).

(** [Path::parent] and [Path::file_name]. *)
Definition path_parent (path : list Component) : option (list Component) :=
  match last path with
  | Some (Normal _ | CurDir | ParentDir) => Some (removelast path)
  | _ => None
  end.

Definition path_file_name (path : list Component) : option string :=
  match last path with Some (Normal s) => Some s | _ => None end.

(** ** The sink *)

Section sink.
Context (cwd : list string) (inbox_root : string).

Definition target_path (doc : DistributionDocument) : list Component := components (path_join inbox_root (inbox_rel doc)).

Definition parent_path (doc : DistributionDocument) : list Component :=
  default (components inbox_root) (path_parent (target_path doc)).

Definition tmp_path (doc : DistributionDocument) : list Component :=
  parent_path doc ++ [Normal ("." +:+ default "blob" (path_file_name (target_path doc)) +:+ ".partial")].

Definition already_delivered (doc : DistributionDocument) (w : World) : bool :=
  match (stat cwd (target_path doc) w).1 with
  | Ok (file, len) => file && (len =? dd_blob_size doc)
  | Err _ => false
  end.

(** [let _ = remove_file(..)]: the result is dropped *)
Definition ignore {A} (m : Io A) : Io unit := λ w, (Ok tt, (m w).2).

Definition deliver (doc : DistributionDocument) (blob_path : string) : Io unit :=
  create_dir_all cwd (parent_path doc);;
  copy cwd (components blob_path) (tmp_path doc);;
  md ← stat cwd (tmp_path doc);
  if negb (md.2 =? dd_blob_size doc)
  then ignore (remove_file cwd (tmp_path doc));; fail io_error
  else rename cwd (tmp_path doc) (target_path doc).

End sink.
