(* ===== verification/InboxFacts.v ===== *)
(** * The inbox: confinement, atomic publication, repetition

    A received name is reduced to plain names below the inbox, every state of the
    file system during a delivery leaves everything else alone, and the file
    itself appears at once, complete and of the declared size, or not at all. *)

From S2P Require Import Prelude Paths PathFacts Ingest Inbox.
From Stdlib Require Import Strings.Ascii.

(** ** Names *)

Lemma slashed_snoc names s : names ≠ [] → slashed (names ++ [s]) = slashed names +:+ "/" +:+ s.
Proof.
  intros Hne. induction names as [|t names IH]; [done|]. destruct names as [|u names]; [done|].
  change (slashed ((t :: u :: names) ++ [s])) with (t +:+ "/" +:+ slashed ((u :: names) ++ [s])).
  rewrite IH by done. change (slashed (t :: u :: names)) with (t +:+ "/" +:+ slashed (u :: names)).
  by rewrite !append_assoc.
Qed.

Lemma ends_with_char_contains c s : ends_with_char c s = true → str_contains s c = true.
Proof.
  induction s as [|a s IH]; [done|]. rewrite str_contains_cons. destruct s as [|b s]; cbn [ends_with_char].
  - rewrite Ascii.eqb_sym. by intros ->.
  - intros H. rewrite IH by done. apply orb_true_r.
Qed.

Lemma ends_with_char_app c a b : b ≠ ""%string → ends_with_char c (a +:+ b) = ends_with_char c b.
Proof.
  intros Hb. induction a as [|x a IH]; [done|]. rewrite string_app_cons. cbn [ends_with_char].
  destruct (a +:+ b) eqn:E; [|done].
  exfalso. destruct a; [by rewrite string_app_nil in E|by rewrite string_app_cons in E].
Qed.

Lemma slashed_ends names : Forall plain_name names → ends_with_char "/"%char (slashed names) = false.
Proof.
  induction 1 as [|s names (Hn & _ & _ & Hs) Hp IH]; [done|]. destruct names as [|t names].
  - cbn [slashed]. apply not_true_is_false. intros E%ends_with_char_contains. by rewrite E in Hs.
  - change (slashed (s :: t :: names)) with (s +:+ "/" +:+ slashed (t :: names)).
    assert (slashed (t :: names) ≠ ""%string) as Hne.
    { inversion Hp as [|?? (Ht & _) _]; subst. destruct t; [done|]. by destruct names. }
    by rewrite !ends_with_char_app.
Qed.

Lemma push_plain names s :
  Forall plain_name names → plain_name s → path_join (slashed names) s = slashed (names ++ [s]).
Proof.
  intros Hp Hs. unfold path_join. pose proof (slashed_relative [s] ltac:(by constructor)) as Ha. cbn in Ha. rewrite Ha.
  rewrite slashed_ends, orb_false_r by done. destruct (decide (names = [])) as [->|Hne]; [done|].
  rewrite slashed_snoc by done. rewrite bool_decide_false; [done|].
  destruct Hp as [|t names (Ht & _) Hp]; [done|]. destruct t; [done|]. by destruct names.
Qed.

(** A name is refused iff it climbs or is absolute; otherwise the pushed path is
    made of its [Normal] components. *)
Lemma push_components_spec cs names :
  Forall plain_name names → (∀ s, Normal s ∈ cs → plain_name s) →
  match push_components (slashed names) cs with
  | Some safe => ∃ more, Forall plain_name more ∧ filter not_cur cs = Normal <$> more ∧ safe = slashed (names ++ more)
  | None => ParentDir ∈ cs ∨ RootDir ∈ cs
  end.
Proof.
  revert names. induction cs as [|c cs IH]; intros names Hp Hcs; cbn [push_components].
  { exists []. by rewrite app_nil_r. }
  assert (∀ s, Normal s ∈ cs → plain_name s) as Hcs' by (intros s Hs; apply Hcs; by right).
  destruct c as [| | |s].
  - right. left.
  - specialize (IH names Hp Hcs'). destruct (push_components _ _); [|destruct IH; [left|right]; by right].
    destruct IH as (more & ? & Hf & ->). by exists more.
  - left. left.
  - pose proof (Hcs s ltac:(left)) as Hs. rewrite push_plain by done.
    specialize (IH (names ++ [s]) ltac:(apply Forall_app; auto) Hcs').
    destruct (push_components _ _); [|destruct IH; [left|right]; by right].
    destruct IH as (more & ? & Hf & ->). exists (s :: more). split_and!; [by constructor| |by rewrite <-app_assoc].
    rewrite filter_cons_True by done. by rewrite Hf.
Qed.

(** The document's name, or the fallback, stays inside a directory. *)
Definition contained (doc : DistributionDocument) : Prop :=
  is_Some (inbox_relpath (dd_blob_metadata doc)) ∨ str_contains (dd_distribution_id doc) "/"%char = false.

Lemma inbox_relpath_plain m rel :
  inbox_relpath m = Some rel → ∃ names, names ≠ [] ∧ Forall plain_name names ∧ rel = slashed names ∧
    ∃ raw, bm_name m = Some raw ∧ filter not_cur (components raw) = Normal <$> names.
Proof.
  unfold inbox_relpath. destruct (bm_name m) as [raw|]; [|done]. cbn [mbind option_bind].
  destruct (is_empty_str raw); [done|].
  pose proof (push_components_spec (components raw) [] (Forall_nil_2 _) (components_names raw)) as H. cbn [slashed] in H.
  destruct (push_components "" (components raw)) as [safe|]; [|done]. destruct H as (names & Hp & Hf & ->).
  cbn [mbind option_bind app]. destruct (is_empty_str _) eqn:He; [done|]. intros [= <-].
  exists names. split_and!; [by intros ->|done|done|]. by exists raw.
Qed.

Lemma str_contains_app a b c : str_contains (a +:+ b) c = str_contains a c || str_contains b c.
Proof.
  induction a as [|x a IH]; [done|]. by rewrite string_app_cons, !str_contains_cons, IH, orb_assoc.
Qed.

Lemma inbox_rel_plain doc :
  contained doc → ∃ names, names ≠ [] ∧ Forall plain_name names ∧ inbox_rel doc = slashed names.
Proof.
  unfold inbox_rel. intros Hc. destruct (inbox_relpath (dd_blob_metadata doc)) as [rel|] eqn:E.
  - apply inbox_relpath_plain in E as (names & ? & ? & -> & _). by exists names.
  - destruct Hc as [[? Hc]|Hc]; [by rewrite E in Hc|]. exists [dd_distribution_id doc +:+ ".bin"].
    split_and!; [done| |done]. constructor; [|done]. split_and!; [by destruct (dd_distribution_id doc)| | |].
    1-2: intros Hs; apply (f_equal String.length) in Hs; rewrite length_string_app in Hs; cbn in Hs; lia.
    rewrite str_contains_app, Hc. done.
Qed.

(** ** Locations *)

(** The location of a path, links and missing directories aside. *)
Fixpoint locate (from : list string) (path : list Component) : list string :=
  match path with
  | [] => from
  | RootDir :: path => locate [] path
  | CurDir :: path => locate from path
  | ParentDir :: path => locate (removelast from) path
  | Normal s :: path => locate (from ++ [s]) path
  end.

Lemma locate_app from p q : locate from (p ++ q) = locate (locate from p) q.
Proof. revert from. induction p as [|[] p IH]; intros from; cbn; auto. Qed.

Lemma locate_names from names : locate from (Normal <$> names) = from ++ names.
Proof. revert from. induction names as [|s names IH]; intros from; cbn; [by rewrite app_nil_r|]. by rewrite IH, <-app_assoc. Qed.

Lemma walk_locate fs from path loc : walk fs from path = Some loc → loc = locate from path.
Proof. revert from. induction path as [|[] path IH]; intros from; cbn; [congruence|..]; destruct (is_dir_at fs from); try done; apply IH. Qed.

Lemma target_path_names root doc names :
  inbox_rel doc = slashed names → Forall plain_name names → names ≠ [] →
  target_path root doc = components root ++ (Normal <$> names).
Proof.
  intros E Hp Hne. unfold target_path. rewrite E. destruct (decide (root = ""%string)) as [->|Hr].
  - unfold path_join. rewrite slashed_relative by done. cbn [orb bool_decide]. rewrite bool_decide_true by done. cbn [orb].
    rewrite string_app_nil. by apply components_slashed.
  - rewrite components_join, components_slashed by (done || by apply slashed_relative). f_equal.
    clear. induction names as [|s names IH]; [done|]. rewrite fmap_cons, filter_cons_True by done. by rewrite IH.
Qed.

(** ** A delivery, state by state *)

Lemma create_dirs_existing fs from p q loc w :
  w_fs w = fs → walk fs from p = Some loc → is_dir_at fs loc = true →
  create_dirs from (p ++ q) w = create_dirs (locate from p) q w.
Proof.
  intros Hw. revert from. induction p as [|c p IH]; intros from Hwalk Hd; [done|]. cbn in Hwalk.
  destruct (is_dir_at fs from) eqn:Hfrom; [|done]. destruct c as [| | |s]; cbn [app create_dirs locate]; [by apply IH..|].
  assert (fs !! (from ++ [s]) = Some DirNode) as E.
  { assert (is_dir_at fs (from ++ [s]) = true) as Hs.
    { destruct p as [|c p]; cbn in Hwalk; [by simplify_eq|]. by destruct (is_dir_at fs (from ++ [s])). }
    unfold is_dir_at in Hs. destruct (from ++ [s]) eqn:Hl; [by destruct from|]. by apply bool_decide_eq_true in Hs. }
  unfold mbind, st_err_bind, gets. rewrite Hw, E. by apply IH.
Qed.

(** A call may fail; otherwise only the fault plan moved. *)
Lemma wp_tick Q w : (∀ f faults, Q (Ok f) (mkWorld (w_fs w) faults (w_trace w))) → wp tick Q w.
Proof. intros HQ. unfold wp, tick. destruct w as [f [|x l] t]; apply HQ. Qed.

Lemma wp_call Q w :
  (∀ faults, Q (Ok tt) (mkWorld (w_fs w) faults (w_trace w))) → (∀ faults, Q (Err io_error) (mkWorld (w_fs w) faults (w_trace w))) →
  wp syscall Q w.
Proof. intros H1 H2. unfold syscall. wp_step. apply wp_tick. intros [] faults; wp_step; auto. Qed.

Lemma wp_resolve cwd path (Q : result IoError (list string) → World → Prop) w :
  Q (Err io_error) w → (walk (w_fs w) cwd path = Some (locate cwd path) → Q (Ok (locate cwd path)) w) → wp (resolve cwd path) Q w.
Proof.
  intros He Ho. unfold resolve. do 3 wp_step. destruct (walk (w_fs w) cwd path) as [loc|] eqn:E; [|done].
  pose proof (walk_locate _ _ _ _ E) as ->. by apply Ho.
Qed.

Lemma walk_dirs fs fs' from path :
  (∀ loc, is_dir_at fs' loc = is_dir_at fs loc) → walk fs' from path = walk fs from path.
Proof. intros Hd. revert from. induction path as [|[] path IH]; intros from; cbn; rewrite ?Hd, ?IH; done. Qed.

Lemma is_dir_moved fs source dest content loc :
  fs !! source ≠ Some DirNode → fs !! dest ≠ Some DirNode →
  is_dir_at (<[dest := FileNode content]> (delete source fs)) loc = is_dir_at fs loc.
Proof.
  intros Hs Hd. unfold is_dir_at. destruct loc as [|s loc]; [done|]. apply bool_decide_ext.
  destruct (decide (dest = s :: loc)) as [->|?]; [rewrite lookup_insert_eq; naive_solver|]. rewrite lookup_insert_ne by done.
  destruct (decide (source = s :: loc)) as [->|?]; [rewrite lookup_delete_eq; naive_solver|]. by rewrite lookup_delete_ne.
Qed.

Section delivery.
Context (cwd : list string) (root : string) (doc : DistributionDocument) (blob_path : string) (fs : Fs).
Context (names : list string) (fname : string).
Hypothesis Hrel : inbox_rel doc = slashed (names ++ [fname]).
Hypothesis Hplain : Forall plain_name (names ++ [fname]).

Let inbox : list string := locate cwd (components root).
Let target : list string := inbox ++ names ++ [fname].
Let tmp : list string := inbox ++ names ++ ["." +:+ fname +:+ ".partial"].
Let blob : list string := locate cwd (components blob_path).

Hypothesis Hroot : walk fs cwd (components root) = Some inbox.
Hypothesis Hdir : is_dir_at fs inbox = true.
Hypothesis Hblob : ¬ inbox `prefix_of` blob.

(** Unchanged, or a directory created below the inbox. *)
Definition untouched (fs' : Fs) (loc : list string) : Prop :=
  fs' !! loc = fs !! loc ∨
  (fs !! loc = None ∧ fs' !! loc = Some DirNode ∧ inbox `prefix_of` loc ∧ loc ≠ inbox).

Definition quiet (fs' : Fs) : Prop :=
  (∀ loc, loc ≠ tmp → untouched fs' loc) ∧ fs' !! target = fs !! target.

Definition published (fs' : Fs) : Prop :=
  (∀ loc, loc ≠ tmp → loc ≠ target → untouched fs' loc) ∧
  ∃ content, fs !! blob = Some (FileNode content) ∧ Z.of_nat (length content) = dd_blob_size doc ∧
    fs' !! target = Some (FileNode content).

Definition quiet_world (w : World) : Prop := Forall quiet (w_trace w) ∧ quiet (w_fs w).

Lemma Htarget : target_path root doc = components root ++ (Normal <$> (names ++ [fname])).
Proof. apply target_path_names; [done..|]. by destruct names. Qed.

Lemma Hparent : parent_path root doc = components root ++ (Normal <$> names).
Proof.
  unfold parent_path, path_parent. rewrite Htarget, fmap_app, app_assoc. cbn [fmap list_fmap].
  rewrite last_snoc. cbn. by rewrite removelast_last.
Qed.

Lemma Htmp : tmp_path root doc = components root ++ (Normal <$> (names ++ ["." +:+ fname +:+ ".partial"])).
Proof.
  unfold tmp_path, path_file_name. rewrite Hparent, Htarget, !fmap_app. cbn [fmap list_fmap].
  rewrite (app_assoc (components root) _ [Normal fname]), last_snoc. cbn. by rewrite <-app_assoc.
Qed.

Lemma locate_tmp : locate cwd (tmp_path root doc) = tmp.
Proof. by rewrite Htmp, locate_app, locate_names. Qed.

Lemma locate_target : locate cwd (target_path root doc) = target.
Proof. by rewrite Htarget, locate_app, locate_names. Qed.

Lemma tmp_target : tmp ≠ target.
Proof.
  intros E%app_inv_head%app_inv_head. injection E as E. apply (f_equal String.length) in E.
  rewrite !length_string_app in E. cbn in E. lia.
Qed.

Lemma below_inbox rest : rest ≠ [] → inbox `prefix_of` inbox ++ rest ∧ inbox ++ rest ≠ inbox.
Proof.
  intros Hne. split; [by apply prefix_app_r|]. intros E. rewrite <-(app_nil_r inbox) in E at 2. by apply app_inv_head in E.
Qed.

Lemma quiet_start : quiet fs.
Proof. split; [|done]. intros loc _. by left. Qed.

(** Directories appear at free places below the inbox. *)
Lemma quiet_mkdir fs' loc :
  quiet fs' → fs' !! loc = None → loc ≠ tmp → loc ≠ target → inbox `prefix_of` loc → loc ≠ inbox →
  quiet (<[loc := DirNode]> fs').
Proof.
  intros [Hu Ht] Hn ? ? ? ?. split; [|by rewrite lookup_insert_ne]. intros l Hl.
  destruct (decide (l = loc)) as [->|Hne]; [|unfold untouched; rewrite lookup_insert_ne by done; by apply Hu].
  right. rewrite lookup_insert_eq. split_and!; try done. destruct (Hu loc) as [<-|(_ & E & _)]; [done..|]. by rewrite E in Hn.
Qed.

(** The temporary file may hold anything. *)
Lemma quiet_tmp fs' n : quiet fs' → quiet (<[tmp := n]> fs').
Proof.
  intros [Hu Ht]. split; [|rewrite lookup_insert_ne by apply tmp_target; done].
  intros l Hl. unfold untouched. rewrite lookup_insert_ne by done. by apply Hu.
Qed.

Lemma quiet_delete fs' : quiet fs' → quiet (delete tmp fs').
Proof.
  intros [Hu Ht]. split; [|rewrite lookup_delete_ne by apply tmp_target; done].
  intros l Hl. unfold untouched. rewrite lookup_delete_ne by done. by apply Hu.
Qed.

Lemma quiet_blob fs' content : quiet fs' → fs' !! blob = Some (FileNode content) → fs !! blob = Some (FileNode content).
Proof.
  intros [Hu _] E. destruct (Hu blob) as [<-|(_ & E' & _)]; [|done|congruence].
  intros Eb. apply Hblob. rewrite Eb. by apply prefix_app_r.
Qed.

Lemma wp_create_names l before w :
  before ++ l = names → quiet_world w →
  wp (create_dirs (inbox ++ before) (Normal <$> l)) (λ _ w', quiet_world w') w.
Proof.
  revert before w. induction l as [|s l IH]; intros before w Hn Hq; [done|]. rewrite fmap_cons. cbn [create_dirs].
  rewrite <-app_assoc. assert ((before ++ [s]) ++ l = names) as Hn' by by rewrite <-app_assoc.
  wp_step. wp_step. destruct (w_fs w !! _) as [[]|] eqn:E; [by wp_step|by apply IH|].
  wp_step. apply wp_call; [|done]. intros faults. wp_step. unfold set_fs. wp_step. apply IH; [done|]. destruct Hq as [Ht Hq].
  assert (quiet (<[inbox ++ before ++ [s] := DirNode]> (w_fs w))) as Hq'.
  { destruct (below_inbox (before ++ [s])) as [? ?]; [by destruct before|].
    apply quiet_mkdir; try done; intros El%app_inv_head; apply (f_equal length) in El; rewrite <-Hn', !length_app in El; cbn in El; lia. }
  split; [apply Forall_app_2; [done|by constructor]|done].
Qed.

Lemma wp_copy w :
  quiet_world w →
  wp (copy cwd (components blob_path) (tmp_path root doc))
    (λ r w', quiet_world w' ∧
       (r = Ok tt → ∃ content, fs !! blob = Some (FileNode content) ∧ w_fs w' !! tmp = Some (FileNode content))) w.
Proof.
  intros Hq. unfold copy. wp_step. apply wp_tick. intros f faults. cbn.
  wp_step. apply wp_resolve; [done|]. intros _. wp_step. apply wp_resolve; [done|]. intros _. rewrite locate_tmp.
  wp_step. wp_step. cbn [w_fs]. destruct Hq as [Ht Hq].
  assert (∀ c, quiet_world (mkWorld (<[tmp := FileNode c]> (w_fs w)) faults (w_trace w ++ write_states (w_fs w) tmp c))) as Hw.
  { intros c. split; [|by apply quiet_tmp]. apply Forall_app_2; [done|]. unfold write_states. apply Forall_fmap, Forall_true.
    intros n. by apply quiet_tmp. }
  destruct (w_fs w !! locate cwd (components blob_path)) as [[content|]|] eqn:Eb; [|by wp_step..].
  assert (bool_decide (locate cwd (components blob_path) = tmp) = false) as ->.
  { apply bool_decide_false. intros Eq. apply Hblob. unfold blob; rewrite Eq. by apply prefix_app_r. }
  apply quiet_blob in Eb; [|done].
  destruct (w_fs w !! tmp) as [[]|]; [| by wp_step|].
  all: destruct f; unfold write_file; [wp_step; wp_step; wp_step; split; [apply Hw|done]|wp_step; split; [apply Hw|]].
  all: intros _; exists content; split; [done|]; cbn [w_fs]; by rewrite lookup_insert_eq.
Qed.

(** The last two calls, once the temporary file is complete. *)
Lemma wp_finish w content :
  quiet_world w → fs !! blob = Some (FileNode content) → w_fs w !! tmp = Some (FileNode content) →
  wp (md ← stat cwd (tmp_path root doc);
      if negb (md.2 =? dd_blob_size doc)
      then ignore (remove_file cwd (tmp_path root doc));; fail io_error
      else rename cwd (tmp_path root doc) (target_path root doc))
    (λ r w', match r with
             | Ok _ => Forall (λ f, quiet f ∨ published f) (w_trace w') ∧ published (w_fs w') ∧ w_fs w' !! tmp = None ∧
                 walk (w_fs w') cwd (target_path root doc) = Some target
             | Err _ => quiet_world w'
             end) w.
Proof.
  intros [Ht Hq] Hb Htmp'. wp_step. unfold stat. wp_step. apply wp_call; [|done]. intros faults.
  wp_step. apply wp_resolve; [done|]. intros _. rewrite locate_tmp. wp_step. wp_step. cbn [w_fs]. rewrite Htmp'. wp_step. cbn [snd].
  destruct (Z.of_nat (length content) =? dd_blob_size doc) eqn:Hsize; to_prop; cbn [negb].
  - unfold rename. wp_step. apply wp_call; [|done]. intros faults'. cbn [w_fs w_trace].
    wp_step. apply wp_resolve; [done|]. intros _. wp_step. apply wp_resolve; [done|]. cbn [w_fs]. intros Hwalk.
    rewrite locate_target in Hwalk. rewrite locate_tmp, locate_target. wp_step. wp_step. cbn [w_fs w_trace]. rewrite Htmp'.
    assert (published (<[target := FileNode content]> (delete tmp (w_fs w)))) as Hp.
    { destruct Hq as [Hu _]. split; [|exists content; rewrite lookup_insert_eq; done].
      intros l ? ?. unfold untouched. rewrite lookup_insert_ne, lookup_delete_ne by done. by apply Hu. }
    assert (Forall (λ f, quiet f ∨ published f) (w_trace w ++ [<[target := FileNode content]> (delete tmp (w_fs w))])) as Hf.
    { apply Forall_app_2; [|by constructor; [right|]]. eapply Forall_impl; [done|]. by left. }
    unfold set_fs. destruct (w_fs w !! target) as [n|] eqn:Et; [destruct n; [|by wp_step]|]; wp_step; (split_and!; [done|done|..]);
      cbn [w_fs]; [by rewrite lookup_insert_ne, lookup_delete_eq by (apply not_eq_sym, tmp_target)| |
                   by rewrite lookup_insert_ne, lookup_delete_eq by (apply not_eq_sym, tmp_target)|].
    all: rewrite <-Hwalk; apply walk_dirs; intros loc; apply is_dir_moved; [by rewrite Htmp'|by rewrite Et].
  - wp_step. unfold ignore. apply wp_run. intros r w' [= <- <-]. wp_step.
    assert (wp (remove_file cwd (tmp_path root doc)) (λ _ w', quiet_world w') (mkWorld (w_fs w) faults (w_trace w))) as Hrm; [|exact Hrm].
    unfold remove_file. wp_step. apply wp_call; [|done]. intros faults'. cbn [w_fs w_trace].
    wp_step. apply wp_resolve; [done|]. intros _. rewrite locate_tmp. wp_step. wp_step. cbn [w_fs]. rewrite Htmp'. unfold set_fs. wp_step.
    split; [apply Forall_app_2; [done|]; constructor; [|done]|]; by apply quiet_delete.
Qed.

Lemma wp_deliver faults :
  wp (deliver cwd root doc blob_path)
    (λ r w', match r with
             | Ok _ => Forall (λ f, quiet f ∨ published f) (w_trace w') ∧ published (w_fs w') ∧ w_fs w' !! tmp = None ∧
                 walk (w_fs w') cwd (target_path root doc) = Some target
             | Err _ => quiet_world w'
             end) (world_new fs faults).
Proof.
  assert (quiet_world (world_new fs faults)) as Hq by (split; [constructor; [|done]|]; apply quiet_start).
  unfold deliver. wp_step. apply (wp_mono _ (λ _ w', quiet_world w')).
  { unfold create_dir_all, wp. rewrite Hparent, (create_dirs_existing fs _ _ _ inbox) by done.
    pose proof (wp_create_names names [] _ eq_refl Hq) as H. rewrite app_nil_r in H. exact H. }
  intros [[]|e] w Hw; [|done]. wp_step. eapply wp_mono; [by apply wp_copy|].
  intros [[]|e] w2 [Hw2 Hc]; [|done]. destruct Hc as (content & Hb & Ht); [done|]. by apply (wp_finish _ content).
Qed.

End delivery.

(** ** The sink's promises *)

(** The last component and what is before it. *)
Lemma contained_split doc :
  contained doc → ∃ names fname, inbox_rel doc = slashed (names ++ [fname]) ∧ Forall plain_name (names ++ [fname]).
Proof.
  intros (names & Hne & Hp & E)%inbox_rel_plain. destruct (exists_last Hne) as (l & s & ->). eauto.
Qed.

(** The complete file of a delivery: the blob's bytes, of the declared size. *)
Definition complete (doc : DistributionDocument) (blob target : list string) (fs fs' : Fs) : Prop :=
  ∃ content, fs !! blob = Some (FileNode content) ∧ Z.of_nat (length content) = dd_blob_size doc ∧
    fs' !! target = Some (FileNode content).

Lemma same_size_file cwd root doc fs target content :
  walk fs cwd (target_path root doc) = Some target →
  fs !! target = Some (FileNode content) → Z.of_nat (length content) = dd_blob_size doc →
  already_delivered cwd root doc (world_new fs []) = true.
Proof.
  intros Hw Hf Hs.
  assert (stat cwd (target_path root doc) (world_new fs []) = (Ok (true, Z.of_nat (length content)), world_new fs [])) as E.
  { unfold stat, syscall, tick, resolve, gets, lift, mbind, st_err_bind. cbn [w_faults world_new w_fs]. unfold mret, st_err_ret.
    change (w_fs (world_new fs [])) with fs. rewrite Hw. cbn [ok_or]. by rewrite Hf. }
  unfold already_delivered. rewrite E. cbn [fst andb]. by apply Z.eqb_eq.
Qed.

(** [C24] Whatever a sender names its file and whichever calls fail, a delivery touches
    nothing outside the inbox and publishes atomically: in every state an
    observer or a crash can see, files and directories outside the temporary file
    and the target are as before but for new directories below the inbox, and
    the target is the old one or the complete blob. Success means complete,
    with the temporary file gone and the delivery recognised after a restart;
    failure leaves the target as it was. *)
Theorem deliver_confined_atomic cwd root doc blob_path fs faults :
  let inbox := locate cwd (components root) in let blob := locate cwd (components blob_path) in
  let target := locate cwd (target_path root doc) in let tmp := locate cwd (tmp_path root doc) in
  contained doc → walk fs cwd (components root) = Some inbox → is_dir_at fs inbox = true → ¬ inbox `prefix_of` blob →
  let '(r, w) := deliver cwd root doc blob_path (world_new fs faults) in
  (∃ rest, rest ≠ [] ∧ target = inbox ++ rest) ∧ (∃ rest, rest ≠ [] ∧ tmp = inbox ++ rest) ∧
  Forall (λ fs', (∀ loc, loc ≠ tmp → loc ≠ target → untouched cwd root fs fs' loc) ∧
                 (fs' !! target = fs !! target ∨ complete doc blob target fs fs')) (w_trace w) ∧
  match r with
  | Ok _ => complete doc blob target fs (w_fs w) ∧ w_fs w !! tmp = None ∧
            already_delivered cwd root doc (world_new (w_fs w) []) = true
  | Err _ => w_fs w !! target = fs !! target
  end.
Proof.
  intros inbox blob target tmp Hc Hroot Hdir Hblob. destruct (contained_split _ Hc) as (names & fname & Hrel & Hp).
  pose proof (wp_deliver cwd root doc blob_path fs names fname Hrel Hp Hroot Hdir Hblob faults) as H.
  subst target tmp. rewrite (locate_target cwd root doc names fname Hrel Hp), (locate_tmp cwd root doc names fname Hrel Hp).
  unfold wp in H. destruct (deliver _ _ _ _ _) as [r w]. cbn [fst snd] in H.
  split; [exists (names ++ [fname]); split; [by destruct names|done]|].
  split; [eexists; split; [|done]; by destruct names|].
  destruct r as [[]|e].
  - destruct H as (Hf & (Hu & content & Hb & Hsize & Ht) & Htmp & Hwalk). split_and!; [|by exists content|done|].
    + eapply Forall_impl; [exact Hf|]. intros f [[Hq Hq']|[Hq Hq']]; split; auto.
    + by apply (same_size_file _ _ _ _ _ _ Hwalk Ht).
  - destruct H as [Hf [_ Ht]]. split; [|done]. eapply Forall_impl; [exact Hf|]. intros f [Hq Hq']; split; auto.
Qed.

(** The check before a delivery looks at the size only: a document whose target
    holds a regular file of its size counts as delivered, whatever the bytes. *)
Theorem same_size_counts_as_delivered cwd root doc fs content :
  walk fs cwd (target_path root doc) = Some (locate cwd (target_path root doc)) →
  fs !! locate cwd (target_path root doc) = Some (FileNode content) → Z.of_nat (length content) = dd_blob_size doc →
  already_delivered cwd root doc (world_new fs []) = true.
Proof. apply same_size_file. Qed.

(** The guard covers the name only. With no usable name the file lands at the
    distribution id, taken as it is: an id that climbs puts the file outside the
    inbox, replacing what is there. *)
Theorem fallback_id_escapes_inbox :
  let doc := mkDistributionDocument "../x" 2 (mkBlobMetadata None None) in
  let fs : Fs := {[ ["inbox"] := DirNode; ["x.bin"] := FileNode []; ["blob"] := FileNode [Byte.x01; Byte.x02] ]} in
  let '(r, w) := deliver [] "/inbox" doc "/blob" (world_new fs []) in
  r = Ok tt ∧ w_fs w !! ["x.bin"] = Some (FileNode [Byte.x01; Byte.x02]).
Proof. vm_compute. split; reflexivity. Qed.

(** ** Success *)

Lemma wp_tick_ok Q w : w_faults w = [] → Q (Ok None) w → wp tick Q w.
Proof. intros Hf HQ. unfold wp, tick. by rewrite Hf. Qed.

Lemma wp_call_ok Q w : w_faults w = [] → Q (Ok tt) w → wp syscall Q w.
Proof. intros Hf HQ. unfold syscall. wp_step. by apply wp_tick_ok. Qed.

Lemma wp_resolve_ok cwd path loc (Q : result IoError (list string) → World → Prop) w :
  walk (w_fs w) cwd path = Some loc → Q (Ok loc) w → wp (resolve cwd path) Q w.
Proof. intros Hw HQ. unfold resolve. do 3 wp_step. by rewrite Hw. Qed.

Lemma walk_app fs from p q : walk fs from (p ++ q) = walk fs from p ≫= λ loc, walk fs loc q.
Proof. revert from. induction p as [|c p IH]; intros from; [done|]. cbn. destruct (is_dir_at fs from); [|done]. by destruct c. Qed.

Lemma walk_mono fs fs' from path loc :
  (∀ l, is_dir_at fs l = true → is_dir_at fs' l = true) → walk fs from path = Some loc → walk fs' from path = Some loc.
Proof.
  intros Hd. revert from. induction path as [|c path IH]; intros from; [done|]. cbn.
  destruct (is_dir_at fs from) eqn:E; [|done]. rewrite (Hd _ E). destruct c; apply IH.
Qed.

Section success.
Context (cwd : list string) (root : string) (doc : DistributionDocument) (blob_path : string) (fs : Fs) (content : bytes).
Context (names : list string) (fname : string).

Let inbox : list string := locate cwd (components root).
Let tmp_name : string := "." +:+ fname +:+ ".partial".

(** No file stands where a directory is needed. *)
Definition clear_way : Prop := ∀ k, k `prefix_of` names → k ≠ [] → ∀ c, fs !! (inbox ++ k) ≠ Some (FileNode c).

(** All directories of the target exist. *)
Definition ready_dirs (fs' : Fs) : Prop := ∀ k, k `prefix_of` names → is_dir_at fs' (inbox ++ k) = true.

Lemma is_dir_insert fs' loc l : is_dir_at fs' l = true → is_dir_at (<[loc := DirNode]> fs') l = true.
Proof.
  unfold is_dir_at. destruct l as [|s l]; [done|]. intros E%bool_decide_eq_true. apply bool_decide_eq_true.
  destruct (decide (loc = s :: l)) as [->|?]; [by rewrite lookup_insert_eq|by rewrite lookup_insert_ne].
Qed.

(** Only missing directories of the target appeared. *)
Definition grown (fs1 fs2 : Fs) : Prop :=
  ∀ loc, fs2 !! loc = fs1 !! loc ∨
    (fs1 !! loc = None ∧ fs2 !! loc = Some DirNode ∧ ∃ k, k `prefix_of` names ∧ loc = inbox ++ k).

Lemma grown_mkdir fs1 k : fs1 !! (inbox ++ k) = None → k `prefix_of` names → grown fs1 (<[inbox ++ k := DirNode]> fs1).
Proof.
  intros Hn Hk loc. destruct (decide (inbox ++ k = loc)) as [<-|?]; [|left; by rewrite lookup_insert_ne].
  right. rewrite lookup_insert_eq. eauto.
Qed.

Lemma grown_trans fs1 fs2 fs3 : grown fs1 fs2 → grown fs2 fs3 → grown fs1 fs3.
Proof.
  intros H12 H23 loc. destruct (H12 loc) as [E|(? & ? & ?)], (H23 loc) as [E'|(? & ? & ?)].
  - left. congruence.
  - right. by rewrite <-E.
  - right. by rewrite E'.
  - congruence.
Qed.

Lemma create_names_succeeds l before w :
  before ++ l = names → w_faults w = [] →
  (∀ k c, k `prefix_of` names → k ≠ [] → w_fs w !! (inbox ++ k) ≠ Some (FileNode c)) →
  (∀ k, k `prefix_of` before → is_dir_at (w_fs w) (inbox ++ k) = true) →
  wp (create_dirs (inbox ++ before) (Normal <$> l))
    (λ r w', r = Ok tt ∧ w_faults w' = [] ∧ ready_dirs (w_fs w') ∧ grown (w_fs w) (w_fs w')) w.
Proof.
  revert before w. induction l as [|s l IH]; intros before w Hn Hf Hclear Hdirs.
  { cbn. apply wp_ret. rewrite app_nil_r in Hn. subst before. split_and!; try done. by left. }
  rewrite fmap_cons. cbn [create_dirs]. rewrite <-app_assoc.
  assert ((before ++ [s]) ++ l = names) as Hn' by by rewrite <-app_assoc.
  assert ((before ++ [s]) `prefix_of` names) as Hpre by (rewrite <-Hn'; by apply prefix_app_r).
  assert (∀ fs1 : Fs, fs1 !! (inbox ++ before ++ [s]) = Some DirNode →
    (∀ k, k `prefix_of` before → is_dir_at fs1 (inbox ++ k) = true) →
    ∀ k, k `prefix_of` before ++ [s] → is_dir_at fs1 (inbox ++ k) = true) as Hstep.
  { intros fs1 Hs Hb k [rest Hk]. destruct rest as [|x rest _] using rev_ind.
    - rewrite app_nil_r in Hk. subst k. unfold is_dir_at. destruct (inbox ++ before ++ [s]); [done|]. by apply bool_decide_eq_true.
    - rewrite app_assoc in Hk. apply app_inj_tail in Hk as [-> _]. apply Hb. by exists rest. }
  wp_step. wp_step. destruct (w_fs w !! (inbox ++ before ++ [s])) as [[c|]|] eqn:E.
  - exfalso. eapply Hclear; [done| |done]. by destruct before.
  - apply IH; [done..|]. by apply Hstep.
  - wp_step. apply wp_call_ok; [done|]. unfold set_fs. do 2 wp_step.
    eapply wp_mono; [apply IH; cbn [w_fs w_faults]; [done..| |]|].
    + intros k c Hk Hne. destruct (decide (inbox ++ before ++ [s] = inbox ++ k)) as [<-|?];
        [by rewrite lookup_insert_eq|rewrite lookup_insert_ne by done; by apply Hclear].
    + apply Hstep; [by rewrite lookup_insert_eq|]. intros k Hk. by apply is_dir_insert, Hdirs.
    + cbn [w_fs]. intros r w' (? & ? & ? & Hg). split_and!; [done..|]. eapply grown_trans; [|done]. by apply grown_mkdir.
Qed.


Lemma grown_dirs fs1 fs2 l : grown fs1 fs2 → is_dir_at fs1 l = true → is_dir_at fs2 l = true.
Proof.
  intros Hg. unfold is_dir_at. destruct l as [|s l]; [done|]. intros E%bool_decide_eq_true. apply bool_decide_eq_true.
  by destruct (Hg (s :: l)) as [->|(? & ? & _)].
Qed.

Lemma walk_ready fs' x :
  walk fs cwd (components root) = Some inbox → grown fs fs' → ready_dirs fs' →
  walk fs' cwd (components root ++ (Normal <$> (names ++ [x]))) = Some (inbox ++ names ++ [x]).
Proof.
  intros Hw Hg Hr. rewrite walk_app. rewrite (walk_mono fs fs' _ _ inbox) by eauto using grown_dirs. cbn [mbind option_bind].
  assert (∀ l before, before ++ l = names → walk fs' (inbox ++ before) (Normal <$> (l ++ [x])) = Some (inbox ++ names ++ [x])) as Hgen.
  { induction l as [|s l IH]; intros before Hb; cbn; rewrite Hr by (rewrite <-Hb; by apply prefix_app_r).
    - rewrite app_nil_r in Hb. subst before. by rewrite <-app_assoc.
    - rewrite <-app_assoc. apply IH. by rewrite <-app_assoc. }
  rewrite <-(Hgen names []), app_nil_r by done. done.
Qed.

Hypothesis Hrel : inbox_rel doc = slashed (names ++ [fname]).
Hypothesis Hplain : Forall plain_name (names ++ [fname]).

Lemma wp_deliver_succeeds :
  walk fs cwd (components root) = Some inbox → is_dir_at fs inbox = true → clear_way →
  walk fs cwd (components blob_path) = Some (locate cwd (components blob_path)) →
  fs !! locate cwd (components blob_path) = Some (FileNode content) → Z.of_nat (length content) = dd_blob_size doc →
  ¬ inbox `prefix_of` locate cwd (components blob_path) →
  fs !! (inbox ++ names ++ [fname]) ≠ Some DirNode → fs !! (inbox ++ names ++ [tmp_name]) ≠ Some DirNode →
  wp (deliver cwd root doc blob_path) (λ r _, r = Ok tt) (world_new fs []).
Proof.
  intros Hw Hd Hclear Hwb Hb Hsize Hout Ht Htmp'. pose proof (Htarget cwd root doc names fname Hrel Hplain) as Etarget.
  pose proof (Htmp cwd root doc names fname Hrel Hplain) as Etmp. fold tmp_name in Etmp.
  assert (∀ k fs', grown fs fs' → ¬ k `prefix_of` names → fs' !! (inbox ++ k) = fs !! (inbox ++ k)) as Hkeep.
  { intros k fs' Hg Hk. destruct (Hg (inbox ++ k)) as [?|(_ & _ & k' & Hk' & ->%app_inv_head)]; [done|]. by destruct Hk. }
  assert (∀ x, ¬ names ++ [x] `prefix_of` names) as Hlong by (intros x; apply prefix_snoc_not).
  unfold deliver. wp_step. apply (wp_mono _ (λ r w', r = Ok tt ∧ w_faults w' = [] ∧ ready_dirs (w_fs w') ∧ grown fs (w_fs w'))).
  { unfold create_dir_all, wp. rewrite (Hparent cwd root doc names fname Hrel Hplain), (create_dirs_existing fs _ _ _ inbox) by done.
    pose proof (create_names_succeeds names [] (world_new fs []) eq_refl eq_refl) as H. rewrite app_nil_r in H. apply H.
    - intros k c ? ?. by apply Hclear.
    - intros k ->%prefix_nil_inv. by rewrite app_nil_r. }
  intros r w (-> & Hf & Hr & Hg). wp_step. unfold copy. wp_step. apply wp_tick_ok; [done|]. wp_step.
  eapply wp_resolve_ok; [eapply walk_mono; [|exact Hwb]; intros; by eapply grown_dirs|].
  wp_step. rewrite Etmp. eapply wp_resolve_ok; [by apply walk_ready|]. wp_step. wp_step.
  assert (w_fs w !! locate cwd (components blob_path) = Some (FileNode content)) as ->.
  { destruct (Hg (locate cwd (components blob_path))) as [->|(E & _)]; [done|congruence]. }
  rewrite bool_decide_false by (intros E; apply Hout; rewrite E; by apply prefix_app_r).
  pose proof (Hkeep (names ++ [tmp_name]) _ Hg (Hlong _)) as Et1. pose proof (Hkeep (names ++ [fname]) _ Hg (Hlong _)) as Et2.
  set (tmp := inbox ++ names ++ [tmp_name]) in *. set (target := inbox ++ names ++ [fname]) in *.
  assert (tmp ≠ target) as Hne.
  { intros E%app_inv_head%app_inv_head. injection E as E. apply (f_equal String.length) in E.
    unfold tmp_name in E. rewrite !length_string_app in E. cbn in E. lia. }
  set (fs2 := <[tmp := FileNode content]> (w_fs w)).
  assert (∀ x, walk fs2 cwd (components root ++ (Normal <$> (names ++ [x]))) = Some (inbox ++ names ++ [x])) as Hwalk.
  { intros x. rewrite <-(walk_ready _ x Hw Hg Hr). apply walk_dirs. intros loc. unfold fs2, is_dir_at. destruct loc as [|y loc]; [done|].
    apply bool_decide_ext. destruct (decide (tmp = y :: loc)) as [<-|?]; [|by rewrite lookup_insert_ne].
    rewrite lookup_insert_eq, Et1. naive_solver. }
  assert (∀ w2, w_faults w2 = [] → w_fs w2 = fs2 →
    wp (md ← stat cwd (components root ++ (Normal <$> (names ++ [tmp_name])));
        if negb (md.2 =? dd_blob_size doc)
        then ignore (remove_file cwd (components root ++ (Normal <$> (names ++ [tmp_name]))));; fail io_error
        else rename cwd (components root ++ (Normal <$> (names ++ [tmp_name]))) (target_path root doc)) (λ r _, r = Ok tt) w2) as Hrest.
  { intros w2 Hf2 Hfs2. wp_step. unfold stat. wp_step. apply wp_call_ok; [done|]. wp_step.
    eapply wp_resolve_ok; [rewrite Hfs2; apply Hwalk|]. do 2 wp_step. rewrite Hfs2. unfold fs2 at 1. rewrite lookup_insert_eq. wp_step.
    cbn [snd]. rewrite (proj2 (Z.eqb_eq _ _) Hsize). cbn [negb]. unfold rename. wp_step. apply wp_call_ok; [done|].
    wp_step. eapply wp_resolve_ok; [rewrite Hfs2; apply Hwalk|]. wp_step. rewrite Etarget.
    eapply wp_resolve_ok; [rewrite Hfs2; apply Hwalk|]. do 2 wp_step. rewrite Hfs2. unfold fs2 at 1 2.
    fold tmp target. rewrite lookup_insert_eq, lookup_insert_ne, Et2 by done.
    destruct (fs !! target) as [[]|]; [|done|]; unfold set_fs; by wp_step. }
  rewrite Et1. destruct (fs !! tmp) as [[]|]; [|done|]; unfold write_file; wp_step; by apply Hrest.
Qed.

End success.

(** A delivery succeeds when nothing is in its way: with every call succeeding, a
    readable blob of the declared size outside the inbox, no file where a
    directory is needed and no directory at the target or the temporary file. *)
Theorem deliver_succeeds cwd root doc blob_path fs content :
  let inbox := locate cwd (components root) in let blob := locate cwd (components blob_path) in
  contained doc → walk fs cwd (components root) = Some inbox → is_dir_at fs inbox = true →
  walk fs cwd (components blob_path) = Some blob → fs !! blob = Some (FileNode content) →
  Z.of_nat (length content) = dd_blob_size doc → ¬ inbox `prefix_of` blob →
  (∀ loc c, inbox `prefix_of` loc → loc ≠ locate cwd (target_path root doc) → loc `prefix_of` locate cwd (target_path root doc) →
     fs !! loc ≠ Some (FileNode c)) →
  fs !! locate cwd (target_path root doc) ≠ Some DirNode → fs !! locate cwd (tmp_path root doc) ≠ Some DirNode →
  (deliver cwd root doc blob_path (world_new fs [])).1 = Ok tt.
Proof.
  intros inbox blob Hc Hw Hd Hwb Hb Hsize Hout Hway Ht Htmp'. destruct (contained_split _ Hc) as (names & fname & Hrel & Hp).
  rewrite (locate_target cwd root doc names fname Hrel Hp) in Ht, Hway. rewrite (locate_tmp cwd root doc names fname Hrel Hp) in Htmp'.
  apply (wp_deliver_succeeds cwd root doc blob_path fs content names fname Hrel Hp); try done.
  intros k [rest Hk] _ c. apply Hway; [by apply prefix_app_r| |].
  - intros E%app_inv_head. apply (f_equal length) in E. rewrite Hk, !length_app in E. cbn in E. lia.
  - fold inbox. apply prefix_app. exists (rest ++ [fname]). by rewrite Hk, app_assoc.
Qed.

(** ** Witnesses *)

Definition toy_fs : Fs :=
  {[ ["inbox"] := DirNode; ["inbox"; "a.txt"] := FileNode [Byte.x00]; ["blob"] := FileNode [Byte.x01; Byte.x02] ]}.

Definition toy_doc : DistributionDocument := mkDistributionDocument "d1" 2 (mkBlobMetadata (Some "./sub//a.txt") None).

Lemma deliver_confined_atomic_witness :
  (deliver [] "/inbox" toy_doc "/blob" (world_new toy_fs [])).1 = Ok tt ∧
  w_fs (deliver [] "/inbox" toy_doc "/blob" (world_new toy_fs [None; Some 1%nat])).2 !! ["inbox"; "sub"; "a.txt"] = None.
Proof.
  split; [vm_compute; reflexivity|].
  pose proof (deliver_confined_atomic [] "/inbox" toy_doc "/blob" toy_fs [None; Some 1%nat]) as H. cbv zeta in H.
  destruct (deliver [] "/inbox" toy_doc "/blob" (world_new toy_fs [None; Some 1%nat])) as [r w] eqn:E.
  assert (is_ok r = false) as Hr by (change (is_ok (r, w).1 = false); rewrite <-E; vm_compute; reflexivity).
  destruct H as (_ & _ & _ & H).
  - left. eexists. vm_compute. reflexivity.
  - vm_compute. reflexivity.
  - vm_compute. reflexivity.
  - vm_compute. intros [? ?]. discriminate.
  - destruct r; [discriminate|]. exact H.
Defined.

Lemma deliver_succeeds_witness : (deliver [] "/inbox" toy_doc "/blob" (world_new toy_fs [])).1 = Ok tt.
Proof.
  apply (deliver_succeeds [] "/inbox" toy_doc "/blob" toy_fs [Byte.x01; Byte.x02]).
  - left. eexists. vm_compute. reflexivity.
  - vm_compute. reflexivity.
  - vm_compute. reflexivity.
  - vm_compute. reflexivity.
  - vm_compute. reflexivity.
  - vm_compute. reflexivity.
  - vm_compute. intros [? ?]. discriminate.
  - intros loc c [rest ->] Hne [rest' E]. revert Hne E.
    replace (locate [] (target_path "/inbox" toy_doc)) with ["inbox"%string; "sub"%string; "a.txt"%string] by (vm_compute; reflexivity).
    replace (locate [] (components "/inbox")) with ["inbox"%string] by (vm_compute; reflexivity).
    intros Hne E. destruct rest as [|x [|y [|z rest]]]; simplify_eq/=; try done; vm_compute; discriminate.
  - vm_compute. discriminate.
  - vm_compute. discriminate.
Defined.

Lemma same_size_counts_as_delivered_witness :
  already_delivered [] "/inbox" (mkDistributionDocument "d2" 1 (mkBlobMetadata (Some "a.txt") None)) (world_new toy_fs []) = true.
Proof. apply (same_size_counts_as_delivered _ _ _ _ [Byte.x00]); vm_compute; reflexivity. Defined.
