(* ===== verification/Outbox.v ===== *)
(** * The outbox watcher

    Model of [src/attachments/outbox.rs]: the directory walk over what the file
    system answers at one poll, the stability and deduplication decision, and
    the poll with its two maps. A request goes to [handlers::send_attachments];
    its answer is only logged, so the poll yields the requests. Names are UTF-8. *)

From S2P Require Import Prelude Paths PathFacts AttachConfig Validate.
From Stdlib Require Import Strings.Ascii.

(** ** The decision *)

(** size and modification time *)
Abbreviation Version := (Z * Z)%type.

Inductive OutboxDecision := Send | Wait | Skip.

#[global] Instance OutboxDecision_eq_dec : EqDecision OutboxDecision.
Proof. solve_decision. Defined.

Definition outbox_decision (current : Version) (last_seen last_sent : option Version) : OutboxDecision :=
  if bool_decide (last_sent = Some current) then Skip
  else if bool_decide (last_seen = Some current) then Send
  else Wait.

(** ** The walk *)

(** A directory entry as the calls of one poll see it: a regular file with its
    metadata if readable (and the modification time if supported), a directory
    with the entries it lists if readable, anything else. *)
Inductive Entry :=
| EFile (meta : option (Z * option Z))
| EDir (readable : bool) (entries : list (string * Entry))
| EOther.

Record Found := mkFound {
  fo_relative_path : string;
  fo_full_path : string;
  fo_size : Z;
  fo_mtime : Z;
}.

Definition is_dotfile (name : string) : bool := starts_with name ".".

(** [str::replace('\\', "/")] *)
Fixpoint forward_slashes (s : string) : string :=
  match s with
  | EmptyString => EmptyString
  | String a s => String (if Ascii.eqb a "\"%char then "/"%char else a) (forward_slashes s)
  end.

(** A file at [names] below [root]; the epoch replaces an unknown time. *)
Definition found (root : string) (names : list string) (size : Z) (mtime : option Z) : Found :=
  mkFound (forward_slashes (slashed names)) (foldl path_join root names) size (default 0 mtime).

(** The entries of one directory: the files found and the directories to visit. *)
Fixpoint scan_entries (root : string) (dir : list string) (entries : list (string * Entry))
  : list Found * list (list string * Entry) :=
  match entries with
  | [] => ([], [])
  | (name, e) :: rest =>
      let '(files, dirs) := scan_entries root dir rest in
      if is_dotfile name then (files, dirs)
      else
        match e with
        | EDir _ _ => (files, (dir ++ [name], e) :: dirs)
        | EFile (Some (size, mtime)) => (found root (dir ++ [name]) size mtime :: files, dirs)
        | EFile None | EOther => (files, dirs)
        end
  end.

(** The loop over the stack, its top first. *)
Fixpoint walk_loop (fuel : nat) (root : string) (stack : list (list string * Entry)) (out : list Found) : option (list Found) :=
  match fuel with
  | O => None
  | S fuel =>
      match stack with
      | [] => Some out
      | (dir, EDir true entries) :: stack =>
          let '(files, dirs) := scan_entries root dir entries in
          walk_loop fuel root (rev dirs ++ stack) (out ++ files)
      | _ :: stack => walk_loop fuel root stack out
      end
  end.

(** The number of directories, and one more for a root that is none, bounds the
    iterations. *)
Fixpoint dir_count (e : Entry) : nat :=
  match e with
  | EDir _ entries => S ((fix go l := match l with [] => O | (_, e) :: l => (dir_count e + go l)%nat end) entries)
  | _ => O
  end.

Definition walk_files (root : string) (tree : Entry) : option (list Found) := walk_loop (2 + dir_count tree) root [([], tree)] [].

(** ** Requests *)

Definition build_request (root_name relative_path : string) (size : Z) (sha256 : bytes) : SendAttachmentsRequest :=
  mkSendRequest [mkFileSpec root_name relative_path size sha256 None None]
    (Some (mkScopeSpec (Some ScopeAllNodes))) None (Some PRIORITY_UNSPECIFIED).

(** ** The poll *)

Record OutboxState := mkOutbox {
  last_seen : gmap string Version;
  last_sent : gmap string Version;
}.

Definition outbox_new : OutboxState := mkOutbox ∅ ∅.

Section poll.
(** [sha256_file] at this poll *)
Context (hash : string → option bytes).

Definition poll_file (root_name : string) (f : Found) (s : OutboxState) : OutboxState * list SendAttachmentsRequest :=
  let current := (fo_size f, fo_mtime f) in
  let decision := outbox_decision current (last_seen s !! fo_full_path f) (last_sent s !! fo_full_path f) in
  let s := mkOutbox (<[fo_full_path f := current]> (last_seen s)) (last_sent s) in
  match decision with
  | Send =>
      match hash (fo_full_path f) with
      | None => (s, [])
      | Some sha256 =>
          (mkOutbox (last_seen s) (<[fo_full_path f := current]> (last_sent s)),
           [build_request root_name (fo_relative_path f) (fo_size f) sha256])
      end
  | _ => (s, [])
  end.

Fixpoint poll_files (files : list (string * Found)) (s : OutboxState) : OutboxState * list SendAttachmentsRequest :=
  match files with
  | [] => (s, [])
  | (root_name, f) :: files =>
      let '(s, sent) := poll_file root_name f s in
      let '(s, more) := poll_files files s in
      (s, sent ++ more)
  end.

(** [prune_to_observed] *)
Definition prune_to_observed (m : gmap string Version) (observed : gset string) : gmap string Version :=
  filter (λ x, x.1 ∈ observed) m.

(** The files of all roots, in the order the loops visit them. *)
Definition scan_roots (roots : list (string * string * Entry)) : list (string * Found) :=
  flat_map (λ '(root_name, root_path, tree), (λ f, (root_name, f)) <$> default [] (walk_files root_path tree)) roots.

Definition poll (roots : list (string * string * Entry)) (s : OutboxState) : OutboxState * list SendAttachmentsRequest :=
  let files := scan_roots roots in
  let '(s, sent) := poll_files files s in
  let observed := list_to_set ((λ x, fo_full_path x.2) <$> files) in
  (mkOutbox (prune_to_observed (last_seen s) observed) (prune_to_observed (last_sent s) observed), sent).

End poll.
