(* ===== verification/OutboxFacts.v ===== *)
(** * The outbox watcher: what is found, what is sent, where it lands

    The walk ends and finds exactly the visible files; a poll treats every path
    on its own, as a small automaton over its observations; a sent file lands in
    a receiver's inbox at its place in the outbox. *)

From S2P Require Import Prelude Paths PathFacts AttachConfig Validate Ingest Outbox.
From S2P Require Inbox InboxFacts.
From Stdlib Require Import Strings.Ascii.

(** ** The walk *)

Section entry_ind.
Context (P : Entry → Prop).
Hypothesis Hfile : ∀ meta, P (EFile meta).
Hypothesis Hdir : ∀ readable entries, Forall (λ x, P x.2) entries → P (EDir readable entries).
Hypothesis Hother : P EOther.

Fixpoint entry_ind' (e : Entry) : P e :=
  match e with
  | EFile meta => Hfile meta
  | EDir readable entries =>
      Hdir readable entries
        ((fix go l : Forall (λ x, P x.2) l :=
            match l with
            | [] => Forall_nil_2 _
            | (name, e) :: l => Forall_cons_2 _ (name, e) l (entry_ind' e) (go l)
            end) entries)
  | EOther => Hother
  end.
End entry_ind.

(** Reference: the files below a directory, depth first, through readable
    directories and without dotfiles. *)
Fixpoint visible (root : string) (dir : list string) (e : Entry) : list Found :=
  match e with
  | EDir true entries =>
      (fix go l :=
         match l with
         | [] => []
         | (name, e) :: l =>
             (if is_dotfile name then []
              else match e with
                   | EFile (Some (size, mtime)) => [found root (dir ++ [name]) size mtime]
                   | _ => visible root (dir ++ [name]) e
                   end) ++ go l
         end) entries
  | _ => []
  end.

Definition visible_entries (root : string) (dir : list string) (entries : list (string * Entry)) : list Found :=
  visible root dir (EDir true entries).

Lemma visible_cons root dir name e entries :
  visible_entries root dir ((name, e) :: entries) =
  (if is_dotfile name then []
   else match e with
        | EFile (Some (size, mtime)) => [found root (dir ++ [name]) size mtime]
        | _ => visible root (dir ++ [name]) e
        end) ++ visible_entries root dir entries.
Proof. done. Qed.

Definition stack_count (stack : list (list string * Entry)) : nat := sum_list_with (λ x, dir_count x.2) stack.

Lemma dir_count_dir readable entries : dir_count (EDir readable entries) = S (sum_list_with (λ x, dir_count x.2) entries).
Proof. cbn. f_equal. induction entries as [|[n e] l IH]; [done|]. cbn. by rewrite IH. Qed.

Lemma stack_count_app s1 s2 : stack_count (s1 ++ s2) = (stack_count s1 + stack_count s2)%nat.
Proof. apply sum_list_with_app. Qed.

Lemma stack_count_rev s : stack_count (rev s) = stack_count s.
Proof.
  induction s as [|x s IH]; [done|]. cbn [rev]. rewrite stack_count_app, IH. unfold stack_count. cbn. lia.
Qed.

Lemma scan_entries_spec root dir entries :
  let '(files, dirs) := scan_entries root dir entries in
  visible_entries root dir entries ≡ₚ files ++ flat_map (λ x, visible root x.1 x.2) dirs ∧
  (stack_count dirs ≤ sum_list_with (λ x, dir_count x.2) entries)%nat.
Proof.
  induction entries as [|[name e] entries IH]; [done|]. cbn [scan_entries]. rewrite visible_cons.
  destruct (scan_entries root dir entries) as [files dirs]. destruct IH as [Hp Hc].
  destruct (is_dotfile name); [split; [done|cbn; lia]|].
  destruct e as [[[size mtime]|]|readable es|]; cbn [app visible]; [|split; [done|cbn; lia]| |split; [done|cbn; lia]].
  - split; [by rewrite Hp|cbn; lia].
  - split; [|unfold stack_count in *; cbn [sum_list_with snd]; lia]. cbn [flat_map fst snd].
    change (visible root (dir ++ [name]) (EDir readable es) ++ visible_entries root dir entries
      ≡ₚ files ++ (visible root (dir ++ [name]) (EDir readable es) ++ flat_map (λ x, visible root x.1 x.2) dirs)).
    rewrite Hp. by rewrite !app_assoc, (Permutation_app_comm files).
Qed.

Lemma scan_entries_dirs root dir entries : Forall (λ x, ∃ r es, x.2 = EDir r es) (scan_entries root dir entries).2.
Proof.
  induction entries as [|[name e] entries IH]; [constructor|]. cbn [scan_entries].
  destruct (scan_entries root dir entries) as [files dirs]. destruct (is_dotfile name); [done|].
  destruct e as [[[]|]| |]; try done. constructor; cbn; eauto.
Qed.

Lemma walk_loop_spec fuel root stack out :
  (stack_count stack < fuel)%nat → Forall (λ x, ∃ r es, x.2 = EDir r es) stack →
  ∃ files, walk_loop fuel root stack out = Some files ∧ files ≡ₚ out ++ flat_map (λ x, visible root x.1 x.2) stack.
Proof.
  revert stack out. induction fuel as [|fuel IH]; intros stack out Hf Hd; [lia|]. cbn [walk_loop].
  destruct Hd as [|[dir e] stack (r & es & E) Hd]; [exists out; by rewrite app_nil_r|]. cbn [snd] in E. subst e.
  unfold stack_count in Hf. cbn [sum_list_with snd] in Hf. rewrite dir_count_dir in Hf. fold (stack_count stack) in Hf.
  destruct r; [|destruct (IH stack out) as (files & Hw & Hp); [lia|done|]; exists files; split; [done|exact Hp]].
  pose proof (scan_entries_spec root dir es) as Hs. pose proof (scan_entries_dirs root dir es) as Hds.
  destruct (scan_entries root dir es) as [files dirs]. destruct Hs as [Hperm Hcount].
  destruct (IH (rev dirs ++ stack) (out ++ files)) as (res & Hw & Hp).
  - rewrite stack_count_app, stack_count_rev. lia.
  - apply Forall_app_2; [by apply Forall_rev|done].
  - exists res. split; [done|]. rewrite Hp, flat_map_app, <-!app_assoc. apply Permutation_app_head. cbn [flat_map fst snd].
    fold (visible_entries root dir es). rewrite Hperm, <-!app_assoc. apply Permutation_app_head, Permutation_app_tail.
    apply Permutation_flat_map. symmetry. apply Permutation_rev.
Qed.

(** [C30] The walk ends, whatever the file system answers, and returns each visible
    file once: the regular files below readable directories that no dotted name
    hides. *)
Theorem walk_files_exact root tree : ∃ files, walk_files root tree = Some files ∧ files ≡ₚ visible root [] tree.
Proof.
  unfold walk_files. destruct tree as [meta|r es|]; [by exists []| |by exists []].
  destruct (walk_loop_spec (2 + dir_count (EDir r es)) root [([], EDir r es)] []) as (files & Hw & Hp).
  - unfold stack_count. cbn [sum_list_with snd]. lia.
  - constructor; [cbn; eauto|constructor].
  - exists files. split; [done|]. rewrite Hp. cbn [flat_map fst snd app]. by rewrite app_nil_r.
Qed.

(** ** One path *)

(** What a poll does to one path: [o] is its version if it was found, [h] whether
    it could be hashed. The last component says whether a request was sent. *)
Definition path_step (x : option Version * option Version * bool) (oh : option Version * bool)
  : option Version * option Version * bool :=
  let '(seen, sent, _) := x in
  let '(o, h) := oh in
  match o with
  | None => (None, None, false)
  | Some v =>
      match outbox_decision v seen sent with
      | Send => if h then (Some v, Some v, true) else (Some v, sent, false)
      | _ => (Some v, sent, false)
      end
  end.

Definition path_run (t : list (option Version * bool)) : option Version * option Version * bool :=
  foldl path_step (None, None, false) t.

(** The version of a path among the files of a poll. *)
Definition version (f : Found) : Version := (fo_size f, fo_mtime f).

Definition observed (files : list (string * Found)) (p : string) : option Version :=
  (list_to_map ((λ x, (fo_full_path x.2, version x.2)) <$> files) : gmap string Version) !! p.

Definition paths (files : list (string * Found)) : list string := (λ x, fo_full_path x.2) <$> files.

Section one_poll.
Context (hash : string → option bytes).

(** The input of a path's automaton at a poll, and its state. *)
Definition input (files : list (string * Found)) (p : string) : option Version * bool :=
  (observed files p, bool_decide (is_Some (hash p))).

Definition path_state (s : OutboxState) (p : string) : option Version * option Version := (last_seen s !! p, last_sent s !! p).

(** The requests of a poll, path by path. *)
Definition requests (files : list (string * Found)) (s : OutboxState) : list SendAttachmentsRequest :=
  omap (λ x, let '(rn, f) := x in
          if (path_step (path_state s (fo_full_path f), false) (Some (version f), bool_decide (is_Some (hash (fo_full_path f))))).2
          then sha ← hash (fo_full_path f); Some (build_request rn (fo_relative_path f) (fo_size f) sha)
          else None) files.

Lemma poll_file_other rn f s p : p ≠ fo_full_path f → path_state (poll_file hash rn f s).1 p = path_state s p.
Proof.
  intros Hp. unfold poll_file, path_state.
  destruct (outbox_decision _ _ _); [destruct (hash _)|..]; cbn [fst last_seen last_sent]; by rewrite !lookup_insert_ne.
Qed.

Lemma poll_file_same rn f s :
  path_step (path_state s (fo_full_path f), false) (Some (version f), bool_decide (is_Some (hash (fo_full_path f)))) =
  (path_state (poll_file hash rn f s).1 (fo_full_path f), bool_decide ((poll_file hash rn f s).2 ≠ [])).
Proof.
  unfold poll_file, path_state, path_step, version.
  destruct (outbox_decision _ _ _); [destruct (hash _)|..]; cbn; by rewrite ?lookup_insert_eq.
Qed.

Lemma poll_file_sent rn f s : (poll_file hash rn f s).2 = requests [(rn, f)] s.
Proof.
  unfold requests. cbn [omap list_omap]. rewrite (poll_file_same rn). unfold poll_file.
  destruct (outbox_decision _ _ _); [destruct (hash (fo_full_path f)) eqn:E|..]; cbn; by rewrite ?E.
Qed.

Lemma requests_ext files s s' :
  (∀ p, p ∈ paths files → path_state s p = path_state s' p) → requests files s = requests files s'.
Proof.
  intros Hs. unfold requests. apply list_omap_ext, Forall_Forall2_diag, Forall_forall. intros [rn f] Hf.
  rewrite Hs; [done|]. apply list_elem_of_fmap. by exists (rn, f).
Qed.

Lemma poll_files_spec files s :
  NoDup (paths files) → let '(s', sent) := poll_files hash files s in
  sent = requests files s ∧
  (∀ p, p ∉ paths files → path_state s' p = path_state s p) ∧
  (∀ rn f, (rn, f) ∈ files → path_state s' (fo_full_path f) =
     (path_step (path_state s (fo_full_path f), false) (Some (version f), bool_decide (is_Some (hash (fo_full_path f))))).1).
Proof.
  revert s. induction files as [|[rn f] files IH]; intros s Hnd.
  { split_and!; [done|done|]. intros ?? []%elem_of_nil. }
  apply NoDup_cons in Hnd as [Hf Hnd]. cbn [poll_files].
  pose proof (poll_file_same rn f s) as Hsame. pose proof (poll_file_other rn f s) as Hother. pose proof (poll_file_sent rn f s) as Hsent.
  destruct (poll_file hash rn f s) as [s1 sent1]. cbn [fst snd] in *. specialize (IH s1 Hnd).
  destruct (poll_files hash files s1) as [s2 sent2]. destruct IH as (-> & Hout & Hin).
  split_and!.
  - change (requests ((rn, f) :: files) s) with (requests ([(rn, f)] ++ files) s). unfold requests at 2. rewrite omap_app.
    fold (requests [(rn, f)] s) (requests files s). rewrite Hsent. f_equal. apply requests_ext. intros p Hp. apply Hother. by intros ->.
  - intros p [Hp Hp']%not_elem_of_cons. rewrite Hout by done. by apply Hother.
  - intros rn' f' [[= -> ->]|Hf']%elem_of_cons; [by rewrite Hsame, Hout|]. rewrite (Hin rn') by done. rewrite Hother; [done|].
    intros E. apply Hf. rewrite <-E. apply list_elem_of_fmap. by exists (rn', f').
Qed.

Lemma observed_in files rn f : NoDup (paths files) → (rn, f) ∈ files → observed files (fo_full_path f) = Some (version f).
Proof.
  intros Hnd Hf. apply elem_of_list_to_map; [by rewrite <-list_fmap_compose|]. apply list_elem_of_fmap. by exists (rn, f).
Qed.

Lemma observed_out files p : p ∉ paths files → observed files p = None.
Proof. intros Hp. apply not_elem_of_list_to_map. by rewrite <-list_fmap_compose. Qed.

Lemma prune_lookup m (seen : gset string) p : prune_to_observed m seen !! p = if decide (p ∈ seen) then m !! p else None.
Proof.
  unfold prune_to_observed. case_decide.
  - destruct (m !! p) eqn:E; [by apply map_lookup_filter_Some|]. apply map_lookup_filter_None. by left.
  - apply map_lookup_filter_None. right. by intros ? _.
Qed.

(** A poll whose roots do not overlap steps the automaton of every path, found or
    not, and sends what the automata say. *)
Lemma poll_spec roots s :
  NoDup (paths (scan_roots roots)) → let '(s', sent) := poll hash roots s in
  sent = requests (scan_roots roots) s ∧
  ∀ p, path_state s' p = (path_step (path_state s p, false) (input (scan_roots roots) p)).1.
Proof.
  intros Hnd. unfold poll. pose proof (poll_files_spec (scan_roots roots) s Hnd) as H.
  destruct (poll_files hash (scan_roots roots) s) as [s1 sent]. destruct H as (-> & Hout & Hin). split; [done|].
  intros p. unfold path_state at 1. cbn [last_seen last_sent]. rewrite !prune_lookup. unfold input. fold (paths (scan_roots roots)).
  case_decide as Hp; rewrite elem_of_list_to_set in Hp.
  - apply list_elem_of_fmap in Hp as ([rn f] & -> & Hf). cbn [snd]. rewrite (observed_in _ rn) by done.
    by rewrite <-(Hin rn f Hf).
  - rewrite observed_out by done. by destruct (path_state s p).
Qed.

End one_poll.

(** ** A run of the watcher *)

(** One poll: what hashing answers and what the roots hold. *)
Abbreviation Poll := ((string → option bytes) * list (string * string * Entry))%type.

Fixpoint run_polls (polls : list Poll) (s : OutboxState) : OutboxState * list (list SendAttachmentsRequest) :=
  match polls with
  | [] => (s, [])
  | (hash, roots) :: polls =>
      let '(s, sent) := poll hash roots s in
      let '(s, sents) := run_polls polls s in
      (s, sent :: sents)
  end.

Definition trace (p : string) (polls : list Poll) : list (option Version * bool) :=
  (λ x, input x.1 (scan_roots x.2) p) <$> polls.

(** Whether the automaton of a path sends at the last poll. *)
Definition sends (p : string) (polls : list Poll) : bool := (path_run (trace p polls)).2.

Lemma run_polls_snoc polls hash roots s :
  run_polls (polls ++ [(hash, roots)]) s =
  let '(s1, sents) := run_polls polls s in let '(s2, sent) := poll hash roots s1 in (s2, sents ++ [sent]).
Proof.
  revert s. induction polls as [|[h r] polls IH]; intros s; cbn; [by destruct (poll hash roots s)|].
  destruct (poll h r s) as [s1 sent]. rewrite IH. destruct (run_polls polls s1) as [s2 sents].
  by destruct (poll hash roots s2).
Qed.

Lemma path_run_snoc t x : path_run (t ++ [x]) = path_step (path_run t) x.
Proof. unfold path_run. by rewrite foldl_app. Qed.

Lemma path_step_flag a b c x : path_step (a, b, c) x = path_step (a, b, false) x.
Proof. done. Qed.

Lemma length_run_polls polls s : length (run_polls polls s).2 = length polls.
Proof.
  revert s. induction polls as [|[h r] polls IH]; intros s; [done|]. cbn. destruct (poll h r s) as [s1 sent].
  specialize (IH s1). destruct (run_polls polls s1). cbn in *. by rewrite IH.
Qed.


(** ** One request per stable version *)

Definition seen_as (x : option Version * bool) : option Version := x.1.

(** Once a version is sent and the path keeps that version, it is not sent again. *)
Lemma path_quiet t v t2 :
  (path_run t).1.2 = Some v → Forall (λ x, seen_as x = Some v) t2 → (path_run (t ++ t2)).1.2 = Some v.
Proof.
  intros Ht. induction t2 as [|[o h] t2 IH] using rev_ind; intros Hall; [by rewrite app_nil_r|].
  apply Forall_app in Hall as [Hall Hx]. apply Forall_cons in Hx as [Hx _]. cbn in Hx. subst o.
  rewrite app_assoc, path_run_snoc. specialize (IH Hall). destruct (path_run (t ++ t2)) as [[a b] c]. cbn in IH. subst b.
  cbn. unfold outbox_decision. by rewrite bool_decide_true.
Qed.

Lemma path_sends_inv t x :
  (path_run (t ++ [x])).2 = true →
  ∃ v, seen_as x = Some v ∧ x.2 = true ∧ (path_run t).1.1 = Some v ∧ (path_run t).1.2 ≠ Some v ∧ (path_run (t ++ [x])).1.2 = Some v.
Proof.
  rewrite path_run_snoc. destruct (path_run t) as [[a b] c]. destruct x as [[v|] h]; [|done]. cbn. unfold outbox_decision.
  repeat case_bool_decide; [done| |done]. destruct h; [|done]. intros _. by exists v.
Qed.

Lemma path_seen t x : (path_run (t ++ [x])).1.1 = seen_as x.
Proof.
  rewrite path_run_snoc. destruct (path_run t) as [[a b] c]. destruct x as [[v|] h]; [|done]. cbn.
  unfold outbox_decision. repeat case_bool_decide; try done. by destruct h.
Qed.

(** A remembered sent version was sent, and the path never left since. *)
Lemma path_sent_origin t v :
  (path_run t).1.2 = Some v →
  ∃ t1 h t2, t = t1 ++ (Some v, h) :: t2 ∧ (path_run (t1 ++ [(Some v, h)])).2 = true ∧ Forall (λ x, is_Some (seen_as x)) t2.
Proof.
  induction t as [|[o h] t IH] using rev_ind; [done|]. rewrite path_run_snoc. intros Hs.
  assert ((path_run t).1.2 = Some v ∧ is_Some o ∨ (o = Some v ∧ (path_run (t ++ [(o, h)])).2 = true)) as [[Hv Ho]|[-> Hsend]].
  { rewrite path_run_snoc. destruct (path_run t) as [[a b] c]. destruct o as [w|]; [|done]. cbn in *.
    destruct (outbox_decision w a b); [destruct h|..]; cbn in *; simplify_eq; eauto. }
  - destruct (IH Hv) as (t1 & h1 & t2 & -> & Hsend & Hall). exists t1, h1, (t2 ++ [(o, h)]).
    rewrite <-app_assoc. split_and!; [done..|]. apply Forall_app_2; [done|by constructor].
  - exists t, h, []. split_and!; [done..|by constructor].
Qed.

(** A path's version is sent when it is stable, and once: a request needs the
    same version at the poll before and a readable file; between two requests for
    one version the path was gone or had another; and a version seen twice in a
    row has been sent by then if the file could be hashed, with the path present
    ever since. *)
Theorem stable_version_sent_once t :
  (∀ x, (path_run (t ++ [x])).2 = true →
     x.2 = true ∧ ∃ v t' h, seen_as x = Some v ∧ t = t' ++ [(Some v, h)]) ∧
  (∀ t1 t2 x y v, t = t1 ++ [x] ++ t2 ++ [y] → seen_as x = Some v → seen_as y = Some v →
     (path_run (t1 ++ [x])).2 = true → (path_run t).2 = true → ∃ z, z ∈ t2 ∧ seen_as z ≠ Some v) ∧
  (∀ v h t', t = t' ++ [(Some v, h); (Some v, true)] →
     ∃ t1 h1 t2, t = t1 ++ (Some v, h1) :: t2 ∧ (path_run (t1 ++ [(Some v, h1)])).2 = true ∧ Forall (λ x, is_Some (seen_as x)) t2).
Proof.
  split_and!.
  - intros x (v & Hx & Hh & Hseen & _)%path_sends_inv. split; [done|]. destruct t as [|[o h] t _] using rev_ind; [done|].
    rewrite path_seen in Hseen. cbn in Hseen. subst o. exists v, t, h. done.
  - intros t1 t2 x y v -> Hx Hy (v1 & Hv1 & _ & _ & _ & Hsent)%path_sends_inv Hsend.
    rewrite !app_assoc in Hsend. apply path_sends_inv in Hsend as (v2 & Hv2 & _ & _ & Hnot & _).
    rewrite Hx in Hv1. rewrite Hy in Hv2. simplify_eq.
    destruct (decide (Forall (λ z, seen_as z = Some v1) t2)) as [Hall|Hnall].
    + exfalso. apply Hnot. by apply path_quiet.
    + apply not_Forall_Exists in Hnall; [|apply _]. by apply Exists_exists in Hnall.
  - intros v h t' ->. apply path_sent_origin. replace (t' ++ [(Some v, h); (Some v, true)]) with ((t' ++ [(Some v, h)]) ++ [(Some v, true)]) by by rewrite <-app_assoc.
    rewrite path_run_snoc. pose proof (path_seen t' (Some v, h)) as Hs. destruct (path_run (t' ++ [(Some v, h)])) as [[a b] c]. cbn in Hs. subst a.
    cbn. unfold outbox_decision. case_bool_decide as Hb; [done|]. by rewrite bool_decide_true.
Qed.

(** ** From outbox to inbox *)

Definition no_backslash (s : string) : Prop := str_contains s "\"%char = false.

Lemma forward_slashes_id s : no_backslash s → forward_slashes s = s.
Proof.
  unfold no_backslash. induction s as [|a s IH]; [done|]. rewrite str_contains_cons.
  intros [Ha Hs]%orb_false_iff. cbn. rewrite Ascii.eqb_sym, Ha, IH by done. done.
Qed.

Lemma slashed_no_backslash names : Forall no_backslash names → no_backslash (slashed names).
Proof.
  unfold no_backslash. induction 1 as [|s names Hs Hn IH]; [done|]. destruct names as [|t names]; [done|].
  change (slashed (s :: t :: names)) with (s +:+ "/" +:+ slashed (t :: names)).
  by rewrite !InboxFacts.str_contains_app, Hs, IH.
Qed.

Lemma filter_names (names : list string) : filter not_cur (Normal <$> names) = Normal <$> names.
Proof. induction names as [|s names IH]; [done|]. rewrite fmap_cons, filter_cons_True by done. by rewrite IH. Qed.

(** A path of plain names is its own place in the inbox. *)
Lemma inbox_relpath_slashed m names :
  bm_name m = Some (slashed names) → names ≠ [] → Forall plain_name names → Inbox.inbox_relpath m = Some (slashed names).
Proof.
  intros Hm Hne Hp. unfold Inbox.inbox_relpath. rewrite Hm. cbn [mbind option_bind].
  assert (is_empty_str (slashed names) = false) as He.
  { destruct Hp as [|s names (Hs & _) Hp]; [done|]. destruct s; [done|]. by destruct names. }
  rewrite He, components_slashed by done.
  pose proof (InboxFacts.push_components_spec (Normal <$> names) [] (Forall_nil_2 _)) as H. cbn [slashed app] in H.
  destruct (Inbox.push_components "" (Normal <$> names)) as [safe|].
  - destruct H as (more & _ & Hf & ->).
    { intros s (t & [= ->] & Ht)%list_elem_of_fmap. rewrite Forall_forall in Hp. by apply Hp. }
    rewrite filter_names in Hf. apply list_fmap_eq_inj in Hf as <-; [|by intros ?? [= ->]]. cbn [mbind option_bind]. by rewrite He.
  - exfalso. destruct H as [H|H]; [intros s (t & [= ->] & Ht)%list_elem_of_fmap; rewrite Forall_forall in Hp; by apply Hp|..];
      by apply list_elem_of_fmap in H as (? & ? & _).
Qed.

(** A file lands where it lay: if the request for a file found at [names] below a
    root passes the sender's validation, the metadata of its blob makes every
    receiver put it at [names] below its inbox. *)
Theorem outbox_mirrored_in_inbox `{Os W} (w : W) cfg root_name root names size mtime sha b :
  names ≠ [] → Forall plain_name names → Forall no_backslash names →
  validate_request w (build_request root_name (fo_relative_path (found root names size mtime)) size sha) cfg = Ok b →
  ∃ v, vb_files b = [v] ∧ size_bytes v = size ∧ vec_to_list (sha256 v) = sha ∧
  ∀ inbox_root id blob_size,
    Inbox.target_path inbox_root (Inbox.mkDistributionDocument id blob_size (build_blob_metadata v)) =
    components inbox_root ++ (Normal <$> names).
Proof.
  intros Hne Hp Hb. cbn [found fo_relative_path]. rewrite forward_slashes_id by by apply slashed_no_backslash.
  unfold validate_request, build_request. cbn [req_files req_scope]. rewrite bool_decide_false by done.
  destruct (_ <? _); [done|]. destruct (total_bytes _ _) as [total|]; [|done]. destruct (_ <? total); [done|].
  cbn [validate_scope spec_scope validate_files]. destruct (validate_file _ _ _ _) as [v|e] eqn:Ev; [|done]. intros [= <-].
  exists v. split; [done|].
  assert (relative_path v = slashed names ∧ display_name v = None ∧ size_bytes v = size ∧ vec_to_list (sha256 v) = sha) as (Hrel & Hname & Hs & Hsha).
  { unfold validate_file in Ev. cbn [fs_sha256 fs_root_name fs_relative_path fs_size_bytes fs_content_type fs_display_name] in Ev.
    destruct (try_into_array 32 sha) as [arr|] eqn:Esha; [|done]. apply try_into_array_length in Esha.
    repeat (case_match; try done); simplify_eq; done. }
  split_and!; [done..|]. intros inbox_root id blob_size. apply InboxFacts.target_path_names; [|done..].
  unfold Inbox.inbox_rel. cbn [Inbox.dd_blob_metadata]. rewrite (inbox_relpath_slashed _ names); [done| |done..].
  unfold build_blob_metadata. cbn [bm_name]. by rewrite Hname, Hrel.
Qed.

(** ** Overlapping roots *)

(** The wait for a stable file counts visits, not polls: a file below two roots is
    visited twice in one poll and sent at its first. *)
Theorem overlapping_roots_skip_the_wait hash root sha size mtime :
  hash (path_join root "f") = Some sha →
  let tree := EDir true [("f"%string, EFile (Some (size, mtime)))] in
  (poll hash [("a"%string, root, tree); ("b"%string, root, tree)] outbox_new).2 = [build_request "b" "f" size sha].
Proof.
  intros Hh tree. set (f := found root ["f"%string] size mtime).
  assert (scan_roots [("a"%string, root, tree); ("b"%string, root, tree)] = [("a"%string, f); ("b"%string, f)]) as E by reflexivity.
  unfold poll. rewrite E. cbn [poll_files]. unfold poll_file. cbn [last_seen last_sent outbox_new]. rewrite !lookup_empty.
  unfold outbox_decision. rewrite !(bool_decide_false (None = Some _)) by done. cbn [last_seen last_sent].
  rewrite lookup_empty, lookup_insert_eq, (bool_decide_false (None = Some _)), bool_decide_true by done.
  change (fo_full_path f) with (path_join root "f"). by rewrite Hh.
Qed.

(** ** Witnesses *)

Definition toy_tree : Entry :=
  EDir true [("a.txt"%string, EFile (Some (5, Some 7))); (".hidden"%string, EFile (Some (1, None)));
             ("sub"%string, EDir true [("b.txt"%string, EFile (Some (2, None)))])].

Definition toy_sha32 : bytes := replicate 32 Byte.x00.

Definition toy_polls : list Poll := replicate 3 ((λ _, Some toy_sha32), [("out"%string, "/data/out"%string, toy_tree)]).


Lemma outbox_mirrored_in_inbox_witness :
  ∃ v, Inbox.target_path "/inbox" (Inbox.mkDistributionDocument "d" 5 (build_blob_metadata v)) = [RootDir; Normal "inbox"; Normal "a.txt"].
Proof.
  destruct (validate_request (H := toy_os) toy_disk (build_request "out" "a.txt" 5 toy_sha32) toy_config) as [b|e] eqn:E;
    [|exfalso; revert E; vm_compute; discriminate].
  destruct (outbox_mirrored_in_inbox (H := toy_os) toy_disk toy_config "out" "/data/out" ["a.txt"%string] 5 None toy_sha32 b)
    as (v & _ & _ & _ & Hv); [done|by repeat constructor|by repeat constructor|exact E|].
  exists v. apply (Hv "/inbox"%string).
Defined.

Lemma overlapping_roots_skip_the_wait_witness :
  (poll (λ _, Some toy_sha32) [("a"%string, "/r"%string, EDir true [("f"%string, EFile (Some (3, None)))]);
                               ("b"%string, "/r"%string, EDir true [("f"%string, EFile (Some (3, None)))])] outbox_new).2 =
  [build_request "b" "f" 3 toy_sha32].
Proof. apply (overlapping_roots_skip_the_wait (λ _, Some toy_sha32)). reflexivity. Defined.
