(* ===== verification/Peers.v ===== *)
(** * Peers: dialling, the reconnect watchdog, discovery, identity

    Model of the peer management of [src/node.rs] ([dial_and_attach],
    [connect_peer], [disconnect_peer], the auto-reconnect watchdog, the mDNS and
    Kubernetes watchers with their decisions) and of [src/identity.rs]. The iroh
    endpoint, DNS and the peat-mesh transport are not under src/: what they
    answer to one dial is the record [Dial], an endpoint id is an abstract type
    with its text form, and the transport is the set of live connections, the
    blob store the set of known peers. Times are in seconds. *)

From S2P Require Import Prelude Envelope Crypto.
From Stdlib Require Import Strings.Ascii.

Definition RECONNECT_BACKOFF_MIN : Z := 5.
Definition RECONNECT_BACKOFF_MAX : Z := 120.
Definition CONNECT_RETRY_ATTEMPTS : Z := 3.

Record PeerRegistration := mkRegistration {
  reg_addresses : list string;
  reg_relay_url : string;
  next_attempt : Z;
  backoff : Z;
}.

(** ** One dial *)

(** What the network answers during one dial: DNS per address, the relay URL's
    parser, and the transport at each attempt. Errors are their text. *)
Record Dial := mkDial {
  lookup_host : string → result string (list string);
  parse_relay : string → result string unit;
  connect_and_authenticate : Z → result string unit;
}.

Inductive DialError :=
| ResolveFailed (addr e : string)
| NoAddressesResolved (addr : string)
| InvalidRelayUrl (url e : string)
| ConnectFailed (attempts : Z) (e : string).

Definition digits (z : Z) : string := pretty.pretty z.

(** [DialError] as the text callers see. *)
Definition dial_error_text (e : DialError) : string :=
  match e with
  | ResolveFailed addr e => "resolve `" +:+ addr +:+ "`: " +:+ e
  | NoAddressesResolved addr => "no addresses resolved for `" +:+ addr +:+ "`"
  | InvalidRelayUrl url e => "invalid relay URL `" +:+ url +:+ "`: " +:+ e
  | ConnectFailed attempts e => "connect_and_authenticate failed after " +:+ digits attempts +:+ " attempts: " +:+ e
  end.

(** Every resolved socket of every non-empty address, in order. *)
Fixpoint resolve_addresses (d : Dial) (addrs : list string) : result DialError (list string) :=
  match addrs with
  | [] => Ok []
  | addr :: addrs =>
      if is_empty_str addr then resolve_addresses d addrs
      else
        match lookup_host d addr with
        | Err e => Err (ResolveFailed addr e)
        | Ok [] => Err (NoAddressesResolved addr)
        | Ok sockets => let? rest := resolve_addresses d addrs in Ok (sockets ++ rest)
        end
  end.

(** The retry loop; [fuel] counts the iterations left. *)
Fixpoint connect_loop (fuel : nat) (d : Dial) (attempt : Z) : option (result DialError unit) :=
  match fuel with
  | O => None
  | S fuel =>
      let attempt := attempt + 1 in
      match connect_and_authenticate d attempt with
      | Ok _ => Some (Ok tt)
      | Err e => if attempt <? CONNECT_RETRY_ATTEMPTS then connect_loop fuel d attempt else Some (Err (ConnectFailed attempt e))
      end
  end.

(** The part of [dial_and_attach] before the connection is attached. *)
Definition dial (d : Dial) (reg : PeerRegistration) : result DialError unit :=
  let? _ := resolve_addresses d (reg_addresses reg) in
  let? _ := if is_empty_str (reg_relay_url reg) then Ok tt
            else map_err (InvalidRelayUrl (reg_relay_url reg)) (parse_relay d (reg_relay_url reg)) in
  match connect_loop (Z.to_nat CONNECT_RETRY_ATTEMPTS) d 0 with
  | Some r => r
  | None => Err (ConnectFailed CONNECT_RETRY_ATTEMPTS "")
  end.

(** ** The node's peers *)

Section peers.
Context {Id : Type} `{Countable Id} (parse_id : string → option Id) (show_id : Id → string).

(** [ps_pending]: calls of [connect_peer] whose connection is attached and whose
    registration is outstanding. [ps_batch] and [ps_dialed]: the watchdog's
    remaining work of this tick, and the peer it just dialled with the outcome. *)
Record Peers := mkPeers {
  registered : gmap Id PeerRegistration;
  live : gset Id;
  known : gset Id;
  ps_pending : list (Id * PeerRegistration);
  ps_tick : Z;
  ps_batch : list (Id * PeerRegistration);
  ps_dialed : option (Id * result DialError unit);
}.

Definition peers_new : Peers := mkPeers ∅ ∅ ∅ [] 0 [] None.

Definition with_registered (r : gmap Id PeerRegistration) (p : Peers) : Peers :=
  mkPeers r (live p) (known p) (ps_pending p) (ps_tick p) (ps_batch p) (ps_dialed p).
Definition with_live (l : gset Id) (p : Peers) : Peers :=
  mkPeers (registered p) l (known p) (ps_pending p) (ps_tick p) (ps_batch p) (ps_dialed p).
Definition with_pending (l : list (Id * PeerRegistration)) (p : Peers) : Peers :=
  mkPeers (registered p) (live p) (known p) l (ps_tick p) (ps_batch p) (ps_dialed p).
Definition with_work (b : list (Id * PeerRegistration)) (o : option (Id * result DialError unit)) (p : Peers) : Peers :=
  mkPeers (registered p) (live p) (known p) (ps_pending p) (ps_tick p) b o.

(** [dial_and_attach] *)
Definition dial_and_attach (d : Dial) (id : Id) (reg : PeerRegistration) (p : Peers) : result DialError unit * Peers :=
  match dial d reg with
  | Ok _ =>
      (Ok tt, mkPeers (registered p) ({[id]} ∪ live p) ({[id]} ∪ known p) (ps_pending p) (ps_tick p) (ps_batch p) (ps_dialed p))
  | Err e => (Err e, p)
  end.

Inductive ConnectPeerError := InvalidEndpointId | NoHints | Undialable (e : DialError).

(** [connect_peer] up to the attached connection ... *)
Definition connect_peer_attach (now : Z) (endpoint_id : string) (addresses : list string) (relay_url : string) (d : Dial) (p : Peers)
  : result ConnectPeerError (Id * PeerRegistration) * Peers :=
  match parse_id endpoint_id with
  | None => (Err InvalidEndpointId, p)
  | Some id =>
      if negb (existsb (λ a, negb (is_empty_str a)) addresses) && is_empty_str relay_url then (Err NoHints, p)
      else
        let reg := mkRegistration addresses relay_url now RECONNECT_BACKOFF_MIN in
        match dial_and_attach d id reg p with
        | (Ok _, p) => (Ok (id, reg), p)
        | (Err e, p) => (Err (Undialable e), p)
        end
  end.

(** ... and its registration. *)
Definition connect_peer_register (id : Id) (reg : PeerRegistration) (p : Peers) : Peers :=
  with_registered (<[id := reg]> (registered p)) p.

Definition connect_peer (now : Z) (endpoint_id : string) (addresses : list string) (relay_url : string) (d : Dial) (p : Peers)
  : result ConnectPeerError unit * Peers :=
  match connect_peer_attach now endpoint_id addresses relay_url d p with
  | (Ok (id, reg), p) => (Ok tt, connect_peer_register id reg p)
  | (Err e, p) => (Err e, p)
  end.

Definition disconnect_peer (endpoint_id : string) (p : Peers) : result ConnectPeerError unit * Peers :=
  match parse_id endpoint_id with
  | None => (Err InvalidEndpointId, p)
  | Some id => (Ok tt, with_live (live p ∖ {[id]}) (with_registered (delete id (registered p)) p))
  end.

Definition list_peers (p : Peers) : list string := show_id <$> elements (live p).

(** ** The reconnect watchdog *)

Definition is_dead (p : Peers) (now : Z) (x : Id * PeerRegistration) : Prop := (x.1 ∉ live p) ∧ next_attempt x.2 ≤ now.

#[global] Instance is_dead_dec p now x : Decision (is_dead p now x).
Proof. unfold is_dead. apply _. Defined.

(** A tick: the registered peers that are not live and due, as they are now. *)
Definition watchdog_tick (now : Z) (p : Peers) : Peers :=
  mkPeers (registered p) (live p) (known p) (ps_pending p) now (filter (is_dead p now) (map_to_list (registered p))) None.

(** The dial of the next peer of the batch. *)
Definition watchdog_dial (d : Dial) (p : Peers) : option Peers :=
  match ps_batch p, ps_dialed p with
  | (id, reg) :: rest, None =>
      let '(r, p) := dial_and_attach d id reg p in Some (with_work rest (Some (id, r)) p)
  | _, _ => None
  end.

(** The registry update after a dial; [now] is the tick's. *)
Definition watchdog_update (p : Peers) : option Peers :=
  match ps_dialed p with
  | None => None
  | Some (id, r) =>
      let p := with_work (ps_batch p) None p in
      Some (match registered p !! id with
            | None => p
            | Some entry =>
                let entry :=
                  match r with
                  | Ok _ => mkRegistration (reg_addresses entry) (reg_relay_url entry) (ps_tick p) RECONNECT_BACKOFF_MIN
                  | Err _ =>
                      let b := Z.min (backoff entry * 2) RECONNECT_BACKOFF_MAX in
                      mkRegistration (reg_addresses entry) (reg_relay_url entry) (ps_tick p + b) b
                  end in
                with_registered (<[id := entry]> (registered p)) p
            end)
  end.

(** ** Interleavings *)

Inductive PeerStep :=
| SConnect (now : Z) (endpoint_id : string) (addresses : list string) (relay_url : string) (d : Dial)
| SRegister
| SDisconnect (endpoint_id : string)
| SLost (id : Id)
| SDiscovered (id : Id) (reg : PeerRegistration) (d : Dial)
| STick (now : Z)
| SDial (d : Dial)
| SUpdate.

Definition peer_step (st : PeerStep) (p : Peers) : option Peers :=
  match st with
  | SConnect now endpoint_id addresses relay_url d =>
      match connect_peer_attach now endpoint_id addresses relay_url d p with
      | (Ok (id, reg), p) => Some (with_pending (ps_pending p ++ [(id, reg)]) p)
      | (Err _, p) => Some p
      end
  | SRegister =>
      match ps_pending p with
      | [] => None
      | (id, reg) :: rest => Some (connect_peer_register id reg (with_pending rest p))
      end
  | SDisconnect endpoint_id => Some (disconnect_peer endpoint_id p).2
  | SLost id => Some (with_live (live p ∖ {[id]}) p)
  | SDiscovered id reg d => Some (dial_and_attach d id reg p).2
  | STick now => match ps_batch p, ps_dialed p with [], None => Some (watchdog_tick now p) | _, _ => None end
  | SDial d => watchdog_dial d p
  | SUpdate => watchdog_update p
  end.

Fixpoint peer_run (steps : list PeerStep) (p : Peers) : option Peers :=
  match steps with [] => Some p | st :: steps => p' ← peer_step st p; peer_run steps p' end.

(** ** Discovery *)

Record PeerInfo := mkPeerInfo { pi_node_id : string; pi_addresses : list string; pi_metadata : gmap string string }.

Inductive DiscoveryEvent := PeerFound (p : PeerInfo) | PeerUpdated (p : PeerInfo) | PeerLost (node_id : string).

(** [str::contains] of a pattern *)
Fixpoint contains_text (s pat : string) : bool :=
  starts_with s pat || match s with EmptyString => false | String _ s => contains_text s pat end.

(** [str::parse::<u16>]: an optional plus sign and decimal digits *)
Definition digit_value (c : ascii) : option Z :=
  let n := Z.of_N (N_of_ascii c) in if (48 <=? n) && (n <=? 57) then Some (n - 48) else None.

Fixpoint parse_digits (acc : Z) (s : string) : option Z :=
  match s with
  | EmptyString => Some acc
  | String c s => v ← digit_value c; let acc := 10 * acc + v in if acc <=? 65535 then parse_digits acc s else None
  end.

Definition parse_u16 (s : string) : option Z :=
  let body := match s with String "+"%char rest => rest | _ => s end in
  if is_empty_str body then None else parse_digits 0 body.

Definition mdns_peer_addresses (peer : PeerInfo) : list string :=
  match pi_addresses peer with
  | [] =>
      match pi_metadata peer !! "port"%string with
      | Some port_str => match parse_u16 port_str with Some port => ["127.0.0.1:" +:+ digits port] | None => [] end
      | None => []
      end
  | addresses => addresses
  end.

(** The messages that exclude a peer for good. *)
Definition is_auth_failure (msg : string) : bool :=
  contains_text msg "formation" || contains_text msg "mismatch" || contains_text msg "auth".

(** The loop over a peer's addresses: the transport's answers, the excluded peers
    and the peers, and how many dials were made. *)
Fixpoint mdns_dials (now : Z) (dials : string → Dial) (node_id : string) (addrs : list string) (auth_failed : gset string) (p : Peers)
  : gset string * Peers * nat :=
  match addrs with
  | [] => (auth_failed, p, 0%nat)
  | addr :: addrs =>
      match parse_id node_id with
      | None => mdns_dials now dials node_id addrs auth_failed p
      | Some id =>
          match dial_and_attach (dials addr) id (mkRegistration [addr] "" now RECONNECT_BACKOFF_MIN) p with
          | (Ok _, p) => (auth_failed, p, 1%nat)
          | (Err e, p) =>
              let auth_failed := if is_auth_failure (dial_error_text e) then {[node_id]} ∪ auth_failed else auth_failed in
              let '(auth_failed, p, n) := mdns_dials now dials node_id addrs auth_failed p in (auth_failed, p, S n)
          end
      end
  end.

(** One event of [mdns_watcher]. *)
Definition mdns_event (now : Z) (dials : string → Dial) (our_id formation_id : string) (event : DiscoveryEvent)
    (auth_failed : gset string) (p : Peers) : gset string * Peers * nat :=
  match event with
  | PeerLost _ => (auth_failed, p, 0%nat)
  | PeerFound peer | PeerUpdated peer =>
      if bool_decide (pi_node_id peer = our_id) || bool_decide (pi_node_id peer ∈ auth_failed) then (auth_failed, p, 0%nat)
      else if match pi_metadata peer !! "formation_id"%string with
              | Some fid => negb (bool_decide (fid = formation_id))
              | None => false
              end
      then (auth_failed, p, 0%nat)
      else if bool_decide (pi_node_id peer ∈ list_peers p) then (auth_failed, p, 0%nat)
      else mdns_dials now dials (pi_node_id peer) (mdns_peer_addresses peer) auth_failed p
  end.

Fixpoint mdns_watcher (our_id formation_id : string) (events : list (Z * (string → Dial) * DiscoveryEvent))
    (auth_failed : gset string) (p : Peers) : gset string * Peers * list nat :=
  match events with
  | [] => (auth_failed, p, [])
  | (now, dials, event) :: events =>
      let '(auth_failed, p, n) := mdns_event now dials our_id formation_id event auth_failed p in
      let '(auth_failed, p, ns) := mdns_watcher our_id formation_id events auth_failed p in
      (auth_failed, p, n :: ns)
  end.

(** ** Identity *)

Context `{CipherOps} (public_key : bytes → Id).

Inductive IdentityError := SharedKeyNotBase64 | SharedKeyRequired.

Definition derive_iroh_secret_seed (base64_shared_key node_id : string) : result IdentityError (option bytes) :=
  let trimmed := trim base64_shared_key in
  if is_empty_str trimmed then Ok None
  else
    match base64_decode trimmed with
    | None => Err SharedKeyNotBase64
    | Some secret => Ok (Some (derive_iroh_node_key secret node_id))
    end.

Definition derive_endpoint_id (base64_shared_key node_id : string) : result IdentityError string :=
  let? seed := derive_iroh_secret_seed base64_shared_key node_id in
  let? seed := ok_or seed SharedKeyRequired in
  Ok (show_id (public_key seed)).

Inductive K8sIdentity := Derived (seed : bytes) | MissingPodName | EmptySharedKey | InvalidSharedKey.

Definition resolve_k8s_identity (pod_name : option string) (shared_key : string) : K8sIdentity :=
  match pod_name with
  | Some pn =>
      if negb (is_empty_str pn) && negb (is_empty_str shared_key)
      then match base64_decode shared_key with Some b => Derived (derive_iroh_node_key b pn) | None => InvalidSharedKey end
      else if is_empty_str pn then MissingPodName
      else EmptySharedKey
  | None => MissingPodName
  end.

Inductive K8sDialDecision := SkipSelf | SkipNoAddresses | SkipAlreadyConnected | DialPeer (id : Id).

Definition k8s_dial_decision (peer : PeerInfo) (our_pod_name : option string) (shared_key_bytes : bytes) (connected : gset Id)
  : K8sDialDecision :=
  if bool_decide (our_pod_name = Some (pi_node_id peer)) then SkipSelf
  else if bool_decide (pi_addresses peer = []) then SkipNoAddresses
  else
    let peer_id := public_key (derive_iroh_node_key shared_key_bytes (pi_node_id peer)) in
    if bool_decide (peer_id ∈ connected) then SkipAlreadyConnected else DialPeer peer_id.

(** The dial loop of [k8s_discovery_watcher]: the first address that connects. *)
Fixpoint k8s_dials (now : Z) (dials : string → Dial) (id : Id) (addrs : list string) (p : Peers) : Peers * nat :=
  match addrs with
  | [] => (p, 0%nat)
  | addr :: addrs =>
      match dial_and_attach (dials addr) id (mkRegistration [addr] "" now RECONNECT_BACKOFF_MIN) p with
      | (Ok _, p) => (p, 1%nat)
      | (Err _, p) => let '(p, n) := k8s_dials now dials id addrs p in (p, S n)
      end
  end.

Definition k8s_event (now : Z) (dials : string → Dial) (shared_key_bytes : bytes) (our_pod_name : option string)
    (event : DiscoveryEvent) (p : Peers) : Peers * nat :=
  match event with
  | PeerLost _ => (p, 0%nat)
  | PeerFound peer | PeerUpdated peer =>
      match k8s_dial_decision peer our_pod_name shared_key_bytes (live p) with
      | SkipSelf | SkipAlreadyConnected | SkipNoAddresses => (p, 0%nat)
      | DialPeer id => k8s_dials now dials id (pi_addresses peer) p
      end
  end.

End peers.
