(* ===== verification/PeersFacts.v ===== *)
(** * Peers: connecting, reconnecting, staying away

    The exact conditions of a connect, the bounds of the watchdog's backoff and
    that it recovers every registered peer, what a disconnect guarantees and the
    races that undo it, the mDNS exclusion, and the identities derived from the
    shared key. *)

From S2P Require Import Prelude Envelope Crypto Peers.
From Stdlib Require Import Strings.Ascii.

(** ** Dialling *)

(** The transport was reached within the allowed attempts. *)
Definition reachable_by (d : Dial) (reg : PeerRegistration) : Prop :=
  (∀ a, a ∈ reg_addresses reg → a ≠ ""%string → ∃ s ss, lookup_host d a = Ok (s :: ss)) ∧
  (reg_relay_url reg ≠ ""%string → is_ok (parse_relay d (reg_relay_url reg)) = true) ∧
  ∃ k, 1 ≤ k ≤ CONNECT_RETRY_ATTEMPTS ∧ is_ok (connect_and_authenticate d k) = true.

Lemma is_empty_str_spec s : is_empty_str s = true ↔ s = ""%string.
Proof. by destruct s. Qed.

Lemma resolve_addresses_ok d addrs :
  is_ok (resolve_addresses d addrs) = true ↔ ∀ a, a ∈ addrs → a ≠ ""%string → ∃ s ss, lookup_host d a = Ok (s :: ss).
Proof.
  induction addrs as [|a addrs IH]; [split; [intros _ a []%elem_of_nil|done]|]. cbn [resolve_addresses].
  destruct (is_empty_str a) eqn:Ea; [apply is_empty_str_spec in Ea as ->|].
  { rewrite IH. split; intros Hall b Hb Hne; [apply elem_of_cons in Hb as [->|Hb]; [done|by apply Hall]|apply Hall; [by right|done]]. }
  assert (a ≠ ""%string) as Hne by (by intros ->).
  destruct (lookup_host d a) as [[|s ss]|e] eqn:Ed.
  - split; [done|]. intros Hall. destruct (Hall a) as (? & ? & ?); [left|done|congruence].
  - destruct (resolve_addresses d addrs) as [rest|e]; cbn in *; split; try done.
    + intros _ b [->|Hb]%elem_of_cons Hb'; [eauto|]. by apply IH.
    + intros Hall. apply IH. intros b Hb. apply Hall. by right.
  - split; [done|]. intros Hall. destruct (Hall a) as (? & ? & ?); [left|done|congruence].
Qed.

Lemma connect_loop_spec d :
  ∃ r, connect_loop (Z.to_nat CONNECT_RETRY_ATTEMPTS) d 0 = Some r ∧
    (r = Ok tt ↔ ∃ k, 1 ≤ k ≤ CONNECT_RETRY_ATTEMPTS ∧ is_ok (connect_and_authenticate d k) = true) ∧
    ∀ e, r = Err e → ∃ t, e = ConnectFailed CONNECT_RETRY_ATTEMPTS t.
Proof.
  unfold CONNECT_RETRY_ATTEMPTS. change (Z.to_nat 3) with 3%nat. cbn [connect_loop].
  change (0 + 1 + 1 + 1) with 3. change (0 + 1 + 1) with 2. change (0 + 1) with 1. unfold CONNECT_RETRY_ATTEMPTS.
  change (1 <? 3) with true. change (2 <? 3) with true. change (3 <? 3) with false. cbn iota.
  destruct (connect_and_authenticate d 1) as [[]|e1] eqn:E1.
  { eexists; split; [done|]; split; [|done]. split; [intros _; exists 1; rewrite E1; split; [lia|done]|done]. }
  destruct (connect_and_authenticate d 2) as [[]|e2] eqn:E2.
  { eexists; split; [done|]; split; [|done]. split; [intros _; exists 2; rewrite E2; split; [lia|done]|done]. }
  destruct (connect_and_authenticate d 3) as [[]|e3] eqn:E3.
  { eexists; split; [done|]; split; [|done]. split; [intros _; exists 3; rewrite E3; split; [lia|done]|done]. }
  eexists; split; [done|]; split; [|naive_solver]. split; [done|]. intros (k & Hk & Hok).
  assert (k = 1 ∨ k = 2 ∨ k = 3) as [-> | [-> | ->]] by lia; rewrite ?E1, ?E2, ?E3 in Hok; done.
Qed.

Lemma dial_ok d reg : dial d reg = Ok tt ↔ reachable_by d reg.
Proof.
  unfold dial, reachable_by. rewrite <-resolve_addresses_ok.
  destruct (resolve_addresses d _) as [socks|e]; cbn; [|split; [done|by intros [? _]]].
  destruct (connect_loop_spec d) as (r & -> & Hr & _).
  destruct (is_empty_str (reg_relay_url reg)) eqn:Er.
  - apply is_empty_str_spec in Er. rewrite Er. cbn. rewrite Hr. naive_solver.
  - assert (reg_relay_url reg ≠ ""%string) as Hne by (intros E; by rewrite E in Er).
    destruct (parse_relay d _) as [[]|e]; cbn; [rewrite Hr; naive_solver|]. split; [done|]. intros (_ & Hrel & _). by specialize (Hrel Hne).
Qed.

Section facts.
Context {Id : Type} `{Countable Id} (parse_id : string → option Id).
Implicit Types (p : Peers (Id := Id)) (id : Id).

#[local] Abbreviation step := (peer_step parse_id).
#[local] Abbreviation run := (peer_run parse_id).

(** ** Connecting *)

(** A connect succeeds exactly on a valid id with a hint, addresses and relay that
    resolve, and a transport reached within three attempts; it then makes the
    peer live, known and registered with a fresh backoff, and nothing else.
    A connect that fails leaves every set as it was. *)
Theorem connect_peer_exact now endpoint_id addresses relay_url d p :
  let reg := mkRegistration addresses relay_url now RECONNECT_BACKOFF_MIN in
  match connect_peer parse_id now endpoint_id addresses relay_url d p with
  | (Ok _, p') => ∃ id, parse_id endpoint_id = Some id ∧ ((∃ a, a ∈ addresses ∧ a ≠ ""%string) ∨ relay_url ≠ ""%string) ∧
      reachable_by d reg ∧
      p' = mkPeers (<[id := reg]> (registered p)) ({[id]} ∪ live p) ({[id]} ∪ known p) (ps_pending p) (ps_tick p) (ps_batch p) (ps_dialed p)
  | (Err e, p') => p' = p ∧
      (parse_id endpoint_id = None ∨ (relay_url = ""%string ∧ Forall (λ a, a = ""%string) addresses) ∨ ¬ reachable_by d reg)
  end.
Proof.
  intros reg. unfold connect_peer, connect_peer_attach. destruct (parse_id endpoint_id) as [id|]; [|split; [done|by left]].
  destruct (negb (existsb _ addresses) && is_empty_str relay_url) eqn:Hh.
  { to_prop. split; [done|]. right. left. rewrite <-is_empty_str_spec. split; [done|].
    apply Forall_forall. intros a Ha. apply is_empty_str_spec. destruct (is_empty_str a) eqn:E; [done|].
    assert (existsb (λ a, negb (is_empty_str a)) addresses = true) as Hx; [|congruence].
    apply existsb_exists. exists a. rewrite E. split; [by apply list_elem_of_In|done]. }
  fold reg. unfold dial_and_attach. destruct (dial d reg) as [[]|e] eqn:Ed.
  - exists id. split; [done|]. split; [|split; [by apply dial_ok|done]].
    apply andb_false_iff in Hh as [Hh|Hh]; [left|right; intros ->; done].
    apply negb_false_iff, existsb_exists in Hh as (a & Ha & Hne). exists a. split; [by apply list_elem_of_In|].
    intros ->. done.
  - split; [done|]. right. right. rewrite <-dial_ok, Ed. done.
Qed.

(** ** The watchdog's backoff *)

Definition step_time (st : PeerStep (Id := Id)) : Z := match st with SConnect now _ _ _ _ | STick now => now | _ => 0 end.

Definition paced (T : Z) (reg : PeerRegistration) : Prop :=
  (∃ k : nat, backoff reg = Z.min (RECONNECT_BACKOFF_MIN * 2 ^ Z.of_nat k) RECONNECT_BACKOFF_MAX) ∧ next_attempt reg ≤ T + backoff reg.

Definition paced_peers (T : Z) p : Prop :=
  map_Forall (λ _ reg, paced T reg) (registered p) ∧ Forall (λ x, paced T x.2) (ps_pending p) ∧ ps_tick p ≤ T.

Lemma paced_fresh T addresses relay now : now ≤ T → paced T (mkRegistration addresses relay now RECONNECT_BACKOFF_MIN).
Proof. intros Hn. split; [by exists O|]. cbn. unfold RECONNECT_BACKOFF_MIN. lia. Qed.

Lemma double_backoff k b :
  b = Z.min (RECONNECT_BACKOFF_MIN * 2 ^ Z.of_nat k) RECONNECT_BACKOFF_MAX →
  Z.min (b * 2) RECONNECT_BACKOFF_MAX = Z.min (RECONNECT_BACKOFF_MIN * 2 ^ Z.of_nat (S k)) RECONNECT_BACKOFF_MAX.
Proof. intros ->. rewrite Nat2Z.inj_succ, Z.pow_succ_r by lia. unfold RECONNECT_BACKOFF_MIN, RECONNECT_BACKOFF_MAX. lia. Qed.

Lemma dial_and_attach_frame d id reg p :
  let p' := (dial_and_attach d id reg p).2 in
  registered p' = registered p ∧ ps_pending p' = ps_pending p ∧ ps_tick p' = ps_tick p ∧ ps_batch p' = ps_batch p ∧ ps_dialed p' = ps_dialed p.
Proof. unfold dial_and_attach. by destruct (dial d reg). Qed.

Lemma peer_step_paced T st p p' :
  step_time st ≤ T → paced_peers T p → step st p = Some p' → paced_peers T p'.
Proof.
  intros Hst (Hr & Hp & Ht) Hs. destruct st as [now eid addrs relay d| |eid|id|id reg d|now|d|]; cbn in Hs, Hst.
  - unfold connect_peer_attach in Hs. destruct (parse_id eid) as [id|]; [|by simplify_eq].
    destruct (_ && _); [by simplify_eq|].
    set (reg := mkRegistration addrs relay now RECONNECT_BACKOFF_MIN) in *.
    destruct (dial_and_attach_frame d id reg p) as (E1 & E2 & E3 & _).
    destruct (dial_and_attach d id reg p) as [[]  p1]; cbn [snd] in *; simplify_eq; unfold paced_peers; cbn; rewrite E1, E2, E3; [|done].
    split_and!; [done| |done]. apply Forall_app_2; [done|]. constructor; [by apply paced_fresh|done].
  - destruct (ps_pending p) as [|[id reg] rest] eqn:E; [done|]. simplify_eq. apply Forall_cons in Hp as [Hreg Hp].
    split_and!; [|done|done]. cbn. by apply map_Forall_insert_2.
  - unfold disconnect_peer in Hs. destruct (parse_id eid); simplify_eq; [|done]. split_and!; [|done|done]. cbn. by apply map_Forall_delete.
  - by simplify_eq.
  - simplify_eq. destruct (dial_and_attach_frame d id reg p) as (E1 & E2 & E3 & _). unfold paced_peers. by rewrite E1, E2, E3.
  - destruct (ps_batch p); [|done]. destruct (ps_dialed p); [done|]. by simplify_eq.
  - unfold watchdog_dial in Hs. destruct (ps_batch p) as [|[id reg] rest]; [done|]. destruct (ps_dialed p); [done|].
    destruct (dial_and_attach_frame d id reg p) as (E1 & E2 & E3 & _).
    destruct (dial_and_attach d id reg p) as [r p1]. cbn [snd] in *. simplify_eq. unfold paced_peers. cbn. by rewrite E1, E2, E3.
  - unfold watchdog_update in Hs. destruct (ps_dialed p) as [[id r]|]; [|done]. cbn [registered with_work] in Hs.
    destruct (registered p !! id) as [entry|] eqn:E; [|by simplify_eq]. simplify_eq. split_and!; [|done|done]. cbn.
    apply map_Forall_insert_2; [|done]. destruct (Hr id entry E) as [[k Hk] _]. destruct r as [?|?].
    + by apply paced_fresh.
    + split; cbn; [exists (S k); by apply double_backoff|lia].
Qed.

Lemma reachable_paced T steps p :
  Forall (λ st, step_time st ≤ T) steps → 0 ≤ T → run steps peers_new = Some p → paced_peers T p.
Proof.
  intros Hsteps HT. assert (paced_peers T (peers_new (Id := Id))) as Hnew by (split_and!; [apply map_Forall_empty|constructor|done]).
  revert Hnew. generalize (peers_new (Id := Id)). induction Hsteps as [|st steps Hst _ IH]; intros q Hq Hrun; cbn in Hrun; [by simplify_eq|].
  destruct (step st q) as [q1|] eqn:Hs; [|done]. apply (IH q1); [by eapply peer_step_paced|done].
Qed.

Lemma paced_bounds T reg : paced T reg → RECONNECT_BACKOFF_MIN ≤ backoff reg ≤ RECONNECT_BACKOFF_MAX.
Proof.
  intros [[k Hk] _]. assert (1 ≤ 2 ^ Z.of_nat k) by (apply (Z.pow_le_mono_r 2 0); lia).
  unfold RECONNECT_BACKOFF_MIN, RECONNECT_BACKOFF_MAX in *. lia.
Qed.

(** The backoff stays within its bounds: along every interleaving, a registered
    peer waits five seconds doubled a number of times and capped at two minutes,
    and its next attempt is never further away than that from the last event. *)
Theorem watchdog_backoff_bounds T steps p id reg :
  Forall (λ st, step_time st ≤ T) steps → 0 ≤ T → run steps peers_new = Some p → registered p !! id = Some reg →
  RECONNECT_BACKOFF_MIN ≤ backoff reg ≤ RECONNECT_BACKOFF_MAX ∧
  (∃ k : nat, backoff reg = Z.min (RECONNECT_BACKOFF_MIN * 2 ^ Z.of_nat k) RECONNECT_BACKOFF_MAX) ∧
  next_attempt reg ≤ T + RECONNECT_BACKOFF_MAX.
Proof.
  intros Hsteps HT Hrun Hid. destruct (reachable_paced T steps p Hsteps HT Hrun) as [Hr _].
  pose proof (paced_bounds T reg (Hr _ _ Hid)) as Hb. destruct (Hr _ _ Hid) as [Hk Hn]. split_and!; [lia|lia|done|lia].
Qed.

(** ** Recovery *)

Definition watchdog_only (st : PeerStep (Id := Id)) : Prop := match st with STick _ | SDial _ | SUpdate => True | _ => False end.

(** Working through a batch with one network: every peer it can reach is live at
    the end, registered with a fresh backoff if it was registered. *)
Lemma batch_recovers d p :
  ps_dialed p = None → NoDup (ps_batch p).*1 →
  ∃ steps p', Forall watchdog_only steps ∧ run steps p = Some p' ∧ ps_batch p' = [] ∧ ps_dialed p' = None ∧
    live p ⊆ live p' ∧ dom (registered p') = dom (registered p) ∧
    (∀ id, id ∉ (ps_batch p).*1 → registered p' !! id = registered p !! id) ∧
    ∀ id reg, (id, reg) ∈ ps_batch p → dial d reg = Ok tt → id ∈ live p' ∧
      ∀ reg', registered p' !! id = Some reg' → backoff reg' = RECONNECT_BACKOFF_MIN.
Proof.
  remember (ps_batch p) as batch eqn:Eb. revert p Eb. induction batch as [|[id reg] batch IH]; intros p Eb Hd Hnd.
  { exists [], p. split_and!; try done. intros ? ? []%elem_of_nil. }
  apply NoDup_cons in Hnd as [Hid Hnd].
  destruct (peer_step parse_id (SDial d) p) as [p1|] eqn:E1; cbn [peer_step] in E1; unfold watchdog_dial in E1; rewrite <-Eb, Hd in E1;
    [|by destruct (dial_and_attach d id reg p)].
  assert (p1 = mkPeers (registered p) (if is_ok (dial d reg) then {[id]} ∪ live p else live p)
    (if is_ok (dial d reg) then {[id]} ∪ known p else known p) (ps_pending p) (ps_tick p) batch (Some (id, dial d reg))) as ->.
  { unfold dial_and_attach in E1. destruct (dial d reg) as [[]|e]; by simplify_eq. }
  set (p1 := mkPeers _ _ _ _ _ _ _) in *.
  assert (∃ p2, watchdog_update p1 = Some p2 ∧ live p2 = live p1 ∧ ps_batch p2 = batch ∧ ps_dialed p2 = None ∧
    dom (registered p2) = dom (registered p) ∧ (∀ id', id' ≠ id → registered p2 !! id' = registered p !! id') ∧
    (dial d reg = Ok tt → ∀ reg', registered p2 !! id = Some reg' → backoff reg' = RECONNECT_BACKOFF_MIN))
    as (p2 & E2 & Hl2 & Hb2 & Hd2 & Hdom2 & Hother2 & Hreset2).
  { unfold watchdog_update, p1. cbn [ps_dialed ps_batch registered with_work]. destruct (registered p !! id) as [entry|] eqn:Ee.
    - eexists. split; [done|]. cbn. split_and!; try done.
      + rewrite dom_insert_L. apply subseteq_union_1_L, singleton_subseteq_l. by apply elem_of_dom_2 in Ee.
      + intros id' Hne. by rewrite lookup_insert_ne.
      + intros -> reg'. rewrite lookup_insert_eq. by intros [= <-].
    - eexists. split; [done|]. cbn. split_and!; try done. intros _ reg'. by rewrite Ee. }
  destruct (IH p2 (eq_sym Hb2) Hd2 Hnd) as (steps & p' & Hw & Hrun & Hb' & Hd' & Hlive & Hdom & Hout & Hin).
  exists (SDial d :: SUpdate :: steps), p'. split_and!; try done.
  - by repeat constructor.
  - cbn [peer_run peer_step]. unfold watchdog_dial. rewrite <-Eb, Hd, E1. cbn [mbind option_bind]. by rewrite E2.
  - rewrite <-Hlive, Hl2. subst p1. cbn. destruct (is_ok _); set_solver.
  - by rewrite Hdom.
  - intros id' [Hne Hnin]%not_elem_of_cons. rewrite Hout by done. by apply Hother2.
  - intros id' reg' [[= -> ->]|Hin']%elem_of_cons Hok; [|by apply (Hin id' reg')].
    split; [apply Hlive; rewrite Hl2; subst p1; cbn; rewrite Hok; set_solver|]. rewrite Hout by done. by apply Hreset2.
Qed.


(** ** Disconnecting *)

(** No connection and nothing under way that could make one. *)
Definition away (id : Id) p : Prop :=
  (id ∉ live p) ∧ registered p !! id = None ∧ (id ∉ (ps_pending p).*1) ∧ (id ∉ (ps_batch p).*1) ∧
  match ps_dialed p with Some (x, _) => x ≠ id | None => True end.

(** A step that is a new wish to talk to the peer. *)
Definition seeks (id : Id) (st : PeerStep) : Prop :=
  match st with
  | SConnect _ eid _ _ _ => parse_id eid = Some id
  | SDiscovered x _ _ => x = id
  | _ => False
  end.

Lemma dial_and_attach_live d id reg p : live (dial_and_attach d id reg p).2 ⊆ {[id]} ∪ live p.
Proof. unfold dial_and_attach. destruct (dial d reg); set_solver. Qed.

Lemma peer_step_away id st p p' : ¬ seeks id st → away id p → step st p = Some p' → away id p'.
Proof.
  intros Hns (Hl & Hr & Hp & Hb & Hd) Hs. destruct st as [now eid addrs relay d| |eid|x|x reg d|now|d|]; cbn in Hs, Hns.
  - unfold connect_peer_attach in Hs. destruct (parse_id eid) as [x|]; [|by simplify_eq]. destruct (_ && _); [by simplify_eq|].
    set (reg := mkRegistration _ _ _ _) in *. destruct (dial_and_attach_frame d x reg p) as (E1 & E2 & _ & E4 & E5).
    pose proof (dial_and_attach_live d x reg p) as Hlv.
    destruct (dial_and_attach d x reg p) as [[] p1]; cbn [snd] in *; simplify_eq; unfold away; cbn; rewrite E1, E2, E4, E5.
    all: split_and!; try done; [set_solver|rewrite ?fmap_app; set_solver..].
  - destruct (ps_pending p) as [|[x reg] rest]; [done|]. simplify_eq. unfold away. cbn in *.
    rewrite lookup_insert_ne by set_solver. split_and!; try done; set_solver.
  - unfold disconnect_peer in Hs. destruct (parse_id eid) as [x|]; simplify_eq; [|done]. unfold away. cbn.
    split_and!; try done; [set_solver|by apply lookup_delete_None; right].
  - simplify_eq. unfold away. cbn. split_and!; try done. set_solver.
  - simplify_eq. destruct (dial_and_attach_frame d x reg p) as (E1 & E2 & _ & E4 & E5). pose proof (dial_and_attach_live d x reg p) as Hlv.
    unfold away. rewrite E1, E2, E4, E5. split_and!; try done. set_solver.
  - destruct (ps_batch p); [|done]. destruct (ps_dialed p); [done|]. simplify_eq. unfold away. cbn. split_and!; try done.
    intros ([x reg] & -> & Hx)%list_elem_of_fmap. apply list_elem_of_filter in Hx as [_ Hx%elem_of_map_to_list]. cbn in Hr. congruence.
  - unfold watchdog_dial in Hs. destruct (ps_batch p) as [|[x reg] rest] eqn:Eb; [done|]. destruct (ps_dialed p) eqn:Ed; [done|].
    destruct (dial_and_attach_frame d x reg p) as (E1 & E2 & _ & _ & _). pose proof (dial_and_attach_live d x reg p) as Hlv.
    destruct (dial_and_attach d x reg p) as [r p1]. cbn [snd] in *. simplify_eq. unfold away. cbn in *. rewrite E1, E2.
    split_and!; try done; [set_solver|set_solver|]. intros ->. apply Hb. left.
  - unfold watchdog_update in Hs. destruct (ps_dialed p) as [[x r]|]; [|done]. cbn [registered with_work] in Hs.
    destruct (registered p !! x) as [entry|] eqn:E; simplify_eq; unfold away; cbn; [|done]. rewrite lookup_insert_ne by done. done.
Qed.

(** A disconnect holds when nothing about the peer is under way: no step other than
    a new connect or a discovery of the peer makes it live or registered again. *)
Theorem disconnect_holds endpoint_id id p steps p' :
  parse_id endpoint_id = Some id → id ∉ (ps_pending p).*1 → id ∉ (ps_batch p).*1 →
  match ps_dialed p with Some (x, _) => x ≠ id | None => True end →
  Forall (λ st, ¬ seeks id st) steps → run (SDisconnect endpoint_id :: steps) p = Some p' →
  (id ∉ live p') ∧ registered p' !! id = None.
Proof.
  intros Hid Hp Hb Hd Hsteps Hrun. cbn in Hrun. unfold disconnect_peer in Hrun. rewrite Hid in Hrun. cbn in Hrun.
  assert (away id (with_live (live p ∖ {[id]}) (with_registered (delete id (registered p)) p))) as Haway.
  { unfold away. cbn. split_and!; try done; [set_solver|by rewrite lookup_delete_eq]. }
  revert Hrun Haway. generalize (with_live (live p ∖ {[id]}) (with_registered (delete id (registered p)) p)).
  clear Hp Hb Hd p. induction Hsteps as [|st steps Hst _ IH]; intros p Hrun Haway; cbn in Hrun.
  - simplify_eq. by destruct Haway as (? & ? & _).
  - destruct (step st p) as [p1|] eqn:Hs; [|done]. apply (IH p1); [done|]. by eapply peer_step_away.
Qed.

(** A disconnect during the watchdog's round does not hold: a peer that was taken
    into the round before the disconnect is dialled after it, and ends up live,
    unregistered, with the watchdog done. *)
Theorem disconnect_undone_by_watchdog endpoint_id id reg rest d p :
  parse_id endpoint_id = Some id → ps_batch p = (id, reg) :: rest → ps_dialed p = None → reachable_by d reg →
  ∃ p', run [SDisconnect endpoint_id; SDial d; SUpdate] p = Some p' ∧ id ∈ live p' ∧ registered p' !! id = None.
Proof.
  intros Hid Hb Hd Hreach%dial_ok. cbn. unfold disconnect_peer. rewrite Hid. cbn. unfold watchdog_dial. cbn. rewrite Hb, Hd.
  unfold dial_and_attach. rewrite Hreach. cbn. rewrite lookup_delete_eq. eexists. split; [done|]. cbn. split; [set_solver|].
  by rewrite lookup_delete_eq.
Qed.

End facts.

(** ** mDNS *)

Lemma strip_prefix_app_l p s t r : strip_prefix p s = Some r → strip_prefix p (s +:+ t) = Some (r +:+ t).
Proof.
  revert s. induction p as [|a p IH]; intros s; cbn; [by intros [= ->]|]. destruct s as [|b s]; [done|]. rewrite string_app_cons.
  destruct (Ascii.eqb a b); [apply IH|done].
Qed.

Lemma starts_with_app_l s t pat : starts_with s pat = true → starts_with (s +:+ t) pat = true.
Proof.
  unfold starts_with. rewrite !bool_decide_eq_true. intros [r Hr]. exists (r +:+ t). by apply strip_prefix_app_l.
Qed.

Lemma contains_text_app_l s t pat : contains_text s pat = true → contains_text (s +:+ t) pat = true.
Proof.
  induction s as [|a s IH]; cbn [contains_text].
  - rewrite orb_false_r, string_app_nil. intros Hs. apply (starts_with_app_l "" t) in Hs. rewrite string_app_nil in Hs.
    destruct t; cbn [contains_text]; by rewrite Hs.
  - rewrite string_app_cons. cbn [contains_text]. intros [Hs|Hs]%orb_true_iff; apply orb_true_iff; [left|right; by apply IH].
    rewrite <-string_app_cons. by apply starts_with_app_l.
Qed.

(** The text of a failed connection always mentions authentication. *)
Lemma connect_failure_is_auth n e : is_auth_failure (dial_error_text (ConnectFailed n e)) = true.
Proof.
  unfold is_auth_failure. apply orb_true_iff. right. cbn [dial_error_text]. apply contains_text_app_l. by vm_compute.
Qed.

Section mdns.
Context {Id : Type} `{Countable Id} (parse_id : string → option Id) (show_id : Id → string) (our_id formation_id : string).
Implicit Types (p : Peers (Id := Id)) (failed : gset string).

Lemma mdns_dials_failed now dials node_id addrs failed p :
  node_id ∈ failed → node_id ∈ (mdns_dials parse_id now dials node_id addrs failed p).1.1.
Proof.
  revert failed p. induction addrs as [|a addrs IH]; intros failed p Hf; cbn [mdns_dials]; [done|].
  destruct (parse_id node_id) as [id|]; [|by apply IH]. destruct (dial_and_attach _ _ _ _) as [[]  p1]; [done|].
  match goal with |- context [mdns_dials _ _ _ _ _ ?f _] => specialize (IH f p1) end.
  destruct (mdns_dials _ _ _ _ _ _ _) as [[f2 p2] n]. apply IH. destruct (is_auth_failure _); set_solver.
Qed.

Lemma mdns_event_excluded now dials peer event failed p :
  pi_node_id peer ∈ failed → event = PeerFound peer ∨ event = PeerUpdated peer →
  mdns_event parse_id show_id now dials our_id formation_id event failed p = (failed, p, 0%nat).
Proof. intros Hf [-> | ->]; cbn; by rewrite (bool_decide_true (_ ∈ failed)), orb_true_r. Qed.

(** One failed connection excludes a peer from mDNS for the life of the process:
    if a dial of the peer ended with the transport refusing, for whatever reason,
    every later announcement of it is skipped without a dial, although only
    authentication failures are meant to exclude. *)
Theorem mdns_failure_excludes_peer now dials node_id id addr addrs failed p n e :
  parse_id node_id = Some id → dial (dials addr) (mkRegistration [addr] "" now RECONNECT_BACKOFF_MIN) = Err (ConnectFailed n e) →
  let '(failed', p', _) := mdns_dials parse_id now dials node_id (addr :: addrs) failed p in
  ∀ events : list (Z * (string → Dial) * DiscoveryEvent),
    Forall (λ ev, ∃ peer, pi_node_id peer = node_id ∧ (ev.2 = PeerFound peer ∨ ev.2 = PeerUpdated peer)) events →
    mdns_watcher parse_id show_id our_id formation_id events failed' p' = (failed', p', replicate (length events) 0%nat).
Proof.
  intros Hid Hd. cbn [mdns_dials]. rewrite Hid. unfold dial_and_attach at 1. rewrite Hd, connect_failure_is_auth.
  pose proof (mdns_dials_failed now dials node_id addrs ({[node_id]} ∪ failed) p ltac:(set_solver)) as Hin.
  destruct (mdns_dials _ _ _ _ _ _ _) as [[failed' p'] k]. cbn [fst] in Hin. intros events Hev.
  induction Hev as [|[[t ds] ev] events (peer & Hpeer & Hcase) _ IH]; [done|]. cbn [mdns_watcher].
  rewrite (mdns_event_excluded _ _ peer) by (by rewrite ?Hpeer). by rewrite IH.
Qed.

End mdns.

(** ** Identity *)

Section identity.
Context {Id : Type} `{Countable Id} (show_id : Id → string) `{CipherOps} (public_key : bytes → Id).

(** One identity everywhere: for a shared key without surrounding blanks, the
    seed a pod starts with, the id an operator derives offline for its name and
    the id other pods dial when they discover it all agree; and whoever discovers
    it dials that id unless it is itself, unannounced or already connected. *)
Theorem derived_ids_agree shared_key pod peer our_pod secret connected :
  trim shared_key = shared_key → shared_key ≠ ""%string → pod ≠ ""%string → base64_decode shared_key = Some secret → pi_node_id peer = pod →
  ∃ seed, derive_iroh_secret_seed shared_key pod = Ok (Some seed) ∧ resolve_k8s_identity (Some pod) shared_key = Derived seed ∧
    derive_endpoint_id show_id public_key shared_key pod = Ok (show_id (public_key seed)) ∧
    k8s_dial_decision public_key peer our_pod secret connected =
      (if bool_decide (our_pod = Some pod) then SkipSelf
       else if bool_decide (pi_addresses peer = []) then SkipNoAddresses
       else if bool_decide (public_key seed ∈ connected) then SkipAlreadyConnected
       else DialPeer (public_key seed)).
Proof.
  intros Ht Hk Hp Hdec Hpeer. exists (derive_iroh_node_key secret pod).
  assert (is_empty_str shared_key = false) as Ek by by destruct shared_key. assert (is_empty_str pod = false) as Ep by by destruct pod.
  unfold derive_endpoint_id, derive_iroh_secret_seed, resolve_k8s_identity, k8s_dial_decision.
  rewrite Ht, Ek, Ep, Hdec, Hpeer. cbn. done.
Qed.

(** Without a usable shared key there is no derived identity: blank keys fall back
    to a random identity, keys that are not base64 are refused. *)
Theorem underived_identity shared_key pod :
  match derive_iroh_secret_seed shared_key pod with
  | Ok None => trim shared_key = ""%string ∧ derive_endpoint_id show_id public_key shared_key pod = Err SharedKeyRequired
  | Ok (Some seed) => ∃ secret, base64_decode (trim shared_key) = Some secret ∧ seed = derive_iroh_node_key secret pod
  | Err e => base64_decode (trim shared_key) = None ∧ derive_endpoint_id show_id public_key shared_key pod = Err SharedKeyNotBase64
  end.
Proof.
  unfold derive_endpoint_id, derive_iroh_secret_seed. destruct (is_empty_str (trim shared_key)) eqn:E.
  - apply is_empty_str_spec in E. by rewrite E.
  - destruct (base64_decode (trim shared_key)) as [b|]; cbn; eauto.
Qed.

End identity.

(** ** Witnesses *)

Definition toy_parse (s : string) : option string := if is_empty_str s then None else Some s.
Definition toy_up : Dial := mkDial (λ a, Ok [a]) (λ _, Ok tt) (λ _, Ok tt).
Definition toy_down : Dial := mkDial (λ a, Ok [a]) (λ _, Ok tt) (λ _, Err "timed out"%string).

(** A connect at time 1, a loss, and a tick at time 10 whose dial fails. *)
Definition toy_outage : list (PeerStep (Id := string)) :=
  [SConnect 1 "b" ["host:1"%string] "" toy_up; SRegister; SLost "b"%string; STick 10; SDial toy_down; SUpdate].

Definition toy_peers (steps : list (PeerStep (Id := string))) : Peers (Id := string) :=
  default peers_new (peer_run toy_parse steps peers_new).

Lemma watchdog_backoff_bounds_witness :
  ∃ reg, registered (toy_peers toy_outage) !! "b"%string = Some reg ∧ backoff reg = 10 ∧ next_attempt reg ≤ 10 + RECONNECT_BACKOFF_MAX.
Proof.
  exists (mkRegistration ["host:1"%string] "" 20 10). split; [vm_compute; reflexivity|]. split; [reflexivity|].
  apply (watchdog_backoff_bounds toy_parse 10 toy_outage (toy_peers toy_outage) "b"%string); [|lia|vm_compute; reflexivity|vm_compute; reflexivity].
  repeat constructor; cbn; lia.
Defined.


Lemma disconnect_holds_witness :
  ∃ p', peer_run toy_parse [SDisconnect "b"; STick 20; SLost "c"%string] (toy_peers toy_outage) = Some p' ∧ registered p' !! "b"%string = None.
Proof.
  eexists. split; [vm_compute; reflexivity|].
  eapply (disconnect_holds toy_parse "b" "b"%string (toy_peers toy_outage) [STick 20; SLost "c"%string]); [vm_compute; reflexivity| | | | |vm_compute; reflexivity].
  - replace (ps_pending (toy_peers toy_outage)) with (@nil (string * PeerRegistration)) by (vm_compute; reflexivity). set_solver.
  - replace (ps_batch (toy_peers toy_outage)) with (@nil (string * PeerRegistration)) by (vm_compute; reflexivity). set_solver.
  - vm_compute. exact I.
  - repeat constructor; cbn; tauto.
Defined.

Lemma disconnect_undone_by_watchdog_witness :
  ∃ p', peer_run toy_parse [SDisconnect "b"; SDial toy_up; SUpdate] (toy_peers (take 4 toy_outage)) = Some p' ∧
    "b"%string ∈ live p' ∧ registered p' !! "b"%string = None.
Proof.
  apply (disconnect_undone_by_watchdog toy_parse "b" "b"%string (mkRegistration ["host:1"%string] "" 1 5) []);
    [vm_compute; reflexivity..|].
  split; [intros a _ _; by exists a, []|]. split; [done|]. exists 1. unfold CONNECT_RETRY_ATTEMPTS. split; [lia|done].
Defined.

Lemma mdns_failure_excludes_peer_witness :
  let '(failed', p', _) := mdns_dials toy_parse 0 (λ _, toy_down) "b" ["10.0.0.2:1"%string] ∅ peers_new in
  mdns_watcher toy_parse id "a" "f" [(5, (λ _, toy_up), PeerFound (mkPeerInfo "b" ["10.0.0.2:1"%string] ∅))] failed' p' = (failed', p', [0%nat]).
Proof.
  pose proof (mdns_failure_excludes_peer toy_parse id "a" "f" 0 (λ _, toy_down) "b" "b"%string "10.0.0.2:1" [] ∅ peers_new 3 "timed out"
    eq_refl ltac:(vm_compute; reflexivity)) as Hx.
  destruct (mdns_dials _ _ _ _ _ _ _) as [[failed' p'] k].
  apply (Hx [(5, (λ _, toy_up), PeerFound (mkPeerInfo "b" ["10.0.0.2:1"%string] ∅))]).
  constructor; [|constructor]. eexists. split; [|left; reflexivity]. reflexivity.
Defined.

Definition toy_ops : CipherOps :=
  {| base64_encode _ := ""%string; base64_decode s := Some (str_bytes s); aead_encrypt _ _ _ := None; aead_decrypt _ _ _ := None;
     hkdf_sha256 ikm info := ikm ++ info |}.

Lemma derived_ids_agree_witness :
  k8s_dial_decision (Id := bytes) id (mkPeerInfo "pod-b" ["10.0.0.2:1"%string] ∅) (Some "pod-a"%string) (str_bytes "key")
    (H0 := toy_ops) ∅ = DialPeer (str_bytes "keyiroh:pod-b").
Proof.
  destruct (derived_ids_agree (H0 := toy_ops) (λ _ : bytes, ""%string) id "key" "pod-b" (mkPeerInfo "pod-b" ["10.0.0.2:1"%string] ∅)
    (Some "pod-a"%string) (str_bytes "key") ∅) as (seed & Hs & _ & _ & Hk);
    [vm_compute; reflexivity|discriminate|discriminate|reflexivity|reflexivity|].
  rewrite Hk. assert (seed = str_bytes "keyiroh:pod-b") as -> by (vm_compute in Hs; injection Hs as <-; vm_compute; reflexivity).
  vm_compute. reflexivity.
Defined.
