(* ===== verification/Observer.v ===== *)
(** * Change listeners of the node

    Model of the three background listeners of [src/node.rs]: the forwarder of
    store changes to public subscribers ([forward_store_changes]), the forwarder
    of remote changes to the bridge ([forward_bridge_changes], whose decision is
    [NodeDocs.forward_remote]) and the feed of the relay fanout
    ([sync_on_change]), with the rejection counters and rate-limited warnings
    they share ([NodeChangeDiagnostics]). A broadcast receiver yields a
    notification, or that it lagged; the node's state at each notification is
    what the listener then reads. *)

From S2P Require Import Prelude Journal LedgerWorker Fanout RateLimit Envelope NatsConfig Egress Preflight Crypto NodeDocs.
From Stdlib Require Import Strings.Ascii.

(** ** Diagnostics *)

Definition NODE_CHANGE_WARNING_INTERVAL : Z := 60 * 1000000000.

Inductive NodeChangePath := PublicObserver | BridgeRemote.

#[global] Instance NodeChangePath_eq_dec : EqDecision NodeChangePath.
Proof. solve_decision. Defined.
#[global] Instance NodeChangeRejectKind_eq_dec : EqDecision NodeChangeRejectKind.
Proof. solve_decision. Defined.

Definition NODE_CHANGE_REJECT_KINDS : nat := 8.

Definition reject_index (k : NodeChangeRejectKind) : nat :=
  match k with
  | InvalidKey => 0
  | IdentityTooLarge => 1
  | NcStoreRead => 2
  | EncodedTooLarge => 3
  | StructuralLimit => 4
  | Decrypt => 5
  | NcConversion => 6
  | EventTooLarge => 7
  end.

Definition diagnostics_index (path : NodeChangePath) (kind : NodeChangeRejectKind) : nat :=
  (match path with PublicObserver => 0 | BridgeRemote => NODE_CHANGE_REJECT_KINDS end + reject_index kind)%nat.

(** The two arrays of sixteen, and the lines emitted. *)
Record NodeChangeDiagnostics := mkNodeDiagnostics {
  nc_counters : list Z;
  nc_warnings : list DiagnosticBucket;
  nc_emitted : list (NodeChangePath * NodeChangeRejectKind * Z);
}.

Definition node_diagnostics_new : NodeChangeDiagnostics :=
  mkNodeDiagnostics (replicate (2 * NODE_CHANGE_REJECT_KINDS) 0) (replicate (2 * NODE_CHANGE_REJECT_KINDS) bucket_default) [].

(** [record_at]; [None] would be an index out of bounds. *)
Definition node_record_at (path : NodeChangePath) (kind : NodeChangeRejectKind) (now : Z) (d : NodeChangeDiagnostics)
  : option NodeChangeDiagnostics :=
  let index := diagnostics_index path kind in
  c ← nc_counters d !! index;
  b ← nc_warnings d !! index;
  let counters := <[index := wrapping_add_u64 c 1]> (nc_counters d) in
  let '(line, b) := bucket_record NODE_CHANGE_WARNING_INTERVAL now b in
  Some (mkNodeDiagnostics counters (<[index := b]> (nc_warnings d))
          (match line with Some n => nc_emitted d ++ [(path, kind, n)] | None => nc_emitted d end)).

(** ** The public observer *)

Inductive ChangeType := ChangeUpsert | ChangeDelete.

Record ChangeEvent := mkChange {
  ev_collection : string;
  ev_doc_id : string;
  ev_change_type : ChangeType;
  ev_json_data : option string;
}.

(** A receiver's answer, and the clock when it is handled. *)
Inductive Recv (A : Type) := Received (now : Z) (a : A) | Lagged (n : Z).
Arguments Received {A}. Arguments Lagged {A}.

Section observer.
Context {sha : Sha256} `{CipherOps} `{D : Docs} {St : Type} `{!DocStore St} {E : Type} `{ExclusionOps E}.
Implicit Types n : Node St E.

(** One key of the store in [forward_store_changes]. *)
Definition observe_change (key : string) n : result NodeChangeRejectKind ChangeEvent :=
  match split_once ":"%char key with
  | None => Err InvalidKey
  | Some (collection, doc_id) =>
      if (MAX_BRIDGE_IDENTITY_BYTES <? str_len collection) || (MAX_BRIDGE_IDENTITY_BYTES <? str_len doc_id)
      then Err IdentityTooLarge
      else
        let? raw :=
          match store_get key (nd_store n) with
          | Some (Some doc) =>
              let j := automerge_to_json doc in
              match encrypted_value j with
              | Some s => Ok (Some s)
              | None => map_ok Some (ok_or (json_text j) NcConversion)
              end
          | Some None => Ok None
          | None => Err NcStoreRead
          end in
        let? json_data :=
          match raw with
          | Some v =>
              if is_encrypted v then
                match nd_cipher n with
                | Some c => map_ok Some (map_err (λ _, Decrypt) (decrypt c v))
                | None => Ok (Some v)
                end
              else Ok (Some v)
          | None => Ok None
          end in
        Ok (mkChange collection doc_id ChangeUpsert json_data)
  end.

(** A listener's loop over what its receiver yields: the events sent and the
    diagnostics. *)
Fixpoint listen {A B} (path : NodeChangePath) (handle : A → result NodeChangeRejectKind (option B)) (l : list (Recv A))
    (sent : list B) (d : NodeChangeDiagnostics) : option (list B * NodeChangeDiagnostics) :=
  match l with
  | [] => Some (sent, d)
  | Lagged _ :: l => listen path handle l sent d
  | Received now a :: l =>
      match handle a with
      | Ok (Some e) => listen path handle l (sent ++ [e]) d
      | Ok None => listen path handle l sent d
      | Err kind => d ← node_record_at path kind now d; listen path handle l sent d
      end
  end.

(** A notification comes with the state its handler reads. *)
Definition forward_store_changes (l : list (Recv (string * Node St E))) (d : NodeChangeDiagnostics)
  : option (list ChangeEvent * NodeChangeDiagnostics) :=
  listen PublicObserver (λ '(key, n), map_ok Some (observe_change key n)) l [] d.

Inductive ChangeOrigin := OriginLocal | OriginRemote (peer : string).

Definition forward_bridge_changes (l : list (Recv (string * ChangeOrigin * Node St E))) (d : NodeChangeDiagnostics)
  : option (list BridgeChangeEvent * NodeChangeDiagnostics) :=
  listen BridgeRemote
    (λ '(key, origin, n), match origin with OriginRemote peer => forward_remote key peer n | OriginLocal => Ok None end) l [] d.

(** ** The fanout feed *)

Context {qos : Qos}.

Definition origin_kind (o : ChangeOrigin) : FanoutKind :=
  match o with OriginLocal => AllPeers | OriginRemote source => ExcludeSource source end.

(** [closed]: the broadcast ended after these notifications. *)
Fixpoint sync_on_change (l : list (Recv (string * ChangeOrigin))) (closed : bool) (f : PriorityFanout) : PriorityFanout :=
  match l with
  | [] => if closed then close f else f
  | Lagged _ :: l => sync_on_change l closed f
  | Received _ (key, origin) :: l => sync_on_change l closed (Fanout.enqueue key (origin_kind origin) f)
  end.

End observer.

(** ** Diagnostics are lossless *)

Lemma diagnostics_index_inj p1 k1 p2 k2 :
  diagnostics_index p1 k1 = diagnostics_index p2 k2 → p1 = p2 ∧ k1 = k2.
Proof. destruct p1, p2, k1, k2; cbn; intros; done || lia. Qed.

Lemma diagnostics_index_bound path kind : (diagnostics_index path kind < 2 * NODE_CHANGE_REJECT_KINDS)%nat.
Proof. destruct path, kind; cbn; lia. Qed.

(** The arrays have their sixteen places. *)
Definition sized (d : NodeChangeDiagnostics) : Prop :=
  length (nc_counters d) = (2 * NODE_CHANGE_REJECT_KINDS)%nat ∧ length (nc_warnings d) = (2 * NODE_CHANGE_REJECT_KINDS)%nat.

(** The count of a kind, and what its lines and its bucket account for. *)
Definition nc_count (d : NodeChangeDiagnostics) (path : NodeChangePath) (kind : NodeChangeRejectKind) : Z :=
  nc_counters d !!! diagnostics_index path kind.

Definition lines_of (path : NodeChangePath) (kind : NodeChangeRejectKind) (lines : list (NodeChangePath * NodeChangeRejectKind * Z)) : Z :=
  foldr (λ x acc, if bool_decide (x.1 = (path, kind)) then 1 + x.2 + acc else acc) 0 lines.

Definition nc_accounted (d : NodeChangeDiagnostics) (path : NodeChangePath) (kind : NodeChangeRejectKind) : Z :=
  lines_of path kind (nc_emitted d) +
  suppressed (default bucket_default (nc_warnings d !! diagnostics_index path kind)).

Lemma nc_lines_snoc path kind lines p k n :
  lines_of path kind (lines ++ [(p, k, n)]) = lines_of path kind lines + (if bool_decide ((p, k) = (path, kind)) then 1 + n else 0).
Proof.
  unfold lines_of. induction lines as [|x lines IH]; cbn [foldr app fst snd]; [repeat case_bool_decide; lia|].
  rewrite IH. repeat case_bool_decide; lia.
Qed.

(** One record counts one occurrence of its kind and of no other, and it is in the
    kind's lines or still suppressed. *)
Lemma node_record_at_spec path kind now d :
  sized d → ∃ d', node_record_at path kind now d = Some d' ∧ sized d' ∧
  ∀ p k, eqm (nc_count d' p k) (nc_count d p k + if bool_decide ((p, k) = (path, kind)) then 1 else 0) ∧
    (0 ≤ nc_accounted d p k < U64_MAX → 0 ≤ suppressed (default bucket_default (nc_warnings d !! diagnostics_index p k)) →
     0 ≤ lines_of p k (nc_emitted d) →
     nc_accounted d' p k = nc_accounted d p k + (if bool_decide ((p, k) = (path, kind)) then 1 else 0) ∧
     0 ≤ suppressed (default bucket_default (nc_warnings d' !! diagnostics_index p k)) ∧ 0 ≤ lines_of p k (nc_emitted d')).
Proof.
  intros [Hc Hw]. pose proof (diagnostics_index_bound path kind) as Hb. unfold node_record_at.
  destruct (lookup_lt_is_Some_2 (nc_counters d) (diagnostics_index path kind)) as [c Ec]; [lia|].
  destruct (lookup_lt_is_Some_2 (nc_warnings d) (diagnostics_index path kind)) as [b Eb]; [lia|].
  rewrite Ec, Eb. cbn [mbind option_bind]. destruct (bucket_record _ now b) as [line b'] eqn:Er.
  eexists. split; [done|]. split; [split; cbn; by rewrite length_insert|]. intros p k.
  destruct (decide ((p, k) = (path, kind))) as [[= -> ->]|Hne].
  - rewrite bool_decide_true by done. unfold nc_count, nc_accounted. cbn [nc_counters nc_warnings nc_emitted].
    rewrite list_lookup_total_insert_eq by lia. rewrite (list_lookup_total_correct _ _ _ Ec).
    rewrite list_lookup_insert_eq, Eb by lia. cbn [from_option id]. split; [apply eqm_wrapping|]. intros Ha Hs Hl.
    unfold bucket_record in Er. destruct (match next_emit b with Some _ => _ | None => _ end); simplify_eq; cbn [suppressed].
    + unfold saturating_add_u64. lia.
    + rewrite nc_lines_snoc, bool_decide_true by done. lia.
  - rewrite bool_decide_false by done. unfold nc_count, nc_accounted. cbn [nc_counters nc_warnings nc_emitted].
    assert (diagnostics_index path kind ≠ diagnostics_index p k) as Hi by (intros [-> ->]%diagnostics_index_inj; done).
    rewrite list_lookup_total_insert_ne, list_lookup_insert_ne by done. split; [exists 0; lia|]. intros Ha Hs Hl.
    destruct line; [rewrite nc_lines_snoc, bool_decide_false by naive_solver|]; lia.
Qed.
