(* ===== verification/ObserverFacts.v ===== *)
(** * Change listeners: every notification is forwarded or accounted for

    The forwarders send exactly the events of the notifications they accept, in
    order, and count and report every rejection; what a public subscriber is told
    about a document is what a read of the document answers. *)

From S2P Require Import Prelude Journal LedgerWorker Fanout RateLimit Envelope NatsConfig Egress Preflight Crypto NodeDocs Observer.
From Stdlib Require Import Strings.Ascii.

Section listen.
Context {A B : Type} (path : NodeChangePath) (handle : A → result NodeChangeRejectKind (option B)).

(** What a notification leads to. *)
Definition event_of (r : Recv A) : option B :=
  match r with Received _ a => match handle a with Ok e => e | Err _ => None end | Lagged _ => None end.

Definition rejected (kind : NodeChangeRejectKind) (r : Recv A) : Prop :=
  match r with Received _ a => handle a = Err kind | Lagged _ => False end.

#[global] Instance rejected_dec kind r : Decision (rejected kind r).
Proof.
  destruct r as [now a|n]; cbn; [|apply _]. destruct (handle a) as [e|k]; [by right|].
  destruct (decide (k = kind)) as [->|?]; [by left|right; congruence].
Defined.

Definition rejections (kind : NodeChangeRejectKind) (l : list (Recv A)) : Z := Z.of_nat (length (filter (rejected kind) l)).

(** The books of a run. *)
Definition booked (l : list (Recv A)) (d0 d : NodeChangeDiagnostics) : Prop :=
  ∀ p k, let n := if bool_decide (p = path) then rejections k l else 0 in
    eqm (nc_count d p k) (nc_count d0 p k + n) ∧
    (0 ≤ nc_accounted d0 p k → 0 ≤ suppressed (default bucket_default (nc_warnings d0 !! diagnostics_index p k)) →
     0 ≤ lines_of p k (nc_emitted d0) → nc_accounted d0 p k + Z.of_nat (length l) ≤ U64_MAX →
     nc_accounted d p k = nc_accounted d0 p k + n).

Lemma rejections_cons kind r l : rejections kind (r :: l) = (if decide (rejected kind r) then 1 else 0) + rejections kind l.
Proof. unfold rejections. rewrite filter_cons. case_decide; cbn [length]; lia. Qed.

Lemma rejections_nonneg kind l : 0 ≤ rejections kind l.
Proof. unfold rejections. lia. Qed.

Lemma listen_exact l sent d :
  sized d → ∃ d', listen path handle l sent d = Some (sent ++ omap event_of l, d') ∧ sized d' ∧ booked l d d'.
Proof.
  revert sent d. induction l as [|r l IH]; intros sent d Hd.
  { exists d. cbn. rewrite app_nil_r. split_and!; [done..|]. intros p k n. subst n. unfold rejections. cbn. case_bool_decide; split; try (exists 0; lia); lia. }
  assert (∀ sent', event_of r = None → (∀ k, ¬ rejected k r) → listen path handle (r :: l) sent' d = listen path handle l sent' d →
    ∃ d', listen path handle (r :: l) sent' d = Some (sent' ++ omap event_of (r :: l), d') ∧ sized d' ∧ booked (r :: l) d d') as Hskip.
  { intros sent' He Hr E. destruct (IH sent' d Hd) as (d' & Hl & Hs & Hb). exists d'. cbn [omap list_omap]. rewrite He, E.
    split_and!; [done..|]. intros p k. destruct (Hb p k) as [H1 H2]. cbn [length]. rewrite rejections_cons, decide_False by done.
    split; [done|]. intros. rewrite Z.add_0_l. apply H2; try done; lia. }
  destruct r as [now a|n]; [|apply Hskip; try done; by intros k ?].
  destruct (handle a) as [[e|]|kind] eqn:Ea.
  - destruct (IH (sent ++ [e]) d Hd) as (d' & Hl & Hs & Hb). exists d'. cbn [listen omap list_omap event_of]. rewrite Ea.
    rewrite <-app_assoc in Hl. split_and!; [done..|]. intros p k. destruct (Hb p k) as [H1 H2]. cbn [length].
    rewrite rejections_cons, decide_False by (cbn; rewrite Ea; done). rewrite Z.add_0_l. split; [done|]. intros. apply H2; try done; lia.
  - apply Hskip; [cbn; by rewrite Ea|intros k; cbn; by rewrite Ea|cbn; by rewrite Ea].
  - destruct (node_record_at_spec path kind now d Hd) as (d1 & E1 & Hs1 & Hb1). destruct (IH sent d1 Hs1) as (d' & Hl & Hs & Hb).
    exists d'. cbn [listen omap list_omap event_of]. rewrite Ea, E1. cbn [mbind option_bind]. split_and!; [done..|]. intros p k.
    destruct (Hb1 p k) as [Hc1 Ha1]. destruct (Hb p k) as [Hc2 Ha2]. cbn [length]. rewrite rejections_cons.
    assert ((if bool_decide ((p, k) = (path, kind)) then 1 else 0) =
      (if bool_decide (p = path) then if decide (rejected k (Received now a)) then 1 else 0 else 0)) as E.
    { destruct (decide (p = path)) as [->|Hp].
      - rewrite (bool_decide_true (path = path)) by done. case_bool_decide as Hpk; destruct (decide (rejected k (Received now a))) as [Hr|Hr]; try done; exfalso.
        + injection Hpk as ->. apply Hr. exact Ea.
        + apply Hpk. cbn in Hr. rewrite Ea in Hr. congruence.
      - rewrite !bool_decide_false; [done|done|congruence]. }
    rewrite E in *. pose proof (rejections_nonneg k l). split.
    + rewrite Hc2, Hc1. destruct (bool_decide (p = path)); [destruct (decide (rejected k (Received now a)))|]; exists 0; lia.
    + intros H0 H1 H2 H3. destruct Ha1 as (Ha1 & Hs' & Hl'); [lia|done|done|].
      revert Ha1 Ha2. destruct (bool_decide (p = path)); [destruct (decide (rejected k (Received now a)))|]; intros; rewrite Ha2; try done; lia.
Qed.

End listen.

Section forwarders.
Context {sha : Sha256} `{CipherOps} `{D : Docs} {St : Type} `{!DocStore St} {E : Type} `{ExclusionOps E}.
Implicit Types n : Node St E.

Lemma new_sized : sized node_diagnostics_new.
Proof. done. Qed.

Lemma new_count path kind : nc_count node_diagnostics_new path kind = 0 ∧ nc_accounted node_diagnostics_new path kind = 0 ∧
  suppressed (default bucket_default (nc_warnings node_diagnostics_new !! diagnostics_index path kind)) = 0.
Proof. by destruct path, kind. Qed.

(** From fresh diagnostics, the books of a run say it all. *)
Lemma listen_fresh {A B} path (handle : A → result NodeChangeRejectKind (option B)) l :
  Z.of_nat (length l) ≤ U64_MAX →
  ∃ d, listen path handle l [] node_diagnostics_new = Some (omap (event_of handle) l, d) ∧
    ∀ kind, eqm (nc_count d path kind) (rejections handle kind l) ∧ nc_accounted d path kind = rejections handle kind l.
Proof.
  intros Hlen. destruct (listen_exact path handle l [] node_diagnostics_new new_sized) as (d & Hl & _ & Hb).
  exists d. split; [done|]. intros kind. destruct (Hb path kind) as [Hc Ha]. rewrite (bool_decide_true (path = path)) in Hc, Ha by done.
  destruct (new_count path kind) as (E1 & E2 & E3). rewrite E1, E2, E3 in *. cbn [nc_emitted node_diagnostics_new] in Ha.
  split; [done|]. apply Ha; cbn; lia.
Qed.


(** A public subscriber is told what a read answers: for a collection without a
    colon and an identity within the limits, the event of a change carries exactly
    the answer of [get_document] at that moment, an absent document included, and
    is rejected exactly when the read fails. *)
Theorem observer_agrees_with_get collection doc_id n :
  (∀ j t, json_text j = Some t → is_encrypted t = false) →
  str_contains collection ":"%char = false → str_len collection ≤ MAX_BRIDGE_IDENTITY_BYTES → str_len doc_id ≤ MAX_BRIDGE_IDENTITY_BYTES →
  match get_document collection doc_id n with
  | Ok answer => observe_change (doc_key collection doc_id) n = Ok (mkChange collection doc_id ChangeUpsert answer)
  | Err _ => is_err (observe_change (doc_key collection doc_id) n) = true
  end.
Proof.
  intros Htext Hc Hlc Hld. unfold observe_change, get_document, doc_key.
  change (collection +:+ ":" +:+ doc_id) with (collection +:+ String ":"%char doc_id). rewrite split_once_app by done.
  rewrite (proj2 (Z.ltb_ge _ (str_len collection))), (proj2 (Z.ltb_ge _ (str_len doc_id))) by done. cbn [orb].
  destruct (store_get _ _) as [[doc|]|]; [|done..]. unfold encrypted_value, maybe_decrypt.
  destruct (json_value_str (automerge_to_json doc)) as [s|]; [destruct (is_encrypted s) eqn:Es|].
  - rewrite Es. destruct (nd_cipher n) as [c|]; [|done]. by destruct (decrypt c s).
  - destruct (json_text (automerge_to_json doc)) as [t|] eqn:Et; [|done]. cbn. by rewrite (Htext _ _ Et).
  - destruct (json_text (automerge_to_json doc)) as [t|] eqn:Et; [|done]. cbn. by rewrite (Htext _ _ Et).
Qed.

(** A change of a document that is gone by the time it is read is announced as an
    upsert without data. *)
Theorem absent_document_announced_as_upsert collection doc_id n :
  str_contains collection ":"%char = false → str_len collection ≤ MAX_BRIDGE_IDENTITY_BYTES → str_len doc_id ≤ MAX_BRIDGE_IDENTITY_BYTES →
  store_get (doc_key collection doc_id) (nd_store n) = Some None →
  observe_change (doc_key collection doc_id) n = Ok (mkChange collection doc_id ChangeUpsert None).
Proof.
  intros Hc Hlc Hld Hs. unfold observe_change. rewrite Hs. unfold doc_key.
  change (collection +:+ ":" +:+ doc_id) with (collection +:+ String ":"%char doc_id). rewrite split_once_app by done.
  by rewrite (proj2 (Z.ltb_ge _ (str_len collection))), (proj2 (Z.ltb_ge _ (str_len doc_id))) by done.
Qed.

End forwarders.

(** ** Witnesses *)

(** Documents as their text; a JSON text is in braces. *)
Definition braced_docs : Docs := {|
  Json := string;
  Doc := string;
  json_parse s := Some s;
  json_text j := Some ("{" +:+ j +:+ "}");
  json_value_str j := strip_prefix "value=" j;
  json_wrap s := "value=" +:+ s;
  json_to_automerge j _ := Some j;
  automerge_to_json d := d;
  encoded_len d := str_len d;
  doc_root d := [];
|}.

Definition braced_store : @DocStore (gmap string string) braced_docs := {|
  store_get k st := Some (st !! k);
  store_put k d st := (true, <[k := d]> st);
  store_delete k st := (true, delete k st);
  keys_with_prefix p st := Some [];
  scan_prefix p st := Some [];
|}.

Definition no_exclusion : ExclusionOps unit := {|
  excl_record _ e := (Ok tt, e); excl_contains _ e := (Ok false, e); excl_healthy _ := true |}.

#[local] Existing Instances toy_cipher braced_docs braced_store no_exclusion.

Definition braced_node : Node (gmap string string) unit := mkNode {[ "tracks:one"%string := "speed" ]} None None [].


Lemma observer_agrees_with_get_witness :
  observe_change (doc_key "tracks" "one") braced_node = Ok (mkChange "tracks" "one" ChangeUpsert (Some "{speed}"%string)).
Proof.
  assert (∀ (j : Json) t, json_text j = Some t → is_encrypted t = false) as Htext by (intros j t Hj; injection Hj as <-; reflexivity).
  pose proof (observer_agrees_with_get "tracks" "one" braced_node Htext ltac:(vm_compute; reflexivity) ltac:(vm_compute; discriminate)
    ltac:(vm_compute; discriminate)) as Hx.
  replace (get_document "tracks" "one" braced_node) with (Ok (E := unit) (Some "{speed}"%string)) in Hx by (vm_compute; reflexivity). exact Hx.
Defined.

Lemma absent_document_announced_as_upsert_witness :
  observe_change (doc_key "tracks" "two") braced_node = Ok (mkChange "tracks" "two" ChangeUpsert None).
Proof. apply absent_document_announced_as_upsert; vm_compute; (reflexivity || discriminate). Defined.
