(* ===== verification/Subscribe.v ===== *)
(** * Subscriptions

    Model of [subscribe] in [src/service.rs] together with what feeds it: the
    node's documents, the store's notifications on their way through the
    forwarder ([Observer.observe_change]), the local deletions announced
    directly, and the handler that subscribes first, then reads the named
    collections document by document. Each of these runs at its own pace; one
    step is one of their actions. A document is its text, as reads answer it and
    events carry it (the two agree: [ObserverFacts]). *)

From S2P Require Import Prelude Json Query Preflight Crypto NodeDocs Observer.

(** collection and document id *)
Abbreviation DocId := (string * string)%type.

Definition event_key (e : ChangeEvent) : DocId := (ev_collection e, ev_doc_id e).

Record Hub := mkHub {
  hb_docs : gmap DocId string;
  (** store notifications the forwarder has not handled *)
  hb_queue : list DocId;
  (** events sent on the change channel since the subscription *)
  hb_rx : list ChangeEvent;
  hb_subscribed : bool;
  (** the handler: collections to list, documents to read, changes collected *)
  hb_todo : list string;
  hb_ids : list DocId;
  hb_snapshot : list ChangeEvent;
}.

Inductive HubStep :=
| HWrite (k : DocId) (text : string)
| HRemove (k : DocId)
| HDelete (k : DocId)
| HForward
| HSubscribe
| HList
| HGet (readable : bool)
| HLag (i : nat).

Section subscribe.
Context `{J : JsonLib} (collections : list string) (matcher : option Matcher).

Definition hub_new (docs : gmap DocId string) (queue : list DocId) : Hub := mkHub docs queue [] false collections [] [].

(** The matcher of a request; a bad query is refused before anything is read. *)
Definition subscribe_matcher (query : option SubscriptionQuery) : result QueryError (option Matcher) :=
  match query with
  | Some q => map_ok Some (from_proto q)
  | None => Ok None
  end.

(** A document read for the snapshot. *)
Definition snapshot_entry (k : DocId) (text : option string) : list ChangeEvent :=
  match text with
  | Some json =>
      if match matcher with Some m => matches_upsert m json | None => true end
      then [mkChange k.1 k.2 ChangeUpsert (Some json)]
      else []
  | None => []
  end.

Definition live_passes (e : ChangeEvent) : bool := event_passes collections matcher (ev_collection e) (ev_json_data e).

(** What the subscriber receives: the snapshot, then the live changes that pass. *)
Definition subscription_stream (s : Hub) : list ChangeEvent := hb_snapshot s ++ List.filter live_passes (hb_rx s).

Definition announce (e : ChangeEvent) (s : Hub) : list ChangeEvent := if hb_subscribed s then hb_rx s ++ [e] else hb_rx s.

(** The documents of a collection, in the order the store lists them. *)
Definition ids_of (collection : string) (docs : gmap DocId string) : list DocId :=
  filter (λ k, k.1 = collection) (map_to_list docs).*1.

Definition hub_step (st : HubStep) (s : Hub) : option Hub :=
  match st with
  | HWrite k text =>
      Some (mkHub (<[k := text]> (hb_docs s)) (hb_queue s ++ [k]) (hb_rx s) (hb_subscribed s) (hb_todo s) (hb_ids s) (hb_snapshot s))
  | HRemove k =>
      Some (mkHub (delete k (hb_docs s)) (hb_queue s ++ [k]) (hb_rx s) (hb_subscribed s) (hb_todo s) (hb_ids s) (hb_snapshot s))
  | HDelete k =>
      Some (mkHub (delete k (hb_docs s)) (hb_queue s ++ [k]) (announce (mkChange k.1 k.2 ChangeDelete None) s) (hb_subscribed s)
              (hb_todo s) (hb_ids s) (hb_snapshot s))
  | HForward =>
      match hb_queue s with
      | [] => None
      | k :: queue =>
          Some (mkHub (hb_docs s) queue (announce (mkChange k.1 k.2 ChangeUpsert (hb_docs s !! k)) s) (hb_subscribed s)
                  (hb_todo s) (hb_ids s) (hb_snapshot s))
      end
  | HSubscribe =>
      if hb_subscribed s then None
      else Some (mkHub (hb_docs s) (hb_queue s) [] true (hb_todo s) (hb_ids s) (hb_snapshot s))
  | HList =>
      match hb_subscribed s, hb_todo s, hb_ids s with
      | true, c :: todo, [] =>
          Some (mkHub (hb_docs s) (hb_queue s) (hb_rx s) true todo (ids_of c (hb_docs s)) (hb_snapshot s))
      | _, _, _ => None
      end
  | HGet readable =>
      match hb_ids s with
      | [] => None
      | k :: ids =>
          Some (mkHub (hb_docs s) (hb_queue s) (hb_rx s) (hb_subscribed s) (hb_todo s) ids
                  (hb_snapshot s ++ if readable then snapshot_entry k (hb_docs s !! k) else []))
      end
  | HLag i =>
      Some (mkHub (hb_docs s) (hb_queue s) (take i (hb_rx s) ++ drop (S i) (hb_rx s)) (hb_subscribed s) (hb_todo s) (hb_ids s)
              (hb_snapshot s))
  end.

Fixpoint hub_run (steps : list HubStep) (s : Hub) : option Hub :=
  match steps with [] => Some s | st :: steps => s' ← hub_step st s; hub_run steps s' end.

(** ** Convergence *)

Definition of_key (k : DocId) (l : list ChangeEvent) : list ChangeEvent := filter (λ e, event_key e = k) l.

(** Neither a failed read nor a lost event. *)
Definition undisturbed (st : HubStep) : Prop := match st with HGet false | HLag _ => False | _ => True end.

Definition wanted (text : string) : bool := match matcher with Some m => matches_upsert m text | None => true end.

Record hub_inv (k : DocId) (s : Hub) : Prop := {
  hi_before : hb_subscribed s = false → hb_rx s = [] ∧ hb_ids s = [] ∧ hb_snapshot s = [] ∧ hb_todo s = collections;
  hi_live : k ∈ hb_queue s ∨ ∀ e, last (of_key k (hb_rx s)) = Some e → ev_json_data e = hb_docs s !! k;
  hi_read : hb_subscribed s = true → k ∈ hb_queue s ∨ of_key k (hb_rx s) ≠ [] ∨
    (Forall (λ e, e = mkChange k.1 k.2 ChangeUpsert (hb_docs s !! k) ∧ is_Some (hb_docs s !! k)) (of_key k (hb_snapshot s)) ∧
     (k.1 ∈ hb_todo s ∨ k ∈ hb_ids s ∨ (k.1 ∈ collections → ∀ text, hb_docs s !! k = Some text → wanted text = true → of_key k (hb_snapshot s) ≠ [])));
}.

Lemma of_key_app k l1 l2 : of_key k (l1 ++ l2) = of_key k l1 ++ of_key k l2.
Proof. apply filter_app. Qed.

Lemma of_key_one k e : of_key k [e] = if decide (event_key e = k) then [e] else [].
Proof. unfold of_key. rewrite filter_cons, filter_nil. by case_decide. Qed.

Lemma ids_of_spec c docs k : k ∈ ids_of c docs ↔ k.1 = c ∧ is_Some (docs !! k).
Proof.
  unfold ids_of. rewrite list_elem_of_filter, list_elem_of_fmap. split.
  - intros [Hc ([k' v] & -> & Hk)]. apply elem_of_map_to_list in Hk. eauto.
  - intros [Hc [v Hv]]. split; [done|]. exists (k, v). by rewrite elem_of_map_to_list.
Qed.

Lemma snapshot_entry_other k k' text : k' ≠ k → of_key k (snapshot_entry k' text) = [].
Proof.
  intros Hne. destruct text as [json|]; [|done]. unfold snapshot_entry. destruct (match matcher with Some _ => _ | None => _ end); [|done].
  rewrite of_key_one, decide_False; [done|]. by destruct k'.
Qed.

Lemma snapshot_entry_same k text :
  of_key k (snapshot_entry k text) = match text with Some json => if wanted json then [mkChange k.1 k.2 ChangeUpsert (Some json)] else [] | None => [] end.
Proof.
  destruct text as [json|]; [|done]. unfold snapshot_entry, wanted. destruct (match matcher with Some _ => _ | None => _ end); [|done].
  rewrite of_key_one, decide_True; [done|]. by destruct k.
Qed.

(** A step that queues the document itself settles everything. *)
Lemma hub_inv_queued k s : k ∈ hb_queue s → (hb_subscribed s = false → hb_rx s = [] ∧ hb_ids s = [] ∧ hb_snapshot s = [] ∧ hb_todo s = collections) → hub_inv k s.
Proof. intros Hq Hb. split; auto. Qed.

(** A step that leaves the document, its events and its reading alone. *)
Lemma hub_inv_frame k s s' :
  hub_inv k s → hb_docs s' !! k = hb_docs s !! k → (k ∈ hb_queue s → k ∈ hb_queue s') → of_key k (hb_rx s') = of_key k (hb_rx s) →
  hb_subscribed s' = hb_subscribed s → hb_todo s' = hb_todo s → hb_ids s' = hb_ids s → hb_snapshot s' = hb_snapshot s →
  (hb_subscribed s = false → hb_rx s' = hb_rx s) → hub_inv k s'.
Proof.
  intros [Hb Hl Hr] E1 E2 E3 E4 E5 E6 E7 E8. split; rewrite ?E1, ?E3, ?E4, ?E5, ?E6, ?E7.
  - intros Hs. rewrite E8 by done. by apply Hb.
  - destruct Hl; auto.
  - intros Hs. destruct (Hr Hs) as [?|[?|?]]; auto.
Qed.

Lemma announce_other k e s : event_key e ≠ k → of_key k (announce e s) = of_key k (hb_rx s).
Proof. intros Hne. unfold announce. destruct (hb_subscribed s); [|done]. by rewrite of_key_app, of_key_one, decide_False, app_nil_r. Qed.

Lemma announce_before e s : hb_subscribed s = false → announce e s = hb_rx s.
Proof. intros Hs. unfold announce. by rewrite Hs. Qed.

Ltac hub := cbn [hb_docs hb_queue hb_rx hb_subscribed hb_todo hb_ids hb_snapshot].

Lemma hub_step_inv k st s s' : undisturbed st → hub_inv k s → hub_step st s = Some s' → hub_inv k s'.
Proof.
  intros Hu Hi Hs. pose proof Hi as [Hb Hl Hr]. destruct st as [k' text|k'|k'| | | |readable|i]; cbn [hub_step undisturbed] in Hs, Hu; simplify_eq.
  - destruct (decide (k' = k)) as [->|Hne]; [apply hub_inv_queued; hub; [set_solver|done]|].
    eapply hub_inv_frame; [done|..]; hub; try done; [by rewrite lookup_insert_ne|set_solver].
  - destruct (decide (k' = k)) as [->|Hne]; [apply hub_inv_queued; hub; [set_solver|done]|].
    eapply hub_inv_frame; [done|..]; hub; try done; [by rewrite lookup_delete_ne|set_solver].
  - destruct (decide (k' = k)) as [->|Hne]; [apply hub_inv_queued; hub; [set_solver|intros E; rewrite announce_before by done; auto]|].
    eapply hub_inv_frame; [done|..]; hub; try done; [by rewrite lookup_delete_ne|set_solver|apply announce_other; by destruct k'|by intros E; rewrite announce_before].
  - destruct (hb_queue s) as [|k' queue] eqn:Eq; [done|]. simplify_eq. destruct (decide (k' = k)) as [->|Hne].
    + destruct (hb_subscribed s) eqn:Es; cbn [hb_subscribed].
      * assert (of_key k (announce (mkChange k.1 k.2 ChangeUpsert (hb_docs s !! k)) s) =
          of_key k (hb_rx s) ++ [mkChange k.1 k.2 ChangeUpsert (hb_docs s !! k)]) as E.
        { unfold announce. rewrite Es, of_key_app, of_key_one, decide_True; [done|]. by destruct k. }
        split; hub; [done| |]; rewrite E; [right; intros e; rewrite last_snoc; by intros [= <-]|intros _; right; left; by destruct (of_key k (hb_rx s))].
      * destruct (Hb eq_refl) as (E1 & E2 & E3 & E4). split; hub; rewrite ?announce_before by done; [done| |done]. right. by rewrite E1.
    + eapply hub_inv_frame; [done|..]; hub; try done; [rewrite Eq; set_solver|apply announce_other; by destruct k'|by intros E; rewrite announce_before].
  - destruct (hb_subscribed s) eqn:Es; [done|]. simplify_eq. destruct (Hb eq_refl) as (E1 & E2 & E3 & E4).
    split; hub; [done|by right|]. intros _. right. right. rewrite E3, E4. split; [constructor|].
    destruct (decide (k.1 ∈ collections)); [by left|]. by right; right.
  - destruct (hb_subscribed s) eqn:Es; [|done]. destruct (hb_todo s) as [|c todo] eqn:Et; [done|].
    destruct (hb_ids s) as [|] eqn:Ei; [|done]. simplify_eq. split; hub; [done|done|]. intros _.
    destruct (Hr eq_refl) as [?|[?|[Hf Hd]]]; [by left|by right; left|]. right. right. split; [done|].
    destruct Hd as [Hin|[Hin|Hd]]; [|by apply elem_of_nil in Hin|by right; right].
    apply elem_of_cons in Hin as [Ec|Hin]; [|by left]. right.
    destruct (hb_docs s !! k) as [v|] eqn:Ek; [left; apply ids_of_spec; eauto|by right].
  - destruct (hb_ids s) as [|k' ids] eqn:Ei; [done|]. simplify_eq. destruct readable; [|done].
    assert (hb_subscribed s = true) as Es by (destruct (hb_subscribed s); [done|]; by destruct (Hb eq_refl) as (_ & ? & _)).
    split; hub; [by rewrite Es|done|]. intros _. destruct (Hr Es) as [?|[?|[Hf Hd]]]; [by left|by right; left|]. right. right.
    rewrite of_key_app. destruct (decide (k' = k)) as [->|Hne].
    + rewrite snapshot_entry_same. split.
      * apply Forall_app_2; [done|]. destruct (hb_docs s !! k) as [v|] eqn:Ek; [|constructor]. destruct (wanted v); [|constructor].
        constructor; [|constructor]. split; [done|eauto].
      * right. right. intros _ text Ht Hw. rewrite Ht, Hw. by destruct (of_key k (hb_snapshot s)).
    + rewrite snapshot_entry_other, app_nil_r by done. split; [done|].
      destruct Hd as [?|[Hin|?]]; [by left| |by right; right]. apply elem_of_cons in Hin as [?|?]; [done|by right; left].
  - done.
Qed.

Lemma hub_run_inv k steps s s' : Forall undisturbed steps → hub_inv k s → hub_run steps s = Some s' → hub_inv k s'.
Proof.
  intros Hu. revert s. induction Hu as [|st steps Hst _ IH]; intros s Hi Hrun; cbn in Hrun; [by simplify_eq|].
  destruct (hub_step st s) as [s1|] eqn:Hs; [|done]. apply (IH s1); [by eapply hub_step_inv|done].
Qed.

Lemma hub_new_inv k docs queue : hub_inv k (hub_new docs queue).
Proof. split; [done|by right|done]. Qed.

Lemma of_key_filter k l : of_key k (List.filter live_passes l) = List.filter live_passes (of_key k l).
Proof.
  assert (∀ e l, of_key k (e :: l) = if decide (event_key e = k) then e :: of_key k l else of_key k l) as Hcons
    by (intros; unfold of_key; by rewrite filter_cons).
  induction l as [|e l IH]; [done|]. rewrite Hcons. cbn [List.filter].
  destruct (live_passes e) eqn:Ep; rewrite ?Hcons; case_decide; cbn [List.filter]; rewrite ?Ep, IH; done.
Qed.

Lemma last_filter_passing (l : list ChangeEvent) e : last l = Some e → live_passes e = true → last (List.filter live_passes l) = Some e.
Proof.
  destruct l as [|x l _] using rev_ind; [done|]. rewrite last_snoc. intros [= ->] Hp. rewrite List.filter_app. cbn. rewrite Hp.
  apply last_snoc.
Qed.


End subscribe.

(** ** Witness *)

Definition toy_hub_steps : list HubStep :=
  [HSubscribe; HWrite ("tracks"%string, "a"%string) "1"; HList; HForward; HWrite ("tracks"%string, "a"%string) "2"; HGet true; HForward].

