(* ===== verification/Service.v ===== *)
(** * The RPC service: typed documents and collection settings

    Model of the conversions in [src/service.rs] between protocol messages and
    the JSON documents of the typed collections, of the collection settings with
    their conversions, and of the settings' store in [src/node.rs]
    ([set_collection_config], the load at start-up). serde_json is the interface
    [JsonLib]; the settings file's format is a parameter with its round trip. The
    remaining handlers of the service call the node or the attachment handlers
    and wrap the answer. *)

From S2P Require Import Prelude Paths Json.
From Stdlib Require Import Floats.SpecFloat Strings.Ascii.

(** ** Messages *)

Record PbNode := mkPbNode {
  nd_id : string; nd_node_type : string; nd_name : string; nd_status : Z;
  nd_latitude : spec_float; nd_longitude : spec_float; nd_altitude_m : spec_float; nd_readiness : spec_float;
  nd_capabilities : list string; nd_unit_id : option string; nd_callsign : option string;
}.

Record PbCell := mkPbCell {
  cl_id : string; cl_name : string; cl_status : Z; cl_node_count : Z;
  cl_center_latitude : spec_float; cl_center_longitude : spec_float;
  cl_capabilities : list string; cl_formation_id : option string; cl_leader_id : option string;
}.

Record PbTrack := mkPbTrack {
  tr_id : string; tr_source_node : string; tr_cell_id : option string; tr_formation_id : option string;
  tr_latitude : spec_float; tr_longitude : spec_float;
  tr_altitude_m : option spec_float; tr_cep_m : option spec_float; tr_heading_deg : option spec_float; tr_speed_mps : option spec_float;
  tr_classification : string; tr_confidence : spec_float; tr_category : Z;
}.

Record PbCommand := mkPbCommand {
  cm_id : string; cm_target_id : string; cm_command_type : string; cm_status : Z;
  cm_created_at : Z; cm_expires_at : Z; cm_payload_json : string;
}.

(** [x as i32] and [x as u32] *)
Definition as_i32 (z : Z) : Z := (z + 2 ^ 31) mod 2 ^ 32 - 2 ^ 31.
Definition as_u32 (z : Z) : Z := z mod 2 ^ 32.

Definition is_i32 (z : Z) : Prop := - 2 ^ 31 ≤ z < 2 ^ 31.
Definition is_u32 (z : Z) : Prop := 0 ≤ z < 2 ^ 32.
Definition is_i64 (z : Z) : Prop := I64_MIN ≤ z ≤ I64_MAX.

(** [f64::default()] *)
Definition f64_zero : spec_float := S754_zero false.

Section maps.
Context `{J : JsonLib}.
Abbreviation value := (Value JNumber).

Definition json_strings (l : list string) : value := VArray (VString <$> l).

Definition node_to_map (p : PbNode) : value := VObject [
  ("id"%string, VString (nd_id p)); ("node_type"%string, VString (nd_node_type p)); ("name"%string, VString (nd_name p));
  ("status"%string, json_int (nd_status p)); ("latitude"%string, json_f64 (nd_latitude p)); ("longitude"%string, json_f64 (nd_longitude p));
  ("altitude_m"%string, json_f64 (nd_altitude_m p)); ("readiness"%string, json_f64 (nd_readiness p));
  ("capabilities"%string, json_strings (nd_capabilities p)); ("unit_id"%string, json_option VString (nd_unit_id p));
  ("callsign"%string, json_option VString (nd_callsign p)) ].

Definition cell_to_map (c : PbCell) : value := VObject [
  ("id"%string, VString (cl_id c)); ("name"%string, VString (cl_name c)); ("status"%string, json_int (cl_status c));
  ("node_count"%string, json_int (cl_node_count c)); ("center_latitude"%string, json_f64 (cl_center_latitude c));
  ("center_longitude"%string, json_f64 (cl_center_longitude c)); ("capabilities"%string, json_strings (cl_capabilities c));
  ("formation_id"%string, json_option VString (cl_formation_id c)); ("leader_id"%string, json_option VString (cl_leader_id c)) ].

Definition track_to_map (t : PbTrack) : value := VObject [
  ("id"%string, VString (tr_id t)); ("source_node"%string, VString (tr_source_node t)); ("cell_id"%string, json_option VString (tr_cell_id t));
  ("formation_id"%string, json_option VString (tr_formation_id t)); ("latitude"%string, json_f64 (tr_latitude t));
  ("longitude"%string, json_f64 (tr_longitude t)); ("altitude_m"%string, json_option json_f64 (tr_altitude_m t));
  ("cep_m"%string, json_option json_f64 (tr_cep_m t)); ("heading_deg"%string, json_option json_f64 (tr_heading_deg t));
  ("speed_mps"%string, json_option json_f64 (tr_speed_mps t)); ("classification"%string, VString (tr_classification t));
  ("confidence"%string, json_f64 (tr_confidence t)); ("category"%string, json_int (tr_category t)) ].

Definition command_to_map (c : PbCommand) : value := VObject [
  ("id"%string, VString (cm_id c)); ("target_id"%string, VString (cm_target_id c)); ("command_type"%string, VString (cm_command_type c));
  ("status"%string, json_int (cm_status c)); ("created_at"%string, json_int (cm_created_at c)); ("expires_at"%string, json_int (cm_expires_at c));
  ("payload_json"%string, VString (cm_payload_json c)) ].

(** [.as_str().unwrap_or_default()] and the like on a field *)
Definition get_str (v : value) (field : string) : string := default ""%string (value_as_str (value_index v field)).
Definition get_opt_str (v : value) (field : string) : option string := value_as_str (value_index v field).
Definition get_f64 (v : value) (field : string) : spec_float := default f64_zero (value_as_f64 (value_index v field)).
Definition get_i64 (v : value) (field : string) : Z := default 0 (value_as_i64 (value_index v field)).
Definition get_u64 (v : value) (field : string) : Z := default 0 (value_as_u64 (value_index v field)).
Definition get_strings (v : value) (field : string) : list string :=
  match value_as_array (value_index v field) with Some a => omap value_as_str a | None => [] end.

Definition parse_object {T} (json : string) (f : value → T) : result string T := map_ok f (from_str json).

Definition map_to_node (id json : string) : result string PbNode :=
  parse_object json (λ v,
    mkPbNode id (get_str v "node_type") (get_str v "name") (as_i32 (get_i64 v "status")) (get_f64 v "latitude") (get_f64 v "longitude")
      (get_f64 v "altitude_m") (get_f64 v "readiness") (get_strings v "capabilities") (get_opt_str v "unit_id") (get_opt_str v "callsign")).

Definition map_to_cell (id json : string) : result string PbCell :=
  parse_object json (λ v,
    mkPbCell id (get_str v "name") (as_i32 (get_i64 v "status")) (as_u32 (get_u64 v "node_count")) (get_f64 v "center_latitude")
      (get_f64 v "center_longitude") (get_strings v "capabilities") (get_opt_str v "formation_id") (get_opt_str v "leader_id")).

Definition map_to_track (id json : string) : result string PbTrack :=
  parse_object json (λ v,
    mkPbTrack id (get_str v "source_node") (get_opt_str v "cell_id") (get_opt_str v "formation_id") (get_f64 v "latitude")
      (get_f64 v "longitude") (value_as_f64 (value_index v "altitude_m")) (value_as_f64 (value_index v "cep_m"))
      (value_as_f64 (value_index v "heading_deg")) (value_as_f64 (value_index v "speed_mps")) (get_str v "classification")
      (get_f64 v "confidence") (as_i32 (get_i64 v "category"))).

Definition map_to_command (id json : string) : result string PbCommand :=
  parse_object json (λ v,
    mkPbCommand id (get_str v "target_id") (get_str v "command_type") (as_i32 (get_i64 v "status")) (get_i64 v "created_at")
      (get_i64 v "expires_at") (get_str v "payload_json")).

(** The loop of the [get_*] handlers: documents that do not parse are left out,
    a failed read fails the call. *)
Fixpoint get_typed {T} (parse : string → string → result string T) (read : string → result unit (option string)) (ids : list string)
  : result unit (list T) :=
  match ids with
  | [] => Ok []
  | id :: ids =>
      let? doc := read id in
      let? rest := get_typed parse read ids in
      Ok (match doc with
          | Some json => match parse id json with Ok t => t :: rest | Err _ => rest end
          | None => rest
          end)
  end.

End maps.

(** ** Collection settings *)

Inductive StoredDeletionPolicy := SoftDelete | Tombstone | ImplicitTTL | Immutable.

Record CollectionConfigEntry := mkConfigEntry {
  cc_collection : string;
  cc_deletion_policy : StoredDeletionPolicy;
  cc_soft_delete_ttl_secs : option Z;
  cc_tombstone_ttl_secs : option Z;
}.

(** The message: the policy is an open enum, by its number. *)
Record PbCollectionConfig := mkPbConfig {
  pc_collection : string;
  pc_deletion_policy : Z;
  pc_soft_delete_ttl_secs : option Z;
  pc_tombstone_ttl_secs : option Z;
}.

Definition policy_number (p : StoredDeletionPolicy) : Z :=
  match p with SoftDelete => 1 | Tombstone => 2 | ImplicitTTL => 3 | Immutable => 4 end.

Definition entry_to_proto_config (e : CollectionConfigEntry) : PbCollectionConfig :=
  mkPbConfig (cc_collection e) (policy_number (cc_deletion_policy e)) (cc_soft_delete_ttl_secs e) (cc_tombstone_ttl_secs e).

Definition proto_config_to_entry (c : PbCollectionConfig) : CollectionConfigEntry :=
  mkConfigEntry (pc_collection c)
    (if pc_deletion_policy c =? 2 then Tombstone
     else if pc_deletion_policy c =? 3 then ImplicitTTL
     else if pc_deletion_policy c =? 4 then Immutable
     else SoftDelete)
    (pc_soft_delete_ttl_secs c) (pc_tombstone_ttl_secs c).

(** serde_json on the settings: the file's text and its parser. *)
Class ConfigFormat := {
  print_configs : gmap string CollectionConfigEntry → string;
  parse_configs : string → option (gmap string CollectionConfigEntry);
}.

(** What [std::fs::write] does to the file: it replaces it, or fails leaving
    whatever it wrote or the file as it was. *)
Inductive WriteOutcome := Written | WriteFailed (remains : option string).

Record ConfigStore := mkConfigStore {
  collection_configs : gmap string CollectionConfigEntry;
  configs_file : option string;
}.

Section configs.
Context `{ConfigFormat}.

(** Start-up: an unreadable or corrupt file is an empty configuration. *)
Definition load_configs (file : option string) : ConfigStore :=
  mkConfigStore (match file with Some text => default ∅ (parse_configs text) | None => ∅ end) file.

Definition set_collection_config (entry : CollectionConfigEntry) (outcome : WriteOutcome) (s : ConfigStore) : bool * ConfigStore :=
  let configs := <[cc_collection entry := entry]> (collection_configs s) in
  match outcome with
  | Written => (true, mkConfigStore configs (Some (print_configs configs)))
  | WriteFailed remains => (false, mkConfigStore configs remains)
  end.

Definition get_collection_config (collection : string) (s : ConfigStore) : option CollectionConfigEntry :=
  collection_configs s !! collection.

Definition list_collection_configs (s : ConfigStore) : list CollectionConfigEntry := (map_to_list (collection_configs s)).*2.

(** The handler. *)
Definition rpc_set_collection_config (config : option PbCollectionConfig) (outcome : WriteOutcome) (s : ConfigStore)
  : result ConnectError unit * ConfigStore :=
  match config with
  | None => (Err (mkConnectError InvalidArgument "config"), s)
  | Some cfg =>
      if is_empty_str (pc_collection cfg) then (Err (mkConnectError InvalidArgument "collection"), s)
      else
        let '(ok, s) := set_collection_config (proto_config_to_entry cfg) outcome s in
        ((if ok then Ok tt else Err (mkConnectError Internal "")), s)
  end.

Definition rpc_get_collection_config (collection : string) (s : ConfigStore) : option PbCollectionConfig :=
  entry_to_proto_config <$> get_collection_config collection s.

End configs.

(** * The service's conversions: round trips and settings

    What a typed document loses on its way through JSON (nothing but values that
    JSON has no number for), and what survives a restart of the collection
    settings. *)

(** ** Typed documents *)

(** JSON has no number for infinities and NaN: they are written as null and read
    back as zero, or as absent where the field is optional. *)
Definition stored_f64 (x : spec_float) : spec_float := if is_finite x then x else f64_zero.
Definition stored_opt_f64 (o : option spec_float) : option spec_float := x ← o; if is_finite x then Some x else None.

Definition stored_node (p : PbNode) : PbNode :=
  mkPbNode (nd_id p) (nd_node_type p) (nd_name p) (nd_status p) (stored_f64 (nd_latitude p)) (stored_f64 (nd_longitude p))
    (stored_f64 (nd_altitude_m p)) (stored_f64 (nd_readiness p)) (nd_capabilities p) (nd_unit_id p) (nd_callsign p).

Definition stored_cell (c : PbCell) : PbCell :=
  mkPbCell (cl_id c) (cl_name c) (cl_status c) (cl_node_count c) (stored_f64 (cl_center_latitude c)) (stored_f64 (cl_center_longitude c))
    (cl_capabilities c) (cl_formation_id c) (cl_leader_id c).

Definition stored_track (t : PbTrack) : PbTrack :=
  mkPbTrack (tr_id t) (tr_source_node t) (tr_cell_id t) (tr_formation_id t) (stored_f64 (tr_latitude t)) (stored_f64 (tr_longitude t))
    (stored_opt_f64 (tr_altitude_m t)) (stored_opt_f64 (tr_cep_m t)) (stored_opt_f64 (tr_heading_deg t)) (stored_opt_f64 (tr_speed_mps t))
    (tr_classification t) (stored_f64 (tr_confidence t)) (tr_category t).

Section maps.
Context `{J : JsonLib} `{!JsonLaws}.

Lemma as_i32_id z : is_i32 z → as_i32 z = z.
Proof. unfold is_i32, as_i32. intros Hz. rewrite Z.mod_small; lia. Qed.

Lemma as_u32_id z : is_u32 z → as_u32 z = z.
Proof. unfold is_u32, as_u32. intros Hz. by rewrite Z.mod_small. Qed.

Lemma read_f64 x : value_as_f64 (json_f64 x) = if is_finite x then Some x else None.
Proof.
  unfold json_f64. pose proof (of_f64_finite x) as Hf. destruct (of_f64 x) as [n|] eqn:E.
  - rewrite (proj2 Hf) by eauto. cbn. by apply as_f64_of_f64.
  - destruct (is_finite x); [|done]. by destruct (proj1 Hf eq_refl).
Qed.

Lemma read_opt_f64 o : value_as_f64 (json_option json_f64 o) = stored_opt_f64 o.
Proof. destruct o as [x|]; [apply read_f64|done]. Qed.

Lemma read_opt_str o : value_as_str (json_option VString o) = o.
Proof. by destruct o. Qed.

Lemma read_i64 z : is_i64 z → value_as_i64 (json_int z) = Some z.
Proof. apply as_i64_of_int. Qed.

Lemma read_u64 z : is_u64 z → value_as_u64 (json_int z) = Some z.
Proof. apply as_u64_of_int. Qed.

Lemma read_strings l : omap value_as_str (VString <$> l : list (Value JNumber)) = l.
Proof. induction l as [|s l IH]; [done|]. cbn. by rewrite IH. Qed.

Lemma is_i32_i64 z : is_i32 z → is_i64 z.
Proof. unfold is_i32, is_i64, I64_MIN, I64_MAX. lia. Qed.

Lemma is_u32_u64 z : is_u32 z → is_u64 z.
Proof. unfold is_u32, is_u64, U64_MAX. lia. Qed.

(** Read the fields of an object written field by field. *)
Ltac fields :=
  cbn [value_get entry_get]; repeat first [rewrite bool_decide_true by done | rewrite bool_decide_false by done];
  cbn [from_option id value_as_str json_strings value_as_array].

Lemma parse_faithful {T} (v : Value JNumber) (f : Value JNumber → T) :
  text_faithful v → (∀ v', (∀ field, value_get field v' = value_get field v) → f v' = f v) →
  parse_object (to_string v) f = Ok (f v).
Proof. intros (v' & Hp & Hg) Hf. unfold parse_object. rewrite Hp. cbn. by rewrite (Hf v' Hg). Qed.

Ltac same_fields Hg := unfold get_str, get_opt_str, get_f64, get_i64, get_u64, get_strings, value_index; rewrite !Hg; done.

(** Evaluate a reader on the map its writer builds. *)
Ltac read_back :=
  rewrite parse_faithful; [|done|intros v' Hg; same_fields Hg];
  unfold get_str, get_opt_str, get_f64, get_i64, get_u64, get_strings, value_index, node_to_map, cell_to_map, track_to_map, command_to_map; fields;
  rewrite ?read_f64, ?read_opt_f64, ?read_opt_str, ?read_strings, ?read_i64, ?read_u64 by auto using is_i32_i64, is_u32_u64;
  cbn [from_option id]; rewrite ?as_i32_id, ?as_u32_id by done.

Lemma node_roundtrip n :
  text_faithful (node_to_map n) → is_i32 (nd_status n) → map_to_node (nd_id n) (to_string (node_to_map n)) = Ok (stored_node n).
Proof.
  intros Ht Hs. unfold map_to_node. read_back. unfold stored_node, stored_f64. by repeat destruct (is_finite _).
Qed.

Lemma cell_roundtrip c :
  text_faithful (cell_to_map c) → is_i32 (cl_status c) → is_u32 (cl_node_count c) →
  map_to_cell (cl_id c) (to_string (cell_to_map c)) = Ok (stored_cell c).
Proof.
  intros Ht Hs Hc. unfold map_to_cell. read_back. unfold stored_cell, stored_f64. by repeat destruct (is_finite _).
Qed.

Lemma track_roundtrip t :
  text_faithful (track_to_map t) → is_i32 (tr_category t) → map_to_track (tr_id t) (to_string (track_to_map t)) = Ok (stored_track t).
Proof.
  intros Ht Hs. unfold map_to_track. read_back. unfold stored_track, stored_f64. by repeat destruct (is_finite _).
Qed.

Lemma command_roundtrip c :
  text_faithful (command_to_map c) → is_i32 (cm_status c) → is_i64 (cm_created_at c) → is_i64 (cm_expires_at c) →
  map_to_command (cm_id c) (to_string (command_to_map c)) = Ok c.
Proof. intros Ht Hs H1 H2. unfold map_to_command. read_back. by destruct c. Qed.

End maps.

(** ** The typed handlers *)

Section handlers.
Context `{J : JsonLib} `{!JsonLaws}.

Lemma get_typed_all {T U} (parse : string → string → result string U) read (id text : T → string) (stored : T → U) ts :
  Forall (λ t, read (id t) = Ok (Some (text t)) ∧ parse (id t) (text t) = Ok (stored t)) ts →
  get_typed parse read (id <$> ts) = Ok (stored <$> ts).
Proof. induction 1 as [|t ts [Hr Hp] _ IH]; [done|]. cbn. rewrite Hr. cbn. rewrite IH. cbn. by rewrite Hp. Qed.

(** What a handler's read returns for a document stored under its id. *)
Definition holds {T} (read : string → result unit (option string)) (id : T → string) (to_map : T → Value JNumber) (t : T) : Prop :=
  read (id t) = Ok (Some (to_string (to_map t))) ∧ text_faithful (to_map t).

(** Typed documents survive the store: a collection whose documents hold the text
    the put handlers wrote reads back, in listing order, as the nodes, cells,
    tracks and commands that were put, with enum numbers outside the known values
    kept; only infinities and NaN, which JSON cannot write, become zero or absent. *)
Theorem typed_documents_roundtrip read nodes cells tracks commands :
  Forall (λ n, holds read nd_id node_to_map n ∧ is_i32 (nd_status n)) nodes →
  Forall (λ c, holds read cl_id cell_to_map c ∧ is_i32 (cl_status c) ∧ is_u32 (cl_node_count c)) cells →
  Forall (λ t, holds read tr_id track_to_map t ∧ is_i32 (tr_category t)) tracks →
  Forall (λ c, holds read cm_id command_to_map c ∧ is_i32 (cm_status c) ∧ is_i64 (cm_created_at c) ∧ is_i64 (cm_expires_at c)) commands →
  get_typed map_to_node read (nd_id <$> nodes) = Ok (stored_node <$> nodes) ∧
  get_typed map_to_cell read (cl_id <$> cells) = Ok (stored_cell <$> cells) ∧
  get_typed map_to_track read (tr_id <$> tracks) = Ok (stored_track <$> tracks) ∧
  get_typed map_to_command read (cm_id <$> commands) = Ok (id <$> commands).
Proof.
  intros Hn Hc Ht Hm. split_and!; [eapply (get_typed_all map_to_node _ _ (λ n, to_string (node_to_map n))), Forall_impl; [exact Hn|]|
    eapply (get_typed_all map_to_cell _ _ (λ n, to_string (cell_to_map n))), Forall_impl; [exact Hc|]|
    eapply (get_typed_all map_to_track _ _ (λ n, to_string (track_to_map n))), Forall_impl; [exact Ht|]|
    eapply (get_typed_all map_to_command _ _ (λ n, to_string (command_to_map n))), Forall_impl; [exact Hm|]].
  - intros n ((? & ?) & ?). split; [done|]. by apply node_roundtrip.
  - intros n ((? & ?) & ? & ?). split; [done|]. by apply cell_roundtrip.
  - intros n ((? & ?) & ?). split; [done|]. by apply track_roundtrip.
  - intros n ((? & ?) & ? & ? & ?). split; [done|]. by apply command_roundtrip.
Qed.

End handlers.

(** A node with an infinite latitude, a cell, a track without altitude and a
    command, each under its own text. *)
Definition toy_node : PbNode :=
  mkPbNode "n" "uav" "Alpha" 7 (S754_infinity false) f64_zero f64_zero f64_zero ["lift"%string] None (Some "A1"%string).
Definition toy_cell : PbCell := mkPbCell "c" "Cell" (-1) 3 f64_zero f64_zero [] (Some "f"%string) None.
Definition toy_track : PbTrack :=
  mkPbTrack "t" "n" None None f64_zero f64_zero None (Some S754_nan) (Some f64_zero) None "unknown" f64_zero 2.
Definition toy_command : PbCommand := mkPbCommand "m" "n" "move" 1 1700000000 I64_MAX "{}".

Definition toy_print (v : Value ToyNumber) : string :=
  match v with VObject ((_, VString s) :: _) => s | _ => ""%string end.

Definition toy_texts (maps : list (Value ToyNumber)) (s : string) : option (Value ToyNumber) :=
  head (filter (λ v, toy_print v = s) maps).

Definition toy_maps : list (Value ToyNumber) :=
  let J := toy_json (λ _, None) toy_print in
  [@node_to_map J toy_node; @cell_to_map J toy_cell; @track_to_map J toy_track; @command_to_map J toy_command].

Definition toy_service_json : JsonLib := toy_json (toy_texts toy_maps) toy_print.

Lemma typed_documents_roundtrip_witness :
  @get_typed PbNode (@map_to_node toy_service_json) (λ s, Ok (Some s)) ["n"%string] = Ok [stored_node toy_node] ∧
  nd_latitude (stored_node toy_node) = f64_zero ∧
  @get_typed PbCommand (@map_to_command toy_service_json) (λ s, Ok (Some s)) ["m"%string] = Ok [toy_command].
Proof.
  pose proof (@typed_documents_roundtrip toy_service_json (toy_json_laws _ _) (λ s, Ok (Some s)) [toy_node] [toy_cell] [toy_track] [toy_command])
    as (Hn & _ & _ & Hm).
  1-4: repeat constructor; try done; try (eexists; split; [vm_compute; reflexivity|done]).
  split_and!; [exact Hn|reflexivity|exact Hm].
Defined.

(** ** Collection settings *)

Lemma config_entry_roundtrip e : proto_config_to_entry (entry_to_proto_config e) = e.
Proof. by destruct e as [? [] ? ?]. Qed.

(** What a client reads back of a message it set: unspecified and unknown policies
    read as soft delete. *)
Definition normal_config (c : PbCollectionConfig) : PbCollectionConfig :=
  mkPbConfig (pc_collection c) (if bool_decide (pc_deletion_policy c ∈ [2; 3; 4]) then pc_deletion_policy c else 1)
    (pc_soft_delete_ttl_secs c) (pc_tombstone_ttl_secs c).

Lemma config_proto_roundtrip c : entry_to_proto_config (proto_config_to_entry c) = normal_config c.
Proof.
  destruct c as [n p a b]. unfold entry_to_proto_config, proto_config_to_entry, normal_config. cbn. f_equal.
  destruct (Z.eqb_spec p 2) as [->|]; [done|]. destruct (Z.eqb_spec p 3) as [->|]; [done|]. destruct (Z.eqb_spec p 4) as [->|]; [done|].
  rewrite bool_decide_false; [done|]. set_solver.
Qed.

Section configs.
Context `{ConfigFormat}.

(** Requests in the order they were served, each with what its file write did. *)
Definition serve_sets (reqs : list (option PbCollectionConfig * WriteOutcome)) (s : ConfigStore) : ConfigStore :=
  fold_left (λ s r, (rpc_set_collection_config r.1 r.2 s).2) reqs s.

(** The last valid request for a collection. *)
Definition last_set (collection : string) (reqs : list (option PbCollectionConfig * WriteOutcome)) : option PbCollectionConfig :=
  last (filter (λ c, pc_collection c = collection ∧ collection ≠ ""%string) (omap fst reqs)).

Lemma is_empty_str_decide s : is_empty_str s = bool_decide (s = ""%string).
Proof. by destruct s. Qed.

Lemma rpc_set_configs config outcome s :
  collection_configs (rpc_set_collection_config config outcome s).2 =
  match config with
  | Some cfg => if bool_decide (pc_collection cfg = ""%string) then collection_configs s
                else <[pc_collection cfg := proto_config_to_entry cfg]> (collection_configs s)
  | None => collection_configs s
  end.
Proof.
  destruct config as [cfg|]; [|done]. unfold rpc_set_collection_config. rewrite is_empty_str_decide.
  case_bool_decide; [done|]. unfold set_collection_config. by destruct outcome.
Qed.

Lemma serve_sets_snoc reqs r s : serve_sets (reqs ++ [r]) s = (rpc_set_collection_config r.1 r.2 (serve_sets reqs s)).2.
Proof. unfold serve_sets. by rewrite fold_left_app. Qed.

Lemma serve_sets_get c reqs s :
  rpc_get_collection_config c (serve_sets reqs s) = from_option (Some ∘ normal_config) (rpc_get_collection_config c s) (last_set c reqs).
Proof.
  induction reqs as [|r reqs IH] using rev_ind; [done|]. rewrite serve_sets_snoc.
  unfold rpc_get_collection_config, get_collection_config. rewrite rpc_set_configs. unfold last_set. rewrite omap_app, filter_app.
  destruct r as [[cfg|] o]; cbn [fst omap list_omap]; [|by rewrite app_nil_r].
  case_bool_decide as Hc.
  - rewrite filter_cons_False, app_nil_r by naive_solver. exact IH.
  - destruct (decide (pc_collection cfg = c)) as [<-|Hne].
    + rewrite filter_cons_True, filter_nil, last_snoc, lookup_insert_eq by done. cbn. by rewrite config_proto_roundtrip.
    + rewrite filter_cons_False, filter_nil, app_nil_r, lookup_insert_ne by naive_solver. exact IH.
Qed.

Context (print_parse : ∀ m, parse_configs (print_configs m) = Some m).

Lemma written_settles config s :
  load_configs (configs_file s) = s → load_configs (configs_file (rpc_set_collection_config config Written s).2) = (rpc_set_collection_config config Written s).2.
Proof.
  intros Hs. destruct config as [cfg|]; [|done]. cbn. destruct (is_empty_str _); [done|]. unfold load_configs. cbn. by rewrite print_parse.
Qed.

(** Settings survive a restart: when no file write failed, a node restarted after any
    sequence of set requests serves for every collection the last valid message set
    for it (unspecified policies as soft delete), or what it had loaded before. *)
Theorem configs_survive_restart file reqs c :
  Forall (λ r, r.2 = Written) reqs →
  let s := serve_sets reqs (load_configs file) in
  load_configs (configs_file s) = s ∧
  rpc_get_collection_config c (load_configs (configs_file s)) =
    from_option (Some ∘ normal_config) (rpc_get_collection_config c (load_configs file)) (last_set c reqs).
Proof.
  intros Hw. assert (load_configs (configs_file (serve_sets reqs (load_configs file))) = serve_sets reqs (load_configs file)) as Hs.
  { induction reqs as [|[config o] reqs IH] using rev_ind; [done|]. apply Forall_app in Hw as [Hw Ho].
    apply Forall_singleton in Ho as [= ->]. rewrite serve_sets_snoc. by apply written_settles, IH. }
  cbn. split; [done|]. by rewrite Hs, serve_sets_get.
Qed.

(** A set request that fails is served all the same: when the file cannot be written,
    the client gets an error, the new setting is returned to every later reader
    until the node restarts, and if the file was left truncated the restart loses
    the settings of all collections. *)
Theorem failed_write_still_visible cfg torn s :
  pc_collection cfg ≠ ""%string → parse_configs torn = None →
  let '(r, s') := rpc_set_collection_config (Some cfg) (WriteFailed (Some torn)) s in
  r = Err (mkConnectError Internal "") ∧
  rpc_get_collection_config (pc_collection cfg) s' = Some (normal_config cfg) ∧
  ∀ c, rpc_get_collection_config c (load_configs (configs_file s')) = None.
Proof.
  intros Hc Ht. unfold rpc_set_collection_config. rewrite is_empty_str_decide, bool_decide_false by done. cbn. split_and!; [done| |].
  - unfold rpc_get_collection_config, get_collection_config. cbn. rewrite lookup_insert_eq. cbn. by rewrite config_proto_roundtrip.
  - intros c. unfold load_configs. cbn. by rewrite Ht.
Qed.

End configs.

(** A format whose texts are the binary digits of the settings' code. *)
#[local] Instance policy_eq_dec : EqDecision StoredDeletionPolicy.
Proof. solve_decision. Defined.
#[local] Instance entry_eq_dec : EqDecision CollectionConfigEntry.
Proof. solve_decision. Defined.

#[local] Program Instance entry_countable : Countable CollectionConfigEntry :=
  inj_countable' (λ e, (cc_collection e, policy_number (cc_deletion_policy e), cc_soft_delete_ttl_secs e, cc_tombstone_ttl_secs e))
    (λ '(c, p, a, b), proto_config_to_entry (mkPbConfig c p a b)) _.
Next Obligation. by intros [? [] ? ?]. Qed.

Fixpoint print_bits (p : positive) : string :=
  match p with xH => ""%string | xO p => String "0"%char (print_bits p) | xI p => String "1"%char (print_bits p) end.

Fixpoint parse_bits (s : string) : option positive :=
  match s with
  | EmptyString => Some xH
  | String c s => p ← parse_bits s; if bool_decide (c = "0"%char) then Some (xO p) else if bool_decide (c = "1"%char) then Some (xI p) else None
  end.

Lemma parse_print_bits p : parse_bits (print_bits p) = Some p.
Proof. induction p as [p IH|p IH|]; cbn; rewrite ?IH; done. Qed.

Definition toy_format : ConfigFormat :=
  {| print_configs m := print_bits (encode m); parse_configs s := parse_bits s ≫= decode |}.

Lemma toy_format_roundtrip m : @parse_configs toy_format (@print_configs toy_format m) = Some m.
Proof. cbn. rewrite parse_print_bits. cbn. apply decode_encode. Qed.

Definition toy_set (policy : Z) : PbCollectionConfig := mkPbConfig "frames" policy (Some 60) None.

Lemma configs_survive_restart_witness :
  @rpc_get_collection_config "frames"
    (@load_configs toy_format (configs_file (@serve_sets toy_format [(Some (toy_set 3), Written); (None, Written); (Some (toy_set 9), Written)] (@load_configs toy_format None)))) =
  Some (toy_set 1).
Proof.
  refine (proj2 (@configs_survive_restart toy_format toy_format_roundtrip None
    [(Some (toy_set 3), Written); (None, Written); (Some (toy_set 9), Written)] "frames" _)).
  repeat constructor.
Defined.

Lemma failed_write_still_visible_witness :
  (@rpc_set_collection_config toy_format (Some (toy_set 2)) (WriteFailed (Some "{"%string)) (@load_configs toy_format None)).1 =
    Err (mkConnectError Internal "") ∧
  rpc_get_collection_config "frames" (@load_configs toy_format (Some "{"%string)) = None.
Proof.
  destruct (@failed_write_still_visible toy_format (toy_set 2) "{" (@load_configs toy_format None)) as (Hr & _ & Hl); [discriminate|reflexivity|].
  split; [exact Hr|exact (Hl "frames"%string)].
Defined.
