(* ===== verification/JournalFrame.v ===== *)
(** * Two journals in one directory

    A journal's operations keep the other journal's file: the same name, the same
    inode, the same bytes, under every fault plan. And whatever a directory
    holds, a journal that opens is consistent: its file is the image of some log. *)

From S2P Require Import Prelude Journal JournalFacts LedgerWorker LedgerWorkerFacts.

(** ** Invariants of a computation *)

Definition triple {S E A} (I : S → Prop) (m : st_err S E A) (P : A → Prop) : Prop :=
  ∀ s, I s → wp m (λ r s', I s' ∧ match r with Ok a => P a | Err _ => True end) s.

Section triples.
Context {S E : Type} (I : S → Prop).

Lemma triple_bind {A B} (m : st_err S E A) (f : A → st_err S E B) P Q :
  triple I m P → (∀ a, P a → triple I (f a) Q) → triple I (m ≫= f) Q.
Proof.
  intros Hm Hf s Hs. apply wp_bind. eapply wp_mono; [by apply Hm|]. intros [a|e] s' [Hi Ha]; [by apply Hf|done].
Qed.

Lemma triple_ret {A} (a : A) (P : A → Prop) : P a → triple (E := E) I (mret a) P.
Proof. intros Ha s Hs. apply wp_ret. done. Qed.

Lemma triple_fail {A} e (P : A → Prop) : triple (E := E) I (fail e) P.
Proof. intros s Hs. by apply wp_fail. Qed.

Lemma triple_lift {A} (r : result E A) (P : A → Prop) : (∀ a, r = Ok a → P a) → triple I (lift r) P.
Proof. intros Hr s Hs. unfold wp, lift. cbn. split; [done|]. destruct r; auto. Qed.

Lemma triple_gets {A} (f : S → A) (P : A → Prop) : (∀ s, I s → P (f s)) → triple (E := E) I (gets f) P.
Proof. intros Hf s Hs. apply wp_gets. auto. Qed.

Lemma triple_modify (f : S → S) (P : unit → Prop) : (∀ s, I s → I (f s)) → P tt → triple (E := E) I (modify f) P.
Proof. intros Hf HP s Hs. apply wp_modify. auto. Qed.

Lemma triple_run {A} (m : st_err S E A) P s r s' :
  triple I m P → I s → m s = (r, s') → I s' ∧ match r with Ok a => P a | Err _ => True end.
Proof. intros Hm Hs Hrun. by apply (wp_elim _ _ _ (Hm s Hs)). Qed.
End triples.

(** ** Directories *)

(** No two names share a file, and new files are new. *)
Definition fs_wf (fs : Fs) : Prop :=
  (∀ name ino, fs_names fs !! name = Some (Regular ino) → (ino < fs_next fs)%nat) ∧
  (∀ n1 n2 ino, fs_names fs !! n1 = Some (Regular ino) → fs_names fs !! n2 = Some (Regular ino) → n1 = n2).

(** The entry [e] of the name [other], with bytes [c], in a good directory. *)
Definition kept (other : string) (e : option dirent) (c : bytes) (fs : Fs) : Prop :=
  fs_wf fs ∧ fs_names fs !! other = e ∧ ∀ x, e = Some (Regular x) → content fs x = c.

Lemma fs_wf_delete name fs : fs_wf fs → fs_wf (set_names (delete name (fs_names fs)) fs).
Proof.
  intros [Hlt Hinj]. split; cbn.
  - intros n ino Hx. apply lookup_delete_Some in Hx as [_ Hx]. eauto.
  - intros n1 n2 ino Hx Hy. apply lookup_delete_Some in Hx as [_ Hx]. apply lookup_delete_Some in Hy as [_ Hy]. eauto.
Qed.

Lemma content_set_ne file x data fs : file ≠ x → content (set_content file data fs) x = content fs x.
Proof. intros Hne. unfold content. cbn. by rewrite lookup_insert_ne. Qed.

Section frame.
Context {sha : Sha256} (other : string) (e : option dirent) (c : bytes).
Abbreviation I := (kept other e c).
Abbreviation foreign := (λ f : nat, e ≠ Some (Regular f)).

Lemma kept_faults fl fs : I fs → I (set_faults fl fs).
Proof. done. Qed.

Lemma kept_content f data fs : foreign f → I fs → I (set_content f data fs).
Proof.
  intros Hf (Hw & He & Hc). split_and!; [done..|]. intros x Hx. rewrite content_set_ne; [auto|]. intros <-. by apply Hf.
Qed.

Lemma kept_delete name fs : name ≠ other → I fs → I (set_names (delete name (fs_names fs)) fs).
Proof.
  intros Hn (Hw & He & Hc). split_and!; [by apply fs_wf_delete|cbn; by rewrite lookup_delete_ne|done].
Qed.

Lemma triple_syscall : triple I syscall (λ _, True).
Proof. intros fs Hfs. apply wp_syscall; intros fl; (split; [by apply kept_faults|done]). Qed.

Lemma triple_write_all f data : foreign f → triple I (write_all f data) (λ _, True).
Proof. intros Hf fs Hfs. apply wp_write_all; intros; (split; [|done]); by apply kept_content. Qed.

Lemma triple_create_file name : name ≠ other → triple I (create_file name) foreign.
Proof.
  intros Hn fs ((Hlt & Hinj) & He & Hc). apply wp_create_file. unfold created, create_file. cbn. split.
  - split_and!; [|cbn; by rewrite lookup_insert_ne|].
    + split; cbn.
      * intros n ino Hx. apply lookup_insert_Some in Hx as [[_ [= <-]]|[_ Hx]]; [lia|]. apply Hlt in Hx. lia.
      * intros n1 n2 ino Hx Hy. apply lookup_insert_Some in Hx as [[<- [= <-]]|[_ Hx]];
          apply lookup_insert_Some in Hy as [[<- Hy]|[_ Hy]]; simplify_eq; try done; [apply Hlt in Hy|apply Hlt in Hx|by eapply Hinj]; lia.
    + intros x Hx. rewrite <-(Hc x Hx). unfold content. cbn. rewrite lookup_insert_ne; [done|].
      intros <-. rewrite Hx in He. apply Hlt in He. lia.
  - intros ->. apply Hlt in He. lia.
Qed.

Lemma triple_lookup name : name ≠ other → triple (E := LedgerError) I (gets (λ fs, fs_names fs !! name)) (λ ent, ∀ f, ent = Some (Regular f) → foreign f).
Proof.
  intros Hn. apply triple_gets. intros fs ((_ & Hinj) & He & _) f Hf He'. rewrite He' in He. by eapply Hn, Hinj.
Qed.

(** One step of a frame proof. *)
Ltac frame_step :=
  match goal with
  | |- triple _ (mbind _ _) _ => eapply triple_bind; [|intros ? ?]
  | |- triple _ (mret _) _ => apply triple_ret
  | |- triple _ (fail _) _ => apply triple_fail
  | |- triple _ syscall _ => apply triple_syscall
  | |- triple _ (write_all _ _) _ => apply triple_write_all
  | |- triple _ (create_file _) _ => apply triple_create_file
  | |- triple _ (gets (λ fs, fs_names fs !! _)) _ => apply triple_lookup
  | |- triple _ (modify _) _ => apply (triple_modify _ _ (λ _, True)); [|exact Logic.I]
  | |- triple _ (if ?b then _ else _) _ => destruct b
  | |- triple _ (match ?x with _ => _ end) _ => destruct x
  end.

Ltac framed := repeat frame_step; eauto using kept_content, kept_delete.

Lemma triple_open_active name : name ≠ other → triple I (open_active name) foreign.
Proof. intros Hn. unfold open_active. framed. Qed.

Lemma triple_cleanup_temp active : temp_name active ≠ other → triple I (cleanup_temp active) (λ _, True).
Proof. intros Hn. unfold cleanup_temp, unlink. framed. Qed.

Lemma triple_recover f kind : foreign f → triple I (recover f kind) (λ _, True).
Proof.
  intros Hf. unfold recover, read_to_end, set_len, sync_all. framed.
  - by apply (triple_gets _ _ (λ _, True)).
  - by apply (triple_lift _ _ (λ _, True)).
Qed.

Lemma triple_journal_open kind :
  file_name kind ≠ other → temp_name (file_name kind) ≠ other →
  triple I (journal_open kind) (λ j, foreign (j_file j) ∧ j_kind j = kind).
Proof.
  intros Ha Ht. unfold journal_open, anchored_open. frame_step; [framed|]. frame_step; [by apply triple_cleanup_temp|].
  unfold open_and_recover. frame_step; [by apply triple_open_active|]. frame_step; [framed|].
  frame_step; [by apply (triple_gets _ _ (λ _, True))|]. unfold write_header, sync_all.
  frame_step; [framed|]. frame_step; [by apply triple_recover|]. framed.
Qed.

(** A journal of [kind] beside the kept file. *)
Definition beside (kind : JournalKind) (st : JState) : Prop :=
  I (js_fs st) ∧ foreign (j_file (js_journal st)) ∧ j_kind (js_journal st) = kind.

Lemma triple_on_fs {A} kind (m : FsM A) P : triple I m P → triple (beside kind) (on_fs m) P.
Proof.
  intros Hm [j fs] (Hi & Hf & Hk). apply wp_on_fs. eapply wp_mono; [by apply Hm|]. by intros r fs' [? ?].
Qed.

Lemma triple_upd kind f (P : unit → Prop) :
  (∀ j, foreign (j_file j) → j_kind j = kind → foreign (j_file (f j)) ∧ j_kind (f j) = kind) → P tt → triple (beside kind) (upd_journal f) P.
Proof.
  intros Hf HP. apply triple_modify; [|done]. intros [j fs] (Hi & Hfo & Hk). destruct (Hf j Hfo Hk). done.
Qed.

Lemma triple_journal kind : triple (E := LedgerError) (beside kind) (gets js_journal) (λ j, foreign (j_file j) ∧ j_kind j = kind).
Proof. apply triple_gets. by intros [j fs] (_ & ? & ?). Qed.

Lemma triple_write_entries f n entries : foreign f → triple I (write_entries f n entries) (λ _, True).
Proof.
  intros Hf. revert n. induction entries as [|[d s] entries IH]; intros n; cbn; [framed|]. frame_step; [by apply triple_write_all|apply IH].
Qed.

Lemma triple_rename_temp active : active ≠ other → temp_name active ≠ other → triple I (rename_temp active) (λ _, True).
Proof.
  intros Ha Ht. unfold rename_temp. frame_step; [framed|]. intros fs Hfs. apply wp_bind, wp_gets.
  destruct (fs_names fs !! temp_name active) as [ent|] eqn:Hent; [|by apply wp_fail].
  apply wp_modify. split; [|done]. apply (kept_delete _ _ Ht) in Hfs as Hfs'. destruct Hfs' as ((Hlt & Hinj) & He & Hc).
  destruct Hfs as ((Hlt0 & Hinj0) & _). cbn in *. split_and!; [|cbn; by rewrite lookup_insert_ne|done]. split; cbn.
  - intros n ino Hx. apply lookup_insert_Some in Hx as [[_ [= ->]]|[_ Hx]]; eauto.
  - intros n1 n2 ino Hx Hy. apply lookup_insert_Some in Hx as [[<- [= ->]]|[_ Hx]]; apply lookup_insert_Some in Hy as [[<- Hy]|[_ Hy]];
      simplify_eq; try done; try (by eapply Hinj).
    + apply lookup_delete_Some in Hy as [Hne Hy]. by destruct Hne; eapply Hinj0.
    + apply lookup_delete_Some in Hx as [Hne Hx]. by destruct Hne; eapply Hinj0.
Qed.

Lemma triple_compact kind :
  file_name kind ≠ other → temp_name (file_name kind) ≠ other → triple (beside kind) compact (λ _, True).
Proof.
  intros Ha Ht. unfold compact. frame_step; [apply triple_journal|]. destruct H as [_ Hk]. rewrite Hk.
  frame_step; [apply triple_on_fs; unfold create_temp; framed|]. cbn beta in *.
  frame_step; [apply triple_on_fs; unfold write_header, sync_all; framed|].
  frame_step; [by apply triple_on_fs, triple_write_entries|]. frame_step; [apply triple_on_fs; unfold sync_all; framed|].
  frame_step; [by apply triple_on_fs, triple_rename_temp|]. frame_step; [apply triple_on_fs; unfold sync_directory; framed|].
  frame_step; [by apply triple_on_fs, triple_open_active|]. by apply triple_upd.
Qed.

Lemma triple_record kind d s :
  file_name kind ≠ other → temp_name (file_name kind) ≠ other → triple (beside kind) (record d s) (λ _, True).
Proof.
  intros Ha Ht. unfold record. frame_step; [apply triple_journal|]. frame_step; [framed|]. destruct (record_transition _ _); [framed| |framed]. frame_step; [framed|]. frame_step; [frame_step; [by apply triple_compact|by apply triple_ret]|].
  unfold append_record. frame_step; [apply triple_journal|]. frame_step; [by apply (triple_lift _ _ (λ _, True))|].
  frame_step; [by apply (triple_upd _ _ (λ _, True))|]. frame_step; [apply triple_on_fs; framed|].
  frame_step; [apply triple_on_fs, triple_write_all; naive_solver|]. frame_step; [apply triple_on_fs; unfold sync_all; framed|].
  frame_step; [by apply (triple_upd _ _ (λ _, True))|]. framed.
Qed.

End frame.

(** ** Opening any directory *)

Section open_any.
Context {sha : Sha256}.

Lemma be_bytes_exact n l z : length l = n → from_be_bytes l = z → l = to_be_bytes n z.
Proof. intros <- <-. by rewrite to_from_be_bytes. Qed.

Lemma header_exact kind data : header_bad kind data = false → take HEADER_LEN data = header kind.
Proof.
  unfold header_bad. rewrite !orb_false_iff. intros (((((Hl & Hm) & Hv) & Hr) & Hk) & Hz).
  apply Nat.ltb_ge in Hl. apply negb_false_iff, bool_decide_eq_true in Hm, Hk. apply negb_false_iff, Z.eqb_eq in Hv, Hr.
  apply all_zero_replicate in Hz. unfold HEADER_LEN in *.
  do 32 (destruct data as [|? data]; [cbn in Hl; lia|]). unfold slice in *. cbn [take drop Nat.sub nth length] in *.
  apply (be_bytes_exact 4) in Hv; [|done]. apply (be_bytes_exact 4) in Hr; [|done]. unfold header. rewrite <-Hm, <-Hv, <-Hr, <-Hk. cbn.
  cbn in Hz. injection Hz as. by subst.
Qed.

Lemma concat_blocks k n l : (k * n ≤ length l)%nat → concat (blocks k n l) = take (k * n) l.
Proof.
  revert l. induction k as [|k IH]; intros l Hl; [done|]. cbn [blocks concat]. rewrite IH by (rewrite length_drop; lia).
  cbn [Nat.mul]. by rewrite <-take_take_drop.
Qed.

Lemma recover_loop_inv kind expected index chunks n index' :
  recover_loop kind expected index chunks = Ok (n, index') → Z.of_nat (size index) ≤ MAX_UNIQUE_ENTRIES →
  ∃ log, chunks = encode_log expected log ∧ replay kind index log = Some index' ∧ n = expected + Z.of_nat (length log) ∧
    Z.of_nat (size index') ≤ MAX_UNIQUE_ENTRIES.
Proof.
  revert expected index. induction chunks as [|r chunks IH]; intros expected index Hrun Hs; cbn [recover_loop] in Hrun.
  - injection Hrun as <- <-. exists []. split_and!; [done..|cbn; lia|done].
  - destruct (recover_step kind expected index r) as [[x i]|] eqn:Hstep; [|done]. unfold recover_step in Hstep.
    destruct (decode_record r) as [[[sq st] d]|] eqn:Hd; [|done]. apply encode_decode_record in Hd as [-> _].
    destruct (negb (sq =? expected) || negb (permits kind st)) eqn:Hg; [done|]. apply orb_false_iff in Hg as [Hq Hp].
    apply negb_false_iff, Z.eqb_eq in Hq as ->. apply negb_false_iff in Hp.
    unfold checked_add_u64 in Hstep. destruct (_ <=? U64_MAX); cbn [ok_or] in Hstep; [|done].
    destruct (match index !! d with Some _ => _ | None => _ end) as [i'|] eqn:Hi; [|done].
    destruct (Z.ltb_spec MAX_UNIQUE_ENTRIES (Z.of_nat (size i'))); [done|]. injection Hstep as <- <-.
    apply IH in Hrun as (log & -> & Hr & -> & Hs'); [|lia]. exists ((d, st) :: log). split_and!; [done| |cbn [length]; lia|done].
    cbn [replay]. replace (replay_step kind index (d, st)) with (Some i'); [done|]. unfold replay_step. rewrite Hp. cbn [negb].
    destruct (index !! d) as [[]|], st; by simplify_eq.
Qed.

(** What a scan accepts is the image of a log with less than a record behind it. *)
Lemma recover_scan_inv kind data n index :
  recover_scan kind data = Ok (n, index) →
  ∃ log tail, data = file_image kind log ++ tail ∧ (length tail < RECORD_LEN)%nat ∧
    replay kind ∅ log = Some index ∧ Z.of_nat (size index) ≤ MAX_UNIQUE_ENTRIES.
Proof.
  unfold recover_scan. destruct (header_bad kind data) eqn:Hh; [done|]. intros Hrun.
  apply recover_loop_inv in Hrun as (log & Hlog & Hr & _ & Hs); [|rewrite map_size_empty; unfold MAX_UNIQUE_ENTRIES; lia].
  apply header_exact in Hh. set (body := drop HEADER_LEN data) in *.
  assert (complete_len data = (length body / RECORD_LEN * RECORD_LEN)%nat) as Hc by (unfold body; by rewrite length_drop).
  assert (length body / RECORD_LEN * RECORD_LEN ≤ length body)%nat as Hle by (rewrite Nat.mul_comm; apply Nat.Div0.mul_div_le).
  exists log, (drop (complete_len data) body). split_and!; [| |done|done].
  - unfold file_image. rewrite <-app_assoc, <-Hlog. unfold chunks_exact. rewrite length_take, Hc, Nat.min_l by done.
    rewrite Nat.div_mul by (unfold RECORD_LEN; lia). rewrite concat_blocks by (rewrite length_take; lia).
    rewrite take_take, Nat.min_id, take_drop, <-Hh. unfold body. by rewrite take_drop.
  - rewrite length_drop, Hc. pose proof (Nat.mod_upper_bound (length body) RECORD_LEN) as Hm.
    rewrite (Nat.div_mod_eq (length body) RECORD_LEN) at 1. unfold RECORD_LEN in *. lia.
Qed.

Lemma replay_length kind log index :
  replay kind ∅ log = Some index → Z.of_nat (size index) ≤ MAX_UNIQUE_ENTRIES → Z.of_nat (length log) ≤ MAX_RECORDS.
Proof.
  intros Hr Hs. apply replay_weight in Hr. pose proof (weight_bound index). unfold weight in Hr at 2. rewrite map_fold_empty in Hr.
  unfold MAX_RECORDS in *. lia.
Qed.

(** A journal that recovers from a file is consistent with it. *)
Lemma wp_recover_any kind ino fs :
  fs_names fs !! file_name kind = Some (Regular ino) → (ino < fs_next fs)%nat →
  wp ('(sequence, records, index) ← recover ino kind; mret (mkJournal kind ino sequence records index))
    (λ r fs', match r with Ok j => j_kind j = kind ∧ ∃ log, journal_ok log (mkJState j fs') | Err _ => True end) fs.
Proof.
  intros Hn Hx. apply wp_bind, wp_run. intros r fs' Hrun.
  destruct (recover_scan kind (content fs ino)) as [[n index]|err] eqn:Hscan.
  - apply recover_scan_inv in Hscan as (log & tail & Hc & Ht & Hr & Hs).
    eapply recover_inv in Hrun; [|done|done|by eapply replay_length|done|done].
    destruct Hrun as (Hn' & Hx' & [[-> Hc']|[-> _]]); [|done]. apply wp_ret. split; [done|]. exists log.
    unfold journal_ok. cbn. rewrite Hn', Hx'. done.
  - revert r fs' Hrun. apply wp_elim. unfold recover, read_to_end. repeat fs_step; [|done..]. rewrite !content_faults, Hscan. done.
Qed.

Lemma wp_bound {S E A B} (m : st_err S E A) (f : A → st_err S E B) Q s :
  wp (m ≫= f) Q s → wp m (λ r s', match r with Ok a => wp (f a) Q s' | Err e => Q (Err e) s' end) s.
Proof. unfold wp, mbind, st_err_bind. by destruct (m s) as [[a|e] s']. Qed.

(** Whatever the directory holds: a journal that opens is the image of some log. *)
Lemma open_any kind fs j fs' :
  fs_wf fs → journal_open kind fs = (Ok j, fs') → j_kind j = kind ∧ ∃ log, journal_ok log (mkJState j fs').
Proof.
  intros Hwf Hrun. set (Q := λ (r : result LedgerError Journal) fs', match r with Ok j => j_kind j = kind ∧ ∃ log, journal_ok log (mkJState j fs') | Err _ => True end).
  cut (wp (journal_open kind) Q fs); [intros Hwp; exact (wp_elim _ _ _ Hwp _ _ Hrun)|]. clear j fs' Hrun.
  assert (∀ ino fs1, fs_names fs1 !! file_name kind = Some (Regular ino) → (ino < fs_next fs1)%nat →
    wp (syscall;; len ← gets (λ fs, Z.of_nat (length (content fs ino)));
        (if len =? 0 then write_header ino kind else if MAX_FILE_BYTES <? len then fail Capacity else mret tt);;
        '(sequence, records, index) ← recover ino kind; mret (mkJournal kind ino sequence records index)) Q fs1) as Hfile.
  { intros ino fs1 Hn Hx. repeat fs_step; [|done]. destruct (_ =? 0).
    - unfold write_header, sync_all. repeat fs_step; try done. by apply wp_bound, wp_recover_any.
    - destruct (_ <? _); repeat fs_step; [done|]. by apply wp_bound, wp_recover_any. }
  assert (∀ fs1, fs_wf fs1 → wp (open_and_recover kind) Q fs1) as Hmain.
  { intros fs1 Hwf1. unfold open_and_recover. apply wp_bind.
    apply (wp_mono _ (λ r fs', match r with Ok ino => fs_names fs' !! file_name kind = Some (Regular ino) ∧ (ino < fs_next fs')%nat | Err _ => True end)).
    - unfold open_active. repeat fs_step; [|done]. cbn [fs_names set_faults].
      destruct (fs_names fs1 !! file_name kind) as [[ino| |]|] eqn:Hn; repeat fs_step; try done.
      + split; [done|]. by eapply (proj1 Hwf1).
      + apply wp_create_file. cbn. rewrite lookup_insert_eq. split; [done|lia].
    - intros [ino|] fs2 Hino; [|done]. destruct Hino. by apply Hfile. }
  unfold journal_open. fs_step. fs_step; [|done]. fs_step. apply wp_cleanup_temp; intros; cbn beta iota; [by apply Hmain| |done].
  apply Hmain. by apply (fs_wf_delete _ (set_faults fl0 (set_faults fl fs))).
Qed.

End open_any.
