(* ===== verification/Install.v ===== *)
(** * Installing the bridge's journals

    Model of [install_bridge_ledger], [bridge_ledgers] and
    [record_local_exclusion] of [src/node.rs] over the journals' worker threads,
    and of the start of the bridge runtime ([BridgeRuntime::try_spawn] and
    [spawn_supervisor] in [src/nats_bridge/runtime.rs]): what is opened, what the
    readiness starts from, which tasks are spawned. Both journals share one
    directory; a host is a node's ledger slot with that directory. *)

From S2P Require Import Prelude Journal LedgerWorker Readiness NatsConfig Egress.

Record BridgeLedgerHealth := mkHealth { bh_exclusion : bool; bh_delivery : bool }.

(** [InstalledBridgeLedger] *)
Record InstalledBridgeLedger := mkBridgeInstalled {
  in_collections : gset string;
  in_exclusion : option Worker;
  in_delivery : option Worker;
}.

Record Host := mkHost { ho_installed : option InstalledBridgeLedger; ho_fs : Fs }.

(** [is_some_and(is_healthy)] *)
Definition facade_healthy (w : option Worker) : bool := match w with Some w => w_healthy w | None => false end.

Definition health_of (i : InstalledBridgeLedger) : BridgeLedgerHealth :=
  mkHealth (facade_healthy (in_exclusion i)) (facade_healthy (in_delivery i)).

Section install.
Context {sha : Sha256} `{AsyncNats}.

(** [blocking] is whether the blocking task that opens the journals ran. *)
Definition install_bridge_ledger (collections : list string) (blocking : bool) (h : Host)
  : result LedgerError BridgeLedgerHealth * Host :=
  let collections : gset string := list_to_set collections in
  match ho_installed h with
  | Some installed =>
      if negb (bool_decide (in_collections installed = collections)) then (Err Corrupt, h)
      else (Ok (health_of installed), h)
  | None =>
      if negb blocking then (Err Unavailable, h)
      else
        let '(opened, fs) := bridge_ledger_open (ho_fs h) in
        let '(exclusion, delivery) :=
          match opened with
          | Ok ledger => (Some (bl_exclusion ledger), Some (bl_delivery ledger))
          | Err (OpenDelivery _ exclusion) => (Some exclusion, None)
          | Err (OpenExclusion _) => (None, None)
          end in
        let installed := mkBridgeInstalled collections exclusion delivery in
        (Ok (health_of installed), mkHost (Some installed) fs)
  end.

Definition bridge_ledgers (h : Host) : option (option Worker * option Worker) :=
  (λ i, (in_exclusion i, in_delivery i)) <$> ho_installed h.

(** [record_local_exclusion], with the worker's thread and its directory. *)
Definition host_exclude (collection doc_id : string) (h : Host) : result LedgerError unit * Host :=
  match ho_installed h with
  | Some i =>
      if bool_decide (collection ∈ in_collections i) then
        match in_exclusion i with
        | Some w =>
            let '(r, w, fs) := record_local_excluded (document_digest collection doc_id) w (ho_fs h) in
            (r, mkHost (Some (mkBridgeInstalled (in_collections i) (Some w) (in_delivery i))) fs)
        | None => (Err Unavailable, h)
        end
      else (Ok tt, h)
  | None => (Ok tt, h)
  end.

(** The delivery facade's calls, as the coordinator makes them. *)
Definition host_deliver (digest : LedgerDigest) (state : RecordState) (h : Host) : result LedgerError bool * Host :=
  match ho_installed h with
  | Some (mkBridgeInstalled c e (Some w)) =>
      let '(r, w, fs) := worker_record digest state w (ho_fs h) in
      (r, mkHost (Some (mkBridgeInstalled c e (Some w))) fs)
  | _ => (Err Unavailable, h)
  end.

(** ** The start of the runtime *)

Inductive StartError := InvalidEffectiveIdentity | LedgerInstallFailed.

(** What is running when [try_spawn] returns: the readiness, whether the delivery
    coordinator, reconciler and event router were started, the journals with a
    health monitor, and the ledger failures counted. *)
Record BridgeStart := mkStart {
  bs_origin : string;
  bs_local_node_id : string;
  bs_readiness : BridgeStatus;
  bs_egress : bool;
  bs_monitors : bool * bool;
  bs_ledger_failures : Z;
}.

(** [spawn_supervisor] up to its tasks *)
Definition spawn_supervisor (subjects : list string) (health : BridgeLedgerHealth) (origin local_node_id : string)
    (exclusion delivery : option Worker) : BridgeStart :=
  let readiness := readiness_new subjects in
  let readiness := (update (SetExclusionHealthy (bh_exclusion health)) readiness).2 in
  let readiness := (update (SetDeliveryHealthy (bh_delivery health)) readiness).2 in
  mkStart origin local_node_id readiness
    (match delivery, exclusion with Some _, Some _ => true | _, _ => false end)
    (bool_decide (is_Some exclusion), bool_decide (is_Some delivery))
    ((if bh_exclusion health then 0 else 1) + (if bh_delivery health then 0 else 1)).

(** [BridgeRuntime::try_spawn]; the node's own id is used, whatever the caller
    passed. *)
Definition try_spawn (config : EnabledBridgeConfig) (node_id : string) (blocking : bool) (h : Host)
  : result StartError BridgeStart * Host :=
  match validate_bridge_node_identity node_id with
  | Err _ => (Err InvalidEffectiveIdentity, h)
  | Ok origin =>
      match install_bridge_ledger (collection <$> cfg_mappings config) blocking h with
      | (Err _, h) => (Err LedgerInstallFailed, h)
      | (Ok health, h) =>
          match bridge_ledgers h with
          | Some (exclusion, delivery) => (Ok (spawn_supervisor (subject <$> cfg_mappings config) health origin node_id exclusion delivery), h)
          | None => (Err LedgerInstallFailed, h) (* not reached: a successful install keeps the facades *)
          end
      end
  end.

End install.
