(* ===== verification/InstallFacts.v ===== *)
(** * Local exclusions across restarts

    The node's ledger slot over any life of a node: starts and crashes at any
    point, any number of installs, exclusions, reservations and completions, with
    faults of the disk. What was acknowledged as excluded stays excluded. Calls on
    one journal wait for their answer, as the facades do. *)

From S2P Require Import Prelude Journal JournalFacts LedgerWorker LedgerWorkerFacts JournalFrame Readiness NatsConfig Egress EgressLedger Preflight Crypto NodeDocs ExclusionLedger NodeDocsFacts Install.

(** ** Moving a journal's invariant along a frame *)

Section moves.
Context {sha : Sha256}.

Lemma journal_ok_moved log j fs fs' :
  journal_ok log (mkJState j fs) → fs_wf fs' → fs_names fs' !! file_name (j_kind j) = fs_names fs !! file_name (j_kind j) →
  content fs' (j_file j) = content fs (j_file j) → journal_ok log (mkJState j fs').
Proof.
  intros (Hf & Hn & _ & Hr & Hq & Hc & Hs) Hw Hname Hcont. cbn in *. unfold journal_ok. cbn.
  rewrite Hname, Hcont. split_and!; try done. eapply (proj1 Hw). by rewrite Hname.
Qed.

Lemma recoverable_moved kind log fs fs' :
  recoverable kind log fs → fs_wf fs' → fs_names fs' !! file_name kind = fs_names fs !! file_name kind →
  (∀ ino, fs_names fs !! file_name kind = Some (Regular ino) → content fs' ino = content fs ino) → recoverable kind log fs'.
Proof.
  intros (ino & tail & index & Hn & Hx & Hc & Hrest) Hw Hname Hcont. exists ino, tail, index.
  rewrite Hname, (Hcont ino Hn). split; [done|]. split; [|done]. eapply (proj1 Hw). by rewrite Hname.
Qed.

(** An exclusion journal holds nothing but exclusions. *)
Lemma replay_exclusions log index index' :
  replay Exclusion index log = Some index' → map_Forall (λ _ s, s = LocalExcluded) index → map_Forall (λ _ s, s = LocalExcluded) index'.
Proof.
  revert index. induction log as [|[d s] log IH]; intros index Hr Hi; cbn in Hr; [by simplify_eq|].
  destruct s; cbn in Hr; try done. destruct (index !! d) as [[]|]; cbn in Hr; try done. eapply IH; [exact Hr|]. by apply map_Forall_insert_2.
Qed.

Lemma excluded_of_log log j fs d :
  journal_ok log (mkJState j fs) → j_kind j = Exclusion → d ∈ log.*1 → j_index j !! d = Some LocalExcluded.
Proof.
  intros Hok Hk Hd. destruct (journal_ok_dom _ _ _ Hok Hd) as [s Hs]. cbn in Hs. rewrite Hs. f_equal.
  destruct Hok as (_ & _ & _ & Hr & _). cbn in Hr. rewrite Hk in Hr. eapply (replay_exclusions _ _ _ Hr); [apply map_Forall_empty|exact Hs].
Qed.

(** A digest in the index is in the log. *)
Lemma replay_in_log kind index log index' d :
  replay kind index log = Some index' → is_Some (index' !! d) → is_Some (index !! d) ∨ d ∈ log.*1.
Proof.
  revert index. induction log as [|[d' s] log IH]; intros index Hr Hd; cbn [replay] in Hr; [left; by simplify_eq|].
  destruct (replay_step kind index (d', s)) as [i|] eqn:Hs; cbn in Hr; [|done].
  destruct (IH i Hr Hd) as [Hi|Hi]; [|right; cbn; rewrite elem_of_cons; by right].
  destruct (decide (d = d')) as [->|Hne]; [right; cbn; rewrite elem_of_cons; by left|left]. cbn in Hs.
  cases; by rewrite lookup_insert_ne in Hi.
Qed.

Lemma journal_ok_in_log log st d : journal_ok log st → is_Some (j_index (js_journal st) !! d) → d ∈ log.*1.
Proof. intros (_ & _ & _ & Hr & _) Hd. destruct (replay_in_log _ _ _ _ _ Hr Hd) as [[? H]|?]; [by rewrite lookup_empty in H|done]. Qed.

Lemma names_apart : file_name Delivery ≠ file_name Exclusion ∧ temp_name (file_name Delivery) ≠ file_name Exclusion ∧
  file_name Exclusion ≠ file_name Delivery ∧ temp_name (file_name Exclusion) ≠ file_name Delivery.
Proof. done. Qed.

(** The state of one name, for the frame lemmas. *)
Definition entry_content (other : string) (fs : Fs) : bytes :=
  match fs_names fs !! other with Some (Regular x) => content fs x | _ => [] end.

Lemma kept_self other fs : fs_wf fs → kept other (fs_names fs !! other) (entry_content other fs) fs.
Proof. intros Hw. split_and!; [done..|]. intros x Hx. unfold entry_content. by rewrite Hx. Qed.

End moves.

(** ** Lives of a node *)

Inductive NodeLife := Up (h : Host) | Off (fs : Fs).

Definition maps_collection (h : Host) (c : string) : bool :=
  match ho_installed h with Some i => bool_decide (c ∈ in_collections i) | None => false end.

Section lives.
Context {sha : Sha256}.

(** The list holds the documents whose exclusion was acknowledged. *)
Inductive node_step : NodeLife * list (string * string) → NodeLife * list (string * string) → Prop :=
| ns_start fs g : node_step (Off fs, g) (Up (mkHost None fs), g)
| ns_install h g collections blocking r h' :
    install_bridge_ledger collections blocking h = (r, h') → node_step (Up h, g) (Up h', g)
| ns_exclude h g c i r h' :
    host_exclude c i h = (r, h') → node_step (Up h, g) (Up h', if is_ok r && maps_collection h c then (c, i) :: g else g)
| ns_deliver h g d s r h' : host_deliver d s h = (r, h') → node_step (Up h, g) (Up h', g)
| ns_crash h g faults : node_step (Up h, g) (Off (set_faults faults (ho_fs h)), g).

Definition covers (log : Log) (g : list (string * string)) : Prop := ∀ c i, (c, i) ∈ g → document_digest c i ∈ log.*1.

(** What the disk holds for the acknowledged exclusions. *)
Definition durable (g : list (string * string)) (fs : Fs) : Prop :=
  fs_wf fs ∧ (g = [] ∨ ∃ log, covers log g ∧ recoverable Exclusion log fs).

Definition exclusion_inv (w : Worker) (g : list (string * string)) (fs : Fs) : Prop :=
  idle w ∧ j_kind (w_journal w) = Exclusion ∧ ∃ log, covers log g ∧ journal_ok log (mkJState (w_journal w) fs).

Definition delivery_apart (w : Worker) (fs : Fs) : Prop :=
  idle w ∧ j_kind (w_journal w) = Delivery ∧ fs_names fs !! file_name Exclusion ≠ Some (Regular (j_file (w_journal w))).

Definition healthy_then (w : option Worker) (P : Worker → Prop) : Prop :=
  match w with Some w => w_healthy w = true → P w | None => True end.

Definition host_inv (g : list (string * string)) (h : Host) : Prop :=
  durable g (ho_fs h) ∧
  match ho_installed h with
  | Some i => healthy_then (in_exclusion i) (λ w, exclusion_inv w g (ho_fs h)) ∧ healthy_then (in_delivery i) (λ w, delivery_apart w (ho_fs h))
  | None => True
  end.

Definition node_life_inv (l : NodeLife * list (string * string)) : Prop :=
  match l.1 with Up h => host_inv l.2 h | Off fs => durable l.2 fs end.

Lemma durable_faults g fl fs : durable g fs → durable g (set_faults fl fs).
Proof.
  intros [Hw Hd]. split; [done|]. destruct Hd as [Hd|(log & Hc & Hr)]; [by left|right]. exists log. split; [done|].
  by eapply recoverable_moved.
Qed.

(** Steps of the delivery journal keep the exclusion journal. *)
Lemma exclusion_kept g fs fs' :
  durable g fs → kept (file_name Exclusion) (fs_names fs !! file_name Exclusion) (entry_content (file_name Exclusion) fs) fs' →
  durable g fs' ∧ ∀ w, exclusion_inv w g fs → exclusion_inv w g fs'.
Proof.
  intros [_ Hd] (Hw & Hn & Hc). unfold entry_content in Hc. split.
  - split; [done|]. destruct Hd as [Hd|(log & Hcov & Hr)]; [by left|right]. exists log. split; [done|].
    eapply recoverable_moved; [done..|]. intros ino Hino. specialize (Hc ino Hino). by rewrite Hino in Hc.
  - intros w (Hi & Hk & log & Hcov & Hok). split_and!; [done..|]. exists log. split; [done|].
    pose proof (proj1 (proj2 Hok)) as Hname. cbn in Hname. rewrite Hk in Hname. specialize (Hc _ Hname). rewrite Hname in Hc.
    eapply journal_ok_moved; [done..| |done]. by rewrite Hk.
Qed.

Lemma exclusion_inv_durable w g fs : fs_wf fs → exclusion_inv w g fs → durable g fs.
Proof.
  intros Hw (_ & Hk & log & Hcov & Hok). split; [done|]. right. exists log. split; [done|]. rewrite <-Hk.
  by apply (journal_ok_recoverable _ (mkJState (w_journal w) fs)).
Qed.

(** Opening the exclusion journal finds what is durable. *)
Lemma spawn_exclusion_inv g fs r fs' :
  durable g fs → spawn Exclusion fs = (r, fs') → durable g fs' ∧ ∀ w, r = Ok w → exclusion_inv w g fs'.
Proof.
  intros [Hw Hd] Hrun. unfold spawn in Hrun. destruct (journal_open Exclusion fs) as [rj fs1] eqn:Hopen.
  assert (fs_wf fs1) as Hw1.
  { destruct names_apart as (_ & _ & H1 & H2).
    by destruct (triple_run _ _ _ _ _ _ (triple_journal_open _ _ _ Exclusion H1 H2) (kept_self (file_name Delivery) fs Hw) Hopen) as [(? & _) _]. }
  destruct rj as [j|err]; simplify_eq.
  - assert (j_kind j = Exclusion ∧ ∃ log, covers log g ∧ journal_ok log (mkJState j fs')) as (Hk & log & Hcov & Hok).
    { destruct Hd as [->|(log & Hcov & Hr)].
      - apply open_any in Hopen as (Hk & log & Hok); [|done]. split; [done|]. exists log. split; [|done]. by intros c i ?%elem_of_nil.
      - destruct (open_recoverable _ _ _ _ _ Hr Hopen) as [(j' & [= <-] & Hk & Hok)|[? _]]; [|done]. eauto. }
    assert (exclusion_inv (mkWorker j [] true false true []) g fs') as Hinv by (split_and!; [done..|eauto]).
    split; [by eapply exclusion_inv_durable|]. by intros w [= <-].
  - split; [|done]. split; [done|]. destruct Hd as [->|(log & Hcov & Hr)]; [by left|right]. exists log. split; [done|].
    by destruct (open_recoverable _ _ _ _ _ Hr Hopen) as [(j' & ? & _)|[_ ?]].
Qed.

Lemma spawn_delivery_apart g fs r fs' :
  durable g fs → spawn Delivery fs = (r, fs') →
  durable g fs' ∧ (∀ w, exclusion_inv w g fs → exclusion_inv w g fs') ∧ ∀ w, r = Ok w → delivery_apart w fs'.
Proof.
  intros Hd Hrun. unfold spawn in Hrun. destruct (journal_open Delivery fs) as [rj fs1] eqn:Hopen.
  destruct names_apart as (H1 & H2 & _).
  destruct (triple_run _ _ _ _ _ _ (triple_journal_open _ _ _ Delivery H1 H2) (kept_self (file_name Exclusion) fs (proj1 Hd)) Hopen) as [Hkept Hj].
  destruct (exclusion_kept _ _ _ Hd Hkept) as [Hd' Hx]. destruct rj as [j|err]; simplify_eq; (split_and!; [done..|]).
  - intros w [= <-]. destruct Hj as [Hf Hk]. split_and!; [done..|]. intros Hbad. apply Hf. rewrite <-(proj1 (proj2 Hkept)). exact Hbad.
  - done.
Qed.

Lemma install_inv g collections blocking h r h' :
  host_inv g h → install_bridge_ledger collections blocking h = (r, h') → host_inv g h'.
Proof.
  intros [Hd Hi] Hrun. unfold install_bridge_ledger in Hrun. destruct (ho_installed h) as [i|] eqn:Hinst.
  { assert (h' = h) as -> by (destruct (negb _); by simplify_eq). split; [done|]. by rewrite Hinst. }
  destruct (negb blocking); [by simplify_eq; split; [|rewrite Hinst]|].
  unfold bridge_ledger_open in Hrun. destruct (spawn Exclusion (ho_fs h)) as [re fs1] eqn:He.
  destruct (spawn_exclusion_inv _ _ _ _ Hd He) as [Hd1 Hx]. destruct re as [we|]; [|by simplify_eq].
  destruct (spawn Delivery fs1) as [rd fs2] eqn:Hdel. destruct (spawn_delivery_apart _ _ _ _ Hd1 Hdel) as (Hd2 & Hmove & Hdw).
  destruct rd as [wd|]; simplify_eq; (split; [done|]); cbn; (split; [by intros _; apply Hmove, Hx|done || by intros _; apply Hdw]).
Qed.

(** An exclusion: acknowledged only when durable, and nothing lost otherwise. *)
Lemma record_excluded_inv d w g fs r w' fs' :
  fs_wf fs → exclusion_inv w g fs → record_local_excluded d w fs = (r, w', fs') →
  fs_wf fs' ∧ fs_names fs' !! file_name Exclusion = fs_names fs !! file_name Exclusion ∧
  match r with
  | Ok _ => ∀ c i, document_digest c i = d → exclusion_inv w' ((c, i) :: g) fs' ∧ exclusion_inv w' g fs'
  | Err _ => w_healthy w' = false ∧ durable g fs'
  end.
Proof.
  intros Hw (Hidle & Hk & log & Hcov & Hok) Hrun. unfold record_local_excluded in Hrun.
  destruct (record d LocalExcluded (mkJState (w_journal w) fs)) as [rj st] eqn:Hrec.
  rewrite (worker_record_idle _ _ _ _ _ _ Hidle Hrec) in Hrun. injection Hrun as <- <- <-.
  pose proof (proj1 (proj2 Hok)) as Hname. cbn in Hname. rewrite Hk in Hname.
  assert (beside (file_name Delivery) (fs_names fs !! file_name Delivery) (entry_content (file_name Delivery) fs) Exclusion (mkJState (w_journal w) fs)) as Hb.
  { split_and!; [by apply kept_self| |done]. intros Hbad. cbn in Hbad. by pose proof (proj2 Hw _ _ _ Hname Hbad). }
  destruct names_apart as (_ & _ & H1 & H2).
  destruct (triple_run _ _ _ _ _ _ (triple_record _ _ _ Exclusion d LocalExcluded H1 H2) Hb Hrec) as [((Hw' & _) & _ & Hk') _].
  assert (LocalExcluded = Completed → is_Some (j_index (w_journal w) !! d)) as Hne by done.
  assert (fs_names (js_fs st) !! file_name Exclusion = fs_names fs !! file_name Exclusion ∧
    match rj with
    | Ok _ => ∃ log', (∀ x, x ∈ log.*1 → x ∈ log'.*1) ∧ d ∈ log'.*1 ∧ journal_ok log' st
    | Err _ => durable g (js_fs st)
    end) as [Hn Hres].
  { destruct (record_inv _ _ _ _ _ _ Hok Hne Hrec) as [(Hd & -> & ->)|[(-> & Hok' & _ & _ & Hj)|[[Hr ->]|(-> & _ & _ & _ & _ & Hn & _)]]].
    - split; [done|]. exists log. split_and!; [done| |done]. by apply (journal_ok_in_log _ (mkJState (w_journal w) fs)).
    - split.
      + pose proof (proj1 (proj2 Hok')) as Hn'. rewrite Hj in Hn'. cbn in Hn'. rewrite Hk in Hn'. by rewrite Hn', Hname.
      + exists (log ++ [(d, LocalExcluded)]). rewrite fmap_app. cbn. split_and!; [set_solver..|done].
    - split; [done|]. destruct Hr as [->| ->]; by eapply exclusion_inv_durable; [|split_and!; [..|exists log]].
    - split; [by rewrite Hn|]. split; [done|]. right.
      destruct (record_err_recoverable _ _ _ _ _ _ Hok Hne Hrec) as [_ [Hr|Hr]]; cbn in Hr; rewrite Hk in Hr.
      + by exists log.
      + exists (log ++ [(d, LocalExcluded)]). split; [|done]. intros c i Hci. rewrite fmap_app. apply elem_of_app. left. by apply Hcov. }
  split_and!; [done..|]. destruct rj as [b|err]; cbn [map_ok]; [|done].
  destruct Hres as (log' & Hsub & Hin & Hok'). intros c i Hci.
  assert (∀ g', covers log' g' → exclusion_inv (send_reply (fresh_id w) (RecordReply d LocalExcluded (Ok b)) (mkWorker (js_journal st) [] true false true (w_replies w))) g' (js_fs st)) as Hmk.
  { intros g' Hg. split_and!; [done..|]. exists log'. split; [done|]. by destruct st. }
  split; apply Hmk; intros c' i' Hx; [apply elem_of_cons in Hx as [[= -> ->]|Hx]; [by rewrite Hci|]|]; by apply Hsub, Hcov.
Qed.

Lemma record_excluded_unhealthy d w fs : w_healthy w = false → record_local_excluded d w fs = (Err Unavailable, w, fs).
Proof. intros Hh. unfold record_local_excluded, worker_record, submit. by rewrite Hh. Qed.

Lemma exclude_inv g c i h r h' :
  host_inv g h → host_exclude c i h = (r, h') → host_inv (if is_ok r && maps_collection h c then (c, i) :: g else g) h'.
Proof.
  intros Hinv Hrun. pose proof Hinv as [Hd Hi]. unfold host_exclude in Hrun. unfold maps_collection.
  destruct (ho_installed h) as [inst|] eqn:Hinst; [|simplify_eq; by rewrite andb_false_r].
  case_bool_decide as Hc; [|simplify_eq; by rewrite andb_false_r]. rewrite andb_true_r.
  destruct Hi as [Hex Hdel]. destruct (in_exclusion inst) as [w|] eqn:Hw; [|by injection Hrun as <- <-].
  destruct (record_local_excluded (document_digest c i) w (ho_fs h)) as [[r' w'] fs'] eqn:Hrec. injection Hrun as <- <-.
  destruct (w_healthy w) eqn:Hh.
  2: { rewrite record_excluded_unhealthy in Hrec by done. injection Hrec as <- <- <-. cbn. split; [done|]. split; [|done]. cbn. by rewrite Hh. }
  destruct (record_excluded_inv _ _ _ _ _ _ _ (proj1 Hd) (Hex Hh) Hrec) as (Hw' & Hn & Hres).
  assert (healthy_then (in_delivery inst) (λ wd, delivery_apart wd fs')) as Hdel'.
  { destruct (in_delivery inst) as [wd|]; [|done]. intros Hhd. destruct (Hdel Hhd) as (? & ? & ?). split_and!; [done..|]. by rewrite Hn. }
  destruct r' as [[]|err]; cbn.
  - destruct (Hres c i eq_refl) as [Hx _]. split; [by eapply exclusion_inv_durable|]. split; cbn; [by intros _|]. exact Hdel'.
  - destruct Hres as [Hu Hd']. split; [done|]. split; [|done]. cbn. by rewrite Hu.
Qed.

Lemma deliver_inv g d s h r h' : host_inv g h → host_deliver d s h = (r, h') → host_inv g h'.
Proof.
  intros Hinv Hrun. pose proof Hinv as [Hd Hi]. unfold host_deliver in Hrun.
  destruct (ho_installed h) as [[c ex [w|]]|] eqn:Hinst; [|by simplify_eq..]. destruct Hi as [Hex Hdel]. cbn in Hex, Hdel.
  destruct (worker_record d s w (ho_fs h)) as [[r' w'] fs'] eqn:Hrec. injection Hrun as <- <-. destruct (w_healthy w) eqn:Hh.
  2: { unfold worker_record, submit in Hrec. rewrite Hh in Hrec. injection Hrec as <- <- <-. split; [done|]. split; [done|]. cbn. by rewrite Hh. }
  destruct (Hdel eq_refl) as (Hidle & Hk & Hapart). destruct (record d s (mkJState (w_journal w) (ho_fs h))) as [rj st] eqn:Hj.
  rewrite (worker_record_idle _ _ _ _ _ _ Hidle Hj) in Hrec. injection Hrec as <- <- <-. destruct names_apart as (H1 & H2 & _).
  assert (beside (file_name Exclusion) (fs_names (ho_fs h) !! file_name Exclusion) (entry_content (file_name Exclusion) (ho_fs h)) Delivery
            (mkJState (w_journal w) (ho_fs h))) as Hb by (split_and!; [apply kept_self, Hd|done..]).
  destruct (triple_run _ _ _ _ _ _ (triple_record _ _ _ Delivery d s H1 H2) Hb Hj) as [(Hkept & Hf & Hk') _].
  destruct (exclusion_kept _ _ _ Hd Hkept) as [Hd' Hx]. split; [done|]. cbn. split.
  - destruct ex as [we|]; [|done]. intros Hhe. apply Hx, Hex, Hhe.
  - intros Hok. split_and!; [by split_and!|done|]. intros Hbad. apply Hf. rewrite <-(proj1 (proj2 Hkept)). exact Hbad.
Qed.

Lemma node_life_step l l' : node_life_inv l → node_step l l' → node_life_inv l'.
Proof.
  intros Hl Hstep. destruct Hstep as [fs g|h g cs b r h' Hrun|h g c i r h' Hrun|h g d s r h' Hrun|h g fl]; cbn in *.
  - by split.
  - by eapply install_inv.
  - by eapply exclude_inv.
  - by eapply deliver_inv.
  - by apply durable_faults, Hl.
Qed.

Lemma node_life_steps l l' : node_life_inv l → rtc node_step l l' → node_life_inv l'.
Proof. intros Hl. induction 1; eauto using node_life_step. Qed.

(** A journal bound to the node's directory answers for the acknowledged list. *)
Lemma exclusion_inv_contains w g fs c i :
  exclusion_inv w g fs → (c, i) ∈ g →
  (contains (document_digest c i) w fs).1.1 = Ok true ∧ excl_inv (w, fs) ∧ excluded (w, fs) (document_digest c i).
Proof.
  intros (Hidle & Hk & log & Hcov & Hok) Hci. pose proof (excluded_of_log _ _ _ _ Hok Hk (Hcov _ _ Hci)) as Hidx.
  split_and!; [|apply Hidle|exact Hidx]. unfold contains. rewrite worker_lookup_idle by done. cbn. by rewrite Hidx.
Qed.

End lives.

(** ** Theorems *)

Section theorems.
Context {sha : Sha256}.

(** [C12] A local document stays local across restarts: over any life of a node, from any
    directory, with crashes between and inside operations, disk faults, failed
    opens and any traffic on the delivery journal beside it, a document whose
    exclusion was once acknowledged is found excluded whenever the exclusion
    journal is open and healthy, and reconciliation never offers it. *)
Theorem exclusions_survive_restarts `{CipherOps} `{D : Docs} {St : Type} `{!DocStore St} fs h g collections w delivery c i :
  fs_wf fs → rtc node_step (Off fs, []) (Up h, g) → (c, i) ∈ g →
  ho_installed h = Some (mkBridgeInstalled collections (Some w) delivery) → w_healthy w = true →
  (contains (document_digest c i) w (ho_fs h)).1.1 = Ok true ∧
  ∀ (n : Node St (Worker * Fs)) ev, (reconciliation_candidate c i n (w, ho_fs h)).1 ≠ Ok (Offered, ev).
Proof.
  intros Hw Hsteps Hci Hinst Hh.
  assert (node_life_inv (Off fs, [])) as H0 by (split; [done|by left]).
  apply (node_life_steps _ _ H0) in Hsteps as [_ Hi]. cbn in Hi. rewrite Hinst in Hi. destruct Hi as [Hex _].
  destruct (exclusion_inv_contains _ _ _ _ _ (Hex Hh) Hci) as (Hc & Hi & Hx). split; [done|]. intros n ev. by apply candidate_excluded.
Qed.

(** No health event that restores a journal. *)
Definition no_repair (op : ReadinessOp) : Prop := op ≠ SetExclusionHealthy true ∧ op ≠ SetDeliveryHealthy true.

Lemma unhealthy_never_ready ops s :
  Forall no_repair ops → exclusion_healthy s && delivery_healthy s = false → is_ready (run_updates ops s).2 = false.
Proof.
  intros Hops Hs. assert (exclusion_healthy (run_updates ops s).2 && delivery_healthy (run_updates ops s).2 = false) as H'.
  { revert s Hs. induction Hops as [|op ops [H1 H2] _ IH]; intros s Hs; [done|]. cbn.
    specialize (IH (mutate op s)). destruct (run_updates ops (mutate op s)) as [ts s2]. apply IH.
    destruct op as [| | | |[]|[]|]; cbn; rewrite ?andb_false_r; done. }
  destruct (run_updates ops s) as [ts x]. destruct x as [[] [] [] [] ? ? ? ?]; done.
Qed.

(** The bridge starts closed: a started bridge installed exactly its configured
    collections; it has an egress path exactly when both journals opened, and
    otherwise no event short of a repair makes it ready. When the exclusion journal
    did not open, every exclusion of a mapped collection is refused and nothing is
    written; collections that are not mapped never touch the journals. A second
    start with the same collections finds the same journals, one with others is
    refused, and neither changes anything. *)
Theorem bridge_start_exact `{AsyncNats} config node_id h start h' :
  ho_installed h = None → try_spawn config node_id true h = (Ok start, h') →
  let mapped : gset string := list_to_set (collection <$> cfg_mappings config) in
  ∃ exclusion delivery, ho_installed h' = Some (mkBridgeInstalled mapped exclusion delivery) ∧
    (bs_egress start = true ↔ is_Some exclusion ∧ is_Some delivery) ∧
    (bs_egress start = false → ∀ ops, Forall no_repair ops → is_ready (run_updates ops (bs_readiness start)).2 = false) ∧
    (exclusion = None → ∀ c i, c ∈ mapped → host_exclude c i h' = (Err Unavailable, h')) ∧
    (∀ c i, c ∉ mapped → host_exclude c i h' = (Ok tt, h')) ∧
    ∀ others blocking, install_bridge_ledger others blocking h' =
      ((if bool_decide (mapped = list_to_set others) then Ok (mkHealth (facade_healthy exclusion) (facade_healthy delivery)) else Err Corrupt), h').
Proof.
  intros Hnone Hrun mapped. unfold try_spawn in Hrun. destruct (validate_bridge_node_identity node_id) as [origin|]; [|done].
  unfold install_bridge_ledger in Hrun. rewrite Hnone in Hrun. cbn [negb] in Hrun.
  destruct (bridge_ledger_open (ho_fs h)) as [opened fs]. fold mapped in Hrun.
  destruct (match opened with Ok _ => _ | Err _ => _ end) as [ex del]. cbn in Hrun. injection Hrun as <- <-. exists ex, del.
  split_and!; [done|..].
  - cbn. destruct ex, del; cbn; split; try done; intros [[? ?] [? ?]]; done.
  - intros Heg ops Hops. apply unhealthy_never_ready; [done|]. cbn in *. destruct ex as [we|], del as [wd|]; cbn in *; try done.
    by rewrite andb_false_r.
  - intros -> c i Hc. unfold host_exclude. cbn. by rewrite bool_decide_true.
  - intros c i Hc. unfold host_exclude. cbn. by rewrite bool_decide_false.
  - intros others blocking. unfold install_bridge_ledger. cbn. by destruct (bool_decide _).
Qed.

End theorems.

(** ** Witnesses

    A node that excludes a document, reserves another, crashes and starts again,
    on a disk that fails the first open of the second life. *)

#[local] Existing Instances toy_sha toy_cipher toy_docs toy_doc_store toy_nats.

Definition life_excluded : Host :=
  (host_exclude "frames" "one" (install_bridge_ledger ["frames"%string] true (mkHost None empty_dir)).2).2.

Definition life_reserved : Host := (host_deliver (document_digest "frames" "two") Reserved life_excluded).2.

Definition life_down : Fs := set_faults [Some O] (ho_fs life_reserved).

(** The first start fails to open its journals; the node is restarted. *)
Definition life_failed : Host := (install_bridge_ledger ["frames"%string] true (mkHost None life_down)).2.

Definition life_again : Host := (install_bridge_ledger ["frames"%string] true (mkHost None (set_faults [] (ho_fs life_failed)))).2.

Lemma empty_dir_wf : fs_wf empty_dir.
Proof. split; cbn; intros *; by rewrite lookup_empty. Qed.

Lemma life_run : rtc node_step (Off empty_dir, []) (Up life_again, [("frames"%string, "one"%string)]).
Proof.
  eapply rtc_l; [apply ns_start|]. eapply rtc_l; [eapply (ns_install _ _ ["frames"%string] true), surjective_pairing|].
  eapply rtc_l; [eapply (ns_exclude _ _ "frames" "one"), surjective_pairing|]. fold life_excluded.
  match goal with |- context [if ?b then _ else _] => replace b with true by (vm_compute; reflexivity) end.
  eapply rtc_l; [eapply (ns_deliver _ _ (document_digest "frames" "two") Reserved), surjective_pairing|]. fold life_reserved.
  eapply rtc_l; [apply (ns_crash _ _ [Some O])|]. fold life_down. eapply rtc_l; [apply ns_start|].
  eapply rtc_l; [eapply (ns_install _ _ ["frames"%string] true), surjective_pairing|]. fold life_failed.
  eapply rtc_l; [apply (ns_crash _ _ [])|]. eapply rtc_l; [apply ns_start|].
  eapply rtc_l; [eapply (ns_install _ _ ["frames"%string] true), surjective_pairing|]. apply rtc_refl.
Qed.

Definition life_worker : Worker :=
  match ho_installed life_again with Some (mkBridgeInstalled _ (Some w) _) => w | _ => toy_exclusion.1 end.

Definition life_delivery : option Worker := match ho_installed life_again with Some i => in_delivery i | None => None end.

Lemma exclusions_survive_restarts_witness :
  ho_installed life_failed = Some (mkBridgeInstalled {["frames"%string]} None None) ∧
  (contains (document_digest "frames" "one") life_worker (ho_fs life_again)).1.1 = Ok true.
Proof.
  split; [vm_compute; reflexivity|].
  refine (proj1 (exclusions_survive_restarts empty_dir life_again [("frames"%string, "one"%string)] {["frames"%string]}
    life_worker life_delivery "frames" "one" empty_dir_wf life_run _ _ _)).
  - by apply list_elem_of_singleton.
  - vm_compute. reflexivity.
  - vm_compute. reflexivity.
Defined.

Definition start_config : EnabledBridgeConfig :=
  mkEnabled (toy_addr "alice") (mkEndpoint Nats "broker" 4222 true) [mkMapping "peat.frames" "frames"].

Lemma bridge_start_exact_witness :
  is_ok (try_spawn start_config "node-a" true (mkHost None (set_faults [Some O] empty_dir))).1 = true ∧
  (host_exclude "frames" "one" (try_spawn start_config "node-a" true (mkHost None (set_faults [Some O] empty_dir))).2).1 = Err Unavailable.
Proof.
  destruct (try_spawn start_config "node-a" true (mkHost None (set_faults [Some O] empty_dir))) as [r h'] eqn:Hrun.
  destruct r as [start|]; [|apply (f_equal fst) in Hrun; vm_compute in Hrun; discriminate Hrun]. split; [reflexivity|].
  destruct (bridge_start_exact start_config "node-a" (mkHost None (set_faults [Some O] empty_dir)) start h' eq_refl Hrun)
    as (ex & del & Hinst & _ & _ & Hex & _). cbn [snd]. rewrite Hex; [reflexivity| |cbn; set_solver].
  apply (f_equal snd) in Hrun. cbn [snd] in Hrun. rewrite <-Hrun in Hinst. vm_compute in Hinst. by injection Hinst as <- <-.
Defined.
