(* ===== verification/Anchor.v ===== *)
(** * The journals' directory

    Model of [AnchoredDir::open] in [src/nats_bridge/ledger.rs] on Unix: the walk
    from the root to the data directory, one [openat] without following links per
    component, and the creation of the journals' directory in it. The file system
    is a table of inodes with links as inodes of their own; which calls the system
    denies is an input, and so is what other processes do to the file system
    between the failed open of the journals' directory and its creation. *)

From S2P Require Import Prelude Paths.
From Stdlib Require Import Strings.Ascii.

Definition LEDGER_DIR : string := "nats-bridge-ledger-v1".

Inductive Inode := IDir (entries : gmap string nat) | IFile | ILink (target : string).

Record Tree := mkTree { inodes : gmap nat Inode; next_inode : nat }.

(** The root directory's inode. *)
Definition ROOT : nat := 0.

Definition is_directory (t : Tree) (i : nat) : bool := match inodes t !! i with Some (IDir _) => true | _ => false end.

Definition entry (t : Tree) (dir : nat) (name : string) : option nat :=
  match inodes t !! dir with Some (IDir entries) => entries !! name | _ => None end.

(** Permissions, and whether [mkdirat] has another reason to fail. *)
Record Denials := mkDenials { root_denied : bool; open_denied : nat → string → bool; mkdir_denied : bool }.

(** [openat] with [O_DIRECTORY | O_NOFOLLOW] *)
Definition openat_dir (dn : Denials) (t : Tree) (dir : nat) (name : string) : option nat :=
  if open_denied dn dir name then None
  else i ← entry t dir name; if is_directory t i then Some i else None.

Inductive MkdirError := EEXIST | EOther.

(** [mkdirat] *)
Definition mkdirat (dn : Denials) (t : Tree) (dir : nat) (name : string) : result MkdirError Tree :=
  match inodes t !! dir with
  | Some (IDir entries) =>
      match entries !! name with
      | Some _ => Err EEXIST
      | None =>
          if mkdir_denied dn then Err EOther
          else Ok (mkTree (<[dir := IDir (<[name := next_inode t]> entries)]> (<[next_inode t := IDir ∅]> (inodes t))) (S (next_inode t)))
      end
  | _ => Err EOther
  end.

(** [CString::new] *)
Definition has_nul (s : string) : bool := str_contains s "000"%char.

(** The loop over the components: those that are not [Normal] are skipped. *)
Fixpoint anchored_walk (dn : Denials) (t : Tree) (current : nat) (cs : list Component) : option nat :=
  match cs with
  | [] => Some current
  | Normal name :: cs =>
      if has_nul name then None
      else next ← openat_dir dn t current name; anchored_walk dn t next cs
  | _ :: cs => anchored_walk dn t current cs
  end.

(** The absolute path; [cwd] is [None] when it cannot be read. *)
Definition absolute_path (cwd : option string) (data_dir : string) : option string :=
  if is_absolute data_dir then Some data_dir else (λ c, path_join c data_dir) <$> cwd.

(** [AnchoredDir::open]; [None] is [Unavailable]. *)
Definition anchored_dir_open (dn : Denials) (cwd : option string) (between : Tree → Tree) (data_dir : string) (t : Tree) : option nat * Tree :=
  match absolute_path cwd data_dir with
  | None => (None, t)
  | Some absolute =>
      if root_denied dn then (None, t)
      else
        match anchored_walk dn t ROOT (components absolute) with
        | None => (None, t)
        | Some current =>
            match openat_dir dn t current LEDGER_DIR with
            | Some child => (Some child, t)
            | None =>
                let t := between t in
                match mkdirat dn t current LEDGER_DIR with
                | Ok t => (openat_dir dn t current LEDGER_DIR, t)
                | Err EEXIST => (openat_dir dn t current LEDGER_DIR, t)
                | Err EOther => (None, t)
                end
            end
        end
  end.

(** ** Reference: what the path names *)

(** The system's resolution of a path without links: the directories from the
    current one up to the root, where [..] goes one up. *)
Fixpoint resolve (t : Tree) (stack : list nat) (cs : list Component) : option nat :=
  match cs, stack with
  | _, [] => None
  | [], current :: _ => Some current
  | Normal name :: cs, current :: _ => i ← entry t current name; if is_directory t i then resolve t (i :: stack) cs else None
  | ParentDir :: cs, _ :: ((_ :: _) as up) => resolve t up cs
  | _ :: cs, _ => resolve t stack cs
  end.

(** Every component names a directory that is not a link. *)
Inductive linkless (t : Tree) : nat → list Component → nat → Prop :=
| linkless_end d : linkless t d [] d
| linkless_normal d name i cs e : entry t d name = Some i → is_directory t i = true → linkless t i cs e → linkless t d (Normal name :: cs) e
| linkless_other d c cs e : (∀ name, c ≠ Normal name) → linkless t d cs e → linkless t d (c :: cs) e.

(** ** Lemmas *)

Lemma openat_dir_Some dn t d name i :
  openat_dir dn t d name = Some i → open_denied dn d name = false ∧ entry t d name = Some i ∧ is_directory t i = true.
Proof. unfold openat_dir. destruct (open_denied dn d name), (entry t d name) as [j|]; cbn; try done. destruct (is_directory t j) eqn:Hd; naive_solver. Qed.

Lemma openat_dir_entry dn t d name i :
  open_denied dn d name = false → entry t d name = Some i → is_directory t i = true → openat_dir dn t d name = Some i.
Proof. intros Hd He Hi. unfold openat_dir. rewrite Hd, He. cbn. by rewrite Hi. Qed.

Lemma walk_linkless dn t d cs e : anchored_walk dn t d cs = Some e → linkless t d cs e.
Proof.
  revert d. induction cs as [|c cs IH]; intros d; cbn; [intros [= <-]; constructor|].
  destruct c as [| | |name]; try (intros Hw; apply linkless_other; [done|by apply IH]).
  destruct (has_nul name); [done|]. destruct (openat_dir dn t d name) as [i|] eqn:Ho; [|done]. cbn.
  apply openat_dir_Some in Ho as (_ & He & Hi). intros Hw. eapply linkless_normal; eauto.
Qed.

Lemma linkless_walk dn t d cs e :
  (∀ d name, open_denied dn d name = false) → (∀ name, Normal name ∈ cs → has_nul name = false) → linkless t d cs e → anchored_walk dn t d cs = Some e.
Proof.
  intros Hd Hn. induction 1 as [|d name i cs e He Hi Hl IH|d c cs e Hc Hl IH]; cbn.
  - done.
  - rewrite Hn by set_solver. rewrite (openat_dir_entry dn t d name i) by done. apply IH. intros name' Hin. apply Hn. set_solver.
  - rewrite <-IH; [|intros name' Hin; apply Hn; set_solver]. by destruct c; [..|by destruct (Hc s)].
Qed.

Lemma linkless_resolve t d cs e stack : ParentDir ∉ cs → linkless t d cs e → resolve t (d :: stack) cs = Some e.
Proof.
  intros Hp Hl. revert stack. induction Hl as [d|d name i cs e He Hi Hl IH|d c cs e Hc Hl IH]; intros stack; cbn; [done| |].
  - rewrite He. cbn. rewrite Hi. apply IH. set_solver.
  - destruct c as [| | |name]; [apply IH; set_solver|apply IH; set_solver|set_solver|by destruct (Hc name)].
Qed.

(** Names on the way do not change what else a directory holds. *)
Lemma mkdirat_Ok dn t d name t' :
  mkdirat dn t d name = Ok t' → inodes t !! next_inode t = None →
  entry t d name = None ∧ entry t' d name = Some (next_inode t) ∧ is_directory t' (next_inode t) = true ∧
  ∀ d' name', (d', name') ≠ (d, name) → d' ≠ next_inode t → entry t' d' name' = entry t d' name'.
Proof.
  unfold mkdirat, entry, is_directory. intros Hm Hf. destruct (inodes t !! d) as [[entries| |]|] eqn:Hd; try done.
  destruct (entries !! name) as [j|] eqn:Hn; [done|]. destruct (mkdir_denied dn); [done|]. injection Hm as <-. cbn.
  assert (d ≠ next_inode t) as Hne by congruence. split_and!; [done| | |].
  - by rewrite lookup_insert_eq, lookup_insert_eq.
  - by rewrite lookup_insert_ne, lookup_insert_eq.
  - intros d' name' Hp Hd'. destruct (decide (d' = d)) as [->|Hd2]; [|by rewrite !lookup_insert_ne by done].
    rewrite lookup_insert_eq, Hd. rewrite lookup_insert_ne; [done|]. naive_solver.
Qed.

(** ** Properties *)


(** The directory is found or made: when nothing is denied and nobody interferes, the
    data directory's components are directories and its entry of the journals' name is
    absent or a directory, the open succeeds, and again on the tree it leaves, with the
    same directory. *)
Theorem journals_dir_found_or_made cwd data_dir absolute d t :
  let dn := mkDenials false (λ _ _, false) false in
  absolute_path cwd data_dir = Some absolute → (∀ name, Normal name ∈ components absolute → has_nul name = false) →
  linkless t ROOT (components absolute) d → is_directory t d = true → inodes t !! next_inode t = None →
  (∀ i, entry t d LEDGER_DIR = Some i → is_directory t i = true) →
  ∃ i t', anchored_dir_open dn cwd id data_dir t = (Some i, t') ∧ entry t' d LEDGER_DIR = Some i ∧
    (entry t d LEDGER_DIR = Some i ∧ t' = t ∨ entry t d LEDGER_DIR = None).
Proof.
  intros dn Ha Hn Hl Hd Hf He. unfold anchored_dir_open. rewrite Ha. cbn [root_denied dn]. rewrite (linkless_walk dn t ROOT _ d) by done.
  destruct (entry t d LEDGER_DIR) as [i|] eqn:Hentry.
  - rewrite (openat_dir_entry dn t d LEDGER_DIR i) by auto. exists i, t. auto.
  - assert (openat_dir dn t d LEDGER_DIR = None) as -> by (unfold openat_dir; cbn; by rewrite Hentry). cbn [id].
    destruct (mkdirat dn t d LEDGER_DIR) as [t2|e] eqn:Hm.
    2: { unfold mkdirat, entry, is_directory in *. destruct (inodes t !! d) as [[es| |]|]; try done. by rewrite Hentry in Hm. }
    destruct (mkdirat_Ok _ _ _ _ _ Hm Hf) as (_ & He2 & Hi2 & _). exists (next_inode t), t2.
    rewrite (openat_dir_entry dn t2 d LEDGER_DIR (next_inode t)) by done. auto.
Qed.

(** A [..] is skipped instead of followed: with [/a/../b] as data directory the
    journals go to [/a/b], where the system takes the path for [/b], the directory
    that holds the rest of the node's data. *)
Theorem dotdot_is_skipped t x i j :
  entry t ROOT "a" = Some x → is_directory t x = true → entry t x "b" = Some i → is_directory t i = true →
  entry t ROOT "b" = Some j → is_directory t j = true →
  anchored_walk (mkDenials false (λ _ _, false) false) t ROOT (components "/a/../b") = Some i ∧
  resolve t [ROOT] (components "/a/../b") = Some j.
Proof.
  intros Hx Dx Hi Di Hj Dj. change (components "/a/../b") with [RootDir; Normal "a"; ParentDir; Normal "b"]. cbn. unfold openat_dir. cbn.
  rewrite Hx. cbn. rewrite Dx. cbn. rewrite Hi, Hj. cbn. by rewrite Di, Dj.
Qed.

(** ** Witnesses *)

(** [/data] a directory, [/link] a link to it, [/a/b] and [/b] directories. *)
Definition toy_tree : Tree :=
  mkTree {[ 0%nat := IDir {["data"%string := 1%nat; "link"%string := 2%nat; "a"%string := 3%nat; "b"%string := 5%nat]};
            1%nat := IDir ∅; 2%nat := ILink "/data"; 3%nat := IDir {["b"%string := 4%nat]}; 4%nat := IDir ∅; 5%nat := IDir ∅ ]} 6.

Abbreviation allowed := (mkDenials false (λ _ _, false) false).


Lemma journals_dir_found_or_made_witness :
  ∃ i t', anchored_dir_open allowed (Some "/"%string) id "data" toy_tree = (Some i, t') ∧ entry t' 1 LEDGER_DIR = Some i.
Proof.
  destruct (journals_dir_found_or_made (Some "/"%string) "data" "/data" 1 toy_tree) as (i & t' & Ho & He & _).
  - vm_compute. reflexivity.
  - intros name Hin. apply elem_of_cons in Hin as [?|Hin]; [done|]. apply elem_of_cons in Hin as [[= ->]|Hin]; [reflexivity|by apply elem_of_nil in Hin].
  - apply linkless_other; [done|]. eapply linkless_normal; [reflexivity|reflexivity|constructor].
  - reflexivity.
  - reflexivity.
  - intros i Hi. discriminate.
  - exists i, t'. split; [exact Ho|exact He].
Defined.

Lemma dotdot_is_skipped_witness :
  anchored_walk allowed toy_tree ROOT (components "/a/../b") = Some 4%nat ∧ resolve toy_tree [ROOT] (components "/a/../b") = Some 5%nat.
Proof. apply (dotdot_is_skipped toy_tree 3 4 5); reflexivity. Defined.
