(* ===== verification/Watcher.v ===== *)
(** * The agent watcher

    Model of [src/watcher.rs]: the client's TLS decision, the three polls of the
    local agent and the documents they write. Reading files, parsing PEM and
    building the client are parameters, as is the agent's answer to each call; a
    document is put through [put], which may fail. *)

From S2P Require Import Prelude Json.

(** ** The client *)

Record TlsConfig := mkTls { tls_cert : option string; tls_key : option string; tls_ca : option string }.

Definition is_enabled (tls : TlsConfig) : bool := bool_decide (is_Some (tls_cert tls)) && bool_decide (is_Some (tls_key tls)).

Inductive AgentClient := H2cClient | MtlsClient (identity_pem : bytes) (ca_pem : option bytes).

Inductive ClientError :=
| ReadCert | ReadKey | BadIdentity | ReadCa | BadCa | Incoherent (has_cert has_key has_ca : bool) | BuildFailed.

(** [std::fs::read], [Identity::from_pem], [Certificate::from_pem] and the
    builder's own check. *)
Record TlsLibrary := mkTlsLibrary {
  tl_read : string → option bytes;
  tl_identity : bytes → bool;
  tl_certificate : bytes → bool;
  tl_builds : AgentClient → bool;
}.

Definition build_client (lib : TlsLibrary) (tls : TlsConfig) : result ClientError AgentClient :=
  let? client :=
    (match tls_cert tls, tls_key tls, tls_ca tls with
     | None, None, None => Ok H2cClient
     | Some cert_path, Some key_path, ca =>
         let? cert_pem := ok_or (tl_read lib cert_path) ReadCert in
         let? key_pem := ok_or (tl_read lib key_path) ReadKey in
         let identity_pem := cert_pem ++ key_pem in
         if negb (tl_identity lib identity_pem) then Err BadIdentity
         else
           match ca with
           | None => Ok (MtlsClient identity_pem None)
           | Some ca_path =>
               let? ca_pem := ok_or (tl_read lib ca_path) ReadCa in
               if negb (tl_certificate lib ca_pem) then Err BadCa else Ok (MtlsClient identity_pem (Some ca_pem))
           end
     | cert, key, ca => Err (Incoherent (bool_decide (is_Some cert)) (bool_decide (is_Some key)) (bool_decide (is_Some ca)))
     end) in
  if tl_builds lib client then Ok client else Err BuildFailed.

(** ** The polls *)

(** What a call to the agent comes back with. *)
Inductive Reply (T : Type) := SendFailed | NotSuccess | BadBody | Body (t : T).
Arguments SendFailed {T}. Arguments NotSuccess {T}. Arguments BadBody {T}. Arguments Body {T}.

Record AgentStatus := mkAgentStatus {
  as_version : option string; as_architecture : option string; as_classification : option string;
  as_k8s_version : option string; as_k8s_node_status : option string; as_zarf_version : option string; as_run_mode : option string;
}.

Section polls.
Context `{J : JsonLib}.
Abbreviation value := (Value JNumber).

Record ZarfPackage := mkZarfPackage {
  zp_name : option string; zp_version : option string; zp_status : option Z; zp_flavor : option string;
  zp_namespace_override : option string; zp_annotations : list (string * value);
}.

Record PackageTag := mkTag {
  pt_reference : option string; pt_arch : option string; pt_version : option string; pt_total_bytes : option Z;
  pt_pull_status : option (option Z);
}.

Record RegistryPackage := mkRegistryPackage { rp_package_name : option string; rp_tags : option (list PackageTag) }.
Record RegistryInfo := mkRegistryInfo { ri_host : option string; ri_packages : option (list RegistryPackage) }.

Abbreviation ostr := (json_option VString).

Definition status_document (agent_id : string) (now : Z) (s : AgentStatus) : value := VObject [
  ("agent_id"%string, VString agent_id); ("node_type"%string, VString "uds-remote-agent"); ("version"%string, ostr (as_version s));
  ("architecture"%string, ostr (as_architecture s)); ("classification"%string, ostr (as_classification s));
  ("k8s_version"%string, ostr (as_k8s_version s)); ("k8s_node_status"%string, ostr (as_k8s_node_status s));
  ("zarf_version"%string, ostr (as_zarf_version s)); ("run_mode"%string, ostr (as_run_mode s)); ("last_seen"%string, json_int now) ].

Definition package_key (agent_id : string) (pkg : ZarfPackage) : string := agent_id +:+ ":" +:+ default "unknown"%string (zp_name pkg).

Definition package_document (agent_id : string) (now : Z) (pkg : ZarfPackage) : value := VObject [
  ("agent_id"%string, VString agent_id); ("package"%string, VString (default "unknown"%string (zp_name pkg)));
  ("version"%string, ostr (zp_version pkg)); ("status"%string, json_option json_int (zp_status pkg)); ("flavor"%string, ostr (zp_flavor pkg));
  ("namespace_override"%string, ostr (zp_namespace_override pkg)); ("annotations"%string, VObject (zp_annotations pkg));
  ("last_seen"%string, json_int now) ].

Definition tag_key (agent_id : string) (tag : PackageTag) : string :=
  agent_id +:+ ":" +:+ default "unknown"%string (pt_reference tag) +:+ "-" +:+ default "unknown"%string (pt_arch tag).

Definition tag_document (agent_id : string) (now : Z) (registry : RegistryInfo) (pkg : RegistryPackage) (tag : PackageTag) : value := VObject [
  ("agent_id"%string, VString agent_id); ("registry"%string, ostr (ri_host registry)); ("package"%string, ostr (rp_package_name pkg));
  ("reference"%string, VString (default "unknown"%string (pt_reference tag))); ("arch"%string, VString (default "unknown"%string (pt_arch tag)));
  ("version"%string, ostr (pt_version tag)); ("total_bytes"%string, json_option json_int (pt_total_bytes tag));
  ("pull_status"%string, json_int (default 0 (p ← pt_pull_status tag; p))); ("last_seen"%string, json_int now) ].

Section node.
Context {S : Type} (put : string → string → string → S → bool * S).

(** Documents put one after the other; the first failure ends the poll. *)
Fixpoint put_all (collection : string) (docs : list (string * value)) (s : S) : bool * S :=
  match docs with
  | [] => (true, s)
  | (key, doc) :: docs =>
      let '(ok, s) := put collection key (to_string doc) s in
      if ok then put_all collection docs s else (false, s)
  end.

(** A poll: the answer has to be a success with a body of the right shape. *)
Definition poll {T} (collection : string) (documents : T → list (string * value)) (reply : Reply T) (s : S) : bool * S :=
  match reply with Body t => put_all collection (documents t) s | _ => (false, s) end.

Definition poll_status (agent_id : string) (now : Z) : Reply AgentStatus → S → bool * S :=
  poll "nodes" (λ s, [(agent_id, status_document agent_id now s)]).

(** [now k] is the clock when document [k] of the poll is built. *)
Definition package_documents (agent_id : string) (now : nat → Z) (packages : option (list ZarfPackage)) : list (string * value) :=
  imap (λ k pkg, (package_key agent_id pkg, package_document agent_id (now k) pkg)) (default [] packages).

Definition poll_packages (agent_id : string) (now : nat → Z) : Reply (option (list ZarfPackage)) → S → bool * S :=
  poll "deployments" (package_documents agent_id now).

(** The three nested loops over registries, packages and tags. *)
Definition all_tags (registries : option (list RegistryInfo)) : list (RegistryInfo * RegistryPackage * PackageTag) :=
  registry ← default [] registries; pkg ← default [] (ri_packages registry); tag ← default [] (rp_tags pkg); [(registry, pkg, tag)].

Definition tag_documents (agent_id : string) (now : nat → Z) (registries : option (list RegistryInfo)) : list (string * value) :=
  imap (λ k '(registry, pkg, tag), (tag_key agent_id tag, tag_document agent_id (now k) registry pkg tag)) (all_tags registries).

Definition poll_pulled_packages (agent_id : string) (now : nat → Z) : Reply (option (list RegistryInfo)) → S → bool * S :=
  poll "packages" (tag_documents agent_id now).

(** One tick of [run]: a failed poll is logged and the next one runs all the same. *)
Definition watcher_tick (agent_id : string) (now : Z) (now_packages now_tags : nat → Z) (status : Reply AgentStatus)
    (packages : Reply (option (list ZarfPackage))) (pulled : Reply (option (list RegistryInfo))) (s : S) : S :=
  let s := (poll_status agent_id now status s).2 in
  let s := (poll_packages agent_id now_packages packages s).2 in
  (poll_pulled_packages agent_id now_tags pulled s).2.

End node.
End polls.

(** ** Properties *)

(** No silent downgrade: the client speaks plain HTTP/2 only when neither
    certificate, key nor CA is configured; a client with an identity presents the
    configured certificate followed by the configured key, and verifies against
    the configured CA; every partial configuration is an error naming what is
    there. *)
Theorem client_never_downgrades lib tls client :
  (build_client lib tls = Ok client →
   match client with
   | H2cClient => tls = mkTls None None None
   | MtlsClient identity ca =>
       ∃ cert key cert_pem key_pem, tls_cert tls = Some cert ∧ tls_key tls = Some key ∧ tl_read lib cert = Some cert_pem ∧
         tl_read lib key = Some key_pem ∧ identity = cert_pem ++ key_pem ∧ tl_identity lib identity = true ∧
         match tls_ca tls with Some path => ∃ pem, tl_read lib path = Some pem ∧ ca = Some pem ∧ tl_certificate lib pem = true | None => ca = None end
   end) ∧
  (is_enabled tls = false → tls ≠ mkTls None None None →
   build_client lib tls = Err (Incoherent (bool_decide (is_Some (tls_cert tls))) (bool_decide (is_Some (tls_key tls))) (bool_decide (is_Some (tls_ca tls))))).
Proof.
  destruct tls as [[cert|] [key|] [ca|]]; unfold build_client, is_enabled; cbn; (split; [intros Hrun|intros He Hne; try done]).
  all: try (destruct (tl_read lib cert) as [cp|] eqn:Hc; cbn in Hrun; [|done]; destruct (tl_read lib key) as [kp|] eqn:Hk; cbn in Hrun; [|done];
            destruct (tl_identity lib (cp ++ kp)) eqn:Hi; cbn in Hrun; [|done]).
  all: try done.
  - destruct (tl_read lib ca) as [pem|] eqn:Ha; cbn in Hrun; [|done]. destruct (tl_certificate lib pem) eqn:Hcert; cbn in Hrun; [|done].
    destruct (tl_builds lib _); [|done]. injection Hrun as <-. exists cert, key, cp, kp. split_and!; eauto.
  - destruct (tl_builds lib _); [|done]. injection Hrun as <-. exists cert, key, cp, kp. by split_and!.
  - destruct (tl_builds lib _); [|done]. by injection Hrun as <-.
Qed.

Section tick.
Context `{J : JsonLib} (broken : string → string → bool).

(** A store that refuses some keys. *)
Definition map_put (collection key text : string) (m : gmap (string * string) string) : bool * gmap (string * string) string :=
  if broken collection key then (false, m) else (true, <[(collection, key) := text]> m).

(** The documents a poll gets to write: those before the first refused key. *)
Definition accepted (collection : string) (docs : list (string * Value JNumber)) : list (string * Value JNumber) :=
  take (default (length docs) (fst <$> list_find (λ d, broken collection d.1 = true) docs)) docs.

Definition served {T} (documents : T → list (string * Value JNumber)) (reply : Reply T) : list (string * Value JNumber) :=
  match reply with Body t => documents t | _ => [] end.

(** The newest accepted text for a key. *)
Definition newest (collection key : string) (docs : list (string * Value JNumber)) : option string :=
  last ((λ d, to_string d.2) <$> filter (λ d, d.1 = key) (accepted collection docs)).

Lemma accepted_cons collection d docs :
  accepted collection (d :: docs) = if broken collection d.1 then [] else d :: accepted collection docs.
Proof.
  unfold accepted. cbn. destruct (broken collection d.1) eqn:Hb; [by rewrite decide_True|]. rewrite decide_False by done.
  destruct (list_find _ docs) as [[k x]|]; done.
Qed.

Lemma put_all_lookup collection docs m c k :
  (put_all map_put collection docs m).2 !! (c, k) =
  if bool_decide (c = collection) then from_option Some (m !! (c, k)) (newest collection k docs) else m !! (c, k).
Proof.
  revert m. induction docs as [|[key doc] docs IH]; intros m; cbn [put_all].
  { unfold newest, accepted. cbn. by case_bool_decide. }
  unfold map_put at 1. unfold newest. rewrite accepted_cons. cbn [fst]. destruct (broken collection key) eqn:Hb.
  { cbn. by case_bool_decide. }
  rewrite IH. case_bool_decide as Hc; [subst c|by rewrite lookup_insert_ne by naive_solver].
  destruct (decide (key = k)) as [->|Hne].
  - rewrite filter_cons_True, lookup_insert_eq by done. rewrite fmap_cons, last_cons. unfold newest. by destruct (last _).
  - rewrite filter_cons_False, lookup_insert_ne by naive_solver. done.
Qed.

Lemma poll_lookup {T} collection documents (reply : Reply T) m c k :
  (poll map_put collection documents reply m).2 !! (c, k) =
  if bool_decide (c = collection) then from_option Some (m !! (c, k)) (newest collection k (served documents reply)) else m !! (c, k).
Proof. unfold poll. destruct reply; [cbn; by case_bool_decide..|apply put_all_lookup]. Qed.

(** A tick writes what the agent reported and nothing else: whatever fails, each of
    the three collections gets its own poll's documents up to the first that the
    store refuses, under the agent's keys, later ones of the same key replacing
    earlier ones; a poll that fails leaves its collection alone and does not stop
    the others, and no other collection is touched. *)
Theorem watcher_tick_exact agent_id now now_packages now_tags status packages pulled m c k :
  watcher_tick map_put agent_id now now_packages now_tags status packages pulled m !! (c, k) =
  from_option Some (m !! (c, k))
    (if bool_decide (c = "nodes"%string) then newest c k (served (λ s, [(agent_id, status_document agent_id now s)]) status)
     else if bool_decide (c = "deployments"%string) then newest c k (served (package_documents agent_id now_packages) packages)
     else if bool_decide (c = "packages"%string) then newest c k (served (tag_documents agent_id now_tags) pulled)
     else None).
Proof.
  unfold watcher_tick, poll_status, poll_packages, poll_pulled_packages. rewrite !poll_lookup.
  destruct (decide (c = "nodes"%string)) as [->|]; [done|]. destruct (decide (c = "deployments"%string)) as [->|]; [done|].
  destruct (decide (c = "packages"%string)) as [->|]; [done|]. by rewrite !bool_decide_false.
Qed.

End tick.
