(* ===== verification/Process.v ===== *)
(** * The process

    Model of [src/main.rs]: the environment variables treated as unset, start-up
    in its order with the checks that precede every effect, the redacted
    configuration dump, the initial peers, and the stop of server, bridge and node
    with the process's result. clap has parsed the arguments; the settings [main]
    only copies are one opaque value. The outcome of [SidecarNode::new], of the
    directory call and of [start_sync] are inputs. *)

From S2P Require Import Prelude Paths AttachConfig Journal LedgerWorker Readiness NatsConfig Egress Crypto Shutdown Peers Install Watcher.
From Stdlib Require Import Strings.Ascii.

(** [empty_prefixed_env_keys] *)
Definition empty_prefixed_env_keys (vars : list (string * string)) (prefix : string) : list string :=
  (filter (λ kv, starts_with kv.1 prefix && is_empty_str kv.2 = true) vars).*1.

(** The environment after [remove_var] on each of them. *)
Definition normalized_env (vars : list (string * string)) : list (string * string) :=
  let drop := empty_prefixed_env_keys vars "PEAT_NODE_" in filter (λ kv, kv.1 ∉ drop) vars.

Inductive CliCommand := DeriveId (shared_key node_id : string).

Section args.
Context {Settings : Type}.

Record Args := mkArgs {
  ar_print_config : bool;
  ar_command : option CliCommand;
  ar_listen : string;
  ar_rpc_default_timeout_secs : Z;
  ar_rpc_max_timeout_secs : Z;
  ar_allocator_stats_interval_secs : Z;
  ar_data_dir : string;
  ar_node_id : option string;
  ar_shared_key : string;
  ar_encryption_key : option string;
  ar_nats_url : option string;
  ar_nats_mapping : list string;
  ar_nats_shutdown_timeout_secs : Z;
  ar_peer : list string;
  ar_auto_sync : bool;
  ar_agent_addr : option string;
  ar_agent_tls : TlsConfig;
  ar_attachment_root : list string;
  ar_attachment_inbox : option string;
  ar_attachment_limits : AttachmentConfig;
  ar_settings : Settings;
}.

(** [redacted_resolved_args] *)
Definition redacted_resolved_args (a : Args) (bridge_config : BridgeConfig) : Args :=
  mkArgs (ar_print_config a) (ar_command a) (ar_listen a) (ar_rpc_default_timeout_secs a) (ar_rpc_max_timeout_secs a)
    (ar_allocator_stats_interval_secs a) (ar_data_dir a) (ar_node_id a)
    "<redacted>"
    (match ar_encryption_key a with Some _ => Some "<redacted>"%string | None => None end)
    (match bridge_config with Enabled config => Some (endpoint_display (cfg_endpoint config)) | Disabled => None end)
    (ar_nats_mapping a) (ar_nats_shutdown_timeout_secs a) (ar_peer a) (ar_auto_sync a) (ar_agent_addr a) (ar_agent_tls a)
    (ar_attachment_root a) (ar_attachment_inbox a) (ar_attachment_limits a) (ar_settings a).

(** What the process does to the world, in order. *)
Inductive Effect :=
| PrintedId (id : string)
| AllocatorStats
| LoggedConfig (a : Args)
| CreatedDataDir (dir : string)
| StartedNode (node_id : string) (seed : option bytes) (encryption_key : option string) (attachments : AttachmentConfig)
| StartedBridge (start : BridgeStart)
| StartedOutbox (roots : gmap string string) (poll_secs : Z)
| IgnoredPeer (spec : string)
| DialledPeer (spec : string) (connected : bool)
| StartedSync
| StartedAgentWatcher (addr : string) (tls : TlsConfig).

Inductive MainError :=
| MeIdentity | MeTimeouts | MeBridgeConfig (issues : list BridgeConfigIssue) | MeNodeIdentity
| MeDataDir | MeAttachments (e : ConfigError) | MeNode | MeBridge (e : StartError) | MeSync.

(** Outcomes the process does not decide. *)
Record Outside := mkOutside {
  ou_uuid : string;
  ou_create_dir : bool;
  ou_node_new : bool;
  ou_blocking : bool;
  ou_start_sync : bool;
  ou_now : Z;
  ou_dial : string → Dial;
}.

Section main.
Context {sha : Sha256} `{AsyncNats} `{CipherOps} `{Os W} {Id : Type} `{Countable Id}
  (parse_id : string → option Id) (show_id : Id → string) (public_key : bytes → Id).

Record Proc := mkProc {
  pr_effects : list Effect;
  pr_world : W;
  pr_host : Host;
  pr_peers : Peers (Id := Id);
}.

Abbreviation M := (st_err Proc MainError).

Definition emit (e : Effect) : M unit :=
  modify (λ p, mkProc (pr_effects p ++ [e]) (pr_world p) (pr_host p) (pr_peers p)).

(** [start_bridge_runtime] *)
Definition start_bridge_runtime (config : BridgeConfig) (node_id : string) (blocking : bool) : M (option BridgeStart) := λ p,
  match config with
  | Disabled => (Ok None, p)
  | Enabled config =>
      let '(r, h) := try_spawn config node_id blocking (pr_host p) in
      let p := mkProc (pr_effects p) (pr_world p) h (pr_peers p) in
      match r with
      | Ok start => (emit (StartedBridge start);; mret (Some start)) p
      | Err e => (Err (MeBridge e), p)
      end
  end.

(** One entry of [--peer] *)
Definition connect_initial_peer (o : Outside) (spec : string) : M unit :=
  if is_empty_str spec then mret tt
  else
    match split_once "@"%char spec with
    | None => emit (IgnoredPeer spec)
    | Some (endpoint_id, addr) => λ p,
        let '(r, peers) := connect_peer parse_id (ou_now o) endpoint_id [addr] "" (ou_dial o spec) (pr_peers p) in
        emit (DialledPeer spec (is_ok r)) (mkProc (pr_effects p) (pr_world p) (pr_host p) peers)
    end.

Fixpoint connect_initial_peers (o : Outside) (specs : list string) : M unit :=
  match specs with
  | [] => mret tt
  | spec :: specs => connect_initial_peer o spec;; connect_initial_peers o specs
  end.

Definition attachments_from (a : Args) : M AttachmentConfig := λ p,
  let '(r, w) := AttachConfig.from_raw (ar_attachment_root a) (ar_attachment_inbox a) (ar_attachment_limits a) (pr_world p) in
  (map_err MeAttachments r, mkProc (pr_effects p) w (pr_host p) (pr_peers p)).

(** Everything of [main] before the server runs; [None] for an offline command. *)
Definition startup (a : Args) (o : Outside) : M (option (string * option BridgeStart)) :=
  match ar_command a with
  | Some (DeriveId shared_key node_id) =>
      id ← lift (map_err (λ _, MeIdentity) (derive_endpoint_id show_id public_key shared_key node_id));
      emit (PrintedId id);; mret None
  | None =>
      if ar_rpc_max_timeout_secs a <? ar_rpc_default_timeout_secs a then fail MeTimeouts
      else
        (if ar_allocator_stats_interval_secs a =? 0 then mret tt else emit AllocatorStats);;
        bridge_config ← lift (map_err MeBridgeConfig (NatsConfig.from_raw (ar_nats_url a) (ar_nats_mapping a)));
        let node_id := default (ou_uuid o) (ar_node_id a) in
        lift (map_err (λ _, MeNodeIdentity) (validate_node_identity bridge_config node_id));;
        (if ar_print_config a then emit (LoggedConfig (redacted_resolved_args a bridge_config)) else mret tt);;
        (if ou_create_dir o then emit (CreatedDataDir (ar_data_dir a)) else fail MeDataDir);;
        seed ← lift (map_err (λ _, MeIdentity) (derive_iroh_secret_seed (ar_shared_key a) node_id));
        attachments ← attachments_from a;
        (if ou_node_new o then emit (StartedNode node_id seed (ar_encryption_key a) attachments) else fail MeNode);;
        bridge ← start_bridge_runtime bridge_config node_id (ou_blocking o);
        (if outbox_watch attachments && has_roots attachments
         then emit (StartedOutbox (roots attachments) (Z.max (outbox_poll_secs attachments) 1)) else mret tt);;
        connect_initial_peers o (ar_peer a);;
        (if ar_auto_sync a then (if ou_start_sync o then emit StartedSync else fail MeSync) else mret tt);;
        (match ar_agent_addr a with Some addr => emit (StartedAgentWatcher addr (ar_agent_tls a)) | None => mret tt end);;
        mret (Some (node_id, bridge))
  end.

End main.
End args.

(** ** The stop of the process *)

Inductive ServerExit := ServedOk | ServedErr | ServerPanicked.
Inductive ExitError := ServerShutdownFailed | BridgeShutdownFailed | NodeCleanupFailed | MultipleShutdownFailures.

(** The [match] over the three results *)
Definition exit_of (serve bridge node : bool) : result ExitError unit :=
  match serve, bridge, node with
  | true, true, true => Ok tt
  | false, true, true => Err ServerShutdownFailed
  | true, false, true => Err BridgeShutdownFailed
  | true, true, false => Err NodeCleanupFailed
  | _, _, _ => Err MultipleShutdownFailures
  end.

(** The bridge's handle as the process holds it: the tasks behind it, its status
    and counters, and its timeout. *)
Record BridgeHandle := mkBridgeHandle { bk_work : HandleWork; bk_status : BridgeStatus; bk_outcomes : Outcomes }.

(** [shutdown_bridge]: whether it succeeded and when it returned. *)
Definition shutdown_bridge (timeout now : Z) (bridge : option BridgeHandle) : bool * Z :=
  match bridge with
  | None => (true, now)
  | Some b => let '(r, after, _, _) := shutdown timeout now (bk_work b) (bk_status b) (bk_outcomes b) in (is_ok r, after)
  end.

(** The TCP branch after the listener started: [signal] is when [shutdown_signal]
    returned and [server] how the server task ends. The second component is when
    the node's cleanup begins. *)
Definition stop_tcp (timeout signal : Z) (bridge : option BridgeHandle) (server : TaskEnd ServerExit) (node_ok : bool)
  : result ExitError unit * Z :=
  let '(bridge_ok, now) := shutdown_bridge timeout signal bridge in
  let deadline := now + timeout in
  let '(ended, now) := timeout_at deadline now server in
  let serve_ok := match ended with Some ServedOk => true | Some _ | None => false end in
  (exit_of serve_ok bridge_ok node_ok, now).

(** The Unix-socket branch: the accept loop ends at the signal or when [accept]
    fails, and the connections are aborted and joined. *)
Definition stop_unix (timeout now : Z) (accepted_until_signal : bool) (bridge : option BridgeHandle) (connections : TaskEnd unit)
    (node_ok : bool) : result ExitError unit * Z :=
  let '(bridge_ok, now) := shutdown_bridge timeout now bridge in
  let deadline := now + timeout in
  let '(ended, now) := timeout_at deadline now connections in
  let joined := match ended with Some _ => true | None => false end in
  (exit_of (accepted_until_signal && joined) bridge_ok node_ok, now).
