(* ===== verification/CliCore.v ===== *)
(** * The command line: errors, arguments, credentials

    Model of the parts of [crates/peat-cli/src] that every command uses: the error
    type with its exit codes and what [main] does with it, the timeout and target
    arguments ([cli/mod.rs], [cli/query.rs]) and the credentials file ([creds.rs]).
    clap has parsed the command line; YAML is a parameter. A [Duration] is in
    milliseconds. Arithmetic wraps, as in a release build. *)

From S2P Require Import Prelude Paths Peers.
From Stdlib Require Import Strings.Ascii.

(** ** Errors and the exit status *)

Inductive CliError :=
| Generic (msg : string)
| Auth (msg : string)
| PermissionDenied (msg : string)
| Malformed (msg : string)
| NotImplemented (msg : string)
| Interrupted
| BrokenPipe.

#[global] Instance CliError_eq_dec : EqDecision CliError.
Proof. solve_decision. Defined.

(** [Display for CliError] *)
Definition cli_error_text (e : CliError) : string :=
  match e with
  | Generic msg => msg
  | Auth msg => "authentication failure: " +:+ msg
  | PermissionDenied msg => "permission denied: " +:+ msg
  | Malformed msg => "malformed request: " +:+ msg
  | NotImplemented msg => "not yet implemented: " +:+ msg
  | Interrupted => "interrupted"
  | BrokenPipe => "broken pipe"
  end.

Definition exit_code (e : CliError) : Z :=
  match e with
  | Generic _ | NotImplemented _ => 1
  | Auth _ => 2
  | PermissionDenied _ => 3
  | Malformed _ => 4
  | Interrupted => 130
  | BrokenPipe => 0
  end.

(** How a command ends early: with an error, or by a panic. *)
Inductive Stop := Fails (e : CliError) | Panics.

(** [main]: the process's status and what it prints on stderr. A panic that
    unwinds out of [main] is the runtime's status 101 with its own message. *)
Definition cli_main (r : result Stop unit) : Z * option string :=
  match r with
  | Ok _ | Err (Fails BrokenPipe) => (0, None)
  | Err (Fails Interrupted) => (130, None)
  | Err (Fails e) => (exit_code e, Some ("peat: " +:+ cli_error_text e))
  | Err Panics => (101, Some "panicked"%string)
  end.

(** ** Integers in text: [str::parse::<u64>] and [parse::<i64>] *)

Inductive ParseIntError := IntEmpty | IntInvalidDigit | IntPosOverflow | IntNegOverflow.

(** [Display for ParseIntError] *)
Definition int_error_text (e : ParseIntError) : string :=
  match e with
  | IntEmpty => "cannot parse integer from empty string"
  | IntInvalidDigit => "invalid digit found in string"
  | IntPosOverflow => "number too large to fit in target type"
  | IntNegOverflow => "number too small to fit in target type"
  end.

Fixpoint int_digits_up (hi acc : Z) (s : string) : result ParseIntError Z :=
  match s with
  | EmptyString => Ok acc
  | String c s =>
      match digit_value c with
      | None => Err IntInvalidDigit
      | Some d => if hi <? 10 * acc + d then Err IntPosOverflow else int_digits_up hi (10 * acc + d) s
      end
  end.

Fixpoint int_digits_down (lo acc : Z) (s : string) : result ParseIntError Z :=
  match s with
  | EmptyString => Ok acc
  | String c s =>
      match digit_value c with
      | None => Err IntInvalidDigit
      | Some d => if 10 * acc - d <? lo then Err IntNegOverflow else int_digits_down lo (10 * acc - d) s
      end
  end.

Definition parse_u64 (s : string) : result ParseIntError Z :=
  match s with
  | EmptyString => Err IntEmpty
  | String ("+" | "-")%char EmptyString => Err IntInvalidDigit
  | String "+"%char rest => int_digits_up U64_MAX 0 rest
  | _ => int_digits_up U64_MAX 0 s
  end.

Definition parse_i64 (s : string) : result ParseIntError Z :=
  match s with
  | EmptyString => Err IntEmpty
  | String ("+" | "-")%char EmptyString => Err IntInvalidDigit
  | String "+"%char rest => int_digits_up (2 ^ 63 - 1) 0 rest
  | String "-"%char rest => int_digits_down (- 2 ^ 63) 0 rest
  | _ => int_digits_up (2 ^ 63 - 1) 0 s
  end.

(** ** Timeouts *)

(** [str::strip_suffix] *)
Fixpoint strip_suffix (p s : string) : option string :=
  if bool_decide (s = p) then Some EmptyString
  else match s with EmptyString => None | String a s => String a <$> strip_suffix p s end.

Definition parse_timeout (s : string) : result CliError Z :=
  let failed e := Malformed ("timeout `" +:+ s +:+ "`: " +:+ int_error_text e) in
  match strip_suffix "ms" s with
  | Some num => map_err failed (parse_u64 num)
  | None =>
      match strip_suffix "s" s with
      | Some num => map_ok (λ n, 1000 * n) (map_err failed (parse_u64 num))
      | None =>
          match strip_suffix "m" s with
          | Some num => map_ok (λ n, 1000 * ((n * 60) mod 2 ^ 64)) (map_err failed (parse_u64 num))
          | None => Err (Malformed ("timeout `" +:+ s +:+ "`: expected suffix s, m, or ms (e.g. 10s, 1m, 500ms)"))
          end
      end
  end.

(** ** Targets *)

Definition parse_target (s : string) : result CliError (string * option string) :=
  if is_empty_str s then Err (Malformed "target is empty")
  else
    match split_once "/" s with
    | Some (c, d) =>
        if is_empty_str d then Err (Malformed ("target `" +:+ s +:+ "`: trailing slash without doc id"))
        else if is_empty_str c then Err (Malformed ("target `" +:+ s +:+ "`: leading slash without collection"))
        else if str_contains d "/" then Err (Malformed ("target `" +:+ s +:+ "`: only one slash allowed"))
        else Ok (c, Some d)
    | None => Ok (s, None)
    end.

(** ** Credentials *)

Record PeatCredentials := mkCredentials {
  cr_app_id : string;
  cr_shared_key : string;
  cr_peers : list string;
  cr_data_dir : option string;
  cr_disable_mdns : bool;
  cr_encryption_key : option string;
}.

(** What the process sees of its surroundings: two environment variables, the
    [dirs] crate's answers, the file system, and serde_yaml. *)
Record CliEnv := mkEnv {
  env_peat_creds : option string;
  env_xdg_config_home : option string;
  env_config_dir : option string;
  env_home_dir : option string;
  env_exists : string → bool;
  env_read : string → result string string;
  env_parse_yaml : string → result string PeatCredentials;
}.

(** [PathBuf] equality is that of the components. *)
Definition path_eqb (p q : string) : bool := bool_decide (components p = components q).

Definition credentials_below (dir : string) : string := path_join (path_join dir "peat") "credentials.yaml".

Definition push_new (candidates : list string) (p : string) : list string :=
  if existsb (path_eqb p) candidates then candidates else candidates ++ [p].

Definition config_candidates (env : CliEnv) : list string :=
  let candidates :=
    match env_xdg_config_home env with
    | Some xdg => if is_absolute xdg then [credentials_below xdg] else []
    | None => []
    end in
  let candidates :=
    match env_config_dir env with Some dir => push_new candidates (credentials_below dir) | None => candidates end in
  match env_home_dir env with
  | Some home => push_new candidates (credentials_below (path_join home ".config"))
  | None => candidates
  end.

Definition resolve_path_with (exists_on_disk : string → bool) (explicit env : option string) (candidates : list string)
  : result CliError string :=
  match explicit with
  | Some p => Ok p
  | None =>
      match (e ← env; if is_empty_str e then None else Some e) with
      | Some e => Ok e
      | None =>
          match candidates with
          | first :: _ =>
              match list_find (λ p, exists_on_disk p = true) candidates with
              | Some (_, p) => Ok p
              | None => Ok first
              end
          | [] => Err (Auth "no credentials path resolved — pass --creds, set PEAT_CREDS, or place a file at the platform config dir")
          end
      end
  end.

Definition resolve_path (env : CliEnv) (explicit : option string) : result CliError string :=
  resolve_path_with (env_exists env) explicit (env_peat_creds env) (config_candidates env).

Definition load (env : CliEnv) (explicit : option string) : result CliError PeatCredentials :=
  let? path := resolve_path env explicit in
  let? raw := map_err (λ e, Auth ("could not read credentials file " +:+ path +:+ ": " +:+ e)) (env_read env path) in
  let? creds := map_err (λ e, Auth ("could not parse credentials file " +:+ path +:+ ": " +:+ e)) (env_parse_yaml env raw) in
  match cr_encryption_key creds with
  | Some _ =>
      Err (Auth ("credentials at " +:+ path +:+ " set `encryption_key`, but peat-cli does not yet apply it (at-rest cipher layering is being resolved in peat#940). Remove the field, or pass an unencrypted bundle, to proceed."))
  | None => Ok creds
  end.

Definition expand_data_dir (env : CliEnv) (raw : string) : result CliError string :=
  match strip_prefix "~/" raw with
  | Some suffix =>
      let? home := ok_or (env_home_dir env) (Auth "cannot expand `~/` in data_dir: home directory unknown") in
      Ok (path_join home suffix)
  | None => Ok raw
  end.

(** ** Lemmas *)

Lemma strip_suffix_Some p s r : strip_suffix p s = Some r ↔ s = r +:+ p.
Proof.
  split.
  - revert r. induction s as [|a s IH]; intros r; cbn; case_bool_decide as Hp; intros H; simplify_eq; try done.
    destruct (strip_suffix p s) as [r'|] eqn:E; cbn in H; simplify_eq. by rewrite string_app_cons, (IH r').
  - intros ->. induction r as [|a r IH].
    + rewrite string_app_nil. destruct p; cbn; by rewrite bool_decide_true.
    + rewrite string_app_cons. cbn. rewrite IH. case_bool_decide as Hp; [|done].
      apply (f_equal String.length) in Hp. cbn in Hp. rewrite length_string_app in Hp. lia.
Qed.

Lemma int_digits_up_pretty hi x s :
  (Z.of_N x ≤ hi) → int_digits_up hi 0 (pretty.pretty_N_go x s) = int_digits_up hi (Z.of_N x) s.
Proof.
  revert s. induction (N.lt_wf_0 x) as [x _ IH]. intros s Hx.
  destruct (decide (x = 0%N)) as [->|Hn]; [by rewrite pretty.pretty_N_go_0|].
  rewrite pretty.pretty_N_go_step by lia. rewrite IH; [|apply N.div_lt; lia|rewrite N2Z.inj_div; pose proof (Z.div_le_upper_bound (Z.of_N x) 10 hi); lia].
  cbn [int_digits_up]. assert (digit_value (pretty.pretty_N_char (x mod 10)) = Some (Z.of_N (x mod 10))) as ->.
  { assert (x mod 10 < 10)%N as Hd by (apply N.mod_lt; lia).
    destruct (x mod 10)%N as [|[[[|[]|]|[|[]|]|]|[[|[]|]|[|[]|]|]|]] eqn:E; try done; lia. }
  assert (10 * Z.of_N (x `div` 10) + Z.of_N (x `mod` 10) = Z.of_N x) as ->.
  { pose proof (N.div_mod x 10). lia. }
  by rewrite (proj2 (Z.ltb_ge _ _)) by done.
Qed.
