(* ===== verification/CliWorld.v ===== *)
(** * The command line's surroundings

    What the commands of [crates/peat-cli/src/cli] call and do not implement: the
    type registry of peat-schema, the mesh backend with its store and coordinator,
    the text of floats, and the process's standard output. A command is a computation
    in the state-and-error monad over a [Proc]; a write to standard output follows a
    plan of outcomes, as the reader at the other end may close the pipe. *)

From S2P Require Import Prelude Json CliCore.
From Stdlib Require Import Floats.SpecFloat.

(** ** [f64]'s [FromStr] and [Display], the latter with an optional precision *)

Class FloatText := {
  parse_f64 : string → option spec_float;
  show_f64 : option nat → spec_float → string;
}.

(** [serde_json::to_string_pretty] *)
Class JsonPretty `{JsonLib} := { to_string_pretty : Value JNumber → string }.

(** ** peat-schema's type registry *)

Inductive FieldFormat :=
| FText | FNumber (unit_of : option string) | FPercentage | FBoolean | FTimestamp | FPosition
| FEnum (variants : list string) | FNested (nested_type_id : string) | FList (item_format : FieldFormat)
| FJsonString | FBlobRef
| FOther. (* a variant this program does not know *)

Record FieldDescriptor := mkField { fd_name : string; fd_label : string; fd_format : FieldFormat }.

Section registry.
Context `{J : JsonLib}.
Abbreviation value := (Value JNumber).

Record TypeDescriptor := mkType {
  td_id : string;
  td_name : string;
  td_version : string;
  td_collection : option string;
  td_fields : list FieldDescriptor;
  td_validate : value → result string unit;
  td_zero : value; (* [proto3_zero()] *)
}.

Record TypeRegistry := mkRegistry {
  for_collection : string → option TypeDescriptor;
  get_type : string → option TypeDescriptor;
  registry_iter : list TypeDescriptor;
}.

End registry.

(** ** The mesh

    [M] is the state of the local store, its directory and the peers it reaches. *)

Record SessionOptions := mkOptions { so_timeout : Z; so_as_id : option string; so_data_dir : option string }.

Record Tombstone := mkTombstone { ts_doc_id : string; ts_collection : string; ts_deleted_by : string; ts_lamport : Z }.

Class Mesh (M : Type) `{J : JsonLib} := {
  Doc : Type;
  Delta : Type;
  PeerId : Type;
  automerge_to_json : Doc → Value JNumber;
  json_to_automerge : Value JNumber → option Doc → result string Doc;
  doc_diff : Doc → Doc → Delta;   (* [AutomergeStore::diff] *)
  doc_save : Doc → bytes;         (* [save()] *)
  session_open : PeatCredentials → SessionOptions → M → result CliError unit * M;
  session_node_id : M → string;
  store_get : string → M → result string (option Doc);
  store_put : string → Doc → M → result string unit * M;
  store_apply_delta : string → Delta → M → result string unit * M;
  store_scan_prefix : string → M → result string (list (string * Doc));
  store_put_tombstone : Tombstone → M → result string unit * M;
  next_lamport : M → Z * M;
  connected_peers : M → list PeerId;
  sync_document : string → M → result string unit * M;
  sync_all_with : PeerId → M → result string unit * M;
  send_tombstones : PeerId → M → result string unit * M;
}.

(** ** The process *)

Inductive WriteOutcome := Wrote | PipeClosed | WriteFailed (e : string).

Record Proc (M : Type) := mkProc {
  pr_mesh : M;
  pr_stdout : list string;
  pr_pipe : list WriteOutcome;
  pr_slept : Z; (* the time spent in [sleep], in milliseconds *)
}.
Arguments mkProc {M}. Arguments pr_mesh {M}. Arguments pr_stdout {M}. Arguments pr_pipe {M}. Arguments pr_slept {M}.

Definition newline : string := String (Ascii.ascii_of_nat 10) EmptyString.

Section process.
Context {M : Type}.

Definition Cmd (A : Type) : Type := st_err (Proc M) Stop A.

Definition stop {A} (e : CliError) : Cmd A := fail (Fails e).
Definition panic {A} : Cmd A := fail Panics.

(** [r.map_err(f)?] on a value that needs no state *)
Definition try {A} (r : result CliError A) : Cmd A := lift (map_err Fails r).

(** A call on the mesh. *)
Definition on_mesh {A} (f : M → A * M) : Cmd A :=
  λ w, let '(a, m) := f (pr_mesh w) in (Ok a, mkProc m (pr_stdout w) (pr_pipe w) (pr_slept w)).

Definition gets_mesh {A} (f : M → A) : Cmd A := gets (λ w, f (pr_mesh w)).

(** One attempt to write some text. *)
Definition write_text (text : string) : Cmd WriteOutcome :=
  λ w,
    match pr_pipe w with
    | [] | Wrote :: _ => (Ok Wrote, mkProc (pr_mesh w) (pr_stdout w ++ [text]) (tail (pr_pipe w)) (pr_slept w))
    | o :: rest => (Ok o, mkProc (pr_mesh w) (pr_stdout w) rest (pr_slept w))
    end.

(** [print!] and [println!] panic when the write fails, a closed pipe included. *)
Definition print (text : string) : Cmd unit :=
  o ← write_text text; match o with Wrote => mret tt | _ => panic end.

Definition println (line : string) : Cmd unit := print (line +:+ newline).

(** [cli/output.rs], [write_stream_line] *)
Definition write_stream_line (line : string) : Cmd unit :=
  o ← write_text (line +:+ newline);
  match o with
  | Wrote => mret tt
  | PipeClosed => stop BrokenPipe
  | WriteFailed e => stop (Generic ("stdout write: " +:+ e))
  end.

(** [tokio::time::sleep(..).await] *)
Definition sleep (ms : Z) : Cmd unit :=
  modify (λ w, mkProc (pr_mesh w) (pr_stdout w) (pr_pipe w) (pr_slept w + ms)).

(** [for x in l { f(x)?; }] *)
Fixpoint for_each {A} (f : A → Cmd unit) (l : list A) : Cmd unit :=
  match l with [] => mret tt | a :: l => f a;; for_each f l end.

End process.
