(* ===== verification/CliWrites.v ===== *)
(** * Building documents on the command line

    Model of [crates/peat-cli/src/cli/writes.rs] and of the [id] rule [create.rs] and
    [update.rs] share: reading a document, overlaying [--set] pairs, filling in the
    defaults of a registered type and validating. serde_json's [Map] is a [BTreeMap]
    in this build: an object's entries are in strict key order, and the theorems
    show that every operation keeps them so. *)

From S2P Require Import Prelude Paths PathFacts Json CliCore CliWorld.
From Stdlib Require Import Strings.Ascii Structures.OrdersEx Sorting.Sorted Floats.SpecFloat.

Section writes.
Context `{J : JsonLib} {F : FloatText}.
Abbreviation value := (Value JNumber).

(** ** Objects *)

(** [Map::insert] *)
Fixpoint entry_insert (k : string) (v : value) (entries : list (string * value)) : list (string * value) :=
  match entries with
  | [] => [(k, v)]
  | (k', v') :: rest =>
      match String_as_OT.compare k k' with
      | Lt => (k, v) :: (k', v') :: rest
      | Eq => (k', v) :: rest
      | Gt => (k', v') :: entry_insert k v rest
      end
  end.

(** ** The registry *)

Definition validate_against_schema (reg : TypeRegistry) (collection : string) (v : value) : result CliError unit :=
  match for_collection reg collection with
  | None => Ok tt
  | Some desc =>
      map_err (λ e, Malformed ("schema validation failed for " +:+ td_name desc +:+ " document: " +:+ e)) (td_validate desc v)
  end.

Definition is_registered_collection (reg : TypeRegistry) (collection : string) : bool :=
  bool_decide (is_Some (for_collection reg collection)).

(** [user.entry(k).or_insert(default_v)] *)
Definition or_insert (user : list (string * value)) (kv : string * value) : list (string * value) :=
  match entry_get kv.1 user with Some _ => user | None => entry_insert kv.1 kv.2 user end.

Definition apply_proto3_defaults (reg : TypeRegistry) (collection : string) (v : value) : value :=
  match for_collection reg collection with
  | None => v
  | Some desc =>
      match v with
      | VObject user =>
          match td_zero desc with
          | VObject default_map => VObject (foldl or_insert user default_map)
          | _ => VObject user
          end
      | _ => v
      end
  end.

(** ** Input *)

Definition read_from (env : CliEnv) (stdin : result string string) (path : string) : result CliError value :=
  let is_stdin := bool_decide (path = "-") in
  let? raw :=
    (if is_stdin then map_err (λ e, Generic ("read stdin: " +:+ e)) stdin
     else map_err (λ e, Malformed ("read `" +:+ path +:+ "`: " +:+ e)) (env_read env path)) in
  map_err (λ e, Malformed ("parse `" +:+ (if is_stdin then "<stdin>" else path) +:+ "` as JSON: " +:+ e)) (from_str raw).

Definition coerce (raw : string) : value :=
  if bool_decide (raw = "null") then VNull
  else if bool_decide (raw = "true") then VBool true
  else if bool_decide (raw = "false") then VBool false
  else
    match parse_i64 raw with
    | Ok n => VNumber (of_int n)
    | Err _ =>
        match (x ← parse_f64 raw; of_f64 x) with
        | Some num => VNumber num
        | None => VString raw
        end
    end.

(** [None] is the panic of [split_first().unwrap()] on an empty path. *)
Fixpoint set_path (v : value) (parts : list string) (new_val : value) : option value :=
  let map := match v with VObject map => map | _ => [] end in
  match parts with
  | [] => None
  | [last] => Some (VObject (entry_insert last new_val map))
  | head :: tail =>
      let entry := default (VObject []) (entry_get head map) in
      entry ← set_path entry tail new_val;
      Some (VObject (entry_insert head entry map))
  end.

Definition apply_set (v : value) (expr : string) : result Stop value :=
  match split_once "=" expr with
  | None => Err (Fails (Malformed ("--set `" +:+ expr +:+ "`: expected `path=value`")))
  | Some (path, raw_val) =>
      if is_empty_str path then Err (Fails (Malformed ("--set `" +:+ expr +:+ "`: empty path")))
      else
        let parts := split_on "." path in
        if existsb is_empty_str parts then Err (Fails (Malformed ("--set `" +:+ expr +:+ "`: empty path segment")))
        else match set_path v parts (coerce raw_val) with Some v => Ok v | None => Err Panics end
  end.

Fixpoint apply_sets (base : value) (sets : list string) : result Stop value :=
  match sets with
  | [] => Ok base
  | s :: sets => let? base := apply_set base s in apply_sets base sets
  end.

(** The [id] field of a registered type is the document id. *)
Definition reconcile_id (reg : TypeRegistry) (collection doc_id : string) (v : value) : result CliError value :=
  if is_registered_collection reg collection then
    match v with
    | VObject map =>
        match entry_get "id" map with
        | Some (VString existing) =>
            if bool_decide (existing = doc_id) then Ok v
            else Err (Malformed ("document `id` (" +:+ existing +:+ ") does not match target doc id (" +:+ doc_id +:+
                                 "); omit `id` or make it match `" +:+ collection +:+ "/" +:+ doc_id +:+ "`"))
        | Some _ => Ok v
        | None => Ok (VObject (entry_insert "id" (VString doc_id) map))
        end
    | _ => Ok v
    end
  else Ok v.

(** ** Well-formed documents: the entries of a [BTreeMap] *)

Definition sorted_keys (entries : list (string * value)) : Prop := StronglySorted String_as_OT.lt entries.*1.

Inductive value_wf : value → Prop :=
| wf_null : value_wf VNull
| wf_bool b : value_wf (VBool b)
| wf_number n : value_wf (VNumber n)
| wf_string s : value_wf (VString s)
| wf_array vs : Forall value_wf vs → value_wf (VArray vs)
| wf_object entries : sorted_keys entries → Forall (λ kv, value_wf kv.2) entries → value_wf (VObject entries).

(** The value below a path of object fields. *)
Fixpoint value_at (parts : list string) (v : value) : option value :=
  match parts with
  | [] => Some v
  | head :: tail => x ← value_get head v; value_at tail x
  end.

(** Paths of which neither lies below the other. *)
Definition apart (p q : list string) : Prop := ¬ (p `prefix_of` q) ∧ ¬ (q `prefix_of` p).

(** What an accepted [--set] argument says. *)
Definition is_set (expr : string) (parts : list string) (raw : string) : Prop :=
  ∃ path, expr = path +:+ "=" +:+ raw ∧ str_contains path "=" = false ∧ parts = split_on "." path ∧ Forall (λ p, p ≠ ""%string) parts.

End writes.
#[global] Hint Constructors value_wf : peat.
