(* ===== verification/CliWritesFacts.v ===== *)
(** * What the command line writes

    [--set] is a lens on documents: an assignment is read back, everything apart from
    it is untouched, and the arguments it refuses leave no panic. Defaults never
    overwrite what the caller gave, and every document built is a well-formed one. *)

From S2P Require Import Prelude Paths PathFacts Json CliCore CliWorld CliWrites.
From Stdlib Require Import Strings.Ascii Structures.OrdersEx Sorting.Sorted Floats.SpecFloat.

Section facts.
Context `{J : JsonLib} {F : FloatText}.
Abbreviation value := (Value JNumber).
Implicit Types (v : value) (m : list (string * value)).

(** ** Objects *)

Lemma entry_get_insert k v m : entry_get k (entry_insert k v m) = Some v.
Proof.
  induction m as [|[k' v'] m IH]; cbn; [by rewrite bool_decide_true|].
  destruct (String_as_OT.compare_spec k k') as [->|Hlt|Hgt]; cbn; [by rewrite bool_decide_true..|].
  case_bool_decide as Hk; [|done]. subst. by apply (StrictOrder_Irreflexive (R := String_as_OT.lt)) in Hgt.
Qed.

Lemma entry_get_insert_ne k j v m : j ≠ k → entry_get j (entry_insert k v m) = entry_get j m.
Proof.
  intros Hjk. induction m as [|[k' v'] m IH]; cbn; [by rewrite bool_decide_false|].
  destruct (String_as_OT.compare_spec k k') as [->|Hlt|Hgt]; cbn; case_bool_decide; subst; try done; by rewrite IH.
Qed.

Lemma entry_insert_keys k v m j : j ∈ (entry_insert k v m).*1 → j = k ∨ j ∈ m.*1.
Proof.
  induction m as [|[k' v'] m IH]; cbn; [set_solver|].
  destruct (String_as_OT.compare_spec k k') as [->|Hlt|Hgt]; cbn; set_solver.
Qed.

Lemma entry_insert_sorted k v m : sorted_keys m → sorted_keys (entry_insert k v m).
Proof.
  unfold sorted_keys. induction m as [|[k' v'] m IH]; intros Hs; cbn; [by repeat constructor|].
  inversion Hs as [|?? Hs' Hall]; subst. destruct (String_as_OT.compare_spec k k') as [->|Hlt|Hgt]; cbn.
  - done.
  - constructor; [done|]. constructor; [done|]. eapply Forall_impl; [exact Hall|]. intros j Hj. by etrans.
  - constructor; [auto|]. apply Forall_forall. intros j [->|Hj]%entry_insert_keys; [done|].
    by eapply Forall_forall in Hall.
Qed.

Lemma entry_insert_Forall (P : string * value → Prop) k v m :
  (∀ k', P (k', v)) → Forall P m → Forall P (entry_insert k v m).
Proof.
  intros Hv. induction 1 as [|[k' v'] m Hk Hm IH]; cbn; [by repeat constructor|].
  destruct (String_as_OT.compare k k'); repeat constructor; auto.
Qed.

Lemma object_insert_wf k v m : value_wf (VObject m) → value_wf v → value_wf (VObject (entry_insert k v m)).
Proof.
  intros Hm Hv. inversion Hm; subst. constructor; [by apply entry_insert_sorted|]. by apply entry_insert_Forall.
Qed.

Lemma entry_get_wf k m v : value_wf (VObject m) → entry_get k m = Some v → value_wf v.
Proof.
  intros Hm. inversion Hm as [| | | | |? _ Hall]; subst. clear Hm. induction Hall as [|[k' v'] m Hk _ IH]; cbn; [done|].
  case_bool_decide; intros; simplify_eq; auto.
Qed.

Lemma empty_object_wf : value_wf (VObject []).
Proof. constructor; constructor. Qed.
#[local] Hint Resolve empty_object_wf object_insert_wf : peat.

(** The object [set_path] works on: the value's own entries, or none. *)
Definition fields_of v : list (string * value) := match v with VObject m => m | _ => [] end.

Lemma fields_of_get k v : entry_get k (fields_of v) = value_get k v.
Proof. by destruct v. Qed.

Lemma fields_of_wf v : value_wf v → value_wf (VObject (fields_of v)).
Proof. intros Hv. destruct v; cbn; auto with peat. Qed.

(** ** One assignment *)

Lemma set_path_cons v k p x :
  set_path v (k :: p) x =
  match p with
  | [] => Some (VObject (entry_insert k x (fields_of v)))
  | _ => e ← set_path (default (VObject []) (value_get k v)) p x; Some (VObject (entry_insert k e (fields_of v)))
  end.
Proof. rewrite <-fields_of_get. by destruct p. Qed.

Lemma set_path_total v p x : p ≠ [] → ∃ v', set_path v p x = Some v'.
Proof.
  revert v. induction p as [|k p IH]; intros v Hp; [done|]. rewrite set_path_cons.
  destruct p as [|k' p]; [by eauto|]. destruct (IH (default (VObject []) (value_get k v))) as [e ->]; [done|]. cbn. by eauto.
Qed.

Lemma set_path_wf v p x v' : value_wf v → value_wf x → set_path v p x = Some v' → value_wf v'.
Proof.
  revert v v'. induction p as [|k p IH]; intros v v' Hv Hx; [done|]. rewrite set_path_cons. pose proof (fields_of_wf v Hv) as Hf.
  destruct p as [|k' p]; [intros [= <-]; auto with peat|].
  destruct (set_path _ (k' :: p) x) as [e|] eqn:He; intros [= <-]. apply object_insert_wf; [done|].
  eapply IH, He; [|done]. destruct (value_get k v) as [w|] eqn:Hw; cbn; [|auto with peat].
  rewrite <-fields_of_get in Hw. by eapply entry_get_wf.
Qed.

Lemma set_path_same v p x v' : set_path v p x = Some v' → value_at p v' = Some x.
Proof.
  revert v v'. induction p as [|k p IH]; intros v v'; [done|]. rewrite set_path_cons. destruct p as [|k' p].
  - intros [= <-]. cbn. by rewrite entry_get_insert.
  - destruct (set_path _ (k' :: p) x) as [e|] eqn:He; intros [= <-]. cbn -[value_at]. cbn [value_at value_get].
    rewrite entry_get_insert. by eapply (IH _ e).
Qed.

Lemma apart_cons k p q : apart (k :: p) (k :: q) → apart p q.
Proof. intros [H1 H2]. split; [contradict H1|contradict H2]; by apply prefix_cons. Qed.

Lemma set_path_apart v p x v' q : apart p q → set_path v p x = Some v' → value_at q v' = value_at q v.
Proof.
  revert v v' q. induction p as [|k p IH]; intros v v' q Ha; [done|]. rewrite set_path_cons.
  destruct q as [|j q]; [by destruct Ha as [_ []]; apply prefix_nil|].
  assert (∀ e, j ≠ k → value_at (j :: q) (VObject (entry_insert k e (fields_of v))) = value_at (j :: q) v) as Hother.
  { intros e Hj. cbn. by rewrite entry_get_insert_ne, fields_of_get. }
  destruct (decide (j = k)) as [->|Hj].
  - apply apart_cons in Ha. destruct p as [|k' p]; [destruct Ha as [[] _]; apply prefix_nil|].
    destruct (set_path _ (k' :: p) x) as [e|] eqn:He; intros [= <-]. cbn [value_at value_get]. rewrite entry_get_insert.
    cbn. rewrite (IH _ _ q Ha He). destruct (value_get k v) as [w|]; [done|]. cbn.
    destruct q; [by destruct Ha as [_ []]; apply prefix_nil|done].
  - destruct p as [|k' p]; [intros [= <-]; auto|]. destruct (set_path _ (k' :: p) x); intros [= <-]; auto.
Qed.

(** ** The arguments *)

Lemma is_set_split expr parts raw :
  is_set expr parts raw ↔ ∃ path, split_once "="%char expr = Some (path, raw) ∧ parts = split_on "."%char path ∧ existsb is_empty_str parts = false.
Proof.
  assert (∀ l : list string, existsb is_empty_str l = false ↔ Forall (λ p, p ≠ ""%string) l) as Hex.
  { intros l. rewrite Forall_forall. split.
    - intros Hf p Hp ->. assert (existsb is_empty_str l = true); [|congruence]. apply existsb_exists. exists ""%string.
      split; [by apply list_elem_of_In|done].
    - intros Hall. apply not_true_iff_false. intros (p & Hp & He)%existsb_exists. apply list_elem_of_In in Hp.
      destruct p; [by apply (Hall _ Hp)|done]. }
  split.
  - intros (path & -> & Hc & -> & Hp). exists path. rewrite Hex. split_and!; [|done..]. by apply split_once_app.
  - intros (path & Hs & -> & Hp). exists path. rewrite Hex in Hp. pose proof (split_once_first _ _ _ _ Hs).
    apply split_once_Some in Hs. by subst.
Qed.

Lemma apply_set_Ok v expr v' :
  apply_set v expr = Ok v' ↔ ∃ parts raw, is_set expr parts raw ∧ set_path v parts (coerce raw) = Some v'.
Proof.
  unfold apply_set. split.
  - destruct (split_once "="%char expr) as [[path raw]|] eqn:Hs; [|done]. destruct (is_empty_str path); [done|].
    destruct (existsb _ _) eqn:He; [done|]. intros H. exists (split_on "."%char path), raw. rewrite is_set_split.
    split; [by eauto|]. by destruct (set_path _ _ _); simplify_eq.
  - intros (parts & raw & Hset & Hp). apply is_set_split in Hset as (path & -> & -> & He).
    destruct path as [|a path]; [done|]. cbn [is_empty_str]. by rewrite He, Hp.
Qed.

(** A refused argument is exit status 4, and none panics. *)
Lemma apply_set_Err v expr e :
  apply_set v expr = Err e → (∃ msg, e = Fails (Malformed msg)) ∧ ∀ parts raw, ¬ is_set expr parts raw.
Proof.
  intros H. assert (∀ parts raw, ¬ is_set expr parts raw) as Hno.
  { intros parts raw Hset. assert (∃ v', apply_set v expr = Ok v') as [v' ?]; [|congruence].
    pose proof Hset as (path & _ & _ & Hparts & _).
    destruct (set_path_total v parts (coerce raw)) as [v' Hv']; [rewrite Hparts; apply split_on_not_nil|].
    exists v'. apply apply_set_Ok. eauto. }
  split; [|done]. revert H. unfold apply_set. destruct (split_once "="%char expr) as [[path raw]|] eqn:Hs; [|intros; simplify_eq; by eauto].
  destruct (is_empty_str path); [intros; simplify_eq; by eauto|]. destruct (existsb _ _) eqn:He; [intros; simplify_eq; by eauto|].
  exfalso. eapply Hno, is_set_split. by eauto.
Qed.

Lemma is_set_fun expr p q a b : is_set expr p a → is_set expr q b → p = q ∧ a = b.
Proof. rewrite !is_set_split. intros (? & H1 & -> & _) (? & H2 & -> & _). by simplify_eq. Qed.

Lemma apply_sets_app v a b : apply_sets v (a ++ b) = (let? u := apply_sets v a in apply_sets u b).
Proof. revert v. induction a as [|s a IH]; intros v; [done|]. cbn. destruct (apply_set v s); [apply IH|done]. Qed.

Lemma apply_sets_apart v sets v' q :
  apply_sets v sets = Ok v' → (∀ expr p raw, expr ∈ sets → is_set expr p raw → apart p q) → value_at q v' = value_at q v.
Proof.
  revert v. induction sets as [|s sets IH]; intros v; cbn; [by intros [= ->]|].
  destruct (apply_set v s) as [w|] eqn:Hw; [|done]. intros Hr Hap. apply apply_set_Ok in Hw as (p & raw & Hset & Hp).
  rewrite (IH w) by (done || (intros; eapply Hap; [by right|done])). eapply set_path_apart; [|done].
  eapply Hap; [by left|done].
Qed.

Lemma coerce_wf raw : value_wf (coerce raw).
Proof. unfold coerce. repeat case_match; constructor. Qed.

Lemma apply_sets_wf v sets v' : value_wf v → apply_sets v sets = Ok v' → value_wf v'.
Proof.
  revert v. induction sets as [|s sets IH]; intros v Hv; cbn; [by intros [= <-]|].
  destruct (apply_set v s) as [w|] eqn:Hw; [|done]. apply apply_set_Ok in Hw as (p & raw & _ & Hp).
  apply IH. eapply set_path_wf, Hp; [done|apply coerce_wf].
Qed.

(** ** Defaults and the id *)

Lemma or_insert_get user kv k :
  entry_get k (or_insert user kv) =
  match entry_get k user with Some v => Some v | None => if bool_decide (kv.1 = k) then Some kv.2 else None end.
Proof.
  unfold or_insert. destruct kv as [j x]. cbn. destruct (entry_get j user) eqn:Hj; case_bool_decide as Hk; subst.
  - by rewrite Hj.
  - by destruct (entry_get k user).
  - by rewrite entry_get_insert, Hj.
  - rewrite entry_get_insert_ne by done. by destruct (entry_get k user).
Qed.

Lemma defaults_get user defaults k :
  entry_get k (foldl or_insert user defaults) =
  match entry_get k user with Some v => Some v | None => entry_get k defaults end.
Proof.
  revert user. induction defaults as [|[j x] defaults IH]; intros user; cbn; [by destruct (entry_get k user)|].
  rewrite IH, or_insert_get. cbn. destruct (entry_get k user); [done|]. by case_bool_decide.
Qed.

Lemma defaults_wf user defaults :
  value_wf (VObject user) → Forall (λ kv, value_wf kv.2) defaults → value_wf (VObject (foldl or_insert user defaults)).
Proof.
  intros Hu Hd. revert user Hu. induction Hd as [|[j x] defaults Hx _ IH]; intros user Hu; [done|].
  cbn. apply IH. unfold or_insert. cbn. destruct (entry_get j user); [done|]. by apply object_insert_wf.
Qed.

Lemma reconcile_id_wf reg collection doc_id v v' :
  value_wf v → reconcile_id reg collection doc_id v = Ok v' → value_wf v'.
Proof.
  intros Hv. unfold reconcile_id. destruct (is_registered_collection reg collection); [|by intros [= <-]].
  destruct v as [| | | | |m]; try (by intros [= <-]).
  destruct (entry_get "id" m) as [[| | |s| |]|]; try (by intros [= <-]); [case_bool_decide; by intros [= <-]|].
  intros [= <-]. apply object_insert_wf; [done|constructor].
Qed.

Lemma apply_proto3_defaults_wf reg collection v :
  (∀ c desc, for_collection reg c = Some desc → value_wf (td_zero desc)) →
  value_wf v → value_wf (apply_proto3_defaults reg collection v).
Proof.
  intros Hreg Hv. unfold apply_proto3_defaults. destruct (for_collection reg collection) as [desc|] eqn:Hd; [|done].
  apply Hreg in Hd. destruct v; try done. destruct (td_zero desc) eqn:Hz; try done.
  apply defaults_wf; [done|]. by inversion Hd.
Qed.

(** ** Claims *)

(** What [--set] does: the list is accepted exactly when every argument has the form
    [path=value] with non-empty segments, and otherwise the command fails with status
    4, never with a panic; an assignment that no later one crosses is read back as its
    coerced value; and everything apart from the assigned paths is as it was. *)
Theorem sets_exact v sets :
  ((∃ v', apply_sets v sets = Ok v') ↔ Forall (λ expr, ∃ p raw, is_set expr p raw) sets) ∧
  (∀ e, apply_sets v sets = Err e → ∃ msg, e = Fails (Malformed msg)) ∧
  (∀ v', apply_sets v sets = Ok v' →
    (∀ before expr after p raw, sets = before ++ expr :: after → is_set expr p raw →
      (∀ later q raw', later ∈ after → is_set later q raw' → apart q p) → value_at p v' = Some (coerce raw)) ∧
    (∀ q, (∀ expr p raw, expr ∈ sets → is_set expr p raw → apart p q) → value_at q v' = value_at q v)).
Proof.
  split_and!.
  - revert v. induction sets as [|s sets IH]; intros v; cbn; [split; eauto|]. rewrite Forall_cons.
    destruct (apply_set v s) as [w|e] eqn:Hw.
    + pose proof Hw as (p & raw & Hset & _)%apply_set_Ok. rewrite IH. split; [intros H; split; eauto|by intros [_ ?]].
    + apply apply_set_Err in Hw as [_ Hno]. split; [by intros [??]|intros [(p & raw & Hset) _]; by apply Hno in Hset].
  - revert v. induction sets as [|s sets IH]; intros v e; cbn; [done|].
    destruct (apply_set v s) as [w|e'] eqn:Hw; [apply IH|]. intros [= <-]. by apply apply_set_Err in Hw as [? _].
  - intros v' Hv'. split; [|intros q; by apply apply_sets_apart].
    intros before expr after p raw -> Hset Hlater. rewrite apply_sets_app in Hv'.
    destruct (apply_sets v before) as [w|]; [|done]. cbn in Hv'. destruct (apply_set w expr) as [u|] eqn:Hu; [|done].
    rewrite (apply_sets_apart u after v') by done. apply apply_set_Ok in Hu as (p' & raw' & Hset' & Hp).
    destruct (is_set_fun _ _ _ _ _ Hset Hset') as [<- <-]. by eapply set_path_same.
Qed.


(** An assignment below a field that holds an array, a string or a number replaces the
    field by an object with that one entry, at any depth, although the comment of
    [set_path] speaks of the root only. *)
Theorem set_replaces_non_objects v p k x v' old :
  value_at p v = Some old → (∀ m, old ≠ VObject m) → set_path v (p ++ [k]) x = Some v' →
  value_at p v' = Some (VObject [(k, x)]).
Proof.
  revert v v'. induction p as [|j p IH]; intros v v' Hat Hold.
  - injection Hat as ->. cbn. destruct old; try (by intros [= <-]). by destruct (Hold entries).
  - cbn [app]. rewrite set_path_cons. cbn [value_at] in Hat |- *.
    destruct (value_get j v) as [w|] eqn:Hw; [|done]. cbn in Hat |- *.
    destruct (p ++ [k]) as [|k' p'] eqn:Hp; [by destruct p|]. destruct (set_path w (k' :: p') x) as [e|] eqn:He; [|done].
    intros [= <-]. cbn. rewrite entry_get_insert. cbn. by eapply IH.
Qed.

End facts.

(** ** Witnesses *)

Definition toy_floats : FloatText := {|
  parse_f64 s := if bool_decide (s = "2.5") then Some (S754_finite false 5 (-1)) else None;
  show_f64 _ _ := "";
|}.

Definition toy_writes_json : JsonLib := toy_json (λ _, None) (λ _, ""%string).

Definition toy_sets : list string := ["position.lat=2.5"; "name=alice"]%string.

Lemma sets_exact_witness :
  ∃ v', @apply_sets toy_writes_json toy_floats (VObject [("keep"%string, VBool true)]) toy_sets = Ok v' ∧
        @value_at toy_writes_json ["keep"%string] v' = Some (VBool true).
Proof.
  eexists. split; [vm_compute; reflexivity|].
  apply (proj2 (proj2 (proj2 (@sets_exact toy_writes_json toy_floats (VObject [("keep"%string, VBool true)]) toy_sets)) _ ltac:(vm_compute; reflexivity))).
  intros expr p raw He Hset.
  assert (p = ["position"; "lat"]%string ∨ p = ["name"]%string) as [-> | ->].
  { apply list_elem_of_In in He. apply is_set_split in Hset as (path & Hs & -> & _).
    destruct He as [<-|[<-|[]]]; [left|right]; vm_compute in Hs; by injection Hs as <- _. }
  - split; intros [l Hl]; done.
  - split; intros [l Hl]; done.
Defined.

Definition toy_registry : @TypeRegistry toy_writes_json :=
  let cap := @mkType toy_writes_json "peat.capability.v1.Capability" "Capability" "v1" (Some "capabilities"%string)
    [mkField "id" "ID" FText; mkField "name" "Name" FText] (λ v, match @value_get toy_writes_json "name" v with Some (VString _) => Ok tt | _ => Err "name"%string end)
    (VObject [("id"%string, VString ""); ("name"%string, VString "")]) in
  @mkRegistry toy_writes_json (λ c, if bool_decide (c = "capabilities"%string) then Some cap else None)
    (λ t, if bool_decide (t = td_id cap) then Some cap else None) [cap].

Lemma toy_registry_wf c desc : for_collection toy_registry c = Some desc → value_wf (td_zero desc).
Proof. cbn. case_bool_decide; [|done]. intros [= <-]. cbn. repeat constructor. Qed.


Lemma set_replaces_non_objects_witness :
  ∃ v', @set_path toy_writes_json (VObject [("tags"%string, VArray [VBool true])]) ["tags"; "0"]%string (VBool false) = Some v' ∧
        @value_at toy_writes_json ["tags"%string] v' = Some (VObject [("0"%string, VBool false)]).
Proof.
  eexists. split; [vm_compute; reflexivity|].
  apply (@set_replaces_non_objects toy_writes_json (VObject [("tags"%string, VArray [VBool true])]) ["tags"%string] "0"%string (VBool false) _ (VArray [VBool true]));
    [reflexivity|done|vm_compute; reflexivity].
Defined.
