(* ===== verification/CliOutput.v ===== *)
(** * Output of the command line

    Model of [crates/peat-cli/src/cli/output.rs] and [cli/schema.rs]: how documents,
    change events and the type registry are rendered in the three formats. *)

From S2P Require Import Prelude Json CliCore CliWorld CliWrites.
From Stdlib Require Import Strings.Ascii Structures.OrdersEx Floats.SpecFloat.

Inductive OutputFormat := Text | JsonOutput | Ndjson.

(** [collection_of]: the part of a store key before the first colon *)
Definition collection_of (key : string) : option string := fst <$> split_once ":" key.

(** [chars().count()]: the bytes that do not continue a character *)
Definition char_count (s : string) : nat :=
  length (List.filter (λ b, negb (Z.land (Z_of_byte b) 192 =? 128)) (str_bytes s)).

Fixpoint spaces (n : nat) : string := match n with O => EmptyString | S n => String " " (spaces n) end.

(** [{s:>width$}] and [{s:<width$}] *)
Definition pad_left (width : nat) (s : string) : string := spaces (width - char_count s) +:+ s.
Definition pad_right (width : nat) (s : string) : string := s +:+ spaces (width - char_count s).

Definition max_len (l : list string) : nat := foldr Nat.max 0%nat (String.length <$> l).

(** [parts.join(sep)] *)
Fixpoint join_with (sep : string) (parts : list string) : string :=
  match parts with
  | [] => EmptyString
  | [p] => p
  | p :: parts => p +:+ sep +:+ join_with sep parts
  end.

Section output.
Context `{J : JsonLib} {F : FloatText} {P : JsonPretty}.
Abbreviation value := (Value JNumber).

(** [json!({ .. })] and the [collect] of pairs into a [Map] *)
Definition json_object (entries : list (string * value)) : value :=
  VObject (foldl (λ m kv, entry_insert kv.1 kv.2 m) [] entries).

Definition value_as_bool (v : value) : option bool := match v with VBool b => Some b | _ => None end.
Definition value_as_object (v : value) : option (list (string * value)) := match v with VObject m => Some m | _ => None end.

Definition f64_100 : spec_float := S754_finite false (25 * 2 ^ 48) (-46).
Definition f64_mul : spec_float → spec_float → spec_float := SFmul 53 1024.

(** ** Field values *)

Definition format_field_value : option value → FieldFormat → string :=
  fix go (v : option value) (fmt : FieldFormat) {struct fmt} : string :=
  match v with
  | None | Some VNull => "—"
  | Some v =>
      match fmt with
      | FText => match v with VString s => s | _ => to_string v end
      | FNumber unit_of =>
          match value_as_f64 v, unit_of with
          | Some n, Some u => show_f64 None n +:+ " " +:+ u
          | Some n, None => show_f64 None n
          | None, _ => to_string v
          end
      | FPercentage =>
          match value_as_f64 v with
          | Some n => show_f64 (Some 1%nat) (f64_mul n f64_100) +:+ "%"
          | None => to_string v
          end
      | FBoolean => match value_as_bool v with Some b => if b then "true" else "false" | None => to_string v end
      | FTimestamp => to_string v
      | FPosition =>
          match value_as_object v with
          | Some obj =>
              let coordinate name := default (S754_zero false) (x ← entry_get name obj; value_as_f64 x) in
              show_f64 (Some 4%nat) (coordinate "latitude") +:+ "°, " +:+ show_f64 (Some 4%nat) (coordinate "longitude") +:+
              "°, " +:+ show_f64 (Some 0%nat) (coordinate "altitude") +:+ "m"
          | None => to_string v
          end
      | FEnum variants =>
          match value_as_u64 v with
          | Some idx => match variants !! Z.to_nat idx with Some s => s | None => "unknown(" +:+ Peers.digits idx +:+ ")" end
          | None => to_string v
          end
      | FNested _ => to_string_pretty v
      | FList item_format =>
          match value_as_array v with
          | Some [] => "(empty)"
          | Some arr => join_with ", " ((λ x, go (Some x) item_format) <$> arr)
          | None => to_string v
          end
      | FJsonString =>
          match value_as_str v with
          | Some s => match from_str s with Ok parsed => to_string parsed | Err _ => s end
          | None => to_string v
          end
      | FBlobRef => to_string v
      | FOther => to_string v
      end
  end.

Definition render_typed_doc (doc_json : value) (desc : TypeDescriptor) : string :=
  let label_width := max_len (fd_label <$> td_fields desc) in
  let obj := value_as_object doc_json in
  foldl (λ out field,
      let v := o ← obj; entry_get (fd_name field) o in
      out +:+ "  " +:+ pad_left label_width (fd_label field) +:+ " : " +:+ format_field_value v (fd_format field) +:+ newline)
    (td_name desc +:+ newline) (td_fields desc).

(** ** Documents and events *)

Section docs.
Context {M : Type} `{!Mesh M}.

Definition render_observe_event (key : string) (doc : Doc) (fmt : OutputFormat) : Cmd (M := M) unit :=
  let doc_json := automerge_to_json doc in
  write_stream_line
    match fmt with
    | Text => key +:+ " " +:+ to_string doc_json
    | JsonOutput => to_string doc_json
    | Ndjson => to_string (json_object [("key", VString key); ("doc", doc_json)])
    end.

Definition render_observe_deleted (key : string) (fmt : OutputFormat) : Cmd (M := M) unit :=
  write_stream_line
    match fmt with
    | Text => key +:+ " <deleted>"
    | JsonOutput => to_string (json_object [("deleted", VBool true)])
    | Ndjson => to_string (json_object [("key", VString key); ("deleted", VBool true)])
    end.

Definition keyed_object (docs : list (string * Doc)) : value :=
  json_object ((λ kd, (kd.1, automerge_to_json kd.2)) <$> docs).

Definition structural_value (docs : list (string * Doc)) (keyed : bool) : value :=
  if keyed then keyed_object docs
  else
    match docs with
    | [(_, doc)] => automerge_to_json doc
    | [] => VObject []
    | _ => keyed_object docs
    end.

(** The descriptor the typed renderer fires on. *)
Definition typed_descriptor (reg : TypeRegistry) (docs : list (string * Doc)) (keyed : bool) : option (Doc * TypeDescriptor) :=
  if keyed then None
  else
    match docs with
    | [(key, doc)] => c ← collection_of key; desc ← for_collection reg c; Some (doc, desc)
    | _ => None
    end.

Definition ndjson_line (kd : string * Doc) : string :=
  to_string (json_object [("key", VString kd.1); ("doc", automerge_to_json kd.2)]).

Definition render_query (reg : TypeRegistry) (docs : list (string * Doc)) (fmt : OutputFormat) (keyed : bool) : Cmd (M := M) unit :=
  match fmt with
  | Text =>
      match typed_descriptor reg docs keyed with
      | Some (doc, desc) => print (render_typed_doc (automerge_to_json doc) desc)
      | None => println (to_string_pretty (structural_value docs keyed))
      end
  | JsonOutput => println (to_string_pretty (structural_value docs keyed))
  | Ndjson => for_each (λ kd, println (ndjson_line kd)) docs
  end.

(** ** The type registry *)

Definition resolve_type (reg : TypeRegistry) (target : string) : option TypeDescriptor :=
  match for_collection reg target with Some d => Some d | None => get_type reg target end.

Fixpoint format_field_format (fmt : FieldFormat) : string :=
  match fmt with
  | FText => "text"
  | FNumber (Some u) => "number[" +:+ u +:+ "]"
  | FNumber None => "number"
  | FPercentage => "percentage"
  | FBoolean => "boolean"
  | FTimestamp => "timestamp"
  | FPosition => "position"
  | FEnum variants => "enum[" +:+ join_with "|" variants +:+ "]"
  | FNested nested_type_id => "nested[" +:+ nested_type_id +:+ "]"
  | FList item_format => "list[" +:+ format_field_format item_format +:+ "]"
  | FJsonString => "json-string"
  | FBlobRef => "blob-ref"
  | FOther => "unknown"
  end.

Definition descriptor_json (desc : TypeDescriptor) : value :=
  json_object [
    ("id", VString (td_id desc));
    ("name", VString (td_name desc));
    ("version", VString (td_version desc));
    ("collection", json_option VString (td_collection desc));
    ("fields", VArray ((λ f, json_object [
      ("name", VString (fd_name f));
      ("label", VString (fd_label f));
      ("format", VString (format_field_format (fd_format f)))]) <$> td_fields desc))].

(** [sort_by] on the ids: a stable sort *)
Definition id_le (a b : TypeDescriptor) : Prop := ¬ String_as_OT.lt (td_id b) (td_id a).

Lemma id_le_compare a b : id_le a b ↔ String_as_OT.compare (td_id b) (td_id a) ≠ Lt.
Proof.
  unfold id_le. destruct (String_as_OT.compare_spec (td_id b) (td_id a)) as [->|Hl|Hg]; [|by split|].
  - split; [done|]. intros _. apply (StrictOrder_Irreflexive (R := String_as_OT.lt)).
  - split; [done|]. intros _ Hl. apply (StrictOrder_Irreflexive (R := String_as_OT.lt) (td_id a)). by etrans.
Qed.

#[global] Instance id_le_dec a b : Decision (id_le a b).
Proof. refine (cast_if (decide (String_as_OT.compare (td_id b) (td_id a) ≠ Lt))); by rewrite id_le_compare. Defined.

Definition sorted_types (reg : TypeRegistry) : list TypeDescriptor := merge_sort id_le (registry_iter reg).

Definition collection_cell (d : TypeDescriptor) : string := default "-"%string (td_collection d).

Definition list_row (coll_w name_w : nat) (coll name ver id : string) : string :=
  pad_right coll_w coll +:+ "  " +:+ pad_right name_w name +:+ "  " +:+ pad_right 7 ver +:+ "  " +:+ id.

Definition render_list (reg : TypeRegistry) (fmt : OutputFormat) : Cmd (M := M) unit :=
  let entries := sorted_types reg in
  match fmt with
  | JsonOutput => println (to_string_pretty (VArray (descriptor_json <$> entries)))
  | Ndjson => for_each (λ d, println (to_string (descriptor_json d))) entries
  | Text =>
      let coll_w := Nat.max (max_len (collection_cell <$> entries)) (String.length "COLLECTION") in
      let name_w := Nat.max (max_len (td_name <$> entries)) (String.length "TYPE") in
      println (list_row coll_w name_w "COLLECTION" "TYPE" "VERSION" "ID");;
      for_each (λ d, println (list_row coll_w name_w (collection_cell d) (td_name d) (td_version d) (td_id d))) entries
  end.

Definition render_describe (reg : TypeRegistry) (target : string) (fmt : OutputFormat) : Cmd (M := M) unit :=
  match resolve_type reg target with
  | None => stop (Malformed ("no registered type matches `" +:+ target +:+ "` (try `peat schema list`)"))
  | Some desc =>
      match fmt with
      | JsonOutput => println (to_string_pretty (descriptor_json desc))
      | Ndjson => println (to_string (descriptor_json desc))
      | Text =>
          println (td_name desc +:+ " (" +:+ td_version desc +:+ ")");;
          println ("  id:         " +:+ td_id desc);;
          println ("  collection: " +:+ collection_cell desc);;
          println "  fields:";;
          let label_w := max_len (fd_label <$> td_fields desc) in
          let name_w := max_len (fd_name <$> td_fields desc) in
          for_each (λ f, println ("    " +:+ pad_right label_w (fd_label f) +:+ "  " +:+ pad_right name_w (fd_name f) +:+ "  " +:+
                                  format_field_format (fd_format f))) (td_fields desc)
      end
  end.

Inductive SchemaSubcommand := SchemaList | SchemaDescribe (target : string).

Definition schema_run (reg : TypeRegistry) (sub : SchemaSubcommand) (fmt : OutputFormat) : Cmd (M := M) unit :=
  match sub with
  | SchemaList => render_list reg fmt
  | SchemaDescribe target => render_describe reg target fmt
  end.

End docs.
End output.
