(* ===== verification/CliCommands.v ===== *)
(** * The document commands

    Model of [crates/peat-cli/src/cli/create.rs], [update.rs], [delete.rs],
    [query.rs] and [observe.rs]. While a command waits, the mesh changes by itself:
    [query] is given the mesh at each of its polls with the clock, [observe] the
    events it receives with what the store answers to the read that follows. *)

From S2P Require Import Prelude Json CliCore CliWorld CliWrites CliOutput.
From Stdlib Require Import Strings.Ascii Floats.SpecFloat.

Record CommonArgs := mkCommon {
  ca_creds : option string;
  ca_data_dir : option string;
  ca_as_id : option string;
  ca_timeout : string;
  ca_output : OutputFormat;
}.

Record CreateArgs := mkCreate {
  cra_target : string;
  cra_from : option string;
  cra_set : list string;
  cra_dry_run : bool;
  cra_wait_for_sync : bool;
  cra_no_validate : bool;
}.

Record UpdateArgs := mkUpdate {
  ua_target : string;
  ua_from : option string;
  ua_set : list string;
  ua_dry_run : bool;
  ua_wait_for_sync : bool;
  ua_no_validate : bool;
}.

Record DeleteArgs := mkDelete { da_target : string; da_wait_for_sync : bool }.

Record QueryArgs := mkQuery { qa_target : option string; qa_all_collections : bool; qa_limit : option nat }.

Record ObserveArgs := mkObserve { oa_target : option string; oa_all_collections : bool }.

Definition POST_WRITE_SYNC_WAIT : Z := 750.
Definition POLL_INTERVAL : Z := 100.
Definition INITIAL_SETTLE : Z := 250.
Definition MAX_DEDUP_KEYS : nat := Z.to_nat 10000.

(** [format!("{collection}:{doc_id}")] *)
Definition store_key (collection doc_id : string) : string := collection +:+ ":" +:+ doc_id.

Section commands.
Context `{J : JsonLib} {F : FloatText} {P : JsonPretty} {M : Type} `{!Mesh M}.
Context (reg : TypeRegistry) (env : CliEnv) (stdin : result string string).
Abbreviation value := (Value JNumber).
Abbreviation Cmd := (CliWorld.Cmd (M := M)).

(** ** What the commands share *)

(** [MeshSession::open(creds, SessionOptions { .. })] *)
Definition open_session (creds : PeatCredentials) (timeout : Z) (common : CommonArgs) : Cmd unit :=
  r ← on_mesh (session_open creds (mkOptions timeout (ca_as_id common) (ca_data_dir common)));
  try r.

(** Credentials, then the timeout, then the session. *)
Definition join_mesh (common : CommonArgs) : Cmd Z :=
  creds ← try (load env (ca_creds common));
  timeout ← try (parse_timeout (ca_timeout common));
  open_session creds timeout common;;
  mret timeout.

(** A call whose error is logged and dropped. *)
Definition logged {A} (f : M → result string A * M) : Cmd unit := on_mesh f;; mret tt.

(** [--wait-for-sync] after a write *)
Definition confirm_sync (key : string) : Cmd unit :=
  logged (sync_document key);;
  peers ← gets_mesh connected_peers;
  for_each (λ peer, logged (sync_all_with peer)) peers;;
  sleep POST_WRITE_SYNC_WAIT.

(** [.map_err(|e| CliError::Generic(format!("{what}: {e}")))?] on a call that changes the mesh *)
Definition call {A} (what : string) (f : M → result string A * M) : Cmd A :=
  r ← on_mesh f; try (map_err (λ e, Generic (what +:+ ": " +:+ e)) r).

Definition read {A} (what : string) (f : M → result string A) : Cmd A :=
  r ← gets_mesh f; try (map_err (λ e, Generic (what +:+ ": " +:+ e)) r).

Definition quoted (verb key : string) : string := verb +:+ " `" +:+ key +:+ "`".

Definition print_operation (op key : string) (doc : value) : Cmd unit :=
  println (to_string_pretty (json_object [("op", VString op); ("key", VString key); ("doc", doc)])).

(** ** [create] *)

(** The document before the mesh is joined. *)
Definition create_document (args : CreateArgs) (collection doc_id : string) : result Stop value :=
  let? v :=
    (match cra_from args, cra_set args with
     | Some path, _ => map_err Fails (read_from env stdin path)
     | None, (_ :: _) as sets => apply_sets (VObject []) sets
     | None, [] => Err Panics (* unreachable!() *)
     end) in
  let? v := map_err Fails (reconcile_id reg collection doc_id v) in
  let v := apply_proto3_defaults reg collection v in
  let? _ := (if cra_no_validate args then Ok tt else map_err Fails (validate_against_schema reg collection v)) in
  Ok v.

Definition create_run (uuid : string) (args : CreateArgs) (common : CommonArgs) : Cmd unit :=
  '(collection, doc_id_opt) ← try (parse_target (cra_target args));
  let doc_id := default uuid doc_id_opt in
  let key := store_key collection doc_id in
  json_value ← lift (create_document args collection doc_id);
  if cra_dry_run args then print_operation "create" key json_value
  else
    join_mesh common;;
    existing ← read (quoted "read" key) (store_get key);
    match existing with
    | Some _ => stop (Malformed ("document `" +:+ key +:+ "` already exists; use `update` for upsert semantics"))
    | None =>
        doc ← try (map_err (λ e, Generic ("build automerge doc: " +:+ e)) (json_to_automerge json_value None));
        call (quoted "put" key) (store_put key doc);;
        (if cra_wait_for_sync args then confirm_sync key else mret tt);;
        println key
    end.

(** ** [update] *)

Definition update_document (args : UpdateArgs) (collection doc_id : string) (from_doc : option value) (existing : option Doc)
  : result Stop value :=
  let? v :=
    (match from_doc with
     | Some doc => Ok doc
     | None => apply_sets (match existing with Some d => automerge_to_json d | None => VObject [] end) (ua_set args)
     end) in
  let? v := map_err Fails (reconcile_id reg collection doc_id v) in
  let v := apply_proto3_defaults reg collection v in
  let? _ := (if ua_no_validate args then Ok tt else map_err Fails (validate_against_schema reg collection v)) in
  Ok v.

(** The write: a delta on the stored history, or the first version. *)
Definition update_write (key : string) (existing : option Doc) (updated : value) : Cmd unit :=
  match existing with
  | Some current =>
      proposed ← try (map_err (λ e, Generic ("build automerge doc: " +:+ e)) (json_to_automerge updated (Some current)));
      call (quoted "apply_delta" key) (store_apply_delta key (doc_diff current proposed))
  | None =>
      doc ← try (map_err (λ e, Generic ("build automerge doc: " +:+ e)) (json_to_automerge updated None));
      call (quoted "put" key) (store_put key doc)
  end.

Definition update_run (args : UpdateArgs) (common : CommonArgs) : Cmd unit :=
  '(collection, doc_id) ← try (parse_target (ua_target args));
  doc_id ← try (ok_or doc_id (Malformed ("update requires `<collection>/<doc_id>`; got `" +:+ ua_target args +:+ "`")));
  let key := store_key collection doc_id in
  from_doc ← try (match ua_from args with Some path => map_ok Some (read_from env stdin path) | None => Ok None end);
  join_mesh common;;
  existing ← read (quoted "read" key) (store_get key);
  updated ← lift (update_document args collection doc_id from_doc existing);
  if ua_dry_run args then
    print_operation (match existing with Some _ => "update" | None => "create-via-update" end) key updated
  else
    update_write key existing updated;;
    (if ua_wait_for_sync args then confirm_sync key else mret tt);;
    println key.

(** ** [delete] *)

Definition push_tombstones (wait_for_sync : bool) (peer : PeerId) : Cmd unit :=
  r ← on_mesh (send_tombstones peer);
  match r with
  | Err _ => mret tt
  | Ok _ => if wait_for_sync then logged (sync_all_with peer) else mret tt
  end.

Definition delete_run (args : DeleteArgs) (common : CommonArgs) : Cmd unit :=
  '(collection, doc_id) ← try (parse_target (da_target args));
  doc_id ← try (ok_or doc_id (Malformed ("delete requires `<collection>/<doc_id>`; got `" +:+ da_target args +:+ "`")));
  join_mesh common;;
  lamport ← on_mesh next_lamport;
  node_id ← gets_mesh session_node_id;
  call "put_tombstone" (store_put_tombstone (mkTombstone doc_id collection node_id lamport));;
  peers ← gets_mesh connected_peers;
  for_each (push_tombstones (da_wait_for_sync args)) peers;;
  (if da_wait_for_sync args then sleep POST_WRITE_SYNC_WAIT else mret tt);;
  println ("tombstone:" +:+ collection +:+ "/" +:+ doc_id).

(** ** [query] *)

Inductive Scope := Single (collection : string) (doc_id : option string) | All.

Definition limited {A} (limit : option nat) (entries : list A) : list A :=
  match limit with Some n => take n entries | None => entries end.

(** One poll. *)
Definition read_scope (scope : Scope) (limit : option nat) (m : M) : result CliError (list (string * Doc)) :=
  match scope with
  | Single collection (Some id) =>
      let key := store_key collection id in
      let? found := map_err (λ e, Generic (quoted "read" key +:+ ": " +:+ e)) (store_get key m) in
      Ok (match found with Some doc => [(key, doc)] | None => [] end)
  | Single collection None =>
      let prefix := collection +:+ ":" in
      map_ok (limited limit) (map_err (λ e, Generic (quoted "scan" prefix +:+ ": " +:+ e)) (store_scan_prefix prefix m))
  | All => map_ok (limited limit) (map_err (λ e, Generic ("scan all: " +:+ e)) (store_scan_prefix "" m))
  end.

Definition is_keyed (scope : Scope) : bool := match scope with Single _ (Some _) => false | _ => true end.

(** The polling loop: the documents to render, [None] while it still polls. *)
Fixpoint query_loop (scope : Scope) (limit : option nat) (deadline : Z) (polls : list (M * Z)) : option (result CliError (list (string * Doc))) :=
  match polls with
  | [] => None
  | (m, now) :: polls =>
      match read_scope scope limit m with
      | Err e => Some (Err e)
      | Ok docs =>
          if negb (bool_decide (docs = [])) || (deadline <=? now) then Some (Ok docs)
          else query_loop scope limit deadline polls
      end
  end.

(** [Instant + Duration] panics past the clock's range. *)
Definition instant_add (now timeout : Z) : option Z :=
  if (now + timeout) / 1000 <=? 2 ^ 63 - 1 then Some (now + timeout) else None.

Definition query_scope (args : QueryArgs) : result Stop Scope :=
  if qa_all_collections args then Ok All
  else
    match qa_target args with
    | None => Err Panics (* the argument group requires a target *)
    | Some target => map_ok (λ '(c, d), Single c d) (map_err Fails (parse_target target))
    end.

Definition query_run (args : QueryArgs) (common : CommonArgs) (now : Z) (polls : list (M * Z)) : Cmd (option unit) :=
  scope ← lift (query_scope args);
  timeout ← join_mesh common;
  sleep INITIAL_SETTLE;;
  match instant_add now timeout with
  | None => panic
  | Some deadline =>
      match query_loop scope (qa_limit args) deadline polls with
      | None => mret None
      | Some r => docs ← try r; render_query reg docs (ca_output common) (is_keyed scope);; mret (Some tt)
      end
  end.

(** ** [observe] *)

(** What the select loop is woken by; a change comes with the read it causes. *)
Inductive ObserveEvent :=
| Sigint
| Changed (key : string) (found : result string (option Doc))
| Lagged (dropped : Z)
| Closed.

(** The prefix and the exact key of the events that pass. *)
Definition observe_filter (args : ObserveArgs) : result Stop (string * option string) :=
  if oa_all_collections args then Ok (""%string, None)
  else
    match oa_target args with
    | None => Err Panics
    | Some target =>
        let? (collection, doc_id) := map_err Fails (parse_target target) in
        Ok (collection +:+ ":", store_key collection <$> doc_id)
    end.

Definition observe_passes (filter : string * option string) (key : string) : bool :=
  match filter.2 with
  | Some target => bool_decide (key = target)
  | None => starts_with key filter.1
  end.

(** [DefaultHasher] over the saved bytes *)
Context (hash_bytes : bytes → Z).

Definition doc_digest (d : Doc) : Z := hash_bytes (doc_save d).

(** What an event makes the loop print, and its memory of the last prints. *)
Definition observe_record (last_seen : gmap string Z) (key : string) (found : result string (option Doc))
  : option (option Doc) * gmap string Z :=
  match found with
  | Ok (Some d) =>
      let digest := doc_digest d in
      if bool_decide (last_seen !! key = Some digest) then (None, last_seen)
      else
        let last_seen := if bool_decide (MAX_DEDUP_KEYS ≤ size last_seen)%nat then ∅ else last_seen in
        (Some (Some d), <[key := digest]> last_seen)
  | Ok None => (Some None, delete key last_seen)
  | Err _ => (None, last_seen)
  end.

Definition render_record (fmt : OutputFormat) (key : string) (record : option Doc) : Cmd unit :=
  match record with
  | Some d => render_observe_event key d fmt
  | None => render_observe_deleted key fmt
  end.

(** [None] while the loop still waits for events. *)
Fixpoint observe_loop (fmt : OutputFormat) (filter : string * option string) (last_seen : gmap string Z) (events : list ObserveEvent)
  : Cmd (option unit) :=
  match events with
  | [] => mret None
  | Sigint :: _ => stop Interrupted
  | Lagged _ :: events => observe_loop fmt filter last_seen events
  | Closed :: _ => mret (Some tt)
  | Changed key found :: events =>
      if observe_passes filter key then
        let '(record, last_seen) := observe_record last_seen key found in
        match record with
        | None => observe_loop fmt filter last_seen events
        | Some record => render_record fmt key record;; observe_loop fmt filter last_seen events
        end
      else observe_loop fmt filter last_seen events
  end.

Definition observe_run (args : ObserveArgs) (common : CommonArgs) (events : list ObserveEvent) : Cmd (option unit) :=
  filter ← lift (observe_filter args);
  join_mesh common;;
  observe_loop (ca_output common) filter ∅ events.

End commands.
