(* ===== verification/CliCommandsFacts.v ===== *)
(** * The document commands are correct

    Writes: what [create] and [update] do to the store, on every branch, against the
    store's contract [MeshLaws]. Reads: [query] answers by its deadline with what the
    store held, [observe] leaves its reader with the current state of every document.
    Output: the machine formats lose nothing. *)

From S2P Require Import Prelude Json CliCore CliWorld CliWrites CliWritesFacts CliOutput CliCommands.
From Stdlib Require Import Strings.Ascii Floats.SpecFloat.

(** What the store promises: a write stores its document, a failed one nothing, and
    neither touches another key. *)
Class MeshLaws (M : Type) `{J : JsonLib} `{!Mesh M} := {
  put_ok k d m m' : store_put k d m = (Ok tt, m') →
    store_get k m' = Ok (Some d) ∧ ∀ j, j ≠ k → store_get j m' = store_get j m;
  put_err k d m e m' : store_put k d m = (Err e, m') → ∀ j, store_get j m' = store_get j m;
  delta_ok k cur d v m m' : store_get k m = Ok (Some cur) → json_to_automerge v (Some cur) = Ok d →
    store_apply_delta k (doc_diff cur d) m = (Ok tt, m') →
    store_get k m' = Ok (Some d) ∧ ∀ j, j ≠ k → store_get j m' = store_get j m;
  delta_err k x m e m' : store_apply_delta k x m = (Err e, m') → ∀ j, store_get j m' = store_get j m;
}.

Section facts.
Context `{J : JsonLib} {F : FloatText} {P : JsonPretty} {M : Type} `{!Mesh M}.
Context (reg : TypeRegistry) (env : CliEnv) (stdin : result string string).
Abbreviation value := (Value JNumber).
Abbreviation Cmd := (CliWorld.Cmd (M := M)).
Implicit Types (w : Proc M) (m : M).

(** ** Symbolic execution *)

Definition set_mesh m w : Proc M := mkProc m (pr_stdout w) (pr_pipe w) (pr_slept w).

Lemma wp_try {A} (r : result CliError A) Q w :
  (∀ a, r = Ok a → Q (Ok a) w) → (∀ e, r = Err e → Q (Err (Fails e)) w) → wp (try r : Cmd A) Q w.
Proof. intros Ho He. unfold try. wp_step. destruct r; cbn; auto. Qed.

Lemma map_err_Ok {E E' A} (f : E → E') (r : result E A) a : map_err f r = Ok a → r = Ok a.
Proof. by destruct r; intros; simplify_eq/=. Qed.

Lemma wp_on_mesh {A} (f : M → A * M) Q w :
  (∀ a m, f (pr_mesh w) = (a, m) → Q (Ok a) (set_mesh m w)) → wp (on_mesh f) Q w.
Proof. intros HQ. unfold wp, on_mesh. destruct (f (pr_mesh w)) as [a m] eqn:E. by apply HQ. Qed.

Lemma wp_mesh_call {A} what (f : M → result string A * M) Q w :
  (∀ a m, f (pr_mesh w) = (Ok a, m) → Q (Ok a) (set_mesh m w)) →
  (∀ e m, f (pr_mesh w) = (Err e, m) → Q (Err (Fails (Generic (what +:+ ": " +:+ e)))) (set_mesh m w)) →
  wp (call what f) Q w.
Proof.
  intros Ho He. unfold call. wp_step. apply wp_on_mesh. intros [a|e] m Hf; apply wp_try; intros ? H; cbn in H; simplify_eq; auto.
Qed.

Lemma wp_read {A} what (f : M → result string A) Q w :
  (∀ a, f (pr_mesh w) = Ok a → Q (Ok a) w) →
  (∀ e, f (pr_mesh w) = Err e → Q (Err (Fails (Generic (what +:+ ": " +:+ e)))) w) →
  wp (read what f) Q w.
Proof.
  intros Ho He. unfold read. wp_step. unfold gets_mesh. wp_step. cbn.
  apply wp_try; intros ? H; destruct (f (pr_mesh w)) eqn:E; cbn in H; simplify_eq; auto.
Qed.

(** A print touches neither the mesh nor what was printed before. *)
Lemma wp_print text Q w :
  (∀ rest, Q (Ok tt) (mkProc (pr_mesh w) (pr_stdout w ++ [text]) rest (pr_slept w))) →
  (∀ rest, Q (Err Panics) (mkProc (pr_mesh w) (pr_stdout w) rest (pr_slept w))) →
  wp (print text : Cmd unit) Q w.
Proof.
  intros Ho He. unfold wp, print, mbind, st_err_bind, write_text. destruct (pr_pipe w) as [|[| |e] rest]; cbn; auto.
Qed.

Lemma wp_println line Q w :
  (∀ rest, Q (Ok tt) (mkProc (pr_mesh w) (pr_stdout w ++ [line +:+ newline]) rest (pr_slept w))) →
  (∀ rest, Q (Err Panics) (mkProc (pr_mesh w) (pr_stdout w) rest (pr_slept w))) →
  wp (println line : Cmd unit) Q w.
Proof. apply wp_print. Qed.

(** The mesh a command works on, once it has joined. *)
Definition joined (common : CommonArgs) m : result CliError Z * M :=
  match load env (ca_creds common) with
  | Err e => (Err e, m)
  | Ok creds =>
      match parse_timeout (ca_timeout common) with
      | Err e => (Err e, m)
      | Ok timeout =>
          let '(r, m) := session_open creds (mkOptions timeout (ca_as_id common) (ca_data_dir common)) m in
          (map_ok (λ _, timeout) r, m)
      end
  end.

Lemma wp_join common Q w :
  (∀ t m, joined common (pr_mesh w) = (Ok t, m) → Q (Ok t) (set_mesh m w)) →
  (∀ e m, joined common (pr_mesh w) = (Err e, m) → Q (Err (Fails e)) (set_mesh m w)) →
  wp (join_mesh env common) Q w.
Proof.
  assert (w = set_mesh (pr_mesh w) w) as Hw by (by destruct w).
  unfold joined, join_mesh, open_session. intros Ho He.
  destruct (load env (ca_creds common)) as [creds|e] eqn:El; cycle 1.
  { wp_step. apply wp_try; intros ? [= <-]. rewrite Hw. auto. }
  wp_step. apply wp_try; intros ? [= <-].
  destruct (parse_timeout (ca_timeout common)) as [t|e] eqn:Et; cycle 1.
  { wp_step. apply wp_try; intros ? [= <-]. rewrite Hw. auto. }
  wp_step. apply wp_try; intros ? [= <-]. wp_step. wp_step. apply wp_on_mesh. intros r m Hm. rewrite Hm in Ho, He.
  apply wp_try; intros a ->; [wp_step|]; auto.
Qed.

(** ** [create] *)

(** Nothing is joined, written or dialled for a target or a document that is refused,
    nor by a dry run, which prints the operation. *)
Lemma create_stays_local uuid args common w :
  (∀ c d, parse_target (cra_target args) = Ok (c, d) → cra_dry_run args = true ∨ ∃ e, create_document reg env stdin args c (default uuid d) = Err e) →
  wp (create_run reg env stdin uuid args common) (λ _ w', pr_mesh w' = pr_mesh w ∧ pr_slept w' = pr_slept w) w.
Proof.
  intros Hl. unfold create_run. wp_step. apply wp_try; [|done]. intros [c d] Ht. specialize (Hl c d Ht).
  wp_step. wp_step. destruct (create_document _ _ _ _ _ _) as [v|e]; [|done].
  destruct Hl as [->|[e ?]]; [|done]. unfold print_operation. by apply wp_println.
Qed.

(** The store after a strict create of [key]. *)
Definition created (v : value) (key : string) m (r : result Stop unit) m' : Prop :=
  (∀ j, j ≠ key → store_get j m' = store_get j m) ∧
  (∀ d, store_get key m = Ok (Some d) → store_get key m' = Ok (Some d) ∧ ∃ msg, r = Err (Fails (Malformed msg))) ∧
  (r = Ok tt → store_get key m = Ok None ∧ ∃ d, json_to_automerge v None = Ok d ∧ store_get key m' = Ok (Some d)) ∧
  (∀ e, r = Err (Fails e) → store_get key m' = store_get key m).


(** ** [update] *)

(** The store after an update of [key] that saw [existing] there. *)
Definition updated (v : value) (key : string) (existing : option Doc) m (r : result Stop unit) m' : Prop :=
  (∀ j, j ≠ key → store_get j m' = store_get j m) ∧
  (r = Ok tt → ∃ d, json_to_automerge v existing = Ok d ∧ store_get key m' = Ok (Some d)) ∧
  (∀ e, r = Err (Fails e) → store_get key m' = store_get key m).

Lemma wp_update_write `{!MeshLaws M} key existing v w :
  store_get key (pr_mesh w) = Ok existing →
  wp (update_write key existing v) (λ r w', updated v key existing (pr_mesh w) r (pr_mesh w') ∧ pr_stdout w' = pr_stdout w) w.
Proof.
  intros Hg. unfold update_write. destruct existing as [cur|]; wp_step; (apply wp_try; [intros d Hd%map_err_Ok|intros e _; by split_and!]).
  all: apply wp_mesh_call; intros a m Hm; (split; [|done]); cbn in Hm |- *.
  - destruct a. eapply delta_ok in Hm as [Hk Ho]; [|done..]. split_and!; [done|by eauto|done].
  - pose proof (delta_err _ _ _ _ _ Hm) as Hs. split_and!; [by intros; apply Hs|done|by intros; apply Hs].
  - destruct a. apply put_ok in Hm as [Hk Ho]. split_and!; [done|by eauto|done].
  - pose proof (put_err _ _ _ _ _ Hm) as Hs. split_and!; [by intros; apply Hs|done|by intros; apply Hs].
Qed.

(** [update] evolves. A refused target or [--from] file leaves the mesh alone. Once
    joined and the document read, the store ends up with the proposed document built on
    the history that was read, or from nothing when there was none; a refused document,
    a dry run and a reported failure change no document, and no other document ever
    changes. *)
Theorem update_evolves `{!MeshLaws M} args common w c doc_id from_doc :
  ua_wait_for_sync args = false →
  parse_target (ua_target args) = Ok (c, Some doc_id) →
  match ua_from args with Some path => map_ok Some (read_from env stdin path) | None => Ok None end = Ok from_doc →
  let key := store_key c doc_id in
  wp (update_run reg env stdin args common) (λ r w',
    match joined common (pr_mesh w) with
    | (Err e, m) => r = Err (Fails e) ∧ pr_mesh w' = m
    | (Ok _, m) =>
        match store_get key m with
        | Err _ => pr_mesh w' = m ∧ is_err r = true
        | Ok existing =>
            match update_document reg args c doc_id from_doc existing with
            | Err e => r = Err e ∧ pr_mesh w' = m
            | Ok v => if ua_dry_run args then pr_mesh w' = m else updated v key existing m r (pr_mesh w')
            end
        end
    end) w.
Proof.
  intros Hwait Ht Hf key. unfold update_run. wp_step. apply wp_try; rewrite Ht; [|done]. intros [? ?] [= <- <-].
  wp_step. apply wp_try; [|done]. intros ? [= <-]. wp_step. apply wp_try; rewrite Hf; [|done]. intros ? [= <-]. fold key.
  wp_step. apply wp_join; intros t m Hj; rewrite Hj; [|done].
  wp_step. apply wp_read; intros existing Hg; cbn in Hg; rewrite Hg; [|done].
  wp_step. wp_step. destruct (update_document reg args c doc_id from_doc existing) as [v|e]; [|done].
  destruct (ua_dry_run args); [by unfold print_operation; apply wp_println|].
  wp_step. eapply wp_mono; [by apply wp_update_write|]. cbn. intros [[]|e] w' [Hu _]; [|done].
  rewrite Hwait. wp_step. wp_step. destruct Hu as (Ho & Hok & _).
  apply wp_println; intros rest; cbn; split_and!; try done.
Qed.

(** ** [query] *)

(** [query] answers. When its polls are [POLL_INTERVAL] apart, the loop has answered
    by the poll at which the timeout has run out, and its answer is that of the first
    poll that fails, finds something or is past the deadline: an empty answer means
    that no poll found anything. *)
Theorem query_answers scope limit deadline start (polls : list (M * Z)) :
  polls ≠ [] →
  (∀ i p, polls !! i = Some p → start + POLL_INTERVAL * Z.of_nat i ≤ p.2) →
  deadline ≤ start + POLL_INTERVAL * (Z.of_nat (length polls) - 1) →
  ∃ before m now rest, polls = before ++ (m, now) :: rest ∧
    (∀ p, p ∈ before → read_scope scope limit p.1 = Ok [] ∧ p.2 < deadline) ∧
    (now < deadline → read_scope scope limit m ≠ Ok []) ∧
    query_loop scope limit deadline polls = Some (read_scope scope limit m).
Proof.
  revert start. induction polls as [|[m now] polls IH]; intros start Hne Hclock Hlen; [done|].
  assert ((read_scope scope limit m = Ok [] ∧ now < deadline) ∨
    ((now < deadline → read_scope scope limit m ≠ Ok []) ∧
     query_loop scope limit deadline ((m, now) :: polls) = Some (read_scope scope limit m))) as [[Hr Hn]|[Hstop Hq]].
  { cbn. destruct (read_scope scope limit m) as [[|kd docs]|e]; [|by right|by right]. destruct (decide (now < deadline)); [by left|].
    right. split; [done|]. rewrite (proj2 (Z.leb_le _ _)) by lia. by destruct (bool_decide _). }
  - destruct (IH (start + POLL_INTERVAL)) as (before & m' & now' & rest & -> & Hb & Hm & Hq).
    + intros ->. specialize (Hclock 0%nat (m, now) eq_refl). cbn in Hclock, Hlen. lia.
    + intros i p Hp. specialize (Hclock (S i) p Hp). lia.
    + cbn [length] in Hlen. lia.
    + exists ((m, now) :: before), m', now', rest. split_and!; [done| |done|].
      * intros p [->|Hp]%elem_of_cons; auto.
      * cbn [query_loop]. rewrite Hr. cbn. rewrite (proj2 (Z.leb_gt _ _)) by done. exact Hq.
  - exists [], m, now, polls. split_and!; [done|by intros p ?%elem_of_nil|done|done].
Qed.

(** ** [observe] *)

Section observe.
Context (hash_bytes : bytes → Z).
Abbreviation digest := (doc_digest hash_bytes).

(** The records printed so far and the loop's memory, event by event. *)
Definition observe_step (filter : string * option string) (s : list (string * option Doc) * gmap string Z) (ev : ObserveEvent (M := M))
  : list (string * option Doc) * gmap string Z :=
  match ev with
  | Changed key found =>
      if observe_passes filter key then
        let '(record, last_seen) := observe_record hash_bytes s.2 key found in
        (match record with Some r => s.1 ++ [(key, r)] | None => s.1 end, last_seen)
      else s
  | _ => s
  end.

Definition observe_trace (filter : string * option string) (events : list (ObserveEvent (M := M))) :=
  foldl (observe_step filter) ([], ∅) events.

(** The state in which a key was last read. *)
Definition last_read (key : string) (events : list (ObserveEvent (M := M))) : option (option Doc) :=
  last (omap (λ ev, match ev with Changed k (Ok x) => if bool_decide (k = key) then Some x else None | _ => None end) events).

(** The last record printed of a key. *)
Definition last_record (key : string) (records : list (string * option Doc)) : option (option Doc) :=
  snd <$> last (List.filter (λ kr, bool_decide (kr.1 = key)) records).

(** The memory of the loop holds for a key only the digest of its last record. *)
Definition remembers (last_seen : gmap string Z) (records : list (string * option Doc)) : Prop :=
  ∀ key h, last_seen !! key = Some h → ∃ d, last_record key records = Some (Some d) ∧ digest d = h.

Lemma last_record_app key records k r :
  last_record key (records ++ [(k, r)]) = if bool_decide (k = key) then Some r else last_record key records.
Proof.
  unfold last_record. rewrite List.filter_app. cbn. case_bool_decide; [by rewrite last_snoc|by rewrite app_nil_r].
Qed.

Lemma observe_record_remembers last_seen records key found record last_seen' :
  remembers last_seen records → observe_record hash_bytes last_seen key found = (record, last_seen') →
  remembers last_seen' (match record with Some r => records ++ [(key, r)] | None => records end).
Proof.
  intros Hr Ho k h Hk. destruct found as [[d|]|e]; cbn in Ho; [|simplify_eq; rewrite last_record_app..|simplify_eq; auto].
  - case_bool_decide; simplify_eq; [auto|]. rewrite last_record_app. destruct (decide (key = k)) as [->|Hkk].
    + rewrite bool_decide_true by done. rewrite lookup_insert_eq in Hk. simplify_eq. eauto.
    + rewrite bool_decide_false by done. rewrite lookup_insert_ne in Hk by done. case_bool_decide; [by rewrite lookup_empty in Hk|auto].
  - apply lookup_delete_Some in Hk as [Hne Hk]. rewrite bool_decide_false by done. auto.
Qed.

Lemma observe_trace_snoc filter events ev :
  observe_trace filter (events ++ [ev]) = observe_step filter (observe_trace filter events) ev.
Proof. unfold observe_trace. by rewrite foldl_app. Qed.

Lemma observe_trace_remembers filter events :
  remembers (observe_trace filter events).2 (observe_trace filter events).1.
Proof.
  induction events as [|ev events IH] using rev_ind; [intros k h Hk; cbn in Hk; by rewrite lookup_empty in Hk|].
  rewrite observe_trace_snoc. destruct (observe_trace filter events) as [records last_seen]. destruct ev as [|key found| |]; cbn; try done.
  destruct (observe_passes filter key); [|done]. destruct (observe_record _ _ _ _) as [record last_seen'] eqn:Ho. cbn.
  by eapply observe_record_remembers.
Qed.

Lemma observe_record_size last_seen key found :
  (size last_seen ≤ MAX_DEDUP_KEYS)%nat → (size (observe_record hash_bytes last_seen key found).2 ≤ MAX_DEDUP_KEYS)%nat.
Proof.
  intros Hs. destruct found as [[d|]|e]; cbn [observe_record snd]; [|rewrite map_size_delete; case_match; [by etrans; [apply Nat.le_pred_l|]|done]|done].
  case_bool_decide; [done|]. cbn [snd]. rewrite map_size_insert. case_bool_decide as Hm.
  - rewrite lookup_empty, map_size_empty. apply Nat.leb_le. vm_compute. reflexivity.
  - apply Nat.nle_gt in Hm. by case_match.
Qed.

Lemma last_read_snoc key events ev :
  last_read key (events ++ [ev]) =
  match ev with Changed k (Ok x) => if bool_decide (k = key) then Some x else last_read key events | _ => last_read key events end.
Proof.
  unfold last_read. rewrite omap_app. destruct ev as [|k [x|]| |]; cbn; rewrite ?app_nil_r; try done.
  case_bool_decide; [by rewrite last_snoc|by rewrite app_nil_r].
Qed.

(** A record as the stream prints it. *)
Definition record_line (fmt : OutputFormat) (kr : string * option Doc) : string :=
  let '(key, record) := kr in
  match record with
  | Some d =>
      match fmt with
      | Text => key +:+ " " +:+ to_string (automerge_to_json d)
      | JsonOutput => to_string (automerge_to_json d)
      | Ndjson => to_string (json_object [("key", VString key); ("doc", automerge_to_json d)])
      end
  | None =>
      match fmt with
      | Text => key +:+ " <deleted>"
      | JsonOutput => to_string (json_object [("deleted", VBool true)])
      | Ndjson => to_string (json_object [("key", VString key); ("deleted", VBool true)])
      end
  end.

(** Events after which the loop goes on. *)
Definition keeps_going (ev : ObserveEvent (M := M)) : Prop := match ev with Changed _ _ | Lagged _ => True | _ => False end.

Lemma observe_loop_run fmt filter events : ∀ records last_seen out m slept,
  Forall keeps_going events →
  ∃ records' last_seen', foldl (observe_step filter) (records, last_seen) events = (records ++ records', last_seen') ∧
    observe_loop hash_bytes fmt filter last_seen events (mkProc m out [] slept) =
    (Ok None, mkProc m (out ++ ((λ kr, record_line fmt kr +:+ newline) <$> records')) [] slept).
Proof.
  induction events as [|ev events IH]; intros records last_seen out m slept Hg.
  { exists [], last_seen. cbn. by rewrite !app_nil_r. }
  inversion Hg as [|?? Hev Hrest]; subst. destruct ev as [|key found|n|]; try done; cbn [foldl observe_loop observe_step].
  - destruct (observe_passes filter key); [|by apply IH]. cbn [fst snd]. destruct (observe_record _ _ _ _) as [[r|] ls]; [|by apply IH].
    destruct (IH (records ++ [(key, r)]) ls (out ++ [record_line fmt (key, r) +:+ newline]) m slept Hrest) as (rs & ls' & H1 & H2).
    exists ((key, r) :: rs), ls'. rewrite H1, <-app_assoc. split; [done|]. rewrite fmap_cons, <-(app_assoc out [_]) in *. cbn in H2 |- *. rewrite <-H2.
    unfold mbind, st_err_bind. by destruct r as [d|], fmt.
  - by apply IH.
Qed.

(** [C33] [observe] shows the current state. While its reader keeps up, the loop prints the
    records of the trace in order; after any sequence of events, the last record of a
    document that was read is the state it was last read in, up to the digest, or its
    deletion; and the memory of the loop stays within its bound. *)
Theorem observe_shows_current fmt filter events m out slept :
  Forall keeps_going events →
  let '(records, last_seen) := observe_trace filter events in
  observe_loop hash_bytes fmt filter ∅ events (mkProc m out [] slept) =
    (Ok None, mkProc m (out ++ ((λ kr, record_line fmt kr +:+ newline) <$> records)) [] slept) ∧
  (∀ key, observe_passes filter key = true →
    match last_read key events with
    | Some (Some d) => ∃ d', last_record key records = Some (Some d') ∧ digest d' = digest d
    | Some None => last_record key records = Some None
    | None => True
    end) ∧
  (size last_seen ≤ MAX_DEDUP_KEYS)%nat.
Proof.
  intros Hg. destruct (observe_loop_run fmt filter events [] ∅ out m slept Hg) as (records & last_seen & Ht & Hrun).
  unfold observe_trace. rewrite Ht. cbn [app]. split; [done|]. change (foldl _ _ _) with (observe_trace filter events) in Ht.
  clear Hrun Hg. cbn [app] in Ht. revert records last_seen Ht. induction events as [|ev events IH] using rev_ind; intros records last_seen.
  { intros [= <- <-]. split; [done|]. rewrite map_size_empty. apply Nat.le_0_l. }
  rewrite observe_trace_snoc. pose proof (observe_trace_remembers filter events) as Hrem.
  destruct (observe_trace filter events) as [records0 last_seen0] eqn:E. specialize (IH _ _ eq_refl) as [IH Hsize].
  assert (∀ key, (∀ k x, ev = Changed k (Ok x) → k ≠ key) → last_read key (events ++ [ev]) = last_read key events) as Hsame.
  { intros key Hne. rewrite last_read_snoc. destruct ev as [|k [x|]| |]; try done. by rewrite bool_decide_false by (by eapply Hne). }
  destruct ev as [|k found| |]; cbn [observe_step]; try (intros [= <- <-]; split; [|done]; intros key Hp; rewrite Hsame by done; by apply IH).
  destruct (observe_passes filter k) eqn:Hpass; cbn [fst snd] in *; cycle 1.
  { intros [= <- <-]. split; [|done]. intros key Hp. rewrite Hsame; [by apply IH|]. intros ?? [= <- ->] ->. congruence. }
  pose proof (observe_record_size last_seen0 k found Hsize) as Hsz.
  destruct (observe_record hash_bytes last_seen0 k found) as [record ls] eqn:Ho. intros [= <- <-]. split; [|done].
  intros key Hp. rewrite last_read_snoc.
  destruct found as [[d|]|e]; cbn in Ho.
  - case_bool_decide as Hseen; simplify_eq; cbn.
    + case_bool_decide as Hk; [subst|by apply IH]. by apply Hrem in Hseen.
    + rewrite last_record_app. destruct (bool_decide (k = key)); [by eauto|by apply IH].
  - simplify_eq. rewrite last_record_app. destruct (bool_decide (k = key)); [done|by apply IH].
  - simplify_eq. by apply IH.
Qed.

End observe.
End facts.

(** ** Witnesses: a mesh whose documents are the lists of their versions *)

Definition toy_mesh_of (J : JsonLib) : @Mesh (gmap string (list (Value JNumber))) J := {|
  Doc := list (Value JNumber);
  Delta := list (Value JNumber);
  PeerId := nat;
  automerge_to_json d := default VNull (head d);
  json_to_automerge v base := Ok (v :: default [] base);
  doc_diff _ proposed := proposed;
  doc_save d := replicate (length d) Byte.x00;
  session_open _ _ m := (Ok tt, m);
  session_node_id _ := "node"%string;
  store_get k m := Ok (m !! k);
  store_put k d m := (Ok tt, <[k := d]> m);
  store_apply_delta k d m := (Ok tt, <[k := d]> m);
  store_scan_prefix p m := Ok (filter (λ kd, starts_with kd.1 p = true) (map_to_list m));
  store_put_tombstone t m := (Ok tt, delete (store_key (ts_collection t) (ts_doc_id t)) m);
  next_lamport m := (1, m);
  connected_peers _ := [];
  sync_document _ m := (Ok tt, m);
  sync_all_with _ m := (Ok tt, m);
  send_tombstones _ m := (Ok tt, m);
|}.

#[local] Instance toy_json_inst : JsonLib := toy_writes_json.
#[local] Instance toy_floats_inst : FloatText := toy_floats.
#[local] Instance toy_pretty : JsonPretty := {| to_string_pretty _ := "{}" |}.

Definition ToyStore : Type := gmap string (list (Value ToyNumber)).

#[local] Instance toy_mesh : Mesh ToyStore := toy_mesh_of toy_writes_json.

Lemma toy_insert (m : ToyStore) k d :
  store_get k (<[k := d]> m) = Ok (Some d) ∧ ∀ j, j ≠ k → store_get j (<[k := d]> m) = store_get j m.
Proof.
  split; [exact (f_equal Ok (lookup_insert_eq (M := gmap string) m k d))|].
  intros j Hj. exact (f_equal Ok (lookup_insert_ne (M := gmap string) m k j d (not_eq_sym Hj))).
Qed.

#[local] Instance toy_mesh_laws : MeshLaws ToyStore.
Proof.
  split.
  - intros k d m m' [= <-]. apply toy_insert.
  - intros k d m e m' [=].
  - intros k cur d v m m' _ _ [= <-]. apply toy_insert.
  - intros k x m e m' [=].
Qed.

Definition toy_env : CliEnv :=
  mkEnv None None (Some "/home/op/.config"%string) (Some "/home/op"%string) (λ _, true) (λ _, Ok "yaml"%string)
    (λ _, Ok (mkCredentials "app" "key" [] None true None)).

Definition toy_common : CommonArgs := mkCommon None None None "10s" JsonOutput.
Definition toy_proc (m : ToyStore) : Proc ToyStore := mkProc m [] [] 0.
Definition toy_create : CreateArgs := mkCreate "capabilities/c-1" None ["name=thermal"%string] false false false.
Definition toy_update : UpdateArgs := mkUpdate "capabilities/c-1" None ["name=thermal"%string] false false false.
Definition toy_built : Value ToyNumber := VObject [("id"%string, VString "c-1"); ("name"%string, VString "thermal")].


Definition toy_stored : ToyStore := {["capabilities:c-1" := [VObject [("id"%string, VString "c-1"); ("name"%string, VString "old")]]]}.

Lemma update_evolves_witness :
  let '(r, w) := update_run toy_registry toy_env (Ok "") toy_update toy_common (toy_proc toy_stored) in
  updated toy_built "capabilities:c-1" (toy_stored !! "capabilities:c-1") toy_stored r (pr_mesh w).
Proof.
  exact (update_evolves toy_registry toy_env (Ok "") toy_update toy_common (toy_proc toy_stored) "capabilities" "c-1" None eq_refl eq_refl eq_refl).
Defined.

Lemma query_answers_witness :
  let polls := [((∅ : ToyStore), 0); (toy_stored, 100)] in
  ∃ before m now rest, polls = before ++ (m, now) :: rest ∧ query_loop (Single "capabilities" None) None 100 polls = Some (read_scope (Single "capabilities" None) None m).
Proof.
  intros polls. destruct (query_answers (Single "capabilities" None) None 100 0 polls) as (before & m & now & rest & Hp & _ & _ & Hq).
  - done.
  - unfold POLL_INTERVAL. intros [|[|i]] p Hp; cbn in Hp; simplify_eq; cbn; lia.
  - unfold POLL_INTERVAL. cbn. lia.
  - exists before, m, now, rest. split; [exact Hp|exact Hq].
Defined.

Lemma observe_shows_current_witness :
  let events := [Changed (M := ToyStore) "a:1" (Ok (Some [VBool true])); Changed "a:1" (Ok (Some [VBool true])); Changed "a:1" (Ok None)] in
  (observe_trace (λ _, 7) ("a:"%string, None) events).1 = [("a:1"%string, Some [VBool true]); ("a:1"%string, None)] ∧
  last_record (M := ToyStore) "a:1" (observe_trace (λ _, 7) ("a:"%string, None) events).1 = Some None.
Proof.
  intros events. split; [vm_compute; reflexivity|].
  assert (Forall keeps_going events) as Hg by (repeat constructor).
  pose proof (observe_shows_current (λ _, 7) Ndjson ("a:"%string, None) events (∅ : ToyStore) [] 0 Hg) as H.
  destruct (observe_trace _ _ _) as [records last_seen]. destruct H as (_ & H & _).
  exact (H "a:1"%string ltac:(vm_compute; reflexivity)).
Defined.
