(* ===== verification/CliFacts.v ===== *)
(** * Arguments and credentials are read exactly

    The grammar of targets and timeouts, the resolution of the credentials file, and
    what the process reports. *)

From S2P Require Import Prelude Paths Json PathFacts Peers CliCore CliWorld CliWrites CliWritesFacts CliOutput CliCommands CliCommandsFacts.
From Stdlib Require Import Strings.Ascii Structures.OrdersEx Sorting.Sorted Floats.SpecFloat.

(** ** Lemmas *)

Lemma split_once_None c s : split_once c s = None ↔ str_contains s c = false.
Proof.
  induction s as [|a s IH]; [done|]. rewrite str_contains_cons. cbn. rewrite Ascii.eqb_sym. destruct (Ascii.eqb c a); [done|].
  rewrite orb_false_l, <-IH. destruct (split_once c s) as [[l r]|]; cbn; done.
Qed.

Lemma is_empty_str_false s : is_empty_str s = false ↔ s ≠ ""%string.
Proof. by destruct s. Qed.

Lemma digits_parse n : is_u64 n → parse_u64 (digits n) = Ok n.
Proof.
  unfold is_u64. intros [H0 Hm]. unfold digits. destruct n as [|p|p]; [done| |lia].
  change (pretty.pretty (Z.pos p)) with (pretty.pretty_N_go (N.pos p) "").
  assert (∀ s, int_digits_up U64_MAX 0 s = Ok (Z.pos p) → parse_u64 s = Ok (Z.pos p)) as Hs.
  { intros [|c s] Hs; [done|]. destruct (digit_value c) as [d|] eqn:Hc; [|cbn in Hs; by rewrite Hc in Hs].
    unfold parse_u64. destruct (decide (c = "+"%char)) as [->|Hp]; [done|]. destruct (decide (c = "-"%char)) as [->|Hq]; [done|].
    destruct c as [[] [] [] [] [] [] [] []]; try done; by destruct s. }
  apply Hs. by rewrite int_digits_up_pretty by (cbn; lia).
Qed.

Lemma pretty_go_app x s t : pretty.pretty_N_go x s +:+ t = pretty.pretty_N_go x (s +:+ t).
Proof.
  revert s. induction (N.lt_wf_0 x) as [x _ IH]. intros s. destruct (decide (x = 0%N)) as [->|Hx]; [by rewrite !pretty.pretty_N_go_0|].
  rewrite !(pretty.pretty_N_go_step x) by lia. rewrite IH by (apply N.div_lt; lia). by rewrite string_app_cons.
Qed.

(** No digit is a letter: what a suffix leaves is never mistaken for another one. *)
Lemma digits_no_suffix n c : is_u64 n → digit_value c = None → ∀ r, digits n ≠ r +:+ String c "".
Proof.
  intros Hn Hc r Hr. pose proof (digits_parse n Hn) as Hp. rewrite Hr in Hp. clear Hr.
  assert (∀ acc hi r', int_digits_up hi acc (r' +:+ String c "") ≠ Ok n) as Hno.
  { intros acc hi r'. revert acc. induction r' as [|a r' IH]; intros acc; [rewrite string_app_nil; cbn; by rewrite Hc|].
    rewrite string_app_cons. cbn. destruct (digit_value a); [|done]. destruct (_ <? _); [done|]. apply IH. }
  destruct r as [|a r]; [rewrite string_app_nil in Hp|rewrite string_app_cons in Hp]; unfold parse_u64 in Hp.
  - by destruct c as [[] [] [] [] [] [] [] []].
  - assert (∃ b rest, r +:+ String c "" = String b rest) as (b & rest & Hb) by (destruct r; eauto).
    specialize (Hno 0 U64_MAX) as Hno0. pose proof (Hno0 (String a r)) as Hall. pose proof (Hno0 r) as Hrest.
    rewrite string_app_cons in Hall. rewrite Hb in *.
    destruct a as [[] [] [] [] [] [] [] []]; try done.
Qed.

Lemma append_last (a b : string) c d : a +:+ String c "" = b +:+ String d "" → a = b ∧ c = d.
Proof.
  revert b. induction a as [|x a IH]; intros [|y b] H; rewrite ?string_app_nil, ?string_app_cons in H.
  - by injection H as ->.
  - injection H as _ Ht. by destruct b.
  - injection H as _ Ht. by destruct a.
  - injection H as -> Ht. by apply IH in Ht as [-> ->].
Qed.

Lemma strip_suffix_None p s : (∀ r, s ≠ r +:+ p) → strip_suffix p s = None.
Proof. intros Hn. destruct (strip_suffix p s) as [r|] eqn:E; [|done]. apply strip_suffix_Some in E. by apply Hn in E. Qed.

(** ** Claims *)

Lemma timeout_refusal s e : parse_timeout s = Err e → exit_code e = 4.
Proof.
  unfold parse_timeout. destruct (strip_suffix "ms" s) as [num|]; [by destruct (parse_u64 num); intros; simplify_eq/=|].
  destruct (strip_suffix "s" s) as [num|]; [by destruct (parse_u64 num); intros; simplify_eq/=|].
  destruct (strip_suffix "m" s) as [num|]; [by destruct (parse_u64 num); intros; simplify_eq/=|by intros; simplify_eq].
Qed.

(** Timeouts: a duration printed in milliseconds, seconds or minutes is read back as
    the same time, except that minutes past the range of a 64-bit number of seconds
    wrap around; every refusal is status 4. *)
Theorem timeouts_exact n :
  is_u64 n →
  parse_timeout (digits n +:+ "ms") = Ok n ∧
  parse_timeout (digits n +:+ "s") = Ok (1000 * n) ∧
  parse_timeout (digits n +:+ "m") = Ok (1000 * ((n * 60) mod 2 ^ 64)) ∧
  (60 * n ≤ U64_MAX → parse_timeout (digits n +:+ "m") = Ok (60000 * n)) ∧
  ∀ s e, parse_timeout s = Err e → exit_code e = 4.
Proof.
  intros Hn. pose proof (digits_parse n Hn) as Hp.
  assert (∀ r : string, r +:+ "ms" = (r +:+ "m") +:+ "s") as Hms by (intros; by rewrite append_assoc).
  assert (parse_timeout (digits n +:+ "m") = Ok (1000 * ((n * 60) mod 2 ^ 64))) as Hm.
  { unfold parse_timeout. rewrite (strip_suffix_None "ms"), (strip_suffix_None "s"), (proj2 (strip_suffix_Some _ _ _) eq_refl), Hp; [done| |].
    - intros r [_ ?]%append_last. done.
    - intros r. rewrite Hms. intros [_ ?]%append_last. done. }
  split_and!; [..|done| |].
  - unfold parse_timeout. by rewrite (proj2 (strip_suffix_Some _ _ _) eq_refl), Hp.
  - unfold parse_timeout. rewrite (strip_suffix_None "ms"), (proj2 (strip_suffix_Some _ _ _) eq_refl), Hp; [done|].
    intros r. rewrite Hms. intros [H _]%append_last. revert H. by apply digits_no_suffix.
  - intros Hfit. rewrite Hm. f_equal. unfold is_u64, U64_MAX in *. rewrite Z.mod_small; lia.
  - apply timeout_refusal.
Qed.

(** Targets: exactly the texts [collection] and [collection/doc_id] with non-empty
    parts free of further slashes are accepted, and read back; every refusal is
    status 4. *)
Theorem targets_exact s :
  (∀ c d, parse_target s = Ok (c, Some d) ↔
     s = c +:+ "/" +:+ d ∧ c ≠ ""%string ∧ d ≠ ""%string ∧ str_contains c "/" = false ∧ str_contains d "/" = false) ∧
  (∀ c, parse_target s = Ok (c, None) ↔ s = c ∧ c ≠ ""%string ∧ str_contains c "/" = false) ∧
  (∀ e, parse_target s = Err e → exit_code e = 4).
Proof.
  assert (∀ c d, str_contains c "/" = false → split_once "/" (c +:+ "/" +:+ d) = Some (c, d)) as Hsplit.
  { intros c d Hc. by apply split_once_app. }
  unfold parse_target. split_and!.
  - intros c d. split.
    + destruct (is_empty_str s) eqn:Hs; [done|]. destruct (split_once "/" s) as [[c' d']|] eqn:E; [|done].
      destruct (is_empty_str d') eqn:Hd; [done|]. destruct (is_empty_str c') eqn:Hc; [done|]. destruct (str_contains d' "/") eqn:Hd'; [done|].
      intros [= <- <-]. pose proof (split_once_first _ _ _ _ E). apply split_once_Some in E. by rewrite <-is_empty_str_false, <-is_empty_str_false.
    + intros (-> & Hc & Hd & Hc' & Hd'). rewrite Hsplit by done. destruct c as [|a c]; [done|]. destruct d as [|b d]; [done|].
      cbn [is_empty_str]. rewrite string_app_cons. cbn [is_empty_str]. by rewrite Hd'.
  - intros c. split.
    + destruct (is_empty_str s) eqn:Hs; [done|]. destruct (split_once "/" s) as [[c' d']|] eqn:E.
      * by repeat case_match.
      * intros [= <-]. by rewrite <-is_empty_str_false, <-split_once_None.
    + intros (-> & Hc & Hc'). apply is_empty_str_false in Hc as ->. by apply split_once_None in Hc' as ->.
  - intros e. repeat case_match; intros; by simplify_eq.
Qed.

(** Store keys are unambiguous for collections without a colon, and only for those: the
    targets [a:b/c] and [a/b:c] are accepted and name the same key. *)
Theorem store_keys_need_plain_collections c c' d d' :
  (str_contains c ":" = false → str_contains c' ":" = false → store_key c d = store_key c' d' → c = c' ∧ d = d') ∧
  parse_target "a:b/c" = Ok ("a:b"%string, Some "c"%string) ∧ parse_target "a/b:c" = Ok ("a"%string, Some "b:c"%string) ∧
  store_key "a:b" "c" = store_key "a" "b:c".
Proof.
  split; [|by split_and!]. intros Hc Hc' H.
  assert (∀ c d, str_contains c ":" = false → split_once ":" (store_key c d) = Some (c, d)) as Hs by (intros; by apply split_once_app).
  pose proof (Hs c d Hc) as H1. rewrite H, (Hs c' d' Hc') in H1. by simplify_eq.
Qed.

Lemma load_refusal env explicit e : load env explicit = Err e → exit_code e = 2.
Proof.
  unfold load. destruct (resolve_path env explicit) as [path|e0] eqn:Hr.
  - cbn. destruct (env_read env path); cbn; [|by intros [= <-]]. destruct (env_parse_yaml env a) as [c|]; cbn; [|by intros [= <-]].
    destruct (cr_encryption_key c); by intros [= <-].
  - intros [= <-]. revert Hr. unfold resolve_path, resolve_path_with. destruct explicit; [done|]. repeat case_match; intros; by simplify_eq.
Qed.

(** Credentials: an explicit path wins, then a non-empty [PEAT_CREDS], then the first
    candidate on disk, and the first candidate of all when none is there, which is the
    one below [XDG_CONFIG_HOME] whenever that is set, not the platform's. What is
    loaded never carries an encryption key, and every failure is status 2. *)
Theorem credentials_resolution env explicit :
  resolve_path env explicit =
    (match explicit, env_peat_creds env with
     | Some p, _ => Ok p
     | None, Some (String _ _ as p) => Ok p
     | None, _ =>
         match List.filter (env_exists env) (config_candidates env), config_candidates env with
         | p :: _, _ => Ok p
         | [], first :: _ => Ok first
         | [], [] => Err (Auth "no credentials path resolved — pass --creds, set PEAT_CREDS, or place a file at the platform config dir")
         end
     end) ∧
  (∀ xdg, env_xdg_config_home env = Some xdg → is_absolute xdg = true → head (config_candidates env) = Some (credentials_below xdg)) ∧
  (∀ creds, load env explicit = Ok creds → cr_encryption_key creds = None) ∧
  (∀ e, load env explicit = Err e → exit_code e = 2).
Proof.
  assert (∀ l : list string, list_find (λ p, env_exists env p = true) l = None ∧ List.filter (env_exists env) l = [] ∨
    ∃ i p rest, list_find (λ p, env_exists env p = true) l = Some (i, p) ∧ List.filter (env_exists env) l = p :: rest) as Hfind.
  { induction l as [|p l IH]; [by left|]. cbn. destruct (env_exists env p) eqn:Hp; cbn.
    - right. rewrite decide_True by done. by eauto.
    - rewrite decide_False by done. destruct IH as [[-> ->]|(i & q & rest & -> & ->)]; cbn; [by left|right; by eauto]. }
  split_and!.
  - unfold resolve_path, resolve_path_with. destruct explicit as [p|]; [done|].
    destruct (env_peat_creds env) as [[|a e]|]; cbn; try done.
    all: pose proof (Hfind (config_candidates env)) as Hf; destruct (config_candidates env) as [|first l]; [done|].
    all: by destruct Hf as [[-> ->]|(i & q & rest & -> & ->)].
  - intros xdg Hx Ha. unfold config_candidates. rewrite Hx, Ha. unfold push_new.
    by destruct (env_config_dir env), (env_home_dir env); repeat case_match.
  - intros creds. unfold load. destruct (resolve_path env explicit); [|done]. destruct (env_read env a); [|done]. cbn.
    destruct (env_parse_yaml env a0) as [c|]; [|done]. cbn. destruct (cr_encryption_key c) eqn:Hk; by intros [= <-].
  - intros e. apply load_refusal.
Qed.

(** ** Witnesses *)

Lemma timeouts_exact_witness : parse_timeout (digits 10 +:+ "s") = Ok 10000.
Proof. apply (timeouts_exact 10). vm_compute. split; discriminate. Defined.

(** Five hundred and eighty-four billion years and one more minute are 44 seconds. *)
Example minutes_wrap : parse_timeout "307445734561825861m" = Ok 44000.
Proof. vm_compute. reflexivity. Qed.

(** * What the command line prints is complete

    The machine formats carry every document under its key whatever the registry
    knows, the type list does not depend on the registry's iteration order, and a
    closed pipe ends the streaming and the other commands differently. *)

Section facts.
Context `{J : JsonLib} {F : FloatText} {P : JsonPretty} {M : Type} `{!Mesh M}.
Abbreviation value := (Value JNumber).
Implicit Types (w : Proc M) (docs : list (string * Doc)).

(** ** Objects from pairs *)

Lemma json_object_snoc entries k (v : value) j :
  value_get j (json_object (entries ++ [(k, v)])) = if bool_decide (k = j) then Some v else value_get j (json_object entries).
Proof.
  unfold json_object. rewrite foldl_app. cbn. case_bool_decide as Hk; [by rewrite Hk, entry_get_insert|by rewrite entry_get_insert_ne].
Qed.

Lemma json_object_lookup (entries : list (string * value)) k v :
  NoDup entries.*1 → (k, v) ∈ entries → value_get k (json_object entries) = Some v.
Proof.
  induction entries as [|[j x] entries IH] using rev_ind; intros Hnd Hin; [by apply elem_of_nil in Hin|].
  rewrite fmap_app in Hnd. apply NoDup_app in Hnd as (Hnd & Hdis & _). rewrite json_object_snoc.
  apply elem_of_app in Hin as [Hin|Hin].
  - rewrite bool_decide_false; [by apply IH|]. intros <-. apply (Hdis j); [apply list_elem_of_fmap; by exists (j, v)|by left].
  - apply list_elem_of_singleton in Hin as [= -> ->]. by rewrite bool_decide_true.
Qed.

Lemma json_object_absent (entries : list (string * value)) k : k ∉ entries.*1 → value_get k (json_object entries) = None.
Proof.
  induction entries as [|[j x] entries IH] using rev_ind; intros Hk; [done|].
  rewrite fmap_app, not_elem_of_app in Hk. destruct Hk as [Hk Hj]. rewrite json_object_snoc, bool_decide_false; [by apply IH|].
  intros ->. apply Hj. by left.
Qed.

(** ** Printing to an open pipe *)

Lemma println_open line m out slept :
  println line (mkProc m out [] slept) = (Ok tt, mkProc (M := M) m (out ++ [line +:+ newline]) [] slept).
Proof. done. Qed.

Lemma for_each_println {A} (f : A → string) l m out slept :
  for_each (λ a, println (f a)) l (mkProc m out [] slept) =
  (Ok tt, mkProc (M := M) m (out ++ ((λ a, f a +:+ newline) <$> l)) [] slept).
Proof.
  revert out. induction l as [|a l IH]; intros out; cbn; [by rewrite app_nil_r|].
  unfold mbind, st_err_bind. rewrite println_open, IH, <-app_assoc. done.
Qed.

(** What reading a printed text back gives: the fields of the printed object. *)
Definition reads_back (text : string) (v : value) : Prop := ∃ v', from_str text = Ok v' ∧ ∀ k, value_get k v' = value_get k v.

(** ** Claims *)

(** The machine formats of [query] are complete and do not depend on the registry.
    Where serde_json reads back the texts it prints here: [ndjson] prints one line per document in
    the store's order, from which its key and content are recovered; [json] for a
    collection or the whole store prints one object whose fields are exactly the
    documents under their keys; and for a document asked for by its id its content. *)
Theorem machine_output_complete reg docs keyed m out slept :
  (∀ kd, kd ∈ docs → reads_back (ndjson_line kd) (json_object [("key"%string, VString kd.1); ("doc"%string, automerge_to_json kd.2)])) →
  reads_back (to_string_pretty (structural_value docs keyed)) (structural_value docs keyed) →
  NoDup docs.*1 →
  (∃ lines, render_query reg docs Ndjson keyed (mkProc m out [] slept) = (Ok tt, mkProc m (out ++ ((λ l, l +:+ newline) <$> lines)) [] slept) ∧
    Forall2 (λ line kd, ∃ v, from_str line = Ok v ∧ value_get "key" v = Some (VString kd.1) ∧ value_get "doc" v = Some (automerge_to_json kd.2)) lines docs) ∧
  (∃ text v, render_query reg docs JsonOutput keyed (mkProc m out [] slept) = (Ok tt, mkProc m (out ++ [text +:+ newline]) [] slept) ∧ from_str text = Ok v ∧
    (keyed = true → ∀ k, value_get k v = (λ d, automerge_to_json d) <$> (list_to_map docs : gmap string Doc) !! k) ∧
    (∀ k d, keyed = false → docs = [(k, d)] → ∀ field, value_get field v = value_get field (automerge_to_json d))).
Proof.
  intros Hlines Htext Hnd. split.
  - exists (ndjson_line <$> docs). split.
    + cbn [render_query]. rewrite for_each_println, <-list_fmap_compose. done.
    + apply Forall2_fmap_l, Forall_Forall2_diag, Forall_forall. intros [k d] (v & Hv & Hf)%Hlines.
      exists v. rewrite !Hf. done.
  - destruct Htext as (v & Hv & Hf).
    exists (to_string_pretty (structural_value docs keyed)), v. split_and!; [done|done| |].
    + intros -> k. rewrite Hf. cbn [structural_value]. unfold keyed_object.
      assert (((λ kd : string * Doc, (kd.1, automerge_to_json kd.2)) <$> docs).*1 = docs.*1) as Hkeys.
      { rewrite <-list_fmap_compose. by apply list_fmap_ext. }
      destruct ((list_to_map docs : gmap string Doc) !! k) as [d|] eqn:Hk; cbn.
      * apply elem_of_list_to_map in Hk; [|done]. apply json_object_lookup; [by rewrite Hkeys|].
        apply list_elem_of_fmap. by exists (k, d).
      * apply not_elem_of_list_to_map in Hk. apply json_object_absent. by rewrite Hkeys.
    + intros k d -> ->. exact Hf.
Qed.

(** [schema list] prints the same for every iteration order of the registry's hash
    map, as its types have distinct ids. *)
Theorem schema_list_stable reg reg' fmt w :
  registry_iter reg ≡ₚ registry_iter reg' → NoDup (td_id <$> registry_iter reg) →
  render_list reg fmt w = render_list reg' fmt w.
Proof.
  intros Hperm Hnd. assert (sorted_types reg = sorted_types reg') as Heq; [|unfold render_list; by rewrite Heq].
  unfold sorted_types. assert (Total id_le) as Htot.
  { intros a b. unfold id_le. destruct (String_as_OT.compare_spec (td_id a) (td_id b)) as [->|Hl|Hg].
    - left. apply (StrictOrder_Irreflexive (R := String_as_OT.lt)).
    - left. intros Hg. apply (StrictOrder_Irreflexive (R := String_as_OT.lt) (td_id a)). by etrans.
    - right. intros Hl. apply (StrictOrder_Irreflexive (R := String_as_OT.lt) (td_id a)). by etrans. }
  assert (Transitive id_le) as Htrans.
  { intros a b c Hab Hbc Hca. unfold id_le in *. destruct (String_as_OT.compare_spec (td_id a) (td_id b)) as [Hab'|Hl|Hg]; [|apply Hbc; by etrans|done].
    apply Hbc. by rewrite <-Hab'. }
  eapply StronglySorted_unique_strong; [|by apply StronglySorted_merge_sort..|by rewrite !merge_sort_Permutation].
  intros a b. rewrite !merge_sort_Permutation, <-Hperm. intros Ha Hb Hab Hba.
  apply list_elem_of_lookup in Ha as [i Ha], Hb as [j Hb]. assert (td_id a = td_id b) as Hid.
  { unfold id_le in *. by destruct (String_as_OT.compare_spec (td_id a) (td_id b)). }
  assert (i = j) as ->; [|congruence]. eapply (NoDup_lookup _ _ _ (td_id a)); [exact Hnd|..]; rewrite list_lookup_fmap, ?Ha, ?Hb; cbn; congruence.
Qed.

(** A closed pipe ends a streaming command with status 0 and nothing on stderr, but
    every other command with a panic, status 101: [query] on its first line, whatever
    the format. *)
Theorem closed_pipe_panics reg docs fmt keyed key d w rest :
  pr_pipe w = PipeClosed :: rest → docs ≠ [] ∨ fmt ≠ Ndjson →
  cli_main (render_query reg docs fmt keyed w).1 = (101, Some "panicked"%string) ∧
  cli_main (render_observe_event key d fmt w).1 = (0, None).
Proof.
  intros Hp Hd. assert (∀ text, print text w = (Err Panics, mkProc (pr_mesh w) (pr_stdout w) rest (pr_slept w))) as Hpanic.
  { intros text. unfold print, write_text, mbind, st_err_bind. by rewrite Hp. }
  split.
  - destruct fmt; cbn [render_query]; unfold println; rewrite ?Hpanic; [destruct (typed_descriptor reg docs keyed) as [[]|]; by rewrite ?Hpanic|done|].
    destruct docs as [|kd docs]; [by destruct Hd|]. cbn [for_each]. unfold mbind, st_err_bind. by rewrite Hpanic.
  - unfold render_observe_event, write_stream_line, write_text, mbind, st_err_bind. by rewrite Hp.
Qed.

End facts.

(** ** Witnesses: one document, and a library that knows the texts printed of it *)

Definition toy_doc : Value ToyNumber := VObject [("name"%string, VString "alice")].
Definition toy_line : Value ToyNumber := VObject [("doc"%string, toy_doc); ("key"%string, VString "contacts:1")].
Definition toy_all : Value ToyNumber := VObject [("contacts:1"%string, toy_doc)].

Definition toy_out_json : JsonLib :=
  toy_json (λ s, if bool_decide (s = "line"%string) then Some toy_line else if bool_decide (s = "all"%string) then Some toy_all else None)
    (λ v, match v with VObject [_; _] => "line"%string | _ => "all"%string end).

#[local] Instance toy_out_inst : JsonLib := toy_out_json.
#[local] Instance toy_out_floats : FloatText := toy_floats.
#[local] Instance toy_out_pretty : JsonPretty := {| to_string_pretty := to_string |}.
Definition OutStore : Type := gmap string (list (Value ToyNumber)).
#[local] Instance toy_out_mesh : Mesh OutStore := toy_mesh_of toy_out_json.

Definition toy_docs : list (string * @Doc OutStore toy_out_json toy_out_mesh) := [("contacts:1"%string, [toy_doc])].
Definition no_types : TypeRegistry := mkRegistry (λ _, None) (λ _, None) [].

Lemma machine_output_complete_witness :
  ∃ text v, render_query (M := OutStore) no_types toy_docs JsonOutput true (mkProc ∅ [] [] 0) = (Ok tt, mkProc (∅ : OutStore) [text +:+ newline] [] 0) ∧
    from_str text = Ok v ∧ value_get "contacts:1" v = Some toy_doc.
Proof.
  destruct (machine_output_complete (M := OutStore) no_types toy_docs true ∅ [] 0) as [_ (text & v & Hr & Hv & Hk & _)].
  - intros kd Hin. apply list_elem_of_singleton in Hin as ->. exists toy_line. by split.
  - exists toy_all. by split.
  - apply NoDup_singleton.
  - exists text, v. split; [exact Hr|]. split; [exact Hv|]. exact (Hk eq_refl "contacts:1"%string).
Defined.

Definition toy_type (id : string) : TypeDescriptor := mkType id "T" "v1" None [] (λ _, Ok tt) VNull.

Lemma schema_list_stable_witness :
  let reg := mkRegistry (λ _, None) (λ _, None) [toy_type "b"; toy_type "a"] in
  let reg' := mkRegistry (λ _, None) (λ _, None) [toy_type "a"; toy_type "b"] in
  render_list (M := OutStore) reg Text (mkProc (∅ : OutStore) [] [] 0) = render_list (M := OutStore) reg' Text (mkProc ∅ [] [] 0).
Proof.
  intros reg reg'. apply (schema_list_stable (M := OutStore) reg reg' Text); [apply perm_swap|].
  repeat constructor; set_solver.
Defined.

Lemma closed_pipe_panics_witness :
  cli_main (render_query (M := OutStore) no_types toy_docs JsonOutput true (mkProc (∅ : OutStore) [] [PipeClosed] 0)).1 = (101, Some "panicked"%string).
Proof.
  apply (closed_pipe_panics (M := OutStore) no_types toy_docs JsonOutput true "k" ([toy_doc] : @Doc OutStore toy_out_json toy_out_mesh) (mkProc (∅ : OutStore) [] [PipeClosed] 0) []); [reflexivity|by right].
Defined.
