(* ===== verification/CliSession.v ===== *)
(** * Joining the mesh from the command line

    Model of [crates/peat-cli/src/join.rs]: the data directory and the identity kept in
    it, dialling the configured peers, mDNS, and the change pusher. DNS, iroh, the
    transport and mDNS are not under src/: what they answer is the record [JoinEnv]
    and, per dial, [CliDial]. The session's state is what joining changes: directories
    with their mode, files, the connected peers and the syncs requested. *)

From S2P Require Import Prelude Paths Envelope Peers PeersFacts CliCore CliWorld.
From Stdlib Require Import Strings.Ascii.

Inductive DataDir := Ephemeral (path : string) | Persistent (path : string).

Definition data_path (d : DataDir) : string := match d with Ephemeral p | Persistent p => p end.

Definition POST_JOIN_SETTLE : Z := 1000.

(** ** One dial *)

Inductive Attempt := Connected | AttemptFailed (e : string) | AttemptTimedOut.

(** A resolved socket: whether it is IPv4, and its text. *)
Record CliDial := mkCliDial {
  cd_lookup : string → result string (list (bool * string));
  cd_attempt : list string → Z → Attempt; (* to these addresses, the n-th time *)
}.

(** [Duration]'s [Debug] on whole milliseconds *)
Definition strip_zeros (s : string) : string :=
  match strip_suffix "00" s with
  | Some r => r
  | None => match strip_suffix "0" s with Some r => r | None => s end
  end.

Definition debug_duration (ms : Z) : string :=
  if ms =? 0 then "0ns"
  else if ms <? 1000 then digits ms +:+ "ms"
  else
    let f := ms mod 1000 in
    if f =? 0 then digits (ms / 1000) +:+ "s"
    else digits (ms / 1000) +:+ "." +:+ strip_zeros ((if f <? 10 then "00" else if f <? 100 then "0" else "") +:+ digits f) +:+ "s".

Section session.
Context {Id : Type} `{Countable Id} (parse_id : string → result string Id) (show_id : Id → string).

Definition parse_peer_spec (spec : string) : result CliError (Id * string) :=
  match split_once "@" spec with
  | None => Err (Malformed ("peer spec `" +:+ spec +:+ "`: expected `endpoint_id@host:port` form"))
  | Some (peer_id_str, addr_str) =>
      let? peer_id := map_err (λ e, Malformed ("peer id `" +:+ peer_id_str +:+ "`: " +:+ e)) (parse_id peer_id_str) in
      Ok (peer_id, addr_str)
  end.

(** The retry loop; [fuel] counts the attempts left. *)
Fixpoint dial_attempts (fuel : nat) (d : CliDial) (peer_id : Id) (timeout : Z) (addrs : list string) (attempt : Z)
  : option (result CliError unit) :=
  match fuel with
  | O => None
  | S fuel =>
      let attempt := attempt + 1 in
      match cd_attempt d addrs attempt with
      | Connected => Some (Ok tt)
      | AttemptFailed e =>
          if attempt <? CONNECT_RETRY_ATTEMPTS then dial_attempts fuel d peer_id timeout addrs attempt
          else Some (Err (Generic ("connect/auth to `" +:+ show_id peer_id +:+ "` failed after " +:+ digits attempt +:+ " attempts: " +:+ e)))
      | AttemptTimedOut =>
          if attempt <? CONNECT_RETRY_ATTEMPTS then dial_attempts fuel d peer_id timeout addrs attempt
          else Some (Err (Generic ("connect to `" +:+ show_id peer_id +:+ "` timed out after " +:+ debug_duration timeout +:+ " (attempt " +:+ digits attempt +:+ ")")))
      end
  end.

(** Everything of [connect_peer] up to the connection. *)
Definition dial_peer (d : CliDial) (spec : string) (timeout : Z) : result CliError Id :=
  let? (peer_id, addr_str) := parse_peer_spec spec in
  let? resolved := map_err (λ e, Generic ("resolve `" +:+ addr_str +:+ "` for peer `" +:+ show_id peer_id +:+ "`: " +:+ e)) (cd_lookup d addr_str) in
  let addrs := snd <$> List.filter fst resolved in
  match addrs with
  | [] => Err (Generic ("no IPv4 addresses resolved for `" +:+ addr_str +:+ "` (got only IPv6 candidates?)"))
  | _ =>
      match dial_attempts (Z.to_nat CONNECT_RETRY_ATTEMPTS) d peer_id timeout addrs 0 with
      | Some r => map_ok (λ _, peer_id) r
      | None => Err (Generic "")
      end
  end.

(** ** The session's state *)

Record Session := mkSession {
  se_dirs : gmap (list string) Z; (* modes, by the names from the root *)
  se_files : gmap string string;
  se_connected : gset Id;
  se_synced : list Id;            (* calls of [sync_all_documents_with_peer] *)
}.

Definition Join (A : Type) : Type := st_err Session CliError A.

Definition with_dirs (d : gmap (list string) Z) (s : Session) : Session := mkSession d (se_files s) (se_connected s) (se_synced s).
Definition with_files (f : gmap string string) (s : Session) : Session := mkSession (se_dirs s) f (se_connected s) (se_synced s).
Definition with_connected (c : gset Id) (s : Session) : Session := mkSession (se_dirs s) (se_files s) c (se_synced s).
Definition with_synced (l : list Id) (s : Session) : Session := mkSession (se_dirs s) (se_files s) (se_connected s) l.

(** A step that cannot fail. *)
Definition step {A} (f : Session → A * Session) : Join A := λ s, let '(a, s) := f s in (Ok a, s).

(** [connect_peer], with the connection attached to the sync transport *)
Definition connect_peer (d : CliDial) (spec : string) (timeout : Z) (s : Session) : result CliError unit * Session :=
  match dial_peer d spec timeout with
  | Ok peer_id => (Ok tt, with_connected ({[peer_id]} ∪ se_connected s) s)
  | Err e => (Err e, s)
  end.

Definition sync_all (peer : Id) (s : Session) : Session := with_synced (se_synced s ++ [peer]) s.

(** What the process finds: the calls that may fail, mDNS and the working directory.
    [je_mdns] is [None] when mDNS cannot be initialised, else the peers discovered by
    the end of the settle window. *)
Record JoinEnv := mkJoinEnv {
  je_env : CliEnv;
  je_cwd : list string;
  je_umask : Z;
  je_mkdir : list string → result string unit;
  je_writable : string → bool;
  je_tempdir : result string string;
  je_bootstrap : string → result string unit; (* [AutomergeBackend::with_iroh] *)
  je_endpoint_id : string;
  je_mdns : option (list PeerInfo);
  je_dials : string → CliDial;                (* by peer spec *)
}.

Section open.
Context (je : JoinEnv).

(** ** The data directory *)

(** Where a path leads from the working directory, links aside. *)
Definition path_location (path : string) : list string :=
  foldl (λ at_, λ c, match c with
                    | RootDir => []
                    | CurDir => at_
                    | ParentDir => removelast at_
                    | Normal s => at_ ++ [s]
                    end) (je_cwd je) (components path).

(** [create_dir_all] and [DirBuilder::recursive(true).mode(mode)]: the missing
    directories on the way, outermost first; one that exists keeps its mode. *)
Fixpoint make_dirs (mode : Z) (at_ names : list string) (dirs : gmap (list string) Z) : result string unit * gmap (list string) Z :=
  match names with
  | [] => (Ok tt, dirs)
  | s :: names =>
      let here := at_ ++ [s] in
      match dirs !! here with
      | Some _ => make_dirs mode here names dirs
      | None =>
          match je_mkdir je here with
          | Err e => (Err e, dirs)
          | Ok _ => make_dirs mode here names (<[here := Z.ldiff mode (je_umask je)]> dirs)
          end
      end
  end.

Definition mkdirs (path : string) (mode : Z) (loc : list string) : Join unit :=
  λ s, let '(r, dirs) := make_dirs mode [] loc (se_dirs s) in
       (map_err (λ e, Generic ("could not create data_dir " +:+ path +:+ ": " +:+ e)) r, with_dirs dirs s).

(** [create_private_dir] on Unix; a path without a parent is the root *)
Definition create_private_dir (path : string) : Join unit :=
  let loc := path_location path in
  mkdirs path 511 (removelast loc);;
  mkdirs path 448 loc.

Definition resolve_data_dir (creds : PeatCredentials) (opts : SessionOptions) : Join DataDir :=
  match so_data_dir opts with
  | Some p => create_private_dir p;; mret (Persistent p)
  | None =>
      match cr_data_dir creds with
      | Some raw =>
          p ← lift (expand_data_dir (je_env je) raw);
          create_private_dir p;;
          mret (Persistent p)
      | None =>
          p ← lift (map_err (λ e, Generic ("could not create ephemeral data dir: " +:+ e)) (je_tempdir je));
          mret (Ephemeral p)
      end
  end.

(** ** Identity: [fresh] is the UUID drawn if one is needed *)

Definition session_identity (fresh : string) (opts : SessionOptions) (d : DataDir) (s : Session) : string * Session :=
  match so_as_id opts with
  | Some id => (id, s)
  | None =>
      match d with
      | Persistent p =>
          let id_file := path_join p "identity" in
          let stored := match se_files s !! id_file with Some text => trim text | None => ""%string end in
          if negb (is_empty_str stored) then (stored, s)
          else (fresh, if je_writable je id_file then with_files (<[id_file := fresh]> (se_files s)) s else s)
      | Ephemeral _ => (fresh, s)
      end
  end.

Definition bootstrap_error (d : DataDir) (msg : string) : CliError :=
  if contains_text msg "Cannot acquire lock" || contains_text msg "Database already open"
  then Generic ("backend bootstrap: " +:+ msg +:+ newline +:+ "hint: the local store at " +:+ data_path d +:+
                " is locked — another `peat` process is likely running. Stop it and retry.")
  else Generic ("backend bootstrap: " +:+ msg).

(** ** Configured peers *)

Fixpoint connect_configured (specs : list string) (timeout : Z) (s : Session) : nat * Session :=
  match specs with
  | [] => (0%nat, s)
  | spec :: specs =>
      let '(r, s) := connect_peer (je_dials je spec) spec timeout s in
      let '(n, s) := connect_configured specs timeout s in
      ((if is_ok r then S n else n), s)
  end.

(** ** mDNS *)

Definition peer_addresses (peer : PeerInfo) : list string := mdns_peer_addresses peer.

(** What is advertised: the endpoint id, the loopback address and the metadata. *)
Definition advertisement (sockets : list (bool * Z)) (app_id : string) : option (string * string * gmap string string) :=
  let port := match List.filter fst sockets with (_, port) :: _ => port | [] => 0 end in
  if 0 <? port
  then Some (je_endpoint_id je, "127.0.0.1:" +:+ digits port, <["formation_id"%string := app_id]> {["port"%string := digits port]})
  else None.

Definition same_formation (app_id : string) (peer : PeerInfo) : bool :=
  match pi_metadata peer !! "formation_id"%string with Some fid => bool_decide (fid = app_id) | None => true end.

(** The loop over a peer's addresses: it ends at the first that connects. *)
Fixpoint mdns_connect (dials : string → CliDial) (node_id : string) (addrs : list string) (timeout : Z) (s : Session)
  : list CliError * Session :=
  match addrs with
  | [] => ([], s)
  | addr :: addrs =>
      let spec := node_id +:+ "@" +:+ addr in
      match connect_peer (dials spec) spec timeout s with
      | (Ok _, s) =>
          ([], match list_find (λ id, show_id id = node_id) (elements (se_connected s)) with
               | Some (_, id) => sync_all id s
               | None => s
               end)
      | (Err e, s) => let '(es, s) := mdns_connect dials node_id addrs timeout s in (e :: es, s)
      end
  end.

Definition connected_names (s : Session) : list string := show_id <$> elements (se_connected s).

(** The peers discovered in the settle window; [already] is taken before the loop. *)
Fixpoint connect_discovered (app_id : string) (already : list string) (peers : list PeerInfo) (timeout : Z) (s : Session) : Session :=
  match peers with
  | [] => s
  | peer :: peers =>
      let s :=
        if bool_decide (pi_node_id peer = je_endpoint_id je) || bool_decide (pi_node_id peer ∈ already) then s
        else if negb (same_formation app_id peer) then s
        else (mdns_connect (je_dials je) (pi_node_id peer) (peer_addresses peer) timeout s).2 in
      connect_discovered app_id already peers timeout s
  end.

(** One event of the background [mdns_watcher]; [auth_failed] are the peers it has
    given up on. *)
Definition cli_mdns_event (dials : string → CliDial) (formation_id : string) (timeout : Z) (event : DiscoveryEvent)
    (auth_failed : gset string) (s : Session) : gset string * Session :=
  match event with
  | PeerLost _ => (auth_failed, s)
  | PeerFound peer | PeerUpdated peer =>
      if bool_decide (pi_node_id peer = je_endpoint_id je) || bool_decide (pi_node_id peer ∈ auth_failed) then (auth_failed, s)
      else if negb (same_formation formation_id peer) then (auth_failed, s)
      else if bool_decide (pi_node_id peer ∈ connected_names s) then (auth_failed, s)
      else
        let '(errors, s) := mdns_connect dials (pi_node_id peer) (peer_addresses peer) timeout s in
        (if existsb (λ e, is_auth_failure (cli_error_text e)) errors then {[pi_node_id peer]} ∪ auth_failed else auth_failed, s)
  end.

Fixpoint cli_mdns_watcher (formation_id : string) (timeout : Z) (events : list ((string → CliDial) * DiscoveryEvent))
    (auth_failed : gset string) (s : Session) : gset string * Session :=
  match events with
  | [] => (auth_failed, s)
  | (dials, event) :: events =>
      let '(auth_failed, s) := cli_mdns_event dials formation_id timeout event auth_failed s in
      cli_mdns_watcher formation_id timeout events auth_failed s
  end.

(** ** [MeshSession::open]: the data directory and the identity of the session *)

Definition open (fresh : string) (creds : PeatCredentials) (opts : SessionOptions) : Join (DataDir * string) :=
  d ← resolve_data_dir creds opts;
  node_id ← step (session_identity fresh opts d);
  lift (map_err (bootstrap_error d) (je_bootstrap je (data_path d)));;
  let mdns := if cr_disable_mdns creds then None else je_mdns je in
  connected ← step (connect_configured (cr_peers creds) (so_timeout opts));
  if negb (bool_decide (cr_peers creds = [])) && bool_decide (connected = 0%nat)
  then fail (Generic ("no peers reachable (configured: " +:+ digits (Z.of_nat (length (cr_peers creds))) +:+ ")"))
  else
    modify (λ s, foldl (λ s id, sync_all id s) s (elements (se_connected s)));;
    match mdns with
    | Some discovered =>
        modify (λ s, connect_discovered (cr_app_id creds) (connected_names s) discovered (so_timeout opts) s)
    | None => mret tt
    end;;
    mret (d, node_id).

End open.
End session.

(** ** [spawn_on_change_pusher]: what the store's change channel hands the task *)

Inductive ChangeRecv := ChangedKey (key : string) | ChangesLagged (n : Z) | ChangesClosed.

(** The keys pushed to the peers: the loop ends at the first [Err]. *)
Fixpoint on_change_pusher (received : list ChangeRecv) : list string :=
  match received with
  | ChangedKey key :: received => key :: on_change_pusher received
  | _ => []
  end.

(** * Joining is correct

    Whom a session connects to and asks to sync, its identity across invocations, the
    modes of its data directory, and what its background tasks give up on. *)

Section facts.
Context {Id : Type} `{Countable Id} (parse_id : string → result string Id) (show_id : Id → string) (je : JoinEnv).
Implicit Types (s : Session (Id := Id)) (id : Id).

Abbreviation dialled := (dial_peer parse_id show_id).
Abbreviation connect := (connect_peer parse_id show_id).

(** ** Dials *)

Lemma dial_attempts_spec d id timeout addrs :
  ∃ r, dial_attempts show_id (Z.to_nat CONNECT_RETRY_ATTEMPTS) d id timeout addrs 0 = Some r ∧
    (r = Ok tt ↔ ∃ k, 1 ≤ k ≤ CONNECT_RETRY_ATTEMPTS ∧ cd_attempt d addrs k = Connected) ∧
    ((∀ k, 1 ≤ k ≤ CONNECT_RETRY_ATTEMPTS → ∃ e, cd_attempt d addrs k = AttemptFailed e) →
      ∃ t, r = Err (Generic ("connect/auth to `" +:+ t))).
Proof.
  unfold CONNECT_RETRY_ATTEMPTS. change (Z.to_nat 3) with 3%nat. cbn [dial_attempts].
  change (0 + 1 + 1 + 1) with 3. change (0 + 1 + 1) with 2. change (0 + 1) with 1. unfold CONNECT_RETRY_ATTEMPTS.
  change (1 <? 3) with true. change (2 <? 3) with true. change (3 <? 3) with false. cbn iota.
  assert (∀ k, 1 ≤ k ≤ 3 → k = 1 ∨ k = 2 ∨ k = 3) as Hk by lia.
  assert (∀ k, 1 ≤ k ≤ 3 → cd_attempt d addrs k = Connected → ∀ r : result CliError unit, r = Ok tt →
    Some r = Some r ∧ (r = Ok tt ↔ ∃ k, 1 ≤ k ≤ 3 ∧ cd_attempt d addrs k = Connected) ∧
    ((∀ k, 1 ≤ k ≤ 3 → ∃ e, cd_attempt d addrs k = AttemptFailed e) → ∃ t, r = Err (Generic ("connect/auth to `" +:+ t)))) as Hok.
  { intros k Hr Hc r ->. split_and!; [done|split; eauto|]. intros Hf. destruct (Hf k Hr) as [e He]. congruence. }
  destruct (cd_attempt d addrs 1) as [|e1|] eqn:E1; [eexists; eapply (Hok 1); [lia|done..]|..].
  all: destruct (cd_attempt d addrs 2) as [|e2|] eqn:E2; [eexists; eapply (Hok 2); [lia|done..]|..].
  all: destruct (cd_attempt d addrs 3) as [|e3|] eqn:E3; [eexists; eapply (Hok 3); [lia|done..]|..].
  all: eexists; split_and!; [done|split; [done|intros (k & Hr & Hc); destruct (Hk k Hr) as [-> |[-> | ->]]; congruence]|].
  all: intros Hf; first [by eexists | exfalso; destruct (Hf 3) as [? ?]; [lia|congruence]].
Qed.

(** A dial that succeeds reaches the peer the spec names, over IPv4. *)
Lemma dial_peer_Ok d spec timeout id :
  dialled d spec timeout = Ok id →
  ∃ id_text addr, spec = id_text +:+ "@" +:+ addr ∧ parse_id id_text = Ok id ∧
    ∃ sockets k, cd_lookup d addr = Ok sockets ∧ (∃ a, (true, a) ∈ sockets) ∧ 1 ≤ k ≤ CONNECT_RETRY_ATTEMPTS ∧
      cd_attempt d (snd <$> List.filter fst sockets) k = Connected.
Proof.
  unfold dial_peer, parse_peer_spec. destruct (split_once "@" spec) as [[id_text addr]|] eqn:Hs; [|done].
  destruct (parse_id id_text) as [id'|] eqn:Hid; [|done]. cbn. destruct (cd_lookup d addr) as [sockets|] eqn:Hl; [|done]. cbn.
  destruct (snd <$> List.filter fst sockets) as [|a addrs] eqn:Ha; [done|].
  destruct (dial_attempts_spec d id' timeout (a :: addrs)) as (r & -> & Hr & _). destruct r as [[]|e]; [|done]. intros [= <-].
  exists id_text, addr. apply split_once_Some in Hs. split; [done|]. split; [done|]. destruct Hr as [Hr _]. destruct (Hr eq_refl) as (k & Hk & Hc).
  exists sockets, k. rewrite Ha. split_and!; try done; [|lia..].
  destruct (List.filter fst sockets) as [|[b x] l] eqn:Hf; [done|]. exists x.
  assert ((b, x) ∈ List.filter fst sockets) as Hin by (rewrite Hf; by left).
  apply list_elem_of_In, filter_In in Hin as [Hin Hb]. cbn in Hb. subst. by apply list_elem_of_In.
Qed.

Lemma connect_spec d spec timeout s :
  connect d spec timeout s =
  match dialled d spec timeout with Ok id => (Ok tt, with_connected ({[id]} ∪ se_connected s) s) | Err e => (Err e, s) end.
Proof. done. Qed.

(** ** Configured peers *)

Definition reached (specs : list string) (timeout : Z) : list Id :=
  omap (λ spec, match dialled (je_dials je spec) spec timeout with Ok id => Some id | Err _ => None end) specs.

Lemma connect_configured_spec specs timeout s :
  connect_configured parse_id show_id je specs timeout s =
  (length (reached specs timeout), with_connected (list_to_set (reached specs timeout) ∪ se_connected s) s).
Proof.
  revert s. induction specs as [|spec specs IH]; intros s; cbn [connect_configured].
  - cbn. rewrite (left_id_L ∅ (∪)). by destruct s.
  - unfold reached. cbn. rewrite connect_spec. fold (reached specs timeout). destruct (dialled _ spec timeout) as [id|e] eqn:Hd; rewrite IH; cbn; [|done].
    f_equal. unfold with_connected. cbn. f_equal. set_solver.
Qed.

Lemma fold_sync (l : list Id) s : foldl (λ s id, sync_all id s) s l = with_synced (se_synced s ++ l) s.
Proof.
  revert s. induction l as [|id l IH]; intros s; cbn; [rewrite app_nil_r; by destruct s|].
  rewrite IH. unfold sync_all, with_synced. cbn. by rewrite <-app_assoc.
Qed.

(** ** mDNS *)

(** The peer an mDNS dial may connect: the one the announced name parses to. *)
Definition announced (node_id : string) id : Prop :=
  parse_id (match split_once "@" node_id with Some (l, _) => l | None => node_id end) = Ok id.

Lemma split_once_append c (a b : string) :
  split_once c (a +:+ String c b) = Some (match split_once c a with Some (l, r) => (l, r +:+ String c b) | None => (a, b) end).
Proof.
  induction a as [|x a IH]; [rewrite string_app_nil; cbn; by rewrite Ascii.eqb_refl|].
  rewrite string_app_cons. cbn. destruct (Ascii.eqb x c); [done|]. rewrite IH. by destruct (split_once c a) as [[l r]|].
Qed.

Lemma dial_announced d node_id addr timeout id : dialled d (node_id +:+ "@" +:+ addr) timeout = Ok id → announced node_id id.
Proof.
  unfold dial_peer, parse_peer_spec, announced. change ("@" +:+ addr) with (String "@" addr). rewrite split_once_append.
  destruct (split_once "@" node_id) as [[l r]|]; cbn.
  all: match goal with |- context [map_err _ (parse_id ?x)] => destruct (parse_id x) as [id'|]; [|done] end; cbn.
  all: match goal with |- context [map_err _ ?x] => destruct x as [sockets|]; [|done] end; cbn.
  all: destruct (snd <$> List.filter fst sockets) as [|a addrs]; [done|].
  all: destruct (dial_attempts_spec d id' timeout (a :: addrs)) as (? & -> & _).
  all: match goal with |- context [map_ok _ ?x] => destruct x; [|done] end; by intros [= <-].
Qed.

Lemma mdns_connect_frame dials node_id addrs timeout s :
  let s' := (mdns_connect parse_id show_id dials node_id addrs timeout s).2 in
  se_dirs s' = se_dirs s ∧ se_files s' = se_files s ∧ se_connected s ⊆ se_connected s' ∧ se_synced s `prefix_of` se_synced s' ∧
  ∀ id, id ∈ se_connected s' → id ∈ se_connected s ∨ announced node_id id.
Proof.
  revert s. induction addrs as [|addr addrs IH]; intros s; cbn; [split_and!; auto|].
  rewrite connect_spec. destruct (dialled _ _ timeout) as [id|e] eqn:Hd; cycle 1.
  { specialize (IH s). by destruct (mdns_connect _ _ _ _ addrs _ s) as [es s']. }
  apply dial_announced in Hd. cbn.
  destruct (list_find _ _) as [[i x]|]; cbn; split_and!; try done; [set_solver| | |set_solver|].
  - by eexists.
  - intros y [->%elem_of_singleton|Hy]%elem_of_union; auto.
  - intros y [->%elem_of_singleton|Hy]%elem_of_union; auto.
Qed.

Lemma connect_discovered_frame app_id already peers timeout s :
  let s' := connect_discovered parse_id show_id je app_id already peers timeout s in
  se_dirs s' = se_dirs s ∧ se_files s' = se_files s ∧ se_connected s ⊆ se_connected s' ∧ se_synced s `prefix_of` se_synced s' ∧
  ∀ id, id ∈ se_connected s' → id ∈ se_connected s ∨
    ∃ peer, peer ∈ peers ∧ same_formation app_id peer = true ∧ pi_node_id peer ≠ je_endpoint_id je ∧ announced (pi_node_id peer) id.
Proof.
  revert s. induction peers as [|peer peers IH]; intros s; cbn; [split_and!; auto|].
  set (s1 := if _ || _ then s else _).
  assert (se_dirs s1 = se_dirs s ∧ se_files s1 = se_files s ∧ se_connected s ⊆ se_connected s1 ∧ se_synced s `prefix_of` se_synced s1 ∧
    ∀ id, id ∈ se_connected s1 → id ∈ se_connected s ∨ (same_formation app_id peer = true ∧ pi_node_id peer ≠ je_endpoint_id je ∧ announced (pi_node_id peer) id))
    as (Hd & Hf & Hc & Hs & Hin).
  { unfold s1. destruct (_ || _) eqn:Hskip; [split_and!; auto|]. apply orb_false_iff in Hskip as [Hself _]. apply bool_decide_eq_false in Hself.
    destruct (same_formation app_id peer) eqn:Hform; cbn [negb]; [|split_and!; auto].
    pose proof (mdns_connect_frame (je_dials je) (pi_node_id peer) (peer_addresses peer) timeout s) as (? & ? & ? & ? & Hm).
    split_and!; try done. intros id [?|?]%Hm; auto. }
  destruct (IH s1) as (Hd' & Hf' & Hc' & Hs' & Hin'). split_and!; [congruence|congruence|set_solver|by etrans|].
  intros id [Hid|(q & Hq & Hrest)]%Hin'.
  - apply Hin in Hid as [?|?]; [by left|]. right. exists peer. split; [by left|done].
  - right. exists q. split; [by right|done].
Qed.

(** ** Opening a session *)

Lemma wp_resolve_data_dir creds opts s :
  wp (resolve_data_dir je creds opts) (λ _ s', se_connected s' = se_connected s ∧ se_synced s' = se_synced s ∧ se_files s' = se_files s) s.
Proof.
  assert (∀ path mode loc s0 Q, (∀ r dirs, Q r (with_dirs dirs s0)) → wp (mkdirs je path mode loc : Join unit) Q s0) as Hmk.
  { intros path mode loc s0 Q HQ. unfold wp, mkdirs. destruct (make_dirs _ _ _ _ _). apply HQ. }
  assert (∀ path s0 Q, (∀ r dirs, Q r (with_dirs dirs s0)) → wp (create_private_dir je path : Join unit) Q s0) as Hpriv.
  { intros path s0 Q HQ. unfold create_private_dir. wp_step. apply Hmk. intros [] dirs; [|apply HQ]. apply Hmk. intros r dirs'. apply (HQ r). }
  unfold resolve_data_dir. destruct (so_data_dir opts); [wp_step; apply Hpriv; by intros [] dirs; [wp_step|]|].
  destruct (cr_data_dir creds); wp_step; wp_step.
  - destruct (expand_data_dir _ _); [|done]. wp_step. apply Hpriv. by intros [] dirs; [wp_step|].
  - destruct (map_err _ _); [|done]. by wp_step.
Qed.

Lemma wp_session_step {A} (f : Session (Id := Id) → A * Session) Q s :
  Q (Ok (f s).1) (f s).2 → wp (CliSession.step f) Q s.
Proof. unfold wp, CliSession.step. by destruct (f s). Qed.

Lemma session_identity_frame fresh opts d s :
  se_connected (session_identity je fresh opts d s).2 = se_connected s ∧ se_synced (session_identity je fresh opts d s).2 = se_synced s.
Proof. unfold session_identity. destruct (so_as_id opts); [done|]. destruct d; [done|]. destruct (negb _); [done|]. by destruct (je_writable _ _). Qed.

(** Whom a session joins. A new session that opens is connected to every configured
    peer whose dial succeeded and has asked each of them for its documents; everyone
    else it is connected to was announced over mDNS, with mDNS on, under the same
    formation or none, and is not the session itself. It does not open when peers are
    configured and none answered, and then it has asked nobody for anything. *)
Theorem session_joins fresh creds opts s :
  se_connected s = ∅ → se_synced s = [] →
  let peers := reached (cr_peers creds) (so_timeout opts) in
  wp (open parse_id show_id je fresh creds opts) (λ r s',
    match r with
    | Err _ => se_synced s' = []
    | Ok _ =>
        (cr_peers creds ≠ [] → peers ≠ []) ∧
        (∀ id, id ∈ peers → id ∈ se_connected s' ∧ id ∈ se_synced s') ∧
        (∀ id, id ∈ se_connected s' → id ∈ peers ∨
          ∃ found peer, cr_disable_mdns creds = false ∧ je_mdns je = Some found ∧ peer ∈ found ∧
            same_formation (cr_app_id creds) peer = true ∧ pi_node_id peer ≠ je_endpoint_id je ∧ announced (pi_node_id peer) id)
    end) s.
Proof.
  intros Hc Hs peers. unfold open. wp_step. eapply wp_mono; [apply wp_resolve_data_dir|]. intros [d|e] s1 (Hc1 & Hs1 & _); [|congruence].
  wp_step. apply wp_session_step. pose proof (session_identity_frame fresh opts d s1) as [Hc2 Hs2].
  destruct (session_identity je fresh opts d s1) as [node_id s2]. cbn [fst snd] in Hc2, Hs2 |- *.
  wp_step. wp_step. destruct (map_err _ (je_bootstrap je (data_path d))); [|congruence].
  wp_step. apply wp_session_step. rewrite connect_configured_spec. fold peers. cbn [fst snd].
  set (s3 := with_connected _ s2). assert (se_connected s3 = list_to_set peers ∧ se_synced s3 = []) as [Hc3 Hs3].
  { unfold s3. cbn. rewrite Hc2, Hc1, Hc, Hs2, Hs1, Hs, (right_id_L ∅ (∪)). done. }
  destruct (negb _ && _) eqn:Hnone; [by wp_step|].
  assert (cr_peers creds ≠ [] → peers ≠ []) as Hreach.
  { intros Hne Hp. rewrite Hp, (bool_decide_false (cr_peers creds = [])) in Hnone by done. done. }
  wp_step. wp_step. rewrite fold_sync, Hs3, app_nil_l, Hc3. set (s4 := with_synced _ s3).
  assert (∀ id, id ∈ peers → id ∈ se_connected s4 ∧ id ∈ se_synced s4) as Hall.
  { intros id Hid. unfold s4, with_synced. cbn [se_connected se_synced]. rewrite Hc3, elem_of_elements. set_solver. }
  assert (∀ id, id ∈ se_connected s4 → id ∈ peers) as Honly by (unfold s4, with_synced; cbn [se_connected]; rewrite Hc3; set_solver).
  wp_step. destruct (if cr_disable_mdns creds then None else je_mdns je) as [found|] eqn:Hm; wp_step; wp_step; [|by eauto].
  destruct (connect_discovered_frame (cr_app_id creds) (connected_names show_id s4) found (so_timeout opts) s4) as (_ & _ & Hsub & Hpre & Hin).
  split_and!; [done| |].
  - intros id [Hid1 Hid2]%Hall. split; [by apply Hsub|]. destruct Hpre as [l ->]. apply elem_of_app. by left.
  - intros id [Hid|(peer & ? & ? & ? & ?)]%Hin; [by left; apply Honly|]. right. exists found, peer. by destruct (cr_disable_mdns creds).
Qed.

(** ** The identity *)

(** A persistent session keeps its identity: once a session without [--as] has stored
    the id it drew, every later one on that directory has the same id and leaves the
    file alone; [--as] wins and neither reads nor writes it. *)
Theorem identity_persists fresh later p d opts s :
  so_as_id opts = None → trim fresh = fresh → fresh ≠ ""%string → je_writable je (path_join p "identity") = true →
  let '(id, s1) := session_identity je fresh opts (Persistent p) s in
  session_identity je later opts (Persistent p) s1 = (id, s1) ∧
  (id = fresh ∨ ∃ text, se_files s !! path_join p "identity" = Some text ∧ id = trim text ∧ s1 = s) ∧
  ∀ me t dir, session_identity je later (mkOptions t (Some me) dir) d s = (me, s).
Proof.
  intros Has Htrim Hne Hw. unfold session_identity at 1. rewrite Has.
  set (stored := match se_files s !! _ with Some text => trim text | None => _ end). destruct (is_empty_str stored) eqn:He; cbn [negb].
  - rewrite Hw. split_and!; [|by left|done]. unfold session_identity. rewrite Has. cbn. rewrite lookup_insert_eq, Htrim.
    by destruct fresh.
  - split_and!; [|right|done].
    + unfold session_identity. rewrite Has. fold stored. by rewrite He.
    + unfold stored in *. destruct (se_files s !! _) as [text|]; [by eauto|done].
Qed.

(** ** The data directory *)

Lemma make_dirs_keeps mode : ∀ names at_ dirs loc m,
  dirs !! loc = Some m → (make_dirs je mode at_ names dirs).2 !! loc = Some m.
Proof.
  induction names as [|n names IH]; intros at_ dirs loc m Hl; cbn; [done|].
  destruct (dirs !! (at_ ++ [n])) eqn:E; [by apply IH|]. destruct (je_mkdir je _); [|done]. apply IH.
  destruct (decide (loc = at_ ++ [n])) as [->|]; [congruence|by rewrite lookup_insert_ne].
Qed.

Lemma make_dirs_leaf mode : ∀ names n at_ dirs dirs',
  make_dirs je mode at_ (names ++ [n]) dirs = (Ok tt, dirs') → dirs !! (at_ ++ names ++ [n]) = None →
  dirs' !! (at_ ++ names ++ [n]) = Some (Z.ldiff mode (je_umask je)).
Proof.
  induction names as [|x names IH]; intros n at_ dirs dirs' Hm Hnew; cbn in Hm, Hnew |- *.
  - rewrite Hnew in Hm. destruct (je_mkdir je _); [|done]. injection Hm as <-. by rewrite lookup_insert_eq.
  - assert (at_ ++ x :: names ++ [n] = (at_ ++ [x]) ++ names ++ [n]) as Hl by (by rewrite <-app_assoc). rewrite Hl in *.
    destruct (dirs !! (at_ ++ [x])) eqn:E; [by eapply IH|]. destruct (je_mkdir je _); [|done]. eapply IH; [exact Hm|].
    rewrite lookup_insert_ne; [done|]. intros Heq. apply (f_equal length) in Heq. rewrite !length_app in Heq. cbn in Heq. lia.
Qed.

Lemma make_dirs_other mode : ∀ names at_ dirs loc,
  ¬ (loc `prefix_of` at_ ++ names) → (make_dirs je mode at_ names dirs).2 !! loc = dirs !! loc.
Proof.
  induction names as [|n names IH]; intros at_ dirs loc Hp; cbn; [done|].
  assert (¬ loc `prefix_of` (at_ ++ [n]) ++ names) as Hp' by (by rewrite <-app_assoc).
  destruct (dirs !! (at_ ++ [n])); [by apply IH|]. destruct (je_mkdir je _); [|done]. rewrite IH by done.
  apply lookup_insert_ne. intros <-. apply Hp'. by apply prefix_app_r.
Qed.

(** The local store is private: a data directory that [create_private_dir] creates has
    mode 0700 less the umask, and a directory that was there before keeps its mode,
    the data directory included. *)
Theorem data_dir_private path s names n s' :
  path_location je path = names ++ [n] →
  create_private_dir je path s = (Ok tt, s') →
  (se_dirs s !! (names ++ [n]) = None → se_dirs s' !! (names ++ [n]) = Some (Z.ldiff 448 (je_umask je))) ∧
  (∀ loc m, se_dirs s !! loc = Some m → se_dirs s' !! loc = Some m).
Proof.
  intros Hloc. unfold create_private_dir, mbind, st_err_bind, mkdirs. rewrite Hloc, removelast_last.
  destruct (make_dirs je 511 [] names (se_dirs s)) as [[[]|e] dirs] eqn:H1; cbn; [|done].
  destruct (make_dirs je 448 [] (names ++ [n]) dirs) as [[[]|e] dirs'] eqn:H2; cbn; [|done]. intros [= <-]. cbn. split.
  - intros Hnew. eapply (make_dirs_leaf 448 names n []); [exact H2|]. cbn [app].
    pose proof (make_dirs_other 511 names [] (se_dirs s) (names ++ [n])) as Ho. rewrite H1 in Ho. cbn in Ho. rewrite Ho; [done|].
    intros Hp%prefix_length. rewrite length_app in Hp. cbn in Hp. lia.
  - intros loc m Hm. pose proof (make_dirs_keeps 511 names [] (se_dirs s) loc m Hm) as Hk. rewrite H1 in Hk.
    pose proof (make_dirs_keeps 448 (names ++ [n]) [] dirs loc m Hk) as Hk'. by rewrite H2 in Hk'.
Qed.

(** ** What the background tasks give up on *)

Lemma cli_connect_failure_is_auth t : is_auth_failure (cli_error_text (Generic ("connect/auth to `" +:+ t))) = true.
Proof. unfold is_auth_failure. apply orb_true_iff. right. cbn [cli_error_text]. apply contains_text_app_l. by vm_compute. Qed.

(** Any failed connection is taken for a wrong formation key: the text of the error
    says [connect/auth], so after three plain failures the watcher ignores the peer for
    the rest of the session, however often it is announced again. *)
Theorem failed_dial_excludes_peer dials formation_id timeout peer addr addrs sockets id failed s :
  pi_node_id peer ≠ je_endpoint_id je → pi_node_id peer ∉ failed → same_formation formation_id peer = true →
  pi_node_id peer ∉ connected_names show_id s →
  peer_addresses peer = addr :: addrs → str_contains (pi_node_id peer) "@" = false → parse_id (pi_node_id peer) = Ok id →
  let d := dials (pi_node_id peer +:+ "@" +:+ addr) in
  cd_lookup d addr = Ok sockets → List.filter fst sockets ≠ [] →
  (∀ k, 1 ≤ k ≤ CONNECT_RETRY_ATTEMPTS → ∃ e, cd_attempt d (snd <$> List.filter fst sockets) k = AttemptFailed e) →
  let '(failed1, s1) := cli_mdns_event parse_id show_id je dials formation_id timeout (PeerFound peer) failed s in
  ∀ events, Forall (λ ev, ∃ p, pi_node_id p = pi_node_id peer ∧ (ev.2 = PeerFound p ∨ ev.2 = PeerUpdated p)) events →
  cli_mdns_watcher parse_id show_id je formation_id timeout events failed1 s1 = (failed1, s1).
Proof.
  intros Hself Hfail Hform Hconn Haddr Hat Hid d Hlook Hv4 Hatt.
  assert (∃ t, dialled d (pi_node_id peer +:+ "@" +:+ addr) timeout = Err (Generic ("connect/auth to `" +:+ t))) as [t Ht].
  { unfold dial_peer, parse_peer_spec. change ("@" +:+ addr) with (String "@" addr). rewrite split_once_app, Hid by done. cbn. rewrite Hlook. cbn.
    destruct (dial_attempts_spec d id timeout (snd <$> List.filter fst sockets)) as (r & Hr & _ & He). destruct (He Hatt) as [t ->]. exists t.
    destruct (snd <$> List.filter fst sockets) eqn:Hf; [by destruct (List.filter fst sockets)|]. by rewrite Hr. }
  cbn [cli_mdns_event]. rewrite !bool_decide_false, Hform by done. cbn [orb negb]. rewrite Haddr. cbn [mdns_connect].
  rewrite connect_spec. fold d. rewrite Ht. destruct (mdns_connect _ _ _ _ addrs _ s) as [es s1]. cbn [existsb]. rewrite cli_connect_failure_is_auth. cbn [orb].
  intros events Hev. induction Hev as [|[ds ev] events (q & Hq & Hcase) _ IH]; [done|]. cbn [cli_mdns_watcher].
  assert (cli_mdns_event parse_id show_id je ds formation_id timeout ev ({[pi_node_id peer]} ∪ failed) s1 = ({[pi_node_id peer]} ∪ failed, s1)) as ->; [|done].
  cbn in Hcase. destruct Hcase as [-> | ->]; cbn [cli_mdns_event]; rewrite Hq, bool_decide_false, bool_decide_true by (done || set_solver); done.
Qed.

End facts.

(** The change pusher dies of a lag: a change behind it is never pushed, although the
    comment says that the task ends when the channel closes. *)
Theorem pusher_stops_at_lag before n after :
  Forall (λ c, ∃ k, c = ChangedKey k) before →
  on_change_pusher (before ++ ChangesLagged n :: after) = on_change_pusher before.
Proof. induction 1 as [|c before [k ->] _ IH]; cbn; [done|by rewrite IH]. Qed.

(** ** Witnesses *)

Definition toy_parse_id (s : string) : result string string := Ok s.

Definition toy_dials (answer : Attempt) : string → CliDial := λ _, mkCliDial (λ a, Ok [(true, a)]) (λ _ _, answer).

Definition toy_join_env (answer : Attempt) (found : option (list PeerInfo)) : JoinEnv :=
  mkJoinEnv (mkEnv None None None None (λ _, false) (λ _, Err "none"%string) (λ _, Err "none"%string)) ["home"%string] 18 (λ _, Ok tt) (λ _, true)
    (Ok "/tmp/x"%string) (λ _, Ok tt) "me" found (toy_dials answer).

Definition toy_session : Session (Id := string) := mkSession ∅ ∅ ∅ [].
Definition toy_peer_info : PeerInfo := mkPeerInfo "p2" ["10.0.0.2:1"%string] ∅.
Definition toy_credentials : PeatCredentials := mkCredentials "app" "key" ["p1@10.0.0.1:1"%string] None false None.

Lemma session_joins_witness :
  let '(r, s') := open toy_parse_id id (toy_join_env Connected (Some [toy_peer_info])) "uuid" toy_credentials (mkOptions 10000 None None) toy_session in
  is_ok r = true ∧ "p1"%string ∈ se_connected s' ∧ "p1"%string ∈ se_synced s'.
Proof.
  pose proof (session_joins toy_parse_id id (toy_join_env Connected (Some [toy_peer_info])) "uuid" toy_credentials (mkOptions 10000 None None) toy_session
    eq_refl eq_refl) as Hw.
  unfold wp in Hw. destruct (open _ _ _ _ _ _ _) as [r s'] eqn:E. assert (is_ok r = true) as Hr by (apply (f_equal fst) in E; vm_compute in E; by subst r).
  split; [exact Hr|]. cbn [fst snd] in Hw. destruct r as [x|e]; [|done]. apply (proj1 (proj2 Hw)). by left.
Defined.

Lemma identity_persists_witness :
  let '(id1, s1) := session_identity (toy_join_env Connected None) "uuid-1" (mkOptions 0 None None) (Persistent "/data") toy_session in
  id1 = "uuid-1"%string ∧ session_identity (toy_join_env Connected None) "uuid-2" (mkOptions 0 None None) (Persistent "/data") s1 = (id1, s1).
Proof.
  pose proof (identity_persists (toy_join_env Connected None) "uuid-1" "uuid-2" "/data" (Ephemeral "/t") (mkOptions 0 None None) toy_session
    eq_refl ltac:(vm_compute; reflexivity) ltac:(discriminate) eq_refl) as Hp.
  destruct (session_identity (toy_join_env Connected None) "uuid-1" _ _ _) as [id1 s1] eqn:E. split; [|exact (proj1 Hp)].
  apply (f_equal fst) in E. vm_compute in E. by subst id1.
Defined.

Lemma data_dir_private_witness :
  let '(r, s') := create_private_dir (toy_join_env Connected None) "store" toy_session in
  r = Ok tt ∧ se_dirs s' !! ["home"; "store"]%string = Some 448.
Proof.
  destruct (create_private_dir (toy_join_env Connected None) "store" toy_session) as [r s'] eqn:E.
  assert (r = Ok tt) as -> by (apply (f_equal fst) in E; vm_compute in E; by subst r). split; [reflexivity|].
  exact (proj1 (data_dir_private (toy_join_env Connected None) "store" toy_session ["home"%string] "store"%string s' eq_refl E) eq_refl).
Defined.

Lemma failed_dial_excludes_peer_witness :
  let je := toy_join_env Connected None in
  let refused := toy_dials (AttemptFailed "refused") in
  let '(failed, s) := cli_mdns_event toy_parse_id id je refused "app" 10000 (PeerFound toy_peer_info) ∅ toy_session in
  cli_mdns_watcher toy_parse_id id je "app" 10000 [(toy_dials Connected, PeerFound toy_peer_info)] failed s = (failed, s).
Proof.
  intros je refused.
  pose proof (failed_dial_excludes_peer toy_parse_id id je refused "app" 10000 toy_peer_info "10.0.0.2:1" [] [(true, "10.0.0.2:1"%string)] "p2"%string ∅ toy_session
    ltac:(discriminate) ltac:(set_solver) eq_refl (not_elem_of_nil _) eq_refl eq_refl eq_refl eq_refl ltac:(discriminate)
    ltac:(intros k _; by exists "refused"%string)) as Hp.
  destruct (cli_mdns_event _ _ _ _ _ _ _ _ _) as [failed s]. apply Hp. constructor; [|constructor]. exists toy_peer_info. split; [reflexivity|by left].
Defined.

Lemma pusher_stops_at_lag_witness : on_change_pusher [ChangedKey "a"; ChangesLagged 1; ChangedKey "b"] = ["a"%string].
Proof. apply (pusher_stops_at_lag [ChangedKey "a"] 1 [ChangedKey "b"]). repeat constructor. by exists "a"%string. Defined.
