(* ===== verification/CliAttach.v ===== *)
(** * Attachments from the command line

    Model of [crates/peat-cli/src/cli/attach.rs]: the scope and priority arguments, the
    [send], [status] and [watch] commands, and the inbox sink, a copy of the node's.
    peat-protocol's file distribution is the class [Distribution]; its receive watcher
    asks the sink whether a distribution was delivered and hands over the blob if not. *)

From S2P Require Import Prelude Paths Ingest Json PathFacts Inbox CliCore CliWorld CliOutput CliCommands CliCommandsFacts CliFacts.
From Stdlib Require Import Strings.Ascii.

(** ** Arguments *)

Inductive CliScope := AllNodes | Nodes (node_ids : list string) | Formation (formation_id : string).

Definition parse_scope (s : string) : result CliError CliScope :=
  if bool_decide (s = "all") then Ok AllNodes
  else
    match strip_prefix "nodes:" s with
    | Some rest =>
        match List.filter (λ id, negb (is_empty_str id)) (split_on "," rest) with
        | [] => Err (Malformed "nodes: scope requires at least one node id (e.g. nodes:abc,def)")
        | ids => Ok (Nodes ids)
        end
    | None =>
        match strip_prefix "formation:" s with
        | Some id =>
            if is_empty_str id then Err (Malformed "formation: scope requires a formation id (e.g. formation:alpha-cell)")
            else Ok (Formation id)
        | None => Err (Malformed ("unrecognised scope `" +:+ s +:+ "`: expected `all`, `nodes:id1,id2`, or `formation:id`"))
        end
    end.

Definition parse_priority (s : string) : result CliError TransferPriority :=
  if bool_decide (s = "critical") then Ok TpCritical
  else if bool_decide (s = "high") then Ok TpHigh
  else if bool_decide (s = "normal") then Ok TpNormal
  else if bool_decide (s = "low") then Ok TpLow
  else Err (Malformed ("unrecognised priority `" +:+ s +:+ "`: expected `critical`, `high`, `normal`, or `low`")).

Record SendArgs := mkSend { sa_file : string; sa_scope : string; sa_priority : string; sa_wait : bool }.

(** ** The commands *)

Record TransferStatus := mkTransfer { ts_completed : Z; ts_failed : Z; ts_total_targets : Z }.

Class Distribution (M : Type) `{J : JsonLib} `{!Mesh M} := {
  BlobTok : Type;
  Handle : Type;
  handle_id : Handle → string;
  handle_hash : Handle → string;
  real_path : string → M → result string string; (* [canonicalize] *)
  add_blob_peer : PeerId → M → M;
  create_blob_of : string → BlobMetadata → M → result string BlobTok * M;
  distribute_blob : BlobTok → CliScope → TransferPriority → M → result string Handle * M;
  wait_for_completion : Handle → Z → M → result string TransferStatus * M;
  read_distribution : string → M → result string (option (Value JNumber));
}.

Section attach.
Context `{J : JsonLib} {P : JsonPretty} {M : Type} `{!Mesh M} `{!Distribution M} (env : CliEnv).
Abbreviation Cmd := (CliWorld.Cmd (M := M)).

(** Every connected peer becomes known to the blob store. *)
Definition register_blob_peers : Cmd unit :=
  peers ← gets_mesh connected_peers;
  for_each (λ peer, on_mesh (λ m, (tt, add_blob_peer peer m))) peers.

Definition run_send (args : SendArgs) (common : CommonArgs) : Cmd unit :=
  scope ← try (parse_scope (sa_scope args));
  priority ← try (parse_priority (sa_priority args));
  timeout ← try (parse_timeout (ca_timeout common));
  file_path ← read ("cannot access `" +:+ sa_file args +:+ "`") (real_path (sa_file args));
  let filename := default "attachment"%string (path_file_name (components file_path)) in
  creds ← try (load env (ca_creds common));
  open_session creds timeout common;;
  register_blob_peers;;
  token ← call "create_blob" (create_blob_of file_path (mkBlobMetadata (Some filename) None));
  handle ← call "distribute" (distribute_blob token scope priority);
  if sa_wait args then
    status ← call "wait_for_completion" (wait_for_completion handle timeout);
    println (to_string_pretty (json_object [
      ("distribution_id", VString (handle_id handle)); ("status", VString "complete"); ("completed", json_int (ts_completed status));
      ("failed", json_int (ts_failed status)); ("total_targets", json_int (ts_total_targets status))]))
  else
    println (to_string_pretty (json_object [
      ("distribution_id", VString (handle_id handle)); ("blob_hash", VString (handle_hash handle));
      ("scope", VString (sa_scope args)); ("priority", VString (sa_priority args))])).

(** The timeout comes before the credentials here. *)
Definition attach_join (common : CommonArgs) : Cmd unit :=
  timeout ← try (parse_timeout (ca_timeout common));
  creds ← try (load env (ca_creds common));
  open_session creds timeout common.

Definition run_status (dist_id : string) (common : CommonArgs) : Cmd unit :=
  attach_join common;;
  doc ← read "read distribution" (read_distribution dist_id);
  match doc with
  | Some d => println (to_string_pretty d)
  | None =>
      stop (Generic ("distribution `" +:+ dist_id +:+ "` not found in local store (try connecting with --creds and --timeout to sync it first)"))
  end.

(** [watch] up to the start of the receive watcher; [mkdir] is the inbox directory. *)
Definition run_watch_start (inbox : string) (mkdir : result string unit) (common : CommonArgs) : Cmd unit :=
  attach_join common;;
  register_blob_peers;;
  try (map_err (λ e, Generic ("create inbox `" +:+ inbox +:+ "`: " +:+ e)) mkdir).

Definition watch_output (inbox dist_id : string) : Cmd unit :=
  println (to_string_pretty (json_object [
    ("distribution_id", VString dist_id); ("status", VString "delivered"); ("inbox", VString inbox)])).

End attach.

(** ** The inbox sink *)

Section sink.
Context (cwd : list string) (inbox_root : string).

(** The components of the sender's name, pushed one by one. *)
Definition sink_relpath (m : BlobMetadata) : option string :=
  raw ← bm_name m;
  if is_empty_str raw then None
  else
    safe ← foldl (λ acc c, safe ← acc; match c with Normal s => Some (path_join safe s) | CurDir => Some safe | _ => None end)
             (Some ""%string) (components raw);
    if is_empty_str safe then None else Some safe.

Definition sink_target (doc : DistributionDocument) : list Component :=
  components (path_join inbox_root (default (dd_distribution_id doc +:+ ".bin") (sink_relpath (dd_blob_metadata doc)))).

Definition sink_already_delivered (doc : DistributionDocument) (w : World) : bool :=
  match (stat cwd (sink_target doc) w).1 with
  | Ok (file, len) => file && (len =? dd_blob_size doc)
  | Err _ => false
  end.

Definition sink_deliver (doc : DistributionDocument) (blob_path : string) : Io unit :=
  let target := sink_target doc in
  let parent := default (components inbox_root) (path_parent target) in
  create_dir_all cwd parent;;
  let fname := default "blob"%string (path_file_name target) in
  let tmp := parent ++ [Normal ("." +:+ fname +:+ ".partial")] in
  copy cwd (components blob_path) tmp;;
  md ← stat cwd tmp;
  if negb (md.2 =? dd_blob_size doc) then ignore (remove_file cwd tmp);; fail io_error
  else rename cwd tmp target.

(** [deliver] with the signal of [new_with_notify]: whether it fired. *)
Definition notify_deliver (dist_id : string) (doc : DistributionDocument) (blob_path : string) (w : World) : bool * World :=
  let '(r, w) := sink_deliver doc blob_path w in
  (is_ok r && bool_decide (dd_distribution_id doc = dist_id), w).

(** The receive watcher's sweeps with the sink of [watch --dist-id]: the command ends
    when the signal fires; [None] while it waits. *)
Fixpoint watch_for (dist_id : string) (received : list (DistributionDocument * string)) (w : World) : option unit * World :=
  match received with
  | [] => (None, w)
  | (doc, blob_path) :: received =>
      if sink_already_delivered doc w then watch_for dist_id received w
      else
        let '(fired, w) := notify_deliver dist_id doc blob_path w in
        if fired then (Some tt, w) else watch_for dist_id received w
  end.

End sink.

(** * Attachments from the command line are correct

    The sink is the node's, [send] checks everything local before it joins, scopes are
    read back, and when [watch --dist-id] ends. *)

(** ** The sink *)

Lemma push_components_fold safe cs :
  foldl (λ acc c, safe ← acc; match c with Normal s => Some (path_join safe s) | CurDir => Some safe | _ => None end) (Some safe) cs =
  push_components safe cs.
Proof.
  revert safe. induction cs as [|c cs IH]; intros safe; [done|].
  assert (∀ l : list Component, foldl (λ acc c, safe ← acc; match c with Normal s => Some (path_join safe s) | CurDir => Some safe | _ => None end)
    (None : option string) l = None) as Hnone by (by intros l; induction l).
  destruct c; cbn; rewrite ?IH; auto.
Qed.

Lemma sink_relpath_eq m : sink_relpath m = inbox_relpath m.
Proof. unfold sink_relpath, inbox_relpath. destruct (bm_name m) as [raw|]; [|done]. cbn. by rewrite push_components_fold. Qed.

Lemma sink_target_eq inbox_root doc : sink_target inbox_root doc = target_path inbox_root doc.
Proof. unfold sink_target, target_path, inbox_rel. by rewrite sink_relpath_eq. Qed.

Lemma sink_delivered_eq cwd inbox_root doc w : sink_already_delivered cwd inbox_root doc w = already_delivered cwd inbox_root doc w.
Proof. unfold sink_already_delivered, already_delivered. by rewrite sink_target_eq. Qed.

Lemma sink_deliver_eq cwd inbox_root doc blob_path w : sink_deliver cwd inbox_root doc blob_path w = deliver cwd inbox_root doc blob_path w.
Proof. unfold sink_deliver, deliver, tmp_path, parent_path. by rewrite sink_target_eq. Qed.

(** The command line's sink is the node's: the same file is wanted, it counts as
    delivered in the same states, and a delivery does the same to the file system,
    call by call, under every plan of failures. *)
Theorem sinks_in_lockstep cwd inbox_root doc blob_path w :
  sink_relpath (dd_blob_metadata doc) = inbox_relpath (dd_blob_metadata doc) ∧
  sink_already_delivered cwd inbox_root doc w = already_delivered cwd inbox_root doc w ∧
  sink_deliver cwd inbox_root doc blob_path w = deliver cwd inbox_root doc blob_path w.
Proof.
  split_and!; [apply sink_relpath_eq|apply sink_delivered_eq|apply sink_deliver_eq].
Qed.

(** ** [watch --dist-id] *)

(** When [watch --dist-id] ends: exactly at the first received document of that
    distribution that the inbox does not hold yet and whose delivery succeeds. Until
    then it waits, so it never ends for a distribution whose file is in place already. *)
Theorem watch_ends_exactly cwd inbox_root dist_id received w :
  ((watch_for cwd inbox_root dist_id received w).1 = Some tt ↔
    ∃ before doc blob_path after w1, received = before ++ (doc, blob_path) :: after ∧
      watch_for cwd inbox_root dist_id before w = (None, w1) ∧ dd_distribution_id doc = dist_id ∧
      already_delivered cwd inbox_root doc w1 = false ∧ (deliver cwd inbox_root doc blob_path w1).1 = Ok tt) ∧
  (Forall (λ r, dd_distribution_id r.1 = dist_id ∧ already_delivered cwd inbox_root r.1 w = true) received →
   watch_for cwd inbox_root dist_id received w = (None, w)).
Proof.
  split.
  - revert w. induction received as [|[doc blob_path] received IH]; intros w; cbn [watch_for].
    + split; [done|]. intros (before & ? & ? & ? & ? & Heq & _). by destruct before.
    + pose proof (sink_delivered_eq cwd inbox_root doc w) as Had. pose proof (sink_deliver_eq cwd inbox_root doc blob_path w) as Hdel. rewrite Had. unfold notify_deliver. rewrite Hdel.
      destruct (already_delivered cwd inbox_root doc w) eqn:Ha; [|destruct (deliver cwd inbox_root doc blob_path w) as [r w1] eqn:Hd;
        destruct (is_ok r && bool_decide (dd_distribution_id doc = dist_id)) eqn:Hf].
      2:{ split; [|done]. intros _. apply andb_true_iff in Hf as [Hr Hid]. apply bool_decide_eq_true in Hid.
          exists [], doc, blob_path, received, w. split_and!; try done. rewrite Hd. by destruct r as [[]|]. }
      all: rewrite IH; split; intros (before & doc' & b' & after & w' & Heq & Hw & Hid & Ha' & Hd').
      1,3: exists ((doc, blob_path) :: before), doc', b', after, w'; split_and!; try done; [by rewrite Heq|].
      1,2: cbn [watch_for]; rewrite Had, ?Ha; unfold notify_deliver; rewrite ?Hdel, ?Hd, ?Hf; done.
      all: destruct before as [|[doc0 b0] before]; cbn in Heq; simplify_eq.
      * cbn in Hw. simplify_eq. congruence.
      * exists before, doc', b', after, w'. split_and!; try done. cbn [watch_for] in Hw. by rewrite Had, ?Ha in Hw.
      * cbn in Hw. simplify_eq. rewrite Hd in Hd'. cbn in Hd'. subst r. cbn in Hf. by rewrite bool_decide_true in Hf.
      * exists before, doc', b', after, w'. split_and!; try done. cbn [watch_for] in Hw. rewrite Had, ?Ha in Hw. unfold notify_deliver in Hw.
        by rewrite Hdel, ?Hd, Hf in Hw.
  - intros Hall. induction received as [|[doc b] received IH]; [done|]. apply Forall_cons in Hall as [[_ Had] Hrest].
    cbn [watch_for]. rewrite sink_delivered_eq. cbn in Had. rewrite Had. by apply IH.
Qed.

(** ** Scopes *)

Lemma split_join_commas ids :
  ids ≠ [] → Forall (λ id, str_contains id "," = false) ids → split_on "," (join_with "," ids) = ids.
Proof.
  intros Hne Hall. induction Hall as [|id ids Hid Hall IH]; [done|]. destruct ids as [|id' ids]; [by apply split_on_whole|].
  change (join_with "," (id :: id' :: ids)) with (id +:+ String "," (join_with "," (id' :: ids))).
  rewrite split_on_app, split_on_whole, IH by done. done.
Qed.

Lemma scope_refusal s e : parse_scope s = Err e → exit_code e = 4.
Proof. unfold parse_scope. repeat case_match; intros; by simplify_eq. Qed.

(** Scopes are read back, and a scope that is accepted names somebody: the ids of a
    node scope are non-empty and there is one at least; every refusal is status 4. *)
Theorem scopes_exact ids formation_id s :
  (ids ≠ [] → Forall (λ id, id ≠ ""%string ∧ str_contains id "," = false) ids → parse_scope ("nodes:" +:+ join_with "," ids) = Ok (Nodes ids)) ∧
  (formation_id ≠ ""%string → parse_scope ("formation:" +:+ formation_id) = Ok (Formation formation_id)) ∧
  (∀ ids', parse_scope s = Ok (Nodes ids') → ids' ≠ [] ∧ Forall (λ id, id ≠ ""%string) ids') ∧
  (∀ e, parse_scope s = Err e → exit_code e = 4).
Proof.
  split_and!.
  - intros Hne Hall. unfold parse_scope. rewrite bool_decide_false by done. rewrite strip_prefix_app, split_join_commas; [|done|].
    + assert (List.filter (λ id, negb (is_empty_str id)) ids = ids) as ->; [|by destruct ids].
      clear Hne. induction Hall as [|id ids [Hid _] _ IH]; [done|]. cbn. apply is_empty_str_false in Hid as ->. cbn. by rewrite IH.
    + eapply Forall_impl; [exact Hall|]. by intros ? [_ ?].
  - intros Hne. unfold parse_scope. rewrite bool_decide_false by done. change (strip_prefix "nodes:" _) with (None : option string).
    rewrite strip_prefix_app. by apply is_empty_str_false in Hne as ->.
  - intros ids'. unfold parse_scope. case_bool_decide; [done|]. destruct (strip_prefix "nodes:" s) as [rest|].
    + destruct (List.filter _ _) as [|id l] eqn:Hf; [done|]. intros [= <-]. split; [done|]. apply Forall_forall. intros x Hx.
      rewrite <-Hf in Hx. apply list_elem_of_In, filter_In in Hx as [_ Hx]. by apply negb_true_iff, is_empty_str_false in Hx.
    + destruct (strip_prefix "formation:" s) as [id|]; [|done]. by destruct (is_empty_str id).
  - intros e. apply scope_refusal.
Qed.

(** ** [send] *)

Section send.
Context `{J : JsonLib} {P : JsonPretty} {M : Type} `{!Mesh M} `{!Distribution M} (env : CliEnv).

(** [send] checks before it acts: a scope, priority or timeout that does not parse is
    status 4, a file that cannot be reached status 1 and unusable credentials status 2,
    all before the mesh is joined or a blob stored, and nothing is printed. *)
Theorem send_checks_first args common (w : Proc M) :
  is_err (parse_scope (sa_scope args)) = true ∨ is_err (parse_priority (sa_priority args)) = true ∨
  is_err (parse_timeout (ca_timeout common)) = true ∨ is_err (real_path (sa_file args) (pr_mesh w)) = true ∨
  is_err (load env (ca_creds common)) = true →
  ∃ e, run_send env args common w = (Err (Fails e), w) ∧ exit_code e ∈ [1; 2; 4].
Proof.
  assert (∀ s e, parse_priority s = Err e → exit_code e = 4) as Hprio.
  { intros s e. unfold parse_priority. repeat case_match; intros; by simplify_eq. }
  intros Hbad. unfold run_send, mbind, st_err_bind, try, read, gets_mesh, gets, lift, mbind, st_err_bind.
  destruct (parse_scope (sa_scope args)) as [scope|e] eqn:H1; cbn.
  2:{ exists e. split; [done|]. rewrite (scope_refusal _ _ H1). set_solver. }
  destruct (parse_priority (sa_priority args)) as [prio|e] eqn:H2; cbn.
  2:{ exists e. split; [done|]. rewrite (Hprio _ _ H2). set_solver. }
  destruct (parse_timeout (ca_timeout common)) as [t|e] eqn:H3; cbn.
  2:{ exists e. split; [done|]. rewrite (timeout_refusal _ _ H3). set_solver. }
  destruct (real_path (sa_file args) (pr_mesh w)) as [path|e] eqn:H4; cbn; [|eexists; split; [done|set_solver]].
  destruct (load env (ca_creds common)) as [creds|e] eqn:H5; cbn.
  2:{ exists e. split; [done|]. rewrite (load_refusal _ _ _ H5). set_solver. }
  naive_solver.
Qed.

End send.

(** ** Witness *)

#[local] Instance attach_json : JsonLib := CliWritesFacts.toy_writes_json.
#[local] Instance attach_pretty : JsonPretty := {| to_string_pretty _ := "{}" |}.
#[local] Instance attach_mesh : Mesh ToyStore := toy_mesh_of CliWritesFacts.toy_writes_json.

#[local] Instance toy_distribution : Distribution ToyStore := {|
  BlobTok := string;
  Handle := string;
  handle_id h := h;
  handle_hash h := h;
  real_path p _ := Ok p;
  add_blob_peer _ m := m;
  create_blob_of p _ m := (Ok p, m);
  distribute_blob t _ _ m := (Ok t, m);
  wait_for_completion _ _ m := (Ok (mkTransfer 1 0 1), m);
  read_distribution _ _ := Ok None;
|}.

Lemma send_checks_first_witness :
  ∃ e, run_send toy_env (mkSend "/a" "nodes:" "normal" false) toy_common (toy_proc ∅) = (Err (Fails e), toy_proc ∅) ∧ exit_code e ∈ [1; 2; 4].
Proof. apply (send_checks_first toy_env (mkSend "/a" "nodes:" "normal" false) toy_common (toy_proc ∅)). left. reflexivity. Defined.
