(* ===== verification/NodeStart.v ===== *)
(** * Start-up of the node

    Model of [SidecarConfig] and [SidecarNode::new] in [src/node.rs], with the node
    it returns assembled from the states of the components, of the sync switch
    ([start_sync], [stop_sync], [sync_stats]) and of two tickers the start spawns:
    the retention sweep and the peer status. The other tasks are modelled by their
    own components.

    peat-mesh is a parameter: what [AutomergeBackend::with_iroh] answers for a
    backend configuration, and the defaults of its settings. Which discovery calls
    succeed, the environment variable [POD_NAME] and the settings file are inputs.
    Log lines are not modelled. *)

From S2P Require Import Prelude Paths AttachConfig Ingest Registry BundleRuntime Handlers Fanout Crypto NodeDocs Peers Service.
From Stdlib Require Import Strings.Ascii.

(** ** Configuration *)

Record SidecarConfig := mkSidecarConfig {
  sc_node_id : string;
  sc_app_id : string;
  sc_shared_key : string;
  sc_data_dir : string;
  sc_peers : list string;
  sc_encryption_key : option string;
  sc_iroh_udp_port : option Z;
  sc_iroh_secret_key : option bytes;
  sc_blob_stall_timeout : option Z;
  sc_tombstone_ttl_hours : option Z;
  sc_gc_interval_secs : option Z;
  sc_gc_batch_size : option Z;
  sc_attachment_config : AttachmentConfig;
  sc_disable_mdns : bool;
  sc_enable_kubernetes_discovery : bool;
  sc_kubernetes_discovery_namespace : option string;
  sc_kubernetes_discovery_label_selector : string;
  sc_kubernetes_discovery_annotation_prefix : string;
  sc_kubernetes_discovery_interval_secs : Z;
}.

Definition sidecar_config_default : SidecarConfig :=
  mkSidecarConfig "" "" "" "" [] None None None None None None None attachment_config_default false
    false None "app=peat-node" "peat." 30.

(** [SocketAddr]: an IPv4 address and a port. *)
Record SocketAddr := mkSocketAddr { sa_ip : list Z; sa_port : Z }.

(** An octet of an IPv4 address: up to three digits, without leading zeros. *)
Definition parse_octet (s : string) : option Z :=
  match s with
  | EmptyString => None
  | String c rest =>
      if Nat.ltb 3 (String.length s) || (bool_decide (c = "0"%char) && negb (is_empty_str rest)) then None
      else v ← parse_digits 0 s; if v <=? 255 then Some v else None
  end.

(** [str::parse::<SocketAddr>] on the IPv4 form. *)
Definition parse_socket_addr (s : string) : option SocketAddr :=
  '(ip, port) ← split_once ":"%char s;
  octets ← mapM parse_octet (split_on "."%char ip);
  if negb (Nat.eqb (length octets) 4) || is_empty_str port then None
  else p ← parse_digits 0 port; Some (mkSocketAddr octets p).

(** peat-mesh's settings: the fields the node sets and the others. *)
Record TtlConfig (Rest : Type) := mkTtlConfig { tombstone_ttl_hours : Z; ttl_rest : Rest }.
Record GcConfig (Rest : Type) := mkGcConfig { gc_interval : Z; tombstone_batch_size : Z; gc_rest : Rest }.
Arguments mkTtlConfig {Rest}. Arguments tombstone_ttl_hours {Rest}. Arguments ttl_rest {Rest}.
Arguments mkGcConfig {Rest}. Arguments gc_interval {Rest}. Arguments tombstone_batch_size {Rest}. Arguments gc_rest {Rest}.

Class MeshDefaults := {
  TtlRest : Type;
  GcRest : Type;
  ttl_default : TtlConfig TtlRest;
  gc_default : GcConfig GcRest;
}.

Section config.
Context `{MeshDefaults}.

(** The fields of [AutomergeBackendConfig] the node sets; its [cipher] is [None]. *)
Record BackendConfig := mkBackendConfig {
  bc_data_dir : string;
  bc_formation_id : string;
  bc_base64_shared_key : string;
  bc_iroh_bind_addr : option SocketAddr;
  bc_download_stall_timeout : option Z;
  bc_ttl_config : option (TtlConfig TtlRest);
  bc_gc_config : option (GcConfig GcRest);
  bc_iroh_secret_key : option bytes;
}.

Inductive NewError := NeBindAddr | NeSharedKey | NeBackend (e : string) | NeCipher (e : CipherError) | NePanic.

Definition ttl_config_of (c : SidecarConfig) : option (TtlConfig TtlRest) :=
  (λ hours, mkTtlConfig hours (ttl_rest ttl_default)) <$> sc_tombstone_ttl_hours c.

Definition gc_config_of (c : SidecarConfig) : option (GcConfig GcRest) :=
  match sc_gc_interval_secs c, sc_gc_batch_size c with
  | None, None => None
  | interval, batch =>
      Some (mkGcConfig (default (gc_interval gc_default) interval) (default (tombstone_batch_size gc_default) batch) (gc_rest gc_default))
  end.

Definition bind_addr_of (c : SidecarConfig) : result NewError (option SocketAddr) :=
  match sc_iroh_udp_port c with
  | None => Ok None
  | Some port => map_ok Some (ok_or (parse_socket_addr ("0.0.0.0:" +:+ digits port)) NeBindAddr)
  end.

Definition backend_config_of (c : SidecarConfig) : result NewError BackendConfig :=
  let? addr := bind_addr_of c in
  Ok (mkBackendConfig (sc_data_dir c) (sc_app_id c) (sc_shared_key c) addr (sc_blob_stall_timeout c)
        (ttl_config_of c) (gc_config_of c) (sc_iroh_secret_key c)).

Definition with_secret_key (seed : bytes) (b : BackendConfig) : BackendConfig :=
  mkBackendConfig (bc_data_dir b) (bc_formation_id b) (bc_base64_shared_key b) (bc_iroh_bind_addr b)
    (bc_download_stall_timeout b) (bc_ttl_config b) (bc_gc_config b) (Some seed).

(** [std::env::var("POD_NAME").ok().filter(|s| !s.is_empty())] *)
Definition pod_name_of (var : option string) : option string :=
  match var with Some s => if is_empty_str s then None else Some s | None => None end.

(** The pod's identity replaces the configured one. *)
Definition k8s_backend_config `{CipherOps} (pod_name : option string) (c : SidecarConfig) (b : BackendConfig)
  : result NewError BackendConfig :=
  if sc_enable_kubernetes_discovery c then
    match resolve_k8s_identity pod_name (sc_shared_key c) with
    | Derived seed => Ok (with_secret_key seed b)
    | MissingPodName | EmptySharedKey => Ok b
    | InvalidSharedKey => Err NeSharedKey
    end
  else Ok b.

Definition cipher_of `{CipherOps} (c : SidecarConfig) : result NewError (option StoreCipher) :=
  match sc_encryption_key c with
  | Some key => if is_empty_str key then Ok None else map_ok Some (map_err NeCipher (from_base64_key key))
  | None => Ok None
  end.

(** Send or receive is configured. *)
Definition attachments_on (a : AttachmentConfig) : bool :=
  has_roots a || match inbox_path a with Some _ => true | None => false end.

(** [(retention_secs / 2).clamp(1, 60)] *)
Definition eviction_interval (retention_secs : Z) : Z := Z.min (Z.max (retention_secs `div` 2) 1) 60.

Definition inbox_poll_interval (raw_poll_secs : Z) : Z := Z.max raw_poll_secs 1.

Definition registry_config_of (a : AttachmentConfig) : RegistryConfig :=
  mkRegistryConfig (handle_retention_secs a) (max_known_bundles a).

End config.

(** ** The node *)

Record Backend (St Id B : Type) := mkBackend {
  be_store : St;
  be_blobs : B;
  be_endpoint_id : Id;
  be_bound_sockets : list (bool * Z); (* whether it is IPv4, and the port *)
}.
Arguments mkBackend {St Id B}. Arguments be_store {St Id B}. Arguments be_blobs {St Id B}.
Arguments be_endpoint_id {St Id B}. Arguments be_bound_sockets {St Id B}.

(** What start-up leaves running. *)
Inductive Task :=
| ForwardStoreChanges
| ForwardBridgeChanges
| RelayFanout
| SyncOnChange
| EvictionTicker (interval_secs : Z)
| ReceiveWatcher (endpoint_short inbox : string) (poll_secs : Z)
| ReconnectWatchdog
| PeerStatusLogger
| MdnsWatcher (formation_id : string)
| K8sWatcher (shared_key_bytes : bytes) (our_pod_name : option string).

#[global] Instance Task_eq_dec : EqDecision Task.
Proof. solve_decision. Defined.

Inductive StartEffect `{MeshDefaults} :=
| BoundEndpoint (cfg : BackendConfig)
| Spawned (t : Task)
| Advertised (endpoint_id : string) (port : Z) (meta : gmap string string)
| StartedK8s (namespace : option string) (label_selector annotation_prefix : string) (poll_interval : Z).

Section node.
Context `{MeshDefaults} `{CipherOps} `{ConfigFormat} {St E B D Id : Type} `{Countable Id}.
Context (show_id fmt_short : Id → string) (with_iroh : BackendConfig → result string (Backend St Id B)) (distribution_new : D).

Record SidecarNode := mkSidecarNode {
  sn_node_id : string;
  sn_backend : Backend St Id B;
  sn_docs : NodeDocs.Node St E;
  sn_relay_fanout : PriorityFanout;
  sn_sync_active : bool;
  sn_ledger_data_dir : string;
  sn_attachment_config : AttachmentConfig;
  sn_bundle_registry : RegistryInner;
  sn_file_distribution : option D;
  sn_runtimes : gmap string BundleRuntime;
  sn_peers : Peers (Id := Id);
  sn_configs : ConfigStore;
  sn_configs_path : string;
  sn_mdns : bool;
  sn_k8s_discovery : bool;
}.

(** Outcomes the node does not decide. *)
Record StartOutside := mkStartOutside {
  so_pod_name_var : option string;
  so_mdns_new : bool;
  so_mdns_start : bool;
  so_mdns_advertise : bool;
  so_mdns_stream : bool;
  so_k8s_start : bool;
  so_k8s_stream : bool;
  so_configs_file : option string;
}.

Abbreviation M := (st_err (list StartEffect) NewError).

Definition effect (e : StartEffect) : M unit := modify (λ l, l ++ [e]).
Definition spawn_task (t : Task) : M unit := effect (Spawned t).
Definition when (b : bool) (m : M unit) : M unit := if b then m else mret tt.

Definition build_backend (pod_name : option string) (c : SidecarConfig) : M (Backend St Id B) :=
  cfg ← lift (backend_config_of c);
  cfg ← lift (k8s_backend_config pod_name c cfg);
  backend ← lift (map_err NeBackend (with_iroh cfg));
  effect (BoundEndpoint cfg);;
  mret backend.

(** The substrate, the retention sweep and the receive watcher. *)
Definition start_attachments (a : AttachmentConfig) (endpoint_id : Id) : M (option D) :=
  let file_distribution := if attachments_on a then Some distribution_new else None in
  when (attachments_on a && (0 <? handle_retention_secs a)) (spawn_task (EvictionTicker (eviction_interval (handle_retention_secs a))));;
  match inbox_path a with
  | Some inbox =>
      match file_distribution with
      | Some _ => spawn_task (ReceiveWatcher (fmt_short endpoint_id) inbox (inbox_poll_interval (inbox_poll_secs a)))
      | None => fail NePanic
      end
  | None => mret tt
  end;;
  mret file_distribution.

(** The port of the first IPv4 socket. *)
Definition mdns_port (sockets : list (bool * Z)) : Z :=
  default 0 (snd <$> List.find (λ s, s.1) sockets).

Definition start_mdns (c : SidecarConfig) (o : StartOutside) (backend : Backend St Id B) : M bool :=
  if sc_disable_mdns c then mret false
  else if negb (so_mdns_new o) then mret false
  else if negb (so_mdns_start o) then mret false
  else
    let eid := show_id (be_endpoint_id backend) in
    let port := mdns_port (be_bound_sockets backend) in
    when (0 <? port)
      (let meta := <["formation_id"%string := sc_app_id c]> (<["port"%string := digits port]> ∅) in
       when (so_mdns_advertise o) (effect (Advertised eid port meta)));;
    when (so_mdns_stream o) (spawn_task (MdnsWatcher (sc_app_id c)));;
    mret true.

Definition start_k8s (pod_name : option string) (c : SidecarConfig) (o : StartOutside) : M bool :=
  if negb (sc_enable_kubernetes_discovery c) then mret false
  else if negb (so_k8s_start o) then mret false
  else
    effect (StartedK8s (sc_kubernetes_discovery_namespace c) (sc_kubernetes_discovery_label_selector c)
              (sc_kubernetes_discovery_annotation_prefix c) (sc_kubernetes_discovery_interval_secs c));;
    when (so_k8s_stream o)
      (shared_key_bytes ← (if is_empty_str (sc_shared_key c) then mret []
                           else lift (ok_or (base64_decode (sc_shared_key c)) NePanic));
       spawn_task (K8sWatcher shared_key_bytes pod_name));;
    mret true.

(** The change listeners and the relay queue's worker. *)
Definition start_listeners : M unit :=
  spawn_task ForwardStoreChanges;; spawn_task ForwardBridgeChanges;; spawn_task RelayFanout;; spawn_task SyncOnChange.

Definition start_peer_tickers : M unit := spawn_task ReconnectWatchdog;; spawn_task PeerStatusLogger.

Definition assemble (c : SidecarConfig) (o : StartOutside) (backend : Backend St Id B) (cipher : option StoreCipher)
    (file_distribution : option D) (mdns k8s : bool) : SidecarNode :=
  mkSidecarNode (sc_node_id c) backend (NodeDocs.mkNode (be_store backend) None cipher []) fanout_new false
    (sc_data_dir c) (sc_attachment_config c) registry_new file_distribution ∅ peers_new (load_configs (so_configs_file o))
    (path_join (sc_data_dir c) "collection_configs.json") mdns k8s.

(** [SidecarNode::new]; [NePanic] is a failed [expect]. *)
Definition new (c : SidecarConfig) (o : StartOutside) : M SidecarNode :=
  let pod_name := pod_name_of (so_pod_name_var o) in
  backend ← build_backend pod_name c;
  cipher ← lift (cipher_of c);
  start_listeners;;
  file_distribution ← start_attachments (sc_attachment_config c) (be_endpoint_id backend);
  start_peer_tickers;;
  mdns ← start_mdns c o backend;
  k8s ← start_k8s pod_name c o;
  mret (assemble c o backend cipher file_distribution mdns k8s).

(** ** Reads of the node *)

Definition endpoint_addr (n : SidecarNode) : string := show_id (be_endpoint_id (sn_backend n)).
Definition endpoint_short_id (n : SidecarNode) : string := fmt_short (be_endpoint_id (sn_backend n)).
Definition bound_udp_port (n : SidecarNode) : option Z := snd <$> head (be_bound_sockets (sn_backend n)).
Definition is_sync_active (n : SidecarNode) : bool := sn_sync_active n.

(** [connected_peers().len() as u32] *)
Definition connected_peer_count (n : SidecarNode) : Z := as_u32 (Z.of_nat (size (live (sn_peers n)))).

(** One tick of the peer-status ticker: the short ids of the connected peers and of
    the peers the blob store knows; [None] when the node is gone and the task ends. *)
Definition peer_status (alive : bool) (p : Peers (Id := Id)) : option (list string * list string) :=
  if alive then Some (fmt_short <$> elements (live p), fmt_short <$> elements (known p)) else None.

(** ** The sync switch *)

Definition with_sync (active : bool) (n : SidecarNode) : SidecarNode :=
  mkSidecarNode (sn_node_id n) (sn_backend n) (sn_docs n) (sn_relay_fanout n) active (sn_ledger_data_dir n)
    (sn_attachment_config n) (sn_bundle_registry n) (sn_file_distribution n) (sn_runtimes n) (sn_peers n)
    (sn_configs n) (sn_configs_path n) (sn_mdns n) (sn_k8s_discovery n).

(** The peers [sync_all_documents_with_peer] is called for, in order, and the
    node; a peer whose call fails is skipped. *)
Definition start_sync (n : SidecarNode) : result NewError (list Id) * SidecarNode :=
  (Ok (elements (live (sn_peers n))), with_sync true n).

Definition stop_sync (n : SidecarNode) : result NewError unit * SidecarNode := (Ok tt, with_sync false n).

Record SyncStats := mkSyncStats { st_sync_active : bool; st_connected_peers : Z; st_bytes_sent : Z; st_bytes_received : Z }.

(** The byte counts are the coordinator's. *)
Definition sync_stats (sent received : Z) (n : SidecarNode) : SyncStats :=
  mkSyncStats (is_sync_active n) (connected_peer_count n) sent received.

Definition with_fanout (f : PriorityFanout) (n : SidecarNode) : SidecarNode :=
  mkSidecarNode (sn_node_id n) (sn_backend n) (sn_docs n) f (sn_sync_active n) (sn_ledger_data_dir n)
    (sn_attachment_config n) (sn_bundle_registry n) (sn_file_distribution n) (sn_runtimes n) (sn_peers n)
    (sn_configs n) (sn_configs_path n) (sn_mdns n) (sn_k8s_discovery n).

Definition queue_document_sync_with_all_peers `{Qos} (key : string) (n : SidecarNode) : SidecarNode :=
  with_fanout (enqueue key AllPeers (sn_relay_fanout n)) n.

End node.

(** ** The retention sweep *)

(** The registry with the clock and the time of the next tick. The interval's
    first, immediate tick is discarded. *)
Record Sweep := mkSweep { sw_now : Z; sw_next : Z; sw_registry : RegistryInner }.

Definition sweep_start (interval now : Z) : Sweep := mkSweep now (now + interval) registry_new.

(** What handlers do to the registry between ticks; a bundle enters as
    [BundleRecord::new] makes it. *)
Inductive registry_call :=
| CallCheck (id : string) (ident : BundleIdentity)
| CallInsert (id : string) (ident : BundleIdentity) (hs : list AttachmentHandleRecord)
| CallGet (id : string)
| CallUpdate (id : string) (s : BundleStatus).

Definition call_op (now : Z) (c : registry_call) : reg_op :=
  match c with
  | CallCheck id ident => OpCheck id ident
  | CallInsert id ident hs => OpInsert (bundle_record_new now id ident hs)
  | CallGet id => OpGet id
  | CallUpdate id s => OpUpdate id s
  end.

Inductive sweep_step (cfg : RegistryConfig) (interval : Z) : Sweep → Sweep → Prop :=
| sweep_call s now c :
    sw_now s ≤ now ≤ sw_next s →
    (∀ record, call_op now c = OpInsert record → fresh_ids record (sw_registry s)) →
    sweep_step cfg interval s (mkSweep now (sw_next s) (reg_apply cfg now (call_op now c) (sw_registry s)))
| sweep_tick s :
    sweep_step cfg interval s
      (mkSweep (sw_next s) (sw_next s + interval) (evict_expired cfg (sw_next s) (sw_registry s))).
