(* ===== verification/NodeStartFacts.v ===== *)
(** * Start-up of the node: what runs, who it is, and what it keeps

    The tasks a start leaves running and the state it leaves them, the identity of
    pods, and the age a finished bundle can reach under the retention sweep. *)

From S2P Require Import Prelude Journal JournalFacts LedgerWorker ExclusionLedger Paths AttachConfig Ingest Registry BundleRuntime Handlers Fanout FanoutFacts Crypto NodeDocs NodeDocsFacts Service Peers CliCore NodeStart.
From Stdlib Require Import Strings.Ascii.

(** ** Addresses *)

Lemma parse_digits_int acc s : parse_digits acc s = match int_digits_up 65535 acc s with Ok v => Some v | Err _ => None end.
Proof.
  revert acc. induction s as [|c s IH]; intros acc; cbn; [done|]. destruct (digit_value c) as [v|]; cbn; [|done].
  destruct (Z.leb_spec (10 * acc + v) 65535), (Z.ltb_spec 65535 (10 * acc + v)); try lia; [apply IH|done].
Qed.

Lemma parse_digits_digits z : 0 ≤ z ≤ 65535 → parse_digits 0 (digits z) = Some z ∧ is_empty_str (digits z) = false.
Proof.
  intros Hz. unfold digits. destruct z as [|p|p]; [done| |lia]. change (pretty.pretty (Z.pos p)) with (pretty.pretty_N_go (N.pos p) "").
  assert (int_digits_up 65535 0 (pretty.pretty_N_go (N.pos p) "") = Ok (Z.pos p)) as Hd by (by rewrite int_digits_up_pretty by (cbn; lia)).
  rewrite parse_digits_int, Hd. split; [done|]. by destruct (pretty.pretty_N_go (N.pos p) "").
Qed.

(** Every port has an address to bind. *)
Lemma bind_addr_ok `{MeshDefaults} c :
  (∀ p, sc_iroh_udp_port c = Some p → 0 ≤ p ≤ 65535) →
  bind_addr_of c = Ok (mkSocketAddr [0; 0; 0; 0] <$> sc_iroh_udp_port c).
Proof.
  intros Hp. unfold bind_addr_of. destruct (sc_iroh_udp_port c) as [port|]; [|done].
  destruct (parse_digits_digits port) as [Hd He]; [by apply Hp|].
  unfold parse_socket_addr. change ("0.0.0.0:" +:+ digits port) with ("0.0.0.0" +:+ String ":"%char (digits port)).
  rewrite split_once_app by done.
  cbn. by rewrite He, Hd.
Qed.

(** ** What a start leaves running *)

Section start.
Context `{MeshDefaults} `{CipherOps} `{ConfigFormat} {St E B D Id : Type} `{Countable Id}.
Context (show_id fmt_short : Id → string) (with_iroh : BackendConfig → result string (Backend St Id B)) (distribution_new : D).
Context `{ExclusionOps E, !ExclusionLaws E}.

Definition spawned (effects : list StartEffect) : list Task :=
  omap (λ e, match e with Spawned t => Some t | _ => None end) effects.

Definition optional {A} (b : bool) (x : A) : list A := if b then [x] else [].

Definition mdns_runs (c : SidecarConfig) (o : StartOutside) : bool :=
  negb (sc_disable_mdns c) && so_mdns_new o && so_mdns_start o.

Definition k8s_runs (c : SidecarConfig) (o : StartOutside) : bool := sc_enable_kubernetes_discovery c && so_k8s_start o.

Definition k8s_key (c : SidecarConfig) : option bytes :=
  if is_empty_str (sc_shared_key c) then Some [] else base64_decode (sc_shared_key c).

Definition attachment_tasks (a : AttachmentConfig) (endpoint_id : Id) : list Task :=
  optional (attachments_on a && (0 <? handle_retention_secs a)) (EvictionTicker (eviction_interval (handle_retention_secs a))) ++
  match inbox_path a with
  | Some inbox => [ReceiveWatcher (fmt_short endpoint_id) inbox (Z.max (inbox_poll_secs a) 1)]
  | None => []
  end.

Definition discovery_tasks (c : SidecarConfig) (o : StartOutside) : list Task :=
  optional (mdns_runs c o && so_mdns_stream o) (MdnsWatcher (sc_app_id c)) ++
  (if k8s_runs c o && so_k8s_stream o
   then from_option (λ key, [K8sWatcher key (pod_name_of (so_pod_name_var o))]) [] (k8s_key c) else []).

Definition node_tasks (c : SidecarConfig) (o : StartOutside) (endpoint_id : Id) : list Task :=
  [ForwardStoreChanges; ForwardBridgeChanges; RelayFanout; SyncOnChange] ++
  attachment_tasks (sc_attachment_config c) endpoint_id ++
  [ReconnectWatchdog; PeerStatusLogger] ++ discovery_tasks c o.

Lemma spawned_app l l' : spawned (l ++ l') = spawned l ++ spawned l'.
Proof. apply omap_app. Qed.

Abbreviation M := (st_err (list StartEffect) NewError).

Lemma wp_spawn t (Q : result NewError unit → list StartEffect → Prop) l : Q (Ok tt) (l ++ [Spawned t]) → wp (spawn_task t) Q l.
Proof. intros HQ. by apply wp_modify. Qed.

Lemma wp_effect e (Q : result NewError unit → list StartEffect → Prop) l : Q (Ok tt) (l ++ [e]) → wp (effect e) Q l.
Proof. intros HQ. by apply wp_modify. Qed.

Lemma wp_when b (m : M unit) (Q : result NewError unit → list StartEffect → Prop) l :
  (b = true → wp m Q l) → (b = false → Q (Ok tt) l) → wp (when b m) Q l.
Proof. destruct b; intros Ht Hf; [by apply Ht|by apply wp_ret, Hf]. Qed.

(** Only tasks are added, by [m] and what precedes it. *)
Definition adds (tasks : list Task) (l l' : list StartEffect) : Prop := spawned l' = spawned l ++ tasks.

Lemma start_attachments_spec a endpoint_id l :
  wp (start_attachments fmt_short distribution_new a endpoint_id)
     (λ r l', r = Ok (if attachments_on a then Some distribution_new else None) ∧ adds (attachment_tasks a endpoint_id) l l') l.
Proof.
  unfold start_attachments, attachment_tasks, adds, inbox_poll_interval. wp_step. apply wp_when; intros Hb; [apply wp_spawn|].
  all: rewrite Hb; cbn [optional]; wp_step; unfold attachments_on in *; destruct (inbox_path a) as [inbox|].
  all: rewrite ?orb_true_r; try apply wp_spawn; repeat (wp_step); rewrite ?spawned_app; cbn; by rewrite ?app_nil_r, <-?app_assoc.
Qed.

Lemma start_mdns_spec c o (backend : Backend St Id B) l :
  wp (start_mdns show_id c o backend)
     (λ r l', r = Ok (mdns_runs c o) ∧ adds (optional (mdns_runs c o && so_mdns_stream o) (MdnsWatcher (sc_app_id c))) l l') l.
Proof.
  unfold start_mdns, mdns_runs, adds.
  destruct (sc_disable_mdns c), (so_mdns_new o), (so_mdns_start o); cbn [negb andb]; try (wp_step; cbn; by rewrite app_nil_r).
  wp_step. apply wp_when; intros _; [apply wp_when; intros _; [apply wp_effect|]|].
  all: wp_step; apply wp_when; intros ->; [apply wp_spawn|]; wp_step; rewrite ?spawned_app; cbn; by rewrite ?app_nil_r.
Qed.

Lemma start_k8s_spec c o l :
  wp (start_k8s (pod_name_of (so_pod_name_var o)) c o)
     (λ r l', match r with
              | Ok b => b = k8s_runs c o ∧ (k8s_runs c o && so_k8s_stream o = true → is_Some (k8s_key c)) ∧
                        adds (if k8s_runs c o && so_k8s_stream o
                              then from_option (λ key, [K8sWatcher key (pod_name_of (so_pod_name_var o))]) [] (k8s_key c) else []) l l'
              | Err e => e = NePanic ∧ k8s_runs c o && so_k8s_stream o = true ∧ k8s_key c = None
              end) l.
Proof.
  unfold start_k8s, k8s_runs, adds, k8s_key.
  destruct (sc_enable_kubernetes_discovery c), (so_k8s_start o); cbn [negb andb]; try (wp_step; cbn; by rewrite app_nil_r).
  wp_step. apply wp_effect. wp_step. apply wp_when; intros ->.
  - wp_step. destruct (is_empty_str _); wp_step; [|destruct (base64_decode _) as [b|]; cbn [ok_or]; [|done]].
    all: apply wp_spawn; wp_step; rewrite !spawned_app; cbn; rewrite app_nil_r; eauto.
  - wp_step. rewrite !spawned_app. cbn. by rewrite !app_nil_r.
Qed.

(** The backend configuration of a start that gets that far. *)
Definition effective_config (c : SidecarConfig) (o : StartOutside) : result NewError BackendConfig :=
  let? cfg := backend_config_of c in k8s_backend_config (pod_name_of (so_pod_name_var o)) c cfg.

Definition started (c : SidecarConfig) (o : StartOutside) (n : SidecarNode (St := St) (E := E) (B := B) (D := D) (Id := Id)) (effects : list StartEffect) : Prop :=
  ∃ cfg backend cipher,
    effective_config c o = Ok cfg ∧ with_iroh cfg = Ok backend ∧ cipher_of c = Ok cipher ∧
    n = assemble c o backend cipher (if attachments_on (sc_attachment_config c) then Some distribution_new else None)
          (mdns_runs c o) (k8s_runs c o) ∧
    spawned effects = node_tasks c o (be_endpoint_id backend) ∧
    (k8s_runs c o && so_k8s_stream o = true → is_Some (k8s_key c)).

Abbreviation run_new c o := (new (E := E) show_id fmt_short with_iroh distribution_new c o []).

Lemma new_spec c o :
  match run_new c o with
  | (Ok n, effects) => started c o n effects
  | (Err NePanic, _) => k8s_runs c o && so_k8s_stream o = true ∧ k8s_key c = None ∧ ∃ cfg b, effective_config c o = Ok cfg ∧ with_iroh cfg = Ok b
  | (Err _, effects) => spawned effects = []
  end.
Proof.
  enough (wp (new (E := E) show_id fmt_short with_iroh distribution_new c o) (λ r effects,
    match r with
    | Ok n => started c o n effects
    | Err NePanic => k8s_runs c o && so_k8s_stream o = true ∧ k8s_key c = None ∧ ∃ cfg b, effective_config c o = Ok cfg ∧ with_iroh cfg = Ok b
    | Err _ => spawned effects = []
    end) []) as Hwp by (unfold wp in Hwp; by destruct (run_new c o) as [[|[]] ?]).
  unfold new, build_backend, start_listeners, start_peer_tickers, started, effective_config. repeat wp_step.
  unfold backend_config_of. destruct (bind_addr_of c) as [addr|e] eqn:Ha.
  2: { unfold bind_addr_of in Ha. destruct (sc_iroh_udp_port c); [|done]. cbn in Ha. destruct (parse_socket_addr _); by simplify_eq/=. }
  cbn beta iota.
  wp_step. wp_step. set (cfg0 := mkBackendConfig _ _ _ _ _ _ _ _).
  destruct (k8s_backend_config _ c cfg0) as [cfg|e] eqn:Hk; [|unfold k8s_backend_config in Hk; by cases].
  wp_step. wp_step. destruct (with_iroh cfg) as [backend|e] eqn:Hb; [|done]. cbn [map_err]. wp_step. apply wp_effect. wp_step. wp_step. wp_step.
  destruct (cipher_of c) as [cipher|e] eqn:Hc.
  2: { unfold cipher_of in Hc. repeat case_match; simplify_eq/=; try done. all: destruct (from_base64_key _); by simplify_eq/=. }
  wp_step. do 3 (wp_step; apply wp_spawn). apply wp_spawn. wp_step.
  eapply wp_mono; [apply start_attachments_spec|]. cbv beta. intros r l' [-> Hl']. 
  wp_step. wp_step. apply wp_spawn. apply wp_spawn. wp_step. eapply wp_mono; [apply start_mdns_spec|]. cbv beta. intros r l1 [-> Hl1].
  wp_step. eapply wp_mono; [apply start_k8s_spec|]. cbv beta. intros [b|e] l2; [|by intros (-> & ? & ?); eauto 10].
  intros (-> & Hkey & Hl2). wp_step. exists cfg, backend, cipher. split_and!; try done.
  unfold adds in *. rewrite Hl2, Hl1, !spawned_app, Hl'. unfold node_tasks, discovery_tasks. cbn. rewrite <-!app_assoc. done.
Qed.

(** ** Properties *)

Lemma registry_new_inv : registry_inv registry_new.
Proof. split; cbn; [by intros id r ?%lookup_empty_Some|]. intros d id. rewrite lookup_empty. split; [done|]. by intros (r & ?%lookup_empty_Some & _). Qed.

Lemma node_tasks_NoDup c o id : NoDup (node_tasks c o id).
Proof.
  unfold node_tasks, attachment_tasks, discovery_tasks, optional. set (evict := EvictionTicker _). set (dns := MdnsWatcher _).
  destruct (attachments_on _ && _), (inbox_path _) as [inbox|], (mdns_runs c o && _), (k8s_runs c o && _), (k8s_key c) as [key|].
  all: unfold evict, dns; cbn; repeat constructor; set_solver.
Qed.

Lemma cipher_of_key c cipher :
  cipher_of c = Ok cipher → is_Some cipher ↔ ∃ key, sc_encryption_key c = Some key ∧ key ≠ ""%string.
Proof.
  unfold cipher_of. destruct (sc_encryption_key c) as [key|].
  - rewrite is_empty_str_decide. case_bool_decide as Hk; intros H5; simplify_eq.
    + split; [by intros []|]. by intros (? & [= <-] & ?).
    + destruct (from_base64_key key); simplify_eq/=. split; [|by eexists]. intros _. by exists key.
  - intros [= <-]. split; [by intros []|naive_solver].
Qed.

Lemma effective_shared_key c o cfg : effective_config c o = Ok cfg → bc_base64_shared_key cfg = sc_shared_key c.
Proof.
  unfold effective_config, backend_config_of, k8s_backend_config. destruct (bind_addr_of c); [|done]. cbn. intros Hk. by cases.
Qed.


Context (public_key : bytes → Id).

(** The seed a pod binds. *)
Lemma pod_seed c o cfg pod :
  effective_config c o = Ok cfg → sc_enable_kubernetes_discovery c = true → so_pod_name_var o = Some pod → pod ≠ ""%string →
  sc_shared_key c ≠ ""%string →
  ∃ key, base64_decode (sc_shared_key c) = Some key ∧ bc_iroh_secret_key cfg = Some (derive_iroh_node_key key pod).
Proof.
  unfold effective_config, backend_config_of, k8s_backend_config, resolve_k8s_identity, pod_name_of. destruct (bind_addr_of c); [|done].
  intros Hk He Hv Hp Hs. cbn in Hk. rewrite He, Hv in Hk. rewrite !is_empty_str_decide, !bool_decide_false in Hk by done. cbn in Hk.
  rewrite !is_empty_str_decide, !bool_decide_false in Hk by done. cbn in Hk.
  destruct (base64_decode _) as [key|]; simplify_eq/=. by exists key.
Qed.

Lemma started_watcher c o n effects key pod :
  started c o n effects → K8sWatcher key pod ∈ spawned effects → k8s_key c = Some key ∧ pod = pod_name_of (so_pod_name_var o).
Proof.
  intros (cfg & b & cipher & _ & _ & _ & -> & -> & _). unfold node_tasks, attachment_tasks, discovery_tasks, optional.
  destruct (attachments_on _ && _), (inbox_path _), (mdns_runs c o && _), (k8s_runs c o && _), (k8s_key c) as [key'|].
  all: cbn; rewrite ?elem_of_cons; intros; set_solver.
Qed.

(** Pods find each other: two pods of one formation, each started with its own name
    and the same shared key, agree on each other's endpoint. When the watcher of one
    sees the other's name with an address, it dials exactly the endpoint the other
    bound, unless it is connected to it, and it never dials its own name. *)
Theorem pods_find_each_other c1 o1 n1 effects1 c2 o2 n2 effects2 pod1 pod2 key our addrs meta connected :
  (∀ cfg b seed, with_iroh cfg = Ok b → bc_iroh_secret_key cfg = Some seed → be_endpoint_id b = public_key seed) →
  run_new c1 o1 = (Ok n1, effects1) → run_new c2 o2 = (Ok n2, effects2) →
  sc_enable_kubernetes_discovery c2 = true → so_pod_name_var o1 = Some pod1 → so_pod_name_var o2 = Some pod2 →
  pod1 ≠ ""%string → pod2 ≠ ""%string → sc_shared_key c1 = sc_shared_key c2 → sc_shared_key c2 ≠ ""%string →
  K8sWatcher key our ∈ spawned effects1 → addrs ≠ [] →
  k8s_dial_decision public_key (mkPeerInfo pod2 addrs meta) our key connected =
    if bool_decide (pod1 = pod2) then SkipSelf
    else if bool_decide (be_endpoint_id (sn_backend n2) ∈ connected) then SkipAlreadyConnected
    else DialPeer (be_endpoint_id (sn_backend n2)).
Proof.
  intros Hid Hn1 Hn2 Hk2 Hp1 Hp2 Hne1 Hne2 Hs Hsne Hw Ha.
  pose proof (new_spec c1 o1) as H1'. rewrite Hn1 in H1'. pose proof (new_spec c2 o2) as H2'. rewrite Hn2 in H2'.
  destruct (started_watcher _ _ _ _ _ _ H1' Hw) as [Hkey ->]. destruct H2' as (cfg & b & cipher & Hcfg & Hb & _ & -> & _). cbn.
  destruct (pod_seed _ _ _ _ Hcfg Hk2 Hp2 Hne2 Hsne) as (key2 & Hdec & Hseed). rewrite (Hid _ _ _ Hb Hseed).
  unfold k8s_key in Hkey. rewrite Hs, is_empty_str_decide, bool_decide_false, Hdec in Hkey by done. injection Hkey as <-.
  unfold k8s_dial_decision, pod_name_of. cbn. rewrite Hp1, is_empty_str_decide, (bool_decide_false (pod1 = _)) by done.
  rewrite (bool_decide_false (addrs = [])) by done. by repeat case_bool_decide; simplify_eq.
Qed.

(** Discovery without a pod name is not skipped: although the configuration says it
    is, a start without [POD_NAME] still runs the watcher, which dials every pod by
    its name's endpoint, this node's own among them; the node itself keeps the
    identity it was configured with. *)
Theorem k8s_discovery_runs_without_pod_name c o n effects peer connected :
  run_new c o = (Ok n, effects) → so_pod_name_var o = None → k8s_runs c o && so_k8s_stream o = true →
  pi_addresses peer ≠ [] →
  ∃ key cfg, K8sWatcher key None ∈ spawned effects ∧
    bc_iroh_secret_key cfg = sc_iroh_secret_key c ∧ with_iroh cfg = Ok (sn_backend n) ∧
    (public_key (derive_iroh_node_key key (pi_node_id peer)) ∉ connected →
     k8s_dial_decision public_key peer None key connected = DialPeer (public_key (derive_iroh_node_key key (pi_node_id peer)))).
Proof.
  intros Hn Hp Hk Ha. pose proof (new_spec c o) as Hst. rewrite Hn in Hst.
  destruct Hst as (cfg & b & cipher & Hcfg & Hb & _ & -> & Htasks & Hkey). destruct (Hkey Hk) as [key Hkey']. exists key, cfg. split_and!; [| |done|].
  - rewrite Htasks. unfold node_tasks, discovery_tasks. rewrite Hk, Hkey', Hp. cbn. set_solver.
  - unfold effective_config, backend_config_of, k8s_backend_config in Hcfg. destruct (bind_addr_of c); [|done]. cbn in Hcfg. rewrite Hp in Hcfg. by cases.
  - intros Hc. unfold k8s_dial_decision. rewrite (bool_decide_false (None = _)), (bool_decide_false (pi_addresses peer = [])) by done.
    by rewrite bool_decide_false.
Qed.

End start.

(** ** The retention sweep *)

Lemma eviction_interval_bounds retention :
  0 < retention → 1 ≤ eviction_interval retention ≤ 60 ∧ eviction_interval retention ≤ Z.max 1 (retention `div` 2).
Proof. unfold eviction_interval. lia. Qed.

Lemma drop_record_sub rec inner id r : bundles (drop_record rec inner) !! id = Some r → bundles inner !! id = Some r.
Proof. cbn. by intros [_ ?]%lookup_delete_Some. Qed.

Lemma evict_lru_sub inner id r : bundles (evict_lru inner) !! id = Some r → bundles inner !! id = Some r.
Proof. unfold evict_lru. destruct (least_recent inner); [apply drop_record_sub|done]. Qed.

(** A call leaves a record as it was, or touched now. *)
Lemma call_touches cfg now c inner id r :
  bundles (reg_apply cfg now (call_op now c) inner) !! id = Some r → bundles inner !! id = Some r ∨ last_touched_at r = now.
Proof.
  destruct c as [id' ident|id' ident hs|id'|id' s]; cbn [call_op reg_apply].
  - unfold check_resubmit, check_resubmit_probe, check_resubmit_commit. destruct (bundles inner !! id') as [x|] eqn:Hx; [|by left].
    destruct (allows_reuse_with_different_files _); cbn [negb andb snd]; [intros Hr; left; by eapply drop_record_sub|].
    case_bool_decide; cbn; [|by left]. rewrite lookup_alter. case_decide; subst; [|by left]. rewrite Hx. intros [= <-]. by right.
  - unfold insert. cbn [bundles bundle_record_new bundle_id]. intros [[_ <-]|[_ Hr]]%lookup_insert_Some; [by right|]. left. revert Hr.
    destruct (bundles inner !! id') as [x|]; destruct ((0 <? rc_max_known_bundles cfg) && _); intros Hr; try apply evict_lru_sub in Hr; try done.
    all: cbn in Hr; by apply lookup_delete_Some in Hr as [_ Hr].
  - unfold registry_get. destruct (bundles inner !! id') as [x|] eqn:Hx; [|by left]. cbn.
    intros [[_ <-]|[_ Hr]]%lookup_insert_Some; [by right|by left].
  - cbn. rewrite lookup_alter. case_decide; subst; [|by left]. destruct (bundles inner !! id); [|done]. intros [= <-]. by right.
Qed.

Record sweep_inv (cfg : RegistryConfig) (interval : Z) (s : Sweep) : Prop := {
  si_clock : sw_next s - interval ≤ sw_now s ≤ sw_next s;
  si_registry : registry_inv (sw_registry s) ∧ cap_ok cfg (sw_registry s);
  si_age id r : bundles (sw_registry s) !! id = Some r → is_terminal (status r) = true →
    sw_next s - interval - rc_handle_retention_secs cfg ≤ last_touched_at r;
}.

Lemma sweep_start_inv cfg interval now : 0 ≤ interval → sweep_inv cfg interval (sweep_start interval now).
Proof.
  intros Hi. split; cbn; [lia| |by intros id r ?%lookup_empty_Some]. split; [exact registry_new_inv|].
  intros Hc. unfold registry_len. cbn. rewrite map_size_empty. lia.
Qed.

Lemma sweep_step_inv cfg interval s s' :
  0 ≤ interval → 0 < rc_handle_retention_secs cfg → sweep_step cfg interval s s' → sweep_inv cfg interval s → sweep_inv cfg interval s'.
Proof.
  intros Hi Hr Hstep [Hclock Hreg Hage]. destruct Hstep as [s now c Hnow Hfresh|s].
  - split; cbn; [lia| |].
    + eapply reg_step_inv; [|exact Hreg]. by constructor.
    + intros id r [Hb|<-]%call_touches Ht; [by eapply Hage|]. lia.
  - split; cbn; [lia| |].
    + eapply (reg_step_inv cfg (sw_registry s)); [|exact Hreg]. by apply (reg_step_op cfg (sw_next s) OpEvict).
    + intros id r Hb Ht. apply (evict_expired_spec cfg (sw_next s) _ (proj1 Hreg)) in Hb as [_ He].
      specialize (He ltac:(lia)). unfold expired in He. rewrite Ht in He. cbn in He. apply Z.ltb_ge in He. lia.
Qed.

Lemma sweep_run_inv cfg interval s s' :
  0 ≤ interval → 0 < rc_handle_retention_secs cfg → rtc (sweep_step cfg interval) s s' → sweep_inv cfg interval s → sweep_inv cfg interval s'.
Proof. intros Hi Hr Hsteps. induction Hsteps as [|a b c Hab _ IH]; [done|]. intros Hinv. eapply IH, sweep_step_inv; done. Qed.

(** Retention is enforced: with a positive retention, whatever the handlers do and
    whenever they do it, no finished bundle that nobody touches is kept longer than
    its retention and one sweep interval, which is at most a minute and at most half
    the retention (but at least a second). *)
Theorem retention_enforced cfg now s id r :
  let retention := rc_handle_retention_secs cfg in
  0 < retention →
  rtc (sweep_step cfg (eviction_interval retention)) (sweep_start (eviction_interval retention) now) s →
  bundles (sw_registry s) !! id = Some r → is_terminal (status r) = true →
  sw_now s - last_touched_at r ≤ retention + Z.min 60 (Z.max 1 (retention `div` 2)).
Proof.
  intros retention Hr Hsteps Hb Ht. destruct (eviction_interval_bounds retention Hr) as [[H1 H2] H3].
  assert (0 ≤ eviction_interval retention) as H0 by lia.
  destruct (sweep_run_inv cfg _ _ _ H0 Hr Hsteps (sweep_start_inv cfg _ now H0)) as [Hclock _ Hage].
  specialize (Hage id r Hb Ht). subst retention. lia.
Qed.

(** ** Witnesses *)

Definition toy_defaults : MeshDefaults :=
  {| TtlRest := unit; GcRest := unit; ttl_default := mkTtlConfig 168 tt; gc_default := mkGcConfig 300 1000 tt |}.

(** A formation whose shared keys are the texts that start with [k]. *)
Definition pods_cipher : CipherOps := {|
  base64_encode b := String "k"%char (String.string_of_list_byte b);
  base64_decode s := match s with String "k"%char s => Some (String.list_byte_of_string s) | _ => None end;
  aead_encrypt key nonce p := Some p;
  aead_decrypt key nonce c := Some c;
  hkdf_sha256 secret info := secret ++ info;
|}.

#[local] Existing Instances toy_sha toy_defaults pods_cipher toy_format.

(** Identities are seeds; a shared key must be base64. *)
Definition toy_iroh (cfg : BackendConfig) : result string (Backend unit bytes unit) :=
  if is_empty_str (bc_base64_shared_key cfg) || bool_decide (is_Some (base64_decode (bc_base64_shared_key cfg)))
  then Ok (mkBackend tt tt (default [] (bc_iroh_secret_key cfg)) [(true, 7000)]) else Err "bad key"%string.

Definition toy_config (key : string) : SidecarConfig :=
  mkSidecarConfig "node" "app" key "/data" [] (Some ""%string) (Some 9000) None None None (Some 60) None
    (mkAttachmentConfig ∅ (Some "/inbox"%string) 0 0 0 0 0 false CliRoutine 0 10 0 0 false 0) false true None "" "" 30.

Definition toy_outside (pod : option string) : StartOutside := mkStartOutside pod true true true true true true None.

Abbreviation toy_new key pod :=
  (new (E := Worker * Fs) (D := unit) (λ _, "id"%string) (λ _, "short"%string) toy_iroh tt (toy_config key) (toy_outside pod) []).


Lemma pods_find_each_other_witness :
  k8s_dial_decision (λ seed, seed) (mkPeerInfo "pod-1" ["10.0.0.2:7000"%string] ∅) (Some "pod-0"%string) [Byte.x53] ∅ =
    DialPeer (Byte.x53 :: String.list_byte_of_string "iroh:pod-1") ∧
  k8s_dial_decision (λ seed, seed) (mkPeerInfo "pod-0" ["10.0.0.1:7000"%string] ∅) (Some "pod-0"%string) [Byte.x53] ∅ = SkipSelf.
Proof.
  assert (∀ cfg b seed, toy_iroh cfg = Ok b → bc_iroh_secret_key cfg = Some seed → be_endpoint_id b = seed) as Hid.
  { intros cfg b seed Hb Hs. unfold toy_iroh in Hb. case_match; simplify_eq/=. by rewrite Hs. }
  assert (∀ pod, K8sWatcher [Byte.x53] (Some "pod-0"%string) ∈ spawned (toy_new "kS" (Some "pod-0"%string)).2 ∧
    ∃ n effects, toy_new "kS" (Some pod) = (Ok n, effects) ∧ sn_backend n = mkBackend tt tt (if is_empty_str pod then [] else Byte.x53 :: String.list_byte_of_string ("iroh:" +:+ pod)) [(true, 7000)]) as Hnew.
  { intros pod. split; [vm_compute; set_solver|]. by destruct pod; eexists _, _. }
  destruct (Hnew "pod-0"%string) as [Hw (n1 & e1 & Hn1 & Hb1)], (Hnew "pod-1"%string) as [_ (n2 & e2 & Hn2 & Hb2)].
  rewrite Hn1 in Hw. cbn [snd] in Hw. split.
  - rewrite (pods_find_each_other _ _ toy_iroh tt (λ seed, seed) (toy_config "kS") (toy_outside (Some "pod-0"%string)) n1 e1
      (toy_config "kS") (toy_outside (Some "pod-1"%string)) n2 e2 "pod-0" "pod-1" [Byte.x53] (Some "pod-0"%string) _ ∅ ∅ Hid Hn1 Hn2); try done.
    by rewrite Hb2.
  - by rewrite (pods_find_each_other _ _ toy_iroh tt (λ seed, seed) (toy_config "kS") (toy_outside (Some "pod-0"%string)) n1 e1
      (toy_config "kS") (toy_outside (Some "pod-0"%string)) n1 e1 "pod-0" "pod-0" [Byte.x53] (Some "pod-0"%string) _ ∅ ∅ Hid Hn1 Hn1).
Defined.

Lemma k8s_discovery_runs_without_pod_name_witness :
  K8sWatcher [Byte.x53] None ∈ spawned (toy_new "kS" None).2 ∧
  k8s_dial_decision (λ seed, seed) (mkPeerInfo "pod-0" ["10.0.0.1:7000"%string] ∅) None [Byte.x53] ∅ =
    DialPeer (Byte.x53 :: String.list_byte_of_string "iroh:pod-0").
Proof.
  destruct (toy_new "kS" None) as [[n|e] effects] eqn:Hn; [|by vm_compute in Hn].
  destruct (k8s_discovery_runs_without_pod_name _ _ toy_iroh tt (λ seed, seed) (toy_config "kS") (toy_outside None) n effects
    (mkPeerInfo "pod-0" ["10.0.0.1:7000"%string] ∅) ∅ Hn eq_refl eq_refl) as (key & cfg & Hw & _ & _ & Hd); [done|].
  assert (key = [Byte.x53]) as ->; [|by split; [|apply Hd; set_solver]].
  vm_compute in Hn. injection Hn as <- <-. vm_compute in Hw. repeat (apply elem_of_cons in Hw as [Hw|Hw]; [by simplify_eq|]). by apply elem_of_nil in Hw.
Defined.

Definition toy_sweep : Sweep :=
  mkSweep 5 10 (evict_expired (mkRegistryConfig 10 0) 5
    (update_status 3 "B" Completed (insert (mkRegistryConfig 10 0) (bundle_record_new 1 "B" [] []) registry_new))).

Lemma retention_enforced_witness :
  ∃ r, bundles (sw_registry toy_sweep) !! "B"%string = Some r ∧ sw_now toy_sweep - last_touched_at r ≤ 15.
Proof.
  exists (set_status 3 Completed (bundle_record_new 1 "B" [] [])). split; [vm_compute; reflexivity|].
  refine (retention_enforced (mkRegistryConfig 10 0) 0 toy_sweep "B" _ _ _ _ _); [cbn; lia| |vm_compute; reflexivity|reflexivity].
  eapply rtc_l; [apply (sweep_call _ _ (sweep_start 5 0) 1 (CallInsert "B" [] [])); [cbn; lia|]|].
  { intros record [= <-] d Hd. by apply elem_of_nil in Hd. }
  eapply rtc_l; [apply (sweep_call _ _ _ 3 (CallUpdate "B" Completed)); [cbn; lia|done]|].
  eapply rtc_l; [apply sweep_tick|]. apply rtc_refl.
Defined.
