(* ===== verification/Boot.v ===== *)
(** * From arguments to a running node

    [main] builds a [SidecarConfig] from its arguments and hands it to
    [SidecarNode::new]. This file composes [Process.startup] with [NodeStart.new]
    and relates the identity of the node that runs to what the offline command
    [derive-id] prints. *)

From S2P Require Import Prelude Journal JournalFacts LedgerWorker Paths AttachConfig Readiness Envelope NatsConfig Egress Crypto Shutdown Peers Service.
From S2P Require Import Install Watcher Process ProcessFacts CliCore CliFacts NodeStart NodeStartFacts.
From Stdlib Require Import Strings.Ascii.

(** The arguments [main] only copies into the configuration. *)
Record NodeSettings := mkNodeSettings {
  ns_app_id : string;
  ns_iroh_udp_port : option Z;
  ns_disable_mdns : bool;
  ns_blob_stall_timeout_secs : option Z;
  ns_tombstone_ttl_hours : option Z;
  ns_gc_interval_secs : option Z;
  ns_gc_batch_size : option Z;
  ns_enable_kubernetes_discovery : bool;
  ns_discovery_namespace : option string;
  ns_discovery_label_selector : string;
  ns_discovery_annotation_prefix : string;
  ns_discovery_interval_secs : Z;
}.

Definition sidecar_config_of (a : Args (Settings := NodeSettings)) (node_id : string) (seed : option bytes) (attachments : AttachmentConfig)
  : SidecarConfig :=
  let s := ar_settings a in
  mkSidecarConfig node_id (ns_app_id s) (ar_shared_key a) (ar_data_dir a) (ar_peer a) (ar_encryption_key a)
    (ns_iroh_udp_port s) seed (ns_blob_stall_timeout_secs s) (ns_tombstone_ttl_hours s) (ns_gc_interval_secs s)
    (ns_gc_batch_size s) attachments (ns_disable_mdns s) (ns_enable_kubernetes_discovery s) (ns_discovery_namespace s)
    (ns_discovery_label_selector s) (ns_discovery_annotation_prefix s) (ns_discovery_interval_secs s).

(** Effects that do not start a node. *)
Definition quiet {Settings} (e : Effect (Settings := Settings)) : Prop :=
  match e with StartedNode _ _ _ _ => False | _ => True end.

Section boot.
Context {sha : Sha256} `{AsyncNats} `{CipherOps} `{Os W} {Id : Type} `{Countable Id}
  (parse_id : string → option Id) (show_id : Id → string) (public_key : bytes → Id).
Abbreviation args := (Args (Settings := NodeSettings)).
Abbreviation proc := (Proc (Settings := NodeSettings) (W := W) (Id := Id)).
Abbreviation run_main := (startup (Settings := NodeSettings) parse_id show_id public_key).
Implicit Types (a : args) (p : proc).

(** [p'] has the effects of [p] and quiet ones. *)
Definition adds_quiet p p' : Prop := ∃ l, pr_effects p' = pr_effects p ++ l ∧ Forall quiet l.

#[local] Instance adds_quiet_refl : Reflexive adds_quiet.
Proof. intros p. exists []. by rewrite app_nil_r. Qed.

#[local] Instance adds_quiet_trans : Transitive adds_quiet.
Proof. intros p1 p2 p3 (l1 & E1 & F1) (l2 & E2 & F2). exists (l1 ++ l2). rewrite E2, E1, <-app_assoc. split; [done|by apply Forall_app]. Qed.

Lemma wp_emit_quiet e (Q : result MainError unit → proc → Prop) p :
  quiet e → (∀ p', adds_quiet p p' → Q (Ok tt) p') → wp (emit e) Q p.
Proof. intros He HQ. apply wp_modify, HQ. exists [e]. by repeat constructor. Qed.

(** Run a step with quiet effects and go on from a state that has only added such. *)
Lemma wp_quiet {A B} p0 (m : st_err proc MainError A) (f : A → st_err proc MainError B) Q p :
  adds_quiet p0 p → wp m (λ _ p', adds_quiet p p') p → (∀ e p', Q (Err e) p') →
  (∀ v p', adds_quiet p0 p' → wp (f v) Q p') → wp (m ≫= f) Q p.
Proof. intros Hp0 Hm He Hf. apply wp_bind. unfold wp in *. destruct (m p) as [[v|e] p']; [apply Hf; by etrans|apply He]. Qed.

Lemma quiet_choice {A} (b : bool) (m m' : st_err proc MainError A) p :
  wp m (λ _ p', adds_quiet p p') p → wp m' (λ _ p', adds_quiet p p') p → wp (if b then m else m') (λ _ p', adds_quiet p p') p.
Proof. by destruct b. Qed.

Lemma initial_peer_quiet o spec p : wp (connect_initial_peer parse_id o spec) (λ r p', adds_quiet p p') p.
Proof.
  unfold connect_initial_peer. destruct (is_empty_str spec); [by apply wp_ret|].
  destruct (split_once _ spec) as [[id addr]|]; [|by apply wp_emit_quiet].
  unfold wp. destruct (connect_peer _ _ _ _ _ _ _) as [r peers]. cbn. eexists [_]. by repeat constructor.
Qed.

Lemma initial_peers_quiet o specs p : wp (connect_initial_peers parse_id o specs) (λ r p', adds_quiet p p') p.
Proof.
  revert p. induction specs as [|spec specs IH]; intros p; cbn [connect_initial_peers]; [by apply wp_ret|]. apply wp_bind.
  eapply wp_mono; [apply initial_peer_quiet|]. cbv beta. intros [[]|e] p' Hp; [|done]. eapply wp_mono; [apply IH|]. cbv beta. intros r p2 Hp2. by etrans.
Qed.

Lemma bridge_quiet config node_id blocking p : wp (start_bridge_runtime config node_id blocking) (λ r p', adds_quiet p p') p.
Proof.
  unfold start_bridge_runtime, wp. destruct config as [|config]; [reflexivity|].
  destruct (try_spawn _ _ _ _) as [[start|e] h]; cbn; [eexists [_]; by repeat constructor|exists []; by rewrite app_nil_r].
Qed.

Lemma attachments_quiet a p : wp (attachments_from a) (λ r p', adds_quiet p p') p.
Proof. unfold attachments_from, wp. destruct (AttachConfig.from_raw _ _ _ _) as [r w]. exists []. by rewrite app_nil_r. Qed.

Lemma emit_quiet e p : quiet e → wp (emit e : st_err proc MainError unit) (λ _ p', adds_quiet p p') p.
Proof. intros He. by apply wp_emit_quiet. Qed.

(** A start that reaches the server has started one node, under the identity
    derived from the shared key and the node id. *)
Definition node_started a p (node_id : string) p' : Prop :=
  ∃ seed attachments before after,
    derive_iroh_secret_seed (ar_shared_key a) node_id = Ok seed ∧
    pr_effects p' = pr_effects p ++ before ++ StartedNode node_id seed (ar_encryption_key a) attachments :: after ∧
    Forall quiet before ∧ Forall quiet after.

Lemma startup_node a o p node_id bridge p' :
  ar_command a = None → run_main a o p = (Ok (Some (node_id, bridge)), p') → node_started a p node_id p'.
Proof.
  intros Hc Hrun. enough (wp (run_main a o) (λ r p', ∀ node_id bridge, r = Ok (Some (node_id, bridge)) → node_started a p node_id p') p) as Hwp
    by (exact (wp_elim _ _ _ Hwp _ _ Hrun _ _ eq_refl)).
  clear Hrun. unfold startup. rewrite Hc.
  destruct (_ <? _); [by apply wp_fail|].
  apply (wp_quiet p); [done|apply quiet_choice; [by apply wp_ret|by apply emit_quiet]|done|]. intros _ p1 Hp1.
  apply wp_bind, wp_lift. destruct (map_err _ (NatsConfig.from_raw _ _)) as [config|]; [|done].
  apply wp_bind, wp_lift. destruct (map_err _ (validate_node_identity _ _)); [|done].
  apply (wp_quiet p); [done|apply quiet_choice; [by apply emit_quiet|by apply wp_ret]|done|]. intros _ p2 Hp2.
  apply (wp_quiet p); [done|apply quiet_choice; [by apply emit_quiet|by apply wp_fail]|done|]. intros _ p3 Hp3.
  apply wp_bind, wp_lift. destruct (derive_iroh_secret_seed _ _) as [seed|] eqn:Hseed; [|done]. cbn [map_err].
  apply (wp_quiet p); [done|apply attachments_quiet|done|]. intros attachments p4 (before & Hbefore & Fbefore).
  apply wp_bind. destruct (ou_node_new o); [|by apply wp_fail]. apply wp_modify. set (p5 := mkProc _ _ _ _).
  apply (wp_quiet p5); [done|apply bridge_quiet|done|]. intros b p6 Hp6.
  apply (wp_quiet p5); [done|apply quiet_choice; [by apply emit_quiet|by apply wp_ret]|done|]. intros _ p7 Hp7.
  apply (wp_quiet p5); [done|apply initial_peers_quiet|done|]. intros _ p8 Hp8.
  apply (wp_quiet p5); [done|apply quiet_choice; [apply quiet_choice; [by apply emit_quiet|by apply wp_fail]|by apply wp_ret]|done|]. intros _ p9 Hp9.
  apply (wp_quiet p5); [done|destruct (ar_agent_addr a); [by apply emit_quiet|by apply wp_ret]|done|]. intros _ p10 (after & Hafter & Fafter).
  apply wp_ret. intros ? ? [= <- <-]. exists seed, attachments, before, after. split_and!; [done| |done|done].
  rewrite Hafter. cbn. by rewrite Hbefore, <-!app_assoc.
Qed.

Definition with_command (c : CliCommand) a : args :=
  mkArgs (ar_print_config a) (Some c) (ar_listen a) (ar_rpc_default_timeout_secs a) (ar_rpc_max_timeout_secs a)
    (ar_allocator_stats_interval_secs a) (ar_data_dir a) (ar_node_id a) (ar_shared_key a) (ar_encryption_key a) (ar_nats_url a)
    (ar_nats_mapping a) (ar_nats_shutdown_timeout_secs a) (ar_peer a) (ar_auto_sync a) (ar_agent_addr a) (ar_agent_tls a)
    (ar_attachment_root a) (ar_attachment_inbox a) (ar_attachment_limits a) (ar_settings a).

Context `{MeshDefaults} `{ConfigFormat} {St E B D : Type} (fmt_short : Id → string)
  (with_iroh : BackendConfig → result string (Backend St Id B)) (distribution_new : D).

(** The name a node's identity is derived from. *)
Definition identity_name (s : NodeSettings) (so : StartOutside) (node_id : string) : string :=
  if ns_enable_kubernetes_discovery s then default node_id (pod_name_of (so_pod_name_var so)) else node_id.

Lemma effective_seed a node_id seed attachments so cfg key :
  base64_decode (ar_shared_key a) = Some key → ar_shared_key a ≠ ""%string → seed = Some (derive_iroh_node_key key node_id) →
  effective_config (sidecar_config_of a node_id seed attachments) so = Ok cfg →
  bc_iroh_secret_key cfg = Some (derive_iroh_node_key key (identity_name (ar_settings a) so node_id)).
Proof.
  intros Hk Hne -> Hcfg. unfold effective_config, backend_config_of, k8s_backend_config, identity_name in *.
  destruct (bind_addr_of _); [|done]. cbn in Hcfg |- *. destruct (ns_enable_kubernetes_discovery _); [|by simplify_eq].
  unfold resolve_k8s_identity, pod_name_of in *. destruct (so_pod_name_var so) as [pod|]; [|by simplify_eq].
  destruct (is_empty_str pod) eqn:Hp; [by simplify_eq|]. rewrite Hp, (is_empty_str_decide (ar_shared_key a)), bool_decide_false, Hk in Hcfg by done.
  cbn in Hcfg. by simplify_eq.
Qed.

(** The offline identity is the running one: whatever node a process starts from its
    arguments, with a shared key free of surrounding blanks, [derive-id] with that
    key prints the endpoint the node bound, when it is given the name the node
    derives its identity from: the node id, or the pod's name where Kubernetes
    discovery is on and [POD_NAME] is set. *)
Theorem derive_id_names_the_node a o p node_id bridge p' seed enc attachments so n effects o' q :
  (∀ cfg b seed, with_iroh cfg = Ok b → bc_iroh_secret_key cfg = Some seed → be_endpoint_id b = public_key seed) →
  ar_command a = None → trim (ar_shared_key a) = ar_shared_key a → ar_shared_key a ≠ ""%string →
  run_main a o p = (Ok (Some (node_id, bridge)), p') → Forall quiet (pr_effects p) →
  StartedNode node_id seed enc attachments ∈ pr_effects p' →
  new (E := E) show_id fmt_short with_iroh distribution_new (sidecar_config_of a node_id seed attachments) so [] = (Ok n, effects) →
  run_main (with_command (DeriveId (ar_shared_key a) (identity_name (ar_settings a) so node_id)) a) o' q =
    (Ok None, mkProc (pr_effects q ++ [PrintedId (show_id (be_endpoint_id (sn_backend n)))]) (pr_world q) (pr_host q) (pr_peers q)).
Proof.
  intros Hid Hc Htrim Hne Hrun Hquiet Hin Hnew. destruct (startup_node _ _ _ _ _ _ Hc Hrun) as (seed' & att' & before & after & Hseed & Heff & Fb & Fa).
  assert (seed = seed') as ->.
  { rewrite Heff, !elem_of_app, elem_of_cons in Hin. rewrite !Forall_forall in *. destruct Hin as [Hin|[Hin|[Hin|Hin]]]; [|by apply Fb in Hin|by simplify_eq|by apply Fa in Hin].
    by apply Hquiet in Hin. }
  unfold derive_iroh_secret_seed in Hseed. rewrite Htrim, is_empty_str_decide, bool_decide_false in Hseed by done.
  destruct (base64_decode (ar_shared_key a)) as [key|] eqn:Hkey; simplify_eq/=.
  pose proof (new_spec show_id fmt_short with_iroh distribution_new (E := E) (sidecar_config_of a node_id (Some (derive_iroh_node_key key node_id)) attachments) so) as Hst.
  rewrite Hnew in Hst. destruct Hst as (cfg & b & cipher & Hcfg & Hb & _ & -> & _).
  unfold startup. cbn [with_command ar_command]. unfold derive_endpoint_id, derive_iroh_secret_seed.
  rewrite Htrim, is_empty_str_decide, bool_decide_false, Hkey by done. cbn.
  by rewrite (Hid _ _ _ Hb (effective_seed _ _ _ _ _ _ _ Hkey Hne eq_refl Hcfg)).
Qed.

End boot.

(** ** Witness *)

#[local] Existing Instances toy_sha toy_nats pods_cipher toy_defaults toy_format.

Definition toy_boot_args (k8s : bool) : Args (Settings := NodeSettings) :=
  mkArgs false None "tcp://0.0.0.0:50051" 120 300 0 "/data" (Some "node-a"%string) "kS" None None [] 10
    [] false None (mkTls None None None) [] None attachment_config_default
    (mkNodeSettings "app" (Some 9000) false None None None None k8s None "" "" 30).

Definition toy_boot_proc : Proc (Settings := NodeSettings) (W := unit) (Id := bytes) := mkProc [] tt (mkHost None empty_dir) peers_new.

Abbreviation toy_startup := (startup (H1 := toy_no_files) (Id := bytes) (λ _, None) (λ id, String.string_of_list_byte id) id).

Lemma derive_id_names_the_node_witness :
  pr_effects (toy_startup (with_command (DeriveId "kS" "pod-0") (toy_boot_args true)) ProcessFacts.toy_outside toy_boot_proc).2 =
    [PrintedId "Siroh:pod-0"].
Proof.
  destruct (toy_startup (toy_boot_args true) ProcessFacts.toy_outside toy_boot_proc) as [[[[node_id bridge]|]|] p'] eqn:Hrun;
    [|by vm_compute in Hrun|by vm_compute in Hrun].
  assert (node_id = "node-a"%string) as -> by (by vm_compute in Hrun; simplify_eq).
  set (seed := Some (String.list_byte_of_string "Siroh:node-a")).
  destruct (new (E := unit) (λ id, String.string_of_list_byte id) (λ _, "short"%string) toy_iroh tt
    (sidecar_config_of (toy_boot_args true) "node-a" seed attachment_config_default) (NodeStartFacts.toy_outside (Some "pod-0"%string)) [])
    as [[n|] effects] eqn:Hnew; [|by vm_compute in Hnew].
  rewrite (derive_id_names_the_node (H1 := toy_no_files) (λ _, None) (λ id, String.string_of_list_byte id) id (λ _, "short"%string) toy_iroh tt
    (toy_boot_args true) ProcessFacts.toy_outside toy_boot_proc "node-a" bridge p' seed None attachment_config_default
    (NodeStartFacts.toy_outside (Some "pod-0"%string)) n effects ProcessFacts.toy_outside toy_boot_proc).
  - vm_compute in Hnew. by injection Hnew as <- _.
  - intros cfg b s Hb Hs. unfold toy_iroh in Hb. case_match; simplify_eq/=. by rewrite Hs.
  - done.
  - done.
  - done.
  - exact Hrun.
  - done.
  - vm_compute in Hrun. injection Hrun as _ <-. vm_compute. set_solver.
  - exact Hnew.
Defined.

(** * The node's options

    The options of [struct Args] in [src/main.rs]: their names, environment
    variables, types with ranges, and defaults, and how one is resolved from the
    command line, the environment and its default. clap's resolution is modelled as
    it documents it: the command line wins over the environment, which wins over
    the default; a list is split at its delimiter; a value its parser refuses is an
    error. The subcommand is modelled in [Process]. *)

Definition U16_MAX : Z := 2 ^ 16 - 1.
Definition DEFAULT_NATS_SHUTDOWN_TIMEOUT_SECS : Z := 10.
Definition MAX_NATS_SHUTDOWN_TIMEOUT_SECS : Z := 300.

(** An integer type is its range. *)
Inductive ArgType := TyBool | TyString | TyPath | TyInt (lo hi : Z) | TyPriority.

Record ArgSpec := mkArg {
  arg_long : string;
  arg_env : string;
  arg_type : ArgType;
  arg_many : bool;
  arg_default : option string;
}.

(** [AttachmentPriorityCli::as_str] *)
Definition priority_name (p : AttachmentPriorityCli) : string :=
  match p with CliBulk => "bulk" | CliLow => "low" | CliRoutine => "routine" | CliPriority => "priority" | CliCritical => "critical" end.

Definition bool_text (b : bool) : string := if b then "true" else "false".

Definition server_args : list ArgSpec := [
  mkArg "print-config" "PEAT_NODE_PRINT_CONFIG" TyBool false (Some "false"%string);
  mkArg "listen" "PEAT_NODE_LISTEN" TyString false (Some "tcp://0.0.0.0:50051"%string);
  mkArg "rpc-default-timeout-secs" "PEAT_NODE_RPC_DEFAULT_TIMEOUT_SECS" (TyInt 1 86400) false (Some "120"%string);
  mkArg "rpc-max-timeout-secs" "PEAT_NODE_RPC_MAX_TIMEOUT_SECS" (TyInt 1 86400) false (Some "300"%string);
  mkArg "http-header-read-timeout-secs" "PEAT_NODE_HTTP_HEADER_READ_TIMEOUT_SECS" (TyInt 1 3600) false (Some "30"%string);
  mkArg "http-max-connection-idle-secs" "PEAT_NODE_HTTP_MAX_CONNECTION_IDLE_SECS" (TyInt 1 86400) false (Some "300"%string);
  mkArg "http2-keepalive-interval-secs" "PEAT_NODE_HTTP2_KEEPALIVE_INTERVAL_SECS" (TyInt 1 3600) false (Some "30"%string);
  mkArg "http2-keepalive-timeout-secs" "PEAT_NODE_HTTP2_KEEPALIVE_TIMEOUT_SECS" (TyInt 1 3600) false (Some "20"%string);
  mkArg "http2-max-concurrent-streams" "PEAT_NODE_HTTP2_MAX_CONCURRENT_STREAMS" (TyInt 1 65535) false (Some "128"%string);
  mkArg "allocator-stats-interval-secs" "PEAT_NODE_ALLOCATOR_STATS_INTERVAL_SECS" (TyInt 0 86400) false (Some "0"%string) ].

Definition identity_args : list ArgSpec := [
  mkArg "data-dir" "PEAT_NODE_DATA_DIR" TyPath false (Some "/data/peat-node"%string);
  mkArg "node-id" "PEAT_NODE_NODE_ID" TyString false None;
  mkArg "app-id" "PEAT_NODE_APP_ID" TyString false (Some "peat-default"%string);
  mkArg "shared-key" "PEAT_NODE_SHARED_KEY" TyString false (Some ""%string);
  mkArg "encryption-key" "PEAT_NODE_ENCRYPTION_KEY" TyString false None ].

Definition nats_args : list ArgSpec := [
  mkArg "nats-url" "PEAT_NODE_NATS_URL" TyString false None;
  mkArg "nats-mapping" "PEAT_NODE_NATS_MAPPING" TyString true None;
  mkArg "nats-shutdown-timeout-secs" "PEAT_NODE_NATS_SHUTDOWN_TIMEOUT_SECS" (TyInt 1 MAX_NATS_SHUTDOWN_TIMEOUT_SECS) false (Some (digits DEFAULT_NATS_SHUTDOWN_TIMEOUT_SECS)) ].

Definition mesh_args : list ArgSpec := [
  mkArg "peer" "PEAT_NODE_PEERS" TyString true None;
  mkArg "disable-mdns" "PEAT_NODE_DISABLE_MDNS" TyBool false (Some "false"%string);
  mkArg "auto-sync" "PEAT_NODE_AUTO_SYNC" TyBool false (Some "true"%string);
  mkArg "iroh-udp-port" "PEAT_NODE_IROH_UDP_PORT" (TyInt 0 U16_MAX) false None;
  mkArg "blob-stall-timeout-secs" "PEAT_NODE_BLOB_STALL_TIMEOUT_SECS" (TyInt 0 U64_MAX) false None;
  mkArg "tombstone-ttl-hours" "PEAT_NODE_TOMBSTONE_TTL_HOURS" (TyInt 0 U32_MAX) false None;
  mkArg "gc-interval-secs" "PEAT_NODE_GC_INTERVAL_SECS" (TyInt 0 U64_MAX) false None;
  mkArg "gc-batch-size" "PEAT_NODE_GC_BATCH_SIZE" (TyInt 0 U64_MAX) false None ].

Definition agent_args : list ArgSpec := [
  mkArg "agent-addr" "PEAT_NODE_AGENT_ADDR" TyString false None;
  mkArg "agent-poll-interval" "PEAT_NODE_AGENT_POLL_INTERVAL" (TyInt 0 U64_MAX) false (Some "10"%string);
  mkArg "agent-tls-cert" "PEAT_NODE_AGENT_TLS_CERT" TyPath false None;
  mkArg "agent-tls-key" "PEAT_NODE_AGENT_TLS_KEY" TyPath false None;
  mkArg "agent-tls-ca" "PEAT_NODE_AGENT_TLS_CA" TyPath false None ].

Definition attachment_args : list ArgSpec := [
  mkArg "attachment-root" "PEAT_NODE_ATTACHMENT_ROOT" TyString true None;
  mkArg "attachment-max-file-bytes" "PEAT_NODE_ATTACHMENT_MAX_FILE_BYTES" (TyInt 0 U64_MAX) false (Some (digits DEFAULT_MAX_FILE_BYTES));
  mkArg "attachment-max-bundle-bytes" "PEAT_NODE_ATTACHMENT_MAX_BUNDLE_BYTES" (TyInt 0 U64_MAX) false (Some (digits DEFAULT_MAX_BUNDLE_BYTES));
  mkArg "attachment-max-files-per-bundle" "PEAT_NODE_ATTACHMENT_MAX_FILES_PER_BUNDLE" (TyInt 0 U32_MAX) false (Some (digits DEFAULT_MAX_FILES_PER_BUNDLE));
  mkArg "attachment-max-node-list-len" "PEAT_NODE_ATTACHMENT_MAX_NODE_LIST_LEN" (TyInt 0 U32_MAX) false (Some (digits DEFAULT_MAX_NODE_LIST_LEN));
  mkArg "attachment-max-concurrent-distributions" "PEAT_NODE_ATTACHMENT_MAX_CONCURRENT_DISTRIBUTIONS" (TyInt 0 U32_MAX) false (Some (digits DEFAULT_MAX_CONCURRENT_DISTRIBUTIONS));
  mkArg "attachment-queue-when-full" "PEAT_NODE_ATTACHMENT_QUEUE_WHEN_FULL" TyBool false (Some (bool_text DEFAULT_QUEUE_WHEN_FULL));
  mkArg "attachment-default-priority" "PEAT_NODE_ATTACHMENT_DEFAULT_PRIORITY" TyPriority false (Some (priority_name CliRoutine));
  mkArg "attachment-discovery-grace-secs" "PEAT_NODE_ATTACHMENT_DISCOVERY_GRACE_SECS" (TyInt 0 U32_MAX) false (Some (digits DEFAULT_DISCOVERY_GRACE_SECS));
  mkArg "attachment-handle-retention-secs" "PEAT_NODE_ATTACHMENT_HANDLE_RETENTION_SECS" (TyInt 0 U32_MAX) false (Some (digits DEFAULT_HANDLE_RETENTION_SECS));
  mkArg "attachment-max-known-bundles" "PEAT_NODE_ATTACHMENT_MAX_KNOWN_BUNDLES" (TyInt 0 U32_MAX) false (Some (digits DEFAULT_MAX_KNOWN_BUNDLES));
  mkArg "attachment-inbox" "PEAT_NODE_ATTACHMENT_INBOX" TyPath false None;
  mkArg "attachment-inbox-poll-secs" "PEAT_NODE_ATTACHMENT_INBOX_POLL_SECS" (TyInt 0 U32_MAX) false (Some (digits DEFAULT_INBOX_POLL_SECS));
  mkArg "attachment-outbox-watch" "PEAT_NODE_ATTACHMENT_OUTBOX_WATCH" TyBool false (Some "false"%string);
  mkArg "attachment-outbox-poll-secs" "PEAT_NODE_ATTACHMENT_OUTBOX_POLL_SECS" (TyInt 0 U32_MAX) false (Some (digits DEFAULT_OUTBOX_POLL_SECS)) ].

Definition discovery_args : list ArgSpec := [
  mkArg "enable-kubernetes-discovery" "PEAT_NODE_ENABLE_KUBERNETES_DISCOVERY" TyBool false (Some "false"%string);
  mkArg "discovery-namespace" "PEAT_NODE_DISCOVERY_NAMESPACE" TyString false None;
  mkArg "discovery-label-selector" "PEAT_NODE_DISCOVERY_LABEL_SELECTOR" TyString false (Some "app=peat-node"%string);
  mkArg "discovery-annotation-prefix" "PEAT_NODE_DISCOVERY_ANNOTATION_PREFIX" TyString false (Some "peat."%string);
  mkArg "discovery-interval-secs" "PEAT_NODE_DISCOVERY_INTERVAL_SECS" (TyInt 0 U64_MAX) false (Some "30"%string) ].

Definition node_args : list ArgSpec :=
  server_args ++ identity_args ++ nats_args ++ mesh_args ++ agent_args ++ attachment_args ++ discovery_args.

(** ** Resolution *)

(** What an option's value parser accepts. *)
Definition accepts (t : ArgType) (v : string) : bool :=
  match t with
  | TyBool => bool_decide (v ∈ [bool_text true; bool_text false])
  | TyString => true
  | TyPath => negb (is_empty_str v)
  | TyInt lo hi => match parse_u64 v with Ok z => (lo <=? z) && (z <=? hi) | Err _ => false end
  | TyPriority => bool_decide (v ∈ priority_name <$> [CliBulk; CliLow; CliRoutine; CliPriority; CliCritical])
  end.

Inductive ArgError := InvalidValue (v : string) | GivenTwice.

Definition split_values (s : ArgSpec) (v : string) : list string := if arg_many s then split_on ","%char v else [v].

Definition check_values (s : ArgSpec) (vs : list string) : result ArgError (list string) :=
  match List.find (λ v, negb (accepts (arg_type s) v)) vs with Some v => Err (InvalidValue v) | None => Ok vs end.

(** [std::env::var] *)
Definition env_get (vars : list (string * string)) (k : string) : option string :=
  snd <$> List.find (λ kv, bool_decide (kv.1 = k)) vars.

(** The values of an option, given its occurrences on the command line. *)
Definition resolve_arg (s : ArgSpec) (given : list string) (vars : list (string * string)) : result ArgError (list string) :=
  match given with
  | [] =>
      match env_get vars (arg_env s) with
      | Some v => check_values s (split_values s v)
      | None => check_values s (option_list (arg_default s))
      end
  | [v] => check_values s (split_values s v)
  | _ => if arg_many s then check_values s (given ≫= split_values s) else Err GivenTwice
  end.

(** ** Properties *)

Lemma node_args_names : NoDup (arg_long <$> node_args) ∧ NoDup (arg_env <$> node_args).
Proof. split; refine (bool_decide_unpack _ _); vm_compute; exact I. Qed.

Lemma node_args_checked :
  Forall (λ s, starts_with (arg_env s) "PEAT_NODE_" = true ∧ check_values s (option_list (arg_default s)) = Ok (option_list (arg_default s))) node_args.
Proof. repeat constructor. Qed.

Lemma env_get_None vars k : (∀ v, (k, v) ∉ vars) → env_get vars k = None.
Proof.
  intros Hn. unfold env_get. destruct (List.find _ vars) as [[k' v]|] eqn:Hf; [|done]. apply find_some in Hf as [Hin Hk].
  apply bool_decide_eq_true in Hk. cbn in Hk. subst k'. apply list_elem_of_In in Hin. by destruct (Hn v).
Qed.

(** The options are sound: no two share a flag or a variable; every variable has the
    prefix under which empty ones are treated as unset; each default is a value the
    option itself accepts; so with nothing given, or with any of the node's variables
    set to the empty string, every option resolves to its default instead of failing,
    and the defaults pass the check on the timeouts. *)
Theorem options_sound vars :
  NoDup (arg_long <$> node_args) ∧ NoDup (arg_env <$> node_args) ∧
  (∀ s, s ∈ node_args →
     starts_with (arg_env s) "PEAT_NODE_" = true ∧
     ((arg_env s, ""%string) ∈ vars ∨ (∀ v, (arg_env s, v) ∉ vars) →
      resolve_arg s [] (normalized_env vars) = Ok (option_list (arg_default s)))) ∧
  (∀ d m, "rpc-default-timeout-secs"%string = arg_long d → "rpc-max-timeout-secs"%string = arg_long m → d ∈ node_args → m ∈ node_args →
     ∃ x y, parse_u64 <$> arg_default d = Some (Ok x) ∧ parse_u64 <$> arg_default m = Some (Ok y) ∧ x ≤ y).
Proof.
  split_and!; [apply node_args_names|apply node_args_names| |].
  - intros s Hs. pose proof node_args_checked as Hall. rewrite Forall_forall in Hall. destruct (Hall s Hs) as [Hp Hd]. split; [done|].
    intros Hv. cbn [resolve_arg]. rewrite env_get_None; [done|]. intros v. rewrite normalized_env_exact.
    intros [Hin Hn]. destruct Hv as [Hv|Hv]; [by apply Hn|by destruct (Hv v)].
  - intros d m Hd Hm Hin1 Hin2.
    assert (∀ n s, s ∈ node_args → n = arg_long s → List.find (λ s, bool_decide (arg_long s = n)) node_args = Some s) as Hfind.
    { intros n s Hs ->. destruct (List.find _ node_args) as [s'|] eqn:Hf.
      - apply find_some in Hf as [Hin Hk]. apply bool_decide_eq_true in Hk. apply list_elem_of_In, list_elem_of_lookup in Hin as [i Hi].
        apply list_elem_of_lookup in Hs as [j Hj]. pose proof (NoDup_lookup _ i j (arg_long s) (proj1 node_args_names)) as Hij.
        rewrite !list_lookup_fmap, Hi, Hj in Hij. cbn in Hij. rewrite Hk in Hij. specialize (Hij eq_refl eq_refl). congruence.
      - apply list_elem_of_In in Hs. pose proof (find_none _ _ Hf s Hs) as Hne. cbn in Hne. by rewrite bool_decide_true in Hne. }
    apply Hfind in Hd, Hm; [|done..]. vm_compute in Hd, Hm. simplify_eq. exists 120, 300. by split_and!.
Qed.
