(* ===== verification/ServiceRpc.v ===== *)
(** * The RPC service

    Model of the handlers of [PeatSidecarService] in [src/service.rs] over the
    node of [NodeStart]: status, peers, documents, typed collections, sync control
    and collection settings, each with the errors it answers. [Subscribe] models
    the subscription stream and [Handlers] the attachment handlers. The service
    holds nothing but the node. *)

From S2P Require Import Prelude Paths Journal LedgerWorker Crypto AttachConfig Registry BundleRuntime Fanout NodeDocs Json Service Peers NodeStart.
From Stdlib Require Import Floats.SpecFloat.

Inductive NodePhase := PhaseSyncing | PhaseReady.

Record PbPeerInfo := mkPbPeer { pp_endpoint_id : string; pp_addresses : list string; pp_connected : bool }.

(** The requests; a message field that is not set is [None]. *)
Inductive Request :=
| GetStatus
| ConnectPeer (endpoint_id : string) (addresses : list string) (relay_url : string)
| DisconnectPeer (endpoint_id : string)
| ListPeers
| PutDocument (collection doc_id json_data : string)
| GetDocument (collection doc_id : string)
| DeleteDocument (collection doc_id : string)
| ListDocuments (collection : string)
| PutNode (node : option PbNode)
| GetNodes
| PutCell (cell : option PbCell)
| GetCells
| PutTrack (track : option PbTrack)
| GetTracks
| PutCommand (command : option PbCommand)
| GetCommands
| StartSync
| StopSync
| GetSyncStats
| SetCollectionConfig (config : option PbCollectionConfig)
| GetCollectionConfig (collection : string)
| ListCollectionConfigs.

Inductive Response :=
| StatusIs (node_id endpoint_addr : string) (sync_active : bool) (connected_peers : Z) (phase : NodePhase)
| Done
| PeersAre (peers : list PbPeerInfo)
| DocumentIs (json_data : option string)
| DocIdsAre (doc_ids : list string)
| NodesAre (nodes : list PbNode)
| CellsAre (cells : list PbCell)
| TracksAre (tracks : list PbTrack)
| CommandsAre (commands : list PbCommand)
| StatsAre (stats : SyncStats)
| ConfigIs (config : option PbCollectionConfig)
| ConfigsAre (configs : list PbCollectionConfig).

(** What a call draws, reads off the clock or meets outside. *)
Record RpcOutside := mkRpcOutside {
  ro_nonce : bytes;
  ro_now : Z;
  ro_dial : Dial;
  ro_write : WriteOutcome;
  ro_bytes_sent : Z;
  ro_bytes_received : Z;
}.

(** [internal]: the error's text is not modelled. *)
Definition internal {E A} (r : result E A) : result ConnectError A := map_err (λ _, mkConnectError Internal "") r.

Section service.
Context {sha : Sha256} `{CipherOps} `{Docs} `{J : JsonLib} `{ConfigFormat} {St E B D Id : Type} `{!DocStore St} `{!ExclusionOps E} `{Countable Id}.
Context (parse_id : string → option Id) (show_id : Id → string).

Abbreviation node := (SidecarNode (St := St) (E := E) (B := B) (D := D) (Id := Id)).
Abbreviation answer := (result ConnectError Response).

Definition with_docs (d : NodeDocs.Node St E) (n : node) : node :=
  mkSidecarNode (sn_node_id n) (sn_backend n) d (sn_relay_fanout n) (sn_sync_active n) (sn_ledger_data_dir n)
    (sn_attachment_config n) (sn_bundle_registry n) (sn_file_distribution n) (sn_runtimes n) (sn_peers n)
    (sn_configs n) (sn_configs_path n) (sn_mdns n) (sn_k8s_discovery n).

Definition with_peers (p : Peers (Id := Id)) (n : node) : node :=
  mkSidecarNode (sn_node_id n) (sn_backend n) (sn_docs n) (sn_relay_fanout n) (sn_sync_active n) (sn_ledger_data_dir n)
    (sn_attachment_config n) (sn_bundle_registry n) (sn_file_distribution n) (sn_runtimes n) p
    (sn_configs n) (sn_configs_path n) (sn_mdns n) (sn_k8s_discovery n).

Definition with_configs (c : ConfigStore) (n : node) : node :=
  mkSidecarNode (sn_node_id n) (sn_backend n) (sn_docs n) (sn_relay_fanout n) (sn_sync_active n) (sn_ledger_data_dir n)
    (sn_attachment_config n) (sn_bundle_registry n) (sn_file_distribution n) (sn_runtimes n) (sn_peers n)
    c (sn_configs_path n) (sn_mdns n) (sn_k8s_discovery n).

(** ** Handlers *)

Definition get_status (n : node) : answer :=
  let phase := if is_sync_active n then PhaseSyncing else PhaseReady in
  Ok (StatusIs (sn_node_id n) (endpoint_addr show_id n) (is_sync_active n) (connected_peer_count n) phase).

Definition rpc_connect_peer (o : RpcOutside) (endpoint_id : string) (addresses : list string) (relay_url : string) (n : node) : answer * node :=
  let '(r, p) := connect_peer parse_id (ro_now o) endpoint_id addresses relay_url (ro_dial o) (sn_peers n) in
  (map_ok (λ _, Done) (internal r), with_peers p n).

Definition rpc_disconnect_peer (endpoint_id : string) (n : node) : answer * node :=
  let '(r, p) := disconnect_peer parse_id endpoint_id (sn_peers n) in
  (map_ok (λ _, Done) (internal r), with_peers p n).

Definition rpc_list_peers (n : node) : answer :=
  Ok (PeersAre ((λ id, mkPbPeer id [] true) <$> list_peers show_id (sn_peers n))).

Definition rpc_put_document (o : RpcOutside) (collection doc_id json_data : string) (n : node) : answer * node :=
  let '(r, d) := put_document (ro_nonce o) collection doc_id json_data (sn_docs n) in
  (map_ok (λ _, Done) (internal r), with_docs d n).

Definition rpc_get_document (collection doc_id : string) (n : node) : answer :=
  map_ok DocumentIs (internal (get_document collection doc_id (sn_docs n))).

Definition rpc_delete_document (collection doc_id : string) (n : node) : answer * node :=
  let '(ok, d) := delete_document collection doc_id (sn_docs n) in
  ((if ok then Ok Done else Err (mkConnectError Internal "")), with_docs d n).

Definition rpc_list_documents (collection : string) (n : node) : answer :=
  map_ok DocIdsAre (internal (list_documents collection (sn_docs n))).

(** The four put handlers; [what] names the missing message. *)
Definition put_typed {T} (collection what : string) (id : T → string) (to_map : T → Value JNumber) (o : RpcOutside)
    (message : option T) (n : node) : answer * node :=
  match message with
  | None => (Err (mkConnectError InvalidArgument what), n)
  | Some t => rpc_put_document o collection (id t) (to_string (to_map t)) n
  end.

(** The four get handlers. *)
Definition list_typed {T} (collection : string) (parse : string → string → result string T) (respond : list T → Response)
    (n : node) : answer :=
  let? doc_ids := internal (list_documents collection (sn_docs n)) in
  map_ok respond (internal (get_typed parse (λ id, get_document collection id (sn_docs n)) doc_ids)).

Definition put_node := put_typed "nodes" "node" nd_id node_to_map.
Definition get_nodes := list_typed "nodes" map_to_node NodesAre.
Definition put_cell := put_typed "cells" "cell" cl_id cell_to_map.
Definition get_cells := list_typed "cells" map_to_cell CellsAre.
Definition put_track := put_typed "tracks" "track" tr_id track_to_map.
Definition get_tracks := list_typed "tracks" map_to_track TracksAre.
Definition put_command := put_typed "commands" "command" cm_id command_to_map.
Definition get_commands := list_typed "commands" map_to_command CommandsAre.

Definition rpc_start_sync (n : node) : answer * node :=
  let '(r, n) := start_sync n in (map_ok (λ _, Done) (internal r), n).

Definition rpc_stop_sync (n : node) : answer * node :=
  let '(r, n) := stop_sync n in (map_ok (λ _, Done) (internal r), n).

Definition get_sync_stats (o : RpcOutside) (n : node) : answer :=
  Ok (StatsAre (sync_stats (ro_bytes_sent o) (ro_bytes_received o) n)).

Definition set_config (o : RpcOutside) (config : option PbCollectionConfig) (n : node) : answer * node :=
  let '(r, c) := rpc_set_collection_config config (ro_write o) (sn_configs n) in
  (map_ok (λ _, Done) r, with_configs c n).

Definition get_config (collection : string) (n : node) : answer :=
  Ok (ConfigIs (rpc_get_collection_config collection (sn_configs n))).

Definition list_configs (n : node) : answer :=
  Ok (ConfigsAre (entry_to_proto_config <$> list_collection_configs (sn_configs n))).

(** The service's dispatch. *)
Definition serve (o : RpcOutside) (req : Request) (n : node) : answer * node :=
  match req with
  | GetStatus => (get_status n, n)
  | ConnectPeer endpoint_id addresses relay_url => rpc_connect_peer o endpoint_id addresses relay_url n
  | DisconnectPeer endpoint_id => rpc_disconnect_peer endpoint_id n
  | ListPeers => (rpc_list_peers n, n)
  | PutDocument collection doc_id json_data => rpc_put_document o collection doc_id json_data n
  | GetDocument collection doc_id => (rpc_get_document collection doc_id n, n)
  | DeleteDocument collection doc_id => rpc_delete_document collection doc_id n
  | ListDocuments collection => (rpc_list_documents collection n, n)
  | PutNode node => put_node o node n
  | GetNodes => (get_nodes n, n)
  | PutCell cell => put_cell o cell n
  | GetCells => (get_cells n, n)
  | PutTrack track => put_track o track n
  | GetTracks => (get_tracks n, n)
  | PutCommand command => put_command o command n
  | GetCommands => (get_commands n, n)
  | StartSync => rpc_start_sync n
  | StopSync => rpc_stop_sync n
  | GetSyncStats => (get_sync_stats o n, n)
  | SetCollectionConfig config => set_config o config n
  | GetCollectionConfig collection => (get_config collection n, n)
  | ListCollectionConfigs => (list_configs n, n)
  end.

Fixpoint serve_all (calls : list (RpcOutside * Request)) (n : node) : list answer * node :=
  match calls with
  | [] => ([], n)
  | (o, req) :: calls =>
      let '(a, n) := serve o req n in
      let '(answers, n) := serve_all calls n in (a :: answers, n)
  end.

End service.
