(* ===== verification/ServiceRpcFacts.v ===== *)
(** * The RPC service: errors, frames and typed documents end to end *)

From S2P Require Import Prelude Journal JournalFacts LedgerWorker Envelope ExclusionLedger Paths Crypto AttachConfig Registry BundleRuntime Fanout FanoutFacts NodeDocs NodeDocsFacts Json Service Peers PeersFacts NodeStart ServiceRpc.
From Stdlib Require Import Floats.SpecFloat Strings.Ascii.

(** Requests the service refuses as they stand. *)
Definition malformed (req : Request) : bool :=
  match req with
  | PutNode None | PutCell None | PutTrack None | PutCommand None | SetCollectionConfig None => true
  | SetCollectionConfig (Some c) => is_empty_str (pc_collection c)
  | _ => false
  end.

(** Requests that are always answered. *)
Definition infallible (req : Request) : bool :=
  match req with
  | GetStatus | ListPeers | StartSync | StopSync | GetSyncStats | GetCollectionConfig _ | ListCollectionConfigs => true
  | _ => false
  end.

(** The part of the node a request may change. *)
Inductive Part := PartNone | PartDocs | PartPeers | PartConfigs | PartSync.

#[global] Instance Part_eq_dec : EqDecision Part.
Proof. solve_decision. Defined.

Definition part_of (req : Request) : Part :=
  match req with
  | ConnectPeer _ _ _ | DisconnectPeer _ => PartPeers
  | PutDocument _ _ _ | DeleteDocument _ _ | PutNode _ | PutCell _ | PutTrack _ | PutCommand _ => PartDocs
  | SetCollectionConfig _ => PartConfigs
  | StartSync | StopSync => PartSync
  | _ => PartNone
  end.

(** Requests whose answer may depend on the sync switch. *)
Definition about_sync (req : Request) : bool :=
  match req with GetStatus | GetSyncStats | StartSync | StopSync => true | _ => false end.

Definition switches (req : Request) : option bool :=
  match req with StartSync => Some true | StopSync => Some false | _ => None end.

Section facts.
Context {sha : Sha256} `{CipherOps} `{Docs} `{J : JsonLib} `{ConfigFormat} {St E B D Id : Type} `{!DocStore St} `{!ExclusionOps E} `{Countable Id}.
Context (parse_id : string → option Id) (show_id : Id → string).

Abbreviation node := (SidecarNode (St := St) (E := E) (B := B) (D := D) (Id := Id)).
Abbreviation serve := (serve parse_id show_id).
Abbreviation serve_all := (serve_all parse_id show_id).
Implicit Types n : node.

Definition only (part : Part) n n' : Prop :=
  match part with
  | PartNone => n' = n
  | PartDocs => n' = with_docs (sn_docs n') n
  | PartPeers => n' = with_peers (sn_peers n') n
  | PartConfigs => n' = with_configs (sn_configs n') n
  | PartSync => n' = with_sync (sn_sync_active n') n
  end.

(** What a handler may answer to a request that is well formed. *)
Definition answered (a : result ConnectError Response) : Prop := is_ok a = true ∨ a = Err (mkConnectError Internal "").

Lemma answered_internal {X Y} (f : Y → Response) (r : result X Y) : answered (map_ok f (internal r)).
Proof. destruct r; [by left|by right]. Qed.

Lemma with_docs_self n : with_docs (sn_docs n) n = n.
Proof. by destruct n. Qed.

Lemma put_document_answer o c i json n a n' : rpc_put_document o c i json n = (a, n') → n' = with_docs (sn_docs n') n ∧ answered a.
Proof. unfold rpc_put_document. destruct (put_document _ _ _ _ _) as [r d]. intros [= <- <-]. split; [done|apply answered_internal]. Qed.

Lemma put_typed_answer {T} collection what (id : T → string) to_map o message n a n' :
  put_typed collection what id to_map o message n = (a, n') →
  n' = with_docs (sn_docs n') n ∧
  match message with None => a = Err (mkConnectError InvalidArgument what) ∧ n' = n | Some _ => answered a end.
Proof.
  destruct message as [t|]; [apply put_document_answer|]. intros [= <- <-]. by rewrite with_docs_self.
Qed.

Lemma list_typed_answer {T} collection (parse : string → string → result string T) respond n : answered (list_typed collection parse respond n).
Proof.
  unfold list_typed. destruct (list_documents _ _) as [ids|]; [|by right]. cbn. apply answered_internal.
Qed.

Lemma set_config_answer o config n a n' :
  set_config o config n = (a, n') →
  n' = with_configs (sn_configs n') n ∧
  (if malformed (SetCollectionConfig config) then ∃ what, a = Err (mkConnectError InvalidArgument what) ∧ n' = n else answered a).
Proof.
  unfold set_config, rpc_set_collection_config. destruct config as [cfg|]; cbn [malformed].
  - destruct (is_empty_str _); [intros [= <- <-]; split; [done|]; exists "collection"%string; by destruct n|].
    destruct (set_collection_config _ _ _) as [[] c]; intros [= <- <-]; (split; [done|]); [by left|by right].
  - intros [= <- <-]. split; [done|]. exists "config"%string. by destruct n.
Qed.

(** The answers to writes, by the request's part. *)
Lemma serve_write o req n a n' :
  part_of req ≠ PartNone → serve o req n = (a, n') →
  only (part_of req) n n' ∧
  (if malformed req then ∃ what, a = Err (mkConnectError InvalidArgument what) ∧ n' = n else answered a).
Proof.
  destruct req as [|e addrs relay|e| |c i j|c i|c i|c|m| |m| |m| |m| | | | |config|c|]; try done; intros _ Hs; cbn in Hs |- *.
  - unfold rpc_connect_peer in Hs. destruct (connect_peer _ _ _ _ _ _ _) as [r p]. simplify_eq. split; [done|apply answered_internal].
  - unfold rpc_disconnect_peer in Hs. destruct (disconnect_peer _ _ _) as [r p]. simplify_eq. split; [done|apply answered_internal].
  - by eapply put_document_answer.
  - unfold rpc_delete_document in Hs. destruct (delete_document _ _ _) as [[] d]; simplify_eq; (split; [done|]); [by left|by right].
  - apply put_typed_answer in Hs as [? ?]. split; [done|]. destruct m; eauto.
  - apply put_typed_answer in Hs as [? ?]. split; [done|]. destruct m; eauto.
  - apply put_typed_answer in Hs as [? ?]. split; [done|]. destruct m; eauto.
  - apply put_typed_answer in Hs as [? ?]. split; [done|]. destruct m; eauto.
  - unfold rpc_start_sync in Hs. cbn in Hs. simplify_eq. split; [done|by left].
  - unfold rpc_stop_sync in Hs. cbn in Hs. simplify_eq. split; [done|by left].
  - by apply set_config_answer in Hs.
Qed.

Lemma serve_read o req n : part_of req = PartNone → malformed req = false ∧ answered (serve o req n).1 ∧ (serve o req n).2 = n.
Proof.
  destruct req; try done; intros _; (split_and!; [done| |done]); cbn; try (by left); try apply answered_internal; apply list_typed_answer.
Qed.

Lemma serve_only o req n : only (part_of req) n (serve o req n).2.
Proof.
  destruct (decide (part_of req = PartNone)) as [Hp|Hp]; [rewrite Hp; by apply serve_read|].
  destruct (serve o req n) as [a n'] eqn:Hs. by apply (serve_write o req n a n' Hp).
Qed.

(** Errors say what went wrong, and only then: a request without its message, or a
    setting without a collection name, is refused as an invalid argument with the
    node untouched; any other request is answered or fails as an internal error;
    status, peer list, sync control and the readers of settings never fail; and
    every request changes at most its own part of the node (documents, peers,
    settings or the sync switch). *)
Theorem rpc_errors_exact o req n :
  let '(a, n') := serve o req n in
  (malformed req = true → ∃ what, a = Err (mkConnectError InvalidArgument what) ∧ n' = n) ∧
  (malformed req = false → is_ok a = true ∨ a = Err (mkConnectError Internal "")) ∧
  (infallible req = true → is_ok a = true) ∧
  only (part_of req) n n'.
Proof.
  assert (infallible req = true → is_ok (serve o req n).1 = true) as Hi by (by destruct req).
  destruct (serve o req n) as [a n'] eqn:Hs. cbn in Hi. destruct (decide (part_of req = PartNone)) as [Hp|Hp].
  - destruct (serve_read o req n Hp) as (Hm & Ha & Hn). rewrite Hs in Ha, Hn. cbn in *. subst. rewrite Hp, Hm. by split_and!.
  - destruct (serve_write o req n a n' Hp Hs) as [Ho Ha]. destruct (malformed req); by split_and!.
Qed.

(** ** The sync switch *)

Lemma put_document_with_sync b o c i json n :
  rpc_put_document o c i json (with_sync b n) = ((rpc_put_document o c i json n).1, with_sync b (rpc_put_document o c i json n).2).
Proof. unfold rpc_put_document. cbn. by destruct (put_document _ _ _ _ _). Qed.

Lemma put_typed_with_sync {T} b collection what (id : T → string) to_map o m n :
  put_typed collection what id to_map o m (with_sync b n) =
    ((put_typed collection what id to_map o m n).1, with_sync b (put_typed collection what id to_map o m n).2).
Proof. destruct m; [apply put_document_with_sync|done]. Qed.

Lemma serve_with_sync b o req n :
  about_sync req = false → serve o req (with_sync b n) = ((serve o req n).1, with_sync b (serve o req n).2).
Proof.
  destruct req as [|e addrs relay|e| |c i j|c i|c i|c|m| |m| |m| |m| | | | |config|c|]; try done; intros _; cbn; try done.
  - unfold rpc_connect_peer. cbn. by destruct (connect_peer _ _ _ _ _ _ _).
  - unfold rpc_disconnect_peer. cbn. by destruct (disconnect_peer _ _ _).
  - apply put_document_with_sync.
  - unfold rpc_delete_document. cbn. by destruct (delete_document _ _ _) as [[] d].
  - apply put_typed_with_sync.
  - apply put_typed_with_sync.
  - apply put_typed_with_sync.
  - apply put_typed_with_sync.
  - unfold set_config. cbn. by destruct (rpc_set_collection_config _ _ _).
Qed.

Lemma serve_all_with_sync b calls n :
  Forall (λ c, about_sync c.2 = false) calls →
  serve_all calls (with_sync b n) = ((serve_all calls n).1, with_sync b (serve_all calls n).2).
Proof.
  intros Hc. revert n. induction Hc as [|[o req] calls Hr _ IH]; intros n; [done|]. cbn in Hr |- *.
  rewrite (serve_with_sync b o req n Hr). destruct (serve o req n) as [a n1]. cbn. rewrite IH. by destruct (serve_all calls n1).
Qed.

(** Stopping sync stops nothing: after a stop request every request but the ones
    that report or set the switch is answered as if it had not been made, with the
    same effect on documents, peers and settings, and changes are queued for the
    peers as before. *)
Theorem stop_sync_stops_nothing `{Qos} calls key n :
  Forall (λ c, about_sync c.2 = false) calls →
  (serve_all calls (rpc_stop_sync n).2).1 = (serve_all calls n).1 ∧
  (serve_all calls (rpc_stop_sync n).2).2 = with_sync false (serve_all calls n).2 ∧
  sn_relay_fanout (queue_document_sync_with_all_peers key (rpc_stop_sync n).2) = sn_relay_fanout (queue_document_sync_with_all_peers key n).
Proof. intros Hc. cbn [rpc_stop_sync stop_sync snd]. by rewrite (serve_all_with_sync false calls n Hc). Qed.

Lemma serve_sync_active o req n : sn_sync_active (serve o req n).2 = default (sn_sync_active n) (switches req).
Proof.
  pose proof (serve_only o req n) as Ho. destruct (serve o req n) as [a n'] eqn:Hs.
  destruct req; cbn in Ho, Hs |- *; try (by rewrite Ho); by simplify_eq/=.
Qed.

(** The phase a client sees is the last switch: after any sequence of requests the
    status says syncing exactly when the last start or stop request was a start, or
    there was none and the node was syncing before. *)
Theorem phase_is_last_switch calls n :
  let active := default (sn_sync_active n) (last (omap (switches ∘ snd) calls)) in
  ∃ id addr peers, get_status show_id (serve_all calls n).2 = Ok (StatusIs id addr active peers (if active then PhaseSyncing else PhaseReady)).
Proof.
  cbn zeta. assert (sn_sync_active (serve_all calls n).2 = default (sn_sync_active n) (last (omap (switches ∘ snd) calls))) as <-; [|by eauto].
  revert n. induction calls as [|[o req] calls IH]; intros n; [done|]. cbn. pose proof (serve_sync_active o req n) as Hs.
  destruct (serve o req n) as [a n1]. cbn in Hs. specialize (IH n1). destruct (serve_all calls n1) as [answers n2]. cbn in IH |- *. rewrite IH, Hs.
  destruct (switches req) as [b|]; cbn; [|done]. by destruct (omap (switches ∘ snd) calls) as [|x l]; cbn; [|destruct (last (x :: l)) eqn:Hl; [|by apply last_None in Hl]].
Qed.

End facts.

(** ** Typed documents, end to end *)

(** The store lists what it holds. *)
Class DocStoreScan (St : Type) `{DocStore St} := {
  scan_lists p st entries k d :
    scan_prefix p st = Some entries → starts_with k p = true → store_get k st = Some (Some d) → k ∈ entries.*1;
}.

Section typed.
Context {sha : Sha256} `{CipherOps} `{!CipherLaws} `{Docs} `{!DocsLaws} `{J : JsonLib} `{!JsonLaws} {St E B D Id : Type}
  `{!DocStore St} `{!DocStoreLaws St} `{!DocStoreScan St} `{!ExclusionOps E} `{!ExclusionLaws E} `{Countable Id}.

Abbreviation node := (SidecarNode (St := St) (E := E) (B := B) (D := D) (Id := Id)).
Implicit Types n : node.

(** [v'] has what [v] has. *)
Definition agrees (v' v : Value JNumber) : Prop := ∀ field, value_get field v ≠ None → value_get field v' = value_get field v.

(** The store keeps a value's fields through Automerge, where no cipher hides them. *)
Definition faithful (v : Value JNumber) : Prop :=
  text_faithful v ∧
  ∀ parsed base d, json_parse (to_string v) = Some parsed → json_to_automerge parsed base = Some d →
    encrypted_value (automerge_to_json d) = None ∧
    ∃ t v', json_text (automerge_to_json d) = Some t ∧ from_str t = Ok v' ∧ agrees v' v.

(** What a put relies on: the value is representable, and under a cipher the nonce
    has its length and the text is UTF-8. *)
Definition storable (o : RpcOutside) n (v : Value JNumber) : Prop :=
  faithful v ∧ (is_Some (nd_cipher (sn_docs n)) → length (ro_nonce o) = 12%nat ∧ is_Some (chars (str_bytes (to_string v)))).

Lemma put_reads_back o c i v n n' :
  rpc_put_document o c i (to_string v) n = (Ok Done, n') → storable o n v → is_Some (store_get (doc_key c i) (nd_store (sn_docs n'))) →
  ∃ t v', get_document c i (sn_docs n') = Ok (Some t) ∧ from_str t = Ok v' ∧ agrees v' v.
Proof.
  unfold rpc_put_document. destruct (put_document _ c i _ _) as [r d] eqn:Hput. intros [= Hr <-] [[Htext Ham] Hc] [x Hx]. cbn in Hx |- *.
  destruct r as [[]|]; [|done]. destruct (nd_cipher (sn_docs n)) as [cipher|] eqn:Hcip.
  - destruct (Hc ltac:(done)) as [Hn Hu]. destruct (put_get_encrypted cipher _ _ _ _ _ _ Hcip Hn Hu Hput) as [Hg|Hg]; [|congruence].
    destruct Htext as (v' & Hp & Hf). exists (to_string v), v'. split_and!; [done|done|]. intros field _. apply Hf.
  - apply put_document_Ok in Hput as (parsed & base & doc & st & Hp & Hcip' & Hb & Hput). unfold build_document in Hb. rewrite Hcip', Hcip in Hb.
    destruct (json_to_automerge parsed base) as [d'|] eqn:Hconv; simplify_eq/=. destruct (Ham _ _ _ Hp Hconv) as (He & t & v' & Ht & Hfs & Hag).
    destruct (put_get _ _ _ _ Hput) as [Hg|Hg]; [|congruence]. exists t, v'. split_and!; [|done|done].
    unfold get_document. by rewrite Hg, He, Ht.
Qed.

Lemma list_has c i n ids t :
  list_documents c (sn_docs n) = Ok ids → get_document c i (sn_docs n) = Ok (Some t) → i ∈ ids.
Proof.
  unfold list_documents, get_document. destruct (scan_prefix _ _) as [entries|] eqn:Hs; cbn; intros Hl Hg; simplify_eq.
  destruct (store_get _ _) as [[doc|]|] eqn:Hd; try done.
  assert (doc_key c i = (c +:+ ":") +:+ i) as Hk by (unfold doc_key; by rewrite string_app_assoc).
  pose proof (scan_lists _ _ _ (doc_key c i) doc Hs) as Hin. rewrite Hk in Hin, Hd. apply list_elem_of_fmap in Hin as (p & Hp & Hin).
  2: { apply starts_with_spec. by exists i. }
  2: { done. }
  apply list_elem_of_omap. exists p. split; [done|]. rewrite <-Hp. apply strip_prefix_app.
Qed.

Lemma get_typed_has {T} (parse : string → string → result string T) read ids l i t x :
  get_typed parse read ids = Ok l → i ∈ ids → read i = Ok (Some t) → parse i t = Ok x → x ∈ l.
Proof.
  revert l. induction ids as [|j ids IH]; intros l Hg Hi Hr Hp; [by apply elem_of_nil in Hi|]. cbn in Hg.
  destruct (read j) as [doc|] eqn:Hj; cbn in Hg; [|done]. destruct (get_typed parse read ids) as [rest|] eqn:Hrest; cbn in Hg; [|done].
  injection Hg as <-. apply elem_of_cons in Hi as [->|Hi]; [rewrite Hj in Hr; simplify_eq; rewrite Hp; left|].
  specialize (IH rest eq_refl Hi Hr Hp). destruct doc as [json|]; [|done]. destruct (parse j json); [by right|done].
Qed.

(** A put of a typed document, then the listing of its collection. *)
Lemma put_then_list {T} c what (id : T → string) to_map parse (respond : list T → Response) (stored : T → T) o x n n' l :
  (∀ v' t, from_str t = Ok v' → agrees v' (to_map x) → parse (id x) t = Ok (stored x)) →
  put_typed c what id to_map o (Some x) n = (Ok Done, n') → storable o n (to_map x) →
  is_Some (store_get (doc_key c (id x)) (nd_store (sn_docs n'))) →
  (∀ l l', respond l = respond l' → l = l') → list_typed c parse respond n' = Ok (respond l) → stored x ∈ l.
Proof.
  intros Hparse Hput Hst Hsome Hinj Hlist. destruct (put_reads_back _ _ _ _ _ _ Hput Hst Hsome) as (t & v' & Hg & Hfs & Hag).
  unfold list_typed in Hlist. destruct (list_documents c _) as [ids|] eqn:Hids; cbn in Hlist; [|done].
  destruct (get_typed parse _ ids) as [l'|] eqn:Hgt; simplify_eq/=. rewrite (Hinj _ _ Hlist) in Hgt.
  eapply get_typed_has; [exact Hgt|by eapply list_has|exact Hg|by eapply Hparse].
Qed.

(** A reader sees in a value that agrees with what was written what was written. *)
Lemma parse_agrees {T} (f : Value JNumber → T) v v' t x :
  text_faithful v → (∀ w, agrees w v → f w = f v) → parse_object (to_string v) f = Ok x →
  from_str t = Ok v' → agrees v' v → parse_object t f = Ok x.
Proof.
  intros (v0 & Hp & Hf) Hw Hx Ht Hag. unfold parse_object in *. rewrite Hp in Hx. rewrite Ht. cbn in *.
  rewrite Hw in Hx by (intros field _; apply Hf). by rewrite Hw.
Qed.

Ltac known_fields Hg :=
  unfold get_str, get_opt_str, get_f64, get_i64, get_u64, get_strings, value_index; rewrite !Hg by (vm_compute; discriminate); done.


End typed.

(** ** Witnesses

    Documents that are JSON values, in a map, on a node without encryption. *)

#[local] Existing Instances toy_sha toy_cipher toy_cipher_laws toy_service_json toy_format.

Definition value_docs : Docs := {|
  Json := Value ToyNumber;
  Doc := Value ToyNumber;
  json_parse s := match from_str s with Ok v => Some v | Err _ => None end;
  json_text j := Some (to_string j);
  json_value_str j := value_get "value" j ≫= value_as_str;
  json_wrap s := VObject [("value"%string, VString s)];
  json_to_automerge j base := Some j;
  automerge_to_json d := d;
  encoded_len d := 0;
  doc_root d := [];
|}.

Definition value_store : @DocStore (gmap string (Value ToyNumber)) value_docs := {|
  store_get k st := Some (st !! k);
  store_put k d st := (true, <[k := d]> st);
  store_delete k st := (true, delete k st);
  keys_with_prefix p st := Some (List.filter (λ k, starts_with k p) (map_to_list st).*1);
  scan_prefix p st := Some (filter (λ x, starts_with x.1 p = true) (map_to_list st));
|}.

#[local] Existing Instances value_docs value_store.

#[local] Instance value_json_laws : JsonLaws := toy_json_laws _ _.

#[local] Instance value_docs_laws : DocsLaws.
Proof. constructor. by intros s base d [= <-]. Qed.

#[local] Instance value_store_laws : DocStoreLaws (gmap string (Value ToyNumber)).
Proof. constructor. intros k d st st' [= <-]. left. cbn. by rewrite lookup_insert_eq. Qed.

#[local] Instance value_store_scan : DocStoreScan (gmap string (Value ToyNumber)).
Proof.
  constructor. intros p st entries k d [= <-] Hk [= Hd]. apply list_elem_of_fmap. exists (k, d). split; [done|].
  apply list_elem_of_filter. split; [done|]. by apply elem_of_map_to_list.
Qed.

Abbreviation toy_sidecar := (SidecarNode (St := gmap string (Value ToyNumber)) (E := Worker * Fs) (B := unit) (D := unit) (Id := string)).

Definition fresh_sidecar : toy_sidecar :=
  mkSidecarNode "node" (mkBackend ∅ tt "id"%string []) (NodeDocs.mkNode ∅ None None []) fanout_new true "/data"
    attachment_config_default registry_new None ∅ peers_new (load_configs None) "/data/collection_configs.json" false false.

Definition toy_rpc : RpcOutside := mkRpcOutside [] 0 (mkDial (λ a, Ok [a]) (λ _, Ok tt) (λ _, Ok tt)) Written 0 0.

Lemma toy_faithful : faithful (node_to_map Service.toy_node).
Proof.
  split; [eexists; split; [vm_compute; reflexivity|done]|]. intros parsed base d Hp [= <-]. vm_compute in Hp. injection Hp as <-.
  split; [vm_compute; reflexivity|]. eexists _, _. split_and!; [reflexivity|vm_compute; reflexivity|done].
Qed.


Lemma stop_sync_stops_nothing_witness :
  (serve_all toy_parse id [(toy_rpc, PutNode (Some Service.toy_node)); (toy_rpc, ListDocuments "nodes")] (rpc_stop_sync fresh_sidecar).2).1 =
    [Ok Done; Ok (DocIdsAre ["n"%string])].
Proof.
  refine (eq_trans (proj1 (stop_sync_stops_nothing (H3 := toy_qos) toy_parse id
    [(toy_rpc, PutNode (Some Service.toy_node)); (toy_rpc, ListDocuments "nodes")] "nodes:n" fresh_sidecar _)) _); [by repeat constructor|].
  vm_compute. reflexivity.
Defined.
