(* ===== verification/Relay.v ===== *)
(** * The bridges as one system

    Composition of the bridge's components over several nodes: each bridge runs
    its subscription readers ([Lifecycle.read_message]), the serial ingress
    processor ([Ingress.process_item]) with the node itself as the document writer,
    the forwarding of remote changes ([NodeDocs.forward_remote]), the candidates of
    reconciliation ([NodeDocs.reconciliation_candidate]) and the egress pipeline
    ([Egress.step]); brokers and the mesh connect them.

    The environment is modelled by its steps. A broker keeps what was published to
    it and may deliver a message to a subscribed bridge at most once, in any order,
    its own publications included. The mesh may copy any document of one store into
    another at any time and announce any key as changed by a peer. Every document
    id is drawn by the environment, repetitions included. A restart loses the queued
    work of a node and keeps what its journals and its store hold. *)

From S2P Require Import Prelude Journal JournalFacts LedgerWorker LedgerWorkerFacts Readiness Envelope NatsConfig RateLimit Egress EgressLedger.
From S2P Require Import EgressFacts Preflight Crypto NodeDocs ExclusionLedger NodeDocsFacts Ingress IngressFacts Lifecycle.
From Stdlib Require Import Strings.Ascii.

(** ** The node as the ingress processor's writer *)

(** [impl BridgeDocumentWriter for Arc<SidecarNode>]; the first component counts
    the nonces drawn so far. *)
#[export] Instance node_writer {sha : Sha256} `{CipherOps} `{D : Docs} {St : Type} `{!DocStore St} {E : Type} `{!ExclusionOps E}
    (nonce : nat → bytes) : BridgeDocumentWriter (nat * Node St E) := {
  create_document c d j w :=
    let '(r, n) := create_bridge_document (nonce w.1) c d j w.2 in (r, (S w.1, n));
}.

(** ** State *)

(** [br_sources] holds, for every item the readers queued, the broker message it
    came from, and [br_taken] how many of them the processor has taken. *)
Record Bridge (St E L : Type) := mkBridge {
  br_id : string;
  br_broker : nat;
  br_mappings : list SubjectMapping;
  br_reader : Reader;
  br_sources : list nat;
  br_delivered : list nat;
  br_taken : nat;
  br_processor : Processor (nat * Node St E);
  br_pipe : Pipeline L;
}.
Arguments mkBridge {St E L}. Arguments br_id {St E L}. Arguments br_broker {St E L}. Arguments br_mappings {St E L}.
Arguments br_reader {St E L}. Arguments br_sources {St E L}. Arguments br_delivered {St E L}. Arguments br_taken {St E L}.
Arguments br_processor {St E L}. Arguments br_pipe {St E L}.

(** A message on a broker: published by an application, or by a bridge. *)
Record LogEntry := mkEntry { le_broker : nat; le_from : option nat; le_message : Message }.

(** The document of an accepted message: the bridge, the broker message, the
    mapped collection, the id drawn and the payload. *)
Record Creation := mkCreation {
  cr_bridge : nat;
  cr_message : nat;
  cr_collection : string;
  cr_doc_id : string;
  cr_envelope : BridgeEnvelope;
}.

(** [sy_created] records the documents accepted messages were turned into. *)
Record System (St E L : Type) := mkSystem {
  sy_bridges : list (Bridge St E L);
  sy_log : list LogEntry;
  sy_created : list Creation;
}.
Arguments mkSystem {St E L}. Arguments sy_bridges {St E L}. Arguments sy_log {St E L}.
Arguments sy_created {St E L}.

Inductive SysStep :=
| AppPublish (broker : nat) (m : Message)
| DeliverTo (i k : nat) (view : ReaderView)
| IngestNext (i : nat) (doc_id : string)
| SummaryAt (i : nat)
| Replicate (i j : nat) (key : string)
| RemoteChange (j : nat) (key peer : string) (now : Z)
| ReconcileKey (j : nat) (collection doc_id : string) (now : Z)
| PipeStep (j : nat) (s : Step)
| RestartAt (j : nat) (status : BridgeStatus).

Section system.
Context {sha : Sha256} `{Serde} `{CipherOps} `{D : Docs} {St : Type} `{!DocStore St} {E : Type} `{!ExclusionOps E} {L : Type} `{!LedgerOps L}.
Context (nonce : string → nat → bytes).
Implicit Types (b : Bridge St E L) (s : System St E L).

Definition br_node b : Node St E := (ip_writer (br_processor b)).2.

Definition with_reader (r : Reader) (sources delivered : list nat) b : Bridge St E L :=
  mkBridge (br_id b) (br_broker b) (br_mappings b) r sources delivered (br_taken b) (br_processor b) (br_pipe b).
Definition with_processor (taken : nat) (p : Processor (nat * Node St E)) b : Bridge St E L :=
  mkBridge (br_id b) (br_broker b) (br_mappings b) (br_reader b) (br_sources b) (br_delivered b) taken p (br_pipe b).
Definition with_pipe (p : Pipeline L) b : Bridge St E L :=
  mkBridge (br_id b) (br_broker b) (br_mappings b) (br_reader b) (br_sources b) (br_delivered b) (br_taken b) (br_processor b) p.
Definition with_node (n : Node St E) b : Bridge St E L :=
  with_processor (br_taken b) (set_writer ((ip_writer (br_processor b)).1, n) (br_processor b)) b.

Definition set_bridge (i : nat) b s : System St E L :=
  mkSystem (<[i := b]> (sy_bridges s)) (sy_log s) (sy_created s).

(** The subscription a subject is read by. *)
Definition mapping_of (subj : string) b : option SubjectMapping :=
  List.find (λ m, bool_decide (subject m = subj)) (br_mappings b).

(** One message read by its subscription's reader, which waits while the shared
    queue is full. *)
Definition deliver_to (i k : nat) (view : ReaderView) s : option (System St E L) :=
  b ← sy_bridges s !! i;
  e ← sy_log s !! k;
  m ← mapping_of (m_subject (le_message e)) b;
  if bool_decide (le_broker e = br_broker b) && bool_decide (k ∉ br_delivered b)
     && Nat.ltb (length (rd_sent (br_reader b)) - br_taken b) INGRESS_QUEUE_CAPACITY
  then
    let r := (read_message (collection m) (br_id b) view (le_message e) (br_reader b)).2 in
    let sources := if Nat.ltb (length (rd_sent (br_reader b))) (length (rd_sent r)) then br_sources b ++ [k] else br_sources b in
    Some (set_bridge i (with_reader r sources (br_delivered b ++ [k]) b) s)
  else None.

(** The processor takes the next queued item and draws the document's id. *)
Definition ingest_next (i : nat) (doc_id : string) s : option (System St E L) :=
  b ← sy_bridges s !! i;
  item ← rd_sent (br_reader b) !! br_taken b;
  k ← br_sources b !! br_taken b;
  let p := process_item (H0 := node_writer (nonce (br_id b))) (br_id b) item doc_id (br_processor b) in
  let created :=
    match from_payload (ii_subject item) (br_id b) (ii_payload item) with
    | Ok envelope => sy_created s ++ [mkCreation i k (ii_collection item) doc_id envelope]
    | Err _ => sy_created s
    end in
  Some (mkSystem (<[i := with_processor (S (br_taken b)) p b]> (sy_bridges s)) (sy_log s) created).

(** The mesh copies a document of one store into another. *)
Definition replicate_doc (i j : nat) (key : string) s : option (System St E L) :=
  b ← sy_bridges s !! i;
  b' ← sy_bridges s !! j;
  found ← store_get key (nd_store (br_node b));
  doc ← found;
  let st := (store_put key doc (nd_store (br_node b'))).2 in
  Some (set_bridge j (with_node (NodeDocs.with_store st (br_node b')) b') s).

(** What was handed to the client, as a broker message. *)
Definition publication (j : nat) b (x : string * string * EgressItem) : LogEntry :=
  mkEntry (br_broker b) (Some j) (mkMessage (item_subject x.2) (Some [x.1]) (item_payload x.2)).

(** The publications of a pipeline step. *)
Definition publications (j : nat) b (p : Pipeline L) : list LogEntry :=
  publication j b <$> drop (length (p_client (br_pipe b))) (p_client p).

Definition pipe_step (j : nat) (st : Step) s : option (System St E L) :=
  b ← sy_bridges s !! j;
  match step (br_id b) st (br_pipe b) with
  | Next p => Some (mkSystem (<[j := with_pipe p b]> (sy_bridges s)) (sy_log s ++ publications j b p) (sy_created s))
  | Stuck | Panic => None
  end.

(** A notification of the mesh; what is not forwarded is counted by the observer. *)
Definition remote_change (j : nat) (key peer : string) (now : Z) s : option (System St E L) :=
  b ← sy_bridges s !! j;
  match forward_remote key peer (br_node b) with
  | Ok (Some ev) => pipe_step j (Offer ev now) s
  | _ => Some s
  end.

Definition reconcile_key (j : nat) (collection doc_id : string) (now : Z) s : option (System St E L) :=
  b ← sy_bridges s !! j;
  exclusion ← nd_ledger (br_node b) ≫= il_exclusion;
  let '(r, e) := reconciliation_candidate collection doc_id (br_node b) exclusion in
  let s := set_bridge j (with_node (NodeDocs.with_exclusion e (br_node b)) b) s in
  match r with
  | Ok (_, Some ev) => pipe_step j (Offer ev now) s
  | _ => Some s
  end.

(** The process is started again: the readers' queue, the suspended deliveries and
    the egress FIFO are gone; the journal and the store are kept. [p_client] stays
    the record of what was handed to the broker. *)
Definition restart_at (j : nat) (status : BridgeStatus) s : option (System St E L) :=
  b ← sy_bridges s !! j;
  let subjects := subject <$> br_mappings b in
  let p := with_client (p_client (br_pipe b)) (coordinator_new (br_mappings b) (br_id b) (p_ledger (br_pipe b)) status) in
  let proc := processor_new subjects (ip_writer (br_processor b)) in
  let r := mkReader ingress_stats_default (ingress_diagnostics_new ((λ m, (subject m, collection m)) <$> br_mappings b)) (rd_sent (br_reader b)) in
  Some (set_bridge j (with_pipe p (with_processor (length (rd_sent (br_reader b))) proc
    (with_reader r (br_sources b) (br_delivered b) b))) s).

Definition sys_step (st : SysStep) s : option (System St E L) :=
  match st with
  | AppPublish broker m => Some (mkSystem (sy_bridges s) (sy_log s ++ [mkEntry broker None m]) (sy_created s))
  | DeliverTo i k view => deliver_to i k view s
  | IngestNext i doc_id => ingest_next i doc_id s
  | SummaryAt i =>
      b ← sy_bridges s !! i;
      Some (set_bridge i (with_processor (br_taken b) (emit_invalid_summaries (br_processor b)) b) s)
  | Replicate i j key => replicate_doc i j key s
  | RemoteChange j key peer now => remote_change j key peer now s
  | ReconcileKey j collection doc_id now => reconcile_key j collection doc_id now s
  | PipeStep _ (Offer _ _) => None
  | PipeStep j st => pipe_step j st s
  | RestartAt j status => restart_at j status s
  end.

Fixpoint sys_run (steps : list SysStep) s : option (System St E L) :=
  match steps with
  | [] => Some s
  | st :: steps' => s' ← sys_step st s; sys_run steps' s'
  end.

(** A bridge that has just started on a node: nothing read, nothing queued. *)
Definition bridge_new (id : string) (broker : nat) (mappings : list SubjectMapping) (n : Node St E) (l : L) (status : BridgeStatus)
  : Bridge St E L :=
  mkBridge id broker mappings
    (mkReader ingress_stats_default (ingress_diagnostics_new ((λ m, (subject m, collection m)) <$> mappings)) [])
    [] [] O (processor_new (subject <$> mappings) (O, n)) (coordinator_new mappings id l status).

Definition system_new (bridges : list (Bridge St E L)) : System St E L := mkSystem bridges [] [].

End system.

(** * The bridges relay without loops

    End-to-end properties of [Relay]: when no two bridges share a broker, what a
    bridge publishes corresponds one to one to messages applications published on
    other brokers, with the same subject and bytes, and no bridge ever takes in what
    a bridge published. Two bridges on one broker feed each other: one message is
    published as often as documents can be created. *)

#[local] Open Scope Z_scope.

(** ** What the composition relies on of the libraries *)

(** The store holds what was put: a document it returns was put under its key. *)
Class StoreContents (St : Type) `{DocStore St} := {
  stored : St → string → Doc → Prop;
  get_stored k st d : store_get k st = Some (Some d) → stored st k d;
  put_stored k d st k' d' : stored (store_put k d st).2 k' d' → (k' = k ∧ d' = d) ∨ stored st k' d';
}.

(** An envelope survives its way through the JSON text, the document and back. *)
Class EnvelopeDocs `{Serde} `{Docs} := {
  envelope_document e j d :
    0 ≤ env_version e ≤ U32_MAX → json_parse (envelope_to_json e) = Some j → json_to_automerge j None = Some d →
    json_value_str (automerge_to_json d) = None ∧
    ∀ text, json_text (automerge_to_json d) = Some text → envelope_from_json text = Some e;
}.

Section documents.
Context {sha : Sha256} `{Serde} `{CipherOps} `{D : Docs} {St : Type} `{!DocStore St, !StoreContents St}.
Context {E : Type} `{!ExclusionOps E}.
Context `{!CipherLaws, !DocsLaws, !EnvelopeDocs}.
Implicit Types n : Node St E.

(** Wherever the document is read with this cipher, it reads as the envelope. *)
Definition encodes (cipher : option StoreCipher) (d : Doc) (env : BridgeEnvelope) : Prop :=
  ∀ n text, nd_cipher n = cipher → hydrate d n = Ok text → envelope_from_json text = Some env.

Lemma hydrate_text d n text :
  hydrate d n = Ok text →
  match encrypted_value (automerge_to_json d) with
  | Some enc => ∃ c, nd_cipher n = Some c ∧ decrypt c enc = Ok text
  | None => json_text (automerge_to_json d) = Some text
  end.
Proof.
  unfold hydrate. case_match; [done|]. destruct (preflight_event_document _) as [[]|]; try done.
  destruct (encrypted_value _) as [enc|].
  - destruct (nd_cipher n) as [c|]; [|done]. destruct (decrypt c enc) as [t|] eqn:Hd; cbn; [|done].
    case_match; intros; simplify_eq. by exists c.
  - unfold ok_or. destruct (json_text _) as [t|]; [|done]. case_match; intros; by simplify_eq.
Qed.

(** Decrypting what was encrypted gives nothing else. *)
Lemma decrypt_encrypted c nc plain enc text :
  length nc = 12%nat → encrypt c nc plain = Ok enc → decrypt c enc = Ok text → is_encrypted enc = true ∧ text = plain.
Proof.
  unfold encrypt, decrypt, is_encrypted, ok_or. intros Hn He Hd.
  destruct (aead_encrypt _ nc _) as [ct|] eqn:Ha; [|done]. injection He as <-. rewrite strip_prefix_app in Hd.
  rewrite base64_roundtrip in Hd. case_match; [done|]. rewrite take_app_length', drop_app_length' in Hd by done.
  rewrite (aead_roundtrip _ _ _ _ Hn Ha) in Hd. destruct (from_utf8 _) as [t|] eqn:Hu; [|done]. injection Hd as ->.
  split; [apply starts_with_spec; by eexists|]. apply from_utf8_Some in Hu as [Hu _]. by apply str_bytes_inj.
Qed.

Lemma build_encodes nc env parsed n d :
  0 ≤ env_version env ≤ U32_MAX → length nc = 12%nat → json_parse (envelope_to_json env) = Some parsed →
  envelope_from_json (envelope_to_json env) = Some env →
  build_document nc (envelope_to_json env) parsed None n = Ok d → encodes (nd_cipher n) d env.
Proof.
  intros Hv Hn Hp Hrt Hb m text Hc Hh%hydrate_text. unfold build_document in Hb. rewrite <-Hc in Hb.
  destruct (nd_cipher m) as [c|] eqn:Hcm.
  - destruct (encrypt c nc _) as [enc|] eqn:He; cbn in Hb; [|done].
    destruct (json_to_automerge _ _) as [d'|] eqn:Hj; cbn in Hb; [|done]. injection Hb as ->.
    unfold encrypted_value in Hh. rewrite (wrapped_value _ _ _ Hj) in Hh.
    assert (is_encrypted enc = true) as Henc.
    { unfold encrypt, ok_or in He. destruct (aead_encrypt _ _ _); [|done]. injection He as <-. apply starts_with_spec. by eexists. }
    rewrite Henc in Hh. destruct Hh as (c' & [= <-] & Hd). by destruct (decrypt_encrypted _ _ _ _ _ Hn He Hd) as [_ ->].
  - destruct (json_to_automerge _ _) as [d'|] eqn:Hj; cbn in Hb; [|done]. injection Hb as ->.
    destruct (envelope_document env parsed d Hv Hp Hj) as [Hval Htext]. unfold encrypted_value in Hh. rewrite Hval in Hh. auto.
Qed.

(** ** Ingress writes only the document of its item *)

Lemma write_document_stored nc c i json n r n' :
  write_document nc c i json CreateOnly n = (r, n') →
  nd_cipher n' = nd_cipher n ∧
  ∀ k d, stored (nd_store n') k d → stored (nd_store n) k d ∨
    (k = doc_key c i ∧ ∃ parsed n1, json_parse json = Some parsed ∧ nd_cipher n1 = nd_cipher n ∧
       build_document nc json parsed None n1 = Ok d).
Proof.
  unfold write_document. intros Hrun. destruct (json_parse json) as [parsed|] eqn:Hp; [|simplify_eq; by eauto].
  assert (∃ rl n1, record_local_exclusion c i n = (rl, n1) ∧ nd_cipher n1 = nd_cipher n ∧ nd_store n1 = nd_store n) as (rl & n1 & Hl & Hc & Hs).
  { unfold record_local_exclusion. repeat case_match; by eauto. }
  rewrite Hl in Hrun. rewrite <-Hs. destruct rl as [[]|]; [|simplify_eq; rewrite Hc; eauto].
  destruct (store_get _ _) as [[doc|]|]; [simplify_eq; rewrite Hc; eauto| |simplify_eq; rewrite Hc; eauto].
  destruct (build_document nc json parsed None n1) as [doc|e] eqn:Hb; [|simplify_eq; rewrite Hc; eauto].
  destruct (store_put _ _ _) as [ok st] eqn:Hput. simplify_eq. split; [done|]. cbn. intros k d Hk.
  replace st with (store_put (doc_key c i) doc (nd_store n1)).2 in Hk by (by rewrite Hput).
  apply put_stored in Hk as [[-> ->]|Hk]; [right|by left]. split; [done|]. by exists parsed, n1.
Qed.

End documents.

(** What every create call keeps, the retry loop keeps. *)
Lemma store_loop_writer `{Serde} {W} `{BridgeDocumentWriter W} (P : W → Prop) item d j attempt delays p :
  (∀ w, P w → P (create_document (ii_collection item) d j w).2) → P (ip_writer p) →
  P (ip_writer (store_loop item d j attempt delays p)).
Proof.
  intros Hstep. revert attempt p. induction delays as [|delay rest IH]; intros attempt p Hp; cbn [store_loop]; [done|].
  pose proof (Hstep _ Hp) as Hw. destruct (create_document _ _ _ _) as [r w]. cbn in Hw.
  destruct r; [done|]. destruct delay; [|done]. destruct (is_transient _); [by apply IH|done].
Qed.

Lemma process_item_writer `{Serde} {W} `{BridgeDocumentWriter W} (P : W → Prop) source item d p :
  (∀ env w, from_payload (ii_subject item) source (ii_payload item) = Ok env → P w →
     P (create_document (ii_collection item) d (envelope_to_json env) w).2) →
  P (ip_writer p) → P (ip_writer (process_item source item d p)).
Proof.
  intros Hstep Hp. unfold process_item. destruct (from_payload _ _ _) as [env|error] eqn:He.
  - apply store_loop_writer; [|done]. intros w. by apply Hstep.
  - unfold record_invalid. destruct error; cbn; repeat case_match; done.
Qed.

(** ** Items in the pipeline *)

Section items.
Context {sha : Sha256} `{Serde} {L : Type} `{!LedgerOps L} (origin : string).
Implicit Types p : Pipeline L.

Definition items_ok (P : EgressItem → Prop) p : Prop :=
  Forall P (p_queue p) ∧ Forall (λ x, P x.1) (p_inflight p) ∧ Forall (λ x, P x.2) (p_client p).

(** A step that neither admits nor publishes an item. *)
Definition items_kept p p' : Prop :=
  p_classifier p' = p_classifier p ∧ p_client p' = p_client p ∧
  ∀ P : EgressItem → Prop, items_ok P p → items_ok P p'.

Lemma items_kept_trans p1 p2 p3 : items_kept p1 p2 → items_kept p2 p3 → items_kept p1 p3.
Proof. intros (C1 & K1 & I1) (C2 & K2 & I2). split_and!; [congruence..|auto]. Qed.

Lemma record_action_kept kind r b now p p' : record_action kind r b now p = Next p' → items_kept p p'.
Proof. unfold record_action, diagnose. intros. case_match; by simplify_eq. Qed.

Lemma worker_failure_kept kind item now p p' : worker_failure kind item now p = Next p' → items_kept p p'.
Proof.
  unfold worker_failure. intros Hw. destruct kind; try done; apply record_action_kept in Hw.
  all: by eapply items_kept_trans; [|exact Hw].
Qed.

Lemma items_kept_sub p p' :
  p_classifier p' = p_classifier p → p_client p' = p_client p →
  (∀ item, item ∈ p_queue p' → item ∈ p_queue p ∨ item ∈ (p_inflight p).*1) →
  (∀ item, item ∈ (p_inflight p').*1 → item ∈ (p_inflight p).*1) → items_kept p p'.
Proof.
  intros Hc Hk Hq Hf. split_and!; [done..|]. intros P (Pq & Pf & Pc). unfold items_ok. rewrite Hk.
  rewrite Forall_forall in Pq. rewrite Forall_forall in Pf.
  assert (∀ item, item ∈ (p_inflight p).*1 → P item) as Pf1 by (intros item (x & -> & Hx)%list_elem_of_fmap; auto).
  split_and!; [| |done]; apply Forall_forall.
  - intros item Hi. destruct (Hq item Hi); auto.
  - intros x Hx. apply Pf1, Hf. by apply list_elem_of_fmap_2.
Qed.

(** What a step other than an admission and a publication does. *)
Lemma step_kept st p p' :
  step origin st p = Next p' →
  match st with Offer _ _ | Publish _ _ _ => False | _ => True end → items_kept p p'.
Proof.
  intros Hstep Hst. destruct st as [event now|i|i now|conn client now|client now|now| |op|dropped now]; try done; cbn [step] in Hstep.
  - unfold ledger_answer in Hstep. destruct (p_inflight p !! i) as [[item [r|]]|] eqn:Hi; try done.
    destruct (ledger_reserve _ _) as [r l]. simplify_eq. apply items_kept_sub; try done; cbn; [auto|].
    intros x. rewrite list_fmap_insert, list_insert_id; [done|]. by rewrite list_lookup_fmap, Hi.
  - unfold deliver_resume in Hstep. destruct (p_inflight p !! i) as [[item [r|]]|] eqn:Hi; [|done..].
    assert (∀ x, x ∈ (delete i (p_inflight p)).*1 → x ∈ (p_inflight p).*1) as Hdel.
    { intros x (y & -> & Hy)%list_elem_of_fmap. apply list_elem_of_fmap_2.
      by rewrite (delete_Permutation _ _ _ Hi), elem_of_cons; right. }
    assert (∀ p0, p_classifier p0 = p_classifier p → p_client p0 = p_client p → p_queue p0 = p_queue p →
      p_inflight p0 = delete i (p_inflight p) → items_kept p p0) as Hk.
    { intros p0 H1 H2 H3 H4. apply items_kept_sub; [done..| |]; rewrite ?H3, ?H4; auto. }
    destruct r as [[]|]; [|eapply items_kept_trans; [|by eapply record_action_kept]; by apply Hk..].
    cbn in Hstep. destruct (p_worker p).
    4: { eapply items_kept_trans; [|by eapply record_action_kept]. by apply Hk. }
    all: case_match; [eapply items_kept_trans; [|by eapply record_action_kept]; by apply Hk|]; simplify_eq.
    all: apply items_kept_sub; try done; cbn; intros x; rewrite ?elem_of_app, ?list_elem_of_singleton; auto.
    all: intros [?| ->]; [auto|right]; apply (list_elem_of_fmap_2 fst _ (item, Some (Ok RReserved))); by eapply list_elem_of_lookup_2.
  - unfold worker_flush in Hstep. destruct (p_worker p); try done.
    destruct (nats_flush _ _); [by simplify_eq|by eapply worker_failure_kept].
  - unfold worker_complete in Hstep. destruct (p_worker p) as [|item|item|]; try done.
    destruct (ledger_complete _ _) as [[] l]; [apply record_action_kept in Hstep|apply worker_failure_kept in Hstep].
    all: by eapply items_kept_trans; [|exact Hstep].
  - unfold drop_receiver in Hstep. destruct (p_worker p); simplify_eq.
    all: apply items_kept_sub; cbn; auto; by intros x Hx%elem_of_nil.
  - by simplify_eq.
  - unfold router_lagged, diagnose in Hstep. case_match; by simplify_eq.
Qed.

(** Every step: the classifier stays, only admitted items come in, and what is
    handed to the client carries the origin. *)
Lemma step_items (P : EgressItem → Prop) st p p' :
  step origin st p = Next p' →
  (∀ ev now item, st = Offer ev now → classify (p_classifier p) ev = Ok item → P item) → items_ok P p →
  items_ok P p' ∧ p_classifier p' = p_classifier p ∧
  ∃ new, p_client p' = p_client p ++ new ∧ Forall (λ x, x.1 = (BRIDGE_ORIGIN_HEADER, origin)) new.
Proof.
  intros Hstep Hoffer HP.
  assert (items_kept p p' → items_ok P p' ∧ p_classifier p' = p_classifier p ∧
    ∃ new, p_client p' = p_client p ++ new ∧ Forall (λ x, x.1 = (BRIDGE_ORIGIN_HEADER, origin)) new) as Hkept.
  { intros (Hc & Hk & Hi). split_and!; auto. exists []. by rewrite app_nil_r. }
  destruct st as [event now| | |conn client now| | | | |]; try (apply Hkept; by eapply step_kept); cbn [step] in Hstep.
  - unfold deliver_admit in Hstep. destruct (classify _ event) as [item|k] eqn:Hcl; [|by apply Hkept; eapply record_action_kept].
    case_match; [by apply Hkept; eapply record_action_kept|]. simplify_eq. destruct HP as (Pq & Pf & Pc).
    split_and!; [split_and!; [done| |done]|done|exists []; by rewrite app_nil_r]. cbn. apply Forall_app. split; [done|].
    constructor; [|done]. by eapply Hoffer.
  - unfold worker_publish in Hstep. destruct (p_worker p); try done. destruct (p_queue p) as [|item rest] eqn:Hq; [done|].
    destruct (nats_publish _ _ _) as [called r]. destruct HP as (Pq & Pf & Pc). rewrite Hq in Pq.
    apply Forall_cons in Pq as [Pi Pq].
    set (p1 := if called then _ else _) in Hstep.
    assert (items_ok P p1 ∧ p_classifier p1 = p_classifier p ∧
      ∃ new, p_client p1 = p_client p ++ new ∧ Forall (λ x, x.1 = (BRIDGE_ORIGIN_HEADER, origin)) new) as H1.
    { unfold p1. destruct called; cbn.
      - split_and!; [split_and!; cbn; try done; apply Forall_app; by repeat constructor|done|]. eexists. split; [done|]. by constructor.
      - split_and!; [by split_and!|done|]. exists []. by rewrite app_nil_r. }
    destruct r as [[]|k]; [by simplify_eq|]. apply worker_failure_kept in Hstep as (Hc & Hk & Hi).
    destruct H1 as (I1 & C1 & new & Hn & Hf). rewrite Hc, Hk. split_and!; [auto|done|by exists new].
Qed.

End items.

(** ** The invariant *)

Section relay.
Context {sha : Sha256} `{Serde} `{CipherOps} `{D : Docs} {St : Type} `{!DocStore St, !StoreContents St}.
Context {E : Type} `{!ExclusionOps E} {L : Type} `{LedgerLaws L}.
Context `{!CipherLaws, !DocsLaws, !EnvelopeDocs, !SerdeLaws}.
Context (nonce : string → nat → bytes) (nonce_length : ∀ id k, length (nonce id k) = 12%nat) (cipher : option StoreCipher).
Implicit Types (b : Bridge St E L) (s : System St E L).

(** The document of a creation, as items and stores know it. *)
Definition creation_digest (cr : Creation) : LedgerDigest := document_digest (cr_collection cr) (cr_doc_id cr).
Definition creation_key (cr : Creation) : string := doc_key (cr_collection cr) (cr_doc_id cr).

(** An item of bridge [i] is the document of another bridge. *)
Definition item_from (created : list Creation) (i : nat) (item : EgressItem) : Prop :=
  ∃ cr, cr ∈ created ∧ cr_bridge cr ≠ i ∧ item_digest item = creation_digest cr ∧
    item_subject item = env_subject (cr_envelope cr) ∧ item_payload item = str_bytes (env_payload (cr_envelope cr)).

Definition store_ok (created : list Creation) b : Prop :=
  ∀ key d, stored (nd_store (br_node b)) key d → ∃ cr, cr ∈ created ∧ key = creation_key cr ∧ encodes (St := St) (E := E) cipher d (cr_envelope cr).

(** A message the bridge has queued: of its broker, not its own, on a mapped subject. *)
Definition queued_ok (log : list LogEntry) b (k : nat) (item : IngressItem) : Prop :=
  ∃ e m, log !! k = Some e ∧ le_broker e = br_broker b ∧ has_exact_own_origin (m_headers (le_message e)) (br_id b) = false ∧
    m ∈ br_mappings b ∧ item = mkIngressItem (m_subject (le_message e)) (collection m) (m_payload (le_message e)).

Definition queue_ok (log : list LogEntry) b : Prop :=
  Forall2 (queued_ok log b) (br_sources b) (rd_sent (br_reader b)) ∧ NoDup (br_sources b) ∧
  (∀ k, k ∈ br_sources b → k ∈ br_delivered b) ∧ (br_taken b ≤ length (br_sources b))%nat.

Record bridge_ok (log : list LogEntry) (created : list Creation) (i : nat) b : Prop := {
  ok_classifier : p_classifier (br_pipe b) = classifier_new (br_mappings b) (br_id b);
  ok_cipher : nd_cipher (br_node b) = cipher;
  ok_store : store_ok created b;
  ok_items : items_ok (item_from created i) (br_pipe b);
  ok_grants : ∃ l0, grants_inv l0 (br_pipe b);
  ok_queue : queue_ok log b;
}.

Definition plain_mappings (ms : list SubjectMapping) : Prop :=
  Forall (λ m, str_contains (collection m) ":"%char = false) ms.

(** What a creation says of the system. *)
Definition creation_ok (bs : list (Bridge St E L)) (log : list LogEntry) (cr : Creation) : Prop :=
  ∃ b t e, bs !! cr_bridge cr = Some b ∧ br_sources b !! t = Some (cr_message cr) ∧ (t < br_taken b)%nat ∧
    log !! cr_message cr = Some e ∧ cr_collection cr ∈ collection <$> br_mappings b ∧
    from_payload (m_subject (le_message e)) (br_id b) (m_payload (le_message e)) = Ok (cr_envelope cr).

Definition same_message (cr cr' : Creation) : Prop := cr_bridge cr = cr_bridge cr' ∧ cr_message cr = cr_message cr'.

Definition static b : string * nat * list SubjectMapping := (br_id b, br_broker b, br_mappings b).

Record sys_inv s : Prop := {
  inv_brokers : NoDup (br_broker <$> sy_bridges s);
  inv_plain : ∀ i b, sy_bridges s !! i = Some b → plain_mappings (br_mappings b);
  inv_bridges : ∀ i b, sy_bridges s !! i = Some b → bridge_ok (sy_log s) (sy_created s) i b;
  inv_published : ∀ i b, sy_bridges s !! i = Some b →
    filter (λ e, le_from e = Some i) (sy_log s) = publication i b <$> p_client (br_pipe b);
  inv_marked : ∀ e j, e ∈ sy_log s → le_from e = Some j →
    ∃ b, sy_bridges s !! j = Some b ∧ le_broker e = br_broker b ∧ has_exact_own_origin (m_headers (le_message e)) (br_id b) = true;
  inv_created : Forall (creation_ok (sy_bridges s) (sy_log s)) (sy_created s);
  inv_once : ∀ x y cr cr', sy_created s !! x = Some cr → sy_created s !! y = Some cr' → same_message cr cr' → x = y;
}.

(** *** Growth *)

Lemma item_from_grow created more i item : item_from created i item → item_from (created ++ more) i item.
Proof. intros (cr & Hin & Hrest). exists cr. split; [|done]. apply elem_of_app. by left. Qed.

Lemma bridge_ok_grow log created log' created' i b :
  bridge_ok log created i b → bridge_ok (log ++ log') (created ++ created') i b.
Proof.
  intros [Hc Hci Hs (Hq & Hf & Hcl) Hg (Hqu & Hnd & Hsub & Ht)]. split; try done.
  - intros key d (cr & Hin & ? & ?)%Hs. exists cr. split; [|done]. apply elem_of_app. by left.
  - split_and!; (eapply Forall_impl; [eassumption|]); intros; by apply item_from_grow.
  - split_and!; [|done..]. eapply Forall2_impl; [exact Hqu|]. intros k item (e & m & He & Hrest). exists e, m.
    split; [|done]. by apply lookup_app_l_Some.
Qed.

Lemma static_eq b b' : static b' = static b → br_id b' = br_id b ∧ br_broker b' = br_broker b ∧ br_mappings b' = br_mappings b.
Proof. unfold static. by intros [= -> -> ->]. Qed.

(** A bridge after a step: the same place, more read, more taken, more published. *)
Definition bridge_le b b' : Prop :=
  static b' = static b ∧ br_sources b `prefix_of` br_sources b' ∧ (br_taken b ≤ br_taken b')%nat ∧
  ∃ new, p_client (br_pipe b') = p_client (br_pipe b) ++ new ∧ Forall (λ x, x.1 = (BRIDGE_ORIGIN_HEADER, br_id b)) new.

Lemma creation_ok_grow bs i b b' log log' cr :
  bs !! i = Some b → bridge_le b b' → creation_ok bs log cr → creation_ok (<[i := b']> bs) (log ++ log') cr.
Proof.
  intros Hi (Hst & Hpre & Ht & _) (b0 & t & e & Hb0 & Hs & Hlt & He & Hc & Hp).
  apply (lookup_app_l_Some _ log') in He. destruct (decide (cr_bridge cr = i)) as [Heq|Hne].
  - rewrite Heq, Hi in Hb0. injection Hb0 as <-. exists b', t, e. apply static_eq in Hst as (Sid & Sbk & Sms). rewrite Heq.
    rewrite list_lookup_insert_eq by (by eapply lookup_lt_Some). rewrite Sid, Sms.
    split_and!; try done; [by eapply prefix_lookup_Some|lia].
  - exists b0, t, e. rewrite list_lookup_insert_ne by done. by split_and!.
Qed.

Lemma own_origin_marked id : has_exact_own_origin (Some [(BRIDGE_ORIGIN_HEADER, id)]) id = true.
Proof. unfold has_exact_own_origin, get_all. rewrite filter_cons_True by done. cbn. by rewrite !bool_decide_true. Qed.

Lemma filter_all_from (j i : nat) b l :
  filter (λ e, le_from e = Some i) (publication j b <$> l) = if decide (j = i) then publication j b <$> l else [].
Proof.
  induction l as [|x l IH]; [by case_decide|]. rewrite fmap_cons, filter_cons, IH.
  change (le_from (publication j b x)) with (Some j). repeat case_decide; congruence.
Qed.

(** One bridge moves: its publications reach the log, its new documents the
    creations. *)
Lemma inv_update i b b' new_created s :
  sys_inv s → sy_bridges s !! i = Some b → bridge_le b b' →
  let log' := sy_log s ++ publications i b (br_pipe b') in
  let created' := sy_created s ++ new_created in
  bridge_ok log' created' i b' →
  Forall (creation_ok (<[i := b']> (sy_bridges s)) log') new_created → (length new_created ≤ 1)%nat →
  (∀ cr cr', cr ∈ sy_created s → cr' ∈ new_created → ¬ same_message cr cr') →
  sys_inv (mkSystem (<[i := b']> (sy_bridges s)) log' created').
Proof.
  intros [Hbr Hpl Hok Hpub Hmk Hcr Hon] Hi Hle log' created' Hok' Hnew Hlen Hfresh.
  pose proof Hle as (Hst & Hpre & Ht & new & Hcl & Hmark). apply static_eq in Hst as (Hid & Hbk & Hms).
  assert (publications i b (br_pipe b') = publication i b <$> new) as Hpubs.
  { unfold publications. by rewrite Hcl, drop_app_length. }
  assert (∀ x, publication i b' x = publication i b x) as Hpe by (intros; unfold publication; by rewrite Hbk).
  assert (∀ j b0, <[i := b']> (sy_bridges s) !! j = Some b0 → ∃ b1, sy_bridges s !! j = Some b1 ∧ br_mappings b0 = br_mappings b1 ∧
    (j = i ∧ b0 = b' ∧ b1 = b ∨ j ≠ i ∧ b0 = b1)) as Hback.
  { intros j b0 Hj. destruct (decide (j = i)) as [->|Hne].
    - rewrite list_lookup_insert_eq in Hj by (by eapply lookup_lt_Some). simplify_eq. exists b. eauto 10.
    - rewrite list_lookup_insert_ne in Hj by done. eauto 10. }
  split; cbn [sy_bridges sy_log sy_created].
  - rewrite list_fmap_insert, list_insert_id; [done|]. by rewrite list_lookup_fmap, Hi, Hbk.
  - intros j b0 (b1 & Hb1 & -> & _)%Hback. eauto.
  - intros j b0 (b1 & Hb1 & _ & [(-> & -> & ->)|[Hne ->]])%Hback; [done|]. by apply bridge_ok_grow, Hok.
  - intros j b0 (b1 & Hb1 & _ & Hcase)%Hback. unfold log'. rewrite filter_app, (Hpub j b1 Hb1), Hpubs, filter_all_from.
    destruct Hcase as [(-> & -> & ->)|[Hne ->]].
    + rewrite decide_True by done. rewrite Hcl, fmap_app. f_equal; apply list_fmap_ext; intros; by rewrite Hpe.
    + rewrite decide_False by done. by rewrite app_nil_r.
  - intros e j. unfold log'. rewrite elem_of_app, Hpubs. intros [He|(x & -> & Hx)%list_elem_of_fmap] Hf.
    + destruct (Hmk e j He Hf) as (b0 & Hb0 & Hbb & Hoo). destruct (decide (j = i)) as [->|Hne].
      * simplify_eq. exists b'. rewrite list_lookup_insert_eq by (by eapply lookup_lt_Some). by rewrite Hid, Hbk.
      * exists b0. by rewrite list_lookup_insert_ne.
    + cbn in Hf. simplify_eq. exists b'. rewrite list_lookup_insert_eq by (by eapply lookup_lt_Some). cbn. rewrite Hid, Hbk.
      split_and!; try done. rewrite Forall_forall in Hmark. rewrite (Hmark x Hx). apply own_origin_marked.
  - apply Forall_app. split; [|done]. eapply Forall_impl; [exact Hcr|]. intros cr. by apply (creation_ok_grow _ i b).
  - intros x y cr cr' Hx Hy Hsame. apply lookup_app_Some in Hx as [Hx|[Hlx Hx]]; apply lookup_app_Some in Hy as [Hy|[Hly Hy]].
    + by eapply Hon.
    + exfalso. eapply Hfresh; [by eapply list_elem_of_lookup_2..|done].
    + exfalso. destruct Hsame. eapply (Hfresh cr' cr); [by eapply list_elem_of_lookup_2..|done].
    + apply lookup_lt_Some in Hx, Hy. lia.
Qed.

(** A bridge changes without publishing. *)
Lemma inv_local i b b' s :
  sys_inv s → sy_bridges s !! i = Some b → static b' = static b → br_sources b `prefix_of` br_sources b' →
  (br_taken b ≤ br_taken b')%nat → p_client (br_pipe b') = p_client (br_pipe b) →
  bridge_ok (sy_log s) (sy_created s) i b' → sys_inv (set_bridge i b' s).
Proof.
  intros Hinv Hi Hst Hpre Ht Hcl Hok. unfold set_bridge.
  assert (publications i b (br_pipe b') = []) as Hpub by (unfold publications; by rewrite Hcl, drop_all).
  pose proof (inv_update i b b' [] s Hinv Hi) as Hup. rewrite Hpub, !app_nil_r in Hup. cbn zeta in Hup.
  apply Hup; try done; [|cbn; lia|intros ? ? _ Hnil; by apply elem_of_nil in Hnil].
  split_and!; try done. exists []. by rewrite app_nil_r.
Qed.

Lemma inv_app_publish broker m s :
  sys_inv s → sys_inv (mkSystem (sy_bridges s) (sy_log s ++ [mkEntry broker None m]) (sy_created s)).
Proof.
  intros [Hbr Hpl Hok Hpub Hmk Hcr Hon]. split; cbn; try done.
  - intros i b Hi. rewrite <-(app_nil_r (sy_created s)). by apply bridge_ok_grow, Hok.
  - intros i b Hi. rewrite filter_app, (Hpub i b Hi). rewrite filter_cons_False by done. by rewrite filter_nil, app_nil_r.
  - intros e j [He| ->%list_elem_of_singleton]%elem_of_app Hf; [eauto|done].
  - eapply Forall_impl; [exact Hcr|]. intros cr (b & t & e & Hb & Hs & Ht & He & Hrest). exists b, t, e.
    split_and!; try done; [by apply lookup_app_l_Some|apply Hrest..].
Qed.

(** *** Reading *)

Lemma mapping_of_Some subj b m : mapping_of subj b = Some m → m ∈ br_mappings b ∧ subject m = subj.
Proof.
  unfold mapping_of. intros [Hin Hs]%List.find_some. split; [by apply list_elem_of_In|]. by apply bool_decide_eq_true in Hs.
Qed.

Lemma read_message_sent c id view m r :
  rd_sent (read_message c id view m r).2 = rd_sent r ∨
  (rd_sent (read_message c id view m r).2 = rd_sent r ++ [mkIngressItem (m_subject m) c (m_payload m)] ∧
   has_exact_own_origin (m_headers m) id = false).
Proof. unfold read_message. destruct (has_exact_own_origin _ _); repeat case_match; cbn; auto. Qed.

Lemma inv_deliver i k view s s' : sys_inv s → deliver_to i k view s = Some s' → sys_inv s'.
Proof.
  unfold deliver_to. intros Hinv Hrun. destruct (sy_bridges s !! i) as [b|] eqn:Hi; cbn [mbind option_bind] in Hrun; [|done].
  destruct (sy_log s !! k) as [e|] eqn:He; cbn [mbind option_bind] in Hrun; [|done].
  destruct (mapping_of _ b) as [m|] eqn:Hm; cbn [mbind option_bind] in Hrun; [|done]. apply mapping_of_Some in Hm as [Hm Hsubj].
  destruct (_ && _) eqn:Hg in Hrun; [|done]. injection Hrun as <-. to_prop.
  destruct (inv_bridges s Hinv i b Hi) as [Hc Hci Hst Hit Hgr (Hqu & Hnd & Hsub & Ht)].
  set (r := (read_message _ _ _ _ _).2).
  eapply inv_local; try done.
  - cbn. case_match; [by eexists|done].
  - split; try done. unfold queue_ok. cbn [br_sources br_reader rd_sent br_delivered br_taken with_reader].
    destruct (read_message_sent (collection m) (br_id b) view (le_message e) (br_reader b)) as [Hr|[Hr Hown]]; fold r in Hr; rewrite Hr.
    + rewrite (proj2 (Nat.ltb_ge _ _)) by lia. split_and!; [done..| |done]. intros k' Hk'. apply elem_of_app. left. auto.
    + rewrite (proj2 (Nat.ltb_lt _ _)) by (rewrite length_app; cbn; lia). split_and!.
      * apply Forall2_app; [exact Hqu|]. constructor; [|done]. exists e, m. by split_and!.
      * apply NoDup_app. split_and!; [done| |apply NoDup_singleton]. intros k' Hk' ->%list_elem_of_singleton. naive_solver.
      * intros k' [Hk'|Hk']%elem_of_app; apply elem_of_app; auto.
      * rewrite length_app. lia.
Qed.

(** *** Taking in *)

Lemma from_payload_version subj id data env :
  from_payload subj id data = Ok env → 0 ≤ env_version env ≤ U32_MAX ∧ env_source_node_id env = id ∧
    env_subject env = subj ∧ str_bytes (env_payload env) = data.
Proof.
  intros (_ & _ & Hv & Hs & Hn & Hp)%from_payload_Ok. split_and!; try done; rewrite Hv; unfold BRIDGE_ENVELOPE_VERSION, U32_MAX; lia.
Qed.

(** The processor keeps the cipher and adds at most the item's document. *)
Lemma process_item_store id item doc_id b k created :
  let p := process_item (H0 := node_writer (nonce id)) id item doc_id (br_processor b) in
  nd_cipher (br_node b) = cipher → store_ok created b →
  let created' := match from_payload (ii_subject item) id (ii_payload item) with
                  | Ok env => created ++ [mkCreation k.1 k.2 (ii_collection item) doc_id env]
                  | Err _ => created
                  end in
  nd_cipher (ip_writer p).2 = cipher ∧
  ∀ key d, stored (nd_store (ip_writer p).2) key d →
    ∃ cr, cr ∈ created' ∧ key = creation_key cr ∧ encodes (St := St) (E := E) cipher d (cr_envelope cr).
Proof.
  intros p Hc Hst created'.
  refine (process_item_writer (H0 := node_writer (nonce id)) (λ w, nd_cipher w.2 = cipher ∧ ∀ key d, stored (nd_store w.2) key d →
    ∃ cr, cr ∈ created' ∧ key = creation_key cr ∧ encodes (St := St) (E := E) cipher d (cr_envelope cr)) id item doc_id (br_processor b) _ _).
  - intros env w Henv [Hcw Hw]. unfold created'. rewrite Henv. cbn [create_document node_writer].
    unfold create_bridge_document. destruct (write_document _ _ _ _ _ _) as [r n] eqn:Hwd. cbn.
    apply write_document_stored in Hwd as [Hcn Hn]. split; [congruence|]. intros key d [Hd|(-> & parsed & n1 & Hp & Hc1 & Hb)]%Hn.
    + destruct (Hw key d Hd) as (cr & Hin & Hrest). unfold created' in Hin. rewrite Henv in Hin. by exists cr.
    + exists (mkCreation k.1 k.2 (ii_collection item) doc_id env). split_and!; [apply elem_of_app; right; by constructor|done|].
      destruct (from_payload_version _ _ _ _ Henv) as [Hv _].
      rewrite <-Hcw, <-Hc1. eapply build_encodes; try done. by apply envelope_roundtrip.
  - split; [done|]. intros key d (cr & Hin & Hrest)%Hst. exists cr. split; [|done]. unfold created'.
    case_match; [apply elem_of_app; by left|done].
Qed.

Lemma inv_ingest i doc_id s s' : sys_inv s → ingest_next nonce i doc_id s = Some s' → sys_inv s'.
Proof.
  unfold ingest_next. intros Hinv Hrun. destruct (sy_bridges s !! i) as [b|] eqn:Hi; cbn [mbind option_bind] in Hrun; [|done].
  destruct (rd_sent _ !! br_taken b) as [item|] eqn:Hitem; cbn [mbind option_bind] in Hrun; [|done].
  destruct (br_sources b !! br_taken b) as [k|] eqn:Hk; cbn [mbind option_bind] in Hrun; [|done]. injection Hrun as <-.
  destruct (inv_bridges s Hinv i b Hi) as [Hc Hci Hst Hit Hgr (Hqu & Hnd & Hsub & Ht)].
  destruct (process_item_store (br_id b) item doc_id b (i, k) (sy_created s) Hci Hst) as [Hci' Hst'].
  set (p := process_item _ _ _ _) in *. set (b' := with_processor _ _ _).
  destruct (Forall2_lookup_lr _ _ _ _ _ _ Hqu Hk Hitem) as (e & m & He & Hbk & Hown & Hm & ->).
  cbn [ii_subject ii_payload ii_collection fst snd] in *.
  set (news := match from_payload (m_subject (le_message e)) (br_id b) (m_payload (le_message e)) with
               | Ok env => [mkCreation i k (collection m) doc_id env] | Err _ => [] end).
  assert (match from_payload (m_subject (le_message e)) (br_id b) (m_payload (le_message e)) with
          | Ok env => sy_created s ++ [mkCreation i k (collection m) doc_id env] | Err _ => sy_created s end = sy_created s ++ news) as Hnews.
  { unfold news. case_match; [done|by rewrite app_nil_r]. }
  rewrite Hnews in *.
  assert (bridge_le b b') as Hle.
  { split_and!; [done|done|cbn; lia|]. exists []. by rewrite app_nil_r. }
  pose proof (inv_update i b b' news s Hinv Hi Hle) as Hup.
  assert (publications i b (br_pipe b') = []) as Hpub by (unfold publications; cbn; by rewrite drop_all).
  rewrite Hpub, app_nil_r in Hup. apply Hup.
  - destruct (bridge_ok_grow _ _ [] news i b (inv_bridges s Hinv i b Hi)) as [_ _ _ Hit' _ _].
    split; try done. split_and!; [done..|]. cbn. apply lookup_lt_Some in Hk. lia.
  - unfold news. case_match eqn:Hp; [|done]. constructor; [|done].
    exists b', (br_taken b), e. cbn. rewrite list_lookup_insert_eq by (by eapply lookup_lt_Some).
    split_and!; try done; [lia|]. by apply list_elem_of_fmap_2.
  - unfold news. case_match; cbn; lia.
  - intros cr cr' Hcr Hcr' [Hb Hmsg]. assert (cr_bridge cr' = i ∧ cr_message cr' = k) as [Hb' Hk'].
    { unfold news in Hcr'. case_match; [by apply list_elem_of_singleton in Hcr' as ->|by apply elem_of_nil in Hcr']. }
    pose proof (inv_created s Hinv) as Hall. rewrite Forall_forall in Hall.
    destruct (Hall cr Hcr) as (b0 & t & e0 & Hb0 & Hs0 & Hlt & _). rewrite Hb, Hb', Hi in Hb0. injection Hb0 as <-.
    rewrite Hmsg, Hk' in Hs0. assert (t = br_taken b) by (by eapply NoDup_lookup). lia.
Qed.

(** *** The mesh *)

(** A node change that keeps the cipher and stores only documents of creations. *)
Lemma inv_node i b n s :
  sys_inv s → sy_bridges s !! i = Some b → nd_cipher n = cipher →
  (∀ key d, stored (nd_store n) key d → ∃ cr, cr ∈ sy_created s ∧ key = creation_key cr ∧ encodes (St := St) (E := E) cipher d (cr_envelope cr)) →
  sys_inv (set_bridge i (with_node n b) s).
Proof.
  intros Hinv Hi Hc Hn. eapply inv_local; try done. by destruct (inv_bridges s Hinv i b Hi).
Qed.

Lemma inv_replicate i j key s s' : sys_inv s → replicate_doc i j key s = Some s' → sys_inv s'.
Proof.
  unfold replicate_doc. intros Hinv Hrun. destruct (sy_bridges s !! i) as [b|] eqn:Hi; cbn [mbind option_bind] in Hrun; [|done].
  destruct (sy_bridges s !! j) as [b'|] eqn:Hj; cbn [mbind option_bind] in Hrun; [|done].
  destruct (store_get key _) as [[d|]|] eqn:Hget; cbn [mbind option_bind] in Hrun; try done. injection Hrun as <-.
  destruct (inv_bridges s Hinv i b Hi) as [_ _ Hst _ _ _]. destruct (inv_bridges s Hinv j b' Hj) as [_ Hci' Hst' _ _ _].
  apply inv_node; [done..|]. cbn. intros k d' [[-> ->]|Hd]%put_stored; [|by apply Hst']. by apply Hst, get_stored.
Qed.

Lemma routes_sound mappings id c subj :
  routes (classifier_new mappings id) !! c = Some subj → ∃ m, m ∈ mappings ∧ collection m = c.
Proof.
  unfold classifier_new. cbn. rewrite <-(reverse_involutive mappings). induction (reverse mappings) as [|m l IH]; [done|].
  rewrite reverse_cons, foldl_app. cbn. destruct (decide (collection m = c)) as [<-|Hne].
  - intros _. exists m. rewrite elem_of_app. split; [right; by constructor|done].
  - rewrite lookup_insert_ne by done. intros (m' & Hm' & Hc)%IH. exists m'. rewrite elem_of_app. auto.
Qed.

(** The event reads a stored document. *)
Definition event_of (ev : BridgeChangeEvent) (n : Node St E) : Prop :=
  ∃ d, store_get (doc_key (ev_collection ev) (ev_doc_id ev)) (nd_store n) = Some (Some d) ∧ hydrate d n = Ok (ev_json_data ev).

Lemma forward_remote_event key peer n ev : forward_remote key peer n = Ok (Some ev) → event_of ev n.
Proof.
  unfold forward_remote. destruct (split_once _ key) as [[c i]|] eqn:Hk; [|done]. case_match; [done|].
  destruct (store_get key _) as [[d|]|] eqn:Hget; try done. destruct (hydrate d n) as [text|] eqn:Hh; cbn; [|done].
  intros [= <-]. apply split_once_Some in Hk as ->. by exists d.
Qed.

Lemma candidate_event c i n e r e' ev : reconciliation_candidate c i n e = (Ok (r, Some ev), e') → event_of ev n.
Proof.
  unfold reconciliation_candidate, get_bridge_document. destruct (_ || _); [by intros [=]|].
  destruct (store_get _ _) as [[d|]|] eqn:Hget; try by intros [=]. destruct (hydrate d n) as [text|k] eqn:Hh.
  - destruct (excl_contains _ e) as [[[]|] ?]; intros; simplify_eq. by exists d.
  - destruct k, (nd_cipher n); by intros [=].
Qed.

(** What an event of a bridge's node is classified as comes from another bridge. *)
Lemma offered_item j b ev item s :
  sys_inv s → sy_bridges s !! j = Some b → event_of ev (br_node b) → classify (p_classifier (br_pipe b)) ev = Ok item →
  item_from (sy_created s) j item.
Proof.
  intros Hinv Hj (d & Hget & Hh) Hcl. destruct (inv_bridges s Hinv j b Hj) as [Hc Hci Hst _ _ _]. rewrite Hc in Hcl.
  destruct (Hst _ d (get_stored _ _ _ Hget)) as (cr & Hcr & Hkey & Henc).
  apply classify_exact in Hcl as (env & He & _ & _ & Hr & _ & Hsrc & _ & Hd & Hs & Hp).
  rewrite (Henc _ _ Hci Hh) in He. injection He as <-.
  pose proof (inv_created s Hinv) as Hall. rewrite Forall_forall in Hall.
  destruct (Hall cr Hcr) as (b0 & t & e0 & Hb0 & _ & _ & _ & Hcol & Hpay).
  apply from_payload_version in Hpay as (_ & Hid & _ & _).
  exists cr. split_and!; [done| | |done|done].
  - intros Heq. rewrite Heq, Hj in Hb0. injection Hb0 as <-. by cbn in Hsrc.
  - rewrite Hd. unfold creation_digest.
    apply routes_sound in Hr as (m & Hm & Hmc). apply list_elem_of_fmap in Hcol as (m0 & Hm0 & Hin0).
    pose proof (inv_plain s Hinv _ _ Hj) as Hpl. pose proof (inv_plain s Hinv _ _ Hb0) as Hpl0.
    unfold plain_mappings in Hpl, Hpl0. rewrite Forall_forall in Hpl. rewrite Forall_forall in Hpl0.
    specialize (Hpl m Hm). specialize (Hpl0 m0 Hin0). rewrite Hmc in Hpl. rewrite <-Hm0 in Hpl0.
    pose proof (doc_key_split _ (ev_doc_id ev) Hpl) as Hsplit. rewrite Hkey in Hsplit. unfold creation_key in Hsplit.
    rewrite doc_key_split in Hsplit by done. by injection Hsplit as -> ->.
Qed.

(** *** The pipeline *)

Lemma inv_pipe j st s s' :
  sys_inv s → (∀ ev now b, st = Offer ev now → sy_bridges s !! j = Some b → event_of ev (br_node b)) →
  pipe_step j st s = Some s' → sys_inv s'.
Proof.
  unfold pipe_step. intros Hinv Hoff Hrun. destruct (sy_bridges s !! j) as [b|] eqn:Hj; cbn [mbind option_bind] in Hrun; [|done].
  destruct (step (br_id b) st (br_pipe b)) as [p| |] eqn:Hs; try done. injection Hrun as <-.
  destruct (inv_bridges s Hinv j b Hj) as [Hc Hci Hst Hit [l0 Hgr] Hq].
  destruct (step_items (br_id b) (item_from (sy_created s) j) st (br_pipe b) p Hs) as (Hit' & Hc' & new & Hcl & Hmark); [|done|].
  { intros ev now item -> Hcl. eapply offered_item; [done..| |exact Hcl]. by eapply Hoff. }
  assert (bridge_le b (with_pipe p b)) as Hle.
  { split_and!; [done|done|cbn; lia|]. exists new. by split. }
  pose proof (inv_update j b (with_pipe p b) [] s Hinv Hj Hle) as Hup. rewrite !app_nil_r in Hup. apply Hup.
  - pose proof (bridge_ok_grow _ _ (publications j b p) [] j b (inv_bridges s Hinv j b Hj)) as [_ _ Hst' _ _ Hq'].
    rewrite app_nil_r in Hst'. split; cbn; try done; [congruence|]. exists l0. by eapply step_grants.
  - done.
  - cbn. lia.
  - intros ? ? _ Hnil. by apply elem_of_nil in Hnil.
Qed.

Lemma inv_reconcile j c doc_id now s s' : sys_inv s → reconcile_key j c doc_id now s = Some s' → sys_inv s'.
Proof.
  unfold reconcile_key. intros Hinv Hrun. destruct (sy_bridges s !! j) as [b|] eqn:Hj; cbn [mbind option_bind] in Hrun; [|done].
  destruct (nd_ledger (br_node b) ≫= il_exclusion) as [e|]; cbn [mbind option_bind] in Hrun; [|done].
  destruct (reconciliation_candidate c doc_id (br_node b) e) as [r e'] eqn:Hr.
  destruct (inv_bridges s Hinv j b Hj) as [_ Hci Hst _ _ _].
  set (s1 := set_bridge j _ s) in Hrun. assert (sys_inv s1) as Hinv1 by (apply inv_node; [done..|exact Hst]).
  destruct r as [[o [ev|]]|]; [|by simplify_eq..]. eapply inv_pipe; [exact Hinv1| |exact Hrun].
  intros ev' now' b' [= <- <-] Hb'. unfold s1 in Hb'. cbn in Hb'.
  rewrite list_lookup_insert_eq in Hb' by (by eapply lookup_lt_Some). injection Hb' as <-.
  apply candidate_event in Hr as (d & Hget & Hh). exists d. by split.
Qed.

Lemma inv_restart j status s s' : sys_inv s → restart_at j status s = Some s' → sys_inv s'.
Proof.
  unfold restart_at. intros Hinv Hrun. destruct (sy_bridges s !! j) as [b|] eqn:Hj; cbn [mbind option_bind] in Hrun; [|done].
  injection Hrun as <-. destruct (inv_bridges s Hinv j b Hj) as [Hc Hci Hst (Pq & Pf & Pc) [l0 Hgr] (Hqu & Hnd & Hsub & Ht)].
  pose proof (Forall2_length _ _ _ Hqu) as Hlen.
  eapply inv_local; try done; [cbn; lia|]. split; try done.
  - exists l0. apply (grants_inv_sub l0 (br_pipe b) _ ((item_digest <$> p_queue (br_pipe b)) ++ omap granted (p_inflight (br_pipe b)))); [done..|].
    unfold grants_of. cbn. solve_Permutation.
  - split_and!; try done. cbn. lia.
Qed.

Lemma inv_step st s s' : sys_inv s → sys_step nonce st s = Some s' → sys_inv s'.
Proof.
  intros Hinv Hrun. destruct st as [broker m|i k view|i doc_id|i|i j key|j key peer now|j c doc_id now|j st|j status]; cbn [sys_step] in Hrun.
  - simplify_eq. by apply inv_app_publish.
  - by eapply inv_deliver.
  - by eapply inv_ingest.
  - destruct (sy_bridges s !! i) as [b|] eqn:Hi; cbn [mbind option_bind] in Hrun; [|done]. injection Hrun as <-.
    eapply inv_local; try done. by destruct (inv_bridges s Hinv i b Hi).
  - by eapply inv_replicate.
  - unfold remote_change in Hrun. destruct (sy_bridges s !! j) as [b|] eqn:Hj; cbn [mbind option_bind] in Hrun; [|done].
    destruct (forward_remote key peer (br_node b)) as [[ev|]|] eqn:Hf; [|by simplify_eq..].
    eapply inv_pipe; [done| |exact Hrun]. intros ev' now' b' [= <- <-] Hb'. simplify_eq. by eapply forward_remote_event.
  - by eapply inv_reconcile.
  - destruct st; try done; (eapply inv_pipe; [done| |exact Hrun]); done.
  - by eapply inv_restart.
Qed.

Lemma inv_run steps s s' : sys_inv s → sys_run nonce steps s = Some s' → sys_inv s'.
Proof.
  revert s. induction steps as [|st steps IH]; intros s Hinv Hrun; cbn [sys_run] in Hrun; [by simplify_eq|].
  destruct (sys_step nonce st s) as [s1|] eqn:Hst; cbn [mbind option_bind] in Hrun; [|done]. eauto using inv_step.
Qed.

(** *** The start *)

Definition fresh_bridge b : Prop :=
  ∃ id broker mappings n l status, b = bridge_new id broker mappings n l status ∧ plain_mappings mappings ∧
    nd_cipher n = cipher ∧ (∀ key d, ¬ stored (nd_store n) key d) ∧ ledger_inv l.

Lemma inv_new bs : NoDup (br_broker <$> bs) → Forall fresh_bridge bs → sys_inv (system_new bs).
Proof.
  intros Hnd Hf. rewrite Forall_forall in Hf.
  assert (∀ i b, bs !! i = Some b → fresh_bridge b) as Hfresh by (intros i b Hi; apply Hf; by eapply list_elem_of_lookup_2).
  split; cbn; try done.
  - intros i b (id & broker & ms & n & l & status & -> & Hp & _)%Hfresh. done.
  - intros i b (id & broker & ms & n & l & status & -> & Hp & Hc & He & Hl)%Hfresh. split; try done.
    + intros key d Hd. by destruct (He key d).
    + exists l. split_and!; [done|constructor| |done]. intros d Hd. by apply elem_of_nil in Hd.
    + split_and!; [constructor|constructor| |cbn; lia]. intros k Hk. by apply elem_of_nil in Hk.
  - intros i b (id & broker & ms & n & l & status & -> & _)%Hfresh. done.
  - intros e j He. by apply elem_of_nil in He.
Qed.

(** *** One to one *)

(** Publication [e'] of bridge [b] is the application message [k] of another
    broker. *)
Definition relays s b (k : nat) (e' : LogEntry) : Prop :=
  ∃ e, sy_log s !! k = Some e ∧ le_from e = None ∧ le_broker e ≠ br_broker b ∧ le_broker e' = br_broker b ∧
    m_subject (le_message e') = m_subject (le_message e) ∧ m_payload (le_message e') = m_payload (le_message e).

Lemma Forall_choose {A B} (R : B → A → Prop) l : Forall (λ x, ∃ y, R y x) l → ∃ ys, Forall2 R ys l.
Proof. induction 1 as [|x l [y Hy] _ [ys IH]]; [by exists []|]. exists (y :: ys). by constructor. Qed.

Lemma same_broker_same_bridge s i j b b' :
  sys_inv s → sy_bridges s !! i = Some b → sy_bridges s !! j = Some b' → br_broker b = br_broker b' → i = j.
Proof.
  intros Hinv Hi Hj Heq. eapply (NoDup_lookup _ i j (br_broker b) (inv_brokers s Hinv)).
  - by rewrite list_lookup_fmap, Hi.
  - by rewrite list_lookup_fmap, Hj, Heq.
Qed.

(** What a bridge queued was published by an application. *)
Lemma source_is_external s i b k :
  sys_inv s → sy_bridges s !! i = Some b → k ∈ br_sources b →
  ∃ e, sy_log s !! k = Some e ∧ le_from e = None ∧ le_broker e = br_broker b.
Proof.
  intros Hinv Hi Hk. destruct (ok_queue _ _ _ _ (inv_bridges s Hinv i b Hi)) as (Hqu & _).
  apply list_elem_of_lookup in Hk as [x Hx]. destruct (Forall2_lookup_l _ _ _ _ _ Hqu Hx) as (item & _ & e & m & He & Hbk & Hown & _).
  exists e. split_and!; [done| |done]. destruct (le_from e) as [j|] eqn:Hf; [|done].
  destruct (inv_marked s Hinv e j) as (b' & Hj & Hbk' & Horig); [by eapply list_elem_of_lookup_2|done|].
  assert (j = i) as -> by (eapply same_broker_same_bridge; [done|exact Hj|exact Hi|congruence]). congruence.
Qed.

Lemma creation_is_external s cr :
  sys_inv s → cr ∈ sy_created s →
  ∃ b e, sy_bridges s !! cr_bridge cr = Some b ∧ sy_log s !! cr_message cr = Some e ∧ le_from e = None ∧ le_broker e = br_broker b ∧
    env_subject (cr_envelope cr) = m_subject (le_message e) ∧ str_bytes (env_payload (cr_envelope cr)) = m_payload (le_message e).
Proof.
  intros Hinv Hcr. pose proof (inv_created s Hinv) as Hall. rewrite Forall_forall in Hall.
  destruct (Hall cr Hcr) as (b & t & e & Hb & Hs & _ & He & _ & (_ & _ & Hsubj & Hpay)%from_payload_version).
  destruct (source_is_external s _ b (cr_message cr) Hinv Hb) as (e' & He' & Hf & Hbk); [by eapply list_elem_of_lookup_2|].
  exists b, e. simplify_eq. by split_and!.
Qed.

(** Two creations of one message are one. *)
Lemma creation_of_message s cr cr' :
  sys_inv s → cr ∈ sy_created s → cr' ∈ sy_created s → cr_message cr = cr_message cr' → cr = cr'.
Proof.
  intros Hinv Hcr Hcr' Hm.
  destruct (creation_is_external s cr Hinv Hcr) as (b & e & Hb & He & _ & Hbk & _).
  destruct (creation_is_external s cr' Hinv Hcr') as (b' & e' & Hb' & He' & _ & Hbk' & _).
  rewrite Hm, He' in He. injection He as <-.
  assert (cr_bridge cr = cr_bridge cr') as Hbr by (eapply same_broker_same_bridge; [done|exact Hb|exact Hb'|congruence]).
  apply list_elem_of_lookup in Hcr as [x Hx]. apply list_elem_of_lookup in Hcr' as [y Hy].
  assert (x = y) as -> by (by eapply inv_once). congruence.
Qed.

Lemma published_one_to_one s i b :
  sys_inv s → sy_bridges s !! i = Some b →
  ∃ ks, NoDup ks ∧ Forall2 (relays s b) ks (filter (λ e, le_from e = Some i) (sy_log s)).
Proof.
  intros Hinv Hi. destruct (inv_bridges s Hinv i b Hi) as [_ _ _ (_ & _ & Pc) [l0 (_ & Hnd & _)] _].
  apply NoDup_app in Hnd as (Hnd & _). rewrite (inv_published s Hinv i b Hi).
  destruct (Forall_choose (λ cr x, cr ∈ sy_created s ∧ cr_bridge cr ≠ i ∧ item_digest x.2 = creation_digest cr ∧
    item_subject x.2 = env_subject (cr_envelope cr) ∧ item_payload x.2 = str_bytes (env_payload (cr_envelope cr)))
    (p_client (br_pipe b))) as [crs Hcrs].
  { eapply Forall_impl; [exact Pc|]. by intros x (cr & ?); exists cr. }
  exists (cr_message <$> crs). split.
  - apply NoDup_fmap_2_strong.
    + intros cr cr' Hcr Hcr'. apply list_elem_of_lookup in Hcr as [x Hx]. apply list_elem_of_lookup in Hcr' as [y Hy].
      destruct (Forall2_lookup_l _ _ _ _ _ Hcrs Hx) as (? & _ & Hin & _). destruct (Forall2_lookup_l _ _ _ _ _ Hcrs Hy) as (? & _ & Hin' & _).
      by apply (creation_of_message s).
    + apply (NoDup_fmap_1 creation_digest). replace (creation_digest <$> crs) with (item_digest ∘ snd <$> p_client (br_pipe b)); [done|].
      clear -Hcrs. induction Hcrs as [|cr x crs l (_ & _ & Hd & _) _ IH]; [done|]. cbn. by rewrite IH, Hd.
  - apply Forall2_fmap. eapply Forall2_impl; [exact Hcrs|]. intros cr x (Hin & Hne & _ & Hsubj & Hpay).
    destruct (creation_is_external s cr Hinv Hin) as (b' & e & Hb' & He & Hf & Hbk & Es & Ep). exists e. cbn.
    split_and!; try done; [|congruence..]. rewrite Hbk. intros Heq. apply Hne. by eapply same_broker_same_bridge.
Qed.

(** [C8] The bridges relay and never amplify: when every bridge has a broker of its
    own, then however broker deliveries, ingress, replication, notifications,
    reconciliation, the pipelines, restarts and failing stores, ciphers and journals
    interleave, the messages each bridge has published are matched one to one with
    distinct messages applications published on other brokers, with the same subject
    and the same bytes; and everything a bridge has queued to be stored was published
    by an application, never by a bridge. *)
Theorem bridges_relay_one_to_one bs steps s :
  NoDup (br_broker <$> bs) → Forall fresh_bridge bs → sys_run nonce steps (system_new bs) = Some s →
  ∀ i b, sy_bridges s !! i = Some b →
  (∃ ks, NoDup ks ∧ Forall2 (relays s b) ks (filter (λ e, le_from e = Some i) (sy_log s))) ∧
  (∀ k, k ∈ br_sources b → ∃ e, sy_log s !! k = Some e ∧ le_from e = None ∧ le_broker e = br_broker b).
Proof.
  intros Hnd Hf Hrun i b Hi. pose proof (inv_run steps _ s (inv_new bs Hnd Hf) Hrun) as Hinv.
  split; [by apply published_one_to_one|]. intros k. by apply source_is_external with (i := i).
Qed.

End relay.

(** ** Witness: two brokers

    Bridges [alpha] on broker 0 and [beta] on broker 1, with the journals on fresh
    directories; one message goes from broker 0 to broker 1, and [beta]'s own
    publication, delivered back to it, is not taken in. *)

Definition toy_contents : @StoreContents (gmap string string) toy_docs toy_doc_store.
Proof.
  refine {| stored := (λ (st : gmap string string) k d, st !! k = Some d) : gmap string string → string → @Doc toy_docs → Prop |}.
  - intros k st d Hget. cbn in Hget. by injection Hget.
  - intros k d st k' d' Hget. cbn in Hget. destruct (decide (k = k')) as [<-|Hne].
    + rewrite lookup_insert_eq in Hget. left. by injection Hget.
    + rewrite lookup_insert_ne in Hget by done. by right.
Defined.

Lemma toy_envelope_docs : @EnvelopeDocs toy_serde toy_docs.
Proof.
  constructor. intros e j d Hv Hp Hj. cbn [json_parse json_to_automerge toy_docs] in *. case_match; [done|]. simplify_eq.
  split.
  - cbn -[encode]. by destruct (encode (envelope_fields e)).
  - intros text [= <-]. by apply (envelope_roundtrip (SerdeLaws := toy_serde_laws)).
Qed.

Definition toy_bridge (id : string) (broker : nat) : Bridge (gmap string string) (Worker * Fs) (Worker * Fs) :=
  bridge_new id broker toy_mappings
    (mkNode ∅ (Some (mkInstalled {["tracks"%string]} (Some toy_exclusion))) None []) toy_delivery toy_status.

Definition toy_nonces (id : string) (k : nat) : bytes := replicate 12 Byte.x00.

Definition toy_view : ReaderView := mkView true 0 true.
Definition toy_message : Message := mkMessage "tracks.up" None toy_payload.

(** One message on its way from bridge [i] to bridge [j]. *)
Definition relay_round (i j k : nat) (doc_id : string) : list SysStep :=
  [DeliverTo i k toy_view; IngestNext i doc_id; Replicate i j (doc_key "tracks" doc_id);
   RemoteChange j (doc_key "tracks" doc_id) "peer" 0;
   PipeStep j (LedgerAnswer 0); PipeStep j (Resume 0 0); PipeStep j (Publish true (Ok tt) 0);
   PipeStep j (Flush (Some (Ok tt)) 0); PipeStep j (Complete 0)].

Definition toy_relay_steps : list SysStep :=
  AppPublish 0 toy_message :: relay_round 0 1 0 "one" ++ [DeliverTo 1 1 toy_view].

Definition toy_relay : option (System (gmap string string) (Worker * Fs) (Worker * Fs)) :=
  sys_run (sha := toy_sha) (H := toy_serde) (H0 := toy_cipher) (D := toy_docs) (DocStore0 := toy_doc_store)
    (ExclusionOps0 := exclusion_ops (sha := toy_sha)) (LedgerOps0 := delivery_ops (sha := toy_sha)) toy_nonces
    toy_relay_steps
    (system_new [toy_bridge "alpha" 0; toy_bridge "beta" 1]).

Lemma toy_relay_log :
  (λ s, (λ e, (le_broker e, le_from e, m_payload (le_message e))) <$> sy_log s) <$> toy_relay =
    Some [(0%nat, None, toy_payload); (1%nat, Some 1%nat, toy_payload)] ∧
  (λ s, br_sources <$> sy_bridges s) <$> toy_relay = Some [[0%nat]; []] ∧
  (λ s, length (filter (λ e, le_from e = Some 1%nat) (sy_log s))) <$> toy_relay = Some 1%nat.
Proof. vm_compute. by split. Qed.

Lemma bridges_relay_one_to_one_witness :
  ∃ s, toy_relay = Some s ∧ ∀ b, sy_bridges s !! 1%nat = Some b →
    ∃ k, Forall2 (relays s b) [k] (filter (λ e, le_from e = Some 1%nat) (sy_log s)).
Proof.
  destruct toy_relay_log as (_ & _ & Hlog). destruct toy_relay as [s|] eqn:Hrun; [|discriminate Hlog].
  exists s. split; [reflexivity|]. intros b Hb. injection Hlog as Hlen.
  destruct (bridges_relay_one_to_one (sha := toy_sha) (H := toy_serde) (H0 := toy_cipher) (D := toy_docs) (DocStore0 := toy_doc_store)
    (StoreContents0 := toy_contents) (ExclusionOps0 := exclusion_ops (sha := toy_sha)) (H1 := delivery_ops (sha := toy_sha))
    (H2 := delivery_laws (sha := toy_sha)) (H3 := toy_cipher_laws) (H4 := toy_docs_laws) (H5 := toy_envelope_docs) (H6 := toy_serde_laws)
    toy_nonces (λ _ _, eq_refl) None [toy_bridge "alpha" 0; toy_bridge "beta" 1] toy_relay_steps s) with (i := 1%nat) (b := b) as [(ks & _ & Hks) _].
  - change (NoDup [0%nat; 1%nat]). apply (bool_decide_unpack _). vm_compute. exact I.
  - repeat apply Forall_cons_2; [..|apply Forall_nil_2].
    all: eexists _, _, _, _, _, _; split; [reflexivity|]; split; [by repeat constructor|]; split; [reflexivity|]; split; [|exact toy_delivery_inv].
    all: intros key d Hd; cbn in Hd; by rewrite lookup_empty in Hd.
  - exact Hrun.
  - exact Hb.
  - pose proof (Forall2_length _ _ _ Hks) as Hl. rewrite Hlen in Hl. destruct ks as [|k [|]]; try discriminate Hl. exists k. exact Hks.
Defined.
