(* ===== verification/EnvelopeText.v ===== *)
(** * The sizes of what the libraries write

    How long the outputs are that the bridge's limits are checked against: the JSON
    text of an envelope, base64, the ciphertext, and the strings a document of JSON
    fields holds; as laws on the interfaces of the serialiser, the cipher and the
    document library. *)

From S2P Require Import Prelude Envelope NatsConfig Egress Preflight Crypto NodeDocs NodeDocsFacts Relay.
From Stdlib Require Import Strings.Ascii DecimalString DecimalN DecimalPos.

#[local] Open Scope Z_scope.

(** ** Escaping *)

Definition two_byte_escapes : list byte := [Byte.x22; Byte.x5c; Byte.x08; Byte.x0c; Byte.x0a; Byte.x0d; Byte.x09].

(** The bytes a byte of a string becomes in compact JSON. *)
Definition escaped_byte (b : byte) : Z :=
  if bool_decide (b ∈ two_byte_escapes) then 2 else if Z_of_byte b <? 0x20 then 6 else 1.

Definition escaped_bytes (l : bytes) : Z := foldr (λ b n, escaped_byte b + n) 0 l.
Definition escaped_len (s : string) : Z := escaped_bytes (str_bytes s).

(** A byte that occurs in JSON text: the control characters are white space. *)
Definition json_byte (b : byte) : bool :=
  (0x20 <=? Z_of_byte b) || bool_decide (b ∈ [Byte.x09; Byte.x0a; Byte.x0d]).

(** The text of an envelope without its four strings:
    [{"kind":"","version":1,"subject":"","source_node_id":"","payload":""}] *)
Definition ENVELOPE_FRAME : Z := 69.

(** ** What the sizes depend on *)

Class SerdeSizes `{Serde} := {
  accepted_bytes s : accepts_value s = true → forallb json_byte (str_bytes s) = true;
  envelope_len e : env_version e = BRIDGE_ENVELOPE_VERSION →
    str_len (envelope_to_json e) =
    ENVELOPE_FRAME + escaped_len (env_kind e) + escaped_len (env_subject e) + escaped_len (env_source_node_id e) + escaped_len (env_payload e);
}.

Class CipherSizes `{CipherOps} := {
  base64_len b : str_len (base64_encode b) = 4 * ((Z.of_nat (length b) + 2) `div` 3);
  aead_len key nonce p c : aead_encrypt key nonce p = Some c → Z.of_nat (length c) = Z.of_nat (length p) + 16;
}.

(** A JSON string of [n] bytes in a document: a scalar or a text object. *)
Definition string_value (n : Z) (v : AmValue) : Prop := v = VScalar (SStr (Z.to_N n)) ∨ v = VObject (AmText (Z.to_N n)).

(** The documents of JSON objects hold their fields; reading one gives the text
    again, possibly with its fields in another order. *)
Class DocSizes `{Serde} `{Docs} := {
  envelope_root e j d : 0 ≤ env_version e ≤ U32_MAX → json_parse (envelope_to_json e) = Some j → json_to_automerge j None = Some d →
    ∃ k s i p, string_value (str_len (env_kind e)) k ∧ string_value (str_len (env_subject e)) s ∧
      string_value (str_len (env_source_node_id e)) i ∧ string_value (str_len (env_payload e)) p ∧
      doc_root d ≡ₚ [("kind", k); ("version", VScalar SNumber); ("subject", s); ("source_node_id", i); ("payload", p)]%string;
  envelope_text e j d : 0 ≤ env_version e ≤ U32_MAX → json_parse (envelope_to_json e) = Some j → json_to_automerge j None = Some d →
    ∃ text, json_text (automerge_to_json d) = Some text ∧ str_len text = str_len (envelope_to_json e);
  wrapped_root s d : json_to_automerge (json_wrap s) None = Some d →
    ∃ v, string_value (str_len s) v ∧ doc_root d = [("value"%string, v)];
}.

(** ** Lengths *)

Lemma escaped_byte_bounds b : 1 ≤ escaped_byte b.
Proof. unfold escaped_byte. repeat case_match; lia. Qed.

Lemma escaped_bytes_lower l : Z.of_nat (length l) ≤ escaped_bytes l.
Proof. induction l as [|b l IH]; cbn [escaped_bytes foldr length] in *; [lia|]. pose proof (escaped_byte_bounds b). unfold escaped_bytes in IH. lia. Qed.

(** Escaping at most doubles JSON text. *)
Lemma escaped_bytes_double l : forallb json_byte l = true → escaped_bytes l ≤ 2 * Z.of_nat (length l).
Proof.
  induction l as [|b l IH]; cbn [escaped_bytes foldr length forallb]; [lia|]. intros [Hb Hl]%andb_true_iff. specialize (IH Hl).
  assert (escaped_byte b ≤ 2).
  { clear -Hb. unfold escaped_byte. case_bool_decide as Hin; [lia|]. unfold json_byte in Hb. case_match; [|lia].
    apply orb_true_iff in Hb as [Hb|Hb]; [lia|]. apply bool_decide_eq_true in Hb. exfalso. apply Hin.
    unfold two_byte_escapes. set_solver. }
  unfold escaped_bytes in IH. lia.
Qed.

Lemma escaped_len_lower s : str_len s ≤ escaped_len s.
Proof. unfold str_len, escaped_len. rewrite <-length_str_bytes. apply escaped_bytes_lower. Qed.

(** * The envelope as compact JSON

    An instance of the serialiser's interface that writes envelopes the way
    serde_json does: the fields in their order, without white space, the strings
    escaped, and reads exactly that form back. It has the laws the bridge relies on
    ([SerdeLaws]) and the sizes the admission limits depend on ([SerdeSizes]). *)

Definition Q : ascii := "034"%char.
Definition BS : ascii := "092"%char.

Definition hex_digit (n : Z) : ascii := ascii_of_nat (Z.to_nat (if n <? 10 then 48 + n else 87 + n)).
Definition hex_value (a : ascii) : Z := let n := Z.of_nat (nat_of_ascii a) in if n <? 58 then n - 48 else n - 87.

(** One character of a string. *)
Definition escape_char (a : ascii) : string :=
  let n := Z.of_nat (nat_of_ascii a) in
  let pair c := String BS (String c EmptyString) in
  if n =? 0x22 then pair Q else if n =? 0x5c then pair BS else if n =? 0x08 then pair "b"%char
  else if n =? 0x0c then pair "f"%char else if n =? 0x0a then pair "n"%char else if n =? 0x0d then pair "r"%char
  else if n =? 0x09 then pair "t"%char
  else if n <? 0x20 then String BS (String "u" (String "0" (String "0" (String (hex_digit (n / 16)) (String (hex_digit (n mod 16)) EmptyString)))))
  else String a EmptyString.

Fixpoint escape (s : string) : string :=
  match s with
  | EmptyString => EmptyString
  | String a s => escape_char a +:+ escape s
  end.

(** The character a two-byte escape stands for. *)
Definition unescape_pair (c : ascii) : option ascii :=
  if Ascii.eqb c Q then Some Q else if Ascii.eqb c BS then Some BS else if Ascii.eqb c "b" then Some "008"%char
  else if Ascii.eqb c "f" then Some "012"%char else if Ascii.eqb c "n" then Some "010"%char else if Ascii.eqb c "r" then Some "013"%char
  else if Ascii.eqb c "t" then Some "009"%char else None.

Definition prefix_char (a : ascii) (r : option (string * string)) : option (string * string) := '(s, rest) ← r; Some (String a s, rest).

(** The characters up to the closing quote, and what follows it. *)
Fixpoint read_string (t : string) : option (string * string) :=
  match t with
  | EmptyString => None
  | String a t1 =>
      if Ascii.eqb a Q then Some (EmptyString, t1)
      else if Ascii.eqb a BS then
        match t1 with
        | String c t2 =>
            match unescape_pair c with
            | Some x => prefix_char x (read_string t2)
            | None =>
                match t2 with
                | String _ (String _ (String h (String l t3))) =>
                    prefix_char (ascii_of_nat (Z.to_nat (16 * hex_value h + hex_value l))) (read_string t3)
                | _ => None
                end
            end
        | EmptyString => None
        end
      else prefix_char a (read_string t1)
  end.

(** A key with its quotes and colon, and the quote that opens its string. *)
Definition key_text (name : string) : string := String Q (name +:+ String Q ":").
Definition field (name value : string) : string := key_text name +:+ String Q (escape value +:+ String Q EmptyString).

Definition version_text (v : Z) : string := NilZero.string_of_uint (N.to_uint (Z.to_N v)).

Definition envelope_json (e : BridgeEnvelope) : string :=
  "{" +:+ field "kind" (env_kind e) +:+ "," +:+ key_text "version" +:+ version_text (env_version e) +:+ "," +:+
  field "subject" (env_subject e) +:+ "," +:+ field "source_node_id" (env_source_node_id e) +:+ "," +:+
  field "payload" (env_payload e) +:+ "}".

Definition read_field (name t : string) : option (string * string) :=
  t ← strip_prefix (key_text name) t; t ← strip_prefix (String Q EmptyString) t; read_string t.

Definition read_version (t : string) : option (Z * string) :=
  t ← strip_prefix (key_text "version") t;
  '(digits, t) ← split_once "," t;
  u ← NilZero.uint_of_string digits;
  Some (Z.of_N (N.of_uint u), t).

Definition read_envelope (t : string) : option BridgeEnvelope :=
  t ← strip_prefix "{" t;
  '(kind, t) ← read_field "kind" t;
  t ← strip_prefix "," t;
  '(version, t) ← read_version t;
  '(subj, t) ← read_field "subject" t;
  t ← strip_prefix "," t;
  '(node, t) ← read_field "source_node_id" t;
  t ← strip_prefix "," t;
  '(payload, t) ← read_field "payload" t;
  if bool_decide (t = "}"%string) then Some (mkEnvelope kind version subj node payload) else None.

(** ** Reading what was written *)

Lemma read_escaped_char a r : read_string (escape_char a +:+ r) = prefix_char a (read_string r).
Proof. destruct a as [[] [] [] [] [] [] [] []]; vm_compute escape_char; reflexivity. Qed.

Lemma read_escaped s rest : read_string (escape s +:+ String Q rest) = Some (s, rest).
Proof.
  induction s as [|a s IH]; [done|]. cbn [escape]. by rewrite string_app_assoc, read_escaped_char, IH.
Qed.

Lemma read_field_written name value rest : read_field name (field name value +:+ rest) = Some (value, rest).
Proof.
  unfold read_field, field. rewrite string_app_assoc, strip_prefix_app. cbn [mbind option_bind].
  rewrite string_app_cons, string_app_assoc. cbn [strip_prefix mbind option_bind]. rewrite Ascii.eqb_refl. apply read_escaped.
Qed.

(** Digits hold no comma. *)
Lemma digits_no_comma u : str_contains (NilEmpty.string_of_uint u) "," = false.
Proof. induction u; done. Qed.

Lemma version_no_comma v : str_contains (version_text v) "," = false.
Proof. unfold version_text, NilZero.string_of_uint. destruct (N.to_uint _); [done|..]; apply digits_no_comma. Qed.

Lemma digits_nonnil n : N.to_uint n ≠ Decimal.Nil.
Proof. destruct n as [|p]; [done|]. apply DecimalPos.Unsigned.to_uint_nonnil. Qed.

Lemma read_version_written v rest :
  0 ≤ v → read_version (key_text "version" +:+ version_text v +:+ "," +:+ rest) = Some (v, rest).
Proof.
  intros Hv. unfold read_version. rewrite strip_prefix_app. cbn [mbind option_bind].
  change ("," +:+ rest) with (String "," rest). rewrite split_once_app by apply version_no_comma. cbn [mbind option_bind].
  unfold version_text. rewrite NilZero.usu by apply digits_nonnil. cbn [mbind option_bind].
  by rewrite DecimalN.Unsigned.of_to, Z2N.id.
Qed.

Lemma read_envelope_written e : 0 ≤ env_version e → read_envelope (envelope_json e) = Some e.
Proof.
  intros Hv. unfold read_envelope, envelope_json. rewrite strip_prefix_app. cbn [mbind option_bind].
  rewrite read_field_written. cbn [mbind option_bind]. rewrite strip_prefix_app. cbn [mbind option_bind].
  rewrite read_version_written by done. cbn [mbind option_bind].
  rewrite read_field_written. cbn [mbind option_bind]. rewrite strip_prefix_app. cbn [mbind option_bind].
  rewrite read_field_written. cbn [mbind option_bind]. rewrite strip_prefix_app. cbn [mbind option_bind].
  rewrite read_field_written. cbn [mbind option_bind]. rewrite bool_decide_true by done. by destruct e.
Qed.

(** ** Its length *)

Lemma escape_len s : str_len (escape s) = escaped_len s.
Proof.
  induction s as [|a s IH]; [done|]. cbn [escape]. unfold str_len in *. rewrite length_string_app, Nat2Z.inj_add, IH.
  change (escaped_len (String a s)) with (escaped_byte (byte_of_ascii a) + escaped_len s). f_equal.
  by destruct a as [[] [] [] [] [] [] [] []].
Qed.

Lemma field_len name value : str_len (field name value) = str_len name + 5 + escaped_len value.
Proof.
  rewrite <-escape_len. unfold field, key_text, str_len. rewrite !string_app_cons, !string_app_assoc. cbn [String.length].
  rewrite !length_string_app. cbn [String.length]. rewrite !length_string_app. cbn [String.length]. lia.
Qed.

Lemma envelope_json_len e :
  env_version e = BRIDGE_ENVELOPE_VERSION →
  str_len (envelope_json e) =
  ENVELOPE_FRAME + escaped_len (env_kind e) + escaped_len (env_subject e) + escaped_len (env_source_node_id e) + escaped_len (env_payload e).
Proof.
  intros Hv. unfold envelope_json. rewrite Hv.
  pose proof (field_len "kind" (env_kind e)) as H1. pose proof (field_len "subject" (env_subject e)) as H2.
  pose proof (field_len "source_node_id" (env_source_node_id e)) as H3. pose proof (field_len "payload" (env_payload e)) as H4.
  unfold str_len in *. rewrite !length_string_app.
  change (String.length (version_text BRIDGE_ENVELOPE_VERSION)) with 1%nat. change (String.length (key_text "version")) with 10%nat.
  cbn [String.length] in *. unfold ENVELOPE_FRAME. lia.
Qed.

(** ** The instances *)

Definition json_serde : Serde := {|
  accepts_value s := negb (is_empty_str s) && forallb json_byte (str_bytes s);
  envelope_to_json := envelope_json;
  envelope_from_json := read_envelope;
|}.

Lemma json_serde_laws : @SerdeLaws json_serde.
Proof. constructor. intros e [He _]. by apply read_envelope_written. Qed.

Lemma json_serde_sizes : @SerdeSizes json_serde.
Proof. constructor; [|apply envelope_json_len]. intros s Ha. by apply andb_true_iff in Ha as [_ Ha]. Qed.

(** Documents as the JSON values the bridge stores: an envelope, or a wrapped text. *)
Inductive StoredJson := JEnvelope (e : BridgeEnvelope) | JWrapped (s : string).

Definition string_entry (name value : string) : string * AmValue := (name, VScalar (SStr (Z.to_N (str_len value)))).

Definition stored_root (j : StoredJson) : list (string * AmValue) :=
  match j with
  | JEnvelope e =>
      [string_entry "kind" (env_kind e); string_entry "payload" (env_payload e); string_entry "source_node_id" (env_source_node_id e);
       string_entry "subject" (env_subject e); ("version"%string, VScalar SNumber)]
  | JWrapped s => [string_entry "value" s]
  end.

Definition stored_text (j : StoredJson) : string :=
  match j with
  | JEnvelope e => envelope_json e
  | JWrapped s => "{" +:+ field "value" s +:+ "}"
  end.

(** The strings and a fixed header. *)
Definition stored_size (j : StoredJson) : Z :=
  64 + match j with
       | JEnvelope e => str_len (env_kind e) + str_len (env_subject e) + str_len (env_source_node_id e) + str_len (env_payload e)
       | JWrapped s => str_len s
       end.

Definition json_docs : Docs := {|
  Json := StoredJson;
  Doc := StoredJson;
  json_parse s := JEnvelope <$> read_envelope s;
  json_text j := Some (stored_text j);
  json_value_str j := match j with JWrapped s => Some s | JEnvelope _ => None end;
  json_wrap := JWrapped;
  json_to_automerge j base := Some j;
  automerge_to_json d := d;
  encoded_len := stored_size;
  doc_root := stored_root;
|}.

Lemma json_docs_laws : @DocsLaws json_docs.
Proof. constructor. by intros s base d [= <-]. Qed.

Lemma parsed_envelope e j d :
  0 ≤ env_version e ≤ U32_MAX → @json_parse json_docs (envelope_json e) = Some j → @json_to_automerge json_docs j None = Some d →
  d = JEnvelope e.
Proof. intros [Hv _] Hp [= <-]. change (JEnvelope <$> read_envelope (envelope_json e) = Some j) in Hp. rewrite read_envelope_written in Hp by done. by injection Hp. Qed.

Lemma json_envelope_docs : @EnvelopeDocs json_serde json_docs.
Proof.
  constructor. intros e j d Hv Hp Hj. pose proof (parsed_envelope e j d Hv Hp Hj) as ->. split; [done|].
  intros text Ht. injection Ht as <-. by apply (envelope_roundtrip (SerdeLaws := json_serde_laws)).
Qed.

Lemma json_doc_sizes : @DocSizes json_serde json_docs.
Proof.
  constructor.
  - intros e j d Hv Hp Hj. pose proof (parsed_envelope e j d Hv Hp Hj) as ->.
    do 4 eexists. split_and!; [by left..|]. cbn. unfold string_entry. constructor. solve_Permutation.
  - intros e j d Hv Hp Hj. pose proof (parsed_envelope e j d Hv Hp Hj) as ->. by eexists.
  - intros s d [= <-]. eexists. split; [by left|done].
Qed.

(** *** A cipher with the sizes

    Four characters for every three bytes begun, the first one saying how many of
    the last three are missing; sixteen bytes of the key as the tag. *)

Definition missing_byte (n : nat) : byte := match n with O => Byte.x00 | S O => Byte.x01 | _ => Byte.x02 end.
Definition missing_count (b : byte) : nat := match b with Byte.x00 => 0 | Byte.x01 => 1 | _ => 2 end%nat.

Definition quads (n : nat) : nat := (n + 2) `div` 3.

Definition sized_encode (l : bytes) : string :=
  match l with
  | [] => EmptyString
  | _ => String.string_of_list_byte
           (missing_byte (3 * quads (length l) - length l) :: l ++ replicate (4 * quads (length l) - length l - 1) Byte.x00)
  end.

Definition sized_decode (s : string) : option bytes :=
  match str_bytes s with
  | [] => Some []
  | r :: t => Some (take (3 * (S (length t) `div` 4) - missing_count r) t)
  end.

Definition sized_tag (key : bytes) : bytes := take 16 (key ++ replicate 16 Byte.x00).

Definition sized_cipher : CipherOps := {|
  base64_encode := sized_encode;
  base64_decode := sized_decode;
  aead_encrypt key nonce p := Some (sized_tag key ++ p);
  aead_decrypt key nonce c := if bool_decide (take 16 c = sized_tag key) then Some (drop 16 c) else None;
  hkdf_sha256 ikm info := take 32 (ikm ++ info);
|}.

Lemma quads_bounds n : (1 ≤ n)%nat → (3 * quads n - n ≤ 2)%nat ∧ (n ≤ 3 * quads n)%nat ∧ (1 ≤ quads n)%nat.
Proof.
  intros Hn. unfold quads. pose proof (Nat.div_mod (n + 2) 3 ltac:(lia)). pose proof (Nat.mod_upper_bound (n + 2) 3 ltac:(lia)). lia.
Qed.

Lemma missing_exact n : (n ≤ 2)%nat → missing_count (missing_byte n) = n.
Proof. intros Hn. destruct n as [|[|[|n]]]; try done. lia. Qed.

Lemma sized_tag_len key : length (sized_tag key) = 16%nat.
Proof. unfold sized_tag. rewrite length_take, length_app, length_replicate. lia. Qed.

Lemma sized_encode_len l : length (str_bytes (sized_encode l)) = (4 * quads (length l))%nat.
Proof.
  destruct l as [|b l]; [done|]. unfold sized_encode. set (k := b :: l).
  destruct (quads_bounds (length k)) as (_ & H2 & H3); [cbn; lia|]. rewrite str_bytes_of_list. cbn [length].
  rewrite length_app, length_replicate. lia.
Qed.

Lemma sized_roundtrip l : sized_decode (sized_encode l) = Some l.
Proof.
  destruct l as [|b l]; [done|]. pose proof (sized_encode_len (b :: l)) as Hlen. unfold sized_encode, sized_decode in *. set (k := b :: l) in *.
  destruct (quads_bounds (length k)) as (H1 & H2 & H3); [cbn; lia|]. rewrite str_bytes_of_list in Hlen |- *. cbn [length] in Hlen.
  rewrite Hlen. rewrite (Nat.mul_comm 4), Nat.div_mul, missing_exact by lia. f_equal.
  replace (3 * quads (length k) - (3 * quads (length k) - length k))%nat with (length k) by lia. apply take_app_length.
Qed.

Lemma sized_cipher_laws : @CipherLaws sized_cipher.
Proof.
  constructor; [apply sized_roundtrip|]. intros key nonce p c _ [= <-]. cbn -[take drop sized_tag].
  rewrite take_app_length', drop_app_length' by (by rewrite sized_tag_len). by rewrite bool_decide_true.
Qed.

Lemma sized_cipher_sizes : @CipherSizes sized_cipher.
Proof.
  constructor.
  - intros b. unfold str_len. rewrite <-length_str_bytes. change (base64_encode b) with (sized_encode b). rewrite sized_encode_len. unfold quads.
    rewrite Nat2Z.inj_mul, Nat2Z.inj_div, Nat2Z.inj_add. done.
  - intros key nonce p c [= <-]. rewrite length_app, sized_tag_len. lia.
Qed.

(** ** A replicated document *)

Definition json_store : @DocStore (gmap string StoredJson) json_docs := {|
  store_get k st := Some (st !! k);
  store_put k d st := (true, <[k := d]> st);
  store_delete k st := (true, delete k st);
  keys_with_prefix p st := Some (List.filter (λ k, starts_with k p) (map_to_list st).*1);
  scan_prefix p st := Some (List.filter (λ x, starts_with x.1 p) (map_to_list st));
|}.

Lemma json_store_laws : @DocStoreLaws (gmap string StoredJson) json_docs json_store.
Proof. constructor. intros k d st st' [= <-]. left. cbn. by rewrite lookup_insert_eq. Qed.
