(* ===== verification/Admission.v ===== *)
(** * From the ingress limits to the forwarding limits

    The bridge bounds messages twice: ingress admits payloads of at most 1 MiB
    ([MAX_INGRESS_PAYLOAD_BYTES]), and the node that should publish them forwards
    only documents within the gates of [hydrate] ([MAX_BRIDGE_AUTOMERGE_BYTES], the
    structural preflight, [MAX_BRIDGE_EVENT_JSON_BYTES]). This file relates the two:
    an accepted message's document passes the second set exactly if it is stored
    without encryption, or if its envelope has at most 1,572,830 bytes.
    The libraries enter by the sizes of what they write ([EnvelopeText]). *)

From S2P Require Import Prelude Journal JournalFacts LedgerWorker Readiness Envelope NatsConfig RateLimit Egress Preflight Crypto NodeDocs NodeDocsFacts.
From S2P Require Import ExclusionLedger Ingress Lifecycle Relay EnvelopeText.
From Stdlib Require Import Strings.Ascii.

#[local] Open Scope Z_scope.

(** The longest text whose encrypted form fits into 2 MiB of scalars. *)
Definition ENCRYPTED_EVENT_BYTES : Z := 1572830.

(** The encrypted form of a text fits exactly up to the limit. *)
Lemma encrypted_fits n : 0 ≤ n → str_len PREFIX + 4 * ((12 + (n + 16) + 2) `div` 3) ≤ MAX_EVENT_SCALAR_BYTES ↔ n ≤ ENCRYPTED_EVENT_BYTES.
Proof. intros Hn. change (str_len PREFIX) with 7. unfold MAX_EVENT_SCALAR_BYTES, ENCRYPTED_EVENT_BYTES. split; intros; Z.div_mod_to_equations; lia. Qed.

(** ** The costs of small maps *)

Lemma cost_eq a b : c_objects a = c_objects b → c_entries a = c_entries b → c_scalar a = c_scalar b → c_proxy a = c_proxy b → a = b.
Proof. destruct a, b. cbn. intros. by subst. Qed.

(** Neither the cost nor the shape of a map depends on the order of its entries. *)
Lemma map_cost_perm es es' : es ≡ₚ es' → object_cost (AmMap es) = object_cost (AmMap es').
Proof.
  rewrite !object_cost_children. intros Hp. apply (fmap_Permutation (λ p : string * AmValue, (Some p.1, p.2))) in Hp. cbn [children].
  induction Hp as [|x l l' Hp IH|x y l|l1 l2 l3 _ IH1 _ IH2]; [done| | |congruence].
  - cbn [entries_cost foldr]. unfold entries_cost in IH. by rewrite IH.
  - cbn [entries_cost foldr]. apply cost_eq; cbn [cost_add c_objects c_entries c_scalar c_proxy]; lia.
Qed.

Lemma map_shape_flat es :
  (length es ≤ 4096)%nat → Forall (λ p, (∃ n, string_value n p.2) ∨ p.2 = VScalar SNumber) es → object_shape 0 (AmMap es) = true.
Proof.
  intros Hlen Hes. cbn [object_shape]. unfold MAX_EVENT_DOCUMENT_DEPTH, MAX_EVENT_CONTAINER_ENTRIES. rewrite (proj2 (Z.leb_le _ _)) by lia.
  cbn. rewrite (proj2 (Z.leb_le _ _)) by lia. apply forallb_forall. intros p Hin. rewrite Forall_forall in Hes.
  destruct (Hes p) as [(n & [->| ->])| ->]; [by apply list_elem_of_In|done..].
Qed.

(** A string costs its bytes, and at most six times them in the output estimate. *)
Lemma string_value_cost n v : 0 ≤ n → string_value n v →
  c_scalar (value_cost v) = n ∧ c_entries (value_cost v) = 0 ∧ 0 ≤ c_objects (value_cost v) ≤ 1 ∧ 0 ≤ c_proxy (value_cost v) ≤ 6 * n + 2.
Proof. intros Hn [-> | ->]; cbn; rewrite Z2N.id by done; lia. Qed.

(** ** The gates on an accepted message's document *)

Section admission.
Context {sha : Sha256} `{Serde} `{CipherOps} `{D : Docs} {St : Type} `{!DocStore St, !DocStoreLaws St} {E : Type} `{!ExclusionOps E, !ExclusionLaws E}.
Context `{!CipherLaws, !DocsLaws, !EnvelopeDocs, !SerdeLaws, !SerdeSizes, !CipherSizes, !DocSizes}.
Implicit Types n m : Node St E.

(** Room for the subject and the node's id beside the payload: what the allowance
    in [MAX_BRIDGE_EVENT_JSON_BYTES] leaves for them. *)
Definition names_fit (subj id : string) : Prop := ENVELOPE_FRAME + 16 + escaped_len subj + escaped_len id ≤ 4096.

(** Whether the document passes: always without a cipher, up to a bound under one. *)
Definition leaves n (env : BridgeEnvelope) : bool :=
  match nd_cipher n with
  | None => true
  | Some _ => str_len (envelope_to_json env) <=? ENCRYPTED_EVENT_BYTES
  end.

Lemma from_payload_sizes subj id data env :
  from_payload subj id data = Ok env → names_fit subj id → Z.of_nat (length data) ≤ MAX_INGRESS_PAYLOAD_BYTES →
  0 ≤ env_version env ≤ U32_MAX ∧ str_len (env_kind env) = 16 ∧ str_len (env_subject env) + str_len (env_source_node_id env) ≤ 4096 - 16 - ENVELOPE_FRAME ∧
  str_len (env_payload env) ≤ MAX_INGRESS_PAYLOAD_BYTES ∧ str_len (envelope_to_json env) ≤ MAX_BRIDGE_EVENT_JSON_BYTES.
Proof.
  intros Hp Hfit Hlen. pose proof Hp as Hp'. apply from_payload_Ok in Hp as ((s & Hs & Ha) & Hk & Hv & Hsub & Hid & Hpay).
  rewrite (envelope_len env Hv), Hk, Hv, Hsub, Hid.
  apply from_utf8_Some in Hs as [Hs _]. assert (env_payload env = s) as Hps by (apply str_bytes_inj; congruence).
  pose proof (escaped_bytes_double (str_bytes s) (accepted_bytes s Ha)) as Hd. rewrite Hs in Hd.
  pose proof (escaped_len_lower subj). pose proof (escaped_len_lower id). unfold names_fit in Hfit.
  assert (str_len (env_payload env) = Z.of_nat (length data)) as Hpl by (rewrite Hps; unfold str_len; rewrite <-length_str_bytes, Hs; done).
  assert (escaped_len (env_payload env) = escaped_bytes data) as He by (unfold escaped_len; by rewrite Hpay).
  change (escaped_len BRIDGE_ENVELOPE_KIND) with 16. change (str_len BRIDGE_ENVELOPE_KIND) with 16.
  unfold BRIDGE_ENVELOPE_VERSION, U32_MAX, MAX_INGRESS_PAYLOAD_BYTES, MAX_BRIDGE_EVENT_JSON_BYTES in *. lia.
Qed.

(** Unencrypted, the four strings fit into the scalar bytes. *)
Lemma plain_preflight env parsed d subj id data :
  from_payload subj id data = Ok env → names_fit subj id → Z.of_nat (length data) ≤ MAX_INGRESS_PAYLOAD_BYTES →
  json_parse (envelope_to_json env) = Some parsed → json_to_automerge parsed None = Some d →
  preflight_event_document (doc_root d) = Some (Ok tt).
Proof.
  intros Hp Hfit Hlen Hj Hd. destruct (from_payload_sizes _ _ _ _ Hp Hfit Hlen) as (Hv & Hk & Hnames & Hpay & _).
  destruct (envelope_root env parsed d Hv Hj Hd) as (k & s & i & p & Vk & Vs & Vi & Vp & Hroot). rewrite preflight_decides.
  rewrite (map_cost_perm _ _ Hroot), map_shape_flat.
  - rewrite andb_true_r, bool_decide_true; [done|]. rewrite object_cost_children.
    assert (∀ t, 0 ≤ str_len t) as Hpos by (intros; unfold str_len; lia).
    pose proof (Hpos (env_subject env)). pose proof (Hpos (env_source_node_id env)). pose proof (Hpos (env_payload env)).
    apply string_value_cost in Vk as (? & ? & ? & ?), Vs as (? & ? & ? & ?), Vi as (? & ? & ? & ?), Vp as (? & ? & ? & ?); try apply Hpos.
    unfold within, MAX_EVENT_DOCUMENT_OBJECTS, MAX_EVENT_TOTAL_ENTRIES, MAX_EVENT_SCALAR_BYTES, MAX_EVENT_OUTPUT_PROXY_BYTES,
      MAX_BRIDGE_EVENT_JSON_BYTES, MAX_INGRESS_PAYLOAD_BYTES, ENVELOPE_FRAME in *.
    cbn -[Z.mul value_cost str_len]. change (str_len "kind") with 4. change (str_len "version") with 7. change (str_len "subject") with 7.
    change (str_len "source_node_id") with 14. change (str_len "payload") with 7.
    change (value_cost (VScalar SNumber)) with (mkCost 0 0 0 32). cbn -[Z.mul value_cost str_len]. lia.
  - rewrite (Permutation_length Hroot). cbn. lia.
  - rewrite Hroot. repeat apply Forall_cons_2; cbn; eauto.
Qed.

Lemma encrypted_len c nonce text enc :
  length nonce = 12%nat → encrypt c nonce text = Ok enc → str_len enc = str_len PREFIX + 4 * ((12 + (str_len text + 16) + 2) `div` 3).
Proof.
  intros Hn He. unfold encrypt, ok_or in He. destruct (aead_encrypt _ nonce _) as [ct|] eqn:Ha; [|done]. injection He as <-.
  pose proof (base64_len (nonce ++ ct)) as Hb. rewrite length_app, Hn, Nat2Z.inj_add, (aead_len _ _ _ _ Ha), length_str_bytes in Hb.
  unfold str_len in Hb |- *. rewrite length_string_app. lia.
Qed.

(** Encrypted, the one string fits exactly up to the bound. *)
Lemma wrapped_preflight c nonce text enc d :
  length nonce = 12%nat → encrypt c nonce text = Ok enc → json_to_automerge (json_wrap enc) None = Some d →
  preflight_event_document (doc_root d) = Some (if str_len text <=? ENCRYPTED_EVENT_BYTES then Ok tt else Err StructuralLimit).
Proof.
  intros Hn He Hd. destruct (wrapped_root enc d Hd) as (v & Hv & Hroot). rewrite preflight_decides, Hroot, map_shape_flat.
  2: { cbn. lia. } 2: { repeat constructor; cbn; eauto. }
  rewrite andb_true_r. pose proof (encrypted_len c nonce text enc Hn He) as Hlen.
  assert (0 ≤ str_len text) as Hpos by (unfold str_len; lia). pose proof (encrypted_fits (str_len text) Hpos) as Hfits.
  apply string_value_cost in Hv as (Vs & Ve & Vo & Vp); [|unfold str_len; lia]. rewrite Hlen in Vs, Vp. rewrite object_cost_children.
  destruct (Z.leb_spec (str_len text) ENCRYPTED_EVENT_BYTES) as [Hle|Hgt].
  - rewrite bool_decide_true; [done|]. apply Hfits in Hle. revert Hle Vs Ve Vo Vp. unfold within, MAX_EVENT_DOCUMENT_OBJECTS,
      MAX_EVENT_TOTAL_ENTRIES, MAX_EVENT_OUTPUT_PROXY_BYTES, MAX_BRIDGE_EVENT_JSON_BYTES, MAX_EVENT_SCALAR_BYTES.
    cbn -[Z.mul Z.div value_cost str_len]. change (str_len "value") with 5. lia.
  - rewrite bool_decide_false; [done|]. intros (_ & _ & Hs & _). cbn -[Z.mul Z.div value_cost MAX_EVENT_SCALAR_BYTES] in Hs. lia.
Qed.

(** [hydrate] on the document of an accepted message, on any node with the cipher
    of the one that stored it. *)
Lemma hydrate_accepted subj id data env nonce parsed n m d :
  from_payload subj id data = Ok env → names_fit subj id → Z.of_nat (length data) ≤ MAX_INGRESS_PAYLOAD_BYTES →
  length nonce = 12%nat → is_Some (chars (str_bytes (envelope_to_json env))) →
  json_parse (envelope_to_json env) = Some parsed → build_document nonce (envelope_to_json env) parsed None n = Ok d →
  nd_cipher m = nd_cipher n → encoded_len d ≤ MAX_BRIDGE_AUTOMERGE_BYTES →
  if leaves n env then ∃ text, hydrate d m = Ok text ∧ envelope_from_json text = Some env else hydrate d m = Err StructuralLimit.
Proof.
  intros Hp Hfit Hlen Hn Hutf Hj Hb Hm Hsize. destruct (from_payload_sizes _ _ _ _ Hp Hfit Hlen) as (Hv & _ & _ & _ & Htext).
  unfold build_document in Hb. unfold leaves, hydrate. rewrite Hm. apply Z.ltb_ge in Hsize. rewrite Hsize.
  destruct (nd_cipher n) as [c|].
  - destruct (encrypt c nonce _) as [enc|] eqn:He; cbn in Hb; [|done]. destruct (json_to_automerge _ _) as [d'|] eqn:Hd; cbn in Hb; [|done].
    injection Hb as ->. rewrite (wrapped_preflight c nonce _ enc d Hn He Hd). case_match; [|done].
    destruct (decrypt_encrypt c nonce _ enc Hn Hutf He) as [Henc Hdec].
    unfold encrypted_value. rewrite (wrapped_value _ _ _ Hd), Henc, Hdec. cbn [map_err].
    apply Z.ltb_ge in Htext. rewrite Htext. eexists. split; [done|]. by apply envelope_roundtrip.
  - destruct (json_to_automerge _ _) as [d'|] eqn:Hd; cbn in Hb; [|done]. injection Hb as ->.
    rewrite (plain_preflight env parsed d subj id data Hp Hfit Hlen Hj Hd).
    destruct (envelope_document env parsed d Hv Hj Hd) as [Hval Hback]. destruct (envelope_text env parsed d Hv Hj Hd) as (text & Ht & Hl).
    unfold encrypted_value. rewrite Hval, Ht. cbn [ok_or]. rewrite Hl. apply Z.ltb_ge in Htext. rewrite Htext. eauto.
Qed.

(** What a successful create stored. *)
Lemma create_document_Ok nonce c i json n n' :
  create_bridge_document nonce c i json n = (Ok tt, n') →
  ∃ parsed doc st, json_parse json = Some parsed ∧ nd_cipher n' = nd_cipher n ∧
    build_document nonce json parsed None n' = Ok doc ∧ store_put (doc_key c i) doc st = (true, nd_store n').
Proof.
  unfold create_bridge_document, write_document. intros Hrun. destruct (json_parse json) as [parsed|]; [|done].
  destruct (record_local_exclusion c i n) as [rl n1] eqn:Hl. apply record_local_exclusion_le in Hl as ((_ & Hcip & _) & _).
  destruct rl as [[]|]; [|done]. destruct (store_get _ (nd_store n1)) as [[existing|]|]; [done| |done].
  destruct (build_document nonce json parsed None n1) as [doc|e] eqn:Hb; [|done].
  destruct (store_put _ doc _) as [b st] eqn:Hput. destruct b; [|done]. injection Hrun as <-.
  by exists parsed, doc, (nd_store n1).
Qed.

(** The live and the reconciling path on a replica with the document. *)
Lemma read_paths c i peer m d :
  str_contains c ":"%char = false → str_len c ≤ MAX_BRIDGE_IDENTITY_BYTES → str_len i ≤ MAX_BRIDGE_IDENTITY_BYTES →
  str_len peer ≤ MAX_BRIDGE_IDENTITY_BYTES → store_get (doc_key c i) (nd_store m) = Some (Some d) →
  forward_remote (doc_key c i) peer m = map_ok (λ text, Some (mkEvent c i peer text)) (hydrate d m) ∧
  (hydrate d m = Err StructuralLimit → get_bridge_document c i m = Ok None) ∧
  (∀ text, hydrate d m = Ok text → get_bridge_document c i m = Ok (Some text)).
Proof.
  intros Hc Lc Li Lp Hget. unfold forward_remote, get_bridge_document. rewrite doc_key_split, Hget by done.
  rewrite !(proj2 (Z.ltb_ge _ _)) by done. cbn. split_and!; [done|by intros ->|by intros ? ->].
Qed.

(** Both ways out of the store for the document of an accepted message. *)
Lemma accepted_document_read subj id data env nonce c i peer n n' m d :
  from_payload subj id data = Ok env → Z.of_nat (length data) ≤ MAX_INGRESS_PAYLOAD_BYTES → names_fit subj id →
  length nonce = 12%nat → is_Some (chars (str_bytes (envelope_to_json env))) →
  create_bridge_document nonce c i (envelope_to_json env) n = (Ok tt, n') →
  store_get (doc_key c i) (nd_store n') = Some (Some d) → store_get (doc_key c i) (nd_store m) = Some (Some d) → nd_cipher m = nd_cipher n →
  encoded_len d ≤ MAX_BRIDGE_AUTOMERGE_BYTES →
  str_contains c ":"%char = false → str_len c ≤ MAX_BRIDGE_IDENTITY_BYTES → str_len i ≤ MAX_BRIDGE_IDENTITY_BYTES →
  str_len peer ≤ MAX_BRIDGE_IDENTITY_BYTES →
  if leaves n env
  then ∃ text, forward_remote (doc_key c i) peer m = Ok (Some (mkEvent c i peer text)) ∧ get_bridge_document c i m = Ok (Some text) ∧
         envelope_from_json text = Some env
  else forward_remote (doc_key c i) peer m = Err StructuralLimit ∧ get_bridge_document c i m = Ok None.
Proof.
  intros Hp Hlen Hfit Hn Hutf (parsed & doc & st & Hj & Hcip & Hb & Hput)%create_document_Ok Hget Hgetm Hm Hsize Hc Lc Li Lp.
  assert (doc = d) as -> by (destruct (put_get _ _ _ _ Hput); congruence).
  destruct (read_paths c i peer m d Hc Lc Li Lp Hgetm) as (Hf & Hno & Hyes).
  pose proof (hydrate_accepted subj id data env nonce parsed n' m d Hp Hfit Hlen Hn Hutf Hj Hb ltac:(congruence) Hsize) as Hh.
  unfold leaves in *. rewrite Hcip in Hh. rewrite Hf. destruct (match nd_cipher n with Some _ => _ | None => _ end).
  - destruct Hh as (text & Hh & Henv). exists text. rewrite Hh. by split_and!; [|apply Hyes|].
  - rewrite Hh. split; [done|by apply Hno].
Qed.


(** ** A message that is accepted and stays behind *)

(** An array of [k + 1] empty strings: [3k + 4] bytes, [5k + 6] of them escaped. *)
Definition quoted_array (k : nat) : bytes :=
  [Byte.x5b] ++ mjoin (replicate k [Byte.x22; Byte.x22; Byte.x2c]) ++ [Byte.x22; Byte.x22; Byte.x5d].

Lemma quoted_array_len k : length (quoted_array k) = (3 * k + 4)%nat.
Proof.
  unfold quoted_array. rewrite !length_app. cbn [length].
  induction k as [|k IH]; [done|].
  change (mjoin (replicate (S k) [Byte.x22; Byte.x22; Byte.x2c])) with (Byte.x22 :: Byte.x22 :: Byte.x2c :: mjoin (replicate k [Byte.x22; Byte.x22; Byte.x2c])).
  cbn [length]. lia.
Qed.

Lemma quoted_array_escaped k : escaped_bytes (quoted_array k) = 5 * Z.of_nat k + 6.
Proof.
  unfold quoted_array. cbn [app escaped_bytes foldr]. change (escaped_byte Byte.x5b) with 1.
  induction k as [|k IH]; [done|].
  change (mjoin (replicate (S k) [Byte.x22; Byte.x22; Byte.x2c])) with (Byte.x22 :: Byte.x22 :: Byte.x2c :: mjoin (replicate k [Byte.x22; Byte.x22; Byte.x2c])).
  cbn [app foldr]. change (escaped_byte Byte.x22) with 2. change (escaped_byte Byte.x2c) with 1. lia.
Qed.

(** Under encryption, a message within ingress's limit can be stored and never be
    forwarded: an array of 349,525 empty strings has 1,048,576 bytes, its envelope
    more than 1,747,000, its encrypted form more than the 2 MiB the receiving node
    admits, on both ways. *)
Theorem encrypted_message_stays_behind subj id env nonce c i peer cipher n n' m d :
  let data := quoted_array (Z.to_nat 349524) in
  from_payload subj id data = Ok env → names_fit subj id → length nonce = 12%nat → is_Some (chars (str_bytes (envelope_to_json env))) →
  nd_cipher n = Some cipher →
  create_bridge_document nonce c i (envelope_to_json env) n = (Ok tt, n') →
  store_get (doc_key c i) (nd_store n') = Some (Some d) → store_get (doc_key c i) (nd_store m) = Some (Some d) → nd_cipher m = nd_cipher n →
  encoded_len d ≤ MAX_BRIDGE_AUTOMERGE_BYTES →
  str_contains c ":"%char = false → str_len c ≤ MAX_BRIDGE_IDENTITY_BYTES → str_len i ≤ MAX_BRIDGE_IDENTITY_BYTES →
  str_len peer ≤ MAX_BRIDGE_IDENTITY_BYTES →
  Z.of_nat (length data) = MAX_INGRESS_PAYLOAD_BYTES ∧
  forward_remote (doc_key c i) peer m = Err StructuralLimit ∧ get_bridge_document c i m = Ok None.
Proof.
  intros data Hp Hfit Hn Hutf Hcip (parsed & doc & st & Hj & Hc' & Hb & Hput)%create_document_Ok Hget Hgetm Hm Hsize Hc Lc Li Lp.
  assert (Z.of_nat (length data) = MAX_INGRESS_PAYLOAD_BYTES) as Hlen.
  { unfold data. rewrite quoted_array_len. unfold MAX_INGRESS_PAYLOAD_BYTES. lia. }
  split; [done|]. assert (doc = d) as -> by (destruct (put_get _ _ _ _ Hput); congruence).
  destruct (read_paths c i peer m d Hc Lc Li Lp Hgetm) as (Hf & Hno & _).
  pose proof (hydrate_accepted subj id data env nonce parsed n' m d Hp Hfit ltac:(lia) Hn Hutf Hj Hb ltac:(congruence) Hsize) as Hh.
  apply from_payload_Ok in Hp as (_ & _ & Hv & _ & _ & Hpay). unfold leaves in Hh. rewrite Hc', Hcip in Hh.
  rewrite (proj2 (Z.leb_gt _ _)) in Hh; [rewrite Hf, Hh; split; [done|by apply Hno]|].
  rewrite (envelope_len env Hv). assert (∀ s, 0 ≤ escaped_len s) as Hpos by (intros s; pose proof (escaped_len_lower s); unfold str_len in *; lia).
  pose proof (Hpos (env_kind env)). pose proof (Hpos (env_subject env)). pose proof (Hpos (env_source_node_id env)).
  assert (escaped_len (env_payload env) = 5 * Z.of_nat (Z.to_nat 349524) + 6) as ->
    by (unfold escaped_len; rewrite Hpay; apply quoted_array_escaped).
  unfold ENVELOPE_FRAME, ENCRYPTED_EVENT_BYTES. lia.
Qed.

End admission.

(** ** Witness: an encrypted store

    The envelope of a small message, stored encrypted on one node and read on a
    replica. *)

Definition small_payload : bytes := [Byte.x5b; Byte.x22; Byte.x22; Byte.x5d].
Definition small_envelope : BridgeEnvelope :=
  mkEnvelope BRIDGE_ENVELOPE_KIND BRIDGE_ENVELOPE_VERSION "tracks.up" "alpha" (String.string_of_list_byte small_payload).
Definition sized_nonce : bytes := replicate 12 Byte.x07.
Definition encrypted_node : Node (gmap string StoredJson) (Worker * Fs) := mkNode ∅ None (Some (mkCipher [Byte.x01])) [].

Definition small_created : result CreateBridgeDocumentError unit * Node (gmap string StoredJson) (Worker * Fs) :=
  create_bridge_document (sha := toy_sha) (H := sized_cipher) (D := json_docs) (DocStore0 := json_store) (H0 := exclusion_ops (sha := toy_sha))
    sized_nonce "tracks" "one" (envelope_json small_envelope) encrypted_node.


(** *** The message that stays behind

    All hypotheses of [encrypted_message_stays_behind] hold of the array itself. *)

Definition ascii_bytes (l : bytes) : bool := forallb (in_range 0x00 0x7f) l.

Lemma ascii_chars l : ascii_bytes l = true → is_Some (chars l).
Proof.
  unfold chars. enough (∀ fuel l, (length l ≤ fuel)%nat → ascii_bytes l = true → is_Some (utf8_chars fuel l)) as Hall by (by apply Hall).
  clear l. intros fuel.
  induction fuel as [|fuel IH]; intros [|b l] Hlen Ha; cbn [length] in Hlen; [by eexists|lia|by eexists|].
  cbn in Ha. apply andb_true_iff in Ha as [Hb Hl]. destruct (IH l) as [cs Hcs]; [lia|done|].
  exists ([b] :: cs). cbn [utf8_chars].
  replace (utf8_char_len (b :: l)) with (Some 1%nat) by (unfold utf8_char_len; by rewrite Hb).
  cbn [mbind option_bind]. change (drop 1 (b :: l)) with l. by rewrite Hcs.
Qed.

Lemma ascii_app l k : ascii_bytes (l ++ k) = ascii_bytes l && ascii_bytes k.
Proof. apply forallb_app. Qed.

Lemma ascii_string_app s t : ascii_bytes (str_bytes (s +:+ t)) = ascii_bytes (str_bytes s) && ascii_bytes (str_bytes t).
Proof. rewrite <-ascii_app. f_equal. induction s as [|a s IH]; [done|]. rewrite string_app_cons. cbn. by f_equal. Qed.

Lemma escape_ascii s : ascii_bytes (str_bytes s) = true → ascii_bytes (str_bytes (escape s)) = true.
Proof.
  induction s as [|a s IH]; [done|]. intros Ha. change (in_range 0x00 0x7f (byte_of_ascii a) && ascii_bytes (str_bytes s) = true) in Ha.
  apply andb_true_iff in Ha as [Ha Hs]. cbn [escape]. rewrite ascii_string_app, IH, andb_true_r by done.
  clear -Ha. by destruct a as [[] [] [] [] [] [] [] []].
Qed.

Lemma quoted_array_ascii k : ascii_bytes (quoted_array k) = true ∧ forallb json_byte (quoted_array k) = true.
Proof.
  unfold quoted_array. rewrite ascii_app, !forallb_app, ascii_app.
  assert (ascii_bytes (mjoin (replicate k [Byte.x22; Byte.x22; Byte.x2c])) = true ∧
    forallb json_byte (mjoin (replicate k [Byte.x22; Byte.x22; Byte.x2c])) = true) as [-> ->]; [|done].
  induction k as [|k [IH1 IH2]]; [done|].
  change (mjoin (replicate (S k) [Byte.x22; Byte.x22; Byte.x2c])) with ([Byte.x22; Byte.x22; Byte.x2c] ++ mjoin (replicate k [Byte.x22; Byte.x22; Byte.x2c])).
  by rewrite ascii_app, forallb_app, IH1, IH2.
Qed.

Definition large_envelope (k : nat) : BridgeEnvelope :=
  mkEnvelope BRIDGE_ENVELOPE_KIND BRIDGE_ENVELOPE_VERSION "tracks.up" "alpha" (String.string_of_list_byte (quoted_array k)).

Lemma large_accepted k : from_payload (H := json_serde) "tracks.up" "alpha" (quoted_array k) = Ok (large_envelope k).
Proof.
  destruct (quoted_array_ascii k) as [Ha Hj]. unfold from_payload, from_utf8. rewrite bool_decide_true by (by apply ascii_chars).
  cbn [accepts_value json_serde]. rewrite str_bytes_of_list, Hj, andb_true_r. done.
Qed.

Lemma field_ascii name value :
  ascii_bytes (str_bytes name) = true → ascii_bytes (str_bytes value) = true → ascii_bytes (str_bytes (field name value)) = true.
Proof.
  intros Hn Hv. assert (∀ s, ascii_bytes (str_bytes (String Q s)) = ascii_bytes (str_bytes s)) as Hq by done.
  unfold field, key_text. rewrite ascii_string_app, !Hq, !ascii_string_app, Hn, escape_ascii by done. done.
Qed.

Lemma large_text_utf8 k : is_Some (chars (str_bytes (envelope_json (large_envelope k)))).
Proof.
  apply ascii_chars. unfold envelope_json. rewrite !ascii_string_app, !field_ascii; try done. cbn [large_envelope env_payload].
  rewrite str_bytes_of_list. apply quoted_array_ascii.
Qed.

(** Both stores hold the encrypted document after one create and one replication. *)
Lemma encrypted_message_stays_behind_witness :
  ∃ m d, store_get (DocStore := json_store) (doc_key "tracks" "one") (nd_store m) = Some (Some d) ∧
    forward_remote (E := Worker * Fs) (H := sized_cipher) (D := json_docs) (DocStore0 := json_store) (doc_key "tracks" "one") "peer" m = Err StructuralLimit.
Proof.
  set (env := large_envelope (Z.to_nat 349524)).
  destruct (encrypt (H := sized_cipher) (mkCipher [Byte.x01]) sized_nonce (envelope_json env)) as [enc|] eqn:He; [|discriminate He].
  set (d := JWrapped enc).
  set (n' := mkNode (<[doc_key "tracks" "one" := d]> (∅ : gmap string StoredJson)) (None : option (InstalledLedger (Worker * Fs))) (Some (mkCipher [Byte.x01])) []).
  assert (create_bridge_document (sha := toy_sha) (H := sized_cipher) (D := json_docs) (DocStore0 := json_store) (H0 := exclusion_ops (sha := toy_sha))
    sized_nonce "tracks" "one" (envelope_json env) encrypted_node = (Ok tt, n')) as Hrun.
  { unfold create_bridge_document, write_document. change (@json_parse json_docs ?t) with (JEnvelope <$> read_envelope t).
    rewrite read_envelope_written by done. cbn [fmap option_fmap option_map record_local_exclusion encrypted_node nd_ledger].
    replace (store_get (DocStore := json_store) (doc_key "tracks" "one") (nd_store encrypted_node)) with (Some (None : option StoredJson)) by reflexivity.
    unfold build_document. change (nd_cipher encrypted_node) with (Some (mkCipher [Byte.x01])). cbn iota. rewrite He. reflexivity. }
  assert (store_get (DocStore := json_store) (doc_key "tracks" "one") (nd_store n') = Some (Some d)) as Hget by (cbn; by rewrite lookup_insert_eq).
  assert (∀ s : string, (str_len s <=? MAX_BRIDGE_IDENTITY_BYTES) = true → str_len s ≤ MAX_BRIDGE_IDENTITY_BYTES) as Hid by (intros s; apply Z.leb_le).
  exists n', d. split; [exact Hget|].
  apply (encrypted_message_stays_behind (sha := toy_sha) (H := json_serde) (H0 := sized_cipher) (D := json_docs) (DocStore0 := json_store)
    (DocStoreLaws0 := json_store_laws) (ExclusionOps0 := exclusion_ops (sha := toy_sha)) (ExclusionLaws0 := exclusion_laws (sha := toy_sha))
    (H1 := sized_cipher_laws) (H2 := json_docs_laws) (H3 := json_envelope_docs) (H4 := json_serde_laws) (H5 := json_serde_sizes)
    (H6 := sized_cipher_sizes) (H7 := json_doc_sizes)
    "tracks.up" "alpha" env sized_nonce "tracks" "one" "peer" (mkCipher [Byte.x01]) encrypted_node n' n' d).
  - apply large_accepted.
  - apply Z.leb_le. vm_compute. reflexivity.
  - reflexivity.
  - apply large_text_utf8.
  - reflexivity.
  - exact Hrun.
  - exact Hget.
  - exact Hget.
  - reflexivity.
  - change (64 + str_len enc ≤ MAX_BRIDGE_AUTOMERGE_BYTES). rewrite (encrypted_len (H0 := sized_cipher) (H6 := sized_cipher_sizes) _ _ _ _ (eq_refl : length sized_nonce = 12%nat) He).
    rewrite (envelope_json_len env eq_refl). change (escaped_len (env_payload env)) with (escaped_bytes (str_bytes (env_payload env))).
    cbn [env env_kind env_subject env_source_node_id env_payload large_envelope]. rewrite str_bytes_of_list, quoted_array_escaped.
    change (escaped_len BRIDGE_ENVELOPE_KIND) with 16. change (escaped_len "tracks.up") with 9. change (escaped_len "alpha") with 5.
    rewrite Z2Nat.id by lia. apply Z.leb_le. vm_compute. reflexivity.
  - reflexivity.
  - by apply Hid.
  - by apply Hid.
  - by apply Hid.
Defined.
