(* ===== verification/RelayRuns.v ===== *)
(** * Two bridges on one broker

    The origin mark only stops a bridge from taking in its own publications. When two
    bridges serve the same subject on one broker, each takes in what the other
    publishes, stores it as a new document and has it published again: one message is
    published once per document id drawn, without end. The journals here are lists
    that never fail; they meet the same contract as the real ones. *)

From S2P Require Import Prelude Journal JournalFacts LedgerWorker LedgerWorkerFacts Readiness Envelope NatsConfig RateLimit Egress EgressLedger.
From S2P Require Import EgressFacts Preflight Crypto NodeDocs ExclusionLedger NodeDocsFacts Ingress IngressFacts Lifecycle Relay EnvelopeText.
From S2P Require Import Admission.
From Stdlib Require Import Strings.Ascii.

#[local] Open Scope Z_scope.

(** ** Pipeline steps in the system *)

Section pipes.
Context {sha : Sha256} `{Serde} `{CipherOps} `{D : Docs} {St : Type} `{!DocStore St} {E : Type} `{!ExclusionOps E} {L : Type} `{!LedgerOps L}.
Context (nonce : string → nat → bytes).

Lemma sys_run_app steps steps' (s : System St E L) : sys_run nonce (steps ++ steps') s = (s1 ← sys_run nonce steps s; sys_run nonce steps' s1).
Proof.
  revert s. induction steps as [|st steps IH]; intros s; [done|]. cbn [app sys_run]. destruct (sys_step nonce st s); cbn [mbind option_bind]; [apply IH|done].
Qed.

Definition no_offer (st : Step) : Prop := match st with Offer _ _ => False | _ => True end.

Lemma step_client origin st (p p' : Pipeline L) :
  step origin st p = Next p' → ∃ new, p_client p' = p_client p ++ new.
Proof.
  intros Hs. destruct (step_items origin (λ _, True) st p p' Hs) as (_ & _ & new & Hnew & _).
  - done.
  - split_and!; by apply Forall_true.
  - by exists new.
Qed.

Lemma run_client origin steps (p p' : Pipeline L) :
  run origin steps p = Next p' → ∃ new, p_client p' = p_client p ++ new.
Proof.
  revert p. induction steps as [|st steps IH]; intros p Hrun; cbn [run] in Hrun; [simplify_eq; exists []; by rewrite app_nil_r|].
  destruct (step origin st p) as [p1| |] eqn:Hs; try done. destruct (step_client _ _ _ _ Hs) as [n1 H1].
  destruct (IH _ Hrun) as [n2 H2]. exists (n1 ++ n2). by rewrite H2, H1, app_assoc.
Qed.

(** A run of one bridge's pipeline is a run of the system. *)
Lemma sys_run_pipe j (b : Bridge St E L) steps p' s :
  sy_bridges s !! j = Some b → Forall no_offer steps → run (br_id b) steps (br_pipe b) = Next p' →
  sys_run nonce (PipeStep j <$> steps) s =
    Some (mkSystem (<[j := with_pipe p' b]> (sy_bridges s)) (sy_log s ++ publications j b p') (sy_created s)).
Proof.
  intros Hj Hno Hrun. revert b s Hj Hrun. induction Hno as [|st steps Hst Hno IH]; intros b s Hj Hrun; cbn [run] in Hrun.
  - simplify_eq. cbn. f_equal. unfold publications. rewrite drop_all, app_nil_r, list_insert_id; [by destruct s|]. rewrite Hj. by destruct b.
  - destruct (step (br_id b) st (br_pipe b)) as [p1| |] eqn:Hs; try done.
    assert (sys_step nonce (PipeStep j st) s =
      Some (mkSystem (<[j := with_pipe p1 b]> (sy_bridges s)) (sy_log s ++ publications j b p1) (sy_created s))) as Hstep.
    { assert (pipe_step j st s = Some (mkSystem (<[j := with_pipe p1 b]> (sy_bridges s)) (sy_log s ++ publications j b p1) (sy_created s)))
        as Hp by (unfold pipe_step; rewrite Hj; cbn [mbind option_bind]; by rewrite Hs).
      by destruct st. }
    cbn [fmap list_fmap sys_run]. rewrite Hstep. cbn [mbind option_bind].
    rewrite (IH (with_pipe p1 b)); [|cbn; by rewrite list_lookup_insert_eq by (by eapply lookup_lt_Some)|done].
    cbn [sy_bridges sy_log sy_created]. rewrite list_insert_insert_eq, <-app_assoc. do 3 f_equal.
    destruct (step_client _ _ _ _ Hs) as [n1 H1n]. destruct (run_client _ _ _ _ Hrun) as [n2 H2n].
    unfold publications. cbn [br_pipe with_pipe]. rewrite H2n, H1n, drop_app_length, <-app_assoc, drop_app_length, app_assoc, <-H1n, drop_app_length.
    by rewrite fmap_app.
Qed.

(** ** One document through an idle pipeline *)

Definition idle (p : Pipeline L) : Prop :=
  p_queue p = [] ∧ p_inflight p = [] ∧ p_worker p = WRecv ∧ is_ready (p_status p) = true ∧ shape p.

Definition round_steps : list Step :=
  [LedgerAnswer 0; Resume 0 0; Publish true (Ok tt) 0; Flush (Some (Ok tt)) 0; Complete 0].

Lemma pipe_round origin (p : Pipeline L) ev item l1 l2 :
  idle p → classify (p_classifier p) ev = Ok item → ledger_reserve (item_digest item) (p_ledger p) = (Ok RReserved, l1) →
  ledger_complete (item_digest item) l1 = (Ok tt, l2) →
  ∃ p1 p', step origin (Offer ev 0) p = Next p1 ∧ p_client p1 = p_client p ∧ run origin round_steps p1 = Next p' ∧ idle p' ∧
    p_client p' = p_client p ++ [(BRIDGE_ORIGIN_HEADER, origin, item)] ∧ p_ledger p' = l2 ∧ p_classifier p' = p_classifier p.
Proof.
  intros (Hq & Hf & Hw & Hr & Hs) Hc Hres Hcom. destruct p as [cl st l q sts dg fl w c ab]. cbn in Hq, Hf, Hw, Hr, Hc, Hres. subst q fl w.
  assert (accepting st = true ∧ delivery_healthy st = true) as [Hac Hdh] by (unfold is_ready in Hr; to_prop; done).
  eexists (mkPipeline cl st l [] sts dg [(item, None)] WRecv c ab).
  unfold round_steps. cbn [step run]. unfold deliver_admit. cbn [p_classifier p_status]. rewrite Hc, Hac, Hdh, Hr. cbn [negb orb].
  unfold ledger_answer. cbn [p_inflight lookup list_lookup p_ledger]. rewrite Hres.
  unfold deliver_resume at 1. cbn -[worker_publish worker_flush worker_complete record_action EGRESS_QUEUE_CAPACITY].
  unfold worker_publish. cbn -[worker_flush worker_complete record_action]. unfold nats_publish. rewrite Hr. cbn -[worker_flush worker_complete record_action].
  unfold worker_flush. cbn -[worker_complete record_action]. rewrite Hr. cbn -[worker_complete record_action].
  unfold worker_complete. cbn -[record_action]. rewrite Hcom. cbn -[record_action].
  unfold record_action. match goal with |- context [diagnose ?k ?r ?b ?n ?q] => destruct (diagnose_next k r b n q) as (d & Hd & Hsd); [exact Hs|] end.
  cbn -[diagnose] in Hd |- *. rewrite Hd. eexists. split_and!; try done.
Qed.

End pipes.

(** ** Journals that never fail *)

Definition ideal_ledger : LedgerOps (list LedgerDigest) := {|
  ledger_reserve d l := if bool_decide (d ∈ l) then (Ok RSuppressed, l) else (Ok RReserved, d :: l);
  ledger_complete d l := (Ok tt, l);
  ledger_suppressed d l := (Ok (bool_decide (d ∈ l)), l);
  ledger_healthy _ := true;
|}.

Program Definition ideal_ledger_laws : @LedgerLaws (list LedgerDigest) ideal_ledger := {|
  ledger_inv _ := True;
  ledger_seen l d := d ∈ l;
|}.
Solve All Obligations with (intros; cbn in *; repeat case_bool_decide; simplify_eq/=; set_solver).

Definition ideal_exclusion : ExclusionOps (list LedgerDigest) := {|
  excl_record d l := (Ok tt, d :: l);
  excl_contains d l := (Ok (bool_decide (d ∈ l)), l);
  excl_healthy _ := true;
|}.

(** ** The loop *)

#[local] Existing Instances toy_serde toy_cipher toy_docs toy_doc_store ideal_ledger ideal_exclusion.

Section loop.
Context {sha : Sha256}.

Definition LoopBridge : Type := Bridge (gmap string string) (list LedgerDigest) (list LedgerDigest).
Definition LoopSystem : Type := System (gmap string string) (list LedgerDigest) (list LedgerDigest).
Implicit Types (a b : LoopBridge) (s : LoopSystem).

(** A bridge of the subject on broker 0. *)
Definition loop_bridge (id : string) : LoopBridge :=
  bridge_new id 0 toy_mappings (mkNode ∅ (Some (mkInstalled {["tracks"%string]} (Some []))) None []) [] toy_status.

(** The document text [alpha] stores. *)
Definition loop_text : string := envelope_to_json toy_envelope.

Lemma hydrate_loop_text (n : Node (gmap string string) (list LedgerDigest)) : hydrate (loop_text : @Doc toy_docs) n = Ok loop_text.
Proof. vm_compute. reflexivity. Qed.

Lemma parse_loop_text : json_parse loop_text = Some (loop_text : @Json toy_docs).
Proof. vm_compute. reflexivity. Qed.

Lemma toy_payload_ok : from_payload "tracks.up" "alpha" toy_payload = Ok toy_envelope.
Proof. vm_compute. reflexivity. Qed.

Lemma classify_loop id :
  ∃ i, classify (classifier_new toy_mappings "beta") (mkEvent "tracks" id "peer" loop_text) =
    Ok (mkEgressItem (document_digest "tracks" id) "tracks.up" toy_payload i).
Proof.
  exists O. apply classify_exact. exists toy_envelope. split; [by vm_compute|]. split_and!; try done; vm_compute; discriminate.
Qed.

(** Bridge [alpha] between rounds: [n] messages read and stored, message [n] not yet
    delivered, no document under a key to come. *)
Definition alpha_at (n : nat) (free : string → Prop) a : Prop :=
  br_id a = "alpha"%string ∧ br_broker a = 0%nat ∧ br_mappings a = toy_mappings ∧ length (rd_sent (br_reader a)) = n ∧
  length (br_sources a) = n ∧ br_taken a = n ∧ (∀ k, k ∈ br_delivered a → (k < n)%nat) ∧
  nd_cipher (br_node a) = None ∧ (∃ ex, nd_ledger (br_node a) = Some (mkInstalled {["tracks"%string]} (Some ex))) ∧
  ∀ id, free id → ((nd_store (br_node a) : gmap string string) !! doc_key "tracks" id) = None.

Definition beta_at (free : string → Prop) b : Prop :=
  br_id b = "beta"%string ∧ br_broker b = 0%nat ∧ idle (br_pipe b) ∧
  p_classifier (br_pipe b) = classifier_new toy_mappings "beta" ∧
  ∀ id, free id → document_digest "tracks" id ∉ p_ledger (br_pipe b).

(** The newest of the [n + 1] messages is one [alpha] takes in. *)
Definition log_at (n : nat) (log : list LogEntry) : Prop :=
  length log = S n ∧ ∃ e, log !! n = Some e ∧ le_broker e = 0%nat ∧ m_subject (le_message e) = "tracks.up"%string ∧
    m_payload (le_message e) = toy_payload ∧ has_exact_own_origin (m_headers (le_message e)) "alpha" = false.

Lemma loop_deliver n free a b log created :
  alpha_at n free a → log_at n log →
  ∃ a', sys_step toy_nonces (DeliverTo 0 n toy_view) (mkSystem [a; b] log created) = Some (mkSystem [a'; b] log created) ∧
    br_id a' = "alpha"%string ∧ br_broker a' = 0%nat ∧ br_mappings a' = toy_mappings ∧
    rd_sent (br_reader a') !! n = Some (mkIngressItem "tracks.up" "tracks" toy_payload) ∧ br_sources a' !! n = Some n ∧
    length (rd_sent (br_reader a')) = S n ∧ length (br_sources a') = S n ∧ br_taken a' = n ∧
    br_delivered a' = br_delivered a ++ [n] ∧ br_processor a' = br_processor a.
Proof.
  intros (Hid & Hbk & Hms & Hsent & Hsrc & Htk & Hdel & _) (Hlen & e & He & Hbe & Hsubj & Hpay & Hown).
  cbn [sys_step]. unfold deliver_to. cbn [sy_bridges sy_log lookup list_lookup mbind option_bind].
  change (list_lookup n log) with (log !! n). rewrite He. cbn [mbind option_bind]. rewrite Hsubj. unfold mapping_of. rewrite Hms.
  change (List.find _ toy_mappings) with (Some (mkMapping "tracks.up" "tracks")). cbn [mbind option_bind].
  rewrite Hbk, Hbe, !bool_decide_true by (done || intros Hn; apply Hdel in Hn; lia). rewrite Hsent, Htk, Nat.sub_diag.
  unfold read_message. cbn [toy_view rv_accepting rv_now rv_queue_open negb]. rewrite Hid, Hown, Hpay.
  change (is_payload_oversized (Z.of_nat (length toy_payload))) with false.
  cbn [snd rd_sent]. rewrite length_app, Hsent. cbn [length]. rewrite (proj2 (Nat.ltb_lt n (n + 1))) by lia.
  eexists. split; [reflexivity|]. cbn -[lookup]. rewrite !length_app, Hsent, Hsrc. cbn -[lookup].
  split_and!; try done; try lia; rewrite lookup_app_r by lia; by rewrite ?Hsent, ?Hsrc, Nat.sub_diag, ?Hsubj.
Qed.

Lemma loop_create id (n : Node (gmap string string) (list LedgerDigest)) ex :
  nd_cipher n = None → nd_ledger n = Some (mkInstalled {["tracks"%string]} (Some ex)) →
  (nd_store n : gmap string string) !! doc_key "tracks" id = None →
  ∃ n', nd_cipher n' = None ∧
    (∃ ex', nd_ledger n' = Some (mkInstalled {["tracks"%string]} (Some ex'))) ∧
    nd_store n' = <[doc_key "tracks" id := loop_text]> (nd_store n : gmap string string) ∧
    ∀ nc, create_bridge_document nc "tracks" id loop_text n = (Ok tt, n').
Proof.
  intros Hc Hl Hk.
  assert (∀ nc, create_bridge_document nc "tracks" id loop_text n =
    (Ok tt, mkNode (<[doc_key "tracks" id := loop_text]> (nd_store n : gmap string string))
       (Some (mkInstalled {["tracks"%string]} (Some (document_digest "tracks" id :: ex)))) None (nd_deletes n))) as Hall.
  { intros nc. unfold create_bridge_document, write_document. rewrite parse_loop_text. unfold record_local_exclusion.
    rewrite Hl. cbn [il_collections il_exclusion]. rewrite bool_decide_true by set_solver. cbn [excl_record ideal_exclusion].
    cbn [store_get toy_doc_store NodeDocs.with_exclusion nd_store].
    match goal with |- context [match ?x with Some _ => (Err DwAlreadyExists, _) | None => _ end] =>
      change x with ((nd_store n : gmap string string) !! doc_key "tracks" id) end.
    rewrite Hk. unfold build_document. cbn [nd_cipher NodeDocs.with_exclusion].
    rewrite Hc. unfold NodeDocs.with_exclusion. rewrite Hl, Hc. reflexivity. }
  eexists. split_and!; [..|exact Hall]; [done|by eexists|done].
Qed.

Lemma forward_loop id b :
  str_len id ≤ MAX_BRIDGE_IDENTITY_BYTES →
  forward_remote (doc_key "tracks" id) "peer"
    (br_node (with_node (NodeDocs.with_store (<[doc_key "tracks" id := loop_text]> (nd_store (br_node b) : gmap string string)) (br_node b)) b)) =
  Ok (Some (mkEvent "tracks" id "peer" loop_text)).
Proof.
  intros Hlen. unfold forward_remote. rewrite doc_key_split by done.
  rewrite (proj2 (Z.ltb_ge _ (str_len id))) by done. change (MAX_BRIDGE_IDENTITY_BYTES <? str_len "tracks") with false.
  change (MAX_BRIDGE_IDENTITY_BYTES <? str_len "peer") with false. cbn [orb].
  cbn [store_get toy_doc_store].
  match goal with |- match ?x with Some _ => _ | None => _ end = _ => replace x with (Some (loop_text : @Doc toy_docs)) end.
  - by rewrite hydrate_loop_text.
  - symmetry. apply (lookup_insert_eq (nd_store (br_node b) : gmap string string)).
Qed.

(** One round: the message is stored by [alpha] and published by [beta]. *)
Lemma loop_round n (free free' : string → Prop) id a b log created :
  alpha_at n free a → beta_at free b → log_at n log → free id → str_len id ≤ MAX_BRIDGE_IDENTITY_BYTES →
  (∀ x, free' x → free x ∧ x ≠ id ∧ document_digest "tracks" x ≠ document_digest "tracks" id) →
  ∃ a' b' created' e, sys_run toy_nonces (relay_round 0 1 n id) (mkSystem [a; b] log created) =
      Some (mkSystem [a'; b'] (log ++ [e]) created') ∧
    alpha_at (S n) free' a' ∧ beta_at free' b' ∧ log_at (S n) (log ++ [e]) ∧ le_from e = Some 1%nat.
Proof.
  intros Ha Hb Hlog Hid Hlen Hfree. pose proof Ha as (_ & _ & _ & _ & _ & _ & Hdel & Hc & [ex Hl] & Hst).
  destruct (loop_deliver n free a b log created Ha Hlog) as (a1 & H1 & Aid & Abk & Ams & Ait & Aso & Ase & Asl & Atk & Adel & Apr).
  destruct (loop_create id (br_node a) ex Hc Hl (Hst id Hid)) as (na & Nc & Nl & Ns & Hcreate).
  set (p := process_item (H0 := node_writer (toy_nonces "alpha")) "alpha" (mkIngressItem "tracks.up" "tracks" toy_payload) id (br_processor a1)).
  assert (ip_writer p = (S (ip_writer (br_processor a)).1, na)) as Hwr.
  { unfold p, process_item. cbn [ii_subject ii_payload]. rewrite toy_payload_ok. cbn [STORE_ATTEMPT_DELAYS store_loop].
    unfold create_document, node_writer. cbn [ip_writer count ii_collection]. rewrite Apr.
    change (ip_writer (br_processor a)).2 with (br_node a). fold loop_text. by rewrite Hcreate. }
  set (a2 := with_processor (S n) p a1).
  set (b1 := with_node (NodeDocs.with_store (<[doc_key "tracks" id := loop_text]> (nd_store (br_node b) : gmap string string)) (br_node b)) b).
  destruct Hb as (Bid & Bbk & Bidle & Bcl & Bled). destruct (classify_loop id) as [ri Hcls].
  set (item := mkEgressItem (document_digest "tracks" id) "tracks.up" toy_payload ri) in *.
  destruct (pipe_round "beta" (br_pipe b) (mkEvent "tracks" id "peer" loop_text) item
    (document_digest "tracks" id :: p_ledger (br_pipe b)) (document_digest "tracks" id :: p_ledger (br_pipe b)))
    as (p1 & p' & Hoffer & Hcl1 & Hrun & Hidle' & Hcl' & Hled' & Hclass'); [done|by rewrite Bcl| |done|].
  { cbn. by rewrite bool_decide_false by (by apply Bled). }
  set (s2 := mkSystem [a2; b1] log (created ++ [mkCreation 0 n "tracks" id toy_envelope])).
  assert (sys_step toy_nonces (IngestNext 0 id) (mkSystem [a1; b] log created) =
    Some (mkSystem [a2; b] log (created ++ [mkCreation 0 n "tracks" id toy_envelope]))) as H2.
  { cbn [sys_step]. unfold ingest_next. cbn [sy_bridges lookup list_lookup mbind option_bind]. rewrite Atk.
    change (list_lookup n (rd_sent (br_reader a1))) with (rd_sent (br_reader a1) !! n). rewrite Ait. cbn [mbind option_bind].
    change (list_lookup n (br_sources a1)) with (br_sources a1 !! n). rewrite Aso. cbn [mbind option_bind ii_subject ii_payload ii_collection].
    rewrite Aid, toy_payload_ok. reflexivity. }
  assert (nd_store (br_node a2) = <[doc_key "tracks" id := loop_text]> (nd_store (br_node a) : gmap string string)) as Hsta.
  { unfold br_node at 1. change (br_processor a2) with p. by rewrite Hwr. }
  assert (sys_step toy_nonces (Replicate 0 1 (doc_key "tracks" id)) (mkSystem [a2; b] log (created ++ [mkCreation 0 n "tracks" id toy_envelope])) =
    Some s2) as H3.
  { cbn [sys_step]. unfold replicate_doc. cbn [sy_bridges lookup list_lookup mbind option_bind]. rewrite Hsta.
    cbn [store_get toy_doc_store]. change ((<[doc_key "tracks" id := loop_text]> (nd_store (br_node a) : gmap string string) : gmap string string) !! doc_key "tracks" id)
      with ((<[doc_key "tracks" id := loop_text]> (nd_store (br_node a) : gmap string string)) !! doc_key "tracks" id).
    rewrite lookup_insert_eq. reflexivity. }
  assert (sys_step toy_nonces (RemoteChange 1 (doc_key "tracks" id) "peer" 0) s2 =
    Some (mkSystem [a2; with_pipe p1 b1] log (created ++ [mkCreation 0 n "tracks" id toy_envelope]))) as H4.
  { cbn [sys_step]. unfold remote_change. cbn [s2 sy_bridges lookup list_lookup mbind option_bind].
    pose proof (forward_loop id b Hlen) as Hfwd. fold b1 in Hfwd. rewrite Hfwd.
    unfold pipe_step. cbn [s2 sy_bridges lookup list_lookup mbind option_bind]. change (br_id b1) with (br_id b).
    change (br_pipe b1) with (br_pipe b). rewrite Bid, Hoffer. unfold publications. change (br_pipe b1) with (br_pipe b).
    rewrite Hcl1, drop_all. cbn [fmap list_fmap sy_log]. by rewrite app_nil_r. }
  set (e := publication 1 b1 (BRIDGE_ORIGIN_HEADER, "beta"%string, item)).
  exists a2, (with_pipe p' b1), (created ++ [mkCreation 0 n "tracks" id toy_envelope]), e. split.
  - change (relay_round 0 1 n id) with ([DeliverTo 0 n toy_view; IngestNext 0 id; Replicate 0 1 (doc_key "tracks" id);
      RemoteChange 1 (doc_key "tracks" id) "peer" 0] ++ (PipeStep 1 <$> round_steps)).
    cbn [app sys_run]. rewrite H1. cbn [mbind option_bind]. rewrite H2. cbn [mbind option_bind]. rewrite H3. cbn [mbind option_bind].
    rewrite H4. cbn [mbind option_bind].
    rewrite (sys_run_pipe toy_nonces 1 (with_pipe p1 b1) round_steps p'); [|done|by repeat constructor|].
    2: { change (br_id (with_pipe p1 b1)) with (br_id b). by rewrite Bid. }
    cbn [sy_bridges sy_log sy_created insert list_insert]. do 3 f_equal. unfold publications. cbn [br_pipe with_pipe].
    by rewrite Hcl1, Hcl', drop_app_length.
  - destruct Hlog as (Hll & _). split_and!.
    + unfold alpha_at. change (br_node a2) with (ip_writer p).2. rewrite Hwr. cbn [snd].
      change (br_id a2) with (br_id a1). change (br_broker a2) with (br_broker a1). change (br_mappings a2) with (br_mappings a1).
      change (br_delivered a2) with (br_delivered a1). change (br_reader a2) with (br_reader a1). change (br_sources a2) with (br_sources a1).
      split_and!; try done.
      * intros k. rewrite Adel. intros [Hk| ->%list_elem_of_singleton]%elem_of_app; [apply Hdel in Hk|]; lia.
      * intros x (Hx & Hne & _)%Hfree. rewrite Ns, lookup_insert_ne; [by apply Hst|]. unfold doc_key. intros [=]. done.
    + split_and!; try done; [by rewrite <-Bcl|]. intros x (Hx & _ & Hd)%Hfree. cbn [br_pipe with_pipe]. rewrite Hled'.
      apply not_elem_of_cons. split; [done|by apply Bled].
    + split; [rewrite length_app; cbn; lia|]. exists e. rewrite lookup_app_r by lia. rewrite Hll, Nat.sub_diag. by split_and!.
    + done.
Qed.

Definition not_by_app (st : SysStep) : Prop := match st with AppPublish _ _ => False | _ => True end.
Definition by_beta s : list LogEntry := filter (λ e, le_from e = Some 1%nat) (sy_log s).

Lemma loop_rounds ids n a b log created :
  NoDup (document_digest "tracks" <$> ids) → Forall (λ id, str_len id ≤ MAX_BRIDGE_IDENTITY_BYTES) ids →
  alpha_at n (.∈ ids) a → beta_at (.∈ ids) b → log_at n log →
  ∃ steps s, Forall not_by_app steps ∧ sys_run toy_nonces steps (mkSystem [a; b] log created) = Some s ∧
    length (by_beta s) = (length (filter (λ e, le_from e = Some 1%nat) log) + length ids)%nat.
Proof.
  revert n a b log created. induction ids as [|id ids IH]; intros n a b log created Hnd Hlen Ha Hb Hlog.
  - exists [], (mkSystem [a; b] log created). split_and!; [constructor|done|]. cbn. by rewrite Nat.add_0_r.
  - rewrite fmap_cons in Hnd. apply NoDup_cons in Hnd as [Hid Hnd]. apply Forall_cons in Hlen as [Hl Hlen].
    destruct (loop_round n (.∈ id :: ids) (.∈ ids) id a b log created Ha Hb Hlog) as (a' & b' & created' & e & Hrun & Ha' & Hb' & Hlog' & Hf); [by left|done| |].
    { intros x Hx. assert (document_digest "tracks" x ≠ document_digest "tracks" id) as Hd.
      { intros Heq. apply Hid. rewrite <-Heq. by apply list_elem_of_fmap_2. }
      split_and!; [by right|congruence|done]. }
    destruct (IH (S n) a' b' (log ++ [e]) created' Hnd Hlen Ha' Hb' Hlog') as (steps & s & Hno & Hrun' & Hcount).
    exists (relay_round 0 1 n id ++ steps), s. split_and!.
    + apply Forall_app. split; [by repeat constructor|done].
    + by rewrite sys_run_app, Hrun.
    + rewrite Hcount, filter_app, filter_cons_True, filter_nil, length_app by done. cbn. lia.
Qed.

(** Two bridges on one broker amplify without bound: after a single message of an
    application, and nothing else published by applications, the bridges' own steps
    lead to as many publications by one of them as there are document ids to draw
    with distinct digests. *)
Theorem shared_broker_feeds_back ids :
  NoDup (document_digest "tracks" <$> ids) → Forall (λ id, str_len id ≤ MAX_BRIDGE_IDENTITY_BYTES) ids →
  ∃ steps s, Forall not_by_app steps ∧
    sys_run toy_nonces (AppPublish 0 toy_message :: steps) (system_new [loop_bridge "alpha"; loop_bridge "beta"]) = Some s ∧
    length (by_beta s) = length ids.
Proof.
  intros Hnd Hlen.
  destruct (loop_rounds ids 0 (loop_bridge "alpha") (loop_bridge "beta") [mkEntry 0 None toy_message] [] Hnd Hlen)
    as (steps & s & Hno & Hrun & Hcount).
  - split_and!; try done; first [by eexists|by intros k Hk%elem_of_nil|idtac].
  - split_and!; try done; by intros id _ Hin%elem_of_nil.
  - split; [done|]. by eexists.
  - exists steps, s. split_and!; done.
Qed.

End loop.

Lemma shared_broker_feeds_back_witness :
  ∃ steps s, sys_run (sha := toy_sha) toy_nonces (AppPublish 0 toy_message :: steps) (system_new [loop_bridge "alpha"; loop_bridge "beta"]) = Some s ∧
    length (by_beta s) = 3%nat.
Proof.
  destruct (shared_broker_feeds_back (sha := toy_sha) ["a"; "b"; "c"]%string) as (steps & s & _ & Hrun & Hlen).
  - apply (bool_decide_unpack _). vm_compute. exact I.
  - repeat constructor; vm_compute; discriminate.
  - exists steps, s. split; [exact Hrun|exact Hlen].
Defined.

(** * A message crosses the bridges

    The other half of [Relay]'s theorem: what an application publishes on one broker does
    reach another one. From any state of the system in which the message waits for a
    bridge with nothing queued before it and the other bridge is ready and idle, seven
    steps of the components, none of them a choice of the network but the copy of one
    document, end with the message's bytes published on the other broker under the
    same subject, once. *)

(** ** One event through an idle pipeline *)

Section egress.
Context {sha : Sha256} `{Serde} {L : Type} `{!LedgerOps L} (origin : string).
Implicit Types p : Pipeline L.

Definition idle_ready p : Prop :=
  p_inflight p = [] ∧ p_queue p = [] ∧ p_worker p = WRecv ∧ is_ready (p_status p) = true.

Definition reserved_at (item : EgressItem) (l : L) p : Pipeline L :=
  with_queue [item] (with_stats (fetch_add c_reserved 1 (p_stats p)) (with_ledger l p)).

Lemma offer_idle ev item now p :
  idle_ready p → classify (p_classifier p) ev = Ok item → step origin (Offer ev now) p = Next (with_inflight [(item, None)] p).
Proof.
  intros (Hi & Hq & Hw & Hr) Hc. cbn [step]. unfold deliver_admit. rewrite Hc.
  pose proof Hr as Hr'. unfold is_ready in Hr'. rewrite Hr. assert (accepting (p_status p) = true ∧ delivery_healthy (p_status p) = true) as [-> ->].
  { repeat match goal with H : _ && _ = true |- _ => apply andb_true_iff in H as [? ?] end. done. }
  by rewrite Hi.
Qed.

Lemma answer_idle item now l p :
  idle_ready p → ledger_reserve (item_digest item) (p_ledger p) = (Ok RReserved, l) →
  step origin (LedgerAnswer 0) (with_inflight [(item, None)] p) = Next (with_ledger l (with_inflight [(item, Some (Ok RReserved))] p)) ∧
  step origin (Resume 0 now) (with_ledger l (with_inflight [(item, Some (Ok RReserved))] p)) = Next (with_inflight [] (reserved_at item l p)).
Proof.
  intros (Hi & Hq & Hw & Hr) Hl. split.
  - cbn [step]. unfold ledger_answer. cbn -[ledger_reserve]. by rewrite Hl.
  - cbn [step]. unfold deliver_resume. cbn. rewrite Hw, Hq. reflexivity.
Qed.

Lemma publish_idle item l now p :
  idle_ready p → step origin (Publish true (Ok tt) now) (with_inflight [] (reserved_at item l p)) =
  Next (with_worker (WFlush item) (with_client (p_client p ++ [(BRIDGE_ORIGIN_HEADER, origin, item)]) (with_queue [] (with_inflight [] (reserved_at item l p))))).
Proof.
  intros (Hi & Hq & Hw & Hr). cbn [step]. unfold worker_publish. cbn [p_worker p_queue p_status with_inflight reserved_at with_queue with_stats with_ledger].
  rewrite Hw. unfold nats_publish. rewrite Hr. reflexivity.
Qed.

End egress.

(** ** The ingress side *)

(** A document created at the first attempt. *)
Lemma process_item_stores `{Serde} {W} `{BridgeDocumentWriter W} source item d p env w' :
  from_payload (ii_subject item) source (ii_payload item) = Ok env →
  create_document (ii_collection item) d (envelope_to_json env) (ip_writer p) = (Ok tt, w') →
  ip_writer (process_item source item d p) = w'.
Proof. intros Hp Hc. unfold process_item. rewrite Hp. cbn [store_loop STORE_ATTEMPT_DELAYS]. unfold count. cbn [ip_writer]. by rewrite Hc. Qed.

Section progress.
Context {sha : Sha256} `{Serde} `{CipherOps} `{D : Docs} {St : Type} `{!DocStore St, !DocStoreLaws St}.
Context {E : Type} `{!ExclusionOps E, !ExclusionLaws E} {L : Type} `{!LedgerOps L}.
Context `{!CipherLaws, !DocsLaws, !EnvelopeDocs, !SerdeLaws, !SerdeSizes, !CipherSizes, !DocSizes}.
Context (nonce : string → nat → bytes) (nonce_length : ∀ id k, length (nonce id k) = 12%nat).
Implicit Types (b : Bridge St E L) (s : System St E L).

(** Message [k] waits for the bridge: on its broker, not delivered yet, for one of
    its mappings, without its own mark, within the limit, with nothing queued before
    it. *)
Definition awaits b (k : nat) (e : LogEntry) (m : SubjectMapping) : Prop :=
  le_broker e = br_broker b ∧ (k ∉ br_delivered b) ∧ mapping_of (m_subject (le_message e)) b = Some m ∧
  has_exact_own_origin (m_headers (le_message e)) (br_id b) = false ∧
  Z.of_nat (length (m_payload (le_message e))) ≤ MAX_INGRESS_PAYLOAD_BYTES ∧
  length (rd_sent (br_reader b)) = br_taken b ∧ length (br_sources b) = br_taken b.

Definition open_view (now : Z) : ReaderView := mkView true now true.

Definition item_of (e : LogEntry) (m : SubjectMapping) : IngressItem :=
  mkIngressItem (m_subject (le_message e)) (collection m) (m_payload (le_message e)).

(** The bridge after it read and stored the message. *)
Definition stored_bridge (doc_id : string) (k : nat) (e : LogEntry) (m : SubjectMapping) b : Bridge St E L :=
  let r := mkReader (rd_stats (br_reader b)) (rd_diagnostics (br_reader b)) (rd_sent (br_reader b) ++ [item_of e m]) in
  with_processor (S (br_taken b)) (process_item (H0 := node_writer (nonce (br_id b))) (br_id b) (item_of e m) doc_id (br_processor b))
    (with_reader r (br_sources b ++ [k]) (br_delivered b ++ [k]) b).

Lemma ingest_waiting i k e m env doc_id now b s :
  sy_bridges s !! i = Some b → sy_log s !! k = Some e → awaits b k e m →
  from_payload (m_subject (le_message e)) (br_id b) (m_payload (le_message e)) = Ok env →
  sys_run nonce [DeliverTo i k (open_view now); IngestNext i doc_id] s =
  Some (mkSystem (<[i := stored_bridge doc_id k e m b]> (sy_bridges s)) (sy_log s) (sy_created s ++ [mkCreation i k (collection m) doc_id env])).
Proof.
  intros Hi Hk (Hbk & Hnew & Hm & Hown & Hlen & Hsent & Hsrc) Hp. pose proof (lookup_lt_Some _ _ _ Hi) as Hlt.
  cbn [sys_run sys_step]. unfold deliver_to. rewrite Hi, Hk. cbn [mbind option_bind]. rewrite Hm. cbn [mbind option_bind].
  rewrite !bool_decide_true by done. rewrite Hsent, Nat.sub_diag. change (Nat.ltb 0 INGRESS_QUEUE_CAPACITY) with true. cbn [andb].
  unfold read_message. cbn [open_view rv_accepting rv_queue_open negb]. rewrite Hown. unfold is_payload_oversized.
  rewrite (proj2 (Z.ltb_ge _ _)) by done. cbn [snd rd_sent]. rewrite length_app, Hsent. cbn [length].
  rewrite (proj2 (Nat.ltb_lt _ _)) by lia. cbn [mbind option_bind].
  unfold ingest_next, set_bridge. cbn [sy_bridges sy_log sy_created]. rewrite list_lookup_insert_eq by done. cbn [mbind option_bind].
  cbn [with_reader br_reader rd_sent br_taken br_sources]. rewrite !lookup_app_r by lia. rewrite Hsent, Hsrc, Nat.sub_diag.
  cbn [lookup list_lookup mbind option_bind br_id ii_subject ii_payload ii_collection br_processor]. change (br_id (with_reader ?r ?x ?y b)) with (br_id b). rewrite Hp, list_insert_insert_eq. reflexivity.
Qed.

(** ** Across the mesh and out *)

(** What the client was handed by a step becomes the broker's log. *)
Lemma pipe_step_next j st s b p :
  sy_bridges s !! j = Some b → step (br_id b) st (br_pipe b) = Next p →
  pipe_step j st s = Some (mkSystem (<[j := with_pipe p b]> (sy_bridges s)) (sy_log s ++ publications j b p) (sy_created s)).
Proof. intros Hj Hst. unfold pipe_step. rewrite Hj. cbn [mbind option_bind]. by rewrite Hst. Qed.

(** The same on a bridge whose pipeline was replaced before. *)
Lemma pipe_step_at j st bs log created b p p' :
  (j < length bs)%nat → step (br_id b) st p = Next p' →
  pipe_step j st (mkSystem (<[j := with_pipe p b]> bs) log created) =
  Some (mkSystem (<[j := with_pipe p' b]> bs) (log ++ (publication j b <$> drop (length (p_client p)) (p_client p'))) created).
Proof.
  intros Hlt Hst. rewrite (pipe_step_next j st _ (with_pipe p b) p'); [|by apply list_lookup_insert_eq|done].
  cbn [sy_bridges sy_log sy_created]. by rewrite list_insert_insert_eq.
Qed.

(** The pipeline steps after an event was offered. *)
Definition egress_steps (j : nat) (now : Z) : list SysStep :=
  [PipeStep j (LedgerAnswer 0); PipeStep j (Resume 0 now); PipeStep j (Publish true (Ok tt) now)].

Lemma egress_run j b ev item l now s :
  sy_bridges s !! j = Some b → idle_ready (br_pipe b) → classify (p_classifier (br_pipe b)) ev = Ok item →
  ledger_reserve (item_digest item) (p_ledger (br_pipe b)) = (Ok RReserved, l) →
  ∃ s', (s1 ← pipe_step j (Offer ev now) s; sys_run nonce (egress_steps j now) s1) = Some s' ∧
    sy_log s' = sy_log s ++ [publication j b (BRIDGE_ORIGIN_HEADER, br_id b, item)].
Proof.
  intros Hj Hidle Hcl Hl. pose proof (lookup_lt_Some _ _ _ Hj) as Hlt. destruct (answer_idle (br_id b) item now l (br_pipe b) Hidle Hl) as [Ha Hres].
  rewrite (pipe_step_next j _ s b _ Hj (offer_idle (br_id b) ev item now (br_pipe b) Hidle Hcl)). cbn [mbind option_bind egress_steps sys_run sys_step].
  rewrite (pipe_step_at j _ _ _ _ b _ _ Hlt Ha). cbn [mbind option_bind]. rewrite (pipe_step_at j _ _ _ _ b _ _ Hlt Hres). cbn [mbind option_bind].
  rewrite (pipe_step_at j _ _ _ _ b _ _ Hlt (publish_idle (br_id b) item l now (br_pipe b) Hidle)). cbn [mbind option_bind].
  eexists. split; [reflexivity|]. cbn [sy_log]. unfold publications. cbn [p_client with_inflight with_ledger reserved_at with_queue with_stats with_worker with_client].
  by rewrite !drop_all, !app_nil_r, drop_app_length.
Qed.

(** The classifier's verdict on an envelope of another node's message. *)
Lemma classify_foreign mappings id c_id m ev env idx :
  NoDup (collection <$> mappings) → mappings !! idx = Some m → ev_collection ev = collection m →
  envelope_from_json (ev_json_data ev) = Some env → env_kind env = BRIDGE_ENVELOPE_KIND → env_version env = BRIDGE_ENVELOPE_VERSION →
  env_subject env = subject m → env_source_node_id env = c_id → c_id ≠ id → str_len (env_payload env) ≤ MAX_INGRESS_PAYLOAD_BYTES →
  classify (classifier_new mappings id) ev =
  Ok (mkEgressItem (document_digest (collection m) (ev_doc_id ev)) (subject m) (str_bytes (env_payload env)) idx).
Proof.
  intros Hnd Hm Hc Hj Hk Hv Hs Hid Hne Hlen. destruct (classifier_new_route mappings id idx m Hnd Hm) as [Hr Hi].
  unfold classify. rewrite Hj. cbn [ok_or]. rewrite Hk, bool_decide_true by done. cbn [negb]. rewrite Hv, Z.eqb_refl. cbn [negb].
  rewrite Hc, Hr, Hi. cbn [ok_or]. rewrite Hs, bool_decide_true by done. cbn [negb]. rewrite Hid, bool_decide_false by done.
  by rewrite (proj2 (Z.ltb_ge _ _)).
Qed.

(** The node stores the message's document, which the library reads back. *)
Definition stores b (m : SubjectMapping) (doc_id : string) (env : BridgeEnvelope) (n' : Node St E) (d : Doc) : Prop :=
  create_bridge_document (nonce (br_id b) (ip_writer (br_processor b)).1) (collection m) doc_id (envelope_to_json env) (br_node b) = (Ok tt, n') ∧
  store_get (doc_key (collection m) doc_id) (nd_store n') = Some (Some d) ∧ encoded_len d ≤ MAX_BRIDGE_AUTOMERGE_BYTES ∧
  is_Some (chars (str_bytes (envelope_to_json env))) ∧ leaves (br_node b) env = true.

(** The other bridge maps the collection to the same subject, keeps a copy of the
    document, and grants its first delivery. *)
Definition receives b (m : SubjectMapping) (doc_id : string) (d : Doc) (l : L) : Prop :=
  m ∈ br_mappings b ∧ NoDup (collection <$> br_mappings b) ∧ p_classifier (br_pipe b) = classifier_new (br_mappings b) (br_id b) ∧
  store_get (doc_key (collection m) doc_id) (store_put (doc_key (collection m) doc_id) d (nd_store (br_node b))).2 = Some (Some d) ∧
  idle_ready (br_pipe b) ∧ ledger_reserve (document_digest (collection m) doc_id) (p_ledger (br_pipe b)) = (Ok RReserved, l).

Definition short (name : string) : Prop := str_len name ≤ MAX_BRIDGE_IDENTITY_BYTES.

(** The steps of one message. *)
Definition crossing (i j k : nat) (c doc_id peer : string) (now : Z) : list SysStep :=
  [DeliverTo i k (open_view now); IngestNext i doc_id; Replicate i j (doc_key c doc_id); RemoteChange j (doc_key c doc_id) peer now]
  ++ egress_steps j now.

Lemma message_relayed i j k e m env doc_id n' d l b b' now peer s :
  i ≠ j → sy_bridges s !! i = Some b → sy_bridges s !! j = Some b' → sy_log s !! k = Some e →
  br_id b ≠ br_id b' → nd_cipher (br_node b') = nd_cipher (br_node b) →
  awaits b k e m → from_payload (m_subject (le_message e)) (br_id b) (m_payload (le_message e)) = Ok env → names_fit (m_subject (le_message e)) (br_id b) →
  stores b m doc_id env n' d → receives b' m doc_id d l →
  str_contains (collection m) ":"%char = false → short (collection m) → short doc_id → short peer →
  ∃ s', sys_run nonce (crossing i j k (collection m) doc_id peer now) s = Some s' ∧
    sy_log s' = sy_log s ++ [mkEntry (br_broker b') (Some j)
      (mkMessage (m_subject (le_message e)) (Some [(BRIDGE_ORIGIN_HEADER, br_id b')]) (m_payload (le_message e)))].
Proof.
  intros Hij Hi Hj Hk Hids Hcip Haw Hp Hfit (Hcr & Hget & Hsize & Hutf & Hleaves) (Hin & Hnd & Hclass & Hcopy & Hidle & Hres) Hcol Sc Sd Sp.
  pose proof Haw as (_ & _ & Hm & _ & Hlen & _). apply mapping_of_Some in Hm as [_ Hsubj].
  unfold crossing. rewrite sys_run_app. change [DeliverTo i k (open_view now); IngestNext i doc_id; ?x; ?y]
    with ([DeliverTo i k (open_view now); IngestNext i doc_id] ++ [x; y]).
  rewrite sys_run_app, (ingest_waiting i k e m env doc_id now b s Hi Hk Haw Hp). cbn [mbind option_bind sys_run sys_step].
  unfold replicate_doc. cbn [sy_bridges]. rewrite list_lookup_insert_eq, list_lookup_insert_ne, Hj by eauto using lookup_lt_Some. cbn [mbind option_bind].
  assert (br_node (stored_bridge doc_id k e m b) = n') as ->.
  { unfold br_node, stored_bridge. cbn [with_processor br_processor].
    rewrite (process_item_stores (br_id b) (item_of e m) doc_id (br_processor b) env (S (ip_writer (br_processor b)).1, n')); [done|done|].
    unfold create_document, node_writer. cbn [item_of ii_collection]. unfold br_node in Hcr. by rewrite Hcr. }
  rewrite Hget. cbn [mbind option_bind]. unfold set_bridge. cbn [sy_bridges sy_log sy_created].
  set (st := (store_put _ d _).2) in *. set (b2 := with_node (NodeDocs.with_store st (br_node b')) b').
  set (bs := <[j := b2]> (<[i := stored_bridge doc_id k e m b]> (sy_bridges s))).
  assert (bs !! j = Some b2) as Hbs by (unfold bs; apply list_lookup_insert_eq; rewrite length_insert; eauto using lookup_lt_Some).
  pose proof (accepted_document_read (m_subject (le_message e)) (br_id b) (m_payload (le_message e)) env
    (nonce (br_id b) (ip_writer (br_processor b)).1) (collection m) doc_id peer (br_node b) n' (br_node b2) d
    Hp Hlen Hfit (nonce_length _ _) Hutf Hcr Hget Hcopy Hcip Hsize Hcol Sc Sd Sp) as Hread.
  rewrite Hleaves in Hread. destruct Hread as (text & Hf & _ & Hback).
  unfold remote_change. cbn [sy_bridges]. rewrite Hbs. cbn [mbind option_bind]. rewrite Hf.
  apply from_payload_Ok in Hp as (_ & Hkind & Hver & Hsub & Hsrc & Hpay).
  apply list_elem_of_lookup in Hin as [idx Hidx].
  assert (classify (p_classifier (br_pipe b2)) (mkEvent (collection m) doc_id peer text) =
    Ok (mkEgressItem (document_digest (collection m) doc_id) (subject m) (str_bytes (env_payload env)) idx)) as Hcl.
  { change (p_classifier (br_pipe b2)) with (p_classifier (br_pipe b')). rewrite Hclass.
    apply (classify_foreign _ _ (br_id b) m (mkEvent (collection m) doc_id peer text) env idx Hnd Hidx); try done; [congruence|].
    unfold str_len. by rewrite <-length_str_bytes, Hpay. }
  destruct (egress_run j b2 _ _ l now (mkSystem bs (sy_log s) (sy_created s ++ [mkCreation i k (collection m) doc_id env])) Hbs Hidle Hcl Hres) as (s' & Hrun & Hlog).
  exists s'. split.
  - destruct (pipe_step j _ _) as [s1|]; cbn [mbind option_bind] in Hrun |- *; [exact Hrun|done].
  - rewrite Hlog. cbn [sy_log]. f_equal. unfold publication. cbn. by rewrite Hpay, Hsubj.
Qed.


End progress.

(** ** Witness: two encrypted nodes *)

Definition sized_bridge (id : string) (broker : nat) : Bridge (gmap string StoredJson) (Worker * Fs) (Worker * Fs) :=
  bridge_new id broker toy_mappings
    (mkNode ∅ (Some (mkInstalled {["tracks"%string]} (Some toy_exclusion))) (Some (mkCipher [Byte.x01])) []) toy_delivery toy_status.

Definition waiting_message : Message := mkMessage "tracks.up" None small_payload.

Definition waiting_system : System (gmap string StoredJson) (Worker * Fs) (Worker * Fs) :=
  mkSystem [sized_bridge "alpha" 0; sized_bridge "beta" 1] [mkEntry 0 None waiting_message] [].

Definition alpha_created : result CreateBridgeDocumentError unit * Node (gmap string StoredJson) (Worker * Fs) :=
  create_bridge_document (sha := toy_sha) (H := sized_cipher) (D := json_docs) (DocStore0 := json_store) (H0 := exclusion_ops (sha := toy_sha))
    (toy_nonces "alpha" 0) "tracks" "one" (envelope_json small_envelope) (br_node (sized_bridge "alpha" 0)).

Lemma alpha_created_ok : alpha_created.1 = Ok tt.
Proof. vm_compute. reflexivity. Qed.

Definition alpha_document : option StoredJson := nd_store alpha_created.2 !! doc_key "tracks" "one".

Lemma alpha_document_small : (λ d, stored_size d <=? 1000) <$> alpha_document = Some true.
Proof. vm_compute. reflexivity. Qed.

Lemma beta_grants : (ledger_reserve (LedgerOps := delivery_ops (sha := toy_sha)) (document_digest (sha := toy_sha) "tracks" "one") toy_delivery).1 = Ok RReserved.
Proof. vm_compute. reflexivity. Qed.

