(* ===== verification/BridgeLog.v ===== *)
(** * What the bridge logs

    The [emit] functions of [src/nats_bridge/ingress.rs], [egress.rs],
    [runtime.rs] and [operations.rs]: the log record each action becomes, with its
    level, its message and its fields in order. The logging library only formats
    these records.

    The properties are about information flow: two histories of the ingress
    processor, or of the egress pipeline, that agree on routes, sizes, verdicts and
    outcomes produce the same records, whatever the payloads, the documents, the
    peers and the texts of the stored envelopes are. *)

From S2P Require Import Prelude Journal JournalFacts LedgerWorker LedgerWorkerFacts Readiness Envelope NatsConfig RateLimit Egress EgressLedger.
From S2P Require Import EgressFacts NodeDocs Ingress IngressFacts Reconcile Lifecycle Shutdown ShutdownFacts Relay.

Inductive Level := LDebug | LInfo | LWarn.

(** A field's value; [FIndex] is an optional index under [?]. *)
Inductive Field := FText (s : string) | FNum (n : Z) | FBool (b : bool) | FIndex (i : option nat) | FSkip (k : EgressSkipKind) | FLoss (k : EgressFailureKind).

Record LogRecord := mkRecord { lr_level : Level; lr_message : string; lr_fields : list (string * Field) }.

(** ** Ingress *)

(** [IngressErrorKind::as_str] *)
Definition error_kind_str (k : IngressErrorKind) : string :=
  match k with
  | ErrOversizedPayload => "oversized_payload"
  | ErrInvalidUtf8 => "invalid_utf8"
  | ErrInvalidJson => "invalid_json"
  | ErrInvalidInputSummary => "invalid_input_summary"
  | ErrEnvelopeEncoding => "envelope_encoding"
  | ErrAlreadyExists => "already_exists"
  | ErrInvalidInput => "invalid_input"
  | ErrEncryption => "encryption"
  | ErrConversion => "conversion"
  | ErrStoreRead => "store_read"
  | ErrStoreWrite => "store_write"
  | ErrLocalExclusion => "local_exclusion"
  end.

(** [IngressAction::emit] *)
Definition ingress_record (a : IngressAction) : LogRecord :=
  let shared :=
    [("subject", FText (default "" (ia_subject a))); ("collection", FText (default "" (ia_collection a)));
     ("payload_bytes", FNum (default 0 (ia_payload_bytes a))); ("document_id", FText (default "" (ia_document_id a)));
     ("attempt", FNum (Z.of_nat (default O (ia_attempt a))))]%string in
  let error := [("error_kind"%string, FText (error_kind_str (ia_error_kind a)))] in
  match ia_kind a with
  | InvalidOccurrence | StoreRetry =>
      mkRecord LDebug "NATS bridge ingress action" (shared ++ [("delay_ms"%string, FNum (default 0 (ia_delay_ms a)))] ++ error)
  | IOversizedPayload | InvalidWarning | InvalidSummary | StoreFailure =>
      mkRecord LWarn "NATS bridge ingress failure"
        (shared ++ [("suppressed_count"%string, FNum (default 0 (ia_suppressed_count a)))] ++ error)
  end.

(** ** Egress *)

(** [EgressAction::emit] *)
Definition egress_record (a : EgressAction) : LogRecord :=
  let shared :=
    [("route_index", FIndex (act_route_index a)); ("payload_bytes", FNum (default 0 (act_payload_bytes a)));
     ("suppressed_count", FNum (act_suppressed_count a))]%string in
  match act_kind a with
  | Published => mkRecord LDebug "NATS bridge egress publish enqueued" shared
  | Skipped k => mkRecord LDebug "NATS bridge egress skipped" (shared ++ [("reason"%string, FSkip k)])
  | Lost k => mkRecord LWarn "NATS bridge egress terminal loss" (shared ++ [("reason"%string, FLoss k)])
  end.

(** ** Lifecycle *)

(** [LifecycleAction::emit] *)
Definition lifecycle_record (a : LifecycleAction) : LogRecord :=
  let place := [("bridge_ready", FBool (la_bridge_ready a)); ("nats_host", FText (la_host a)); ("nats_port", FNum (la_port a))]%string in
  let subscriptions :=
    [("connected", FBool (la_connected a)); ("established_subscriptions", FNum (Z.of_nat (la_established a)));
     ("expected_subscriptions", FNum (Z.of_nat (la_expected a)))]%string in
  let reason := [("reason"%string, FText (reason_as_str (la_reason a)))] in
  match la_reason a with
  | Starting | SubscriptionsPending => mkRecord LInfo "NATS bridge readiness" (place ++ subscriptions ++ reason)
  | BrokerUnavailable | Disconnected =>
      mkRecord LWarn "NATS bridge unavailable"
        (place ++ subscriptions ++ reason ++ [("error_kind"%string, FText (default "connection_lost"%string (la_error_kind a)))])
  | Ready => mkRecord LInfo "NATS bridge ready" (place ++ subscriptions ++ reason)
  | RetryScheduled =>
      mkRecord LDebug "NATS bridge retry scheduled"
        (place ++ [("retry_attempt", FNum (default 0 (la_retry_attempt a))); ("retry_delay_ms", FNum (default 0 (la_retry_delay_ms a)))]%string ++ reason)
  end.

(** [SlowConsumerAction::emit] *)
Definition slow_consumer_record (a : SlowConsumerAction) : LogRecord :=
  mkRecord LWarn "NATS bridge slow consumer"
    [("nats_host", FText (sa_host a)); ("nats_port", FNum (sa_port a)); ("slow_consumer_events", FNum (sa_event_count a));
     ("error_kind", FText "slow_consumer")]%string.

(** ** Operations *)

(** [emit] of [operations.rs] *)
Definition operations_record (s : BridgeOperationsSnapshot) (reason : string) (final_snapshot : bool) : LogRecord :=
  mkRecord (match emit_level s with LogInfo => LInfo | LogWarn => LWarn end) "NATS bridge operations"
    [("reason", FText reason); ("final_snapshot", FBool final_snapshot); ("enabled", FBool (os_enabled s));
     ("bridge_ready", FBool (os_ready s)); ("accepting", FBool (os_accepting s)); ("connected", FBool (os_connected s));
     ("delivery_healthy", FBool (os_delivery_healthy s)); ("exclusion_healthy", FBool (os_exclusion_healthy s));
     ("received", FNum (os_received s)); ("stored", FNum (os_stored s)); ("invalid_input", FNum (os_invalid_input s));
     ("self_suppressed", FNum (os_self_suppressed s)); ("store_failures", FNum (os_store_failures s));
     ("slow_consumer", FNum (os_slow_consumer s)); ("remote_published", FNum (os_remote_published s));
     ("publish_failures", FNum (os_publish_failures s)); ("reconnects", FNum (os_reconnects s));
     ("event_lagged", FNum (os_event_lagged s)); ("queue_loss", FNum (os_queue_loss s));
     ("ledger_failures", FNum (os_ledger_failures s)); ("delivery_reservations", FNum (os_delivery_reservations s));
     ("delivery_completions", FNum (os_delivery_completions s));
     ("delivery_reservations_uncertain", FNum (os_delivery_reservations_uncertain s));
     ("reconciliation_triggers", FNum (rs_triggers (os_reconciliation s)));
     ("reconciliation_coalesced", FNum (rs_coalesced (os_reconciliation s)));
     ("reconciliation_scans", FNum (rs_scans (os_reconciliation s)));
     ("reconciliation_hydrated", FNum (rs_hydrated (os_reconciliation s)));
     ("reconciliation_suppressed", FNum (rs_suppressed (os_reconciliation s)));
     ("reconciliation_failures", FNum (rs_failures (os_reconciliation s)));
     ("shutdown_clean", FNum (shutdown_clean (os_outcomes s))); ("shutdown_failure", FNum (shutdown_failure (os_outcomes s)));
     ("shutdown_timeout", FNum (shutdown_timeout (os_outcomes s)));
     ("shutdown_aborted_tasks", FNum (shutdown_aborted_tasks (os_outcomes s)));
     ("ledger_io_unjoined", FNum (ledger_io_unjoined (os_outcomes s)))]%string.

(** [BridgeOperations]: the counters of all parts, as they are when the record is
    written. *)
Record BridgeOperations := mkOperations {
  bo_ingress : IngressStats;
  bo_egress : EgressStats;
  bo_reconcile : ReconcileSnapshot;
  bo_readiness : BridgeStatus;
  bo_outcomes : Outcomes;
}.

(** [BridgeOperations::snapshot] *)
Definition operations_snapshot (o : BridgeOperations) (lifecycle : LifecycleSnapshot) : BridgeOperationsSnapshot :=
  aggregate (bo_ingress o) (bo_egress o) (bo_reconcile o) (bo_readiness o) lifecycle (bo_outcomes o).

(** [emit_transition] and [emit_final] *)
Definition emit_transition (o : BridgeOperations) (lifecycle : LifecycleSnapshot) (reason : string) : LogRecord :=
  operations_record (operations_snapshot o lifecycle) reason false.
Definition emit_final (o : BridgeOperations) (lifecycle : LifecycleSnapshot) : LogRecord :=
  operations_record (operations_snapshot o lifecycle) "final" true.

(** *** The periodic task

    [spawn_periodic_operations]: one arm of its [select!] per event, with what the
    watches show then; an [Err] of a watch is its sender's end. *)

Inductive OperationsEvent :=
| OpTick
| OpLifecycle (alive : bool)
| OpReadiness (alive : bool)
| OpShutdown (alive : bool) (deadline : option Z).

(** The record of one event, and whether the task goes on. *)
Definition operations_event (e : OperationsEvent) (o : BridgeOperations) (lifecycle : LifecycleSnapshot) : option LogRecord * bool :=
  match e with
  | OpTick => (Some (emit_transition o lifecycle "periodic"), true)
  | OpLifecycle alive => if negb alive then (None, false) else (Some (emit_transition o lifecycle "lifecycle"), true)
  | OpReadiness alive => if negb alive then (None, false) else (Some (emit_transition o lifecycle "readiness"), true)
  | OpShutdown alive deadline => (None, alive && negb (bool_decide (is_Some deadline)))
  end.

Fixpoint operations_task (es : list (OperationsEvent * BridgeOperations * LifecycleSnapshot)) : list LogRecord :=
  match es with
  | [] => []
  | (e, o, l) :: rest =>
      let '(r, go_on) := operations_event e o l in
      option_list r ++ if go_on then operations_task rest else []
  end.

(** * The bridge's logs and counters reveal no content

    Lockstep proofs over two histories: the ingress processor's and the egress
    pipeline's records depend on routes, sizes, verdicts and outcomes only. The
    snapshot of the operations task carries cumulative counters, with one exception
    that is shown not to be monotonic. *)

#[local] Open Scope Z_scope.

(** ** Ingress *)

Section ingress.
Context `{Serde} {W1 W2 : Type} {O1 : BridgeDocumentWriter W1} {O2 : BridgeDocumentWriter W2} (source : string).

(** Two writers that answer alike, whatever text they are given. *)
Context (R : W1 → W2 → Prop)
  (R_create : ∀ c d j1 j2 w1 w2, R w1 w2 →
     (create_document c d j1 w1).1 = (create_document c d j2 w2).1 ∧ R (create_document c d j1 w1).2 (create_document c d j2 w2).2).

(** Messages of one route, size and verdict. *)
Definition same_verdict (i1 i2 : IngressItem) : Prop :=
  match from_payload (ii_subject i1) source (ii_payload i1), from_payload (ii_subject i2) source (ii_payload i2) with
  | Ok _, Ok _ => True
  | Err e1, Err e2 => e1 = e2
  | _, _ => False
  end.

Definition alike_items (i1 i2 : IngressItem) : Prop :=
  ii_subject i1 = ii_subject i2 ∧ ii_collection i1 = ii_collection i2 ∧ length (ii_payload i1) = length (ii_payload i2) ∧ same_verdict i1 i2.

Definition alike_events (e1 e2 : IngressEvent) : Prop :=
  match e1, e2 with
  | Item i1 d1, Item i2 d2 => alike_items i1 i2 ∧ d1 = d2
  | SummaryTick, SummaryTick => True
  | _, _ => False
  end.

Definition alike_processors (p1 : Processor W1) (p2 : Processor W2) : Prop :=
  ip_stats p1 = ip_stats p2 ∧ ip_warnings p1 = ip_warnings p2 ∧ ip_emitted p1 = ip_emitted p2 ∧ R (ip_writer p1) (ip_writer p2).

Lemma alike_actions i1 i2 kind d attempt delay e n :
  alike_items i1 i2 → store_action kind i1 d attempt delay e = store_action kind i2 d attempt delay e ∧
    invalid_action kind i1 e n = invalid_action kind i2 e n.
Proof. intros (Hs & Hc & Hl & _). unfold store_action, invalid_action. by rewrite Hs, Hc, Hl. Qed.

Lemma alike_emit a p1 p2 : alike_processors p1 p2 → alike_processors (emit a p1) (emit a p2).
Proof. intros (Hs & Hw & He & Hr). split_and!; try done. cbn. by rewrite He. Qed.

Lemma alike_count c p1 p2 : alike_processors p1 p2 → alike_processors (count c p1) (count c p2).
Proof. intros (Hs & Hw & He & Hr). split_and!; try done. cbn. by rewrite Hs. Qed.

Lemma alike_set_warning s st p1 p2 : alike_processors p1 p2 → alike_processors (set_warning s st p1) (set_warning s st p2).
Proof. intros (Hs & Hw & He & Hr). split_and!; try done. cbn. by rewrite Hw. Qed.

Lemma alike_store_loop i1 i2 d j1 j2 attempt delays p1 p2 :
  alike_items i1 i2 → alike_processors p1 p2 →
  alike_processors (store_loop i1 d j1 attempt delays p1) (store_loop i2 d j2 attempt delays p2).
Proof.
  intros Hi. revert attempt p1 p2. induction delays as [|delay rest IH]; intros attempt p1 p2 Hp; cbn [store_loop]; [done|].
  pose proof Hp as (Hs & Hw & He & Hr). pose proof Hi as (_ & Hc & _).
  destruct (R_create (ii_collection i1) d j1 j2 _ _ Hr) as [Hans Hr']. rewrite Hc in Hans, Hr' |- *.
  destruct (create_document _ d j1 _) as [r1 w1], (create_document _ d j2 _) as [r2 w2]. cbn in Hans, Hr'. subst r2.
  assert (alike_processors (set_writer w1 p1) (set_writer w2 p2)) as Hp' by done.
  destruct r1 as [u|error]; [by apply alike_count|].
  destruct delay as [ms|]; [destruct (is_transient error)|].
  - rewrite (proj1 (alike_actions i1 i2 StoreRetry d (S attempt) (Some ms) _ None Hi)). by apply IH, alike_emit.
  - rewrite (proj1 (alike_actions i1 i2 StoreFailure d (S attempt) None _ None Hi)). by apply alike_emit, alike_count.
  - rewrite (proj1 (alike_actions i1 i2 StoreFailure d (S attempt) None _ None Hi)). by apply alike_emit, alike_count.
Qed.

Lemma alike_record_invalid i1 i2 error p1 p2 :
  alike_items i1 i2 → alike_processors p1 p2 → alike_processors (record_invalid i1 error p1) (record_invalid i2 error p2).
Proof.
  intros Hi Hp. unfold record_invalid.
  assert (∀ k n e, invalid_action k i1 e n = invalid_action k i2 e n) as Hact by (intros k n e; by apply (alike_actions _ _ k ""%string O None e n Hi)).
  assert (ii_subject i1 = ii_subject i2) as Hsub by apply Hi.
  assert (∀ c k, alike_processors
    (let p := emit (invalid_action InvalidOccurrence i1 k None) (count c p1) in
     match ip_warnings p !! ii_subject i1 with
     | None => p
     | Some state => if warning_emitted state then set_warning (ii_subject i1) (mkInvalid true (saturating_add_u64 (iw_suppressed state) 1)) p
         else emit (invalid_action InvalidWarning i1 k None) (set_warning (ii_subject i1) (mkInvalid true (iw_suppressed state)) p)
     end)
    (let p := emit (invalid_action InvalidOccurrence i2 k None) (count c p2) in
     match ip_warnings p !! ii_subject i2 with
     | None => p
     | Some state => if warning_emitted state then set_warning (ii_subject i2) (mkInvalid true (saturating_add_u64 (iw_suppressed state) 1)) p
         else emit (invalid_action InvalidWarning i2 k None) (set_warning (ii_subject i2) (mkInvalid true (iw_suppressed state)) p)
     end)) as Hall.
  { intros c k. cbn zeta. cbn [ip_warnings emit count]. rewrite !Hact, Hsub. pose proof Hp as (_ & -> & _).
    pose proof (alike_emit (invalid_action InvalidOccurrence i2 k None) _ _ (alike_count c _ _ Hp)) as Hp1.
    destruct (ip_warnings p2 !! ii_subject i2) as [st|]; [|done]. destruct (warning_emitted st).
    - by apply alike_set_warning.
    - by apply alike_emit, alike_set_warning. }
  destruct error; apply Hall.
Qed.

Lemma alike_ingress_step e1 e2 p1 p2 :
  alike_events e1 e2 → alike_processors p1 p2 → alike_processors (ingress_step source e1 p1) (ingress_step source e2 p2).
Proof.
  intros He Hp. destruct e1 as [i1 d1|], e2 as [i2 d2|]; try done; cbn [ingress_step].
  - destruct He as [Hi ->]. unfold process_item. pose proof Hi as (_ & _ & _ & Hv). unfold same_verdict in Hv.
    destruct (from_payload _ _ (ii_payload i1)), (from_payload _ _ (ii_payload i2)); try done.
    + by apply alike_store_loop, alike_count.
    + subst. by apply alike_record_invalid, alike_count.
  - destruct Hp as (Hs & Hw & Hem & Hr). split_and!; try done; cbn; by rewrite Hw, ?Hem.
Qed.

Lemma alike_ingress_run es1 es2 p1 p2 :
  Forall2 alike_events es1 es2 → alike_processors p1 p2 → alike_processors (run_ingress source es1 p1) (run_ingress source es2 p2).
Proof.
  intros Hes. revert p1 p2. induction Hes as [|e1 e2 es1 es2 He Hes IH]; intros p1 p2 Hp; [done|].
  cbn [run_ingress foldl]. by apply IH, alike_ingress_step.
Qed.

End ingress.

(** ** Egress *)

Section egress.
Context {sha : Sha256} `{Serde} {L1 L2 : Type} {O1 : LedgerOps L1} {O2 : LedgerOps L2} (origin1 origin2 : string).

(** Journals that answer alike on corresponding documents. *)
Context (Rd : LedgerDigest → LedgerDigest → Prop) (R : L1 → L2 → Prop)
  (R_reserve : ∀ d1 d2 l1 l2, Rd d1 d2 → R l1 l2 →
     (ledger_reserve d1 l1).1 = (ledger_reserve d2 l2).1 ∧ R (ledger_reserve d1 l1).2 (ledger_reserve d2 l2).2)
  (R_complete : ∀ d1 d2 l1 l2, Rd d1 d2 → R l1 l2 →
     (ledger_complete d1 l1).1 = (ledger_complete d2 l2).1 ∧ R (ledger_complete d1 l1).2 (ledger_complete d2 l2).2).

Definition alike_egress_items (i1 i2 : EgressItem) : Prop :=
  Rd (item_digest i1) (item_digest i2) ∧ item_route_index i1 = item_route_index i2 ∧ length (item_payload i1) = length (item_payload i2).

(** Events of one route and verdict. *)
Definition alike_changes (c1 c2 : EgressClassifier) (ev1 ev2 : BridgeChangeEvent) : Prop :=
  route_indexes c1 !! ev_collection ev1 = route_indexes c2 !! ev_collection ev2 ∧
  match classify c1 ev1, classify c2 ev2 with
  | Ok i1, Ok i2 => alike_egress_items i1 i2
  | Err k1, Err k2 => k1 = k2
  | _, _ => False
  end.

Definition alike_steps (c1 c2 : EgressClassifier) (s1 s2 : Step) : Prop :=
  match s1, s2 with
  | Offer ev1 now1, Offer ev2 now2 => alike_changes c1 c2 ev1 ev2 ∧ now1 = now2
  | Offer _ _, _ | _, Offer _ _ => False
  | _, _ => s1 = s2
  end.

Definition alike_workers (w1 w2 : WorkerPhase) : Prop :=
  match w1, w2 with
  | WFlush i1, WFlush i2 | WComplete i1, WComplete i2 => alike_egress_items i1 i2
  | WRecv, WRecv | WGone, WGone => True
  | _, _ => False
  end.

(** Everything but the items' contents agrees. *)
Record alike (p1 : Pipeline L1) (p2 : Pipeline L2) : Prop := {
  al_status : p_status p1 = p_status p2;
  al_ledger : R (p_ledger p1) (p_ledger p2);
  al_queue : Forall2 alike_egress_items (p_queue p1) (p_queue p2);
  al_stats : p_stats p1 = p_stats p2;
  al_diagnostics : p_diagnostics p1 = p_diagnostics p2;
  al_inflight : Forall2 (λ x1 x2, alike_egress_items x1.1 x2.1 ∧ x1.2 = x2.2) (p_inflight p1) (p_inflight p2);
  al_worker : alike_workers (p_worker p1) (p_worker p2);
  al_abandoned : p_abandoned p1 = p_abandoned p2;
}.

Definition alike_outcomes (o1 : Outcome (Pipeline L1)) (o2 : Outcome (Pipeline L2)) : Prop :=
  match o1, o2 with
  | Next p1, Next p2 => alike p1 p2
  | Stuck, Stuck | Panic, Panic => True
  | _, _ => False
  end.

Lemma alike_diagnose kind r b now p1 p2 : alike p1 p2 → alike_outcomes (diagnose kind r b now p1) (diagnose kind r b now p2).
Proof.
  intros [Hst Hl Hq Hs Hd Hf Hw Ha]. unfold diagnose. rewrite Hd. destruct (record_at _ now _); [|done]. by split.
Qed.

Lemma alike_record kind r b now p1 p2 : alike p1 p2 → alike_outcomes (record_action kind r b now p1) (record_action kind r b now p2).
Proof.
  intros [Hst Hl Hq Hs Hd Hf Hw Ha]. apply alike_diagnose. split; try done. cbn. by rewrite Hs.
Qed.

Lemma alike_len i1 i2 : alike_egress_items i1 i2 → payload_len i1 = payload_len i2 ∧ item_route_index i1 = item_route_index i2.
Proof. intros (_ & Hr & Hl). unfold payload_len. by rewrite Hl. Qed.

Lemma alike_failure kind i1 i2 now p1 p2 :
  alike_egress_items i1 i2 → alike p1 p2 → alike_outcomes (worker_failure kind i1 now p1) (worker_failure kind i2 now p2).
Proof.
  intros Hi [Hst Hl Hq Hs Hd Hf Hw Ha]. unfold worker_failure. destruct (alike_len _ _ Hi) as [-> ->].
  destruct kind; try done; by apply alike_record.
Qed.

Lemma alike_answer i p1 p2 : alike p1 p2 → alike_outcomes (ledger_answer i p1) (ledger_answer i p2).
Proof.
  intros [Hst Hl Hq Hs Hd Hf Hw Ha]. unfold ledger_answer.
  destruct (p_inflight p1 !! i) as [[i1 r1]|] eqn:H1.
  - destruct (Forall2_lookup_l _ _ _ _ _ Hf H1) as ([i2 r2] & -> & Hi & Hr). cbn in Hi, Hr. subst r2.
    destruct r1; [done|]. destruct (R_reserve _ _ _ _ (proj1 Hi) Hl) as [Ha1 Ha2].
    destruct (ledger_reserve (item_digest i1) _) as [r1 l1], (ledger_reserve (item_digest i2) _) as [r2 l2]. cbn in Ha1, Ha2. subst r2.
    split; cbn; try done. by apply Forall2_insert.
  - by rewrite (proj1 (Forall2_lookup_None _ _ _ i Hf) H1) || (destruct (p_inflight p2 !! i) eqn:H2; [|done];
      destruct (Forall2_lookup_r _ _ _ _ _ Hf H2) as (? & ? & _); congruence).
Qed.

Lemma Forall2_delete_at {A B} (Q : A → B → Prop) l1 l2 i : Forall2 Q l1 l2 → Forall2 Q (delete i l1) (delete i l2).
Proof. intros Hl. revert i. induction Hl; intros [|i]; cbn; try constructor; auto. Qed.

Lemma alike_resume i now p1 p2 : alike p1 p2 → alike_outcomes (deliver_resume i now p1) (deliver_resume i now p2).
Proof.
  intros Hp. pose proof Hp as [Hst Hl Hq Hs Hd Hf Hw Ha]. unfold deliver_resume.
  destruct (p_inflight p1 !! i) as [[i1 r1]|] eqn:H1.
  2: { destruct (p_inflight p2 !! i) eqn:H2; [|done]. destruct (Forall2_lookup_r _ _ _ _ _ Hf H2) as (? & ? & _). congruence. }
  destruct (Forall2_lookup_l _ _ _ _ _ Hf H1) as ([i2 r2] & -> & Hi & Hr). cbn in Hi, Hr. subst r2.
  destruct r1 as [r|]; [|done]. destruct (alike_len _ _ Hi) as [-> ->].
  assert (alike (with_inflight (delete i (p_inflight p1)) p1) (with_inflight (delete i (p_inflight p2)) p2)) as Hp'
    by (split; try done; by apply Forall2_delete_at).
  destruct r as [[]|].
  - cbn [p_worker p_queue with_stats with_inflight p_stats].
    assert (alike (with_stats (fetch_add c_reserved 1 (p_stats p1)) (with_inflight (delete i (p_inflight p1)) p1))
      (with_stats (fetch_add c_reserved 1 (p_stats p2)) (with_inflight (delete i (p_inflight p2)) p2))) as Hp2
      by (destruct Hp'; split; try done; cbn; by rewrite Hs).
    rewrite (Forall2_length _ _ _ Hq).
    destruct (p_worker p1), (p_worker p2); try done; try (by apply alike_record).
    all: case_match; [by apply alike_record|]; destruct Hp2; split; try done; cbn; apply Forall2_app; [done|by constructor].
  - by apply alike_record.
  - apply alike_record. destruct Hp'. split; try done. cbn. by rewrite Hst.
Qed.

Lemma alike_publish conn client now p1 p2 :
  alike p1 p2 → alike_outcomes (worker_publish origin1 conn client now p1) (worker_publish origin2 conn client now p2).
Proof.
  intros [Hst Hl Hq Hs Hd Hf Hw Ha]. unfold worker_publish.
  destruct (p_worker p1) eqn:W1, (p_worker p2) eqn:W2; try done.
  destruct Hq as [|i1 i2 q1 q2 Hi Hq]; [done|]. cbn [p_status with_queue]. rewrite Hst.
  destruct (nats_publish (p_status p2) conn client) as [called r].
  set (p1' := if called then _ else _). set (p2' := if called then _ else _).
  assert (alike p1' p2') as Hp' by (unfold p1', p2'; destruct called; split; cbn; rewrite ?W1, ?W2; done).
  destruct r; [|by apply alike_failure]. destruct Hp'. by split.
Qed.

Lemma alike_step s1 s2 p1 p2 :
  alike_steps (p_classifier p1) (p_classifier p2) s1 s2 → alike p1 p2 → alike_outcomes (step origin1 s1 p1) (step origin2 s2 p2).
Proof.
  intros Hs Hp. destruct s1, s2; try done; cbn [alike_steps] in Hs; simplify_eq; cbn [step].
  - destruct Hs as [[Hr Hc] <-]. unfold deliver_admit. rewrite Hr.
    destruct (classify _ event) as [i1|k1], (classify _ event0) as [i2|k2]; try done; [|subst; by apply alike_record].
    destruct (alike_len _ _ Hc) as [-> _]. rewrite (al_status _ _ Hp). case_match; [by apply alike_record|].
    destruct Hp. split; try done. cbn. apply Forall2_app; [done|]. constructor; [by split|constructor].
  - by apply alike_answer.
  - by apply alike_resume.
  - by apply alike_publish.
  - pose proof Hp as [Hst Hl Hq Hs' Hd Hf Hw Ha]. unfold worker_flush.
    destruct (p_worker p1), (p_worker p2); try done. rewrite Hst. destruct (nats_flush _ _); [by split|]. by apply alike_failure.
  - destruct Hp as [Hst Hl Hq Hs' Hd Hf Hw Ha]. unfold worker_complete.
    destruct (p_worker p1) as [|?|i1|] eqn:W1, (p_worker p2) as [|?|i2|] eqn:W2; try done. cbn [alike_workers] in Hw.
    destruct (R_complete _ _ _ _ (proj1 Hw) Hl) as [Ha1 Ha2]. destruct (alike_len _ _ Hw) as [E1 E2].
    destruct (ledger_complete (item_digest i1) _) as [r1 l1], (ledger_complete (item_digest i2) _) as [r2 l2]. cbn in Ha1, Ha2. subst r2.
    destruct r1; [rewrite E1, E2; apply alike_record|apply alike_failure; [done|]]; split; cbn; try done; by rewrite ?Hs', ?Hst, ?W1, ?W2.
  - destruct Hp as [Hst Hl Hq Hs' Hd Hf Hw Ha]. unfold drop_receiver.
    destruct (p_worker p1), (p_worker p2); try done; split; cbn; try done; by rewrite Ha, (Forall2_length _ _ _ Hq).
  - destruct Hp. split; cbn; try done. by rewrite al_status0.
  - apply alike_diagnose. destruct Hp. split; cbn; try done. by rewrite al_stats0.
Qed.

Lemma step_classifier {L} `{!LedgerOps L} origin st (p p' : Pipeline L) :
  step origin st p = Next p' → p_classifier p' = p_classifier p.
Proof. intros Hs. destruct (step_items origin (λ _, True) st p p' Hs) as (_ & Hc & _); [done|split_and!; by apply Forall_true|done]. Qed.

Lemma alike_run ss1 ss2 c1 c2 p1 p2 :
  p_classifier p1 = c1 → p_classifier p2 = c2 → Forall2 (alike_steps c1 c2) ss1 ss2 → alike p1 p2 →
  alike_outcomes (run origin1 ss1 p1) (run origin2 ss2 p2).
Proof.
  intros Hc1 Hc2 Hss. revert p1 p2 Hc1 Hc2. induction Hss as [|s1 s2 ss1 ss2 Hs Hss IH]; intros p1 p2 Hc1 Hc2 Hp; cbn [run]; [done|].
  subst c1 c2. pose proof (alike_step s1 s2 p1 p2 Hs Hp) as Ho.
  destruct (step origin1 s1 p1) as [p1'| |] eqn:E1, (step origin2 s2 p2) as [p2'| |] eqn:E2; try done.
  apply IH; [by eapply step_classifier|by eapply step_classifier|done].
Qed.

End egress.

(** ** Properties *)

(** Ingress logs no payload: run on two histories of messages that agree in
    their routes, sizes, verdicts and drawn document ids, against any two stores that
    answer alike, the processor writes the same log records in the same order and
    counts the same, whatever the bytes of the messages and the stored texts are. *)
Theorem ingress_logs_reveal_no_payload `{Serde} {W1 W2} {O1 : BridgeDocumentWriter W1} {O2 : BridgeDocumentWriter W2}
    (source : string) (R : W1 → W2 → Prop) subjects es1 es2 (w1 : W1) (w2 : W2) :
  (∀ c d j1 j2 w1 w2, R w1 w2 →
     (create_document c d j1 w1).1 = (create_document c d j2 w2).1 ∧ R (create_document c d j1 w1).2 (create_document c d j2 w2).2) →
  R w1 w2 → Forall2 (alike_events source) es1 es2 →
  ingress_record <$> ip_emitted (run_ingress source es1 (processor_new subjects w1)) =
    ingress_record <$> ip_emitted (run_ingress source es2 (processor_new subjects w2)) ∧
  ip_stats (run_ingress source es1 (processor_new subjects w1)) = ip_stats (run_ingress source es2 (processor_new subjects w2)).
Proof.
  intros HR Hw Hes. destruct (alike_ingress_run source R HR es1 es2 (processor_new subjects w1) (processor_new subjects w2) Hes)
    as (Hs & _ & He & _); [by split_and!|]. by rewrite He.
Qed.

(** What a run leaves in the log and the counters, or that it ended otherwise. *)
Definition observed {L} (o : Outcome (Pipeline L)) : Outcome (list LogRecord * EgressStats) :=
  match o with
  | Next p => Next (egress_record <$> (ed_emitted (p_diagnostics p)).*2, p_stats p)
  | Stuck => Stuck
  | Panic => Panic
  end.

(** [C35] Egress logs and counts no content: two interleavings of the pipeline that
    agree in the routes and verdicts of the offered events, the sizes of their
    payloads, and the answers of the journals and the broker, leave the same records
    and the same counters, or end alike, whatever the documents, their ids, the peers,
    the payloads and the nodes' names are. *)
Theorem egress_logs_reveal_no_content {sha : Sha256} `{Serde} {L1 L2} {O1 : LedgerOps L1} {O2 : LedgerOps L2}
    (Rd : LedgerDigest → LedgerDigest → Prop) (R : L1 → L2 → Prop) mappings node1 node2 (l1 : L1) (l2 : L2) status ss1 ss2 :
  (∀ d1 d2 l1 l2, Rd d1 d2 → R l1 l2 →
     (ledger_reserve d1 l1).1 = (ledger_reserve d2 l2).1 ∧ R (ledger_reserve d1 l1).2 (ledger_reserve d2 l2).2) →
  (∀ d1 d2 l1 l2, Rd d1 d2 → R l1 l2 →
     (ledger_complete d1 l1).1 = (ledger_complete d2 l2).1 ∧ R (ledger_complete d1 l1).2 (ledger_complete d2 l2).2) →
  R l1 l2 → Forall2 (alike_steps Rd (classifier_new mappings node1) (classifier_new mappings node2)) ss1 ss2 →
  observed (run node1 ss1 (coordinator_new mappings node1 l1 status)) = observed (run node2 ss2 (coordinator_new mappings node2 l2 status)).
Proof.
  intros HR1 HR2 Hl Hss.
  pose proof (alike_run node1 node2 Rd R HR1 HR2 ss1 ss2 _ _ (coordinator_new mappings node1 l1 status)
    (coordinator_new mappings node2 l2 status) eq_refl eq_refl Hss) as Hrun.
  destruct (run node1 ss1 _) as [p1| |], (run node2 ss2 _) as [p2| |]; cbn in Hrun |- *.
  1: { destruct Hrun as [Hst Hle Hq Hs Hd Hf Hw Ha]; [by split|]. by rewrite Hs, Hd. }
  all: by (destruct Hrun; by split) || done.
Qed.

(** *** Counters *)

(** A counter never decreases until its 64 bits overflow. *)
Lemma fetch_add_mono c n st c' : 0 ≤ n → 0 ≤ st c' → st c' + n ≤ U64_MAX → st c' ≤ fetch_add c n st c'.
Proof.
  intros Hn Hs Hb. unfold fetch_add, wrapping_add_u64. case_bool_decide; [|lia]. rewrite Z.mod_small; [lia|]. unfold U64_MAX in Hb. lia.
Qed.

(** The snapshot's documentation calls every counter monotonic; the number of
    uncertain reservations falls with every completed delivery. *)
Theorem uncertain_reservations_fall ingress egress reconcile readiness lifecycle outcomes :
  0 ≤ egress c_completed < egress c_reserved → egress c_reserved ≤ U64_MAX →
  os_delivery_reservations_uncertain (aggregate ingress (fetch_add c_completed 1 egress) reconcile readiness lifecycle outcomes) <
  os_delivery_reservations_uncertain (aggregate ingress egress reconcile readiness lifecycle outcomes).
Proof.
  intros [Hc Hr] Hb. cbn -[fetch_add]. unfold saturating_sub_u64, fetch_add, wrapping_add_u64.
  rewrite (bool_decide_true (c_completed = c_completed)), (bool_decide_false (c_completed = c_reserved)) by done. unfold U64_MAX in Hb. rewrite Z.mod_small by lia. lia.
Qed.

(** The operations task reports what it was shown: while neither a watch's sender
    nor the shutdown has ended it, there is one record per tick, lifecycle change and
    readiness change, in order; afterwards there is none. *)
Definition op_ends (e : OperationsEvent) : bool :=
  match e with
  | OpTick => false
  | OpLifecycle alive | OpReadiness alive => negb alive
  | OpShutdown alive deadline => negb alive || bool_decide (is_Some deadline)
  end.

Theorem operations_task_exact es e o l rest :
  Forall (λ x, op_ends x.1.1 = false) es → op_ends e = true →
  operations_task (es ++ (e, o, l) :: rest) = omap (λ x, (operations_event x.1.1 x.1.2 x.2).1) es ∧
  length (operations_task es) = length (List.filter (λ x, match x.1.1 with OpShutdown _ _ => false | _ => true end) es).
Proof.
  intros Hes He. induction Hes as [|[[e0 o0] l0] es H0 Hes [IH1 IH2]]; cbn [app operations_task].
  - split; [|done]. destruct e as [|alive|alive|alive deadline]; cbn in He |- *; try done.
    all: try (destruct alive; done). destruct alive; cbn in *; [|done]. by rewrite He.
  - cbn [fst snd] in H0. destruct e0 as [|alive|alive|alive deadline]; cbn in H0 |- *; try (destruct alive; [|done]); cbn in H0 |- *.
    all: rewrite ?H0; cbn; rewrite IH1, IH2; done.
Qed.

(** ** Witnesses *)

(** A store that refuses every document for now. *)
Definition refusing_writer : BridgeDocumentWriter unit := {| create_document c d j w := (Err CbStoreWrite, tt) |}.

Definition toy_item (payload : bytes) : IngressEvent := Item (mkIngressItem "tracks.up" "tracks" payload) "doc".

Lemma ingress_logs_reveal_no_payload_witness :
  let run payload := ip_emitted (run_ingress (H := toy_serde) (H0 := refusing_writer) "alpha" [toy_item payload]
                                   (processor_new ["tracks.up"%string] tt)) in
  length (run [Byte.x7b; Byte.x7d]) = 3%nat ∧ ingress_record <$> run [Byte.x7b; Byte.x7d] = ingress_record <$> run [Byte.x5b; Byte.x5d].
Proof.
  split; [vm_compute; reflexivity|].
  apply (ingress_logs_reveal_no_payload (H := toy_serde) (O1 := refusing_writer) (O2 := refusing_writer) "alpha" (λ _ _, True)
    ["tracks.up"%string] [toy_item [Byte.x7b; Byte.x7d]] [toy_item [Byte.x5b; Byte.x5d]] tt tt).
  - intros. split; [reflexivity|exact I].
  - exact I.
  - constructor; [|constructor]. split; [|reflexivity]. split; [reflexivity|]. split; [reflexivity|]. split; [reflexivity|].
    vm_compute. exact I.
Defined.

(** The same document with another payload of the same size, from another peer. *)
Definition toy_event' : BridgeChangeEvent :=
  mkEvent "tracks" "doc" "other" (envelope_to_json (Serde := toy_serde)
    (mkEnvelope BRIDGE_ENVELOPE_KIND BRIDGE_ENVELOPE_VERSION "tracks.up" "alpha" (String.string_of_list_byte [Byte.x5b; Byte.x5d]))).

Definition toy_egress (ev : BridgeChangeEvent) : Outcome (Pipeline (Worker * Fs)) :=
  run (sha := toy_sha) (H := toy_serde) (H0 := delivery_ops (sha := toy_sha)) "beta"
    [Offer ev 0; LedgerAnswer 0; Resume 0 1; Publish true (Ok tt) 2; Flush (Some (Ok tt)) 3; Complete 4]
    (coordinator_new toy_mappings "beta" toy_delivery toy_status).

Lemma egress_logs_reveal_no_content_witness : observed (toy_egress toy_event) = observed (toy_egress toy_event').
Proof.
  apply (egress_logs_reveal_no_content (sha := toy_sha) (H := toy_serde) (O1 := delivery_ops (sha := toy_sha)) (O2 := delivery_ops (sha := toy_sha))
    eq eq toy_mappings "beta" "beta" toy_delivery toy_delivery toy_status).
  - intros d1 d2 l1 l2 -> ->. split; reflexivity.
  - intros d1 d2 l1 l2 -> ->. split; reflexivity.
  - reflexivity.
  - repeat apply Forall2_cons_2; try reflexivity; [|constructor]. split; [|reflexivity]. split; [vm_compute; reflexivity|].
    vm_compute. split; [reflexivity|]. split; reflexivity.
Defined.
