(* ===== verification/Handle.v ===== *)
(** * The bridge runtime handle

    Model of [BridgeRuntimeHandle] in [src/nats_bridge/runtime.rs] beside its
    [shutdown] (which [Shutdown] models): the views it gives of the bridge, whether
    one of its tasks has ended, the start without a node, and [Drop], which stops
    everything at once without waiting. The property is that a dropped bridge does
    nothing more, whatever its tasks and the journals' other users still do. *)

From S2P Require Import Prelude Journal JournalFacts LedgerWorker LedgerWorkerFacts Readiness Envelope NatsConfig RateLimit Egress EgressLedger EgressFacts.
From S2P Require Import NodeDocs ExclusionLedger Ingress Reconcile Lifecycle Shutdown Install BridgeLog.

#[local] Open Scope Z_scope.

(** A spawned task: running, told to stop at its next suspension, or ended. *)
Inductive TaskState := TaskRunning | TaskAborting | TaskEnded.

(** [JoinHandle::abort] and [JoinHandle::is_finished] *)
Definition abort (t : TaskState) : TaskState := match t with TaskRunning => TaskAborting | t => t end.
Definition finished (t : TaskState) : bool := match t with TaskEnded => true | _ => false end.

(** The fields that own something; the workers are the journals' threads. *)
Record BridgeRuntimeHandle := mkHandle {
  hd_readiness : BridgeStatus;
  hd_lifecycle : LifecycleSnapshot;
  hd_task : option TaskState;
  hd_producer_tasks : list TaskState;
  hd_consumer_tasks : list TaskState;
  hd_reconcile_trigger : option Reconciler;
  hd_exclusion : option Worker;
  hd_delivery : option Worker;
  hd_operations : BridgeOperations;
  hd_operations_task : option TaskState;
  hd_shutdown_timeout : Z;
}.

(** [egress_snapshot], [operations_snapshot] and [is_finished] *)
Record BridgeEgressSnapshot := mkEgressSnapshot { eg_published : Z; eg_unavailable : Z; eg_publish_failed : Z; eg_max_payload_exceeded : Z }.

Definition egress_snapshot (h : BridgeRuntimeHandle) : BridgeEgressSnapshot :=
  let snapshot := bo_egress (hd_operations h) in
  mkEgressSnapshot (snapshot c_published) (snapshot c_unavailable) (snapshot c_publish_failed) (snapshot c_max_payload_exceeded).

Definition handle_operations_snapshot (h : BridgeRuntimeHandle) : BridgeOperationsSnapshot :=
  operations_snapshot (hd_operations h) (hd_lifecycle h).

Definition is_finished (h : BridgeRuntimeHandle) : bool :=
  match hd_task h with None => true | Some t => finished t end
  || existsb finished (hd_producer_tasks h) || existsb finished (hd_consumer_tasks h).

(** [ReconcileTrigger::close], its two stores in order *)
Definition close_trigger (r : Reconciler) : Reconciler :=
  match rrun [CloseFlag; ClosePending] r with Some r' => r' | None => r end.

(** [Drop for BridgeRuntimeHandle] *)
Definition drop_handle (h : BridgeRuntimeHandle) : BridgeRuntimeHandle :=
  mkHandle (update BeginShutdown (hd_readiness h)).2 (hd_lifecycle h) (abort <$> hd_task h) (abort <$> hd_producer_tasks h)
    (abort <$> hd_consumer_tasks h) (close_trigger <$> hd_reconcile_trigger h) (request_stop <$> hd_exclusion h)
    (request_stop <$> hd_delivery h) (hd_operations h) (abort <$> hd_operations_task h) (hd_shutdown_timeout h).

(** [spawn_connection_only]: a bridge that only connects, with neither ledgers nor
    egress, and ten seconds to shut down. *)
Definition spawn_connection_only (subjects : list string) : BridgeStart :=
  spawn_supervisor subjects (mkHealth true true) "" "" None None.

(** ** The remaining tasks' view of a dropped handle *)

(** The egress pipeline shares the readiness and the delivery worker with the
    handle; after the drop it sees theirs. *)
Definition after_drop (h : BridgeRuntimeHandle) (p : Pipeline (Worker * Fs)) : Pipeline (Worker * Fs) :=
  with_status (hd_readiness (drop_handle h))
    (match hd_delivery (drop_handle h) with Some w => with_ledger (w, (p_ledger p).2) p | None => p end).

(** ** Stopped workers *)

Section stopped.
Context {sha : Sha256}.

(** What a stopped worker keeps. *)
Definition stopped_at (j : Journal) (fs : Fs) (l : Worker * Fs) : Prop :=
  w_stopped l.1 = true ∧ w_journal l.1 = j ∧ l.2 = fs.

Lemma try_send_stopped j fs c w w' : stopped_at j fs (w, fs) → try_send c w = Ok w' → stopped_at j fs (w', fs) ∧ w_alive w' = true ∧ w_queue w' ≠ [].
Proof.
  unfold try_send. intros (Hs & Hj & _) Ht. destruct (w_alive w) eqn:Ha; cbn in Ht; [|done]. case_match; [done|]. injection Ht as <-.
  cbn. split_and!; try done. by destruct (w_queue w).
Qed.

Lemma run_queue_stopped_at j fs w :
  stopped_at j fs (w, fs) → w_alive w = true → w_queue w ≠ [] → stopped_at j fs (run_queue w fs).
Proof.
  intros (Hs & Hj & _) Ha Hq. cbn in Hs, Hj. unfold run_queue. destruct (w_queue w) as [|c rest] eqn:Hw; [done|]. cbn [length drain].
  unfold worker_step. rewrite Ha, Hw. cbn [negb set_queue w_stopped]. rewrite Hs.
  assert (∀ n, drain n (worker_exit (set_queue rest w)) fs = (worker_exit (set_queue rest w), fs)) as ->.
  { intros [|n]; [done|]. cbn. done. }
  by split_and!.
Qed.

(** A call on a stopped worker changes neither the journal nor the files. *)
Lemma submit_stopped j fs c w w' :
  stopped_at j fs (w, fs) → submit c w = Ok w' → stopped_at j fs (run_queue w' fs).
Proof.
  unfold submit. intros Hst Hsub. destruct (negb _) in Hsub; [done|].
  destruct (try_send_stopped _ _ _ _ _ Hst Hsub) as (Hst' & Ha & Hq). by apply run_queue_stopped_at.
Qed.

Lemma worker_record_stopped j fs d s w r w' fs' :
  stopped_at j fs (w, fs) → worker_record d s w fs = (r, w', fs') → stopped_at j fs (w', fs').
Proof.
  unfold worker_record. intros Hst Hrun. destruct (submit _ w) as [w1|] eqn:Hsub; [|by simplify_eq].
  apply (submit_stopped _ _ _ _ _ Hst) in Hsub. destruct (run_queue w1 fs) as [w2 fs2]. repeat case_match; by simplify_eq.
Qed.

Lemma worker_lookup_stopped j fs d w r w' fs' :
  stopped_at j fs (w, fs) → worker_lookup d w fs = (r, w', fs') → stopped_at j fs (w', fs').
Proof.
  unfold worker_lookup. intros Hst Hrun. destruct (submit _ w) as [w1|] eqn:Hsub; [|by simplify_eq].
  apply (submit_stopped _ _ _ _ _ Hst) in Hsub. destruct (run_queue w1 fs) as [w2 fs2]. repeat case_match; by simplify_eq.
Qed.

Lemma ledger_ops_stopped j fs d l :
  stopped_at j fs l → stopped_at j fs (ledger_reserve d l).2 ∧ stopped_at j fs (ledger_complete d l).2.
Proof.
  destruct l as [w f]. intros Hst. pose proof Hst as (_ & _ & Hf). cbn in Hf. subst f. cbn.
  unfold check_and_reserve, mark_completed. split.
  - destruct (worker_record d Reserved w fs) as [[r w'] fs'] eqn:Hr. cbn. by eapply worker_record_stopped.
  - destruct (worker_record d Completed w fs) as [[r w'] fs'] eqn:Hr. cbn. by eapply worker_record_stopped.
Qed.

Lemma exclusion_ops_stopped j fs d (l : Worker * Fs) :
  stopped_at j fs l → stopped_at j fs (excl_record d l).2 ∧ stopped_at j fs (excl_contains d l).2.
Proof.
  destruct l as [w f]. intros Hst. pose proof Hst as (_ & _ & Hf). cbn in Hf. subst f. cbn.
  unfold record_local_excluded, contains. split.
  - destruct (worker_record d LocalExcluded w fs) as [[r w'] fs'] eqn:Hr. cbn. by eapply worker_record_stopped.
  - destruct (worker_lookup d w fs) as [[r w'] fs'] eqn:Hr. cbn. by eapply worker_lookup_stopped.
Qed.

End stopped.

(** ** A closed bridge *)

Section inert.
Context {sha : Sha256} `{Serde} (origin : string).
Implicit Types p : Pipeline (Worker * Fs).

(** Not accepting, with this much published and the journal stopped. *)
Definition inert (c : list (string * string * EgressItem)) (j : Journal) (fs : Fs) p : Prop :=
  accepting (p_status p) = false ∧ p_client p = c ∧ stopped_at j fs (p_ledger p).

Lemma not_accepting_stays op s : accepting s = false → accepting (update op s).2 = false.
Proof. by destruct op. Qed.

Lemma not_accepting_not_ready s : accepting s = false → is_ready s = false.
Proof. unfold is_ready. intros ->. by rewrite andb_false_r. Qed.

Lemma diagnose_inert c j fs kind r b now p p' : diagnose kind r b now p = Next p' → inert c j fs p → inert c j fs p'.
Proof. unfold diagnose. intros Hd Hi. case_match; by simplify_eq. Qed.

Lemma record_inert c j fs kind r b now p p' : record_action kind r b now p = Next p' → inert c j fs p → inert c j fs p'.
Proof. intros Hr Hi. by eapply diagnose_inert. Qed.

Lemma failure_inert c j fs kind item now p p' : worker_failure kind item now p = Next p' → inert c j fs p → inert c j fs p'.
Proof. unfold worker_failure. intros Hw Hi. destruct kind; try done; by eapply record_inert. Qed.

Lemma step_inert c j fs st p p' : step origin st p = Next p' → inert c j fs p → inert c j fs p'.
Proof.
  intros Hstep Hi. pose proof Hi as (Ha & Hc & Hl). pose proof (not_accepting_not_ready _ Ha) as Hr.
  destruct st as [event now|i|i now|conn client now|client now|now| |op|dropped now]; cbn [step] in Hstep.
  - unfold deliver_admit in Hstep. destruct (classify _ event); [|by eapply record_inert]. rewrite Ha in Hstep. cbn [negb orb] in Hstep. by eapply record_inert.
  - unfold ledger_answer in Hstep. destruct (p_inflight p !! i) as [[item [r|]]|]; try done.
    destruct (ledger_ops_stopped j fs (item_digest item) _ Hl) as [Hl' _]. destruct (ledger_reserve _ _) as [r l]. by simplify_eq.
  - unfold deliver_resume in Hstep. destruct (p_inflight p !! i) as [[item [r|]]|]; try done.
    destruct r as [[]|]; [|by eapply record_inert|].
    + cbn in Hstep. destruct (p_worker p); (try (case_match; [by eapply record_inert|by simplify_eq])). by eapply record_inert.
    + by eapply record_inert.
  - unfold worker_publish in Hstep. destruct (p_worker p); try done. destruct (p_queue p) as [|item rest]; [done|].
    unfold nats_publish in Hstep. cbn [p_status with_queue] in Hstep. rewrite Hr in Hstep. cbn [negb orb] in Hstep. by eapply failure_inert.
  - unfold worker_flush in Hstep. destruct (p_worker p); try done. destruct (nats_flush _ _); [by simplify_eq|by eapply failure_inert].
  - unfold worker_complete in Hstep. destruct (p_worker p) as [|?|item|]; try done.
    destruct (ledger_ops_stopped j fs (item_digest item) _ Hl) as [_ Hl']. destruct (ledger_complete _ _) as [[] l].
    + by eapply record_inert.
    + by eapply failure_inert.
  - unfold drop_receiver in Hstep. destruct (p_worker p); by simplify_eq.
  - simplify_eq. split_and!; try done. by apply not_accepting_stays.
  - by eapply diagnose_inert.
Qed.

Lemma run_inert c j fs steps p p' : run origin steps p = Next p' → inert c j fs p → inert c j fs p'.
Proof.
  revert p. induction steps as [|st steps IH]; intros p Hrun Hi; cbn in Hrun; [by simplify_eq|].
  destruct (step origin st p) as [p1| |] eqn:Hs; try done. eauto using step_inert.
Qed.

End inert.

(** Once closed, no scan starts any more. *)
Lemma rstep_closed st r r' : rstep st r = Some r' → rc_closed r = true → rc_closed r' = true ∧ rc_scans r' = rc_scans r.
Proof.
  intros Hs Hc. destruct st; cbn in Hs; rewrite ?Hc in Hs; repeat (case_match; simplify_eq/=); by simplify_eq/=.
Qed.

Lemma rrun_closed steps r r' : rrun steps r = Some r' → rc_closed r = true → rc_scans r' = rc_scans r.
Proof.
  revert r. induction steps as [|st steps IH]; intros r Hrun Hc; cbn in Hrun; [by simplify_eq|].
  destruct (rstep st r) as [r1|] eqn:Hs; cbn in Hrun; [|done]. destruct (rstep_closed _ _ _ Hs Hc) as [Hc1 <-]. by eapply IH.
Qed.

Lemma request_stop_stopped w : w_stopped (request_stop w) = true ∧ w_journal (request_stop w) = w_journal w.
Proof. unfold request_stop, try_send. repeat case_match; by simplify_eq/=. Qed.

(** Local writes after the drop, on the exclusion ledger. *)
Fixpoint exclude_all {sha : Sha256} (ds : list LedgerDigest) (l : Worker * Fs) : Worker * Fs :=
  match ds with [] => l | d :: ds => exclude_all ds (excl_record d l).2 end.

Lemma exclude_all_stopped {sha : Sha256} j fs ds l : stopped_at j fs l → stopped_at j fs (exclude_all ds l).
Proof. revert l. induction ds as [|d ds IH]; intros l Hl; [done|]. apply IH. by apply exclusion_ops_stopped. Qed.


(** *** Witness: a bridge dropped with a delivery between reservation and queue *)

Definition toy_handle : BridgeRuntimeHandle :=
  mkHandle toy_status snapshot_default (Some TaskRunning) [TaskRunning; TaskEnded] [TaskRunning] (Some reconciler_new) None
    (Some toy_delivery.1) (mkOperations ingress_stats_default stats_default (mkReconcileSnapshot 0 0 0 0 0 0) toy_status outcomes_default)
    (Some TaskRunning) 10000.

Definition toy_reserved : Outcome (Pipeline (Worker * Fs)) :=
  run (sha := toy_sha) (H := toy_serde) (H0 := delivery_ops (sha := toy_sha)) "beta" [Offer toy_event 0]
    (coordinator_new toy_mappings "beta" toy_delivery toy_status).

