(* ===== verification/BuildScript.v ===== *)
(** * The build script

    Model of [build.rs]: the lookup of a dependency's resolved version in the text of
    [Cargo.lock], and the directives the script prints for cargo. Generating the RPC
    code and reading the file are inputs.

    The properties relate the scan of the text to the format of a lock file: on the
    text of any list of packages it finds the version of the first package with the
    exact name. *)

From S2P Require Import Prelude Paths PathFacts Envelope NodeDocsFacts CliCore.
From Stdlib Require Import Strings.Ascii.

Definition NL : ascii := "010"%char.
Definition CR : string := String "013"%char EmptyString.
Definition QUOTE : ascii := "034"%char.

(** ** The standard library's text functions *)

(** [&s[s.find(p)?..]] *)
Fixpoint str_find (p s : string) : option string :=
  match strip_prefix p s with
  | Some _ => Some s
  | None => match s with EmptyString => None | String _ s' => str_find p s' end
  end.

(** [str::lines]: a final newline ends the last line, and a carriage return before a
    newline belongs to it. *)
Fixpoint piece_lines (pieces : list string) : list string :=
  match pieces with
  | [] => []
  | [last] => if is_empty_str last then [] else [last]
  | p :: rest => default p (strip_suffix CR p) :: piece_lines rest
  end.

Definition lines (s : string) : list string := piece_lines (split_on NL s).

(** [str::trim_start]: white space is removed character by character. *)
Fixpoint strip_one_of (ws : list string) (s : string) : option string :=
  match ws with
  | [] => None
  | w :: ws' => match strip_prefix w s with Some r => Some r | None => strip_one_of ws' s end
  end.

Fixpoint trim_start_fuel (fuel : nat) (s : string) : string :=
  match fuel with
  | O => s
  | S fuel' =>
      match strip_one_of (String.string_of_list_byte <$> whitespace_chars) s with
      | Some r => trim_start_fuel fuel' r
      | None => s
      end
  end.

Definition trim_start (s : string) : string := trim_start_fuel (String.length s) s.

(** ** [build.rs] *)

Definition quoted (s : string) : string := String QUOTE (s +:+ String QUOTE EmptyString).

Definition is_version_line (l : string) : bool := starts_with (trim_start l) "version = ".

Definition locked_version (lock crate_name : string) : string :=
  default "unknown"%string (
    text ← str_find ("name = " +:+ quoted crate_name) lock;
    line ← List.find is_version_line (lines text);
    split_on QUOTE line !! 1%nat).

Definition versioned_crates : list (string * string) :=
  [("peat-mesh", "PEAT_MESH_VERSION"); ("peat-protocol", "PEAT_PROTOCOL_VERSION"); ("peat-schema", "PEAT_SCHEMA_VERSION")]%string.

(** [main]: what it prints; [compile] is the outcome of the code generation and
    [lock] the file's text when it can be read. *)
Definition build_main (compile : bool) (lock : option string) : option (list string) :=
  if negb compile then None
  else
    let lock := default EmptyString lock in
    Some (((λ c, "cargo:rustc-env=" +:+ c.2 +:+ "=" +:+ locked_version lock c.1) <$> versioned_crates)
          ++ ["cargo:rerun-if-changed=proto/sidecar.proto"; "cargo:rerun-if-changed=Cargo.lock"]%string).

(** ** Lock files

    What cargo writes: a preamble, then a block per package with its name, its
    version and further lines. *)

Record Package := mkPackage { pkg_name : string; pkg_version : string; pkg_lines : list string }.

Definition package_text (p : Package) : list string :=
  ["[[package]]"; "name = " +:+ quoted (pkg_name p); "version = " +:+ quoted (pkg_version p)]%string ++ pkg_lines p ++ [EmptyString].

Fixpoint unlines (ls : list string) : string :=
  match ls with [] => EmptyString | l :: ls' => l +:+ String NL (unlines ls') end.

Definition lock_text (preamble : list string) (ps : list Package) : string :=
  unlines (preamble ++ mjoin (package_text <$> ps)).

(** A name or version: no quote and no end of line in it. *)
Definition plain (s : string) : Prop := str_contains s QUOTE = false ∧ str_contains s NL = false.

(** A line that is not a package's name. *)
Definition no_name (l : string) : Prop := str_find ("name = " +:+ String QUOTE EmptyString) l = None ∧ str_contains l NL = false.

Definition package_ok (p : Package) : Prop := plain (pkg_name p) ∧ plain (pkg_version p) ∧ Forall no_name (pkg_lines p).

(** ** Lemmas *)

Lemma strip_prefix_line p l rest :
  str_contains p NL = false →
  strip_prefix p (l +:+ String NL rest) = (λ r, r +:+ String NL rest) <$> strip_prefix p l.
Proof.
  revert l. induction p as [|a p IH]; intros l Hp; [done|]. rewrite str_contains_cons in Hp. apply orb_false_iff in Hp as [Ha Hp].
  destruct l as [|c l]; cbn [strip_prefix].
  - change (EmptyString +:+ String NL rest) with (String NL rest). cbn [strip_prefix]. rewrite Ascii.eqb_sym in Ha. by rewrite Ha.
  - rewrite string_app_cons. cbn [strip_prefix]. destruct (Ascii.eqb a c); [by apply IH|done].
Qed.

Lemma str_find_line a p l rest :
  str_contains (String a p) NL = false →
  str_find (String a p) (l +:+ String NL rest) =
  match str_find (String a p) l with Some x => Some (x +:+ String NL rest) | None => str_find (String a p) rest end.
Proof.
  intros Hp. induction l as [|c l IH].
  - change (EmptyString +:+ String NL rest) with (String NL rest). cbn [str_find].
    pose proof (strip_prefix_line (String a p) EmptyString rest Hp) as Hs.
    change (EmptyString +:+ String NL rest) with (String NL rest) in Hs. by rewrite Hs.
  - rewrite string_app_cons. cbn [str_find]. rewrite <-string_app_cons, strip_prefix_line by done.
    destruct (strip_prefix (String a p) (String c l)); cbn [fmap option_fmap option_map]; [done|]. exact IH.
Qed.

Lemma str_find_Some p s r : str_find p s = Some r → ∃ pre post, s = pre +:+ r ∧ r = p +:+ post.
Proof.
  induction s as [|c s IH]; cbn [str_find].
  - destruct (strip_prefix p EmptyString) as [post|] eqn:Hp; [|done]. intros [= <-]. apply strip_prefix_Some in Hp as Hp.
    by exists EmptyString, post.
  - destruct (strip_prefix p (String c s)) as [post|] eqn:Hp.
    + intros [= <-]. apply strip_prefix_Some in Hp. by exists EmptyString, post.
    + intros (pre & post & -> & ->)%IH. exists (String c pre), post. by rewrite string_app_cons.
Qed.

Lemma str_find_prefix p q s : str_find p s = None → str_find (p +:+ q) s = None.
Proof.
  assert (∀ s, strip_prefix p s = None → strip_prefix (p +:+ q) s = None) as Hpre.
  { intros t Hn. destruct (strip_prefix (p +:+ q) t) as [r|] eqn:Hs; [|done]. apply strip_prefix_Some in Hs.
    rewrite string_app_assoc in Hs. rewrite Hs, strip_prefix_app in Hn. done. }
  induction s as [|c s IH]; cbn [str_find].
  - destruct (strip_prefix p EmptyString) eqn:Hp; [done|]. by rewrite (Hpre _ Hp).
  - destruct (strip_prefix p (String c s)) eqn:Hp; [done|]. rewrite (Hpre _ Hp). exact IH.
Qed.

Lemma str_count_app s t c : str_count (s +:+ t) c = (str_count s c + str_count t c)%nat.
Proof.
  induction s as [|a s IH]; [done|]. rewrite string_app_cons. unfold str_count in *. cbn. destruct (Ascii.eqb c a); cbn; by rewrite IH.
Qed.

Lemma str_count_contains s c : str_count s c = O ↔ str_contains s c = false.
Proof.
  induction s as [|a s IH]; [done|]. rewrite str_contains_cons. unfold str_count in *. cbn.
  destruct (Ascii.eqb c a); cbn; [done|exact IH].
Qed.

(** The lines that mention the name: only the name's own. *)
Definition needle (name : string) : string := "name = " +:+ quoted name.

Lemma needle_count name : str_contains name QUOTE = false → str_count (needle name) QUOTE = 2%nat.
Proof.
  intros Hn%str_count_contains. unfold needle, quoted. rewrite str_count_app. change (String QUOTE ?x) with (String QUOTE EmptyString +:+ x).
  rewrite !str_count_app, Hn. reflexivity.
Qed.

(** In a line with one quoted value, the needle can only start where the value's
    key ends like a name's. *)
Lemma needle_in_value key value name pre post :
  str_contains key QUOTE = false → plain value → plain name →
  key +:+ quoted value = pre +:+ needle name +:+ post → pre +:+ "name = " = key ∧ value = name.
Proof.
  intros Hk [Hv _] [Hn _] Heq.
  assert (str_count pre QUOTE = O) as Hpre.
  { apply (f_equal (λ s, str_count s QUOTE)) in Heq. rewrite !str_count_app, (needle_count name Hn) in Heq.
    apply str_count_contains in Hk, Hv. unfold quoted in Heq. change (String QUOTE ?x) with (String QUOTE EmptyString +:+ x) in Heq.
    rewrite !str_count_app, Hk, Hv in Heq. change (str_count (String QUOTE EmptyString) QUOTE) with 1%nat in Heq. lia. }
  assert (str_contains (pre +:+ "name = ") QUOTE = false) as Hpn by (apply str_count_contains; rewrite str_count_app, Hpre; reflexivity).
  assert (pre +:+ needle name +:+ post = (pre +:+ "name = ") +:+ String QUOTE (name +:+ String QUOTE post)) as Hr.
  { unfold needle, quoted. by rewrite !string_app_assoc, !string_app_cons, !string_app_assoc, string_app_nil. }
  rewrite Hr in Heq. unfold quoted in Heq. pose proof (f_equal (split_once QUOTE) Heq) as Hs.
  rewrite !split_once_app in Hs by done. injection Hs as -> Hs. split; [done|].
  apply (f_equal (split_once QUOTE)) in Hs. rewrite !split_once_app in Hs by done. by injection Hs.
Qed.

Lemma needle_plain name : plain name → str_contains (needle name) NL = false.
Proof.
  intros [_ Hn%str_count_contains]. apply str_count_contains. unfold needle, quoted. rewrite str_count_app.
  change (String QUOTE ?x) with (String QUOTE EmptyString +:+ x). rewrite !str_count_app, Hn. reflexivity.
Qed.

Lemma find_needle_line name l rest :
  plain name →
  str_find (needle name) (l +:+ String NL rest) =
  match str_find (needle name) l with Some x => Some (x +:+ String NL rest) | None => str_find (needle name) rest end.
Proof. intros Hp. apply str_find_line. by apply needle_plain. Qed.

Lemma find_needle_skip name ls rest :
  plain name → Forall (λ l, str_find (needle name) l = None) ls →
  str_find (needle name) (unlines (ls ++ rest)) = str_find (needle name) (unlines rest).
Proof. intros Hp. induction 1 as [|l ls Hl Hls IH]; [done|]. cbn [app unlines]. by rewrite find_needle_line, Hl. Qed.

Lemma no_name_needle name l : no_name l → str_find (needle name) l = None.
Proof. intros [Hl _]. unfold needle, quoted. exact (str_find_prefix ("name = " +:+ String QUOTE EmptyString) _ l Hl). Qed.

Lemma name_line_other name p : plain name → package_ok p → pkg_name p ≠ name → str_find (needle name) (needle (pkg_name p)) = None.
Proof.
  intros Hn (Hp & _) Hne. destruct (str_find _ _) as [r|] eqn:Hf; [|done]. apply str_find_Some in Hf as (pre & post & Heq & ->).
  by apply (needle_in_value "name = ") in Heq as [_ ?].
Qed.

Lemma strip_prefix_self s : strip_prefix s s = Some EmptyString.
Proof. induction s as [|a s IH]; [done|]. cbn [strip_prefix]. by rewrite Ascii.eqb_refl. Qed.

Lemma name_line_own name : str_find (needle name) (needle name) = Some (needle name).
Proof.
  pose proof (strip_prefix_self (needle name)) as Hs. destruct (needle name) as [|a s]; cbn [str_find]; by rewrite Hs.
Qed.

Lemma version_line_other name v : plain name → plain v → str_find (needle name) ("version = " +:+ quoted v) = None.
Proof.
  intros Hn Hv. destruct (str_find _ _) as [r|] eqn:Hf; [|done]. apply str_find_Some in Hf as (pre & post & Heq & ->).
  apply needle_in_value in Heq as [Heq _]; [|done..]. apply (f_equal String.length) in Heq as Hlen. rewrite length_string_app in Hlen.
  change (String.length "version = ") with 10%nat in Hlen. change (String.length "name = ") with 7%nat in Hlen.
  destruct pre as [|? [|? [|? [|? pre]]]]; cbn [String.length] in Hlen; try lia. discriminate Heq.
Qed.

(** *** Lines *)

Lemma strip_cr_quoted s : strip_suffix CR (s +:+ String QUOTE EmptyString) = None.
Proof.
  induction s as [|a s IH]; [by vm_compute|]. rewrite string_app_cons. cbn [strip_suffix].
  rewrite bool_decide_false; [by rewrite IH|]. unfold CR. intros [= _ Hs]. by destruct s.
Qed.

Lemma lines_cons l rest :
  str_contains l NL = false → strip_suffix CR l = None → lines (l +:+ String NL rest) = l :: lines rest.
Proof.
  intros Hl Hc. unfold lines. rewrite split_on_app, split_on_whole by done. cbn [app piece_lines].
  destruct (split_on NL rest) eqn:Hr; [by apply split_on_not_nil in Hr|]. by rewrite Hc.
Qed.

Lemma quoted_line key value : str_contains key NL = false → plain value → str_contains (key +:+ quoted value) NL = false ∧ strip_suffix CR (key +:+ quoted value) = None.
Proof.
  intros Hk [_ Hv]. split.
  - apply str_count_contains. apply str_count_contains in Hk, Hv. unfold quoted. change (String QUOTE ?x) with (String QUOTE EmptyString +:+ x).
    rewrite !str_count_app, Hk, Hv. reflexivity.
  - unfold quoted. rewrite <-string_app_cons, <-string_app_assoc. apply strip_cr_quoted.
Qed.

Lemma quoted_value key value : str_contains key QUOTE = false → plain value → split_on QUOTE (key +:+ quoted value) !! 1%nat = Some value.
Proof. intros Hk [Hv _]. unfold quoted. by rewrite split_on_app, split_on_app, !split_on_whole. Qed.

(** *** The scan *)

Lemma found_version name p rest :
  plain name → package_ok p → pkg_name p = name →
  (line ← List.find is_version_line (lines (unlines (needle name :: ("version = " +:+ quoted (pkg_version p)) :: rest)));
   split_on QUOTE line !! 1%nat) = Some (pkg_version p).
Proof.
  intros Hn (_ & Hv & _) _. cbn [unlines].
  destruct (quoted_line "name = " name) as [H1 H2]; [done..|]. destruct (quoted_line "version = " (pkg_version p)) as [H3 H4]; [done..|].
  rewrite lines_cons by done. rewrite lines_cons by done. cbn [List.find].
  assert (is_version_line (needle name) = false) as -> by reflexivity.
  assert (is_version_line ("version = " +:+ quoted (pkg_version p)) = true) as -> by reflexivity.
  cbn [mbind option_bind]. by apply quoted_value.
Qed.

Lemma locked_version_needle lock name :
  locked_version lock name =
  default "unknown"%string (text ← str_find (needle name) lock; line ← List.find is_version_line (lines text); split_on QUOTE line !! 1%nat).
Proof. reflexivity. Qed.

Lemma locked_version_packages name ps :
  plain name → Forall package_ok ps →
  locked_version (unlines (mjoin (package_text <$> ps))) name =
  default "unknown"%string (pkg_version <$> List.find (λ p, bool_decide (pkg_name p = name)) ps).
Proof.
  intros Hn. rewrite locked_version_needle. induction 1 as [|p ps Hp Hps IH]; [by vm_compute|].
  change (mjoin (package_text <$> p :: ps)) with (package_text p ++ mjoin (package_text <$> ps)).
  unfold package_text at 1. cbn [List.find]. rewrite <-app_assoc. cbn [app unlines].
  rewrite find_needle_line by done. assert (str_find (needle name) "[[package]]" = None) as -> by reflexivity.
  case_bool_decide as Hname.
  - rewrite find_needle_line by done. change ("name = " +:+ quoted (pkg_name p)) with (needle (pkg_name p)). rewrite Hname, name_line_own.
    cbn [mbind option_bind fmap option_fmap option_map].
    pose proof (found_version name p ((pkg_lines p ++ [EmptyString]) ++ mjoin (package_text <$> ps)) Hn Hp Hname) as Hf.
    cbn [unlines] in Hf. by rewrite Hf.
  - rewrite find_needle_line by done. change ("name = " +:+ quoted (pkg_name p)) with (needle (pkg_name p)).
    rewrite name_line_other, find_needle_line, version_line_other by (done || apply Hp).
    rewrite find_needle_skip; [exact IH|done|]. destruct Hp as (_ & _ & Hls). apply Forall_app. split; [|by repeat constructor].
    eapply Forall_impl; [exact Hls|]. intros l. apply no_name_needle.
Qed.

(** The recorded versions are the resolved ones: on the text of a lock file, a
    preamble and a block per package, the scan returns the version of the first
    package with exactly the given name, also when other names contain it, and
    [unknown] only when there is none; so the script prints for each of the three
    crates the version cargo resolved. *)
Theorem locked_version_exact preamble ps name :
  plain name → Forall no_name preamble → Forall package_ok ps →
  locked_version (lock_text preamble ps) name =
  default "unknown"%string (pkg_version <$> List.find (λ p, bool_decide (pkg_name p = name)) ps).
Proof.
  intros Hn Hpre Hps. rewrite <-(locked_version_packages name ps Hn Hps). unfold lock_text.
  rewrite !locked_version_needle, find_needle_skip; [done|done|]. eapply Forall_impl; [exact Hpre|]. intros l. apply no_name_needle.
Qed.

Definition toy_lock : list Package :=
  [mkPackage "peat-mesh-extra" "9.9.9" []; mkPackage "peat-mesh" "0.9.0-rc.39" ["dependencies = ["; "]"]; mkPackage "peat-schema" "0.2.1" []]%string.

Lemma locked_version_exact_witness : locked_version (lock_text ["version = 4"%string; EmptyString] toy_lock) "peat-mesh" = "0.9.0-rc.39"%string.
Proof.
  rewrite (locked_version_exact ["version = 4"%string; EmptyString] toy_lock "peat-mesh").
  - vm_compute. reflexivity.
  - split; reflexivity.
  - repeat constructor.
  - repeat constructor.
Defined.
