(* ===== verification/Listen.v ===== *)
(** * The listener

    Model of how [main] ([src/main.rs]) prepares the address it serves on: the choice
    between a Unix socket and TCP, and on Unix the removal of what a former process
    left at the path, the directories above it and the bind. The file system is that
    of [Inbox], in which every call can fail. *)

From S2P Require Import Prelude Paths PathFacts Ingest Inbox InboxFacts.

Inductive Listener (addr : Type) := ListenUnix (path : string) | ListenTcp (a : addr).
Arguments ListenUnix {addr}. Arguments ListenTcp {addr}.

(** The address of [--listen]; [parse] is [SocketAddr]'s. *)
Definition listen_target {addr : Type} (parse : string → option addr) (listen : string) : option (Listener addr) :=
  match strip_prefix "unix://" listen with
  | Some path => Some (ListenUnix path)
  | None => ListenTcp <$> parse (default listen (strip_prefix "tcp://" listen))
  end.

Section unix.
Context (cwd : list string).

(** [Path::exists]: an error counts as absent *)
Definition exists_at (path : list Component) : Io bool := λ w, let '(r, w') := stat cwd path w in (Ok (is_ok r), w').

(** [UnixListener::bind]: the socket is a new entry *)
Definition bind_socket (path : list Component) : Io unit :=
  syscall;;
  loc ← resolve cwd path;
  fs ← gets w_fs;
  match fs !! loc with
  | Some _ => fail io_error
  | None => if bool_decide (loc = []) then fail io_error else set_fs (<[loc := FileNode []]> fs)
  end.

(** The Unix branch up to the listener. *)
Definition listen_unix (uds_path : string) : Io unit :=
  exists_at (components uds_path) ≫= λ present : bool,
  (if present then remove_file cwd (components uds_path) else mret tt);;
  (match path_parent (components uds_path) with Some parent => create_dir_all cwd parent | None => mret tt end);;
  bind_socket (components uds_path).

End unix.

(** ** The places a start touches

    For an absolute path the working directory does not matter; it is the root here. *)

Section listener.
Context (names : list string) (sock uds_path : string) (fs0 : Fs).
Context (Hpath : components uds_path = RootDir :: (Normal <$> (names ++ [sock]))).

Abbreviation loc := (names ++ [sock]).

(** A directory above the socket. *)
Definition above (l : list string) : Prop := l ≠ [] ∧ l `prefix_of` names.

(** No file is in the way. *)
Definition clear_way (fs : Fs) : Prop := ∀ l c, above l → fs !! l ≠ Some (FileNode c).

(** The directories above exist. *)
Definition made (fs : Fs) : Prop := ∀ l, above l → fs !! l = Some DirNode.

(** Only the socket's entry and the directories above it differ from the start, a
    directory is never replaced, and an entry has its directories. *)
Definition confined (fs : Fs) : Prop :=
  (∀ l, l ≠ loc → ¬ above l → fs !! l = fs0 !! l) ∧
  (∀ l, above l → fs !! l = fs0 !! l ∨ (fs0 !! l = None ∧ fs !! l = Some DirNode)) ∧
  (fs !! loc = Some DirNode ↔ fs0 !! loc = Some DirNode) ∧
  (is_Some (fs !! loc) → made fs).

Lemma loc_not_above : ¬ above loc.
Proof. intros [_ Hp]. apply prefix_length in Hp. rewrite length_app in Hp. cbn in Hp. lia. Qed.

Lemma path_above : path_parent (components uds_path) = Some (RootDir :: (Normal <$> names)).
Proof.
  unfold path_parent. rewrite Hpath, fmap_app. cbn [fmap list_fmap]. rewrite app_comm_cons, last_snoc. by rewrite removelast_last.
Qed.

Lemma locate_path from : locate from (components uds_path) = loc.
Proof. rewrite Hpath. cbn. by rewrite locate_names. Qed.

Lemma confined_dir fs l : confined fs → above l → fs !! l = None → confined (<[l := DirNode]> fs).
Proof.
  intros (Ho & Ha & Hl & Hr) Hab Hn. assert (l ≠ loc) as Hne by (intros ->; by apply loc_not_above). split_and!.
  - intros l' H1 H2. rewrite lookup_insert_ne by (intros <-; done). by apply Ho.
  - intros l' Hl'. destruct (decide (l' = l)) as [->|]; [|rewrite lookup_insert_ne by done; by apply Ha].
    right. rewrite lookup_insert_eq. split; [|done]. destruct (Ha l Hl') as [<-|[? ?]]; [done|congruence].
  - by rewrite lookup_insert_ne.
  - rewrite lookup_insert_ne by done. intros Hm%Hr. by rewrite (Hm l Hab) in Hn.
Qed.

Lemma confined_socket fs x :
  confined fs → fs !! loc ≠ Some DirNode → x ≠ Some DirNode → (is_Some x → made fs) → confined (partial_alter (λ _, x) loc fs).
Proof.
  intros (Ho & Ha & Hl & Hr) Hn Hx Hm. assert (∀ l, above l → partial_alter (λ _, x) loc fs !! l = fs !! l) as Hsame.
  { intros l Hab. apply lookup_partial_alter_ne. intros <-. by apply loc_not_above. }
  split_and!.
  - intros l H1 H2. rewrite lookup_partial_alter_ne by done. by apply Ho.
  - intros l Hab. rewrite Hsame by done. by apply Ha.
  - rewrite lookup_partial_alter_eq. tauto.
  - rewrite lookup_partial_alter_eq. intros Hs l Hab. rewrite Hsame by done. by apply Hm.
Qed.

Lemma confined_clear fs : confined fs → clear_way fs0 → clear_way fs.
Proof. intros (_ & Ha & _) Hc l c Hab Hl. destruct (Ha l Hab) as [E|[_ E]]; [|congruence]. rewrite E in Hl. by eapply Hc. Qed.

(** A path that resolves has its directories. *)
Lemma walk_dirs_made fs rest before l :
  before ++ rest = names → walk fs before (Normal <$> (rest ++ [sock])) = Some l →
  ∀ k, (length before ≤ k ≤ length names)%nat → is_dir_at fs (take k names) = true.
Proof.
  revert before. induction rest as [|s rest IH]; intros before Hn Hw k Hk.
  - rewrite app_nil_r in Hn. subst before. rewrite take_ge by lia. cbn in Hw. by destruct (is_dir_at fs names).
  - cbn in Hw. destruct (is_dir_at fs before) eqn:Hd; [|done]. destruct (decide (k = length before)) as [->|Hne].
    + rewrite <-Hn, take_app_length. done.
    + apply (IH (before ++ [s])); [by rewrite <-app_assoc|done|]. rewrite length_app. cbn. lia.
Qed.

Lemma path_made fs l : walk fs [] (components uds_path) = Some l → made fs.
Proof.
  rewrite Hpath. cbn. intros Hw p [Hne [q Hq]].
  pose proof (walk_dirs_made fs names [] l eq_refl Hw (length p)) as Hd. rewrite Hq, take_app_length, length_app in Hd. cbn in Hd.
  specialize (Hd ltac:(lia)). unfold is_dir_at in Hd. destruct p; [done|]. by apply bool_decide_eq_true in Hd.
Qed.

(** ** Whatever fails *)

Lemma wp_dirs_confined rest before w :
  before ++ rest = names → confined (w_fs w) → wp (create_dirs before (Normal <$> rest)) (λ _ w', confined (w_fs w')) w.
Proof.
  revert before w. induction rest as [|s rest IH]; intros before w Hn Hc; [done|]. rewrite fmap_cons. cbn [create_dirs].
  assert ((before ++ [s]) ++ rest = names) as Hn' by by rewrite <-app_assoc.
  wp_step. wp_step. destruct (w_fs w !! _) as [[]|] eqn:E; [by wp_step|by apply IH|].
  wp_step. apply wp_call; [|done]. intros faults. wp_step. unfold set_fs. wp_step. apply IH; [done|]. cbn.
  apply confined_dir; [done| |done]. split; [by destruct before|]. exists rest. done.
Qed.

Lemma wp_exists (Q : result IoError bool → World → Prop) w :
  (∀ b w', w_fs w' = w_fs w → Q (Ok b) w') → wp (exists_at [] (components uds_path)) Q w.
Proof.
  intros HQ. unfold wp, exists_at. destruct (stat [] _ w) as [r w'] eqn:E. apply HQ.
  revert r w' E. apply (wp_elim (stat [] (components uds_path)) (λ _ w', w_fs w' = w_fs w)).
  unfold stat. wp_step. apply wp_call; [|done]. intros faults. wp_step. apply wp_resolve; [done|]. intros Hw. wp_step. wp_step.
  repeat case_match; by wp_step.
Qed.

Lemma wp_remove w :
  confined (w_fs w) → wp (remove_file [] (components uds_path)) (λ _ w', confined (w_fs w')) w.
Proof.
  intros Hc. unfold remove_file. wp_step. apply wp_call; [|done]. intros faults. wp_step. apply wp_resolve; [done|]. intros Hw.
  rewrite locate_path. wp_step. wp_step. cbn. destruct (w_fs w !! loc) as [[c|]|] eqn:E; [|by wp_step..].
  unfold set_fs. wp_step. cbn. apply confined_socket; [done|by rewrite E|done|by intros [? ?]].
Qed.

Lemma wp_listen faults :
  (is_Some (fs0 !! loc) → made fs0) →
  wp (listen_unix [] uds_path)
    (λ r w', confined (w_fs w') ∧ (r = Ok tt → w_fs w' !! loc = Some (FileNode []))) (world_new fs0 faults).
Proof.
  intros Hroot. assert (confined fs0) as Hstart by (split_and!; [done|by left|done|done]).
  unfold listen_unix. wp_step. apply wp_exists. intros b w1 H1. cbn in H1.
  wp_step. eapply (wp_mono _ (λ _ w', confined (w_fs w'))).
  { destruct b; [apply wp_remove; by rewrite H1|wp_step; by rewrite H1]. }
  intros [[]|e] w2 H2; [|done]. rewrite path_above.
  wp_step. eapply (wp_mono _ (λ _ w', confined (w_fs w'))).
  { unfold create_dir_all. cbn [create_dirs]. by apply (wp_dirs_confined names []). }
  intros [[]|e] w3 H3; [|done]. unfold bind_socket. wp_step. apply wp_call; [|done]. intros faults'. wp_step.
  apply wp_resolve; [done|]. intros Hw%path_made. rewrite locate_path. wp_step. wp_step. cbn.
  destruct (w_fs w3 !! loc) eqn:E; [by wp_step|]. rewrite bool_decide_false by (by destruct names).
  unfold set_fs. wp_step. cbn. split; [|by rewrite lookup_insert_eq]. apply confined_socket; [done|by rewrite E|done|done].
Qed.

(** ** When nothing fails *)

Lemma wp_dirs_made rest before w :
  before ++ rest = names → w_faults w = [] → clear_way (w_fs w) →
  (∀ l, above l → (length l ≤ length before)%nat → w_fs w !! l = Some DirNode) →
  wp (create_dirs before (Normal <$> rest)) (λ r w', r = Ok tt ∧ w_faults w' = [] ∧ made (w_fs w') ∧ w_fs w' !! loc = w_fs w !! loc) w.
Proof.
  revert before w. induction rest as [|s rest IH]; intros before w Hn Hf Hc Hd.
  { split_and!; try done. intros l Hl. apply Hd; [done|]. destruct Hl as [_ Hp%prefix_length]. rewrite <-Hn, app_nil_r in Hp. done. }
  assert ((before ++ [s]) ++ rest = names) as Hn' by by rewrite <-app_assoc.
  assert (above (before ++ [s])) as Hab by (split; [by destruct before|by exists rest]).
  assert (∀ fs : Fs, (∀ l, above l → (length l ≤ length before)%nat → fs !! l = Some DirNode) → fs !! (before ++ [s]) = Some DirNode →
    ∀ l, above l → (length l ≤ length (before ++ [s]))%nat → fs !! l = Some DirNode) as Hnext.
  { intros fs H1 H2 l Hl Hlen. rewrite length_app in Hlen. cbn in Hlen. destruct (decide (length l ≤ length before)%nat) as [?|Hgt]; [by apply H1|].
    destruct Hl as [_ [k2 Hk2]]. assert (l = before ++ [s]) as ->; [|done].
    apply (f_equal (take (length before + 1))) in Hk2. rewrite <-Hn' in Hk2.
    rewrite take_app_length' in Hk2 by (rewrite length_app; cbn; lia). rewrite take_app_length' in Hk2 by lia. done. }
  rewrite fmap_cons. cbn [create_dirs]. wp_step. wp_step. destruct (w_fs w !! (before ++ [s])) as [[c|]|] eqn:E.
  - by destruct (Hc _ c Hab).
  - apply (IH (before ++ [s])); try done. by apply Hnext.
  - wp_step. apply wp_call_ok; [done|]. wp_step. unfold set_fs. wp_step.
    eapply wp_mono; [apply (IH (before ++ [s])); try done|].
    + intros l c Hl. cbn. destruct (decide (l = before ++ [s])) as [->|]; [by rewrite lookup_insert_eq|]. rewrite lookup_insert_ne by done. by apply Hc.
    + apply Hnext; [|cbn; by rewrite lookup_insert_eq]. intros l Hl Hlen. cbn. rewrite lookup_insert_ne; [by apply Hd|].
      intros <-. rewrite length_app in Hlen. cbn in Hlen. lia.
    + intros r w' (-> & ? & ? & Hloc). split_and!; try done. rewrite Hloc. cbn. rewrite lookup_insert_ne; [done|]. intros Hl. apply loc_not_above. by rewrite <-Hl.
Qed.

Lemma walk_made fs rest before :
  before ++ rest = names → made fs → walk fs before (Normal <$> (rest ++ [sock])) = Some loc.
Proof.
  revert before. induction rest as [|s rest IH]; intros before Hn Hm.
  - rewrite app_nil_r in Hn. subst before. cbn.
    assert (is_dir_at fs names = true) as ->; [|done]. unfold is_dir_at. destruct names as [|x l] eqn:E; [done|].
    apply bool_decide_true. apply Hm. split; [done|]. by rewrite E.
  - cbn. assert (is_dir_at fs before = true) as ->.
    { unfold is_dir_at. destruct before as [|x l] eqn:E; [done|]. apply bool_decide_true. apply Hm. split; [done|]. by exists (s :: rest). }
    apply IH; [|done]. by rewrite <-app_assoc.
Qed.

Lemma wp_resolve_made (Q : result IoError (list string) → World → Prop) w :
  made (w_fs w) → Q (Ok loc) w → wp (resolve [] (components uds_path)) Q w.
Proof.
  intros Hm HQ. apply (wp_resolve_ok [] _ loc); [|done]. rewrite Hpath. cbn [walk is_dir_at]. by apply (walk_made (w_fs w) names []).
Qed.

(** Whether something is there, when nothing fails. *)
Lemma exists_exact fs :
  fs !! loc ≠ Some DirNode → (is_Some (fs !! loc) → made fs) →
  exists_at [] (components uds_path) (world_new fs []) = (Ok (bool_decide (is_Some (fs !! loc))), world_new fs []).
Proof.
  intros Hd Hr. unfold exists_at, stat, resolve, mbind, st_err_bind.
  change (syscall (world_new fs [])) with (Ok (E := IoError) tt, world_new fs []). cbn -[walk].
  destruct (walk fs [] (components uds_path)) as [l|] eqn:Hw; cbn.
  - pose proof (walk_locate _ _ _ _ Hw) as ->. rewrite locate_path. destruct (fs !! loc) as [[c|]|] eqn:E; [|done|].
    + rewrite bool_decide_true by eauto. done.
    + rewrite bool_decide_false by (by destruct names). rewrite bool_decide_false by (by intros [? ?]). done.
  - rewrite bool_decide_false; [done|]. intros Hm%Hr. rewrite Hpath in Hw. cbn in Hw. by rewrite (walk_made fs names []) in Hw.
Qed.

(** A faultless start from a state with a clear way binds the socket. *)
Lemma wp_listen_ok fs :
  clear_way fs → fs !! loc ≠ Some DirNode → (is_Some (fs !! loc) → made fs) →
  wp (listen_unix [] uds_path) (λ r w', r = Ok tt ∧ w_fs w' !! loc = Some (FileNode [])) (world_new fs []).
Proof.
  intros Hc Hd Hr. unfold listen_unix. wp_step. unfold wp at 1. rewrite exists_exact by done. cbn [fst snd].
  wp_step. eapply (wp_mono _ (λ r w', r = Ok tt ∧ w_faults w' = [] ∧ clear_way (w_fs w') ∧ w_fs w' !! loc = None)).
  { case_bool_decide as Hs.
    - pose proof (Hr Hs) as Hm. destruct Hs as [[c|] Hs]; [|done]. unfold remove_file. wp_step. apply wp_call_ok; [done|]. wp_step.
      apply wp_resolve_made; [done|]. wp_step. wp_step. cbn. rewrite Hs. unfold set_fs. wp_step. cbn.
      split_and!; [done|done| |by rewrite lookup_delete_eq]. intros l k Hab. rewrite lookup_delete_ne; [by apply Hc|].
      intros <-. by apply loc_not_above.
    - wp_step. split_and!; try done. cbn. destruct (fs !! loc) eqn:E; [|done]. by destruct Hs. }
  intros r w2 (-> & Hf2 & Hc2 & Hn2). rewrite path_above. wp_step.
  eapply wp_mono.
  { unfold create_dir_all. cbn [create_dirs]. apply (wp_dirs_made names []); try done. intros l [Hne _] Hlen. by destruct l; cbn in Hlen; [|lia]. }
  intros r w3 (-> & Hf3 & Hm3 & Hl3). unfold bind_socket. wp_step. apply wp_call_ok; [done|]. wp_step.
  apply wp_resolve_made; [done|]. wp_step. wp_step. rewrite Hl3, Hn2.
  rewrite bool_decide_false by (by destruct names). unfold set_fs. wp_step. cbn. by rewrite lookup_insert_eq.
Qed.

End listener.

(** [C37] A node can always be started again on its socket: whatever calls fail in an
    attempt, it changes nothing but the socket's entry and missing directories above
    it, and a directory at the path stays; and when no file is in the way and the path
    is not a directory, the next attempt in which nothing fails binds the socket,
    whatever the failed one, or a killed process, left there. *)
Theorem socket_rebinds names sock uds_path fs faults :
  components uds_path = RootDir :: (Normal <$> (names ++ [sock])) → (is_Some (fs !! (names ++ [sock])) → made names fs) →
  let '(r, w) := listen_unix [] uds_path (world_new fs faults) in
  confined names sock fs (w_fs w) ∧ (r = Ok tt → w_fs w !! (names ++ [sock]) = Some (FileNode [])) ∧
  (clear_way names fs → fs !! (names ++ [sock]) ≠ Some DirNode →
   ∃ w', listen_unix [] uds_path (world_new (w_fs w) []) = (Ok tt, w') ∧ w_fs w' !! (names ++ [sock]) = Some (FileNode [])).
Proof.
  intros Hpath Hroot. destruct (listen_unix [] uds_path (world_new fs faults)) as [r w] eqn:Hrun.
  destruct (wp_elim _ _ _ (wp_listen names sock uds_path fs Hpath faults Hroot) r w Hrun) as [Hc Hok]. split_and!; [done|done|].
  intros Hclear Hd. destruct Hc as (Ho & Ha & Hdir & Hr) eqn:Hce. clear Hce.
  destruct (listen_unix [] uds_path (world_new (w_fs w) [])) as [r' w'] eqn:Hrun'.
  destruct (wp_elim _ _ _ (wp_listen_ok names sock uds_path Hpath (w_fs w)
    (confined_clear names sock fs (w_fs w) (conj Ho (conj Ha (conj Hdir Hr))) Hclear) ltac:(by rewrite Hdir) Hr) r' w' Hrun') as [-> Hs].
  by exists w'.
Qed.

(** ** Witness: a stale socket *)

Definition stale_fs : Fs := {[ ["run"%string] := DirNode; ["run"; "peat.sock"]%string := FileNode [] ]}.

Lemma socket_rebinds_witness :
  (listen_unix [] "/run/peat.sock" (world_new stale_fs [None; None; Some O])).1 = Err io_error ∧
  ∃ w', listen_unix [] "/run/peat.sock" (world_new (w_fs (listen_unix [] "/run/peat.sock" (world_new stale_fs [None; None; Some O])).2) []) = (Ok tt, w').
Proof.
  split; [vm_compute; reflexivity|].
  pose proof (socket_rebinds ["run"%string] "peat.sock" "/run/peat.sock" stale_fs [None; None; Some O]) as Hall.
  destruct (listen_unix [] "/run/peat.sock" (world_new stale_fs [None; None; Some O])) as [r w].
  destruct Hall as (_ & _ & Hnext).
  - vm_compute. reflexivity.
  - intros _ l [Hne Hp]. destruct l as [|x l]; [done|]. apply prefix_cons_inv_1 in Hp as Hx. apply prefix_cons_inv_2, prefix_nil_inv in Hp. subst. reflexivity.
  - destruct Hnext as (w' & Hrun & _).
    + intros l c [Hne Hp]. destruct l as [|x l]; [done|]. apply prefix_cons_inv_1 in Hp as Hx. apply prefix_cons_inv_2, prefix_nil_inv in Hp. subst. discriminate.
    + discriminate.
    + exists w'. exact Hrun.
Defined.
